(* ===== verification/_CoqProject ===== *)
-Q . S2P
Prelude.v
GoSlice.v
GoIO.v
ByteBuffer.v
ByteBufferSpec.v
FenwickTree.v
Slots.v
SlotSequencer.v
BipBuffer.v
MirroredBuffer.v
LinkedList.v
Utf8.v
Codec.v
LengthFrame.v
WebsocketFrame.v
WebsocketWire.v
WebsocketCodec.v
CodecRoundTrip.v
WebsocketStream.v
WebsocketStreamSpec.v
WebsocketStreamProps.v
WebsocketAsync.v
WebsocketLegal.v
WebsocketStates.v
StreamsTalk.v
NetAddr.v
SocketOpts.v
ParseAddr.v
Poller.v
PollerSpec.v
Goroutines.v
Kqueue.v
PollerRuns.v
KqueueSpec.v
EventLoop.v
FileIO.v
Timers.v
Adapter.v
PacketConn.v
ListenConn.v
UDPPeer.v
RunLoop.v
LoopInvariant.v
FileIOSpec.v
NetIOSpec.v
TimersSpec.v
RunLoopSpec.v
LoopBoot.v
EventLoopProps.v
PollersAgree.v
LoopPotential.v
LoopCosts.v
LoopLiveness.v
Sockets.v
SocketsSpec.v
Multicast.v
MulticastSpec.v
SocketDevice.v
HandshakeKeys.v
Handshake.v
HandshakeSpec.v
Sequencing.v
SequencingSpec.v
SequencingSender.v
SequencingTalk.v
SequencingBip.v
