(* ===== verification/Prelude.v ===== *)
(** * Sonic: a verified model of the asynchronous I/O library

    Sonic is a Go library for networking on a single goroutine.  An executor ([IO]) polls the
    kernel and calls the callbacks of files, sockets, timers and peers; byte buffers carry
    what is read and written; codecs cut the bytes into messages; a WebSocket client is built
    on top.  The development translates these parts into Gallina, one definition per function
    of the source and with its name where Rocq allows it, and proves what they promise.

    ** How the code is modelled

    A Go computation is a value of [res] (this file): it returns, panics (index out of range,
    nil dereference, explicit panic) or, where a loop was given fuel, runs out of it.
    State is passed explicitly; pointers to shared objects (slots, files, timers, the user's
    buffers) are indices into arenas.  Slices keep their capacity and the bytes behind their
    length ([GoSlice.v]), because the buffers extend slices back over them.  Integers are [Z];
    [i64] is the wrap-around of Go's [int], written where an operand is chosen by a caller or
    by the wire.  Errors are the values of [error]; errno values are [ErrOther n], errors made
    with [fmt.Errorf] are [ErrOther] with a negative number.

    What is not under [src/] is a type class with the laws its documentation states, and has an
    instance that a witness evaluates: [Reader], [Writer] and their laws ([GoIO.v]), [Epoll]
    (epoll_ctl, epoll_wait; [Poller.v]), [Kqueue] (kevent; [Kqueue.v]), [System] (read, write,
    close, timerfd and datagram calls; [EventLoop.v]), [Sockets] (socket, bind, connect,
    options, the clock; [Sockets.v]), [Interfaces] and [OptionStore] (network interfaces and
    kernel settings; [Multicast.v], [MulticastSpec.v]), [FramePool] (sync.Pool;
    [WebsocketStream.v]), [Http] and [Network] (net/http, net/url, dialling and TLS;
    [Handshake.v]), [Waker] (eventfd and pipe; [Goroutines.v]), [DeviceStore]
    (SO_BINDTODEVICE; [SocketDevice.v]), [BytesPool], [Rand] and [Wire] (the pool and the
    random numbers of the sequencing examples, and what leaves a socket; [SequencingTalk.v]),
    [GoRuntime] (the growth of slices).  The epoll instance may refuse any request; [refused]
    records that it has, and the theorems on the event loop say what holds in any case and
    what as long as nothing was refused.  After [Close] of a poller every call on its
    descriptors fails.

    ** The files

    - Buffers.  [GoSlice.v]: slices and [src/util/bytes.go].  [ByteBuffer.v] and
      [ByteBufferSpec.v]: [src/byte_buffer.go], every method, as a refinement of four byte
      sequences.  [FenwickTree.v]: [src/util/fenwick_tree.go].  [Slots.v], [SlotSequencer.v]:
      [src/slot.go], [slot_offsetter.go], [sequenced_slots.go], [slot_sequencer.go].
      [BipBuffer.v]: [src/bip_buffer.go].  [MirroredBuffer.v]: [src/bytes/mirrored_buffer.go]
      with the system calls of its constructor ([util_linux.go]); a claim is a window on the
      double mapping.  [LinkedList.v]: [src/util/list.go], nodes in a heap with next pointers.
    - Codecs.  [Codec.v]: [src/codec.go], with [LawfulDecoder] as what a connection relies on.
      [LengthFrame.v]: [src/codec/frame/frame.go].  [WebsocketFrame.v], [WebsocketWire.v]:
      frames and the wire format of RFC 6455 ([frame.go], [rfc6455.go], [util.go] of
      [src/codec/websocket]).  [WebsocketCodec.v]: [frame_codec.go].  [CodecRoundTrip.v]:
      connections end to end.  [Utf8.v]: [unicode/utf8.Valid].
    - The WebSocket stream.  [WebsocketStream.v]: [stream.go] in its blocking form, with
      [WebsocketStreamSpec.v] and [WebsocketStreamProps.v]; [WebsocketAsync.v]: its
      asynchronous half, callbacks as continuations run by an event loop; [WebsocketLegal.v]:
      what either half may send; [WebsocketStates.v]: how the state moves under any mix of the
      two; [StreamsTalk.v]: two streams of opposite roles.
      [HandshakeKeys.v], [Handshake.v], [HandshakeSpec.v]: the opening handshake with its keys.
    - The event loop.  [Poller.v], [PollerSpec.v]: [src/internal/poll_linux.go],
      [definitions.go], [eventfd.go].  [Kqueue.v], [KqueueSpec.v]: the poller of the BSD builds,
      [src/internal/poll_bsd.go], [timer_bsd.go], [pipe.go]; [PollerRuns.v] and [PollersAgree.v]
      run both pollers side by side.  [Goroutines.v]: [Post] and [dispatch] again, one access to
      shared memory at a time, in any interleaving of goroutines that post and one that polls;
      a [Post] that is not interleaved is the single step of [Poller.v].  [EventLoop.v]: the
      executor of [src/io.go] and the state of the objects on it.  [FileIO.v] ([src/file.go]),
      [Timers.v] ([src/timer.go], [src/internal/timer_linux.go]), [Adapter.v] ([src/async_adapter.go]), [PacketConn.v]
      ([src/packet.go]), [ListenConn.v] ([src/listen_conn.go]) and [UDPPeer.v]
      ([src/multicast/peer.go], [reactor.go], [stats.go]) are their operations, and [RunLoop.v]
      runs them: user callbacks are programs ([prog]), the trees of the calls they make, so a
      callback may start, cancel and close anything.  [LoopInvariant.v] states the invariant;
      [FileIOSpec.v], [NetIOSpec.v], [TimersSpec.v] and [RunLoopSpec.v] prove that every
      operation keeps it, [LoopBoot.v] that starting the loop establishes it, and
      [EventLoopProps.v] draws the conclusions.  [LoopPotential.v], [LoopCosts.v] and
      [LoopLiveness.v] give every operation a cost and show that a loop with finitely much to do
      comes to rest.
    - Sockets.  [NetAddr.v] ([src/internal/util_unix.go]), [SocketOpts.v] ([src/sonicopts]),
      [ParseAddr.v] (netip.ParseAddr), [Sockets.v] and [SocketsSpec.v]
      ([src/internal/socket_unix.go], [src/conn.go], the constructors of packet connections
      and listeners), [Multicast.v] and [MulticastSpec.v] ([src/net/ipv4], [src/socket.go],
      [src/multicast]), [SocketDevice.v] (the rest of [src/socket.go], [src/socket_linux.go]).
    - Clients of the buffers.  [Sequencing.v], [SequencingSpec.v]: the receivers of
      [src/examples/sequencing] on a byte buffer, which put datagrams in order with the slot
      sequencer, with copies or with pooled buffers; [SequencingBip.v]: the one on a bip buffer;
      [SequencingSender.v]: the sender, on [UDPPeer.Write]; [SequencingTalk.v]: sender and
      receivers together.

    ** What the theorems show

    - Buffers: [bytebuffer_refines] and [bytebuffer_stream] (no method panics within its
      contract, no byte is lost or reordered), [WriteTo_drains], [save_then_discard];
      [fenwick_refines]; [sequenced_slots_map] and [sequencer_store] (slots and save area are a
      map from sequence numbers to bytes); [bip_fifo], [bip_slices], [mirrored_fifo],
      [mirrored_new]; [linked_list_refines]; [receivers_in_order] (packets that arrive in any
      order, lost and repeated, are processed once each and in order), [sequencing_end_to_end]
      (the sender fills the gaps it leaves, so all that it sends is processed, given room) and
      [bip_reader_order] (in order, but not all that could be).
    - Codecs: [frame_build], [frame_read], [length_roundtrip], [conn_reads_items] (whatever way
      the bytes are cut), [async_read_agrees], [frames_end_to_end].
    - Stream: [handle_frame_reacts], [stream_write], [next_message_delivers],
      [async_message_delivers], [streams_talk] (what one stream writes the other reads, except
      that a server does not unmask), [state_progress] (no stream
      becomes active again), [closing_handshake], [frames_legal] (only
      frames RFC 6455 allows are ever queued, by calls or in answer); [handshake_sound] (a
      stream becomes active only if the server proved it has seen the key) and
      [handshake_then_message] (frames that arrive with the response are delivered).
    - Event loop: [event_loop_accounts] (after any run, pending events, armed slots and the
      handlers agree, nothing panics or hangs, and the kernel's interest list agrees as long
      as it refused nothing),
      [callback_depth] (callbacks nest at most [MaxCallbackDispatch] + 1 deep) and
      [loop_comes_to_rest] (a bounded program leaves nothing pending after a number of waits
      given in advance, unless the kernel refused to watch a descriptor).  On BSD [kqueue_keeps_watch] (every armed event is registered, although
      changes are queued), and [pollers_agree]: the two pollers behave alike, up to two
      kinds of errors that only one of them reports.
      Between goroutines [posts_delivered] (no handler is lost, repeated or reordered, and no
      wake-up is missed; a handler that posts deadlocks); [pending_race]: arming an event
      during a [Post] can lose a count.
    - Sockets: [listen_accounts] (no descriptor is lost, except when setting it non-blocking
      fails), [connect_ends],
      [options_are_a_map], [membership_requests], [join_on_interface],
      [peer_settings_agree], [socket_device].
    - Defects the proofs met are theorems too, for instance [negative_length_panics],
      [failed_flush_repeats], [closed_file_nests], [mirrored_three_pages],
      [bound_dial_fails], [failed_dial_leaks], [outbound_is_any].

    ** Fuel and bounds

    Loops that are not structural take fuel, and a theorem that such a loop completes says how
    much is enough: the Fenwick loops turn at most once per bit or index of the tree, binary
    search at most the number of slots, [ReadNext] and [NextMessage] at most once per byte and
    frame still to come, [WriteTo] at most once per byte, [connect] at most once per nanosecond
    it may wait.  [RemoveValue] of the linked list is shown to diverge.  [Run], [RunPending],
    [RunWarm] and [Poll] run for ever or as long as work arrives; each turn is total, and
    [RunPending] ends within the number of operations still to be started, the refusals of the
    system and one.  Buffer theorems assume sizes below 2^59 to 2^61, far above what an
    allocation can return.

    ** Not modelled

    The BSD halves of the sockets: above the poller the development follows the Linux build.  The
    system calls that create and close descriptors of the pollers.  Other goroutines: in the
    event loop they appear as [Post] steps between polls; their interleavings are modelled in
    [Goroutines.v] for [Post], [dispatch] and the counter, under sequential consistency, and
    nowhere else, since nothing else of the library may be used from another goroutine.  Also
    left out: terminal output and floating-point statistics in [src/util], the performance
    ratios of [Stats], CPU pinning and clocks, read-only getters, the sequencing sender without
    a rate (an endless loop over the same step), the test server, benchmarks and the other example programs, which only call the library (one does not compile). *)

From Stdlib Require Export ZArith Lia.
From Stdlib Require Import Strings.Byte.
From stdpp Require Export base tactics numbers list list_numbers option.

#[export] Set Default Goal Selector "!".
Open Scope Z_scope.

(** * Results of Go code *)

(** A Go computation returns, panics, or (for a loop translated with fuel)
    runs out of fuel.  No theorem identifies [NoFuel] with a return: a claim that
    a loop completes is a claim that it yields [Ret]. *)
Inductive res (A : Type) : Type :=
| Ret (a : A)
| Panic
| NoFuel.
Arguments Ret {A} a.
Arguments Panic {A}.
Arguments NoFuel {A}.

#[export] Instance res_ret : MRet res := fun A a => Ret a.
#[export] Instance res_bind : MBind res := fun A B f m =>
  match m with
  | Ret a => f a
  | Panic => Panic
  | NoFuel => NoFuel
  end.

Lemma res_bind_ret {A B} (a : A) (f : A -> res B) : (Ret a ≫= f) = f a.
Proof. reflexivity. Qed.

Lemma res_bind_inv {A B} (m : res A) (f : A -> res B) b :
  (m ≫= f) = Ret b -> exists a, m = Ret a /\ f a = Ret b.
Proof. destruct m; simpl; intros H; try discriminate H. eauto. Qed.

(** [x ← m ; k] is stdpp's notation for [mbind]; [res_step] runs the binds whose
    first computation has returned, and nothing else. *)
Ltac res_step := cbn [mbind res_bind].

(** * Errors *)

(** The error values of [sonicerrors/errors.go], [codec/websocket/errors.go],
    [codec/frame], [slot.go] and [io.EOF]; any other error (an errno, an error of
    the standard library) is [ErrOther] with a tag.  A Go [error] that may be nil
    is an [option error]. *)
Inductive error : Type :=
| EOF | ErrUnexpectedEOF
| ErrWouldBlock | ErrCancelled | ErrTimeout | ErrNeedMore
| ErrNoBufferSpaceAvailable | ErrConnRefused
| ErrNoSpaceLeftForSlot | ErrPayloadLengthOverflow
| ErrPayloadOverMaxSize | ErrPayloadTooBig | ErrWrongHandshakeRole
| ErrCannotUpgrade | ErrMessageTooBig | ErrInvalidControlFrame
| ErrControlFrameTooBig | ErrSendAfterClose | ErrNonZeroReservedBits
| ErrMaskedFramesFromServer | ErrUnmaskedFramesFromClient
| ErrReservedOpcode | ErrUnexpectedContinuation | ErrExpectedContinuation
| ErrInvalidAddress | ErrInvalidUTF8
| ErrOther (tag : Z).

#[export] Instance error_eq_dec : EqDecision error.
Proof. solve_decision. Defined.

(** * Machine integers *)

(** Go's [int] is a signed 64-bit integer: [i64] is the wrap-around applied to a
    sum or difference in which an operand is chosen by a caller or by the wire. *)
Definition i64 (z : Z) : Z := (z + 2 ^ 63) mod 2 ^ 64 - 2 ^ 63.

Definition is_int (z : Z) : Prop := - 2 ^ 63 <= z < 2 ^ 63.

Lemma i64_small z : is_int z -> i64 z = z.
Proof. unfold is_int, i64. intros H. rewrite Z.mod_small; lia. Qed.

Lemma i64_is_int z : is_int (i64 z).
Proof.
  unfold is_int, i64. pose proof (Z.mod_pos_bound (z + 2 ^ 63) (2 ^ 64)). lia.
Qed.

(** Wrap-around is a congruence: it may be done once, at the end of a sum. *)
Lemma i64_add_l a b : i64 (i64 a + b) = i64 (a + b).
Proof.
  unfold i64. f_equal.
  replace ((a + 2 ^ 63) mod 2 ^ 64 - 2 ^ 63 + b + 2 ^ 63)
    with ((a + 2 ^ 63) mod 2 ^ 64 + b) by lia.
  rewrite Zplus_mod_idemp_l. f_equal. lia.
Qed.

Lemma i64_add_r a b : i64 (a + i64 b) = i64 (a + b).
Proof. rewrite Z.add_comm, i64_add_l. f_equal. lia. Qed.

Lemma i64_sub_l a b : i64 (i64 a - b) = i64 (a - b).
Proof. apply (i64_add_l a (- b)). Qed.

Lemma i64_sub_r a b : i64 (a - i64 b) = i64 (a - b).
Proof.
  unfold i64. f_equal. replace (a - ((b + 2 ^ 63) mod 2 ^ 64 - 2 ^ 63) + 2 ^ 63)
    with (a + 2 ^ 64 - (b + 2 ^ 63) mod 2 ^ 64) by lia.
  rewrite Zminus_mod_idemp_r. f_equal. lia.
Qed.

(** [i64_eq]: two wrapped sums of wrapped operands agree. *)
Create Rewrite HintDb i64.
#[export] Hint Rewrite i64_add_l i64_add_r i64_sub_l i64_sub_r : i64.
Ltac i64_eq := autorewrite with i64; f_equal; lia.

(** * Bytes *)

Abbreviation byte := Byte.byte.

Definition b2z (b : byte) : Z := Z.of_N (Byte.to_N b).
Definition z2b (z : Z) : byte :=
  match Byte.of_N (Z.to_N (z mod 256)) with
  | Some b => b
  | None => Byte.x00
  end.

#[export] Instance byte_eq_dec : EqDecision byte := Byte.byte_eq_dec.

Definition band (a b : byte) : byte := z2b (Z.land (b2z a) (b2z b)).
Definition bor (a b : byte) : byte := z2b (Z.lor (b2z a) (b2z b)).
Definition bxor (a b : byte) : byte := z2b (Z.lxor (b2z a) (b2z b)).

Lemma b2z_range b : 0 <= b2z b < 256.
Proof. unfold b2z. pose proof (Byte.to_N_bounded b). lia. Qed.

Lemma b2z_z2b z : b2z (z2b z) = z mod 256.
Proof.
  unfold b2z, z2b. pose proof (Z.mod_pos_bound z 256 ltac:(lia)) as Hz.
  destruct (Byte.of_N (Z.to_N (z mod 256))) as [b|] eqn:E.
  - apply Byte.to_of_N in E. rewrite E. lia.
  - apply Byte.of_N_None_iff in E. lia.
Qed.

Lemma z2b_b2z b : z2b (b2z b) = b.
Proof. destruct b; reflexivity. Qed.

Lemma b2z_inj a b : b2z a = b2z b -> a = b.
Proof. intros H. rewrite <-(z2b_b2z a), <-(z2b_b2z b), H. reflexivity. Qed.

Lemma lxor_byte_range a b : 0 <= Z.lxor (b2z a) (b2z b) < 256.
Proof.
  pose proof (b2z_range a). pose proof (b2z_range b). split.
  - apply Z.lxor_nonneg. lia.
  - destruct (Z.eq_dec (Z.lxor (b2z a) (b2z b)) 0) as [->|Hn]; [lia|].
    change 256 with (2 ^ 8). apply Z.log2_lt_pow2.
    + assert (0 <= Z.lxor (b2z a) (b2z b)) by (apply Z.lxor_nonneg; lia). lia.
    + eapply Z.le_lt_trans; [apply Z.log2_lxor; lia|].
      assert (forall x, 0 <= x < 256 -> Z.log2 x < 8) as L.
      { intros x Hx. destruct (Z.eq_dec x 0) as [->|]; [reflexivity|].
        apply Z.log2_lt_pow2; lia. }
      pose proof (L (b2z a)). pose proof (L (b2z b)). lia.
Qed.

Lemma bxor_involutive m b : bxor (bxor b m) m = b.
Proof.
  unfold bxor. apply b2z_inj. rewrite !b2z_z2b.
  rewrite (Z.mod_small _ _ (lxor_byte_range b m)), Z.lxor_assoc, Z.lxor_nilpotent,
    Z.lxor_0_r.
  apply Z.mod_small, b2z_range.
Qed.

(** ** Big-endian integers ([encoding/binary].[BigEndian]) *)

Fixpoint be_encode (n : nat) (z : Z) : list byte :=
  match n with
  | O => []
  | S n' => be_encode n' (z / 256) ++ [z2b z]
  end.

Definition be_decode (bs : list byte) : Z :=
  fold_left (fun acc b => acc * 256 + b2z b) bs 0.

Lemma length_be_encode n z : length (be_encode n z) = n.
Proof.
  revert z. induction n as [|n IH]; intros z; [reflexivity|].
  simpl. rewrite length_app, IH. simpl. lia.
Qed.

Lemma be_decode_app bs b : be_decode (bs ++ [b]) = be_decode bs * 256 + b2z b.
Proof. unfold be_decode. rewrite fold_left_app. reflexivity. Qed.

Lemma be_decode_encode n z : be_decode (be_encode n z) = z mod 256 ^ Z.of_nat n.
Proof.
  revert z. induction n as [|n IH]; intros z.
  - simpl. rewrite Z.mod_1_r. reflexivity.
  - simpl be_encode. rewrite be_decode_app, IH, b2z_z2b.
    rewrite Nat2Z.inj_succ, Z.pow_succ_r by lia.
    rewrite (Z.rem_mul_r z 256 (256 ^ Z.of_nat n)) by lia. ring.
Qed.

Lemma be_decode_bound bs : 0 <= be_decode bs < 256 ^ Z.of_nat (length bs).
Proof.
  induction bs as [|b bs IH] using rev_ind; [done|].
  rewrite be_decode_app, length_app. simpl. pose proof (b2z_range b).
  replace (Z.of_nat (length bs + 1)) with (Z.succ (Z.of_nat (length bs))) by lia.
  rewrite Z.pow_succ_r by lia. lia.
Qed.

(** * Lists indexed by Go integers *)

Abbreviation zlen l := (Z.of_nat (length l)).
Abbreviation ztake n l := (take (Z.to_nat n) l).
Abbreviation zdrop n l := (drop (Z.to_nat n) l).

(** [write_at off xs l]: the list [l] with [xs] stored from offset [off] on. *)
Definition write_at {A} (off : Z) (xs l : list A) : list A :=
  ztake off l ++ xs ++ zdrop (off + zlen xs) l.

(** Lengths as linear arithmetic: [llia] pushes [length] through the list
    operations and calls [lia]. *)
Create Rewrite HintDb zlist.
#[export] Hint Rewrite @length_app @length_take @length_drop @length_replicate
  @length_cons @length_nil @length_reverse @length_insert @length_fmap
  : zlist.

Ltac llia := autorewrite with zlist in *; lia.

Section zlists.
Context {A : Type}.
Implicit Types (a b l xs : list A).

Lemma ztake_app_le n a b : n <= zlen a -> ztake n (a ++ b) = ztake n a.
Proof. intros H. apply take_app_le. lia. Qed.

Lemma ztake_app_ge n a b :
  zlen a <= n -> ztake n (a ++ b) = a ++ ztake (n - zlen a) b.
Proof. intros H. rewrite take_app_ge by lia. do 2 f_equal. lia. Qed.

Lemma zdrop_app_le n a b : n <= zlen a -> zdrop n (a ++ b) = zdrop n a ++ b.
Proof. intros H. apply drop_app_le. lia. Qed.

Lemma zdrop_app_ge n a b :
  zlen a <= n -> zdrop n (a ++ b) = zdrop (n - zlen a) b.
Proof. intros H. rewrite drop_app_ge by lia. f_equal. lia. Qed.

Lemma ztake_all n l : zlen l <= n -> ztake n l = l.
Proof. intros H. apply take_ge. lia. Qed.

Lemma zdrop_all n l : zlen l <= n -> zdrop n l = [].
Proof. intros H. apply drop_ge. lia. Qed.

Lemma ztake_neg n l : n <= 0 -> ztake n l = [].
Proof. intros H. replace (Z.to_nat n) with 0%nat by lia. reflexivity. Qed.

Lemma zdrop_neg n l : n <= 0 -> zdrop n l = l.
Proof. intros H. replace (Z.to_nat n) with 0%nat by lia. reflexivity. Qed.

Lemma ztake_zdrop n l : ztake n l ++ zdrop n l = l.
Proof. apply take_drop. Qed.

Lemma length_write_at off xs l :
  0 <= off -> off + zlen xs <= zlen l -> length (write_at off xs l) = length l.
Proof. intros. unfold write_at. llia. Qed.

(** Every list of the right length splits at two offsets; the way the buffer
    components recover their areas from an index invariant. *)
Lemma split3 lo hi l :
  0 <= lo <= hi -> hi <= zlen l ->
  exists a b c, l = a ++ b ++ c /\ zlen a = lo /\ zlen b = hi - lo.
Proof.
  intros H1 H2. exists (ztake lo l), (ztake (hi - lo) (zdrop lo l)), (zdrop hi l).
  split_and!; [|llia|llia].
  rewrite <-(take_drop (Z.to_nat lo) l) at 1. f_equal.
  rewrite <-(take_drop (Z.to_nat (hi - lo)) (drop (Z.to_nat lo) l)) at 1.
  rewrite drop_drop. do 2 f_equal. lia.
Qed.

Lemma write_at_app off xs a b c :
  off = zlen a -> length xs = length b -> write_at off xs (a ++ b ++ c) = a ++ xs ++ c.
Proof.
  intros -> Hl. unfold write_at. rewrite ztake_app_ge by lia.
  rewrite ztake_neg by lia. rewrite zdrop_app_ge by llia.
  rewrite zdrop_app_ge by llia. rewrite zdrop_neg by llia.
  by rewrite app_nil_r.
Qed.
End zlists.

(** [zsimpl] normalises [take]/[drop] of concatenations whose offsets [lia] can
    compare with the lengths of the parts. *)
Ltac zsimpl_side := solve [autorewrite with zlist in *; lia].
Ltac zsimpl_step :=
  match goal with
  | |- context [take (Z.to_nat ?n) ?l] =>
      first [ rewrite (ztake_neg n l) by zsimpl_side
            | rewrite (ztake_all n l) by zsimpl_side
            | match l with ?a ++ ?b =>
                first [ rewrite (ztake_app_ge n a b) by zsimpl_side
                      | rewrite (ztake_app_le n a b) by zsimpl_side ] end ]
  | |- context [drop (Z.to_nat ?n) ?l] =>
      first [ rewrite (zdrop_neg n l) by zsimpl_side
            | rewrite (zdrop_all n l) by zsimpl_side
            | match l with ?a ++ ?b =>
                first [ rewrite (zdrop_app_ge n a b) by zsimpl_side
                      | rewrite (zdrop_app_le n a b) by zsimpl_side ] end ]
  end.
Ltac zsimpl := repeat (zsimpl_step; rewrite ?app_nil_r, ?app_nil_l).
