(* ===== verification/GoSlice.v ===== *)
(** Go slices.

    A slice is its backing array from the slice's first element to its capacity,
    and its length: the elements between length and capacity are kept, because
    the source extends slices back over them ([b.data[:cap(b.data)]], [Reserve],
    [ExtendSlice], [Claim]).  Indexing and re-slicing are partial as in Go: out of
    range is [Panic].  The file also translates the generic helpers of
    [src/util/bytes.go]. *)

From S2P Require Import Prelude.

(** * The slice type and the built-in operations *)

Record slice (A : Type) : Type := Slice { arr : list A; slen : Z }.
Arguments Slice {A} arr slen.
Arguments arr {A} s.
Arguments slen {A} s.

Section slices.
Context {A : Type}.
Implicit Types (s : slice A).

(** [cap(s)] and the elements [s[0], ..., s[len(s)-1]]. *)
Definition scap s : Z := zlen (arr s).
Definition elems s : list A := ztake (slen s) (arr s).

Definition slice_wf s : Prop := 0 <= slen s <= scap s.

(** [s[lo:hi]]: the bound on [hi] is the capacity, as in Go. *)
Definition reslice s (lo hi : Z) : res (slice A) :=
  if decide (0 <= lo <= hi /\ hi <= scap s)
  then Ret (Slice (zdrop lo (arr s)) (hi - lo))
  else Panic.

(** [s[i]] and [s[i] = x]. *)
Definition index s (i : Z) : res A :=
  if decide (0 <= i < slen s)
  then match arr s !! Z.to_nat i with Some x => Ret x | None => Panic end
  else Panic.

Definition update s (i : Z) (x : A) : res (slice A) :=
  if decide (0 <= i < slen s)
  then Ret (Slice (<[Z.to_nat i := x]> (arr s)) (slen s))
  else Panic.

(** [copy(s[off:], src)] with the bytes of [src] read first (Go's [copy] is a
    memmove), the result written back into the array [s] shares. *)
Definition copy_at s (off : Z) (src : list A) : res (slice A * Z) :=
  if decide (0 <= off <= slen s)
  then let n := Z.min (slen s - off) (zlen src) in
       Ret (Slice (write_at off (ztake n src) (arr s)) (slen s), n)
  else Panic.
End slices.

(** The address space: 2^48 bytes on the platforms supported. *)
Definition max_alloc : Z := 2 ^ 48.

(** The allocator: when [append] outgrows the capacity, the language only says
    that the new one is sufficiently large.  [grow_cap old need] is the capacity
    the runtime picks; whatever it proposes, the slice gets at least [need], and more
    than that only within the address space. *)
Class GoRuntime := { grow_cap : Z -> Z -> Z }.

Definition new_cap `{GoRuntime} (old need : Z) : Z :=
  Z.max need (Z.min max_alloc (grow_cap old need)).

(** [make([]T, n)]: a run-time panic for a negative length and for one above the
    address space. *)
Definition make {A} (zero : A) (n : Z) : res (list A) :=
  if decide (0 <= n <= max_alloc) then Ret (replicate (Z.to_nat n) zero) else Panic.

(** [append(s, xs...)]. *)
Definition append `{GoRuntime} {A} (zero : A) (s : slice A) (xs : list A) : slice A :=
  let n := slen s + zlen xs in
  if decide (n <= scap s)
  then Slice (write_at (slen s) xs (arr s)) n
  else Slice (elems s ++ xs ++ replicate (Z.to_nat (new_cap (scap s) n - n)) zero) n.

(** A runtime that doubles, for concrete runs. *)
Definition doubling_runtime : GoRuntime := {| grow_cap := fun old _ => 2 * old |}.

(** A nil slice. *)
Definition nil_slice {A} : slice A := Slice [] 0.

(** * src/util/bytes.go *)

Section util_bytes.
Context `{GoRuntime} {A : Type} (zero : A).

(** [ExtendSlice(xs, need)]. *)
Definition ExtendSlice (xs : slice A) (need : Z) : res (slice A) :=
  xs ← reslice xs 0 (scap xs);
  let n := i64 (need - scap xs) in
  xs ← (if decide (0 < n)
        then z ← make zero n; Ret (append zero xs z)
        else Ret xs);
  reslice xs 0 need.

(** [PrependSlice(x, xs)]. *)
Definition PrependSlice (x : A) (xs : slice A) : res (slice A) :=
  let xs := append zero xs [zero] in
  '(xs, _) ← copy_at xs 1 (elems xs);
  update xs 0 x.

(** [CopySlice(dst, src)]. *)
Definition CopySlice (dst : slice A) (src : list A) : res (slice A) :=
  dst ← ExtendSlice dst (zlen src);
  '(dst, n) ← copy_at dst 0 src;
  reslice dst 0 n.
End util_bytes.

(** * Laws *)

Section slice_laws.
Context {A : Type}.
Implicit Types (s : slice A) (a xs : list A).

Lemma reslice_ok s lo hi :
  0 <= lo <= hi -> hi <= scap s ->
  reslice s lo hi = Ret (Slice (zdrop lo (arr s)) (hi - lo)).
Proof. intros. unfold reslice. by rewrite decide_True by lia. Qed.

Lemma reslice_0 s hi :
  0 <= hi <= scap s -> reslice s 0 hi = Ret (Slice (arr s) hi).
Proof. intros. rewrite reslice_ok by lia. by rewrite Z.sub_0_r. Qed.

Lemma reslice_panic s lo hi :
  ~ (0 <= lo <= hi /\ hi <= scap s) -> reslice s lo hi = Panic.
Proof. intros. unfold reslice. by rewrite decide_False. Qed.

Lemma zlen_elems s : slice_wf s -> zlen (elems s) = slen s.
Proof. intros [? ?]. unfold elems, scap in *. llia. Qed.

Lemma copy_at_ok s off xs :
  0 <= off -> off + zlen xs <= slen s ->
  copy_at s off xs = Ret (Slice (write_at off xs (arr s)) (slen s), zlen xs).
Proof.
  intros. unfold copy_at. rewrite decide_True by lia.
  rewrite Z.min_r by lia. by rewrite ztake_all by lia.
Qed.

Lemma index_elems s i x :
  slice_wf s -> elems s !! Z.to_nat i = Some x -> 0 <= i -> index s i = Ret x.
Proof.
  intros Hwf Hx Hi. unfold index, elems in *.
  apply lookup_take_Some in Hx as [Hx ?].
  rewrite decide_True by lia. by rewrite Hx.
Qed.

Lemma reslice_elems s lo hi :
  slice_wf s -> 0 <= lo <= hi -> hi <= slen s ->
  exists s', reslice s lo hi = Ret s' /\ slice_wf s' /\ slen s' = hi - lo
    /\ elems s' = ztake (hi - lo) (zdrop lo (elems s)).
Proof.
  intros [H1 H2] H3 H4. rewrite reslice_ok by lia. eexists. split; [done|].
  unfold slice_wf, elems, scap in *. simpl. split; [llia|]. split; [done|].
  rewrite skipn_firstn_comm, take_take. f_equal. lia.
Qed.

Lemma update_elems s i x :
  slice_wf s -> 0 <= i < slen s ->
  exists s', update s i x = Ret s' /\ slice_wf s'
    /\ elems s' = <[Z.to_nat i := x]> (elems s).
Proof.
  intros [H1 H2] H3. unfold update. rewrite decide_True by lia. eexists. split; [done|].
  unfold slice_wf, elems, scap in *. simpl. rewrite length_insert. split; [lia|].
  apply take_insert_lt. lia.
Qed.

(** A store through a slice of the array that stays below the length. *)
Lemma write_at_elems s off xs :
  slice_wf s -> 0 <= off -> off + zlen xs <= slen s ->
  slice_wf (Slice (write_at off xs (arr s)) (slen s))
  /\ elems (Slice (write_at off xs (arr s)) (slen s)) = write_at off xs (elems s).
Proof.
  intros [H1 H2] H3 H4. unfold slice_wf, elems, scap in *. simpl.
  rewrite length_write_at by lia. split; [lia|]. unfold write_at.
  destruct (split3 off (off + zlen xs) (arr s)) as (a & b & c & -> & Ha & Hb); [lia|llia|].
  zsimpl. do 4 f_equal. lia.
Qed.
End slice_laws.

Section append_laws.
Context `{GoRuntime} {A : Type} (zero : A).
Implicit Types (s : slice A) (xs : list A).

Lemma new_cap_ge old need : need <= new_cap old need.
Proof. unfold new_cap. lia. Qed.

(** [append] yields the old elements followed by the new ones, in an array at
    least as large as before, with whatever follows. *)
Lemma append_spec s xs :
  slice_wf s ->
  exists rest,
    append zero s xs
    = Slice (elems s ++ xs ++ rest) (slen s + zlen xs)
    /\ zlen rest >= scap s - (slen s + zlen xs).
Proof.
  intros [? ?]. unfold append, elems, scap in *. case_decide.
  - eexists. unfold write_at. split; [reflexivity|]. llia.
  - eexists. split; [reflexivity|].
    pose proof (new_cap_ge (zlen (arr s)) (slen s + zlen xs)). llia.
Qed.

Lemma append_wf s xs : slice_wf s -> slice_wf (append zero s xs).
Proof.
  intros Hs. destruct (append_spec s xs Hs) as (r & -> & Hr).
  pose proof (zlen_elems s Hs). unfold slice_wf, scap in *. simpl. llia.
Qed.

Lemma append_elems s xs : slice_wf s -> elems (append zero s xs) = elems s ++ xs.
Proof.
  intros Hs. destruct (append_spec s xs Hs) as (r & -> & _).
  pose proof (zlen_elems s Hs). unfold elems at 1. simpl. by zsimpl.
Qed.

(** How far a slice grows. *)
Lemma append_cap s xs :
  slice_wf s ->
  scap (append zero s xs) <= Z.max (scap s) (Z.max (slen s + zlen xs) max_alloc).
Proof.
  intros [? ?]. unfold append, scap, elems in *. case_decide; simpl.
  - rewrite length_write_at by lia. lia.
  - unfold new_cap. autorewrite with zlist. unfold max_alloc. lia.
Qed.

Lemma ExtendSlice_cap s s' need :
  ExtendSlice zero s need = Ret s' -> is_int (need - scap s) ->
  scap s' <= Z.max (scap s) (Z.max need max_alloc).
Proof.
  unfold ExtendSlice. rewrite reslice_0 by (unfold scap; lia). res_step. intros E Hi.
  rewrite i64_small in E by (unfold scap in *; simpl; done). unfold scap in *.
  cbn [arr] in E. case_decide.
  - apply res_bind_inv in E as (d & E & Er). apply res_bind_inv in E as (z & Em & [= <-]).
    unfold make in Em. case_decide; [|done]. injection Em as <-.
    unfold reslice in Er. case_decide; [|done]. injection Er as <-. simpl.
    pose proof (append_cap (Slice (arr s) (zlen (arr s)))
      (replicate (Z.to_nat (need - zlen (arr s))) zero)) as Hc.
    unfold scap in Hc. cbn [arr slen] in Hc. rewrite length_replicate in Hc.
    rewrite drop_0. etransitivity; [apply Hc; unfold slice_wf, scap; simpl; lia|]. lia.
  - cbn [mbind res_bind] in E. unfold reslice in E. case_decide; [|done]. injection E as <-. simpl.
    rewrite drop_0. lia.
Qed.

(** [ExtendSlice] keeps the array's elements and sets the length to [need],
    growing the array when its capacity is short. *)
Lemma ExtendSlice_spec s need :
  0 <= need <= max_alloc -> is_int (scap s) ->
  exists rest,
    ExtendSlice zero s need = Ret (Slice (arr s ++ rest) need)
    /\ need <= scap s + zlen rest
    /\ (need <= scap s -> rest = []).
Proof.
  intros Hn Hc. unfold ExtendSlice, max_alloc, is_int in *.
  assert (0 <= scap s) by (unfold scap; lia).
  rewrite reslice_0 by lia. simpl. unfold scap in *. simpl.
  rewrite i64_small by (unfold is_int; lia).
  case_decide as Hd.
  - unfold make, max_alloc. rewrite decide_True by lia. simpl.
    destruct (append_spec (Slice (arr s) (zlen (arr s)))
      (replicate (Z.to_nat (need - zlen (arr s))) zero)) as (r & -> & Hr).
    { unfold slice_wf, scap. simpl. lia. }
    unfold elems. simpl. rewrite ztake_all by lia.
    rewrite reslice_0 by (unfold scap; simpl; llia). simpl.
    eexists. split; [reflexivity|]. split; [llia|]. lia.
  - simpl. rewrite reslice_0 by (unfold scap; simpl; lia). simpl.
    exists []. rewrite app_nil_r. split; [done|]. split; [simpl; lia|done].
Qed.

Lemma ExtendSlice_nil n :
  0 <= n <= max_alloc ->
  exists s, ExtendSlice zero nil_slice n = Ret s /\ elems s = replicate (Z.to_nat n) zero.
Proof.
  intros Hn. unfold ExtendSlice, max_alloc in *.
  rewrite reslice_0 by (unfold scap; simpl; lia). res_step.
  unfold scap. cbn [arr nil_slice]. change (zlen []) with 0. rewrite Z.sub_0_r.
  rewrite i64_small by (unfold is_int; lia). case_decide.
  - unfold make, max_alloc. rewrite decide_True by lia. res_step.
    destruct (append_spec nil_slice (replicate (Z.to_nat n) zero)) as (r & E & Hr);
      [done|]. change (Slice [] 0) with (@nil_slice A). rewrite E. simpl in *.
    rewrite reslice_0 by (unfold scap; simpl; llia). eexists. split; [done|].
    unfold elems. simpl. by zsimpl.
  - replace n with 0 by lia. simpl. eexists. split; reflexivity.
Qed.

(** [CopySlice] is a copy, [PrependSlice] is [cons]. *)
Lemma CopySlice_elems dst src :
  zlen src <= max_alloc -> is_int (scap dst) ->
  exists s, CopySlice zero dst src = Ret s /\ elems s = src.
Proof.
  intros Hn Hc. unfold CopySlice.
  destruct (ExtendSlice_spec dst (zlen src)) as (r & -> & Hr & _); [lia|done|].
  simpl. unfold scap in *.
  rewrite copy_at_ok by (simpl; lia). simpl.
  rewrite reslice_0 by (unfold scap; simpl; rewrite length_write_at by llia; llia).
  eexists. split; [reflexivity|]. unfold elems, write_at. simpl. by zsimpl.
Qed.

Lemma PrependSlice_elems x s :
  slice_wf s ->
  exists s', PrependSlice zero x s = Ret s' /\ elems s' = x :: elems s.
Proof.
  intros Hs. unfold PrependSlice.
  destruct (append_spec s [zero] Hs) as (r & -> & Hr).
  pose proof (zlen_elems s Hs) as He. destruct Hs as [Hs _].
  set (es := elems s) in *. unfold elems. simpl in *.
  unfold copy_at. rewrite decide_True by (simpl; lia). simpl.
  unfold update. rewrite decide_True by (simpl; lia).
  eexists. split; [reflexivity|]. simpl.
  change (es ++ zero :: r) with (es ++ [zero] ++ r).
  assert (ztake (slen s + Z.of_nat 1) (es ++ [zero] ++ r) = es ++ [zero]) as ->
    by (zsimpl; reflexivity).
  rewrite Z.min_l by llia.
  replace (ztake (slen s + Z.of_nat 1 - 1) (es ++ [zero])) with es
    by (zsimpl; reflexivity).
  unfold write_at.
  destruct es as [|e es']; simpl in *.
  - replace (slen s) with 0 by lia. reflexivity.
  - replace (Z.to_nat (slen s + Z.of_nat 1)) with (S (S (length es'))) by lia.
    simpl. do 2 f_equal. by rewrite take_app_length.
Qed.
End append_laws.
