(* ===== verification/GoIO.v ===== *)
(** The byte-stream interfaces of Go's [io] package.

    A reader or writer is a type with a stateful operation; the laws state what
    the [io] documentation promises of every implementation.  [io.ReadFull] is
    translated with fuel. *)

From S2P Require Import Prelude GoSlice.

(** [Read(p)]: given the contents of [p], the new contents of [p], the count and
    the error.  [Write(p)]: the count and the error. *)
Class Reader (R : Type) :=
  io_read : R -> list byte -> res (R * (list byte * Z * option error)).
Class Writer (W : Type) :=
  io_write : W -> list byte -> res (W * (Z * option error)).

(** [io.Reader]: "Read reads up to len(p) bytes into p"; the slice it was given
    keeps its length. *)
Class ReaderLaws (R : Type) `{Reader R} : Prop :=
  io_read_ok : forall r p, exists r' p' n e,
    io_read r p = Ret (r', (p', n, e)) /\ length p' = length p /\ 0 <= n <= zlen p.

(** [io.Writer]: "Write writes len(p) bytes [...] returns the number of bytes
    written from p (0 <= n <= len(p)) and any error encountered that caused the
    write to stop early".  A non-blocking [sonic] descriptor may write less
    without an error, but never nothing: it reports [io.EOF] for a count of 0. *)
Class WriterLaws (W : Type) `{Writer W} : Prop :=
  io_write_ok : forall w p, exists w' n e,
    io_write w p = Ret (w', (n, e)) /\ 0 <= n <= zlen p
    /\ (e = None -> p <> [] -> 0 < n).

(** A writer whose past can be observed: [wlog w] is every byte it accepted. *)
Class WriterLog (W : Type) `{Writer W} := {
  wlog : W -> list byte;
  wlog_write : forall w p w' n e,
    io_write w p = Ret (w', (n, e)) -> wlog w' = wlog w ++ ztake n p
}.

(** A reader whose future can be observed: [pend r] is what it will deliver.  A call
    delivers a non-empty prefix of it, at most as much as fits, and [io.EOF] when
    nothing is left: a stream transport that cuts the bytes where it likes. *)
Class ReaderStream (R : Type) `{Reader R} := {
  pend : R -> list byte;
  pend_read : forall r p, p <> [] -> pend r <> [] ->
    exists r' n, io_read r p = Ret (r', (ztake n (pend r) ++ zdrop n p, n, None))
      /\ 0 < n <= zlen p /\ n <= zlen (pend r) /\ pend r' = zdrop n (pend r);
  pend_eof : forall r p, pend r = [] ->
    exists r', io_read r p = Ret (r', (p, 0, Some EOF)) /\ pend r' = []
}.

(** ** [io.ReadFull] *)

Section ReadFull.
Context {R : Type} `{Reader R}.

(** [for n < min && err == nil { nn, err = r.Read(buf[n:]); n += nn }] with
    [min = len(buf)]; [done] holds the bytes already read. *)
Fixpoint ReadFull_loop (fuel : nat) (r : R) (buf : list byte) (n : Z)
    (err : option error) : res (R * (list byte * Z * option error)) :=
  if decide (n < zlen buf /\ err = None) then
    match fuel with
    | O => NoFuel
    | S fuel' =>
        '(r, (p, nn, err)) ← io_read r (zdrop n buf);
        ReadFull_loop fuel' r (ztake n buf ++ p) (n + nn) err
    end
  else Ret (r, (buf, n, err)).

Definition ReadFull (fuel : nat) (r : R) (buf : list byte) :
    res (R * (list byte * Z * option error)) :=
  '(r, (buf, n, err)) ← ReadFull_loop fuel r buf 0 None;
  Ret (r, (buf, n,
    if decide (zlen buf <= n) then None
    else if decide (0 < n /\ err = Some EOF) then Some ErrUnexpectedEOF
    else err)).

Context `{!ReaderStream R}.

Lemma ReadFull_loop_stream fuel r (d q : list byte) :
  zlen q <= zlen (pend r) -> (length q <= fuel)%nat ->
  exists r', ReadFull_loop fuel r (d ++ q) (zlen d) None
      = Ret (r', (d ++ ztake (zlen q) (pend r), zlen (d ++ q), None))
    /\ pend r' = zdrop (zlen q) (pend r).
Proof.
  revert r d q. induction fuel as [|fuel IH]; intros r d q Hq Hf.
  - destruct q; [|simpl in Hf; lia]. simpl. rewrite decide_False by llia.
    exists r. rewrite !app_nil_r. done.
  - destruct (decide (q = [])) as [->|Hne].
    { simpl. rewrite decide_False by llia. exists r. rewrite !app_nil_r. done. }
    assert (0 < zlen q) by (destruct q; simpl; [done|lia]).
    cbn [ReadFull_loop]. rewrite decide_True by (split; [llia|done]).
    rewrite zdrop_app_ge, zdrop_neg by lia.
    destruct (pend_read r q) as (r1 & n & -> & Hn & Hnp & Hr1);
      [done|intros E; rewrite E in Hq; simpl in Hq; lia|]. res_step.
    rewrite ztake_app_ge, ztake_neg, app_nil_r by lia. rewrite app_assoc.
    destruct (IH r1 (d ++ ztake n (pend r)) (zdrop n q)) as (r' & E & Hr');
      [rewrite Hr1; llia|llia|].
    replace (zlen d + n) with (zlen (d ++ ztake n (pend r))) by llia. rewrite E.
    exists r'. split.
    + do 2 f_equal. f_equal. f_equal; [|llia]. rewrite <-app_assoc. f_equal.
      rewrite Hr1. rewrite <-(ztake_zdrop n (ztake (zlen q) (pend r))).
      rewrite take_take, skipn_firstn_comm. f_equal; f_equal; llia.
    + rewrite Hr', Hr1, drop_drop. f_equal. llia.
Qed.

(** A full buffer when the stream has that many bytes. *)
Lemma ReadFull_stream fuel r (p : list byte) :
  zlen p <= zlen (pend r) -> (length p <= fuel)%nat ->
  exists r', ReadFull fuel r p = Ret (r', (ztake (zlen p) (pend r), zlen p, None))
    /\ pend r' = zdrop (zlen p) (pend r).
Proof.
  intros Hp Hf. unfold ReadFull.
  destruct (ReadFull_loop_stream fuel r [] p Hp Hf) as (r' & E & Hr'). simpl in E.
  change (Z.of_nat 0) with 0 in E. rewrite E. res_step. exists r'. split; [|done].
  rewrite decide_True by llia. done.
Qed.
End ReadFull.

(** ** Concrete streams *)

(** A reader over the bytes that are still to come, split into the chunks the
    transport delivers: one chunk at most per call, [io.EOF] at the end. *)
Record ChunkReader : Type := mkChunks { chunks : list (list byte) }.

Fixpoint drop_empty (cs : list (list byte)) : list (list byte) :=
  match cs with [] :: cs => drop_empty cs | _ => cs end.

#[export] Instance chunk_reader : Reader ChunkReader := fun r p =>
  match drop_empty (chunks r) with
  | [] => Ret (r, (p, 0, Some EOF))
  | c :: cs =>
      let n := Z.min (zlen p) (zlen c) in
      let rest := zdrop n c in
      Ret (mkChunks (if decide (rest = []) then cs else rest :: cs),
           (ztake n c ++ zdrop n p, n, None))
  end.

(** A writer that records what it is given, taking at most [quota] bytes per
    call when that is positive; it fails once [budget] calls were made. *)
Record SinkWriter : Type := mkSink { quota : Z; budget : nat; sunk : list byte }.

#[export] Instance sink_writer : Writer SinkWriter := fun w p =>
  match budget w with
  | O => Ret (w, (0, Some (ErrOther 32)))
  | S k =>
      let n := Z.min (zlen p) (Z.max 1 (quota w)) in
      Ret (mkSink (quota w) k (sunk w ++ ztake n p), (n, None))
  end.

#[export] Instance chunk_reader_laws : ReaderLaws ChunkReader.
Proof.
  intros r p. unfold io_read, chunk_reader. destruct (drop_empty (chunks r)) as [|c cs].
  - eexists _, _, _, _. split_and!; [reflexivity|done|lia|lia].
  - eexists _, _, _, _. split_and!; [reflexivity|llia|lia|lia].
Qed.

Lemma concat_drop_empty cs : concat (drop_empty cs) = concat cs.
Proof. induction cs as [|[|x c] cs IH]; simpl; done. Qed.

Lemma drop_empty_head cs c cs' : drop_empty cs = c :: cs' -> c <> [].
Proof. induction cs as [|[|x d] cs IH]; simpl; [done|done|]. by intros [= <- <-]. Qed.

#[export] Instance chunk_reader_stream : ReaderStream ChunkReader.
Proof.
  refine {| pend := fun r => concat (chunks r) |}.
  - intros r p Hp Hr. rewrite <-concat_drop_empty in Hr |- *. unfold io_read, chunk_reader.
    destruct (drop_empty (chunks r)) as [|c cs] eqn:E; [done|].
    pose proof (drop_empty_head _ _ _ E) as Hc. simpl.
    assert (0 < zlen p) by (destruct p; simpl; [done|lia]).
    assert (0 < zlen c) by (destruct c; simpl; [done|lia]).
    set (n := Z.min (zlen p) (zlen c)).
    assert (0 < n <= zlen p /\ n <= zlen c) by lia. clearbody n.
    eexists _, n. rewrite ztake_app_le, zdrop_app_le by lia. split; [done|].
    split_and!; [lia|lia|llia|]. simpl. case_decide as Hd; [by rewrite Hd|done].
  - intros r p Hr. rewrite <-concat_drop_empty in Hr. unfold io_read, chunk_reader.
    destruct (drop_empty (chunks r)) as [|c cs] eqn:E.
    + exists r. split; [done|]. by rewrite <-concat_drop_empty, E.
    + pose proof (drop_empty_head _ _ _ E). simpl in Hr. by destruct c.
Defined.

#[export] Instance sink_writer_laws : WriterLaws SinkWriter.
Proof.
  intros w p. unfold io_write, sink_writer. destruct (budget w) as [|k].
  - eexists _, _, _. split_and!; [reflexivity|lia|lia|done].
  - eexists _, _, _. split_and!; [reflexivity|lia|lia|].
    intros _ Hp. destruct p; [done|]. simpl. lia.
Qed.

#[export] Instance sink_writer_log : WriterLog SinkWriter.
Proof.
  refine {| wlog := sunk |}. intros w p w' n e Hw.
  unfold io_write, sink_writer in Hw. destruct (budget w); simplify_eq; simpl.
  - by rewrite app_nil_r.
  - done.
Defined.
