(* ===== verification/ByteBuffer.v ===== *)
(** The byte buffer of [src/byte_buffer.go].

    [ByteBuffer] keeps one array and three indices: [0, si) are saved bytes,
    [si, ri) can be read, [ri, wi) were written and not committed yet, and the
    rest of the capacity is free.  Every method is translated with the slice
    expressions it evaluates, so that an index outside the array is a [Panic].

    The theorems work with the concretisation [bb S R W F o], the buffer whose areas
    hold exactly the lists [S], [R], [W] and [F]: [inv] holds of a buffer exactly
    when it has that form, and each method is an equation on such buffers.
    Module [Spec] is the abstract buffer the methods refine. *)

From S2P Require Import Prelude GoSlice GoIO.

(** * Data *)

(** [type Slot struct], [src/slot.go]. *)
Record Slot : Type := mkSlot { Index : Z; Length : Z }.

#[export] Instance slot_eq_dec : EqDecision Slot.
Proof. solve_decision. Defined.

Record ByteBuffer : Type := mkByteBuffer {
  si : Z;
  ri : Z;
  wi : Z;
  oneByte : byte;
  data : slice byte
}.

Definition with_data (b : ByteBuffer) (d : slice byte) : ByteBuffer :=
  mkByteBuffer (si b) (ri b) (wi b) (oneByte b) d.

(** [b.wi = w; b.data = b.data[:b.wi]], the pair of statements that ends most
    methods, with [d] the current [b.data]. *)
Definition set_wi (b : ByteBuffer) (d : slice byte) (w : Z) : res ByteBuffer :=
  d ← reslice d 0 w;
  Ret (mkByteBuffer (si b) (ri b) w (oneByte b) d).

(** * Operations *)

Section operations.
Context `{GoRuntime}.
Implicit Types (b : ByteBuffer) (n : Z).

Definition zero : byte := Byte.x00.

Definition NewByteBuffer : ByteBuffer :=
  mkByteBuffer 0 0 0 zero (Slice (replicate 512 zero) 0).

Definition Reserve b n : res ByteBuffer :=
  let existing := scap (data b) - wi b in
  let need := i64 (n - existing) in
  d ← (if decide (0 < need)
       then d ← reslice (data b) 0 (scap (data b));
            z ← make zero need;
            Ret (append zero d z)
       else Ret (data b));
  d ← reslice d 0 (wi b);
  Ret (with_data b d).

Definition Reserved b : Z := scap (data b) - wi b.

Definition Commit b n : ByteBuffer :=
  if decide (n <= 0) then b
  else
    let r := i64 (ri b + n) in
    let r := if decide (wi b < r) then wi b else r in
    mkByteBuffer (si b) r (wi b) (oneByte b) (data b).

(** [slice := b.data[:cap(b.data)]; for i := range slice { slice[i] = 0 }]. *)
Definition Prefault b : res ByteBuffer :=
  s ← reslice (data b) 0 (scap (data b));
  Ret (with_data b
    (Slice (replicate (Z.to_nat (slen s)) zero ++ zdrop (slen s) (arr (data b)))
           (slen (data b)))).

Definition Data b : res (list byte) :=
  s ← reslice (data b) (si b) (ri b); Ret (elems s).

Definition SaveLen b : res Z := s ← reslice (data b) 0 (si b); Ret (slen s).
Definition ReadLen b : res Z := s ← reslice (data b) (si b) (ri b); Ret (slen s).
Definition WriteLen b : res Z := s ← reslice (data b) (ri b) (wi b); Ret (slen s).
Definition Len b : Z := slen (data b).
Definition Cap b : Z := scap (data b).

Definition Consume b n : res ByteBuffer :=
  if decide (n <= 0) then Ret b
  else
    readLen ← ReadLen b;
    let n := if decide (readLen < n) then readLen else n in
    if decide (0 < n) then
      src ← reslice (data b) (si b + n) (wi b);
      '(d, _) ← copy_at (data b) (si b) (elems src);
      d ← reslice d 0 (wi b - n);
      Ret (mkByteBuffer (si b) (ri b - n) (wi b - n) (oneByte b) d)
    else Ret b.

Definition Save b n : res (ByteBuffer * Slot) :=
  readLen ← ReadLen b;
  let n := if decide (readLen < n) then readLen else n in
  if decide (n <= 0) then Ret (b, mkSlot 0 0)
  else Ret (mkByteBuffer (si b + n) (ri b) (wi b) (oneByte b) (data b),
            mkSlot (si b) n).

Definition Saved b : res (list byte) :=
  s ← reslice (data b) 0 (si b); Ret (elems s).

Definition SavedSlot b (slot : Slot) : res (list byte) :=
  s ← reslice (data b) (Index slot) (i64 (Index slot + Length slot)); Ret (elems s).

Definition Discard b (slot : Slot) : res (ByteBuffer * Z) :=
  if decide (Length slot <= 0) then Ret (b, 0)
  else
    src ← reslice (data b) (i64 (Index slot + Length slot)) (wi b);
    '(d, _) ← copy_at (data b) (Index slot) (elems src);
    let w := wi b - Length slot in
    d ← reslice d 0 w;
    Ret (mkByteBuffer (si b - Length slot) (ri b - Length slot) w (oneByte b) d,
         Length slot).

Definition DiscardAll b : res ByteBuffer :=
  n ← SaveLen b;
  '(b, _) ← Discard b (mkSlot 0 n);
  Ret b.

Definition Reset b : res ByteBuffer :=
  d ← reslice (data b) 0 0;
  Ret (mkByteBuffer 0 0 0 (oneByte b) d).

(** [Read(dst)]: the buffer, the new contents of [dst], the count, the error. *)
Definition Read b (dst : list byte) :
    res (ByteBuffer * (list byte * Z * option error)) :=
  if decide (zlen dst = 0) then Ret (b, (dst, 0, None))
  else if decide (ri b = 0) then Ret (b, (dst, 0, Some EOF))
  else
    src ← Data b;
    let n := Z.min (zlen dst) (zlen src) in
    let dst := ztake n src ++ zdrop n dst in
    b ← Consume b n;
    Ret (b, (dst, n, None)).

(** [ReadByte] reads into the field [oneByte] and returns that field. *)
Definition ReadByte b : res (ByteBuffer * (byte * option error)) :=
  '(b, (dst, _, err)) ← Read b [oneByte b];
  let o := match dst with x :: _ => x | [] => oneByte b end in
  Ret (mkByteBuffer (si b) (ri b) (wi b) o (data b), (o, err)).

(** The bytes a reader left in [b.data[b.wi:cap(b.data)]]. *)
Definition fill_free b (p : list byte) : slice byte :=
  Slice (write_at (wi b) p (arr (data b))) (slen (data b)).

Definition ReadFrom {R} `{Reader R} b (r : R) :
    res (ByteBuffer * R * (Z * option error)) :=
  s ← reslice (data b) (wi b) (scap (data b));
  '(r, (p, n, err)) ← io_read r (elems s);
  let b := with_data b (fill_free b p) in
  b ← (match err with
       | None => set_wi b (data b) (wi b + n)
       | Some _ => Ret b
       end);
  Ret (b, r, (n, err)).

Definition UnreadByte b : res (ByteBuffer * option error) :=
  n ← WriteLen b;
  if decide (0 < n)
  then b ← set_wi b (data b) (wi b - 1); Ret (b, None)
  else Ret (b, Some EOF).

(** [AsyncReadFrom(r, cb)] up to the call of [cb]: [complete] is what the
    asynchronous read makes of the slice it was handed, and the pair returned is
    the argument of [cb]. *)
Definition AsyncReadFrom b (complete : list byte -> list byte * Z * option error) :
    res (ByteBuffer * (option error * Z)) :=
  s ← reslice (data b) (wi b) (scap (data b));
  let '(p, n, err) := complete (elems s) in
  let b := with_data b (fill_free b p) in
  b ← (match err with
       | None => set_wi b (data b) (wi b + n)
       | Some _ => Ret b
       end);
  Ret (b, (err, n)).

Definition Write b (bb : list byte) : res (ByteBuffer * (Z * option error)) :=
  let d := append zero (data b) bb in
  let n := zlen bb in
  b ← set_wi b d (wi b + n);
  Ret (b, (n, None)).

Definition WriteByte b (bb : byte) : res (ByteBuffer * option error) :=
  let d := append zero (data b) [bb] in
  b ← set_wi b d (wi b + 1);
  Ret (b, None).

(** A Go string is its bytes. *)
Definition WriteString b (s : list byte) : res (ByteBuffer * (Z * option error)) :=
  let d := append zero (data b) s in
  let n := zlen s in
  b ← set_wi b d (wi b + n);
  Ret (b, (n, None)).

(** [for b.si+writtenBytes < b.ri { n, err = w.Write(...); if err != nil { break };
    writtenBytes += n }]. *)
Fixpoint WriteTo_loop {W} `{Writer W} (fuel : nat) b (w : W) (written : Z) :
    res (W * (Z * option error)) :=
  if decide (si b + written < ri b) then
    match fuel with
    | O => NoFuel
    | S fuel' =>
        s ← reslice (data b) (si b + written) (ri b);
        '(w, (n, err)) ← io_write w (elems s);
        match err with
        | Some _ => Ret (w, (written, err))
        | None => WriteTo_loop fuel' b w (written + n)
        end
    end
  else Ret (w, (written, None)).

Definition WriteTo {W} `{Writer W} (fuel : nat) b (w : W) :
    res (ByteBuffer * W * (Z * option error)) :=
  '(w, (written, err)) ← WriteTo_loop fuel b w 0;
  b ← Consume b written;
  Ret (b, w, (written, err)).

(** [AsyncWriteTo(w, cb)] up to the call of [cb]; [complete] is the outcome of
    [AsyncWriteAll] on the slice. *)
Definition AsyncWriteTo b (complete : list byte -> option error * Z) :
    res (ByteBuffer * (option error * Z)) :=
  p ← Data b;
  let '(err, n) := complete p in
  b ← (match err with None => Consume b n | Some _ => Ret b end);
  Ret (b, (err, n)).

Definition PrepareRead b n : res (ByteBuffer * option error) :=
  readLen ← ReadLen b;
  let need := i64 (n - readLen) in
  if decide (0 < need) then
    writeLen ← WriteLen b;
    if decide (need <= writeLen) then Ret (Commit b need, None)
    else Ret (b, Some ErrNeedMore)
  else Ret (b, None).

(** [fn] is given the free part of the array and returns its new contents with
    the count. *)
Definition Claim b (fn : list byte -> res (list byte * Z)) : res ByteBuffer :=
  s ← reslice (data b) (wi b) (scap (data b));
  '(p, n) ← fn (elems s);
  let b := with_data b (fill_free b p) in
  let w := i64 (wi b + n) in
  if decide (0 <= n /\ w <= scap (data b)) then set_wi b (data b) w else Ret b.

(** The claimed slice is returned as its bounds in the array, [None] for nil. *)
Definition ClaimFixed b n : res (ByteBuffer * option (Z * Z)) :=
  let w := i64 (wi b + n) in
  if decide (0 <= n /\ w <= scap (data b)) then
    _ ← reslice (data b) (wi b) w;
    b' ← set_wi b (data b) w;
    Ret (b', Some (wi b, w))
  else Ret (b, None).

Definition ShrinkBy b n : res (ByteBuffer * Z) :=
  if decide (n <= 0) then Ret (b, 0)
  else
    length ← WriteLen b;
    let n := if decide (length < n) then length else n in
    b ← set_wi b (data b) (wi b - n);
    Ret (b, n).

Definition ShrinkTo b n : res (ByteBuffer * Z) :=
  length ← WriteLen b;
  ShrinkBy b (i64 (length - n)).
End operations.

(** [*ByteBuffer] is an [io.Reader] and an [io.Writer]. *)
#[export] Instance bytebuffer_reader : Reader ByteBuffer := fun b p => Read b p.
#[export] Instance bytebuffer_writer `{GoRuntime} : Writer ByteBuffer := fun b p => Write b p.

(** * Areas of a buffer *)

(** The buffer whose save, read, write and free areas hold [S], [R], [W], [F]. *)
Definition bb (S R W F : list byte) (o : byte) : ByteBuffer :=
  mkByteBuffer (zlen S) (zlen S + zlen R) (zlen S + zlen R + zlen W) o
    (Slice (S ++ R ++ W ++ F) (zlen S + zlen R + zlen W)).

(** The invariant stated in the comment above the Go type. *)
Definition inv (b : ByteBuffer) : Prop :=
  0 <= si b <= ri b /\ ri b <= wi b /\ wi b = slen (data b) /\ slice_wf (data b).

Lemma bb_intro s r w n o l S R W F :
  s = zlen S -> r = zlen S + zlen R -> w = zlen S + zlen R + zlen W -> n = w ->
  l = S ++ R ++ W ++ F ->
  mkByteBuffer s r w o (Slice l n) = bb S R W F o.
Proof. intros -> -> -> -> ->. reflexivity. Qed.

Lemma bb_inj S R W F o S' R' W' F' o' :
  bb S R W F o = bb S' R' W' F' o' -> S = S' /\ R = R' /\ W = W' /\ F = F' /\ o = o'.
Proof.
  unfold bb. intros [= H1 H2 H3 -> H4 _].
  apply app_inj_1 in H4 as [-> H4]; [|lia]. apply app_inj_1 in H4 as [-> H4]; [|lia].
  apply app_inj_1 in H4 as [-> ->]; [done|lia].
Qed.

Lemma inv_bb S R W F o : inv (bb S R W F o).
Proof. unfold inv, slice_wf, scap. simpl. llia. Qed.

Lemma inv_areas b : inv b -> exists S R W F, b = bb S R W F (oneByte b).
Proof.
  intros (? & ? & ? & Hwf). destruct b as [s r w o [l n]]. unfold slice_wf, scap in Hwf.
  simpl in *.
  destruct (split3 s r l) as (S & R & l' & -> & HS & HR); [lia|lia|].
  destruct (split3 0 (w - r) l') as (E & W & F & -> & HE & HW); [lia|llia|].
  destruct E; [|simpl in HE; lia]. exists S, R, W, F.
  apply bb_intro; simpl; llia || reflexivity.
Qed.

#[export] Hint Resolve inv_bb : core.

Section area_laws.
Context `{GoRuntime}.
Implicit Types (S R W F xs : list byte) (o : byte) (n : Z).

Lemma reslice_bb S R W F o lo hi :
  0 <= lo <= hi -> hi <= zlen S + zlen R + zlen W + zlen F ->
  reslice (data (bb S R W F o)) lo hi
  = Ret (Slice (zdrop lo (S ++ R ++ W ++ F)) (hi - lo)).
Proof. intros. apply reslice_ok; [lia|]. unfold scap. simpl. llia. Qed.

Lemma scap_bb S R W F o :
  scap (data (bb S R W F o)) = zlen S + zlen R + zlen W + zlen F.
Proof. unfold scap. simpl. llia. Qed.

Lemma Data_bb S R W F o : Data (bb S R W F o) = Ret R.
Proof.
  unfold Data. rewrite reslice_bb by (simpl; lia). simpl. unfold elems. simpl.
  by zsimpl.
Qed.

Lemma Saved_bb S R W F o : Saved (bb S R W F o) = Ret S.
Proof.
  unfold Saved. rewrite reslice_bb by (simpl; lia). simpl. unfold elems. simpl.
  rewrite Z.sub_0_r. by zsimpl.
Qed.

Lemma SaveLen_bb S R W F o : SaveLen (bb S R W F o) = Ret (zlen S).
Proof. unfold SaveLen. rewrite reslice_bb by (simpl; lia). simpl. f_equal. lia. Qed.

Lemma ReadLen_bb S R W F o : ReadLen (bb S R W F o) = Ret (zlen R).
Proof. unfold ReadLen. rewrite reslice_bb by (simpl; lia). simpl. f_equal. lia. Qed.

Lemma WriteLen_bb S R W F o : WriteLen (bb S R W F o) = Ret (zlen W).
Proof. unfold WriteLen. rewrite reslice_bb by (simpl; lia). simpl. f_equal. lia. Qed.

Lemma Reserve_bb S R W F o n :
  is_int (n - zlen F) -> n - zlen F <= max_alloc ->
  exists F', Reserve (bb S R W F o) n = Ret (bb S R W F' o)
    /\ n <= zlen F' /\ zlen F <= zlen F'.
Proof.
  intros Hi Hm. unfold Reserve. rewrite scap_bb. simpl.
  replace (zlen S + zlen R + zlen W + zlen F - (zlen S + zlen R + zlen W))
    with (zlen F) by lia.
  rewrite i64_small by done. case_decide as Hd.
  - rewrite reslice_0 by (unfold scap; simpl; llia).
    unfold make. rewrite decide_True by lia. simpl.
    edestruct (append_spec zero) as (r & -> & Hr);
      [|rewrite reslice_0 by (unfold scap, elems; simpl; llia)].
    { unfold slice_wf, scap. simpl. llia. }
    simpl. exists (F ++ replicate (Z.to_nat (n - zlen F)) zero ++ r).
    split; [|llia]. f_equal. apply bb_intro; try done.
    unfold elems. simpl. zsimpl. by rewrite <-!app_assoc.
  - simpl. rewrite reslice_0 by (unfold scap; simpl; llia). simpl.
    exists F. split; [done|lia].
Qed.

(** The buffer grows within the address space, or to what was asked for. *)
Lemma Reserve_cap S R W F o n b :
  is_int (n - zlen F) -> Reserve (bb S R W F o) n = Ret b ->
  Cap b <= Z.max (Cap (bb S R W F o)) (Z.max (zlen S + zlen R + zlen W + n) max_alloc).
Proof.
  intros Hi E. unfold Reserve, Cap in *. rewrite scap_bb in *. cbn [wi bb] in E.
  replace (zlen S + zlen R + zlen W + zlen F - (zlen S + zlen R + zlen W))
    with (zlen F) in E by lia.
  rewrite i64_small in E by done. case_decide.
  - rewrite reslice_0 in E by (unfold scap; simpl; llia). cbn [mbind res_bind] in E.
    unfold make in E. case_decide; [|done]. cbn [mbind res_bind] in E.
    apply res_bind_inv in E as (d & Er & [= <-]). unfold reslice in Er.
    case_decide; [|done]. injection Er as <-. unfold scap at 1. simpl. rewrite drop_0.
    pose proof (append_cap zero
      (Slice (S ++ R ++ W ++ F) (zlen S + zlen R + zlen W + zlen F))
      (replicate (Z.to_nat (n - zlen F)) zero)) as Hc.
    unfold scap in Hc at 1. etransitivity; [apply Hc|]; unfold slice_wf, scap; simpl; llia.
  - cbn [mbind res_bind] in E. apply res_bind_inv in E as (d & Er & [= <-]).
    unfold reslice in Er. case_decide; [|done]. injection Er as <-. unfold scap. simpl.
    rewrite drop_0. llia.
Qed.

Lemma Commit_bb S R W F o n :
  is_int (zlen S + zlen R + n) ->
  Commit (bb S R W F o) n = bb S (R ++ ztake n W) (zdrop n W) F o.
Proof.
  intros Hi. unfold Commit. simpl. case_decide; [zsimpl; done|].
  rewrite i64_small by done.
  case_decide; apply bb_intro; try llia;
    by rewrite <-!app_assoc, (app_assoc (ztake n W)), take_drop.
Qed.

(** Moving the tail of the array over a removed chunk, as [Consume] and
    [Discard] do with [copy]. *)
Lemma remove_chunk (P B Q F : list byte) (len off hi : Z) :
  off = zlen P -> hi = zlen P + zlen B + zlen Q -> len = hi ->
  exists src d k F',
    reslice (Slice (P ++ B ++ Q ++ F) len) (off + zlen B) hi = Ret src
    /\ copy_at (Slice (P ++ B ++ Q ++ F) len) off (elems src) = Ret (d, k)
    /\ reslice d 0 (hi - zlen B) = Ret (Slice (P ++ Q ++ F') (hi - zlen B))
    /\ zlen F' = zlen B + zlen F.
Proof.
  intros -> -> ->. rewrite reslice_ok by (unfold scap; simpl; llia).
  eexists _, _, _, (zdrop (zlen P + zlen Q) (P ++ B ++ Q ++ F)).
  split; [reflexivity|]. unfold elems. simpl. zsimpl.
  rewrite copy_at_ok by (simpl; llia). split; [reflexivity|].
  rewrite reslice_0.
  - split; [|llia]. simpl. do 2 f_equal. unfold write_at. by zsimpl.
  - unfold scap. simpl. rewrite length_write_at by llia. llia.
Qed.

Lemma Consume_bb S R W F o n :
  exists F', Consume (bb S R W F o) n = Ret (bb S (zdrop n R) W F' o)
    /\ zlen F' = zlen (ztake n R) + zlen F.
Proof.
  unfold Consume. case_decide.
  { exists F. zsimpl. split; [done|simpl; lia]. }
  rewrite ReadLen_bb. simpl.
  set (m := if decide (zlen R < n) then zlen R else n).
  assert (ztake n R = ztake m R /\ zdrop n R = zdrop m R /\ 0 <= m <= zlen R)
    as (-> & -> & Hm) by (unfold m; case_decide; zsimpl; split_and!; done || lia).
  clearbody m. case_decide.
  - destruct (remove_chunk S (ztake m R) (zdrop m R ++ W) F
      (zlen S + zlen R + zlen W) (zlen S) (zlen S + zlen R + zlen W))
      as (src & d & k & F' & E1 & E2 & E3 & HF'); [lia|llia|lia|].
    replace (zlen (ztake m R)) with m in * by llia.
    replace (S ++ ztake m R ++ (zdrop m R ++ W) ++ F) with (S ++ R ++ W ++ F) in *
      by (rewrite <-app_assoc, (app_assoc (ztake m R)), take_drop; done).
    rewrite E1; simpl; rewrite E2; simpl; rewrite E3; simpl.
    exists F'. split; [|lia]. f_equal. apply bb_intro; try llia.
    by rewrite <-app_assoc.
  - exists F. zsimpl. split; [done|simpl; lia].
Qed.

Lemma Save_bb S R W F o n :
  Save (bb S R W F o) n
  = Ret (bb (S ++ ztake n R) (zdrop n R) W F o,
         if decide (ztake n R = []) then mkSlot 0 0
         else mkSlot (zlen S) (zlen (ztake n R))).
Proof.
  unfold Save. rewrite ReadLen_bb. simpl.
  set (m := if decide (zlen R < n) then zlen R else n).
  assert (ztake n R = ztake m R /\ zdrop n R = zdrop m R /\ m <= zlen R)
    as (-> & -> & Hm) by (unfold m; case_decide; zsimpl; split_and!; done || lia).
  clearbody m. case_decide.
  - rewrite (ztake_neg m), (zdrop_neg m), app_nil_r by done.
    by rewrite decide_True.
  - assert (zlen (ztake m R) = m) as Hl by llia.
    rewrite decide_False by (intros E; rewrite E in Hl; simpl in Hl; lia).
    rewrite Hl. do 2 f_equal. apply bb_intro; try llia.
    by rewrite <-app_assoc, (app_assoc (ztake m R)), take_drop.
Qed.

Lemma SavedSlot_bb A B C R W F o :
  is_int (zlen A + zlen B) ->
  SavedSlot (bb (A ++ B ++ C) R W F o) (mkSlot (zlen A) (zlen B)) = Ret B.
Proof.
  intros Hi. unfold SavedSlot. cbn [Index Length]. rewrite i64_small by done.
  rewrite reslice_bb by llia. simpl. unfold elems. simpl. rewrite <-!app_assoc.
  by zsimpl.
Qed.

Lemma Discard_bb A B C R W F o :
  is_int (zlen A + zlen B) ->
  exists F',
    Discard (bb (A ++ B ++ C) R W F o) (mkSlot (zlen A) (zlen B))
    = Ret (bb (A ++ C) R W F' o, zlen B)
    /\ zlen F' = zlen B + zlen F.
Proof.
  intros Hi. unfold Discard. simpl. rewrite i64_small by done. case_decide.
  { destruct B; [|simpl in *; lia]. exists F. simpl. done. }
  destruct (remove_chunk A B (C ++ R ++ W) F
    (zlen (A ++ B ++ C) + zlen R + zlen W) (zlen A)
    (zlen (A ++ B ++ C) + zlen R + zlen W))
    as (src & d & k & F' & E1 & E2 & E3 & HF'); [lia|llia|lia|].
  replace (A ++ B ++ (C ++ R ++ W) ++ F) with ((A ++ B ++ C) ++ R ++ W ++ F) in *
    by (by rewrite <-!app_assoc).
  rewrite E1; simpl; rewrite E2; simpl; rewrite E3; simpl.
  exists F'. split; [|lia]. do 2 f_equal. apply bb_intro; try llia.
  by rewrite <-!app_assoc.
Qed.

Lemma DiscardAll_bb S R W F o :
  is_int (zlen S) ->
  exists F', DiscardAll (bb S R W F o) = Ret (bb [] R W F' o)
    /\ zlen F' = zlen S + zlen F.
Proof.
  intros Hi. unfold DiscardAll. rewrite SaveLen_bb. simpl.
  destruct (Discard_bb [] S [] R W F o) as (F' & E & HF'); [done|].
  rewrite app_nil_r in E. change (zlen []) with 0 in E. simpl app in E.
  rewrite E. simpl. eauto.
Qed.

Lemma Reset_bb S R W F o :
  Reset (bb S R W F o) = Ret (bb [] [] [] (S ++ R ++ W ++ F) o).
Proof. unfold Reset. rewrite reslice_0 by (unfold scap; simpl; lia). reflexivity. Qed.

Lemma Prefault_bb S R W F o :
  Prefault (bb S R W F o)
  = Ret (bb (replicate (length S) zero) (replicate (length R) zero)
            (replicate (length W) zero) (replicate (length F) zero) o).
Proof.
  unfold Prefault. rewrite scap_bb. rewrite reslice_bb by lia. simpl.
  rewrite Z.sub_0_r. unfold with_data. simpl. f_equal.
  apply bb_intro; try llia. zsimpl.
  rewrite <-!replicate_add. f_equal. lia.
Qed.

Lemma set_wi_bb S R W F o (d : slice byte) (w : Z) W' F' :
  arr d = S ++ R ++ W' ++ F' -> w = zlen S + zlen R + zlen W' ->
  set_wi (bb S R W F o) d w = Ret (bb S R W' F' o).
Proof.
  intros Hd ->. unfold set_wi. rewrite reslice_0 by (unfold scap; rewrite Hd; llia).
  by rewrite Hd.
Qed.

Lemma Read_bb S R W F o dst :
  exists F',
    Read (bb S R W F o) dst
    = Ret (if decide (dst <> [] /\ S ++ R = [])
           then (bb S R W F o, (dst, 0, Some EOF))
           else (bb S (zdrop (zlen dst) R) W F' o,
                 (ztake (zlen dst) R ++ zdrop (zlen R) dst,
                  Z.min (zlen dst) (zlen R), None)))
    /\ zlen F' = zlen (ztake (zlen dst) R) + zlen F.
Proof.
  unfold Read. destruct dst as [|x dst].
  { exists F. rewrite decide_True by done. rewrite decide_False by (intros [? _]; done).
    rewrite drop_nil, Z.min_l by (simpl; lia). done. }
  rewrite decide_False by (simpl; lia).
  destruct (decide (S ++ R = [])) as [E|E].
  - apply app_nil in E as [-> ->]. exists F. rewrite decide_True by done.
    rewrite decide_True by naive_solver. split; [done|]. llia.
  - rewrite decide_False; [|intros Hr; apply E; destruct S, R; simpl in *; lia || done].
    rewrite Data_bb. res_step.
    destruct (Consume_bb S R W F o (Z.min (zlen (x :: dst)) (zlen R)))
      as (F' & -> & HF'). res_step. exists F'.
    rewrite decide_False by (intros [_ ?]; done).
    assert (ztake (Z.min (zlen (x :: dst)) (zlen R)) R = ztake (zlen (x :: dst)) R
      /\ zdrop (Z.min (zlen (x :: dst)) (zlen R)) R = zdrop (zlen (x :: dst)) R
      /\ zdrop (Z.min (zlen (x :: dst)) (zlen R)) (x :: dst) = zdrop (zlen R) (x :: dst))
      as (E1 & E2 & E3).
    { destruct (Z.le_ge_cases (zlen (x :: dst)) (zlen R)).
      - rewrite Z.min_l by lia. split_and!; try done. by rewrite !zdrop_all by lia.
      - rewrite Z.min_r by lia. rewrite !ztake_all, !zdrop_all by lia. done. }
    rewrite E1, E2, E3. rewrite E1 in HF'. done.
Qed.

(** One byte is consumed when there is one; with an empty read area the last
    byte ever read comes back, with [io.EOF] only if nothing is saved either. *)
Lemma ReadByte_bb S R W F o :
  exists F', ReadByte (bb S R W F o)
    = Ret (match R with
           | x :: R' => (bb S R' W F' x, (x, None))
           | [] => (bb S [] W F' o, (o, if decide (S = []) then Some EOF else None))
           end)
    /\ zlen F' = zlen F + match R with [] => 0 | _ => 1 end.
Proof.
  unfold ReadByte. destruct (Read_bb S R W F o [o]) as (F' & E & HF').
  simpl oneByte. rewrite E. case_decide as Hd.
  - destruct Hd as [_ [-> ->]%app_nil]. exists F. simpl. split; [done|lia].
  - destruct R as [|x R]; res_step.
    + exists F'. rewrite decide_False by (intros ->; naive_solver).
      simpl in *. split; [done|lia].
    + exists F'. simpl in *. split; [done|lia].
Qed.

Lemma free_bb S R W F o :
  (s ← reslice (data (bb S R W F o)) (wi (bb S R W F o)) (scap (data (bb S R W F o)));
   Ret (elems s)) = Ret F.
Proof.
  rewrite scap_bb, reslice_bb by (simpl; lia). res_step. unfold elems. simpl.
  by zsimpl.
Qed.

Lemma fill_free_bb S R W F o p :
  length p = length F ->
  with_data (bb S R W F o) (fill_free (bb S R W F o) p) = bb S R W p o.
Proof.
  intros Hp. unfold with_data, fill_free, write_at. simpl. apply bb_intro; try done.
  zsimpl. by rewrite <-!app_assoc.
Qed.

(** [b.wi += n; b.data = b.data[:b.wi]] after the free area was filled. *)
Lemma extend_bb S R W p o n :
  0 <= n <= zlen p ->
  set_wi (bb S R W p o) (data (bb S R W p o)) (wi (bb S R W p o) + n)
  = Ret (bb S R (W ++ ztake n p) (zdrop n p) o).
Proof.
  intros Hn. rewrite (set_wi_bb _ _ _ _ _ _ _ (W ++ ztake n p) (zdrop n p)); [done| |].
  - simpl. by rewrite <-app_assoc, take_drop.
  - simpl. llia.
Qed.

Lemma ReadFrom_bb {T} `{Reader T} S R W F o (r r' : T) p n e :
  io_read r F = Ret (r', (p, n, e)) -> length p = length F -> 0 <= n <= zlen F ->
  ReadFrom (bb S R W F o) r
  = Ret (match e with
         | None => bb S R (W ++ ztake n p) (zdrop n p) o
         | Some _ => bb S R W p o
         end, r', (n, e)).
Proof.
  intros Hr Hp Hn. unfold ReadFrom.
  pose proof (free_bb S R W F o) as Hf. apply res_bind_inv in Hf as (s & -> & [= Hf]).
  res_step. rewrite Hf, Hr. res_step. rewrite fill_free_bb by done.
  destruct e; [done|]. by rewrite extend_bb by lia.
Qed.

Lemma AsyncReadFrom_bb S R W F o complete p n e :
  complete F = (p, n, e) -> length p = length F -> 0 <= n <= zlen F ->
  AsyncReadFrom (bb S R W F o) complete
  = Ret (match e with
         | None => bb S R (W ++ ztake n p) (zdrop n p) o
         | Some _ => bb S R W p o
         end, (e, n)).
Proof.
  intros Hr Hp Hn. unfold AsyncReadFrom.
  pose proof (free_bb S R W F o) as Hf. apply res_bind_inv in Hf as (s & -> & [= Hf]).
  res_step. rewrite Hf, Hr. rewrite fill_free_bb by done.
  destruct e; [done|]. by rewrite extend_bb by lia.
Qed.

Lemma append_bb S R W F o xs :
  exists F', append zero (data (bb S R W F o)) xs
    = Slice (S ++ R ++ (W ++ xs) ++ F') (zlen S + zlen R + zlen W + zlen xs)
    /\ zlen F - zlen xs <= zlen F'.
Proof.
  destruct (append_spec zero (data (bb S R W F o)) xs) as (r & -> & Hr).
  { unfold slice_wf, scap. simpl. llia. }
  rewrite scap_bb in Hr. simpl in Hr. exists r. split; [|lia]. simpl. f_equal.
  unfold elems. simpl. zsimpl. by rewrite <-!app_assoc.
Qed.

Lemma Write_bb S R W F o xs :
  exists F', Write (bb S R W F o) xs = Ret (bb S R (W ++ xs) F' o, (zlen xs, None))
    /\ zlen F - zlen xs <= zlen F'.
Proof.
  unfold Write. destruct (append_bb S R W F o xs) as (F' & -> & HF').
  rewrite (set_wi_bb _ _ _ _ _ _ _ (W ++ xs) F'); [by eauto|done|simpl; llia].
Qed.

Lemma WriteString_bb S R W F o xs :
  exists F', WriteString (bb S R W F o) xs = Ret (bb S R (W ++ xs) F' o, (zlen xs, None))
    /\ zlen F - zlen xs <= zlen F'.
Proof. apply Write_bb. Qed.

Lemma Write_cap S R W F o xs b y :
  Write (bb S R W F o) xs = Ret (b, y) ->
  Cap b <= Z.max (Cap (bb S R W F o)) (Z.max (zlen S + zlen R + zlen W + zlen xs) max_alloc).
Proof.
  intros E. unfold Write, set_wi in E. apply res_bind_inv in E as (b' & E & [= <- _]).
  apply res_bind_inv in E as (d & Er & [= <-]). unfold reslice in Er. case_decide; [|done].
  injection Er as <-. unfold Cap. unfold scap at 1. simpl. rewrite drop_0.
  pose proof (append_cap zero (data (bb S R W F o)) xs) as Hc. unfold scap in Hc at 1.
  etransitivity; [apply Hc|]; rewrite ?scap_bb; unfold slice_wf, scap; simpl; llia.
Qed.

Lemma WriteByte_bb S R W F o x :
  exists F', WriteByte (bb S R W F o) x = Ret (bb S R (W ++ [x]) F' o, None)
    /\ zlen F - 1 <= zlen F'.
Proof.
  unfold WriteByte. destruct (append_bb S R W F o [x]) as (F' & -> & HF').
  rewrite (set_wi_bb _ _ _ _ _ _ _ (W ++ [x]) F'); [by eauto|done|simpl; llia].
Qed.

Lemma PrepareRead_bb S R W F o n :
  is_int (n - zlen R) -> is_int (zlen S + n) ->
  PrepareRead (bb S R W F o) n
  = Ret (if decide (n <= zlen R + zlen W)
         then (bb S (R ++ ztake (n - zlen R) W) (zdrop (n - zlen R) W) F o, None)
         else (bb S R W F o, Some ErrNeedMore)).
Proof.
  intros Hi1 Hi2. unfold PrepareRead. rewrite ReadLen_bb. res_step.
  rewrite i64_small by done. case_decide.
  - rewrite WriteLen_bb. res_step.
    destruct (decide (n <= zlen R + zlen W)).
    + rewrite decide_True by lia. rewrite Commit_bb; [done|].
      replace (zlen S + zlen R + (n - zlen R)) with (zlen S + n) by lia. done.
    + by rewrite decide_False by lia.
  - rewrite decide_True by lia. zsimpl. done.
Qed.

Lemma Claim_bb S R W F o fn p n :
  fn F = Ret (p, n) -> length p = length F -> is_int (zlen S + zlen R + zlen W + n) ->
  Claim (bb S R W F o) fn
  = Ret (if decide (0 <= n <= zlen F)
         then bb S R (W ++ ztake n p) (zdrop n p) o
         else bb S R W p o).
Proof.
  intros Hfn Hp Hi. unfold Claim.
  pose proof (free_bb S R W F o) as Hf. apply res_bind_inv in Hf as (s & -> & [= Hf]).
  res_step. rewrite Hf, Hfn. res_step. rewrite fill_free_bb by done.
  rewrite i64_small by done. rewrite scap_bb, Hp.
  destruct (decide (0 <= n <= zlen F)).
  - rewrite decide_True by (simpl; lia). by rewrite extend_bb by lia.
  - by rewrite decide_False by (simpl; lia).
Qed.

Lemma ClaimFixed_bb S R W F o n :
  is_int (zlen S + zlen R + zlen W + n) ->
  ClaimFixed (bb S R W F o) n
  = Ret (if decide (0 <= n <= zlen F)
         then (bb S R (W ++ ztake n F) (zdrop n F) o,
               Some (zlen S + zlen R + zlen W, zlen S + zlen R + zlen W + n))
         else (bb S R W F o, None)).
Proof.
  intros Hi. unfold ClaimFixed. rewrite i64_small by done. rewrite scap_bb.
  destruct (decide (0 <= n <= zlen F)).
  - rewrite decide_True by (simpl; lia). rewrite reslice_bb by (simpl; lia). res_step.
    by rewrite extend_bb by lia.
  - by rewrite decide_False by (simpl; lia).
Qed.

Lemma ShrinkBy_bb S R W F o n :
  let k := Z.max 0 (Z.min n (zlen W)) in
  ShrinkBy (bb S R W F o) n
  = Ret (bb S R (ztake (zlen W - k) W) (zdrop (zlen W - k) W ++ F) o, k).
Proof.
  intros k. unfold ShrinkBy. case_decide.
  - replace k with 0 by lia. zsimpl. done.
  - rewrite WriteLen_bb. res_step.
    replace (if decide (zlen W < n) then zlen W else n) with k
      by (case_decide; lia).
    rewrite (set_wi_bb _ _ _ _ _ _ _ (ztake (zlen W - k) W)
      (zdrop (zlen W - k) W ++ F)); [done| |simpl; llia].
    simpl. by rewrite (app_assoc (ztake _ _)), take_drop.
Qed.

Lemma ShrinkTo_bb S R W F o n :
  is_int (zlen W - n) ->
  let k := Z.max 0 (Z.min (zlen W - n) (zlen W)) in
  ShrinkTo (bb S R W F o) n
  = Ret (bb S R (ztake (zlen W - k) W) (zdrop (zlen W - k) W ++ F) o, k).
Proof.
  intros Hi k. unfold ShrinkTo. rewrite WriteLen_bb. res_step.
  rewrite i64_small by done. apply ShrinkBy_bb.
Qed.

Lemma UnreadByte_bb S R W F o :
  UnreadByte (bb S R W F o)
  = Ret (match list.last W with
         | Some x => (bb S R (take (length W - 1) W) (x :: F) o, None)
         | None => (bb S R W F o, Some EOF)
         end).
Proof.
  unfold UnreadByte. rewrite WriteLen_bb. res_step.
  destruct W as [|x W _] using rev_ind; [done|].
  rewrite decide_True by llia. rewrite last_snoc, take_app_length' by llia.
  rewrite (set_wi_bb _ _ _ _ _ _ _ W (x :: F)); [done| |]; [simpl; by rewrite <-app_assoc|].
  simpl. llia.
Qed.

(** The loop of [WriteTo] ends: each round either fails or advances.  Without an
    error the writer has received the whole rest of the read area, in order. *)
Lemma WriteTo_loop_bb {T} `{WriterLaws T} `{!WriterLog T} S R W F o fuel (w : T) k :
  0 <= k <= zlen R -> zlen R - k <= Z.of_nat fuel ->
  exists w' k' e x,
    WriteTo_loop fuel (bb S R W F o) w k = Ret (w', (k', e))
    /\ k <= k' <= zlen R /\ (e = None -> k' = zlen R /\ x = [])
    /\ wlog w' = wlog w ++ ztake (k' - k) (zdrop k R) ++ x
    /\ x `prefix_of` zdrop k' R.
Proof.
  revert w k. induction fuel as [|fuel IH]; intros w k Hk Hf;
    cbn [WriteTo_loop]; simpl si; simpl ri.
  { rewrite decide_False by lia. exists w, k, None, [].
    rewrite ztake_neg by lia. rewrite !app_nil_r.
    split_and!; [done|lia|lia|by intros _; split; [lia|]|done|apply prefix_nil]. }
  case_decide.
  2: { exists w, k, None, []. rewrite ztake_neg by lia. rewrite !app_nil_r.
       split_and!; [done|lia|lia|by intros _; split; [lia|]|done|apply prefix_nil]. }
  rewrite reslice_bb by lia. res_step. unfold elems. cbn [arr slen].
  assert (ztake (zlen S + zlen R - (zlen S + k)) (zdrop (zlen S + k) (S ++ R ++ W ++ F))
    = zdrop k R) as ->.
  { rewrite zdrop_app_ge by lia. rewrite zdrop_app_le by lia.
    rewrite ztake_app_ge by llia. rewrite ztake_neg by llia.
    rewrite app_nil_r. f_equal. lia. }
  destruct (io_write_ok w (zdrop k R)) as (w1 & n & e & Hw & Hn & Hp).
  pose proof (wlog_write _ _ _ _ _ Hw) as Hl. rewrite Hw. res_step.
  autorewrite with zlist in Hn. destruct e as [e|].
  { exists w1, k, (Some e), (ztake n (zdrop k R)).
    rewrite (ztake_neg (k - k)) by lia. rewrite app_nil_l.
    split_and!; [done|lia|lia|done|done|apply prefix_take]. }
  destruct (IH w1 (k + n)) as (w2 & k2 & e2 & x & E & Hk2 & He & Hlog & Hx); [lia| |].
  { assert (0 < n); [|lia]. apply Hp; [done|]. intros E.
    apply (f_equal length) in E. llia. }
  exists w2, k2, e2, x. split_and!; [done|lia|lia|done| |done].
  rewrite Hlog, Hl, <-app_assoc. f_equal. rewrite app_assoc. f_equal.
  replace (Z.to_nat (k2 - k)) with (Z.to_nat n + Z.to_nat (k2 - (k + n)))%nat by lia.
  rewrite <-take_take_drop, drop_drop. do 3 f_equal. lia.
Qed.

Lemma WriteTo_bb {T} `{WriterLaws T} `{!WriterLog T} S R W F o fuel (w : T) :
  zlen R <= Z.of_nat fuel ->
  exists w' k e x F',
    WriteTo fuel (bb S R W F o) w = Ret (bb S (zdrop k R) W F' o, w', (k, e))
    /\ 0 <= k <= zlen R /\ (e = None -> k = zlen R /\ x = [])
    /\ wlog w' = wlog w ++ ztake k R ++ x /\ x `prefix_of` zdrop k R
    /\ zlen F' = k + zlen F.
Proof.
  intros Hf. unfold WriteTo.
  destruct (WriteTo_loop_bb S R W F o fuel w 0)
    as (w' & k & e & x & -> & Hk & He & Hlog & Hx); [lia|lia|].
  res_step. destruct (Consume_bb S R W F o k) as (F' & -> & HF').
  exists w', k, e, x, F'. rewrite Z.sub_0_r, drop_0 in Hlog.
  split_and!; try done; try lia. rewrite HF'. llia.
Qed.

Lemma AsyncWriteTo_bb S R W F o complete e n :
  complete R = (e, n) ->
  exists F', AsyncWriteTo (bb S R W F o) complete
    = Ret (bb S (match e with None => zdrop n R | Some _ => R end) W F' o, (e, n))
    /\ match e with None => zlen F' = zlen (ztake n R) + zlen F | Some _ => F' = F end.
Proof.
  intros Hc. unfold AsyncWriteTo. rewrite Data_bb. res_step. rewrite Hc.
  destruct e; [by eauto|].
  destruct (Consume_bb S R W F o n) as (F' & -> & HF'). by eauto.
Qed.
End area_laws.

(** Sizes far from the limits of [int], as a decoder needs them. *)
Definition bounded (S R W F : list byte) : Prop :=
  zlen S <= 2 ^ 59 /\ zlen S + zlen R + zlen W + zlen F <= 2 ^ 61.
