(* ===== verification/ByteBufferSpec.v ===== *)
(** What a byte buffer promises.

    [areas] is the abstract buffer: four byte sequences and the byte [ReadByte]
    returned last.  [step] says what each method may do to it, leaving open only
    what the code leaves open (the capacity after a growth, the bytes of the free
    area).  [apply_op] runs the methods of [ByteBuffer.v]; the refinement theorem
    states that under the buffer invariant every call returns (no slice expression
    panics), keeps the invariant and makes a step of the abstract buffer, and the
    stream theorem that a buffer used as a queue loses, duplicates and reorders no
    byte. *)

From S2P Require Import Prelude GoSlice GoIO ByteBuffer.

(** * The abstract buffer *)

Record areas : Type := Areas {
  saved : list byte;
  readable : list byte;
  written : list byte;
  free : list byte;
  last_read : byte
}.

Definition areas_of (b : ByteBuffer) : areas :=
  Areas (ztake (si b) (arr (data b)))
        (ztake (ri b - si b) (zdrop (si b) (arr (data b))))
        (ztake (wi b - ri b) (zdrop (ri b) (arr (data b))))
        (zdrop (wi b) (arr (data b)))
        (oneByte b).

(** The calls.  The reader of [ReadFrom] and [AsyncReadFrom] is what it makes of the slice it is
    given (contents, count and error), that of [Claim] likewise; the writer of [WriteTo] is
    its answers to the calls of [Write], the one of [AsyncWriteTo] its answer to the slice. *)
Inductive op : Type :=
| OReserve (n : Z) | OCommit (n : Z) | OPrefault | OConsume (n : Z) | OSave (n : Z)
| ODiscard (s : Slot) | ODiscardAll | OReset
| ORead (dst : list byte) | OReadByte
| OReadFrom (rd : list byte -> list byte * Z * option error)
| OAsyncReadFrom (rd : list byte -> list byte * Z * option error)
| OUnreadByte | OWrite (xs : list byte) | OWriteByte (x : byte) | OWriteString (xs : list byte)
| OWriteTo (answers : list (Z * option error))
| OAsyncWriteTo (wr : list byte -> option error * Z)
| OPrepareRead (n : Z) | OClaim (fn : list byte -> list byte * Z) | OClaimFixed (n : Z)
| OShrinkBy (n : Z) | OShrinkTo (n : Z)
| OData | OSaved | OSavedSlot (s : Slot)
| OSaveLen | OReadLen | OWriteLen | OLen | OCap | OReserved.

(** What they return; of [WriteTo] also what the writer accepted. *)
Inductive out : Type :=
| RNone
| RInt (n : Z)
| RErr (e : option error)
| RCount (n : Z) (e : option error)
| RByte (x : byte) (e : option error)
| RBytes (xs : list byte)
| RRead (dst : list byte) (n : Z) (e : option error)
| RWritten (n : Z) (e : option error) (accepted : list byte)
| RSlot (s : Slot)
| RRange (r : option (Z * Z)).

(** A reader by its answer. *)
Record CallReader : Type := mkCallReader { on_read : list byte -> list byte * Z * option error }.
#[export] Instance call_reader : Reader CallReader := fun r p => Ret (r, on_read r p).

(** A writer by its answers, fitted to what [io.Writer] allows: between one byte (none, with
    an error) and all of them; it fails when it has no more answers. *)
Record Script : Type := mkScript { answers : list (Z * option error); accepted : list byte }.
#[export] Instance script_writer : Writer Script := fun w p =>
  match answers w with
  | [] => Ret (w, (0, Some (ErrOther 32)))
  | (n, e) :: rest =>
      let n := Z.min (zlen p) (Z.max (match e with None => 1 | Some _ => 0 end) n) in
      Ret (mkScript rest (accepted w ++ ztake n p), (n, e))
  end.

#[export] Instance script_writer_laws : WriterLaws Script.
Proof.
  intros w p. unfold io_write, script_writer. destruct (answers w) as [|[n e] rest].
  - eexists _, _, _. split_and!; [reflexivity|lia|lia|done].
  - eexists _, _, _. split_and!; [reflexivity|destruct e; lia|lia|].
    intros -> Hp. destruct p; [done|]. simpl. lia.
Qed.

#[export] Instance script_writer_log : WriterLog Script.
Proof.
  refine {| wlog := accepted |}. intros w p w' n e Hw.
  unfold io_write, script_writer in Hw. destruct (answers w) as [|[m e'] rest]; simplify_eq; simpl.
  - by rewrite app_nil_r.
  - done.
Defined.

Definition apply_op `{GoRuntime} (b : ByteBuffer) (o : op) : res (ByteBuffer * out) :=
  match o with
  | OReserve n => b ← Reserve b n; Ret (b, RNone)
  | OCommit n => Ret (Commit b n, RNone)
  | OPrefault => b ← Prefault b; Ret (b, RNone)
  | OConsume n => b ← Consume b n; Ret (b, RNone)
  | OSave n => '(b, s) ← Save b n; Ret (b, RSlot s)
  | ODiscard s => '(b, n) ← Discard b s; Ret (b, RInt n)
  | ODiscardAll => b ← DiscardAll b; Ret (b, RNone)
  | OReset => b ← Reset b; Ret (b, RNone)
  | ORead dst => '(b, (dst, n, e)) ← Read b dst; Ret (b, RRead dst n e)
  | OReadByte => '(b, (x, e)) ← ReadByte b; Ret (b, RByte x e)
  | OReadFrom rd => '(b, _, (n, e)) ← ReadFrom b (mkCallReader rd); Ret (b, RCount n e)
  | OAsyncReadFrom rd => '(b, (e, n)) ← AsyncReadFrom b rd; Ret (b, RCount n e)
  | OUnreadByte => '(b, e) ← UnreadByte b; Ret (b, RErr e)
  | OWrite xs => '(b, (n, e)) ← Write b xs; Ret (b, RCount n e)
  | OWriteByte x => '(b, e) ← WriteByte b x; Ret (b, RErr e)
  | OWriteString xs => '(b, (n, e)) ← WriteString b xs; Ret (b, RCount n e)
  | OWriteTo ans =>
      '(b, w, (n, e)) ← WriteTo (Z.to_nat (ri b - si b)) b (mkScript ans []);
      Ret (b, RWritten n e (accepted w))
  | OAsyncWriteTo wr => '(b, (e, n)) ← AsyncWriteTo b wr; Ret (b, RCount n e)
  | OPrepareRead n => '(b, e) ← PrepareRead b n; Ret (b, RErr e)
  | OClaim fn => b ← Claim b (fun p => Ret (fn p)); Ret (b, RNone)
  | OClaimFixed n => '(b, r) ← ClaimFixed b n; Ret (b, RRange r)
  | OShrinkBy n => '(b, k) ← ShrinkBy b n; Ret (b, RInt k)
  | OShrinkTo n => '(b, k) ← ShrinkTo b n; Ret (b, RInt k)
  | OData => xs ← Data b; Ret (b, RBytes xs)
  | OSaved => xs ← Saved b; Ret (b, RBytes xs)
  | OSavedSlot s => xs ← SavedSlot b s; Ret (b, RBytes xs)
  | OSaveLen => n ← SaveLen b; Ret (b, RInt n)
  | OReadLen => n ← ReadLen b; Ret (b, RInt n)
  | OWriteLen => n ← WriteLen b; Ret (b, RInt n)
  | OLen => Ret (b, RInt (Len b))
  | OCap => Ret (b, RInt (Cap b))
  | OReserved => Ret (b, RInt (Reserved b))
  end.

Module Spec.
(** [zeros xs]: as many zero bytes as [xs] has bytes. *)
Definition zeros (xs : list byte) : list byte := replicate (length xs) zero.

(** What the calls that change nothing return. *)
Inductive look : list byte -> list byte -> list byte -> list byte -> op -> out -> Prop :=
| look_data S R W F : look S R W F OData (RBytes R)
| look_saved S R W F : look S R W F OSaved (RBytes S)
| look_slot A B C R W F :
    look (A ++ B ++ C) R W F (OSavedSlot (mkSlot (zlen A) (zlen B))) (RBytes B)
| look_save_len S R W F : look S R W F OSaveLen (RInt (zlen S))
| look_read_len S R W F : look S R W F OReadLen (RInt (zlen R))
| look_write_len S R W F : look S R W F OWriteLen (RInt (zlen W))
| look_len S R W F : look S R W F OLen (RInt (zlen (S ++ R ++ W)))
| look_cap S R W F : look S R W F OCap (RInt (zlen (S ++ R ++ W ++ F)))
| look_reserved S R W F : look S R W F OReserved (RInt (zlen F)).

(** What each call may do to the areas [S] (saved), [R] (readable), [W] (written)
    and [F] (free). *)
Inductive step : areas -> op -> out -> areas -> Prop :=
| step_reserve S R W F o n F' :
    n <= zlen F' -> zlen F <= zlen F' ->
    step (Areas S R W F o) (OReserve n) RNone (Areas S R W F' o)
| step_commit S R W F o n :
    step (Areas S R W F o) (OCommit n) RNone
         (Areas S (R ++ ztake n W) (zdrop n W) F o)
| step_prefault S R W F o :
    step (Areas S R W F o) OPrefault RNone
         (Areas (zeros S) (zeros R) (zeros W) (zeros F) o)
| step_consume S R W F o n F' :
    zlen F' = zlen (ztake n R) + zlen F ->
    step (Areas S R W F o) (OConsume n) RNone (Areas S (zdrop n R) W F' o)
| step_save S R W F o n :
    ztake n R <> [] ->
    step (Areas S R W F o) (OSave n) (RSlot (mkSlot (zlen S) (zlen (ztake n R))))
         (Areas (S ++ ztake n R) (zdrop n R) W F o)
| step_save_none S R W F o n :
    ztake n R = [] ->
    step (Areas S R W F o) (OSave n) (RSlot (mkSlot 0 0)) (Areas S R W F o)
| step_discard A B C R W F o F' :
    zlen F' = zlen B + zlen F ->
    step (Areas (A ++ B ++ C) R W F o) (ODiscard (mkSlot (zlen A) (zlen B)))
         (RInt (zlen B)) (Areas (A ++ C) R W F' o)
| step_discard_all S R W F o F' :
    zlen F' = zlen S + zlen F ->
    step (Areas S R W F o) ODiscardAll RNone (Areas [] R W F' o)
| step_reset S R W F o :
    step (Areas S R W F o) OReset RNone (Areas [] [] [] (S ++ R ++ W ++ F) o)
| step_read S R W F o dst F' :
    dst = [] \/ S ++ R <> [] -> zlen F' = zlen (ztake (zlen dst) R) + zlen F ->
    step (Areas S R W F o) (ORead dst)
         (RRead (ztake (zlen dst) R ++ zdrop (zlen R) dst)
                (Z.min (zlen dst) (zlen R)) None)
         (Areas S (zdrop (zlen dst) R) W F' o)
| step_read_eof W F o dst :
    dst <> [] ->
    step (Areas [] [] W F o) (ORead dst) (RRead dst 0 (Some EOF)) (Areas [] [] W F o)
| step_read_byte S x R W F o F' :
    zlen F' = 1 + zlen F ->
    step (Areas S (x :: R) W F o) OReadByte (RByte x None) (Areas S R W F' x)
| step_read_byte_none S W F o F' :
    zlen F' = zlen F ->
    step (Areas S [] W F o) OReadByte
         (RByte o (if decide (S = []) then Some EOF else None)) (Areas S [] W F' o)
| step_read_from S R W F o rd x p n :
    x = OReadFrom rd \/ x = OAsyncReadFrom rd -> rd F = (p, n, None) ->
    step (Areas S R W F o) x (RCount n None) (Areas S R (W ++ ztake n p) (zdrop n p) o)
| step_read_from_err S R W F o rd x p n e :
    x = OReadFrom rd \/ x = OAsyncReadFrom rd -> rd F = (p, n, Some e) ->
    step (Areas S R W F o) x (RCount n (Some e)) (Areas S R W p o)
| step_unread S R W x F o :
    step (Areas S R (W ++ [x]) F o) OUnreadByte (RErr None) (Areas S R W (x :: F) o)
| step_unread_none S R F o :
    step (Areas S R [] F o) OUnreadByte (RErr (Some EOF)) (Areas S R [] F o)
| step_write S R W F o xs x F' :
    x = OWrite xs \/ x = OWriteString xs -> zlen F - zlen xs <= zlen F' ->
    step (Areas S R W F o) x (RCount (zlen xs) None) (Areas S R (W ++ xs) F' o)
| step_write_byte S R W F o x F' :
    zlen F - 1 <= zlen F' ->
    step (Areas S R W F o) (OWriteByte x) (RErr None) (Areas S R (W ++ [x]) F' o)
| step_prepare S R W F o n :
    n <= zlen R + zlen W ->
    step (Areas S R W F o) (OPrepareRead n) (RErr None)
         (Areas S (R ++ ztake (n - zlen R) W) (zdrop (n - zlen R) W) F o)
| step_prepare_more S R W F o n :
    zlen R + zlen W < n ->
    step (Areas S R W F o) (OPrepareRead n) (RErr (Some ErrNeedMore))
         (Areas S R W F o)
| step_write_to S R W F o ans k e extra F' :
    0 <= k <= zlen R -> (e = None -> k = zlen R /\ extra = []) ->
    extra `prefix_of` zdrop k R -> zlen F' = k + zlen F ->
    step (Areas S R W F o) (OWriteTo ans) (RWritten k e (ztake k R ++ extra))
         (Areas S (zdrop k R) W F' o)
| step_async_write_to S R W F o wr n F' :
    wr R = (None, n) -> zlen F' = zlen (ztake n R) + zlen F ->
    step (Areas S R W F o) (OAsyncWriteTo wr) (RCount n None) (Areas S (zdrop n R) W F' o)
| step_async_write_to_err S R W F o wr n e :
    wr R = (Some e, n) ->
    step (Areas S R W F o) (OAsyncWriteTo wr) (RCount n (Some e)) (Areas S R W F o)
| step_claim S R W F o fn p n :
    fn F = (p, n) -> 0 <= n <= zlen F ->
    step (Areas S R W F o) (OClaim fn) RNone (Areas S R (W ++ ztake n p) (zdrop n p) o)
| step_claim_over S R W F o fn p n :
    fn F = (p, n) -> ~ (0 <= n <= zlen F) ->
    step (Areas S R W F o) (OClaim fn) RNone (Areas S R W p o)
| step_claim_fixed S R W F o n :
    0 <= n <= zlen F ->
    step (Areas S R W F o) (OClaimFixed n)
         (RRange (Some (zlen S + zlen R + zlen W, zlen S + zlen R + zlen W + n)))
         (Areas S R (W ++ ztake n F) (zdrop n F) o)
| step_claim_fixed_none S R W F o n :
    ~ (0 <= n <= zlen F) ->
    step (Areas S R W F o) (OClaimFixed n) (RRange None) (Areas S R W F o)
| step_shrink_by S R W F o n k :
    k = Z.max 0 (Z.min n (zlen W)) ->
    step (Areas S R W F o) (OShrinkBy n) (RInt k)
         (Areas S R (ztake (zlen W - k) W) (zdrop (zlen W - k) W ++ F) o)
| step_shrink_to S R W F o n k :
    k = Z.max 0 (Z.min (zlen W - n) (zlen W)) ->
    step (Areas S R W F o) (OShrinkTo n) (RInt k)
         (Areas S R (ztake (zlen W - k) W) (zdrop (zlen W - k) W ++ F) o)
| step_look S R W F o x y :
    look S R W F x y -> step (Areas S R W F o) x y (Areas S R W F o).
End Spec.

(** * Refinement *)

(** Sizes for which the index arithmetic stays inside 64 bits, far above any
    slice the platform can allocate, and the calls that are within the contract:
    a reservation below the allocator's limit, a slot inside the save area, a reader and a
    claim that fill the slice they are given and report at most its length (a claim may
    report any number). *)
Definition fits (b : ByteBuffer) : Prop := scap (data b) <= 2 ^ 61.
Definition arg_ok (n : Z) : Prop := - 2 ^ 61 <= n <= 2 ^ 61.

Definition op_ok (b : ByteBuffer) (o : op) : Prop :=
  match o with
  | OReserve n => - 2 ^ 61 <= n <= max_alloc
  | OCommit n | OPrepareRead n | OClaimFixed n | OShrinkTo n => arg_ok n
  | OReadFrom rd | OAsyncReadFrom rd =>
      length (rd (free (areas_of b))).1.1 = length (free (areas_of b))
      /\ 0 <= (rd (free (areas_of b))).1.2 <= zlen (free (areas_of b))
  | OClaim fn =>
      length (fn (free (areas_of b))).1 = length (free (areas_of b))
      /\ arg_ok (fn (free (areas_of b))).2
  | ODiscard s | OSavedSlot s => 0 <= Index s /\ 0 <= Length s /\ Index s + Length s <= si b
  | _ => True
  end.

Lemma areas_of_bb S R W F o : areas_of (bb S R W F o) = Areas S R W F o.
Proof. unfold areas_of. simpl. f_equal; by zsimpl. Qed.

Section refinement.
Context `{GoRuntime}.
Implicit Types (b : ByteBuffer).

(** The call [x] on [b] returns, keeps the invariant and makes a step. *)
Definition refines b (x : op) : Prop :=
  exists b' y, apply_op b x = Ret (b', y) /\ inv b'
    /\ Spec.step (areas_of b) x y (areas_of b').

Lemma refines_intro S R W F o x (y : out) S' R' W' F' o' :
  apply_op (bb S R W F o) x = Ret (bb S' R' W' F' o', y) ->
  Spec.step (Areas S R W F o) x y (Areas S' R' W' F' o') ->
  refines (bb S R W F o) x.
Proof. intros E Hs. exists (bb S' R' W' F' o'), y. rewrite !areas_of_bb. auto. Qed.

(** [by_call E]: the call is described by the equation [E] of [ByteBuffer.v]. *)
Local Ltac by_call E :=
  eapply refines_intro; [simpl apply_op; rewrite E; reflexivity|].

Context (S R W F : list byte) (o : byte).
Local Abbreviation B := (bb S R W F o).
Context (Hfits : fits B).

Lemma fits_sum : zlen S + zlen R + zlen W + zlen F <= 2 ^ 61.
Proof. unfold fits in Hfits. by rewrite scap_bb in Hfits. Qed.

Local Ltac int_side := pose proof fits_sum; unfold is_int, arg_ok, max_alloc in *; lia.

Lemma refines_reserve n : op_ok B (OReserve n) -> refines B (OReserve n).
Proof.
  simpl. intros Hn. destruct (Reserve_bb S R W F o n) as (F' & E & ? & ?); [int_side..|].
  by_call E. by constructor.
Qed.

Lemma refines_commit n : op_ok B (OCommit n) -> refines B (OCommit n).
Proof.
  simpl. intros Hn. pose proof (Commit_bb S R W F o n ltac:(int_side)) as E.
  by_call E. constructor.
Qed.

Lemma refines_prefault : refines B OPrefault.
Proof. by_call (Prefault_bb S R W F o). constructor. Qed.

Lemma refines_consume n : refines B (OConsume n).
Proof. destruct (Consume_bb S R W F o n) as (F' & E & ?). by_call E. by constructor. Qed.

Lemma refines_save n : refines B (OSave n).
Proof.
  pose proof (Save_bb S R W F o n) as E. case_decide as Hd.
  - rewrite Hd, app_nil_r in E. replace (zdrop n R) with R in E.
    + by_call E. by constructor.
    + rewrite <-(ztake_zdrop n R) at 1. by rewrite Hd.
  - by_call E. by constructor.
Qed.

Lemma refines_discard s : op_ok B (ODiscard s) -> refines B (ODiscard s).
Proof.
  destruct s as [i l]. simpl. intros Hs.
  destruct (split3 i (i + l) S) as (A & C & D & HS & HA & HC); [lia|lia|].
  replace l with (zlen C) by lia. rewrite <-HA.
  destruct (Discard_bb A C D R W F o) as (F' & E & ?).
  { pose proof (f_equal length HS) as Hl. int_side || (autorewrite with zlist in Hl; int_side). }
  rewrite <-HS in E. by_call E. rewrite HS. by constructor.
Qed.

Lemma refines_discard_all : refines B ODiscardAll.
Proof.
  destruct (DiscardAll_bb S R W F o) as (F' & E & ?); [int_side|].
  by_call E. by constructor.
Qed.

Lemma refines_reset : refines B OReset.
Proof. by_call (Reset_bb S R W F o). constructor. Qed.

Lemma refines_read dst : refines B (ORead dst).
Proof.
  destruct (Read_bb S R W F o dst) as (F' & E & HF'). case_decide as Hd.
  - by_call E. destruct Hd as [Hd HSR]. apply app_nil in HSR as [-> ->]. by constructor.
  - by_call E. constructor; [|done]. destruct dst; [by left|right]. naive_solver.
Qed.

Lemma refines_read_byte : refines B OReadByte.
Proof.
  destruct (ReadByte_bb S R W F o) as (F' & E & HF').
  destruct R as [|x R']; by_call E; constructor; lia.
Qed.

Lemma refines_read_from rd : op_ok B (OReadFrom rd) -> refines B (OReadFrom rd).
Proof.
  unfold op_ok. rewrite areas_of_bb. simpl free. destruct (rd F) as [[p n] e] eqn:Er. simpl.
  intros [Hp Hn].
  assert (io_read (mkCallReader rd) F = Ret (mkCallReader rd, (p, n, e))) as Hr.
  { unfold io_read, call_reader. simpl. by rewrite Er. }
  pose proof (ReadFrom_bb S R W F o _ _ p n e Hr Hp Hn) as E.
  destruct e; by_call E; econstructor; eauto.
Qed.

Lemma refines_async_read_from rd : op_ok B (OAsyncReadFrom rd) -> refines B (OAsyncReadFrom rd).
Proof.
  unfold op_ok. rewrite areas_of_bb. simpl free. destruct (rd F) as [[p n] e] eqn:Er. simpl.
  intros [Hp Hn]. pose proof (AsyncReadFrom_bb S R W F o rd p n e Er Hp Hn) as E.
  destruct e; by_call E; econstructor; eauto.
Qed.

Lemma refines_write_to ans : refines B (OWriteTo ans).
Proof.
  destruct (WriteTo_bb S R W F o (Z.to_nat (zlen S + zlen R - zlen S)) (mkScript ans []))
    as (w' & k & e & x & F' & E & Hk & He & Hl & Hx & HF'); [lia|].
  simpl in Hl. by_call E. rewrite Hl. by constructor.
Qed.

Lemma refines_async_write_to wr : refines B (OAsyncWriteTo wr).
Proof.
  destruct (wr R) as [e n] eqn:Er. destruct (AsyncWriteTo_bb S R W F o wr e n Er) as (F' & E & HF').
  destruct e; by_call E; [|by constructor]. rewrite HF'. by constructor.
Qed.

Lemma refines_unread : refines B OUnreadByte.
Proof.
  pose proof (UnreadByte_bb S R W F o) as E.
  destruct W as [|x W' _] using rev_ind; [by_call E; constructor|].
  rewrite last_snoc, take_app_length' in E by llia. by_call E. constructor.
Qed.

Lemma refines_write xs : refines B (OWrite xs).
Proof. destruct (Write_bb S R W F o xs) as (F' & E & ?). by_call E. constructor; auto. Qed.

Lemma refines_write_string xs : refines B (OWriteString xs).
Proof. destruct (WriteString_bb S R W F o xs) as (F' & E & ?). by_call E. constructor; auto. Qed.

Lemma refines_write_byte x : refines B (OWriteByte x).
Proof. destruct (WriteByte_bb S R W F o x) as (F' & E & ?). by_call E. by constructor. Qed.

Lemma refines_prepare n : op_ok B (OPrepareRead n) -> refines B (OPrepareRead n).
Proof.
  simpl. intros Hn.
  pose proof (PrepareRead_bb S R W F o n ltac:(int_side) ltac:(int_side)) as E.
  case_decide; by_call E; constructor; lia.
Qed.

Lemma refines_claim fn : op_ok B (OClaim fn) -> refines B (OClaim fn).
Proof.
  unfold op_ok. rewrite areas_of_bb. simpl free. destruct (fn F) as [p n] eqn:Er. simpl.
  intros [Hp Hn].
  pose proof (Claim_bb S R W F o (fun p => Ret (fn p)) p n (f_equal Ret Er) Hp ltac:(int_side)) as E.
  case_decide; by_call E; [by constructor|by econstructor].
Qed.

Lemma refines_claim_fixed n : op_ok B (OClaimFixed n) -> refines B (OClaimFixed n).
Proof.
  simpl. intros Hn. pose proof (ClaimFixed_bb S R W F o n ltac:(int_side)) as E.
  case_decide; by_call E; by constructor.
Qed.

Lemma refines_shrink_by n : refines B (OShrinkBy n).
Proof. by_call (ShrinkBy_bb S R W F o n). by constructor. Qed.

Lemma refines_shrink_to n : op_ok B (OShrinkTo n) -> refines B (OShrinkTo n).
Proof.
  simpl. intros Hn. pose proof (ShrinkTo_bb S R W F o n ltac:(int_side)) as E.
  by_call E. by constructor.
Qed.

Lemma refines_look x y : apply_op B x = Ret (B, y) -> Spec.look S R W F x y -> refines B x.
Proof. intros E Hl. eapply refines_intro; [exact E|by constructor]. Qed.

Lemma refines_data : refines B OData.
Proof. eapply refines_look; [simpl; by rewrite Data_bb|constructor]. Qed.

Lemma refines_saved : refines B OSaved.
Proof. eapply refines_look; [simpl; by rewrite Saved_bb|constructor]. Qed.

Lemma refines_saved_slot s : op_ok B (OSavedSlot s) -> refines B (OSavedSlot s).
Proof.
  destruct s as [i l]. simpl. intros Hs.
  destruct (split3 i (i + l) S) as (A & C & D & HS & HA & HC); [lia|lia|].
  replace l with (zlen C) by lia. rewrite <-HA.
  pose proof (SavedSlot_bb A C D R W F o) as E. rewrite <-HS in E.
  eapply refines_look; [simpl; rewrite E; [done|int_side]|]. rewrite HS. constructor.
Qed.

Lemma refines_save_len : refines B OSaveLen.
Proof. eapply refines_look; [simpl; by rewrite SaveLen_bb|constructor]. Qed.

Lemma refines_read_len : refines B OReadLen.
Proof. eapply refines_look; [simpl; by rewrite ReadLen_bb|constructor]. Qed.

Lemma refines_write_len : refines B OWriteLen.
Proof. eapply refines_look; [simpl; by rewrite WriteLen_bb|constructor]. Qed.

Lemma refines_len : refines B OLen.
Proof.
  eapply refines_look; [|constructor]. simpl. unfold Len. simpl. do 3 f_equal. llia.
Qed.

Lemma refines_cap : refines B OCap.
Proof.
  eapply refines_look; [|constructor]. simpl. unfold Cap. rewrite scap_bb. do 3 f_equal. llia.
Qed.

Lemma refines_reserved : refines B OReserved.
Proof.
  eapply refines_look; [|constructor]. simpl. unfold Reserved. rewrite scap_bb. simpl.
  do 3 f_equal. llia.
Qed.
End refinement.

Create HintDb bytebuffer.
#[export] Hint Resolve refines_reserve refines_commit refines_prefault refines_consume
  refines_save refines_discard refines_discard_all refines_reset refines_read
  refines_read_byte refines_read_from refines_unread refines_write refines_write_byte
  refines_prepare refines_claim refines_claim_fixed refines_shrink_by
  refines_shrink_to refines_async_read_from refines_write_string refines_write_to
  refines_async_write_to refines_data refines_saved refines_saved_slot refines_save_len
  refines_read_len refines_write_len refines_len refines_cap refines_reserved : bytebuffer.

Lemma apply_op_ok `{GoRuntime} (b : ByteBuffer) (x : op) :
  inv b -> fits b -> op_ok b x -> refines b x.
Proof.
  intros Hi Hf Hok. destruct (inv_areas b Hi) as (S & R & W & F & E).
  rewrite E in *. destruct x; eauto with bytebuffer.
Qed.

(** * The buffer as a queue of bytes *)

(** The bytes between the saved ones and the free ones, in stream order. *)
Definition pending (b : ByteBuffer) : list byte :=
  readable (areas_of b) ++ written (areas_of b).

(** What a call that was given [x] and returned [y] put into the stream, by the count it
    reports. *)
Definition enters (b : ByteBuffer) (x : op) (y : out) : list byte :=
  match x, y with
  | OWrite xs, RCount n None | OWriteString xs, RCount n None => ztake n xs
  | OWriteByte c, RErr None => [c]
  | OReadFrom rd, RCount n None | OAsyncReadFrom rd, RCount n None =>
      ztake n (rd (free (areas_of b))).1.1
  | OClaim fn, _ =>
      let '(p, n) := fn (free (areas_of b)) in
      if decide (0 <= n <= zlen p) then ztake n p else []
  | _, _ => []
  end.

Definition bytes_of (r : res (list byte)) : list byte :=
  match r with Ret xs => xs | _ => [] end.

(** What the caller got out of it: the bytes [Read] stored, the byte [ReadByte] returned, what
    the writer accepted of the count [WriteTo] reports, what [SavedSlot] finds afterwards in
    the slot [Save] returned; of [Consume] and [AsyncWriteTo], the bytes of [Data] before. *)
Definition leaves (b : ByteBuffer) (x : op) (y : out) (b' : ByteBuffer) : list byte :=
  match x, y with
  | ORead _, RRead dst n _ => ztake n dst
  | OReadByte, RByte c None => [c]
  | OWriteTo _, RWritten n _ acc => ztake n acc
  | OSave _, RSlot s => bytes_of (SavedSlot b' s)
  | OConsume n, _ | OAsyncWriteTo _, RCount n None => ztake n (bytes_of (Data b))
  | _, _ => []
  end.

(** The calls that treat the buffer as a queue: all but those that cancel written bytes or
    clear the buffer, and [ReadByte] where it returns a stale byte. *)
Definition is_fifo (b : ByteBuffer) (x : op) : bool :=
  match x with
  | OPrefault | OReset | OUnreadByte | OClaimFixed _ | OShrinkBy _ | OShrinkTo _ => false
  | OReadByte => bool_decide (saved (areas_of b) = [] \/ readable (areas_of b) <> [])
  | _ => true
  end.

Section stream.
Context `{GoRuntime}.

(** Run a sequence of calls, collecting what they report of both streams. *)
Fixpoint run (b : ByteBuffer) (xs : list op) : res (ByteBuffer * list byte * list byte) :=
  match xs with
  | [] => Ret (b, [], [])
  | x :: xs =>
      '(b', y) ← apply_op b x;
      '(b'', i, o) ← run b' xs;
      Ret (b'', enters b x y ++ i, leaves b x y b' ++ o)
  end.

(** Every call of the sequence is a queue call within its contract at the
    moment it is made. *)
Fixpoint admissible (b : ByteBuffer) (xs : list op) : Prop :=
  match xs with
  | [] => True
  | x :: xs =>
      fits b /\ op_ok b x /\ is_fifo b x = true
      /\ forall b' y, apply_op b x = Ret (b', y) -> admissible b' xs
  end.

Lemma data_areas b : inv b -> bytes_of (Data b) = readable (areas_of b).
Proof.
  intros Hi. destruct (inv_areas b Hi) as (S & R & W & F & ->). by rewrite Data_bb, areas_of_bb.
Qed.

(** What [Save] returned is found again. *)
Lemma saved_found b S B C :
  inv b -> is_int (zlen S + zlen B) -> saved (areas_of b) = S ++ B ++ C ->
  bytes_of (SavedSlot b (mkSlot (zlen S) (zlen B))) = B.
Proof.
  intros Hi Hn Hs. destruct (inv_areas b Hi) as (S' & R & W & F & E). rewrite E in *.
  rewrite areas_of_bb in Hs. simpl in Hs. subst S'. by rewrite SavedSlot_bb.
Qed.

Lemma step_stream a x y a' b b' :
  a = areas_of b -> a' = areas_of b' -> inv b -> inv b' -> fits b -> op_ok b x ->
  Spec.step a x y a' -> is_fifo b x = true ->
  readable a ++ written a ++ enters b x y = leaves b x y b' ++ readable a' ++ written a'.
Proof.
  intros Ha Ha' Hi Hi' Hf Hok Hs Hx.
  assert (zlen (saved a) + zlen (readable a) <= 2 ^ 61) as Hsz.
  { destruct (inv_areas b Hi) as (S0 & R0 & W0 & F0 & Eb). unfold fits in Hf.
    rewrite Eb, scap_bb in Hf. rewrite Ha, Eb, areas_of_bb. simpl. lia. }
  unfold leaves; rewrite ?(data_areas b Hi).
  destruct Hs; try discriminate Hx; unfold enters, is_fifo, op_ok in *; rewrite <-?Ha in *;
    cbn [saved readable written free] in *; rewrite ?app_nil_r; try done;
    try (by rewrite app_assoc, take_drop).
  - by rewrite app_nil_l, <-app_assoc, take_drop.
  - rewrite (saved_found b' S (ztake n R) []);
      [by rewrite app_assoc, take_drop|done|unfold is_int; llia|by rewrite <-Ha', app_nil_r].
  - pose proof (saved_found b' [] [] S Hi') as E. change (zlen []) with 0 in E.
    by rewrite E by (done || by rewrite <-Ha').
  - rewrite app_assoc. f_equal. rewrite <-(ztake_zdrop (zlen dst) R) at 1. f_equal.
    destruct (Z.le_ge_cases (zlen dst) (zlen R)); by zsimpl.
  - apply bool_decide_eq_true in Hx as [->|?]; [by rewrite decide_True|done].
  - match goal with O : _ \/ _, E : rd _ = _ |- _ => destruct O as [-> | ->]; by rewrite E end.
  - by match goal with E : _ \/ _ |- _ => destruct E as [-> | ->] end; rewrite app_nil_r.
  - match goal with E : _ \/ _ |- _ => destruct E as [-> | ->] end; by rewrite ztake_all.
  - by rewrite app_nil_l, <-app_assoc, take_drop.
  - rewrite ztake_app_le, take_take, Nat.min_id by llia. by rewrite app_assoc, take_drop.
  - destruct (fn F) as [p' n'] eqn:Ef. simplify_eq/=. destruct Hok as [Hl _].
    by rewrite decide_True by lia.
  - destruct (fn F) as [p' n'] eqn:Ef. simplify_eq/=. destruct Hok as [Hl _].
    by rewrite decide_False, app_nil_r by lia.
  - match goal with E : Spec.look _ _ _ _ _ _ |- _ => destruct E end; by rewrite app_nil_r.
Qed.

Lemma run_stream xs b :
  inv b -> admissible b xs ->
  exists b' i o, run b xs = Ret (b', i, o) /\ inv b'
    /\ pending b ++ i = o ++ pending b'.
Proof.
  revert b. induction xs as [|x xs IH]; intros b Hi Ha.
  { exists b, [], []. by rewrite app_nil_r. }
  destruct Ha as (Hf & Hok & Hx & Hnext).
  destruct (apply_op_ok b x Hi Hf Hok) as (b1 & y & E & Hi1 & Hs).
  destruct (IH b1 Hi1 (Hnext _ _ E)) as (b2 & i & o & E2 & Hi2 & Hp).
  exists b2, (enters b x y ++ i), (leaves b x y b1 ++ o). simpl. rewrite E. res_step.
  rewrite E2. split; [done|]. split; [done|].
  pose proof (step_stream _ _ _ _ b b1 eq_refl eq_refl Hi Hi1 Hf Hok Hs Hx) as Hst.
  unfold pending in *.
  rewrite <-(app_assoc (leaves b x y b1)), <-Hp, !app_assoc. rewrite !app_assoc in Hst.
  by rewrite Hst.
Qed.
End stream.

(** * Properties *)

Section properties.
Context `{GoRuntime}.

(** C1: every method of the buffer but the constructor, on a buffer that satisfies the
    documented invariant [0 <= si <= ri <= wi = len(data) <= cap(data)], returns without a
    panic, re-establishes the invariant, returns what the abstract buffer says and does to the
    save, read, write and free areas what the abstract buffer allows.  Conditions: the
    capacity is at most 2^61 and so are the numbers passed to [Commit], [PrepareRead],
    [ClaimFixed], [ShrinkTo] and returned to [Claim]; [Reserve] asks for no more than can be
    allocated; the slot of [Discard] and [SavedSlot] lies in the save area; readers and the
    callback of [Claim] keep the slice's length, and readers report a count within it;
    writers follow [io.Writer] and accept at least one byte when they report no error.  The
    asynchronous methods are taken up to the call of the user's callback. *)
Theorem bytebuffer_refines (b : ByteBuffer) (x : op) :
  inv b -> fits b -> op_ok b x ->
  exists b' y, apply_op b x = Ret (b', y) /\ inv b'
    /\ Spec.step (areas_of b) x y (areas_of b').
Proof. apply apply_op_ok. Qed.

(** C21: a buffer used through its queue methods never loses, duplicates or reorders a
    byte.  Take any sequence of calls, each within the contract of C1, except those that take
    written bytes back or clear the buffer ([UnreadByte], [ShrinkBy], [ShrinkTo], [Reset],
    [Prefault]), [ClaimFixed], and [ReadByte] with an empty read area but a non-empty save
    area.  All of them return, and what was pending followed by all that the calls report as
    accepted equals what the caller got followed by what is still pending.  What the caller
    got is taken from the results: the bytes [Read] stored, the byte of [ReadByte], what the
    writer of [WriteTo] accepted of the count, what [SavedSlot] finds in the slot of [Save];
    for [Consume] and [AsyncWriteTo], the front of [Data] before the call. *)
Theorem bytebuffer_stream (b : ByteBuffer) (xs : list op) :
  inv b -> admissible b xs ->
  exists b' i o, run b xs = Ret (b', i, o) /\ inv b'
    /\ pending b ++ i = o ++ pending b'.
Proof. apply run_stream. Qed.

(** C34: [WriteTo] terminates against any writer that follows [io.Writer] and accepts at
    least one byte when it reports no error.  The count it returns is between 0 and the length
    of the read area, and exactly that many bytes are consumed; the save and write areas stay;
    the bytes handed over are the read area in order.  Without an error they are the whole
    read area, and on an error only a prefix of the unconsumed bytes may have been written
    besides. *)
Theorem WriteTo_drains {T} `{WriterLaws T} `{!WriterLog T} (b : ByteBuffer) (w : T) fuel :
  inv b -> zlen (readable (areas_of b)) <= Z.of_nat fuel ->
  exists b' w' k e x,
    WriteTo fuel b w = Ret (b', w', (k, e)) /\ inv b'
    /\ 0 <= k <= zlen (readable (areas_of b))
    /\ saved (areas_of b') = saved (areas_of b)
    /\ readable (areas_of b') = zdrop k (readable (areas_of b))
    /\ written (areas_of b') = written (areas_of b)
    /\ wlog w' = wlog w ++ ztake k (readable (areas_of b)) ++ x
    /\ x `prefix_of` readable (areas_of b')
    /\ (e = None -> k = zlen (readable (areas_of b)) /\ x = []).
Proof.
  intros Hi. destruct (inv_areas b Hi) as (S & R & W & F & ->).
  rewrite areas_of_bb; cbn [saved readable written]. intros Hf.
  destruct (WriteTo_bb S R W F (oneByte b) fuel w Hf)
    as (w' & k & e & x & F' & -> & Hk & He & Hl & Hx & _).
  exists (bb S (zdrop k R) W F' (oneByte b)), w', k, e, x. rewrite areas_of_bb; cbn [saved readable written].
  split_and!; try done; lia.
Qed.

(** Saving then discarding is consuming.  [SavedSlot] gives back exactly the
    bytes [Save] took from the front of the read area, and discarding that slot
    leaves the save, read and write areas as [Consume] of the same count does. *)
Theorem save_then_discard (b : ByteBuffer) (n : Z) :
  inv b -> fits b ->
  exists b1 s b2 b3,
    Save b n = Ret (b1, s) /\ SavedSlot b1 s = Ret (ztake n (readable (areas_of b)))
    /\ Discard b1 s = Ret (b2, Length s) /\ Consume b n = Ret b3
    /\ saved (areas_of b2) = saved (areas_of b3)
    /\ readable (areas_of b2) = readable (areas_of b3)
    /\ written (areas_of b2) = written (areas_of b3).
Proof.
  intros Hi. destruct (inv_areas b Hi) as (S & R & W & F & ->).
  unfold fits. rewrite scap_bb. intros Hf.
  rewrite Save_bb. destruct (Consume_bb S R W F (oneByte b) n) as (F3 & -> & _).
  case_decide as Hd.
  - destruct (Discard_bb [] [] (S ++ ztake n R) (zdrop n R) W F (oneByte b))
      as (F2 & E2 & _); [unfold is_int; simpl; lia|].
    pose proof (SavedSlot_bb [] [] (S ++ ztake n R) (zdrop n R) W F (oneByte b)) as E1.
    eexists _, _, _, _. split; [done|].
    simpl app in *. change (zlen []) with 0 in *.
    rewrite E1, E2 by (unfold is_int; lia).
    rewrite !areas_of_bb; cbn [saved readable written Length]. rewrite Hd, app_nil_r. done.
  - destruct (Discard_bb S (ztake n R) [] (zdrop n R) W F (oneByte b))
      as (F2 & E2 & _); [unfold is_int; llia|].
    pose proof (SavedSlot_bb S (ztake n R) [] (zdrop n R) W F (oneByte b)) as E1.
    rewrite !app_nil_r in *.
    eexists _, _, _, _. split; [done|].
    rewrite E1, E2 by (unfold is_int; llia).
    rewrite !areas_of_bb. done.
Qed.

(** [ReadByte] on a buffer with saved bytes and an empty read area reports
    success: it returns the byte read last (or 0) with a nil error, although
    there is no byte to read. *)
Theorem ReadByte_stale (b : ByteBuffer) :
  inv b -> saved (areas_of b) <> [] -> readable (areas_of b) = [] ->
  exists b', ReadByte b = Ret (b', (oneByte b, None))
    /\ readable (areas_of b') = [] /\ saved (areas_of b') = saved (areas_of b).
Proof.
  intros Hi. destruct (inv_areas b Hi) as (S & R & W & F & ->).
  rewrite areas_of_bb; cbn [saved readable written]. intros HS ->.
  destruct (ReadByte_bb S [] W F (oneByte b)) as (F' & -> & _).
  rewrite decide_False by done. eexists. split; [done|]. by rewrite areas_of_bb.
Qed.
End properties.

(** ** Witnesses *)

(** [ab|cd|e] with three free bytes. *)
Definition example_buffer : ByteBuffer :=
  bb [Byte.x61; Byte.x62] [Byte.x63; Byte.x64] [Byte.x65] [Byte.x00; Byte.x00; Byte.x00]
     Byte.x00.

Lemma bytebuffer_refines_witness :
  exists b' y,
    apply_op (H := doubling_runtime) example_buffer (ODiscard (mkSlot 1 1)) = Ret (b', y)
    /\ inv b'
    /\ Spec.step (areas_of example_buffer) (ODiscard (mkSlot 1 1)) y (areas_of b').
Proof.
  apply (@bytebuffer_refines doubling_runtime example_buffer (ODiscard (mkSlot 1 1))).
  - apply inv_bb.
  - vm_compute. discriminate.
  - vm_compute. repeat split; discriminate.
Defined.

Definition example_calls : list op :=
  [OWrite [Byte.x66; Byte.x67; Byte.x68; Byte.x69]; OConsume 1; OPrepareRead 4;
   ORead [Byte.x00; Byte.x00; Byte.x00]].

Lemma bytebuffer_stream_witness :
  exists b' i o,
    run (H := doubling_runtime) example_buffer example_calls = Ret (b', i, o) /\ inv b'
    /\ pending example_buffer ++ i = o ++ pending b'.
Proof.
  apply (@bytebuffer_stream doubling_runtime example_buffer example_calls).
  - apply inv_bb.
  - unfold example_calls.
    do 4 (split; [vm_compute; discriminate|];
          split; [vm_compute; try exact I; split; discriminate|];
          split; [reflexivity|];
          intros ? ? E; vm_compute in E; injection E as <- <-).
    exact I.
Defined.

Lemma WriteTo_drains_witness :
  exists b' w' k e x,
    WriteTo 2 example_buffer (mkSink 1 9 []) = Ret (b', w', (k, e)) /\ inv b'
    /\ 0 <= k <= zlen (readable (areas_of example_buffer))
    /\ saved (areas_of b') = saved (areas_of example_buffer)
    /\ readable (areas_of b') = zdrop k (readable (areas_of example_buffer))
    /\ written (areas_of b') = written (areas_of example_buffer)
    /\ wlog w' = wlog (mkSink 1 9 []) ++ ztake k (readable (areas_of example_buffer)) ++ x
    /\ x `prefix_of` readable (areas_of b')
    /\ (e = None -> k = zlen (readable (areas_of example_buffer)) /\ x = []).
Proof.
  apply (WriteTo_drains example_buffer (mkSink 1 9 []) 2); [apply inv_bb|].
  vm_compute. discriminate.
Defined.

Lemma save_then_discard_witness :
  exists b1 s b2 b3,
    Save example_buffer 1 = Ret (b1, s)
    /\ SavedSlot b1 s = Ret (ztake 1 (readable (areas_of example_buffer)))
    /\ Discard b1 s = Ret (b2, Length s) /\ Consume example_buffer 1 = Ret b3
    /\ saved (areas_of b2) = saved (areas_of b3)
    /\ readable (areas_of b2) = readable (areas_of b3)
    /\ written (areas_of b2) = written (areas_of b3).
Proof.
  apply (save_then_discard example_buffer 1); [apply inv_bb|].
  unfold fits. vm_compute. discriminate.
Defined.

Lemma ReadByte_stale_witness :
  exists b', ReadByte (bb [Byte.x61] [] [] [] Byte.x00) = Ret (b', (Byte.x00, None))
    /\ readable (areas_of b') = [] /\ saved (areas_of b') = [Byte.x61].
Proof.
  apply (ReadByte_stale (bb [Byte.x61] [] [] [] Byte.x00));
    [apply inv_bb|discriminate|reflexivity].
Defined.
