(* ===== verification/FenwickTree.v ===== *)
(** The Fenwick tree of [src/util/fenwick_tree.go].

    The tree stores partial sums of a vector of integers; [down i] and [up i] are
    the index steps of the two loops.  [represents t v] says that [t] holds the sums
    of the vector [v]; every operation of the tree is shown to be the operation on
    [v], within bounds and with its loops terminating. *)

From S2P Require Import Prelude GoSlice.

(** * Operations *)

Record FenwickTree : Type := mkFenwick { fdata : list Z }.

(** [data[i]] and [data[i] += delta]. *)
Definition fget (d : list Z) (i : Z) : res Z :=
  if decide (0 <= i < zlen d)
  then match d !! Z.to_nat i with Some x => Ret x | None => Panic end
  else Panic.

Definition fadd (d : list Z) (i delta : Z) : res (list Z) :=
  x ← fget d i; Ret (<[Z.to_nat i := i64 (x + delta)]> d).

(** The index steps [index | (index + 1)] and [index&(index+1) - 1]. *)
Definition up (i : Z) : Z := Z.lor i (i + 1).
Definition down (i : Z) : Z := Z.land i (i + 1).

Definition NewFenwickTree `{GoRuntime} (n : Z) : res FenwickTree :=
  d ← ExtendSlice 0 nil_slice n; Ret (mkFenwick (elems d)).

Fixpoint Add_loop (fuel : nat) (d : list Z) (index delta : Z) : res (list Z) :=
  if decide (index < zlen d) then
    match fuel with
    | O => NoFuel
    | S fuel' => d ← fadd d index delta; Add_loop fuel' d (up index) delta
    end
  else Ret d.

(** Every round moves the index up: [len(data) - index] rounds are enough. *)
Definition Add (t : FenwickTree) (index delta : Z) : res FenwickTree :=
  d ← Add_loop (Z.to_nat (zlen (fdata t) - index)) (fdata t) index delta;
  Ret (mkFenwick d).

Fixpoint SumUntil_loop (fuel : nat) (d : list Z) (index sum : Z) : res Z :=
  if decide (0 <= index) then
    match fuel with
    | O => NoFuel
    | S fuel' => x ← fget d index; SumUntil_loop fuel' d (down index - 1) (i64 (sum + x))
    end
  else Ret sum.

(** Every round moves the index down: [index + 1] rounds are enough. *)
Definition SumUntil (t : FenwickTree) (index : Z) : res Z :=
  SumUntil_loop (Z.to_nat (index + 1)) (fdata t) index 0.

Definition Sum (t : FenwickTree) : res Z := SumUntil t (zlen (fdata t) - 1).

Definition SumFrom (t : FenwickTree) (index : Z) : res Z :=
  s ← Sum t; u ← SumUntil t (index - 1); Ret (i64 (s - u)).

Definition SumRange (t : FenwickTree) (left right : Z) : res Z :=
  r ← SumUntil t right; l ← SumUntil t (left - 1); Ret (i64 (r - l)).

Definition At (t : FenwickTree) (index : Z) : res Z := SumRange t index index.

Definition Clear (t : FenwickTree) (index : Z) : res (FenwickTree * Z) :=
  v ← At t index;
  t ← Add t index (i64 (- v));
  Ret (t, v).

Definition Reset (t : FenwickTree) : FenwickTree :=
  mkFenwick (replicate (length (fdata t)) 0).

Definition Size (t : FenwickTree) : Z := zlen (fdata t).

(** [for i, x := range xs { t.data[i] += x; after := i | (i+1);
    if after < len(xs) { t.data[after] += t.data[i] } }]. *)
Fixpoint From_loop (d : list Z) (i : Z) (xs : list Z) (n : Z) : res (list Z) :=
  match xs with
  | [] => Ret d
  | x :: xs =>
      d ← fadd d i x;
      let after := up i in
      d ← (if decide (after < n)
           then y ← fget d i; fadd d after y
           else Ret d);
      From_loop d (i + 1) xs n
  end.

Definition NewFenwickTreeFrom `{GoRuntime} (xs : list Z) : res FenwickTree :=
  t ← NewFenwickTree (zlen xs);
  d ← From_loop (fdata t) 0 xs (zlen xs);
  Ret (mkFenwick d).

(** * Index arithmetic *)

(** Both steps by the lowest bit of the index. *)
Ltac by_bits :=
  apply Z.bits_inj'; intros n Hn;
  destruct (Z.eq_dec n 0) as [->|];
  [|replace n with (Z.succ (n - 1)) by lia];
  rewrite ?Z.land_spec, ?Z.lor_spec, ?Z.testbit_even_0, ?Z.testbit_odd_0,
    ?Z.testbit_even_succ, ?Z.testbit_odd_succ, ?Z.land_spec, ?Z.lor_spec by lia;
  try done.

Lemma down_even m : down (2 * m) = 2 * m.
Proof. unfold down. by_bits. apply Bool.andb_diag. Qed.

Lemma down_odd m : down (2 * m + 1) = 2 * down m.
Proof. unfold down. replace (2 * m + 1 + 1) with (2 * (m + 1)) by lia. by_bits. Qed.

Lemma up_even m : up (2 * m) = 2 * m + 1.
Proof. unfold up. by_bits. apply Bool.orb_diag. Qed.

Lemma up_odd m : up (2 * m + 1) = 2 * up m + 1.
Proof. unfold up. replace (2 * m + 1 + 1) with (2 * (m + 1)) by lia. by_bits. Qed.

(** Induction along the binary digits of a non-negative index. *)
Lemma half_ind (P : Z -> Prop) :
  (forall m, 0 <= m -> P (2 * m)) ->
  (forall m, 0 <= m -> P m -> P (2 * m + 1)) ->
  forall i, 0 <= i -> P i.
Proof.
  intros He Ho. enough (forall i, 0 <= i -> 0 <= i -> P i) by auto.
  apply (Z_lt_induction (fun i => 0 <= i -> P i)). intros i IH Hi.
  destruct (Z.Even_or_Odd i) as [[m ->]|[m ->]]; [apply He; lia|].
  apply Ho; [lia|]. apply IH; lia.
Qed.

Lemma down_bounds i : 0 <= i -> 0 <= down i <= i.
Proof.
  revert i. apply half_ind; intros m Hm.
  - rewrite down_even. lia.
  - rewrite down_odd. lia.
Qed.

Lemma up_gt i : 0 <= i -> i < up i.
Proof.
  revert i. apply half_ind; intros m Hm.
  - rewrite up_even. lia.
  - rewrite up_odd. lia.
Qed.

(** The node [j] covers the positions [down j, ..., j].  It covers [k] and is not
    [k] itself exactly when it covers [up k]: the nodes that cover a position are
    the ones [Add] visits. *)
Lemma covers_up j k :
  0 <= j -> 0 <= k -> down j <= k < j <-> down j <= up k <= j.
Proof.
  intros Hj. revert j Hj k. refine (half_ind _ _ _).
  - intros m Hm k Hk. rewrite down_even.
    destruct (Z.Even_or_Odd k) as [[a ->]|[a ->]]; rewrite ?up_even, ?up_odd; lia.
  - intros m Hm IH k Hk. rewrite down_odd.
    destruct (Z.Even_or_Odd k) as [[a ->]|[a ->]]; rewrite ?up_even, ?up_odd; [lia|].
    specialize (IH a ltac:(lia)). lia.
Qed.

(** * Correctness *)

(** The sum of the first [n] elements of a vector. *)
Definition psum (v : list Z) (n : Z) : Z := foldr Z.add 0 (ztake n v).

(** [t] holds the sums of [v]: node [i] that of the positions it covers. *)
Definition represents (t : FenwickTree) (v : list Z) : Prop :=
  length (fdata t) = length v
  /\ forall i, 0 <= i < zlen v ->
       fdata t !! Z.to_nat i = Some (i64 (psum v (i + 1) - psum v (down i))).

Lemma foldr_add_app l k : foldr Z.add 0 (l ++ k) = foldr Z.add 0 l + foldr Z.add 0 k.
Proof. induction l as [|x l IH]; simpl; [done|]. rewrite IH. lia. Qed.

Lemma psum_succ v i x :
  0 <= i -> v !! Z.to_nat i = Some x -> psum v (i + 1) = psum v i + x.
Proof.
  intros Hi Hx. unfold psum. replace (Z.to_nat (i + 1)) with (S (Z.to_nat i)) by lia.
  rewrite (take_S_r _ _ _ Hx), foldr_add_app. simpl. lia.
Qed.

Lemma psum_insert v k x y n :
  v !! k = Some x ->
  psum (<[k := y]> v) n = psum v n + (if decide (Z.of_nat k < n) then y - x else 0).
Proof.
  intros Hx. unfold psum. case_decide.
  - rewrite take_insert_lt by lia. rewrite (insert_take_drop _ k), foldr_add_app.
    + rewrite <-(take_drop_middle (ztake n v) k x) at 3;
        [|rewrite lookup_take_lt by lia; done].
      rewrite foldr_add_app. simpl. lia.
    + apply lookup_lt_Some in Hx. rewrite length_take. lia.
  - rewrite take_insert_ge by lia. lia.
Qed.

Lemma psum_zeros n k : psum (replicate n 0) k = 0.
Proof.
  unfold psum. rewrite take_replicate. induction (Z.to_nat k `min` n)%nat; simpl; lia.
Qed.

Lemma fget_Some d i x : 0 <= i -> d !! Z.to_nat i = Some x -> fget d i = Ret x.
Proof.
  intros Hi Hx. unfold fget. pose proof (lookup_lt_Some _ _ _ Hx).
  rewrite decide_True by lia. by rewrite Hx.
Qed.

Lemma fadd_Some d i x delta :
  0 <= i -> d !! Z.to_nat i = Some x ->
  fadd d i delta = Ret (<[Z.to_nat i := i64 (x + delta)]> d).
Proof. intros Hi Hx. unfold fadd. by rewrite (fget_Some _ _ _ Hi Hx). Qed.

Lemma in_range_Some (d : list Z) i :
  0 <= i < zlen d -> exists x, d !! Z.to_nat i = Some x.
Proof. intros H. apply lookup_lt_is_Some_2. lia. Qed.

(** [Add] changes exactly the nodes that cover the position. *)
Lemma Add_loop_spec fuel d index delta :
  0 <= index -> zlen d - index <= Z.of_nat fuel ->
  exists d', Add_loop fuel d index delta = Ret d' /\ length d' = length d
    /\ forall j, 0 <= j ->
         d' !! Z.to_nat j
         = (fun x => if decide (down j <= index <= j) then i64 (x + delta) else x)
           <$> d !! Z.to_nat j.
Proof.
  revert d index. induction fuel as [|fuel IH]; intros d index Hi Hf; simpl.
  - rewrite decide_False by lia. exists d. split_and!; [done..|].
    intros j Hj. destruct (d !! Z.to_nat j) eqn:E; [|done].
    apply lookup_lt_Some in E. simpl. by rewrite decide_False by lia.
  - case_decide as Hlt.
    2: { exists d. split_and!; [done..|]. intros j Hj.
         destruct (d !! Z.to_nat j) eqn:E; [|done].
         apply lookup_lt_Some in E. simpl. by rewrite decide_False by lia. }
    destruct (in_range_Some d index) as [x Hx]; [lia|].
    rewrite (fadd_Some _ _ _ _ Hi Hx). res_step.
    pose proof (up_gt index Hi).
    destruct (IH (<[Z.to_nat index := i64 (x + delta)]> d) (up index))
      as (d' & -> & Hlen & Hd'); [lia|rewrite length_insert; lia|].
    exists d'. rewrite length_insert in Hlen. split_and!; [done..|].
    intros j Hj. rewrite Hd' by done.
    pose proof (covers_up j index Hj Hi). pose proof (down_bounds j Hj).
    destruct (decide (j = index)) as [->|Hne].
    + rewrite list_lookup_insert_eq by lia. rewrite Hx. simpl.
      rewrite decide_False by lia. by rewrite decide_True by lia.
    + rewrite list_lookup_insert_ne by lia. destruct (d !! Z.to_nat j); [|done].
      simpl. f_equal.
      destruct (decide (down j <= index <= j)); [rewrite decide_True by lia|
        rewrite decide_False by lia]; done.
Qed.

Lemma Add_spec t v k delta x :
  represents t v -> 0 <= k -> v !! Z.to_nat k = Some x ->
  exists t', Add t k delta = Ret t' /\ represents t' (<[Z.to_nat k := x + delta]> v).
Proof.
  intros [Hlen Hrep] Hk Hx. unfold Add.
  destruct (Add_loop_spec (Z.to_nat (zlen (fdata t) - k)) (fdata t) k delta)
    as (d' & -> & Hlen' & Hd'); [lia|lia|].
  eexists. split; [done|]. split; simpl; [by rewrite length_insert, Hlen', Hlen|].
  rewrite length_insert. intros i Hi. rewrite Hd', Hrep by lia. simpl. f_equal.
  rewrite !(psum_insert _ _ x) by done.
  pose proof (down_bounds i ltac:(lia)). repeat case_decide; try lia; i64_eq.
Qed.

Lemma SumUntil_loop_spec fuel t v index sum :
  represents t v -> -1 <= index < zlen v -> index + 1 <= Z.of_nat fuel ->
  SumUntil_loop fuel (fdata t) index (i64 sum) = Ret (i64 (sum + psum v (index + 1))).
Proof.
  intros Ht. revert index sum. induction fuel as [|fuel IH]; intros index sum Hi Hf; simpl.
  - rewrite decide_False by lia. replace (index + 1) with 0 by lia. do 2 f_equal.
    unfold psum. simpl. lia.
  - case_decide as Hd.
    2: { replace (index + 1) with 0 by lia. do 2 f_equal. unfold psum. simpl. lia. }
    rewrite (fget_Some _ _ (i64 (psum v (index + 1) - psum v (down index)))); [|lia|].
    2: { apply Ht. lia. }
    res_step. pose proof (down_bounds index Hd). autorewrite with i64.
    rewrite IH by lia. rewrite Z.sub_add. do 2 f_equal. lia.
Qed.

Lemma SumUntil_spec t v index :
  represents t v -> -1 <= index < zlen v -> SumUntil t index = Ret (i64 (psum v (index + 1))).
Proof.
  intros Ht Hi. exact (SumUntil_loop_spec (Z.to_nat (index + 1)) t v index 0 Ht Hi ltac:(lia)).
Qed.

Lemma Sum_spec t v : represents t v -> Sum t = Ret (i64 (psum v (zlen v))).
Proof.
  intros Ht. unfold Sum. destruct Ht as [Hl Hr] eqn:E. rewrite Hl.
  rewrite (SumUntil_spec t v) by (done || lia). do 3 f_equal. lia.
Qed.

Lemma SumRange_spec t v l r :
  represents t v -> 0 <= l -> l - 1 <= r < zlen v ->
  SumRange t l r = Ret (i64 (psum v (r + 1) - psum v l)).
Proof.
  intros Ht Hl Hr. unfold SumRange.
  rewrite !(SumUntil_spec t v) by (done || lia). res_step. rewrite Z.sub_add.
  f_equal. i64_eq.
Qed.

Lemma At_spec t v i x :
  represents t v -> 0 <= i -> v !! Z.to_nat i = Some x -> At t i = Ret (i64 x).
Proof.
  intros Ht Hi Hx. unfold At. pose proof (lookup_lt_Some _ _ _ Hx).
  rewrite (SumRange_spec t v) by (done || lia). rewrite (psum_succ v i x) by done.
  f_equal. i64_eq.
Qed.

Lemma represents_zeros n : represents (mkFenwick (replicate n 0)) (replicate n 0).
Proof.
  split; [done|]. simpl. intros i Hi. rewrite !psum_zeros.
  apply lookup_replicate_2. rewrite length_replicate in Hi. lia.
Qed.

Lemma SumFrom_spec t v i :
  represents t v -> 0 <= i <= zlen v ->
  SumFrom t i = Ret (i64 (psum v (zlen v) - psum v i)).
Proof.
  intros Ht Hi. unfold SumFrom. rewrite (Sum_spec t v), (SumUntil_spec t v) by (done || lia).
  res_step. rewrite Z.sub_add. f_equal. i64_eq.
Qed.

(** A tree determines its vector modulo 2^64 only. *)
Lemma represents_eqm t v k z x y :
  represents t (<[k := x]> v) -> v !! k = Some z -> i64 x = i64 y ->
  represents t (<[k := y]> v).
Proof.
  unfold represents. rewrite !length_insert. intros [Hl Hr] Hz Hxy. split; [done|].
  intros i Hi. rewrite Hr by done. f_equal. rewrite !(psum_insert v k z) by done.
  pose proof (down_bounds i ltac:(lia)).
  repeat case_decide; try lia; try (f_equal; lia).
  replace (psum v (i + 1) + (x - z) - (psum v (down i) + 0))
    with (psum v (i + 1) - z - psum v (down i) + x) by lia.
  rewrite <-i64_add_r, Hxy. i64_eq.
Qed.

Lemma Clear_spec t v k x :
  represents t v -> 0 <= k -> v !! Z.to_nat k = Some x ->
  exists t', Clear t k = Ret (t', i64 x) /\ represents t' (<[Z.to_nat k := 0]> v).
Proof.
  intros Ht Hk Hx. unfold Clear. rewrite (At_spec t v k x) by done. res_step.
  destruct (Add_spec t v k (i64 (- i64 x)) x Ht Hk Hx) as (t' & -> & Ht').
  exists t'. split; [done|]. eapply represents_eqm; [done..|].
  rewrite <-i64_add_l. rewrite <-Z.sub_0_l. autorewrite with i64. f_equal. lia.
Qed.

(** Outside the vector: past the end [Add] does nothing, before the start it panics at
    once, as [SumUntil] does past the end. *)
Lemma Add_past t k delta : zlen (fdata t) <= k -> Add t k delta = Ret t.
Proof.
  intros Hk. unfold Add. replace (Z.to_nat _) with 0%nat by lia. simpl.
  rewrite decide_False by lia. by destruct t.
Qed.

Lemma Add_before t k delta : k < 0 -> Add t k delta = Panic.
Proof.
  intros Hk. unfold Add. replace (Z.to_nat _) with (S (Z.to_nat (zlen (fdata t) - k - 1))) by lia.
  simpl. rewrite decide_True by lia. unfold fadd, fget. by rewrite decide_False by lia.
Qed.

Lemma SumUntil_past t i : zlen (fdata t) <= i -> SumUntil t i = Panic.
Proof.
  intros Hi. unfold SumUntil. replace (Z.to_nat _) with (S (Z.to_nat i)) by lia.
  simpl. rewrite decide_True by lia. unfold fget. by rewrite decide_False by lia.
Qed.

Lemma represents_unique t t' v : represents t v -> represents t' v -> t' = t.
Proof.
  destruct t as [d], t' as [d']. intros [Hl Hd] [Hl' Hd']. f_equal. simpl in *.
  apply list_eq. intros i. destruct (decide (Z.of_nat i < zlen v)) as [Hi|Hi].
  - specialize (Hd (Z.of_nat i) ltac:(lia)). specialize (Hd' (Z.of_nat i) ltac:(lia)).
    rewrite Nat2Z.id in Hd, Hd'. congruence.
  - rewrite !lookup_ge_None_2 by lia. done.
Qed.

(** ** Building from a vector *)

Lemma NewFenwickTree_spec `{GoRuntime} n :
  0 <= n <= max_alloc -> NewFenwickTree n = Ret (mkFenwick (replicate (Z.to_nat n) 0)).
Proof.
  intros Hn. unfold NewFenwickTree.
  destruct (ExtendSlice_nil 0 n Hn) as (s & -> & Hs). simpl. by rewrite Hs.
Qed.

(** What is still to be distributed after [i] rounds of the constructor, for the
    nodes [d] and the remaining elements [xs]: nothing below [i], and from [i] on
    the node's content plus the element not read yet (modulo 2^64). *)
Definition residue (d : list Z) (i : Z) (xs w : list Z) : Prop :=
  length w = length d
  /\ (forall k, 0 <= k < i -> w !! Z.to_nat k = Some 0)
  /\ forall k, i <= k < zlen d ->
       exists a b c, d !! Z.to_nat k = Some a /\ xs !! Z.to_nat (k - i) = Some b
         /\ w !! Z.to_nat k = Some c /\ i64 c = i64 (a + b).

Lemma residue_low d i xs w n :
  residue d i xs w -> n <= i <= zlen d -> psum w n = 0.
Proof.
  intros (Hw & Hres & _) Hn. unfold psum.
  assert (forall z, z ∈ ztake n w -> z = 0) as Hz.
  { intros z (k & Hk)%list_elem_of_lookup. apply lookup_take_Some in Hk as [Hk Hlt].
    specialize (Hres (Z.of_nat k) ltac:(lia)). rewrite Nat2Z.id in Hres. congruence. }
  induction (ztake n w) as [|z l IH]; [done|]. simpl.
  rewrite (Hz z), IH; [lia|intros; apply Hz; by right|by left].
Qed.

(** Clearing the residue at [i] and moving it to the node [k]. *)
Lemma residue_move d i x xs w a :
  0 <= i -> residue d i (x :: xs) w -> d !! Z.to_nat i = Some a ->
  residue (<[Z.to_nat i := i64 (a + x)]> d) (i + 1) xs (<[Z.to_nat i := 0]> w).
Proof.
  intros Hi (Hw & Hlow & Hres) Ha. pose proof (lookup_lt_Some _ _ _ Ha).
  split_and!; rewrite ?length_insert; [done| |].
  - intros k Hk. destruct (decide (k = i)) as [->|].
    + rewrite list_lookup_insert_eq by lia. done.
    + rewrite list_lookup_insert_ne by lia. apply Hlow. lia.
  - intros k Hk. destruct (Hres k) as (a' & b & c & ? & Hb & ? & ?); [lia|].
    exists a', b, c. rewrite !list_lookup_insert_ne by lia. split_and!; [done| |done..].
    by replace (Z.to_nat (k - i)) with (S (Z.to_nat (k - (i + 1)))) in Hb by lia.
Qed.

Lemma residue_add d i xs w k a c y z :
  0 <= i -> residue d i xs w -> i <= k -> d !! Z.to_nat k = Some a ->
  w !! Z.to_nat k = Some c -> i64 y = i64 z ->
  residue (<[Z.to_nat k := i64 (a + y)]> d) i xs (<[Z.to_nat k := c + z]> w).
Proof.
  intros Hi (Hw & Hlow & Hres) Hk Ha Hc Hyz. pose proof (lookup_lt_Some _ _ _ Ha).
  split_and!; rewrite ?length_insert; [done| |].
  - intros j Hj. rewrite list_lookup_insert_ne by lia. apply Hlow. lia.
  - intros j Hj. destruct (Hres j) as (a' & b & c' & Ha' & ? & Hc' & E); [lia|].
    destruct (decide (j = k)) as [->|].
    + rewrite !list_lookup_insert_eq by lia. simplify_eq.
      eexists _, b, _. split_and!; [done..|].
      rewrite <-i64_add_r, <-Hyz, i64_add_r, <-i64_add_l, E. i64_eq.
    + exists a', b, c'. by rewrite !list_lookup_insert_ne by lia.
Qed.

(** One round moves the residue at [i] to the node [up i]. *)
Lemma From_round d i x xs w :
  0 <= i -> i + 1 + zlen xs = zlen d -> residue d i (x :: xs) w ->
  exists y d0 d1 w1,
    w !! Z.to_nat i = Some y /\ fadd d i x = Ret d0 /\ length d0 = length d
    /\ (if decide (up i < zlen d) then z ← fget d0 i; fadd d0 (up i) z else Ret d0) = Ret d1
    /\ length d1 = length d /\ d1 !! Z.to_nat i = Some (i64 y)
    /\ (forall j, 0 <= j < i -> d1 !! Z.to_nat j = d !! Z.to_nat j)
    /\ residue d1 (i + 1) xs w1
    /\ (forall n, n <= zlen d -> psum w1 n = psum w n - (if decide (i < n) then y else 0)
                              + (if decide (up i < n) then y else 0)).
Proof.
  intros Hi Hlen Hr. pose proof (up_gt i Hi) as Hup.
  destruct Hr as (Hw & Hlow & Hres) eqn:E. clear E.
  destruct (Hres i) as (a & b & y & Ha & Hb & Hy & Hay); [lia|].
  rewrite Z.sub_diag in Hb. simpl in Hb. simplify_eq.
  pose proof (residue_move d i b xs w a Hi Hr Ha) as Hm.
  rewrite (fadd_Some _ _ _ _ Hi Ha). exists y. eexists.
  assert (<[Z.to_nat i := i64 (a + b)]> d !! Z.to_nat i = Some (i64 (a + b))) as Hd0
    by (apply list_lookup_insert_eq; lia).
  destruct (decide (up i < zlen d)) as [Hin|Hout].
  - destruct (Hres (up i)) as (a' & b' & c & Ha' & _ & Hc & _); [lia|].
    rewrite <-(list_lookup_insert_ne d (Z.to_nat i) _ (i64 (a + b))) in Ha' by lia.
    rewrite <-(list_lookup_insert_ne w (Z.to_nat i) _ 0) in Hc by lia.
    eexists _, (<[Z.to_nat (up i) := c + y]> (<[Z.to_nat i := 0]> w)).
    split_and!; [done|done|by rewrite length_insert| | | | | |].
    + rewrite (fget_Some _ _ _ Hi Hd0). res_step. by rewrite (fadd_Some _ _ a') by (done || lia).
    + by rewrite !length_insert.
    + rewrite list_lookup_insert_ne, Hay by lia. done.
    + intros j Hj. by rewrite !list_lookup_insert_ne by lia.
    + apply (residue_add _ _ _ _ _ _ c _ y); [lia|done|lia|done..|].
      rewrite Hay. apply i64_small, i64_is_int.
    + intros n Hn. rewrite (psum_insert _ _ c), (psum_insert w _ y) by done.
      repeat case_decide; lia.
  - eexists _, (<[Z.to_nat i := 0]> w).
    split_and!; [done|done|by rewrite length_insert|done|by rewrite length_insert| | |done|].
    + by rewrite Hd0, Hay.
    + intros j Hj. by rewrite list_lookup_insert_ne by lia.
    + intros n Hn. rewrite (psum_insert w _ y) by done. repeat case_decide; lia.
Qed.

Lemma From_loop_spec xs d i w :
  0 <= i -> i + zlen xs = zlen d -> residue d i xs w ->
  exists d', From_loop d i xs (zlen d) = Ret d' /\ length d' = length d
    /\ forall j, 0 <= j < zlen d ->
         d' !! Z.to_nat j = if decide (j < i) then d !! Z.to_nat j
                            else Some (i64 (psum w (j + 1) - psum w (down j))).
Proof.
  revert d i w. induction xs as [|x xs IH]; intros d i w Hi Hlen Hr.
  { exists d. split_and!; [done..|]. intros j Hj. simpl in Hlen.
    by rewrite decide_True by lia. }
  simpl in Hlen.
  destruct (From_round d i x xs w Hi)
    as (y & d0 & d1 & w1 & Hwi & E0 & Hl0 & E1 & Hl1 & Hd1 & Hlow & Hr1 & Hp); [lia|done|].
  destruct (IH d1 (i + 1) w1) as (d' & E' & Hl' & Hd'); [lia|rewrite Hl1; lia|done|].
  exists d'. split; [|split; [lia|]].
  - cbn [From_loop]. rewrite E0. res_step. rewrite E1. res_step. by rewrite <-Hl1.
  - intros j Hj. rewrite Hl1 in Hd'. rewrite Hd' by lia.
    pose proof (down_bounds j ltac:(lia)).
    destruct (decide (j < i)); [rewrite decide_True by lia; apply Hlow; lia|].
    destruct (decide (j = i)) as [->|Hne].
    + rewrite decide_True, Hd1 by lia. do 2 f_equal. rewrite (psum_succ w i y) by done.
      rewrite !(residue_low d i (x :: xs) w) by (done || lia). lia.
    + rewrite decide_False by lia. do 2 f_equal. rewrite !Hp by lia.
      pose proof (covers_up j i ltac:(lia) Hi). repeat case_decide; lia.
Qed.

Lemma NewFenwickTreeFrom_spec `{GoRuntime} xs :
  zlen xs <= max_alloc -> exists t, NewFenwickTreeFrom xs = Ret t /\ represents t xs.
Proof.
  intros Hx. unfold NewFenwickTreeFrom. rewrite NewFenwickTree_spec by lia. res_step.
  cbn [fdata]. rewrite Nat2Z.id.
  destruct (From_loop_spec xs (replicate (length xs) 0) 0 xs) as (d & E & Hl & Hd).
  - lia.
  - llia.
  - split_and!; [by rewrite length_replicate|lia|]. rewrite length_replicate. intros k Hk.
    destruct (in_range_Some xs k Hk) as [b Hb]. exists 0, b, b.
    rewrite lookup_replicate_2 by lia. by rewrite Z.sub_0_r.
  - rewrite length_replicate in E, Hl, Hd. rewrite E. eexists. split; [done|].
    split; [done|]. simpl. intros i Hi. rewrite Hd, decide_False by lia. done.
Qed.

(** * Properties *)

(** C32: on a tree that holds the sums of a vector, every operation is the one on the
    vector, with all sums taken modulo 2^64 as Go's [int] does: [Add] adds at one
    position, is ignored past the end and panics before the start; [SumUntil],
    [SumFrom], [SumRange], [Sum] and [At] are sums of segments; [Clear] zeroes a position and
    returns what it held; [Reset] zeroes all of them.  Every loop terminates. *)
Theorem fenwick_refines (t : FenwickTree) (v : list Z) :
  represents t v ->
  (forall k delta x, 0 <= k -> v !! Z.to_nat k = Some x ->
     exists t', Add t k delta = Ret t' /\ represents t' (<[Z.to_nat k := x + delta]> v))
  /\ (forall k delta, zlen v <= k -> Add t k delta = Ret t)
  /\ (forall k delta, k < 0 -> Add t k delta = Panic)
  /\ (forall i, -1 <= i < zlen v -> SumUntil t i = Ret (i64 (psum v (i + 1))))
  /\ (forall i, zlen v <= i -> SumUntil t i = Panic)
  /\ (forall i, 0 <= i <= zlen v -> SumFrom t i = Ret (i64 (psum v (zlen v) - psum v i)))
  /\ (forall l r, 0 <= l -> l - 1 <= r < zlen v ->
        SumRange t l r = Ret (i64 (psum v (r + 1) - psum v l)))
  /\ Sum t = Ret (i64 (psum v (zlen v)))
  /\ (forall k x, 0 <= k -> v !! Z.to_nat k = Some x ->
        At t k = Ret (i64 x)
        /\ exists t', Clear t k = Ret (t', i64 x) /\ represents t' (<[Z.to_nat k := 0]> v))
  /\ represents (Reset t) (replicate (length v) 0)
  /\ Size t = zlen v.
Proof.
  intros Ht. destruct Ht as [Hlen Hrep] eqn:E. clear E. split_and!.
  - intros k delta x. by apply Add_spec.
  - intros k delta Hk. apply Add_past. lia.
  - intros k delta Hk. by apply Add_before.
  - intros i. by apply SumUntil_spec.
  - intros i Hi. apply SumUntil_past. lia.
  - intros i. by apply SumFrom_spec.
  - intros l r. by apply SumRange_spec.
  - by apply Sum_spec.
  - intros k x Hk Hx. split; [by apply (At_spec t v)|by apply Clear_spec].
  - unfold Reset. rewrite Hlen. apply represents_zeros.
  - unfold Size. by rewrite Hlen.
Qed.

(** The tree of [3; -1; 4; 1; 5] after [Add(2, 10)]. *)
Lemma fenwick_refines_witness :
  exists t, NewFenwickTreeFrom (H:=doubling_runtime) [3; -1; 4; 1; 5] = Ret t
    /\ exists t', Add t 2 10 = Ret t' /\ represents t' [3; -1; 14; 1; 5].
Proof.
  destruct (NewFenwickTreeFrom_spec (H:=doubling_runtime) [3; -1; 4; 1; 5]) as (t & Hf & Ht).
  { vm_compute. discriminate. }
  exists t. split; [exact Hf|].
  destruct (fenwick_refines t _ Ht) as [Hadd _].
  exact (Hadd 2 10 4 ltac:(lia) eq_refl).
Defined.

(** The linear-time constructor builds the tree of its argument: the same tree
    contents every position, and hence every prefix sum, as adding the elements one by
    one. *)
Theorem fenwick_from (rt : GoRuntime) (xs : list Z) :
  zlen xs <= max_alloc ->
  exists t, NewFenwickTreeFrom xs = Ret t /\ represents t xs
    /\ forall t', represents t' xs -> t' = t.
Proof.
  intros Hx. destruct (NewFenwickTreeFrom_spec xs Hx) as (t & E & Ht).
  exists t. split_and!; [done..|]. intros t' Ht'. by eapply represents_unique.
Qed.

Lemma fenwick_from_witness :
  exists t, NewFenwickTreeFrom (H:=doubling_runtime) [7; -2; 9] = Ret t
    /\ represents t [7; -2; 9] /\ forall t', represents t' [7; -2; 9] -> t' = t.
Proof. apply (fenwick_from doubling_runtime [7; -2; 9]). vm_compute. discriminate. Defined.
