(* ===== verification/Slots.v ===== *)
(** Slots of the save area, their order and their offsets: [src/slot.go],
    [src/slot_offsetter.go], [src/sequenced_slots.go] and [src/slot_sequencer.go].

    [sequencedSlots] keeps slots sorted by sequence number in a slice and finds them by
    binary search; it is shown to be a finite map with bounded size.  [SlotOffsetter]
    accounts in a Fenwick tree for the bytes discarded before a slot. *)

From stdpp Require Import gmap sorting.
From S2P Require Import Prelude GoSlice ByteBuffer FenwickTree.

(** * src/slot.go *)

Definition OffsetSlot (offset : Z) (slot : Slot) : Slot :=
  let offset := if decide (offset < 0) then 0 else offset in
  let offset := if decide (offset > Index slot) then Index slot else offset in
  mkSlot (Index slot - offset) (Length slot).

(** * src/slot_offsetter.go *)

Record SlotOffsetter : Type := mkSlotOffsetter { tree : FenwickTree }.

Definition NewSlotOffsetter `{GoRuntime} (maxBytes : Z) : res SlotOffsetter :=
  t ← NewFenwickTree maxBytes; Ret (mkSlotOffsetter t).

Definition SlotOffsetter_Offset (s : SlotOffsetter) (slot : Slot) :
    res (SlotOffsetter * Slot) :=
  offset ← SumUntil (tree s) (Index slot);
  t ← FenwickTree.Add (tree s) (Index slot) (Length slot);
  Ret (mkSlotOffsetter t, OffsetSlot offset slot).

Definition SlotOffsetter_Add (s : SlotOffsetter) (slot : Slot) :
    res (Slot * option error) :=
  sum ← Sum (tree s);
  let slot := mkSlot (i64 (Index slot + sum)) (Length slot) in
  Ret (if decide (Size (tree s) <= Index slot)
       then (mkSlot 0 0, Some ErrNoSpaceLeftForSlot)
       else (slot, None)).

Definition SlotOffsetter_Reset (s : SlotOffsetter) : SlotOffsetter :=
  mkSlotOffsetter (FenwickTree.Reset (tree s)).

(** * [sort.Search] *)

(** [for i < j { h := int(uint(i+j) >> 1); if !f(h) { i = h + 1 } else { j = h } }]. *)
Fixpoint Search_loop (fuel : nat) (f : Z -> res bool) (i j : Z) : res Z :=
  if decide (i < j) then
    match fuel with
    | O => NoFuel
    | S fuel' =>
        let h := Z.shiftr (i + j) 1 in
        b ← f h;
        if (b : bool) then Search_loop fuel' f i h else Search_loop fuel' f (h + 1) j
    end
  else Ret i.

(** Every round shrinks [j - i]: [n] rounds are enough. *)
Definition Search (n : Z) (f : Z -> res bool) : res Z := Search_loop (Z.to_nat n) f 0 n.

(** * src/sequenced_slots.go *)

Record sequencedSlot : Type := mkSeqSlot { slot_of : Slot; seq_of : Z }.

Record sequencedSlots : Type := mkSequencedSlots {
  maxSlots : Z;
  slots : slice sequencedSlot
}.

Definition zero_slot : sequencedSlot := mkSeqSlot (mkSlot 0 0) 0.

Section sequenced_slots.
Context `{GoRuntime}.
Implicit Types (s : sequencedSlots) (slot : Slot).

Definition newSequencedSlots (maxSlots : Z) : res sequencedSlots :=
  sl ← ExtendSlice zero_slot nil_slice maxSlots;
  sl ← reslice sl 0 0;
  Ret (mkSequencedSlots maxSlots sl).

Definition sequencedSlots_checkSize s (slot : Slot) : option error :=
  if decide (maxSlots s <= slen (slots s)) then Some ErrNoSpaceLeftForSlot else None.

(** [sort.Search(len(s.slots), func(i int) bool { return s.slots[i].seq >= seq })]. *)
Definition sequencedSlots_find s (seq : Z) : res Z :=
  Search (slen (slots s))
    (fun i => x ← index (slots s) i; Ret (bool_decide (seq <= seq_of x))).

Definition sequencedSlots_Push s (seq : Z) slot :
    res (sequencedSlots * (bool * option error)) :=
  ix ← sequencedSlots_find s seq;
  let newSlot := mkSeqSlot slot seq in
  if decide (slen (slots s) <= ix) then
    match sequencedSlots_checkSize s slot with
    | Some err => Ret (s, (false, Some err))
    | None =>
        Ret (mkSequencedSlots (maxSlots s) (append zero_slot (slots s) [newSlot]),
             (true, None))
    end
  else
    x ← index (slots s) ix;
    if decide (seq_of x <> seq) then
      match sequencedSlots_checkSize s slot with
      | Some err => Ret (s, (false, Some err))
      | None =>
          front ← reslice (slots s) 0 (ix + 1);
          back ← reslice (slots s) ix (slen (slots s));
          sl ← update (append zero_slot front (elems back)) ix newSlot;
          Ret (mkSequencedSlots (maxSlots s) sl, (true, None))
      end
    else Ret (s, (false, None)).

Definition sequencedSlots_Pop s (seq : Z) : res (sequencedSlots * (Slot * bool)) :=
  ix ← sequencedSlots_find s seq;
  if decide (ix < slen (slots s)) then
    x ← index (slots s) ix;
    if decide (seq_of x = seq) then
      front ← reslice (slots s) 0 ix;
      back ← reslice (slots s) (ix + 1) (slen (slots s));
      Ret (mkSequencedSlots (maxSlots s) (append zero_slot front (elems back)),
           (slot_of x, true))
    else Ret (s, (mkSlot 0 0, false))
  else Ret (s, (mkSlot 0 0, false)).

(** [for i := 0; i < toPop; i++ { ... }], with [k] rounds left. *)
Fixpoint PopRange_loop (k : nat) s (ix i lastSeq : Z) (popped : slice Slot) :
    res (slice Slot) :=
  match k with
  | O => Ret popped
  | S k' =>
      x ← index (slots s) (ix + i);
      if decide (lastSeq = -1 \/ i64 (seq_of x - lastSeq) = 1)
      then PopRange_loop k' s ix (i + 1) (seq_of x)
             (append (mkSlot 0 0) popped [slot_of x])
      else Ret popped
  end.

Definition sequencedSlots_PopRange s (seq n : Z) :
    res (sequencedSlots * list Slot) :=
  let n := if decide (n > slen (slots s)) then slen (slots s) else n in
  if decide (n = 0) then Ret (s, [])
  else
    ix ← sequencedSlots_find s seq;
    if decide (ix < slen (slots s)) then
      x ← index (slots s) ix;
      let toPop := i64 (n - i64 (seq_of x - seq)) in
      popped ← ExtendSlice (mkSlot 0 0) nil_slice toPop;
      popped ← reslice popped 0 0;
      popped ← PopRange_loop (Z.to_nat toPop) s ix 0 (-1) popped;
      front ← reslice (slots s) 0 ix;
      back ← reslice (slots s) (ix + toPop) (slen (slots s));
      Ret (mkSequencedSlots (maxSlots s) (append zero_slot front (elems back)),
           elems popped)
    else Ret (s, []).

Definition sequencedSlots_Size s : Z := slen (slots s).

Definition sequencedSlots_Reset s : res sequencedSlots :=
  sl ← reslice (slots s) 0 0; Ret (mkSequencedSlots (maxSlots s) sl).
End sequenced_slots.

(** * Binary search *)

Lemma Search_loop_spec (p : Z -> bool) (f : Z -> res bool) n fuel i j :
  (forall k, 0 <= k < n -> f k = Ret (p k)) ->
  (forall a b, 0 <= a <= b -> b < n -> p a = true -> p b = true) ->
  0 <= i <= j -> j <= n -> j - i <= Z.of_nat fuel ->
  (forall k, 0 <= k < i -> p k = false) -> (forall k, j <= k < n -> p k = true) ->
  exists r, Search_loop fuel f i j = Ret r /\ 0 <= r <= n
    /\ (forall k, 0 <= k < r -> p k = false) /\ (forall k, r <= k < n -> p k = true).
Proof.
  intros Hf Hm. revert i j. induction fuel as [|fuel IH]; intros i j Hij Hj Hfu Hlo Hhi; simpl.
  - rewrite decide_False by lia. exists i. split_and!; [done|lia|lia|done|].
    intros k Hk. apply Hhi. lia.
  - case_decide as Hlt.
    2: { exists i. split_and!; [done|lia|lia|done|]. intros k Hk. apply Hhi. lia. }
    rewrite Z.shiftr_div_pow2 by lia. change (2 ^ 1) with 2.
    set (h := (i + j) / 2). assert (i <= h < j) by (subst h; Z.div_mod_to_equations; lia).
    rewrite Hf by lia. res_step. destruct (p h) eqn:Eh.
    + apply IH; [lia|lia|lia|done|]. intros k Hk. apply (Hm h); [lia|lia|done].
    + apply IH; [lia|lia|lia| |done]. intros k Hk. destruct (p k) eqn:Ek; [|done].
      rewrite <-Eh. symmetry. apply (Hm k); [lia|lia|done].
Qed.

(** * The sorted slice as a finite map *)

Definition seqs (l : list sequencedSlot) : list Z := seq_of <$> l.

(** Sequence numbers strictly increase, and the bound on the size holds. *)
Definition sorted_slots (s : sequencedSlots) : Prop :=
  slice_wf (slots s) /\ StronglySorted Z.lt (seqs (elems (slots s)))
  /\ slen (slots s) <= maxSlots s.

Definition smap (l : list sequencedSlot) : gmap Z Slot :=
  list_to_map ((fun x => (seq_of x, slot_of x)) <$> l).
Definition slot_map (s : sequencedSlots) : gmap Z Slot := smap (elems (slots s)).

Lemma smap_keys (l : list sequencedSlot) :
  ((fun x => (seq_of x, slot_of x)) <$> l).*1 = seqs l.
Proof. induction l; simpl; [done|]. by f_equal. Qed.

Lemma smap_None l k : smap l !! k = None <-> k ∉ seqs l.
Proof. unfold smap. by rewrite <-not_elem_of_list_to_map, smap_keys. Qed.

Lemma smap_insert L R x :
  seq_of x ∉ seqs L -> smap (L ++ x :: R) = <[seq_of x := slot_of x]> (smap (L ++ R)).
Proof.
  intros Hx%smap_None. unfold smap in *. rewrite !fmap_app, !list_to_map_app. simpl.
  by rewrite insert_union_r.
Qed.

Lemma sorted_NoDup (l : list Z) : StronglySorted Z.lt l -> NoDup l.
Proof.
  induction 1 as [|a l Hs IH Ha]; constructor; [|done].
  rewrite list.Forall_forall in Ha. intros Hin%Ha. lia.
Qed.

Lemma smap_size l : StronglySorted Z.lt (seqs l) -> Z.of_nat (size (smap l)) = zlen l.
Proof.
  intros Hs%sorted_NoDup. unfold smap. rewrite <-smap_keys in Hs.
  rewrite map_size_list_to_map by done. by rewrite length_fmap.
Qed.

(** Where a sequence number belongs in a sorted list. *)
Definition splits (l L R : list sequencedSlot) (seq : Z) : Prop :=
  l = L ++ R /\ (forall x, x ∈ seqs L -> x < seq) /\ (forall x, x ∈ seqs R -> seq <= x).

Lemma elem_of_seqs_lookup x (l : list sequencedSlot) :
  x ∈ seqs l <-> exists i y, l !! i = Some y /\ seq_of y = x.
Proof.
  unfold seqs. rewrite list_elem_of_fmap. split.
  - intros (y & -> & (i & Hi)%list_elem_of_lookup). eauto.
  - intros (i & y & Hi & <-). exists y. split; [done|]. apply list_elem_of_lookup. eauto.
Qed.

Lemma find_spec s seq :
  slice_wf (slots s) -> StronglySorted Z.lt (seqs (elems (slots s))) ->
  exists L R, sequencedSlots_find s seq = Ret (zlen L) /\ splits (elems (slots s)) L R seq.
Proof.
  intros Hwf Hs. set (l := elems (slots s)) in *.
  pose proof (zlen_elems _ Hwf) as Hl. fold l in Hl.
  set (p i := match l !! Z.to_nat i with Some x => bool_decide (seq <= seq_of x) | None => true end).
  destruct (Search_loop_spec p
    (fun i => x ← index (slots s) i; Ret (bool_decide (seq <= seq_of x))) (slen (slots s))
    (Z.to_nat (slen (slots s))) 0 (slen (slots s))) as (r & E & Hr & Hlo & Hhi); [| |lia..|].
  - intros k Hk. destruct (lookup_lt_is_Some_2 l (Z.to_nat k)) as [x Hx]; [lia|].
    subst p. cbn beta. rewrite (index_elems _ _ x), Hx by (done || lia). done.
  - intros a b Hab Hb. subst p. cbn beta.
    destruct (lookup_lt_is_Some_2 l (Z.to_nat a)) as [x Hx]; [lia|].
    destruct (lookup_lt_is_Some_2 l (Z.to_nat b)) as [y Hy]; [lia|].
    rewrite Hx, Hy, !bool_decide_eq_true. destruct (decide (a = b)) as [->|]; [congruence|].
    assert (seq_of x < seq_of y); [|lia].
    rewrite <-(take_drop (Z.to_nat b) l) in Hs. unfold seqs in Hs. rewrite fmap_app in Hs.
    eapply (StronglySorted_app_1_elem_of Z.lt); [done| |].
    + apply list_elem_of_fmap_2, list_elem_of_lookup. exists (Z.to_nat a).
      rewrite lookup_take_lt by lia. done.
    + apply list_elem_of_fmap_2, list_elem_of_lookup. exists 0%nat.
      by rewrite lookup_drop, Nat.add_0_r.
  - exists (ztake r l), (zdrop r l). split; [|split_and!].
    + transitivity (Ret r); [exact E|]. f_equal. llia.
    + by rewrite take_drop.
    + intros x (i & y & Hy & <-)%elem_of_seqs_lookup. apply lookup_take_Some in Hy as [Hy Hi].
      specialize (Hlo (Z.of_nat i) ltac:(lia)). subst p. cbn beta in Hlo.
      rewrite Nat2Z.id, Hy in Hlo. apply bool_decide_eq_false in Hlo. lia.
    + intros x (i & y & Hy & <-)%elem_of_seqs_lookup. rewrite lookup_drop in Hy.
      pose proof (lookup_lt_Some _ _ _ Hy).
      specialize (Hhi (r + Z.of_nat i) ltac:(lia)). subst p. cbn beta in Hhi.
      replace (Z.to_nat (r + Z.of_nat i)) with (Z.to_nat r + i)%nat in Hhi by lia.
      rewrite Hy in Hhi. by apply bool_decide_eq_true in Hhi.
Qed.

Lemma splits_unique l L R L' R' seq :
  splits l L R seq -> splits l L' R' seq -> L = L' /\ R = R'.
Proof.
  intros (-> & HL & HR) (E & HL' & HR').
  destruct (app_eq_inv _ _ _ _ E) as [(k & -> & ->)|(k & -> & ->)];
    destruct k as [|y k]; rewrite ?app_nil_r; try done.
  - assert (seq_of y < seq).
    { apply HL. unfold seqs. rewrite fmap_app. apply elem_of_app. right. by left. }
    assert (seq <= seq_of y) by (apply HR'; by left). lia.
  - assert (seq_of y < seq).
    { apply HL'. unfold seqs. rewrite fmap_app. apply elem_of_app. right. by left. }
    assert (seq <= seq_of y) by (apply HR; by left). lia.
Qed.

(** The three possible places: past the end, before a larger number, at the number. *)
Lemma splits_cases l L R seq :
  splits l L R seq ->
  StronglySorted Z.lt (seqs l) ->
  (R = [] /\ seq ∉ seqs l)
  \/ (exists x R', R = x :: R' /\ seq_of x <> seq /\ seq ∉ seqs l)
  \/ (exists x R', R = x :: R' /\ seq_of x = seq).
Proof.
  intros (-> & HL & HR) Hs. unfold seqs in *. rewrite fmap_app in *.
  destruct R as [|x R'].
  - left. split; [done|]. rewrite not_elem_of_app. split; [|apply not_elem_of_nil].
    intros Hx%HL. lia.
  - right. destruct (decide (seq_of x = seq)); [right; eauto|left].
    exists x, R'. split_and!; [done..|]. rewrite not_elem_of_app. split; [intros Hx%HL; lia|].
    simpl. rewrite not_elem_of_cons. split; [done|]. intros Hin.
    assert (seq <= seq_of x) by (apply HR; by left).
    apply StronglySorted_app_1_r in Hs. simpl in Hs. apply StronglySorted_cons in Hs as [Hs _].
    rewrite list.Forall_forall in Hs. specialize (Hs _ Hin). lia.
Qed.

Lemma sorted_insert L R x :
  StronglySorted Z.lt (seqs (L ++ R)) ->
  (forall y, y ∈ seqs L -> y < seq_of x) -> (forall y, y ∈ seqs R -> seq_of x < y) ->
  StronglySorted Z.lt (seqs (L ++ x :: R)).
Proof.
  unfold seqs. rewrite !fmap_app. simpl. rewrite !StronglySorted_app, StronglySorted_cons.
  intros (H1 & H2 & H3) HL HR. split_and!; [|done| |done].
  - intros a b Ha [->|Hb]%elem_of_cons; [by apply HL|by apply H1].
  - by apply list.Forall_forall.
Qed.

Lemma sorted_drop_middle L M R :
  StronglySorted Z.lt (seqs (L ++ M ++ R)) -> StronglySorted Z.lt (seqs (L ++ R)).
Proof.
  unfold seqs. rewrite !fmap_app, !StronglySorted_app. intros (H1 & H2 & _ & _ & H3).
  split_and!; [|done..]. intros a b Ha Hb. apply H1; [done|]. apply elem_of_app. by right.
Qed.

Lemma sorted_remove L R x :
  StronglySorted Z.lt (seqs (L ++ x :: R)) ->
  StronglySorted Z.lt (seqs (L ++ R)) /\ seq_of x ∉ seqs (L ++ R).
Proof.
  unfold seqs. rewrite !fmap_app. simpl. rewrite !StronglySorted_app, StronglySorted_cons.
  intros (H1 & H2 & H3 & H4). rewrite list.Forall_forall in H3. split_and!; [|done|done|].
  - intros a b Ha Hb. apply H1; [done|by right].
  - rewrite not_elem_of_app. split.
    + intros Hin. specialize (H1 _ (seq_of x) Hin ltac:(by left)). lia.
    + intros Hin. specialize (H3 _ Hin). lia.
Qed.

(** * Operations of the sorted slice on the map *)

Section slot_map_laws.
Context `{GoRuntime}.
Implicit Types (s : sequencedSlots).

Lemma slot_map_size s : sorted_slots s -> Z.of_nat (size (slot_map s)) = slen (slots s).
Proof.
  intros (Hwf & Hs & _). unfold slot_map. by rewrite smap_size, zlen_elems.
Qed.

(** A new element put where it belongs. *)
Lemma sorted_slots_insert s L R x sl :
  sorted_slots s -> slen (slots s) < maxSlots s -> splits (elems (slots s)) L R (seq_of x) ->
  seq_of x ∉ seqs (elems (slots s)) -> slice_wf sl -> elems sl = L ++ x :: R ->
  let s' := mkSequencedSlots (maxSlots s) sl in
  sorted_slots s' /\ slot_map s' = (<[seq_of x := slot_of x]> (slot_map s)).
Proof.
  intros (Hwf & Hs & Hsz) Hlt (Hl & HL & HR) Hnew Hwf' Hsl s'.
  pose proof (zlen_elems _ Hwf). pose proof (zlen_elems _ Hwf').
  unfold sorted_slots, slot_map. subst s'. cbn [slots maxSlots]. rewrite Hsl, Hl in *.
  assert ((seq_of x ∉ seqs L) /\ (seq_of x ∉ seqs R)) as [HnL HnR].
  { unfold seqs in *. rewrite fmap_app in Hnew. by apply not_elem_of_app in Hnew. }
  split; [split_and!|].
  - done.
  - apply sorted_insert; [done..|]. intros y Hy. specialize (HR y Hy).
    assert (y <> seq_of x) by congruence. lia.
  - llia.
  - by apply smap_insert.
Qed.

(** [append(s[:ix+1], s[ix:]...)] followed by [s[ix] = x] inserts [x] at [ix]. *)
Lemma insert_slots (s : slice sequencedSlot) L R x :
  slice_wf s -> elems s = L ++ R -> R <> [] ->
  exists f b sl,
    reslice s 0 (zlen L + 1) = Ret f /\ reslice s (zlen L) (slen s) = Ret b
    /\ update (append zero_slot f (elems b)) (zlen L) x = Ret sl
    /\ slice_wf sl /\ elems sl = L ++ x :: R.
Proof.
  intros Hwf Hl HR. pose proof (zlen_elems _ Hwf) as Hlen. rewrite Hl in Hlen.
  assert (0 < zlen R) by (destruct R; simpl; [done|lia]).
  destruct (reslice_elems s 0 (zlen L + 1)) as (f & -> & Hf & Hfl & Hfe); [done|lia|llia|].
  destruct (reslice_elems s (zlen L) (slen s)) as (b & -> & Hb & Hbl & Hbe); [done|llia|llia|].
  pose proof (append_wf zero_slot f (elems b) Hf) as Hwa.
  pose proof (append_elems zero_slot f (elems b) Hf) as Hea.
  pose proof (zlen_elems _ Hwa) as Hla. rewrite Hea in Hla.
  set (ap := append zero_slot f (elems b)) in *. rewrite Hl in Hfe, Hbe. rewrite Z.sub_0_r in Hfe.
  destruct R as [|y R']; [done|].
  assert (elems f = L ++ [y]) as Hfe'.
  { rewrite Hfe. zsimpl. do 2 f_equal. by replace (Z.to_nat _) with 1%nat by lia. }
  assert (elems b = y :: R') as Hbe'.
  { rewrite Hbe. zsimpl. done. }
  rewrite Hfe', Hbe' in Hla, Hea.
  destruct (update_elems ap (zlen L) x) as (sl & Eu & Hwsl & Hsl);
    [done|llia|].
  exists f, b, sl. split_and!; [done..|]. rewrite Hsl, Hea, <-app_assoc, Nat2Z.id.
  by rewrite insert_app_r_alt, Nat.sub_diag by lia.
Qed.

(** [append(s[:ix], s[ix+1:]...)] removes the element at [ix]. *)
Lemma remove_slots (s : slice sequencedSlot) L x R :
  slice_wf s -> elems s = L ++ x :: R ->
  exists f b,
    reslice s 0 (zlen L) = Ret f /\ reslice s (zlen L + 1) (slen s) = Ret b
    /\ slice_wf (append zero_slot f (elems b))
    /\ elems (append zero_slot f (elems b)) = L ++ R.
Proof.
  intros Hwf Hl. pose proof (zlen_elems _ Hwf) as Hlen. rewrite Hl in Hlen.
  destruct (reslice_elems s 0 (zlen L)) as (f & -> & Hf & Hfl & Hfe); [done|llia|llia|].
  destruct (reslice_elems s (zlen L + 1) (slen s)) as (b & -> & Hb & Hbl & Hbe); [done|llia|llia|].
  exists f, b. split_and!; [done|done|by apply append_wf|].
  rewrite append_elems, Hfe, Hbe, Hl by done. rewrite Z.sub_0_r. zsimpl.
  replace (Z.to_nat (zlen L + 1 - zlen L)) with 1%nat by lia. done.
Qed.

Lemma Push_spec s seq slot :
  sorted_slots s ->
  match slot_map s !! seq with
  | Some _ => sequencedSlots_Push s seq slot = Ret (s, (false, None))
  | None =>
      if decide (maxSlots s <= Z.of_nat (size (slot_map s)))
      then sequencedSlots_Push s seq slot = Ret (s, (false, Some ErrNoSpaceLeftForSlot))
      else (exists s', sequencedSlots_Push s seq slot = Ret (s', (true, None))
              /\ sorted_slots s' /\ slot_map s' = <[seq := slot]> (slot_map s)
              /\ maxSlots s' = maxSlots s)
  end.
Proof.
  intros Hok. rewrite slot_map_size by done. destruct Hok as (Hwf & Hs & Hsz) eqn:E. clear E.
  destruct (find_spec s seq Hwf Hs) as (L & R & E & Hsp).
  pose proof (zlen_elems _ Hwf) as Hlen.
  unfold sequencedSlots_Push, sequencedSlots_checkSize. rewrite E. res_step.
  destruct (splits_cases _ _ _ _ Hsp Hs) as [(-> & Hn)|[(x & R' & -> & Hx & Hn)|(x & R' & -> & Hx)]];
    pose proof (proj1 Hsp) as Hl; rewrite Hl in Hlen.
  - apply smap_None in Hn as Hn'. unfold slot_map. rewrite Hn'.
    rewrite (decide_True (P := slen _ <= _)) by llia. case_decide; [done|].
    eexists. split; [done|].
    destruct (sorted_slots_insert s L [] (mkSeqSlot slot seq)
      (append zero_slot (slots s) [mkSeqSlot slot seq])) as [? ?];
      [done|lia|done|done|by apply append_wf| |done].
    by rewrite append_elems, Hl, app_nil_r by done.
  - apply smap_None in Hn as Hn'. unfold slot_map. rewrite Hn'.
    rewrite (decide_False (P := slen _ <= _)) by llia.
    rewrite (index_elems _ _ x); [|done| |lia].
    2: { rewrite Hl, Nat2Z.id. by apply list_lookup_middle. }
    res_step. rewrite (decide_True (P := seq_of x <> seq)) by done. case_decide; [done|].
    destruct (insert_slots (slots s) L (x :: R') (mkSeqSlot slot seq)) as (f & b & sl & E1 & E2 & E3 & Hwf' & Hsl);
      [done|done|done|].
    rewrite E1. res_step. rewrite E2. res_step. rewrite E3. res_step.
    eexists. split; [done|].
    destruct (sorted_slots_insert s L (x :: R') (mkSeqSlot slot seq) sl) as [? ?];
      [done|lia|done..].
  - destruct (slot_map s !! seq) eqn:Em.
    2: { apply smap_None in Em. destruct Em. rewrite Hl. unfold seqs.
         apply list_elem_of_fmap. exists x. split; [done|]. apply elem_of_app. right. by left. }
    rewrite (decide_False (P := slen _ <= _)) by llia.
    rewrite (index_elems _ _ x); [|done| |lia].
    2: { rewrite Hl, Nat2Z.id. by apply list_lookup_middle. }
    res_step. by rewrite decide_False by auto.
Qed.

Lemma Pop_spec s seq :
  sorted_slots s ->
  match slot_map s !! seq with
  | None => sequencedSlots_Pop s seq = Ret (s, (mkSlot 0 0, false))
  | Some slot =>
      exists s', sequencedSlots_Pop s seq = Ret (s', (slot, true))
        /\ sorted_slots s' /\ slot_map s' = delete seq (slot_map s)
        /\ maxSlots s' = maxSlots s
  end.
Proof.
  intros (Hwf & Hs & Hsz).
  destruct (find_spec s seq Hwf Hs) as (L & R & E & Hsp).
  pose proof (zlen_elems _ Hwf) as Hlen.
  unfold sequencedSlots_Pop. rewrite E. res_step.
  destruct (splits_cases _ _ _ _ Hsp Hs) as [(-> & Hn)|[(x & R' & -> & Hx & Hn)|(x & R' & -> & Hx)]];
    pose proof (proj1 Hsp) as Hl; rewrite Hl in Hlen.
  - apply smap_None in Hn as Hn'. unfold slot_map. rewrite Hn'.
    by rewrite decide_False by llia.
  - apply smap_None in Hn as Hn'. unfold slot_map. rewrite Hn'.
    rewrite decide_True by llia. rewrite (index_elems _ _ x); [|done| |lia].
    2: { rewrite Hl, Nat2Z.id. by apply list_lookup_middle. }
    res_step. by rewrite decide_False by done.
  - unfold slot_map at 1. rewrite Hl in Hs. apply sorted_remove in Hs as [Hs' Hn].
    assert (seq_of x ∉ seqs L) as HnL.
    { unfold seqs in Hn. rewrite fmap_app in Hn. by apply not_elem_of_app in Hn as [? _]. }
    rewrite Hl, (smap_insert L R' x HnL), <-Hx, lookup_insert_eq.
    rewrite decide_True by llia. rewrite (index_elems _ _ x); [|done| |lia].
    2: { rewrite Hl, Nat2Z.id. by apply list_lookup_middle. }
    res_step. rewrite decide_True by done.
    destruct (remove_slots (slots s) L x R') as (f & b & E1 & E2 & Hwf' & Hsl); [done..|].
    rewrite E1. res_step. rewrite E2. res_step. eexists. split; [done|].
    unfold sorted_slots, slot_map. cbn [slots maxSlots]. rewrite Hsl, Hl, (smap_insert L R' x HnL).
    rewrite delete_insert_id by by apply smap_None. split_and!; [done..| |done|done].
    pose proof (zlen_elems _ Hwf') as Hz. rewrite Hsl in Hz. llia.
Qed.

(** ** Ranges *)

(** The slots of [C] carry the sequence numbers [q], [q + 1], ... *)
Fixpoint run_from (q : Z) (C : list sequencedSlot) : Prop :=
  match C with
  | [] => True
  | x :: C' => seq_of x = q /\ run_from (q + 1) C'
  end.

(** [D] does not go on with the number [q]. *)
Definition gap_at (q : Z) (D : list sequencedSlot) : Prop :=
  match D with [] => True | x :: _ => seq_of x <> q end.

Definition plain_seqs (l : list sequencedSlot) : Prop :=
  forall x, x ∈ l -> 0 <= seq_of x < 2 ^ 63.

Lemma PopRange_loop_spec C D s P R k ix i last q popped :
  slice_wf (slots s) -> elems (slots s) = P ++ C ++ D ++ R -> plain_seqs (C ++ D) ->
  zlen P = ix + i -> 0 <= ix + i -> k = (length C + length D)%nat ->
  run_from q C -> gap_at (q + zlen C) D -> last = -1 /\ C <> [] \/ 0 <= last < 2 ^ 63 /\ q = last + 1 ->
  slice_wf popped ->
  exists p, PopRange_loop k s ix i last popped = Ret p /\ slice_wf p
    /\ elems p = elems popped ++ (slot_of <$> C).
Proof.
  intros Hwf. revert P k i last q popped.
  induction C as [|x C IH]; intros P k i last q popped Hl Hpl HP Hi -> Hrun Hgap Hlast Hpop.
  - destruct D as [|y D]; [eexists; by rewrite app_nil_r|]. simpl.
    destruct Hlast as [[_ ?]|[Hlast ->]]; [done|].
    rewrite (index_elems _ _ y); [|done| |lia].
    2: { rewrite Hl, <-HP, Nat2Z.id. by apply list_lookup_middle. }
    res_step. simpl in Hgap. pose proof (Hpl y ltac:(by left)) as Hy.
    rewrite decide_False; [by eexists; rewrite app_nil_r|].
    intros [?|Hd]; [lia|]. unfold i64 in Hd. revert Hd. rewrite Z.mod_small; lia.
  - destruct Hrun as [Hx Hrun]. simpl.
    rewrite (index_elems _ _ x); [|done| |lia].
    2: { rewrite Hl, <-HP, Nat2Z.id. by apply list_lookup_middle. }
    res_step. pose proof (Hpl x ltac:(by left)) as Hx'.
    rewrite decide_True.
    2: { destruct Hlast as [[? _]|[? ?]]; [by left|right]. rewrite Hx.
         replace (q - last) with 1 by lia. done. }
    destruct (IH (P ++ [x]) (length C + length D)%nat (i + 1) (seq_of x) (q + 1)
      (append (mkSlot 0 0) popped [slot_of x])) as (p & E & Hp & Hpe).
    + by rewrite Hl, <-app_assoc.
    + intros z Hz. apply Hpl. by right.
    + llia.
    + lia.
    + done.
    + done.
    + replace (q + 1 + zlen C) with (q + zlen (x :: C)) by (simpl; lia). done.
    + right. lia.
    + by apply append_wf.
    + exists p. split_and!; [done..|]. rewrite Hpe, append_elems, <-app_assoc by done. done.
Qed.

(** What [PopRange] does when its count stays within the slots it starts at: it takes the
    run [C] off, and drops with it the [D] that follow a gap. *)
Lemma PopRange_spec s seq n L C D R :
  sorted_slots s -> splits (elems (slots s)) L (C ++ D ++ R) seq ->
  plain_seqs (C ++ D ++ R) -> 0 <= seq -> 0 < n -> C <> [] -> zlen (C ++ D) <= max_alloc ->
  (exists q, run_from q C /\ gap_at (q + zlen C) D
     /\ zlen (C ++ D) = Z.min n (slen (slots s)) - (q - seq)) ->
  exists s', sequencedSlots_PopRange s seq n = Ret (s', slot_of <$> C)
    /\ sorted_slots s' /\ elems (slots s') = L ++ R.
Proof.
  intros (Hwf & Hs & Hsz) Hsp Hpl Hseq Hn HC Hmax (q & Hrun & Hgap & Hq).
  destruct (find_spec s seq Hwf Hs) as (L' & R' & E & Hsp').
  destruct (splits_unique _ _ _ _ _ _ Hsp Hsp') as [<- <-].
  pose proof (zlen_elems _ Hwf) as Hlen. pose proof (proj1 Hsp) as Hl. rewrite Hl in Hlen.
  unfold sequencedSlots_PopRange.
  replace (if decide (n > slen (slots s)) then slen (slots s) else n)
    with (Z.min n (slen (slots s))) by (case_decide; lia).
  destruct C as [|x C]; [done|].
  rewrite decide_False by llia. rewrite E. res_step. rewrite decide_True by llia.
  rewrite (index_elems _ _ x); [|done| |lia].
  2: { rewrite Hl, Nat2Z.id. by apply list_lookup_middle. }
  res_step. pose proof Hrun as [Hx _].
  pose proof (Hpl x ltac:(by left)) as Hx'.
  assert (seq <= q).
  { rewrite <-Hx. apply (proj2 (proj2 Hsp)). by left. }
  rewrite (i64_small (seq_of x - seq)) by (unfold is_int; lia).
  unfold max_alloc in Hmax.
  rewrite i64_small by (unfold is_int; llia).
  replace (Z.min n (slen (slots s)) - (seq_of x - seq)) with (zlen ((x :: C) ++ D)) by lia.
  destruct (ExtendSlice_spec (mkSlot 0 0) nil_slice (zlen ((x :: C) ++ D)))
    as (rest & -> & Hrest & _); [unfold max_alloc; lia|done|].
  res_step. rewrite (reslice_0 (Slice (arr nil_slice ++ rest) _) 0) by (unfold scap; simpl; lia). res_step.
  destruct (PopRange_loop_spec (x :: C) D s L R (length ((x :: C) ++ D)) (zlen L) 0 (-1) q
    (Slice (arr nil_slice ++ rest) 0)) as (p & Ep & _ & Hp).
  - done.
  - done.
  - intros z Hz. apply Hpl. rewrite app_assoc. apply elem_of_app. by left.
  - lia.
  - lia.
  - by rewrite length_app.
  - done.
  - done.
  - by left.
  - unfold slice_wf, scap. simpl. lia.
  - rewrite Nat2Z.id. cbn [arr]. rewrite Ep. res_step.
    destruct (reslice_elems (slots s) 0 (zlen L)) as (f & -> & Hf & Hfl & Hfe); [done|llia|llia|].
    destruct (reslice_elems (slots s) (zlen L + zlen ((x :: C) ++ D)) (slen (slots s)))
      as (b & -> & Hb & Hbl & Hbe); [done|llia|llia|].
    res_step. eexists. split; [by rewrite Hp|]. unfold sorted_slots. cbn [slots maxSlots].
    assert (elems (append zero_slot f (elems b)) = L ++ R) as Happ.
    { rewrite append_elems, Hfe, Hbe, Hl by done. rewrite Z.sub_0_r, (app_assoc (x :: C)). by zsimpl. }
    rewrite Happ. pose proof (append_wf zero_slot f (elems b) Hf) as Hwf'.
    pose proof (zlen_elems _ Hwf') as Hlen'. rewrite Happ in Hlen'.
    split_and!; [done| |llia|done]. rewrite Hl, (app_assoc (x :: C)) in Hs.
    by apply sorted_drop_middle in Hs.
Qed.
End slot_map_laws.

(** * Properties *)

Section slot_properties.
Context `{GoRuntime}.

(** C36: The sorted slice with its binary search is a map from sequence numbers to slots
    of bounded size: [Push] inserts a new number, reports a known one with [false] and a
    full container with an error, changing nothing in both cases; [Pop] returns and
    removes the slot of a number, or reports that there is none.  The order and the
    bound are preserved, and no index is out of range. *)
Theorem sequenced_slots_map (s : sequencedSlots) (seq : Z) (slot : Slot) :
  sorted_slots s ->
  (match slot_map s !! seq with
   | Some _ => sequencedSlots_Push s seq slot = Ret (s, (false, None))
   | None =>
       if decide (maxSlots s <= Z.of_nat (size (slot_map s)))
       then sequencedSlots_Push s seq slot = Ret (s, (false, Some ErrNoSpaceLeftForSlot))
       else (exists s', sequencedSlots_Push s seq slot = Ret (s', (true, None))
               /\ sorted_slots s' /\ slot_map s' = (<[seq := slot]> (slot_map s)))
   end)
  /\ (match slot_map s !! seq with
      | None => sequencedSlots_Pop s seq = Ret (s, (mkSlot 0 0, false))
      | Some x =>
          exists s', sequencedSlots_Pop s seq = Ret (s', (x, true))
            /\ sorted_slots s' /\ slot_map s' = delete seq (slot_map s)
      end)
  /\ sequencedSlots_Size s = Z.of_nat (size (slot_map s)).
Proof.
  intros Hs. pose proof (Push_spec s seq slot Hs) as HPush.
  pose proof (Pop_spec s seq Hs) as HPop. split_and!.
  - destruct (slot_map s !! seq); [done|]. case_decide; [done|].
    destruct HPush as (s' & ? & ? & ? & _). by exists s'.
  - destruct (slot_map s !! seq); [|done]. destruct HPop as (s' & ? & ? & ? & _). by exists s'.
  - by rewrite slot_map_size.
Qed.

(** [PopRange] from the slots [L ++ C ++ D ++ R], where [C] is the run of
    consecutive sequence numbers found from [seq] on and [D] comes after a gap: when its
    count covers [C] and [D] it returns the slots of [C] only, but removes those of [D]
    as well, which nobody gets to discard. *)
Theorem poprange_drops_after_gap (s : sequencedSlots) (seq n q : Z)
    (L C D R : list sequencedSlot) :
  sorted_slots s -> splits (elems (slots s)) L (C ++ D ++ R) seq ->
  plain_seqs (C ++ D ++ R) -> 0 <= seq -> 0 < n -> C <> [] -> zlen (C ++ D) <= max_alloc ->
  run_from q C -> gap_at (q + zlen C) D ->
  zlen (C ++ D) = Z.min n (slen (slots s)) - (q - seq) ->
  exists s', sequencedSlots_PopRange s seq n = Ret (s', slot_of <$> C)
    /\ sorted_slots s' /\ elems (slots s') = L ++ R.
Proof. intros. apply (PopRange_spec s seq n L C D R); eauto. Qed.
End slot_properties.

Definition seq_slot (seq index len : Z) : sequencedSlot := mkSeqSlot (mkSlot index len) seq.

(** The slots 1, 2, 5, 6 of a container for eight. *)
Definition example_slots : sequencedSlots :=
  mkSequencedSlots 8
    (Slice ([seq_slot 1 0 1; seq_slot 2 1 1; seq_slot 5 2 1; seq_slot 6 3 1]
            ++ replicate 4 zero_slot) 4).

Lemma example_slots_sorted : sorted_slots example_slots.
Proof.
  split_and!; [done| |done]. apply (bool_decide_unpack (StronglySorted Z.lt _)). by vm_compute.
Qed.

Lemma sequenced_slots_map_witness :
  exists s', sequencedSlots_Push (H:=doubling_runtime) example_slots 4 (mkSlot 9 3)
               = Ret (s', (true, None))
    /\ sorted_slots s' /\ slot_map s' = (<[4 := mkSlot 9 3]> (slot_map example_slots)).
Proof.
  exact (proj1 (sequenced_slots_map (H:=doubling_runtime) example_slots 4 (mkSlot 9 3)
    example_slots_sorted)).
Defined.

(** Popping three slots from 1 on returns 1 and 2, and forgets 5. *)
Lemma poprange_drops_after_gap_witness :
  exists s', sequencedSlots_PopRange (H:=doubling_runtime) example_slots 1 3
               = Ret (s', [mkSlot 0 1; mkSlot 1 1])
    /\ sorted_slots s' /\ elems (slots s') = [seq_slot 6 3 1].
Proof.
  apply (poprange_drops_after_gap (H:=doubling_runtime) example_slots 1 3 1
    [] [seq_slot 1 0 1; seq_slot 2 1 1] [seq_slot 5 2 1] [seq_slot 6 3 1]
    example_slots_sorted).
  - split_and!; [done| |].
    + intros x Hx. by apply not_elem_of_nil in Hx.
    + intros x Hx. repeat apply elem_of_cons in Hx as [->|Hx]; try done.
      by apply not_elem_of_nil in Hx.
  - intros x Hx. repeat apply elem_of_cons in Hx as [->|Hx]; try done.
    by apply not_elem_of_nil in Hx.
  - lia.
  - lia.
  - done.
  - vm_compute. discriminate.
  - done.
  - done.
  - done.
Defined.
