(* ===== verification/SlotSequencer.v ===== *)
(** The slot sequencer of [src/slot_sequencer.go] and its use with a byte buffer.

    A client saves bytes into the buffer's save area and files them under a sequence
    number; it takes them out in any order.  The sequencer hands back, for each number,
    the slot where the bytes are at that moment.  The theorems state that sequencer and
    save area together are a finite map from sequence numbers to bytes. *)

From stdpp Require Import gmap sorting.
From S2P Require Import Prelude GoSlice ByteBuffer FenwickTree Slots.

(** * src/slot_sequencer.go *)

Record SlotSequencer : Type := mkSlotSequencer {
  maxBytes : Z;
  sbytes : Z;
  container : sequencedSlots;
  offsetter : SlotOffsetter
}.

Section sequencer.
Context `{GoRuntime}.
Implicit Types (s : SlotSequencer) (slot : Slot).

Definition NewSlotSequencer (maxSlots maxBytes : Z) : res SlotSequencer :=
  c ← newSequencedSlots maxSlots;
  o ← NewSlotOffsetter maxBytes;
  Ret (mkSlotSequencer maxBytes 0 c o).

Definition SlotSequencer_Push s (seq : Z) slot :
    res (SlotSequencer * (bool * option error)) :=
  if decide (i64 (sbytes s + Length slot) > maxBytes s)
  then Ret (s, (false, Some ErrNoSpaceLeftForSlot))
  else
    '(slot, err) ← SlotOffsetter_Add (offsetter s) slot;
    match err with
    | Some err => Ret (s, (false, Some err))
    | None =>
        '(c, (ok, err)) ← sequencedSlots_Push (container s) seq slot;
        let n := if decide (ok = true /\ err = None)
                 then i64 (sbytes s + Length slot) else sbytes s in
        Ret (mkSlotSequencer (maxBytes s) n c (offsetter s), (ok, err))
    end.

Definition SlotSequencer_Pop s (seq : Z) : res (SlotSequencer * (Slot * bool)) :=
  '(c, (slot, ok)) ← sequencedSlots_Pop (container s) seq;
  if (ok : bool) then
    '(o, slot) ← SlotOffsetter_Offset (offsetter s) slot;
    let o := if decide (sequencedSlots_Size c = 0) then SlotOffsetter_Reset o else o in
    Ret (mkSlotSequencer (maxBytes s) (i64 (sbytes s - Length slot)) c o, (slot, ok))
  else Ret (mkSlotSequencer (maxBytes s) (sbytes s) c (offsetter s), (slot, ok)).

Definition SlotSequencer_Size s : Z := sequencedSlots_Size (container s).
Definition SlotSequencer_Bytes s : Z := sbytes s.
Definition SlotSequencer_MaxBytes s : Z := maxBytes s.

Definition SlotSequencer_Reset s : res SlotSequencer :=
  c ← sequencedSlots_Reset (container s);
  Ret (mkSlotSequencer (maxBytes s) 0 c (SlotOffsetter_Reset (offsetter s))).
End sequencer.

(** * Segments *)

(** Everything saved since the sequencer was last empty, in the order it was saved; a
    segment is [live] until its slot is discarded. *)
Record seg : Type := Seg { sg_seq : Z; sg_bytes : list byte; sg_live : bool }.

Abbreviation sg_len g := (zlen (sg_bytes g)).

Fixpoint total (gs : list seg) : Z :=
  match gs with [] => 0 | g :: gs => sg_len g + total gs end.

Fixpoint live_bytes (gs : list seg) : list byte :=
  match gs with
  | [] => []
  | g :: gs => (if sg_live g then sg_bytes g else []) ++ live_bytes gs
  end.

(** Lengths of the discarded segments that start before [n], the first one starting at
    [pos]. *)
Fixpoint dead_before (pos : Z) (gs : list seg) (n : Z) : Z :=
  match gs with
  | [] => 0
  | g :: gs => (if decide (sg_live g = false /\ pos < n) then sg_len g else 0)
               + dead_before (pos + sg_len g) gs n
  end.

(** The live segments under their sequence numbers. *)
Fixpoint live_map {A} (f : Z -> seg -> A) (pos : Z) (gs : list seg) : gmap Z A :=
  match gs with
  | [] => ∅
  | g :: gs =>
      let m := live_map f (pos + sg_len g) gs in
      if sg_live g then <[sg_seq g := f pos g]> m else m
  end.

Fixpoint live_seqs (gs : list seg) : list Z :=
  match gs with
  | [] => []
  | g :: gs => (if sg_live g then [sg_seq g] else []) ++ live_seqs gs
  end.

Definition seg_slot (pos : Z) (g : seg) : Slot := mkSlot pos (sg_len g).
Definition seg_content (pos : Z) (g : seg) : list byte := sg_bytes g.

Definition kill (g : seg) : seg := Seg (sg_seq g) (sg_bytes g) false.

Lemma total_app a b : total (a ++ b) = total a + total b.
Proof. induction a as [|g a IH]; simpl; [done|]. rewrite IH. lia. Qed.

Lemma live_bytes_app a b : live_bytes (a ++ b) = live_bytes a ++ live_bytes b.
Proof. induction a as [|g a IH]; simpl; [done|]. by rewrite IH, app_assoc. Qed.

Lemma total_nonneg gs : 0 <= total gs.
Proof. induction gs; simpl; lia. Qed.

Lemma dead_before_app pos a b n :
  dead_before pos (a ++ b) n = dead_before pos a n + dead_before (pos + total a) b n.
Proof.
  revert pos. induction a as [|g a IH]; intros pos; simpl.
  - by rewrite Z.add_0_r.
  - rewrite IH. replace (pos + (sg_len g + total a)) with (pos + sg_len g + total a) by lia.
    lia.
Qed.

Lemma dead_before_0 pos gs n : n <= pos -> dead_before pos gs n = 0.
Proof.
  revert pos. induction gs as [|g gs IH]; intros pos Hn; simpl; [done|].
  rewrite decide_False by (intros [_ ?]; lia). rewrite IH; lia.
Qed.

Lemma dead_before_nonneg pos gs n : 0 <= dead_before pos gs n.
Proof.
  revert pos. induction gs as [|g gs IH]; intros pos; simpl; [done|].
  specialize (IH (pos + sg_len g)). case_decide; lia.
Qed.

(** Every segment is non-empty and starts before [n]. *)
Fixpoint starts_below (pos : Z) (gs : list seg) (n : Z) : Prop :=
  match gs with
  | [] => True
  | g :: gs => (pos < n /\ sg_bytes g <> []) /\ starts_below (pos + sg_len g) gs n
  end.

Lemma starts_below_app pos a b n :
  starts_below pos (a ++ b) n <-> starts_below pos a n /\ starts_below (pos + total a) b n.
Proof.
  revert pos. induction a as [|g a IH]; intros pos; simpl.
  - rewrite Z.add_0_r. tauto.
  - rewrite IH, Z.add_assoc. tauto.
Qed.

Lemma starts_below_self pos gs n m :
  starts_below pos gs m -> pos + total gs < n -> starts_below pos gs n.
Proof.
  revert pos. induction gs as [|g gs IH]; intros pos; simpl; [done|].
  intros [[H1 H2] H3] Hn. pose proof (total_nonneg gs). split; [split; [lia|done]|].
  apply IH; [done|lia].
Qed.

(** All discarded bytes count once [n] is past every start. *)
Lemma dead_before_all pos gs n :
  starts_below pos gs n -> dead_before pos gs n + zlen (live_bytes gs) = total gs.
Proof.
  revert pos. induction gs as [|g gs IH]; intros pos Hn; simpl in *; [done|].
  destruct Hn as [[Hlt _] Hn]. rewrite length_app. specialize (IH _ Hn).
  destruct (sg_live g); [rewrite decide_False by (by intros [? _])|
    rewrite decide_True by done]; simpl; lia.
Qed.

Lemma live_map_None {A} (f : Z -> seg -> A) pos gs k :
  live_map f pos gs !! k = None <-> k ∉ live_seqs gs.
Proof.
  revert pos. induction gs as [|g gs IH]; intros pos; simpl.
  - split; [intros; apply not_elem_of_nil|done].
  - destruct (sg_live g); simpl; [|apply IH].
    rewrite not_elem_of_cons, lookup_insert_None, IH. split; intros [? ?]; auto.
Qed.

Lemma live_seqs_app a b : live_seqs (a ++ b) = live_seqs a ++ live_seqs b.
Proof. induction a as [|g a IH]; simpl; [done|]. by rewrite IH, app_assoc. Qed.

Lemma live_map_Some {A} (f : Z -> seg -> A) pos gs k x :
  live_map f pos gs !! k = Some x ->
  exists a g b, gs = a ++ g :: b /\ sg_live g = true /\ sg_seq g = k
    /\ x = f (pos + total a) g.
Proof.
  revert pos. induction gs as [|g gs IH]; intros pos; simpl; [done|]. intros Hx.
  assert (live_map f (pos + sg_len g) gs !! k = Some x ->
    exists a h b, g :: gs = a ++ h :: b /\ sg_live h = true /\ sg_seq h = k
      /\ x = f (pos + total a) h) as Hrec.
  { intros (a & h & b & -> & ? & ? & ->)%IH. exists (g :: a), h, b. simpl.
    by rewrite Z.add_assoc. }
  destruct (sg_live g) eqn:E; [|by apply Hrec].
  apply lookup_insert_Some in Hx as [[<- <-]|[_ Hx]]; [|by apply Hrec].
  exists [], g, gs. simpl. by rewrite Z.add_0_r.
Qed.

Lemma live_map_append {A} (f : Z -> seg -> A) pos gs g :
  sg_live g = true -> sg_seq g ∉ live_seqs gs ->
  live_map f pos (gs ++ [g]) = <[sg_seq g := f (pos + total gs) g]> (live_map f pos gs).
Proof.
  intros Hg. revert pos. induction gs as [|h gs IH]; intros pos Hn; simpl.
  - by rewrite Hg, Z.add_0_r.
  - simpl in Hn. apply not_elem_of_app in Hn as [Hh Hn].
    rewrite IH, Z.add_assoc by done. destruct (sg_live h); [|done].
    apply insert_insert_ne. intros E. rewrite E in Hh. apply Hh. by left.
Qed.

Lemma live_map_kill {A} (f : Z -> seg -> A) pos a g b :
  sg_live g = true -> NoDup (live_seqs (a ++ g :: b)) ->
  live_map f pos (a ++ kill g :: b) = delete (sg_seq g) (live_map f pos (a ++ g :: b)).
Proof.
  intros Hg. revert pos. induction a as [|h a IH]; intros pos Hn; simpl in *.
  - rewrite Hg. rewrite Hg in Hn. simpl in Hn. apply list.NoDup_cons in Hn as [Hn _].
    rewrite delete_insert_id; [done|]. by apply live_map_None.
  - simpl in Hn. apply list.NoDup_app in Hn as (_ & Hh & Hn).
    rewrite IH by done. destruct (sg_live h); [|done].
    rewrite delete_insert_ne; [done|]. intros E. apply (Hh (sg_seq h)).
    + by left.
    + rewrite <-E, live_seqs_app. simpl. rewrite Hg. apply elem_of_app. right. by left.
Qed.

Lemma live_seqs_kill_sub a g b :
  NoDup (live_seqs (a ++ g :: b)) -> NoDup (live_seqs (a ++ kill g :: b)).
Proof.
  rewrite !live_seqs_app. simpl.
  destruct (sg_live g); simpl; [|done]. rewrite !list.NoDup_app, list.NoDup_cons.
  intros (H1 & H2 & _ & H3). split_and!; [done| |done]. intros x Hx. specialize (H2 x Hx).
  rewrite not_elem_of_cons in H2. by destruct H2.
Qed.

Lemma dead_before_kill pos a g b n :
  sg_live g = true ->
  dead_before pos (a ++ kill g :: b) n
  = dead_before pos (a ++ g :: b) n + (if decide (pos + total a < n) then sg_len g else 0).
Proof.
  intros Hg. rewrite !dead_before_app. simpl. rewrite Hg.
  rewrite (decide_False (P := true = false /\ _)) by (by intros [? _]).
  destruct (decide (pos + total a < n)); [rewrite decide_True by done|rewrite decide_False by (by intros [_ ?])]; lia.
Qed.

Lemma live_bytes_kill a g b : live_bytes (a ++ kill g :: b) = live_bytes a ++ live_bytes b.
Proof. by rewrite live_bytes_app. Qed.

Lemma total_kill a g b : total (a ++ kill g :: b) = total (a ++ g :: b).
Proof. by rewrite !total_app. Qed.

Lemma live_map_size {A} (f : Z -> seg -> A) pos gs :
  NoDup (live_seqs gs) -> size (live_map f pos gs) = length (live_seqs gs).
Proof.
  revert pos. induction gs as [|g gs IH]; intros pos Hn; simpl in *; [apply map_size_empty|].
  destruct (sg_live g); simpl in *; [|by apply IH].
  apply list.NoDup_cons in Hn as [Hg Hn].
  rewrite map_size_insert_None by (by apply live_map_None). by rewrite IH.
Qed.

Lemma live_seqs_nil gs : live_seqs gs = [] -> live_bytes gs = [].
Proof.
  induction gs as [|g gs IH]; simpl; [done|]. destruct (sg_live g); simpl; [done|]. apply IH.
Qed.

(** * The invariant of a sequencer and the save area it describes *)

Record tracked (q : SlotSequencer) (gs : list seg) (v : list Z) : Prop := Tracked {
  tr_tree : represents (tree (offsetter q)) v;
  tr_size : zlen v = maxBytes q;
  tr_max : maxBytes q <= max_alloc;
  tr_sums : forall n, n <= maxBytes q -> psum v n = dead_before 0 gs n;
  tr_start : starts_below 0 gs (maxBytes q);
  tr_total : total gs <= 2 * maxBytes q;
  tr_nodup : NoDup (live_seqs gs);
  tr_sorted : sorted_slots (container q);
  tr_slots : slot_map (container q) = live_map seg_slot 0 gs;
  tr_bytes : sbytes q = zlen (live_bytes gs);
  tr_live : sbytes q <= maxBytes q
}.

(** [q] and the save area [S] hold the bytes [m k] under each sequence number [k]. *)
Definition stored (q : SlotSequencer) (S : list byte) (m : gmap Z (list byte)) : Prop :=
  exists gs v, tracked q gs v /\ S = live_bytes gs /\ m = live_map seg_content 0 gs.

Section sequencer_laws.
Context `{GoRuntime}.

(** The tree's sum is what has been discarded since the sequencer was last empty. *)
Lemma tracked_sum q gs v :
  tracked q gs v ->
  Sum (tree (offsetter q)) = Ret (total gs - zlen (live_bytes gs))
  /\ 0 <= total gs - zlen (live_bytes gs) <= 2 * max_alloc.
Proof.
  intros T. assert (psum v (zlen v) = total gs - zlen (live_bytes gs)) as Hp.
  { rewrite (tr_size _ _ _ T), (tr_sums _ _ _ T) by lia.
    rewrite <-(dead_before_all 0 gs _ (tr_start _ _ _ T)). lia. }
  assert (0 <= psum v (zlen v)).
  { rewrite (tr_size _ _ _ T), (tr_sums _ _ _ T) by lia. apply dead_before_nonneg. }
  pose proof (tr_total _ _ _ T). pose proof (tr_max _ _ _ T). unfold max_alloc in *.
  rewrite (Sum_spec _ _ (tr_tree _ _ _ T)), Hp, i64_small by (unfold is_int; lia).
  split; [done|lia].
Qed.

Lemma tracked_push q gs v c seq bs :
  tracked q gs v -> bs <> [] -> sbytes q + zlen bs <= maxBytes q -> total gs < maxBytes q ->
  seq ∉ live_seqs gs -> sorted_slots c ->
  slot_map c = <[seq := mkSlot (total gs) (zlen bs)]> (slot_map (container q)) ->
  tracked (mkSlotSequencer (maxBytes q) (sbytes q + zlen bs) c (offsetter q))
    (gs ++ [Seg seq bs true]) v.
Proof.
  intros T Hbs Hfit Hstart Hnew Hc Hmap. pose proof (tr_bytes _ _ _ T).
  destruct T. split; cbn [maxBytes sbytes container offsetter]; try done.
  - intros n Hn. rewrite dead_before_app. rewrite tr_sums0 by done.
    cbn [dead_before sg_live]. rewrite decide_False by (by intros [? _]). lia.
  - apply starts_below_app. done.
  - rewrite total_app. simpl. lia.
  - rewrite live_seqs_app. simpl. apply list.NoDup_app. split_and!; [done| |].
    + intros x Hx ->%list_elem_of_singleton. done.
    + apply NoDup_singleton.
  - rewrite live_map_append by done. by rewrite Hmap, tr_slots0.
  - rewrite live_bytes_app. simpl. llia.
Qed.

Lemma Push_stored q S m seq bs :
  stored q S m -> bs <> [] -> zlen bs <= 2 ^ 61 ->
  exists spent, Sum (tree (offsetter q)) = Ret spent /\
  let push := SlotSequencer_Push q seq (mkSlot (zlen S) (zlen bs)) in
  if decide (sbytes q + zlen bs > maxBytes q \/ maxBytes q <= zlen S + spent)
  then push = Ret (q, (false, Some ErrNoSpaceLeftForSlot))
  else match m !! seq with
       | Some _ => push = Ret (q, (false, None))
       | None =>
           if decide (maxSlots (container q) <= Z.of_nat (size m))
           then push = Ret (q, (false, Some ErrNoSpaceLeftForSlot))
           else (exists q', push = Ret (q', (true, None))
                   /\ stored q' (S ++ bs) (<[seq := bs]> m)
                   /\ sbytes q' = sbytes q + zlen bs)
       end.
Proof.
  intros (gs & v & T & -> & ->) Hbs Hlen.
  destruct (tracked_sum q gs v T) as [Hsum Hrange].
  exists (total gs - zlen (live_bytes gs)). split; [done|]. intros push. subst push.
  pose proof (tr_live _ _ _ T). pose proof (tr_max _ _ _ T). pose proof (tr_bytes _ _ _ T).
  unfold max_alloc in *. unfold SlotSequencer_Push. cbn [Length Index].
  rewrite (i64_small (sbytes q + zlen bs)) by (unfold is_int; lia).
  destruct (decide (sbytes q + zlen bs > maxBytes q)).
  { by rewrite (decide_True (P := _ \/ _)) by lia. }
  unfold SlotOffsetter_Add. rewrite Hsum. res_step. cbn [Length Index].
  replace (zlen (live_bytes gs) + (total gs - zlen (live_bytes gs))) with (total gs) by lia.
  pose proof (tr_total _ _ _ T). pose proof (total_nonneg gs).
  rewrite (i64_small (total gs)) by (unfold is_int; lia).
  replace (Size (tree (offsetter q))) with (maxBytes q).
  2: { rewrite <-(tr_size _ _ _ T). unfold Size. by rewrite (proj1 (tr_tree _ _ _ T)). }
  destruct (decide (maxBytes q <= total gs)).
  { by rewrite (decide_True (P := _ \/ _)) by lia. }
  rewrite (decide_False (P := _ \/ _)) by lia. res_step.
  pose proof (Push_spec (container q) seq (mkSlot (total gs) (zlen bs)) (tr_sorted _ _ _ T)) as HP.
  rewrite (tr_slots _ _ _ T), live_map_size in HP by apply (tr_nodup _ _ _ T).
  rewrite live_map_size by apply (tr_nodup _ _ _ T).
  destruct (live_map seg_content 0 gs !! seq) eqn:Em.
  - destruct (live_map seg_slot 0 gs !! seq) eqn:Es.
    + rewrite HP. res_step. rewrite decide_False by (by intros [? _]). by destruct q.
    + apply live_map_None in Es. apply (live_map_None seg_content 0) in Es. congruence.
  - apply live_map_None in Em. pose proof (proj2 (live_map_None seg_slot 0 gs seq) Em) as Es.
    rewrite Es in HP. case_decide.
    + rewrite HP. res_step. rewrite decide_False by (by intros [? _]). by destruct q.
    + destruct HP as (c & -> & Hc & Hmap & Hms). res_step.
      rewrite decide_True by done. cbn [Length].
      rewrite (i64_small (sbytes q + zlen bs)) by (unfold is_int; lia).
      eexists. split; [done|]. split; [|done]. exists (gs ++ [Seg seq bs true]), v. split_and!.
      * apply tracked_push; [done..|lia|lia|done|done|]. by rewrite (tr_slots _ _ _ T).
      * rewrite live_bytes_app. simpl. by rewrite app_nil_r.
      * by rewrite live_map_append.
Qed.

(** A live segment is where [Offset] says it is. *)
Lemma Offset_tracked q a g b v :
  tracked q (a ++ g :: b) v -> sg_live g = true ->
  exists o v', SlotOffsetter_Offset (offsetter q) (seg_slot (total a) g)
      = Ret (o, mkSlot (zlen (live_bytes a)) (sg_len g))
    /\ represents (tree o) v' /\ zlen v' = maxBytes q
    /\ (forall n, n <= maxBytes q -> psum v' n = dead_before 0 (a ++ kill g :: b) n).
Proof.
  intros T Hg. pose proof (tr_start _ _ _ T) as Hst.
  apply starts_below_app in Hst as [Hsa [[Hlt Hne] Hsb]].
  pose proof (total_nonneg a). pose proof (tr_total _ _ _ T) as Htot.
  pose proof (tr_max _ _ _ T). pose proof (tr_size _ _ _ T). rewrite total_app in Htot. simpl in Htot.
  pose proof (total_nonneg b).
  assert (0 < sg_len g) by (destruct (sg_bytes g); simpl; [done|lia]).
  assert (psum v (total a + 1) = total a - zlen (live_bytes a)) as Hp.
  { rewrite (tr_sums _ _ _ T), dead_before_app by lia. cbn [dead_before].
    rewrite decide_False by (rewrite Hg; by intros [? _]).
    rewrite (dead_before_0 _ b) by lia.
    pose proof (dead_before_all 0 a (total a + 1)) as Ha.
    rewrite <-Ha at 2; [lia|]. eapply starts_below_self; [done|lia]. }
  pose proof (dead_before_nonneg 0 (a ++ g :: b) (total a + 1)) as Hd.
  rewrite <-(tr_sums _ _ _ T), Hp in Hd by lia.
  destruct (in_range_Some v (total a)) as [x Hx]; [lia|].
  destruct (Add_spec _ _ (total a) (sg_len g) x (tr_tree _ _ _ T)) as (t & Ht & Hrep); [lia|done|].
  unfold SlotOffsetter_Offset, seg_slot. cbn [Index Length].
  rewrite (SumUntil_spec _ _ _ (tr_tree _ _ _ T)), Hp by lia.
  unfold max_alloc in *. rewrite i64_small by (unfold is_int; lia). res_step.
  rewrite Ht. res_step. eexists (mkSlotOffsetter t), _. split; [|split; [exact Hrep|split]].
  - unfold OffsetSlot. cbn [Index Length]. rewrite (decide_False (P := _ < 0)) by lia.
    rewrite decide_False by lia. do 3 f_equal. lia.
  - by rewrite length_insert.
  - intros n Hn. rewrite (psum_insert v _ x), Z2Nat.id, (tr_sums _ _ _ T) by (done || lia).
    rewrite dead_before_kill by done. rewrite Z.add_0_l. case_decide; lia.
Qed.

Lemma live_map_middle {A} (f : Z -> seg -> A) pos a g b :
  sg_live g = true -> NoDup (live_seqs (a ++ g :: b)) ->
  live_map f pos (a ++ g :: b) !! sg_seq g = Some (f (pos + total a) g).
Proof.
  intros Hg. revert pos. induction a as [|h a IH]; intros pos Hn; simpl in *.
  - rewrite Hg, Z.add_0_r. apply lookup_insert_eq.
  - apply list.NoDup_app in Hn as (_ & Hh & Hn). rewrite Z.add_assoc.
    destruct (sg_live h); [|by apply IH]. rewrite lookup_insert_ne; [by apply IH|].
    intros E. apply (Hh (sg_seq h)); [by left|].
    rewrite E, live_seqs_app. simpl. rewrite Hg. apply elem_of_app. right. by left.
Qed.

Lemma tracked_pop q a g b v c o v' :
  tracked q (a ++ g :: b) v -> sg_live g = true -> sorted_slots c ->
  slot_map c = delete (sg_seq g) (live_map seg_slot 0 (a ++ g :: b)) ->
  represents (tree o) v' -> zlen v' = maxBytes q ->
  (forall n, n <= maxBytes q -> psum v' n = dead_before 0 (a ++ kill g :: b) n) ->
  tracked (mkSlotSequencer (maxBytes q) (i64 (sbytes q - sg_len g)) c o) (a ++ kill g :: b) v'.
Proof.
  intros T Hg Hc Hmap Hrep Hsz Hsums.
  assert (sbytes q = zlen (live_bytes a) + sg_len g + zlen (live_bytes b)) as Hb.
  { rewrite (tr_bytes _ _ _ T), live_bytes_app. simpl. rewrite Hg. llia. }
  pose proof (tr_live _ _ _ T). pose proof (tr_max _ _ _ T).
  rewrite i64_small by (unfold is_int, max_alloc in *; lia).
  split; cbn [maxBytes sbytes container offsetter]; try done.
  - pose proof (tr_start _ _ _ T) as Hst. apply starts_below_app in Hst.
    by apply starts_below_app.
  - rewrite total_kill. apply (tr_total _ _ _ T).
  - apply live_seqs_kill_sub, (tr_nodup _ _ _ T).
  - by rewrite live_map_kill by (done || apply (tr_nodup _ _ _ T)).
  - rewrite live_bytes_kill. llia.
  - lia.
Qed.

(** A sequencer whose container is empty may forget what was discarded. *)
Lemma tracked_empty q gs v :
  tracked q gs v -> sequencedSlots_Size (container q) = 0 ->
  live_bytes gs = [] /\ live_seqs gs = []
  /\ tracked (mkSlotSequencer (maxBytes q) (sbytes q) (container q)
                (SlotOffsetter_Reset (offsetter q))) [] (replicate (length v) 0).
Proof.
  intros T H0.
  assert (live_seqs gs = []) as Hs.
  { unfold sequencedSlots_Size in H0. rewrite <-(slot_map_size _ (tr_sorted _ _ _ T)) in H0.
    rewrite (tr_slots _ _ _ T), live_map_size in H0 by apply (tr_nodup _ _ _ T).
    destruct (live_seqs gs); [done|simpl in H0; lia]. }
  pose proof (live_seqs_nil _ Hs) as Hb. split_and!; [done..|]. destruct T.
  split; cbn [maxBytes sbytes container offsetter]; try done.
  - unfold SlotOffsetter_Reset, FenwickTree.Reset. cbn [tree]. rewrite (proj1 tr_tree0).
    apply represents_zeros.
  - by rewrite length_replicate.
  - intros n Hn. apply psum_zeros.
  - simpl. lia.
  - simpl. constructor.
  - rewrite tr_slots0. apply map_eq. intros k. cbn [live_map]. rewrite lookup_empty.
    apply live_map_None. rewrite Hs. apply not_elem_of_nil.
  - by rewrite Hb in tr_bytes0.
Qed.

(** The bytes held and discarded since the sequencer was last empty; a slot is refused
    once they reach the maximum. *)
Definition used q (S : list byte) (u : Z) : Prop :=
  exists spent, Sum (tree (offsetter q)) = Ret spent /\ zlen S + spent <= u.

Definition same_limits q q' : Prop :=
  maxBytes q' = maxBytes q /\ maxSlots (container q') = maxSlots (container q).

Lemma Pop_stored q S m seq :
  stored q S m ->
  match m !! seq with
  | None => SlotSequencer_Pop q seq = Ret (q, (mkSlot 0 0, false))
  | Some bs =>
      exists q' A B, S = A ++ bs ++ B
        /\ SlotSequencer_Pop q seq = Ret (q', (mkSlot (zlen A) (zlen bs), true))
        /\ stored q' (A ++ B) (delete seq m)
        /\ same_limits q q' /\ (forall u, used q S u -> used q' (A ++ B) u)
  end.
Proof.
  intros (gs & v & T & -> & ->).
  pose proof (Pop_spec (container q) seq (tr_sorted _ _ _ T)) as HP.
  rewrite (tr_slots _ _ _ T) in HP. unfold SlotSequencer_Pop.
  destruct (live_map seg_content 0 gs !! seq) as [bs|] eqn:Em.
  2: { apply live_map_None in Em. rewrite (proj2 (live_map_None seg_slot 0 gs seq) Em) in HP.
       rewrite HP. res_step. by destruct q. }
  apply live_map_Some in Em as (a & g & b & -> & Hg & <- & ->).
  rewrite (live_map_middle seg_slot), Z.add_0_l in HP by (done || apply (tr_nodup _ _ _ T)).
  destruct HP as (c & -> & Hc & Hmap & Hms). res_step.
  destruct (Offset_tracked q a g b v T Hg) as (o & v' & -> & Hrep & Hsz & Hsums). res_step.
  eexists _, (live_bytes a), (live_bytes b). split_and!.
  - rewrite live_bytes_app. simpl. by rewrite Hg.
  - done.
  - cbn [Length]. pose proof (tracked_pop q a g b v c o v' T Hg Hc Hmap Hrep Hsz Hsums) as T'.
    rewrite <-live_map_kill by (done || apply (tr_nodup _ _ _ T)).
    case_decide as Hempty.
    + destruct (tracked_empty _ _ _ T' Hempty) as (Hb & Hs & T0).
      exists [], (replicate (length v') 0). rewrite live_bytes_kill in Hb.
      split_and!; [exact T0|done|]. apply map_eq. intros k. simpl. rewrite lookup_empty.
      apply live_map_None. rewrite Hs. apply not_elem_of_nil.
    + exists (a ++ kill g :: b), v'. split_and!; [done|by rewrite live_bytes_kill|done].
  - by split.
  - intros u (spent & Hsum & Hu). cbn [offsetter].
    pose proof (tracked_pop q a g b v c o v' T Hg Hc Hmap Hrep Hsz Hsums) as T'.
    rewrite (proj1 (tracked_sum _ _ _ T)) in Hsum. injection Hsum as <-.
    pose proof (total_nonneg (a ++ g :: b)).
    case_decide as Hempty.
    + destruct (tracked_empty _ _ _ T' Hempty) as (Hb & _ & T0). rewrite live_bytes_kill in Hb.
      exists 0. rewrite Hb. split; [apply (tracked_sum _ _ _ T0)|simpl; lia].
    + eexists. split; [apply (tracked_sum _ _ _ T')|]. rewrite live_bytes_kill, total_kill. lia.
Qed.

Lemma Push_keeps q seq slot q' r :
  SlotSequencer_Push q seq slot = Ret (q', r) -> same_limits q q' /\ offsetter q' = offsetter q.
Proof.
  unfold SlotSequencer_Push. case_decide; [by intros [= <- _]|].
  intros ([sl err] & _ & E)%res_bind_inv. destruct err; [by injection E as <- _|].
  apply res_bind_inv in E as ([c [ok e]] & E & Er). injection Er as <- _. split; [split; [done|]|done].
  cbn [container]. unfold sequencedSlots_Push in E. apply res_bind_inv in E as (ix & _ & E).
  case_decide.
  - destruct (sequencedSlots_checkSize _ _); by injection E as <- _ _.
  - apply res_bind_inv in E as (x & _ & E). case_decide; [|by injection E as <- _ _].
    destruct (sequencedSlots_checkSize _ _); [by injection E as <- _ _|].
    apply res_bind_inv in E as (y & _ & E). apply res_bind_inv in E as (z & _ & E).
    apply res_bind_inv in E as (sl' & _ & E). by injection E as <- _ _.
Qed.
End sequencer_laws.

(** * Clients *)

(** The workflow the source describes: save bytes and push their slot, discarding them
    again when the sequencer refuses; pop a slot, use its bytes and discard it; feed the
    buffer. *)
Inductive request : Type :=
| File (n seq : Z)
| Take (seq : Z)
| Feed (xs : list byte).

Inductive reply : Type :=
| Fed
| Nothing
| Filed
| Duplicate
| Full
| Taken (bs : option (list byte)).

Definition serve `{GoRuntime} (q : SlotSequencer) (b : ByteBuffer) (r : request) :
    res (SlotSequencer * ByteBuffer * reply) :=
  match r with
  | Feed xs =>
      '(b, _) ← Write b xs;
      Ret (q, Commit b (zlen xs), Fed)
  | File n seq =>
      '(b, slot) ← Save b n;
      if decide (Length slot = 0) then Ret (q, b, Nothing)
      else
        '(q, (ok, err)) ← SlotSequencer_Push q seq slot;
        if (ok : bool) then Ret (q, b, Filed)
        else
          '(b, _) ← Discard b slot;
          Ret (q, b, match err with Some _ => Full | None => Duplicate end)
  | Take seq =>
      '(q, (slot, ok)) ← SlotSequencer_Pop q seq;
      if (ok : bool) then
        bs ← SavedSlot b slot;
        '(b, _) ← Discard b slot;
        Ret (q, b, Taken (Some bs))
      else Ret (q, b, Taken None)
  end.

Fixpoint serve_all `{GoRuntime} (q : SlotSequencer) (b : ByteBuffer) (rs : list request) :
    res (SlotSequencer * ByteBuffer * list reply) :=
  match rs with
  | [] => Ret (q, b, [])
  | r :: rs =>
      '(q, b, y) ← serve q b r;
      '(q, b, ys) ← serve_all q b rs;
      Ret (q, b, y :: ys)
  end.

(** The store they implement: bytes under sequence numbers and the bytes to be read. *)
Abbreviation store := (gmap Z (list byte) * list byte)%type.

Inductive store_step : store -> request -> reply -> store -> Prop :=
| store_feed m R xs : store_step (m, R) (Feed xs) Fed (m, R ++ xs)
| store_nothing m R n seq : ztake n R = [] -> store_step (m, R) (File n seq) Nothing (m, R)
| store_filed m R n seq :
    ztake n R <> [] -> m !! seq = None ->
    store_step (m, R) (File n seq) Filed (<[seq := ztake n R]> m, zdrop n R)
| store_duplicate m R n seq bs :
    m !! seq = Some bs -> store_step (m, R) (File n seq) Duplicate (m, zdrop n R)
| store_full m R n seq : store_step (m, R) (File n seq) Full (m, zdrop n R)
| store_take m R seq : store_step (m, R) (Take seq) (Taken (m !! seq)) (delete seq m, R).

Inductive store_steps : store -> list request -> list reply -> store -> Prop :=
| store_done x : store_steps x [] [] x
| store_more x r y x' rs ys x'' :
    store_step x r y x' -> store_steps x' rs ys x'' ->
    store_steps x (r :: rs) (y :: ys) x''.

(** A sequencer and a buffer whose write area is empty implement a store. *)
Definition implements (q : SlotSequencer) (b : ByteBuffer) (x : store) : Prop :=
  exists S F o, b = bb S (snd x) [] F o /\ stored q S (fst x).

Fixpoint fed (rs : list request) : Z :=
  match rs with
  | [] => 0
  | Feed xs :: rs => zlen xs + fed rs
  | _ :: rs => fed rs
  end.

Lemma fed_nonneg rs : 0 <= fed rs.
Proof. induction rs as [|[] rs IH]; simpl; lia. Qed.

Section clients.
Context `{GoRuntime}.

Lemma stored_bound q S m : stored q S m -> zlen S <= max_alloc.
Proof.
  intros (gs & v & T & -> & ->). rewrite <-(tr_bytes _ _ _ T).
  pose proof (tr_live _ _ _ T). pose proof (tr_max _ _ _ T). lia.
Qed.

Lemma serve_file q S R F o m n seq :
  stored q S m -> zlen R <= 2 ^ 60 ->
  exists q' b' y x', serve q (bb S R [] F o) (File n seq) = Ret (q', b', y)
    /\ store_step (m, R) (File n seq) y x' /\ implements q' b' x' /\ zlen (snd x') <= zlen R.
Proof.
  intros Hst HR. pose proof (stored_bound _ _ _ Hst). unfold max_alloc in *.
  unfold serve. rewrite Save_bb. res_step. destruct (decide (ztake n R = [])) as [Hn|Hn]; cbn [Length].
  { rewrite decide_True by done. eexists _, _, _, (m, R). split; [done|].
    split; [by constructor|]. split; [|simpl; lia]. eexists S, F, o.
    assert (zdrop n R = R) as ->.
    { rewrite <-(ztake_zdrop n R) at 2. by rewrite Hn. }
    by rewrite Hn, app_nil_r. }
  set (bs := ztake n R) in *. assert (zlen bs <= 2 ^ 60) by (subst bs; llia).
  assert (0 < zlen bs) by (destruct bs; simpl; [done|lia]).
  rewrite decide_False by lia.
  destruct (Push_stored q S m seq bs Hst Hn) as (spent & _ & HP); [lia|]. cbv zeta in HP.
  assert (zlen (zdrop n R) <= zlen R) by llia.
  destruct (Discard_bb S bs [] (zdrop n R) [] F o) as (F' & HD & _); [unfold is_int; lia|].
  rewrite !app_nil_r in HD.
  case_decide; [|destruct (m !! seq) eqn:Em; [|case_decide]].
  - rewrite HP. res_step. rewrite HD. res_step. eexists _, _, _, _.
    split; [done|]. split; [apply store_full|]. split; [|done]. by eexists S, F', o.
  - rewrite HP. res_step. rewrite HD. res_step. eexists _, _, _, _.
    split; [done|]. split; [by eapply store_duplicate|]. split; [|done]. by eexists S, F', o.
  - rewrite HP. res_step. rewrite HD. res_step. eexists _, _, _, _.
    split; [done|]. split; [apply store_full|]. split; [|done]. by eexists S, F', o.
  - destruct HP as (q' & -> & Hst' & _). res_step. eexists _, _, _, _.
    split; [done|]. split; [by apply store_filed|]. split; [|done]. by eexists (S ++ bs), F, o.
Qed.

Lemma serve_take q S R F o m seq :
  stored q S m ->
  exists q' b', serve q (bb S R [] F o) (Take seq) = Ret (q', b', Taken (m !! seq))
    /\ implements q' b' (delete seq m, R).
Proof.
  intros Hst. pose proof (stored_bound _ _ _ Hst). unfold max_alloc in *.
  pose proof (Pop_stored q S m seq Hst) as HP. unfold serve.
  destruct (m !! seq) as [bs|] eqn:Em.
  - destruct HP as (q' & A & B & -> & -> & Hst' & _). res_step.
    rewrite SavedSlot_bb by (unfold is_int; llia). res_step.
    destruct (Discard_bb A bs B R [] F o) as (F' & -> & _); [unfold is_int; llia|]. res_step.
    eexists _, _. split; [done|]. by eexists (A ++ B), F', o.
  - rewrite HP. res_step. eexists _, _. split; [done|]. rewrite delete_id by done.
    by eexists S, F, o.
Qed.

Lemma serve_feed q S R F o m xs :
  stored q S m -> zlen R + zlen xs <= 2 ^ 60 ->
  exists b', serve q (bb S R [] F o) (Feed xs) = Ret (q, b', Fed)
    /\ implements q b' (m, R ++ xs).
Proof.
  intros Hst HR. pose proof (stored_bound _ _ _ Hst). unfold max_alloc in *. unfold serve.
  destruct (Write_bb S R [] F o xs) as (F' & -> & _). res_step.
  rewrite Commit_bb by (unfold is_int; lia). simpl. rewrite ztake_all, zdrop_all by lia.
  eexists. split; [done|]. by eexists S, F', o.
Qed.

Lemma serve_step q b x r rs :
  implements q b x -> zlen (snd x) + fed (r :: rs) <= 2 ^ 60 ->
  exists q' b' y x', serve q b r = Ret (q', b', y) /\ store_step x r y x'
    /\ implements q' b' x' /\ zlen (snd x') + fed rs <= 2 ^ 60.
Proof.
  destruct x as [m R]. intros (S & F & o & -> & Hst) Hb. cbn [fst snd] in *.
  pose proof (fed_nonneg rs). destruct r as [n seq|seq|xs]; simpl in Hb.
  - destruct (serve_file q S R F o m n seq Hst) as (q' & b' & y & x' & -> & ? & ? & ?); [lia|].
    eexists _, _, _, _. split_and!; [done..|lia].
  - destruct (serve_take q S R F o m seq Hst) as (q' & b' & -> & ?).
    eexists _, _, _, _. split_and!; [done|constructor|done|done].
  - destruct (serve_feed q S R F o m xs Hst) as (b' & -> & ?); [lia|].
    eexists _, _, _, _. split_and!; [done|constructor|done|]. simpl. llia.
Qed.

Lemma serve_all_steps rs q b x :
  implements q b x -> zlen (snd x) + fed rs <= 2 ^ 60 ->
  exists q' b' ys x', serve_all q b rs = Ret (q', b', ys) /\ store_steps x rs ys x'
    /\ implements q' b' x'.
Proof.
  revert q b x. induction rs as [|r rs IH]; intros q b x Hi Hf.
  { eexists _, _, _, _. split_and!; [done|constructor|done]. }
  destruct (serve_step q b x r rs Hi Hf) as (q1 & b1 & y & x1 & E & Hs & Hi1 & Hf1).
  destruct (IH q1 b1 x1 Hi1 Hf1) as (q' & b' & ys & x' & E' & Hss & Hi').
  cbn [serve_all]. rewrite E. res_step. rewrite E'. res_step.
  eexists _, _, _, _. split_and!; [done|by econstructor|done].
Qed.

Lemma implements_new ms mb :
  0 <= ms <= max_alloc -> 0 <= mb <= max_alloc ->
  exists q, NewSlotSequencer ms mb = Ret q /\ implements q NewByteBuffer (∅, [])
    /\ used q [] 0 /\ maxBytes q = mb /\ maxSlots (container q) = ms.
Proof.
  intros Hms Hmb. unfold NewSlotSequencer, newSequencedSlots, NewSlotOffsetter.
  destruct (ExtendSlice_spec zero_slot nil_slice ms) as (rest & -> & Hr & _); [done|done|].
  res_step. rewrite reslice_0 by (unfold scap; simpl; lia). res_step.
  rewrite NewFenwickTree_spec by done. res_step. eexists. split; [done|].
  match goal with |- implements ?q _ _ /\ _ => assert (tracked q [] (replicate (Z.to_nat mb) 0)) as T end.
  2: { split_and!; [|eexists; split; [apply (tracked_sum _ _ _ T)|simpl; lia]|done|done].
       exists [], (replicate 512 zero), zero. split; [done|]. by exists [], (replicate (Z.to_nat mb) 0). }
  split; cbn [maxBytes sbytes container offsetter tree]; try done; try lia.
  - apply represents_zeros.
  - rewrite length_replicate. lia.
  - intros n Hn. apply psum_zeros.
  - simpl. lia.
  - constructor.
  - split_and!; simpl; [unfold slice_wf, scap; simpl; lia|constructor|lia].
Qed.
End clients.

(** * Properties *)

(** C22: a fresh sequencer over a fresh byte buffer serves any sequence of requests
    without panicking, and its replies are those of a finite map from sequence numbers to
    bytes: whatever the order in which numbers are taken and the offsets their slots move
    by, [Take] returns exactly the bytes filed under the number, and the bytes still to be
    read are left alone.  A [File] that is refused drops its bytes and changes nothing
    else; when the sequencer counts as full is not part of this statement. *)
Theorem sequencer_store (rt : GoRuntime) (ms mb : Z) (rs : list request) :
  0 <= ms <= max_alloc -> 0 <= mb <= max_alloc -> fed rs <= 2 ^ 60 ->
  exists q0 q b ys m R S F o,
    NewSlotSequencer ms mb = Ret q0
    /\ serve_all q0 NewByteBuffer rs = Ret (q, b, ys)
    /\ store_steps (∅, []) rs ys (m, R)
    /\ b = bb S R [] F o /\ stored q S m.
Proof.
  intros Hms Hmb Hf. destruct (implements_new ms mb Hms Hmb) as (q0 & Hq & Hi & _).
  destruct (serve_all_steps rs q0 NewByteBuffer (∅, []) Hi) as (q & b & ys & [m R] & E & Hs & Hi').
  { simpl. lia. }
  destruct Hi' as (S & F & o & Hb & Hst). eexists _, _, _, _, _, _, _, _, _. eauto.
Qed.

(** Three pieces filed as 7, 3, 5 and taken in the order 3, 7, 5, 7. *)
Definition example_requests : list request :=
  let w s := Feed s in
  [w [Byte.x41; Byte.x42; Byte.x42; Byte.x43; Byte.x43; Byte.x43];
   File 1 7; File 2 3; File 3 5; Take 3; Take 7; File 1 7; Take 5; Take 7].

Lemma sequencer_store_witness :
  exists q0 q b ys m R S F o,
    NewSlotSequencer (H:=doubling_runtime) 8 64 = Ret q0
    /\ serve_all (H:=doubling_runtime) q0 NewByteBuffer example_requests = Ret (q, b, ys)
    /\ store_steps (∅, []) example_requests ys (m, R)
    /\ b = bb S R [] F o /\ stored q S m.
Proof.
  apply (sequencer_store doubling_runtime 8 64 example_requests);
    unfold max_alloc; simpl; lia.
Defined.

(** When [Push] takes a slot of the save area's end: never beyond the byte bound,
    never when the bytes live and discarded since the sequencer was last empty reach it,
    never a known number and never beyond the slot bound; otherwise always, with the
    bytes and the accounting updated.  A refusal leaves the sequencer as it was. *)
Theorem sequencer_push (rt : GoRuntime) (q : SlotSequencer) (S : list byte)
    (m : gmap Z (list byte)) (seq : Z) (bs : list byte) :
  stored q S m -> bs <> [] -> zlen bs <= 2 ^ 61 ->
  exists spent, Sum (tree (offsetter q)) = Ret spent /\
  let push := SlotSequencer_Push q seq (mkSlot (zlen S) (zlen bs)) in
  if decide (sbytes q + zlen bs > maxBytes q \/ maxBytes q <= zlen S + spent)
  then push = Ret (q, (false, Some ErrNoSpaceLeftForSlot))
  else match m !! seq with
       | Some _ => push = Ret (q, (false, None))
       | None =>
           if decide (maxSlots (container q) <= Z.of_nat (size m))
           then push = Ret (q, (false, Some ErrNoSpaceLeftForSlot))
           else (exists q', push = Ret (q', (true, None))
                   /\ stored q' (S ++ bs) (<[seq := bs]> m)
                   /\ sbytes q' = sbytes q + zlen bs)
       end.
Proof. apply Push_stored. Qed.

(** A sequencer with nothing in it, and one byte saved. *)
Definition example_sequencer : SlotSequencer :=
  mkSlotSequencer 64 0 (mkSequencedSlots 8 (Slice (replicate 8 zero_slot) 0))
    (mkSlotOffsetter (mkFenwick (replicate 64 0))).

Lemma example_stored : stored example_sequencer [] ∅.
Proof.
  destruct (implements_new (H:=doubling_runtime) 8 64) as (q & Hq & (S & F & o & Hb & Hst) & _);
    [unfold max_alloc; lia..|].
  replace S with (@nil byte) in Hst by (destruct S; [done|discriminate Hb]).
  assert (Ret q = Ret example_sequencer) as [= ->]; [|done].
  rewrite <-Hq. vm_compute. reflexivity.
Qed.

Lemma sequencer_push_witness :
  exists q', SlotSequencer_Push (H:=doubling_runtime) example_sequencer 7 (mkSlot 0 1)
      = Ret (q', (true, None))
    /\ stored q' [Byte.x41] (<[7 := [Byte.x41]]> ∅) /\ sbytes q' = 1.
Proof.
  destruct (sequencer_push doubling_runtime example_sequencer [] ∅ 7 [Byte.x41]
    example_stored) as (spent & Hsum & HP); [done|done|].
  vm_compute in Hsum. injection Hsum as <-.
  exact HP.
Defined.
