(* ===== verification/BipBuffer.v ===== *)
(** The bipartite circular buffer of [src/bip_buffer.go].

    Committed bytes lie in one region [head, tail) and, once the buffer wrapped, in a
    second one [wrappedHead, wrappedTail) at the front; a claim is a region of free space
    the caller fills.  The buffer is shown to be a queue of bytes that hands out its
    contents and its free space as contiguous slices. *)

From S2P Require Import Prelude GoSlice.

(** * Operations *)

Record BipBuffer : Type := mkBip {
  data : slice byte;
  head : Z; tail : Z;
  wrappedHead : Z; wrappedTail : Z;
  claimHead : Z; claimTail : Z
}.

Definition NewBipBuffer (n : Z) : res BipBuffer :=
  d ← make Byte.x00 n; Ret (mkBip (Slice d n) 0 0 0 0 0 0).

Definition BipBuffer_Prefault (b : BipBuffer) : BipBuffer :=
  mkBip (Slice (replicate (Z.to_nat (slen (data b))) Byte.x00 ++ zdrop (slen (data b)) (arr (data b)))
               (slen (data b)))
    (head b) (tail b) (wrappedHead b) (wrappedTail b) (claimHead b) (claimTail b).

Definition BipBuffer_Reset (b : BipBuffer) : BipBuffer := mkBip (data b) 0 0 0 0 0 0.

Definition Wrapped (b : BipBuffer) : bool := bool_decide (wrappedTail b - wrappedHead b > 0).

Definition BipBuffer_Size (b : BipBuffer) : Z := slen (data b).

(** Where [Claim] claims, and how much room there is. *)
Definition claim_place (b : BipBuffer) : Z * Z :=
  if Wrapped b then (wrappedTail b, head b - wrappedTail b)
  else
    let spaceBefore := head b in
    let spaceAfter := BipBuffer_Size b - tail b in
    if decide (spaceBefore <= spaceAfter) then (tail b, spaceAfter) else (0, spaceBefore).

(** The claimed slice, [None] for nil. *)
Definition BipBuffer_Claim (b : BipBuffer) (n : Z) : res (BipBuffer * option (slice byte)) :=
  let '(claimHead, freeSpace) := claim_place b in
  if decide (freeSpace = 0) then Ret (b, None)
  else
    let claimSize := if decide (freeSpace > n) then n else freeSpace in
    let b := mkBip (data b) (head b) (tail b) (wrappedHead b) (wrappedTail b)
               claimHead (claimHead + claimSize) in
    s ← reslice (data b) claimHead (claimHead + claimSize);
    Ret (b, Some s).

Definition Committed (b : BipBuffer) : Z :=
  tail b - head b + wrappedTail b - wrappedHead b.

Definition Claimed (b : BipBuffer) : Z := claimTail b - claimHead b.

Definition BipBuffer_Commit (b : BipBuffer) (n : Z) : res (BipBuffer * option (slice byte)) :=
  if decide (n = 0) then
    Ret (mkBip (data b) (head b) (tail b) (wrappedHead b) (wrappedTail b) 0 0, None)
  else
    let toCommit := claimTail b - claimHead b in
    let toCommit := if decide (toCommit > n) then n else toCommit in
    let '(b, h, t) :=
      if decide (Committed b = 0) then
        let h := claimHead b in
        let t := claimHead b + toCommit in
        (mkBip (data b) h t (wrappedHead b) (wrappedTail b) 0 0, h, t)
      else if decide (claimHead b = tail b) then
        let t := tail b + toCommit in
        (mkBip (data b) (head b) t (wrappedHead b) (wrappedTail b) 0 0, tail b, t)
      else
        let t := wrappedTail b + toCommit in
        (mkBip (data b) (head b) (tail b) (wrappedHead b) t 0 0, wrappedTail b, t) in
    s ← reslice (data b) h t;
    Ret (b, Some s).

Definition Head (b : BipBuffer) : res (option (slice byte)) :=
  if decide (tail b - head b > 0)
  then s ← reslice (data b) (head b) (tail b); Ret (Some s)
  else Ret None.

Definition BipBuffer_Consume (b : BipBuffer) (n : Z) : BipBuffer :=
  if decide (n >= tail b - head b)
  then mkBip (data b) (wrappedHead b) (wrappedTail b) 0 0 (claimHead b) (claimTail b)
  else mkBip (data b) (head b + n) (tail b) (wrappedHead b) (wrappedTail b)
         (claimHead b) (claimTail b).

Definition BipBuffer_Empty (b : BipBuffer) : bool :=
  bool_decide (Claimed b = 0) && bool_decide (Committed b = 0).

(** The caller writes [xs] at the front of the slice it was given by [Claim]; that
    slice shares the buffer's array. *)
Definition fill_claim (b : BipBuffer) (xs : list byte) : BipBuffer :=
  mkBip (Slice (write_at (claimHead b) xs (arr (data b))) (slen (data b)))
    (head b) (tail b) (wrappedHead b) (wrappedTail b) (claimHead b) (claimTail b).

(** * Invariant and contents *)

Definition segment (b : BipBuffer) (lo hi : Z) : list byte :=
  ztake (hi - lo) (zdrop lo (arr (data b))).

(** The queue: the first region, then the wrapped one. *)
Definition bip_queue (b : BipBuffer) : list byte :=
  segment b (head b) (tail b) ++ segment b (wrappedHead b) (wrappedTail b).

Definition bip_claimed (b : BipBuffer) : list byte := segment b (claimHead b) (claimTail b).

Record bip_inv (b : BipBuffer) : Prop := BipInv {
  bi_data : slen (data b) = scap (data b);
  bi_first : 0 <= head b <= tail b /\ tail b <= slen (data b);
  bi_second : wrappedHead b = 0
    /\ (wrappedTail b = 0 \/ 0 < wrappedTail b <= head b /\ head b < tail b);
  bi_claim : 0 <= claimHead b <= claimTail b /\ claimTail b <= slen (data b);
  (** a claim lies in free space, next to the committed bytes it will extend *)
  bi_place : claimHead b = 0 /\ claimTail b = 0
    \/ head b = tail b
    \/ wrappedTail b = 0 /\ claimHead b = tail b
    \/ claimHead b = wrappedTail b /\ claimTail b <= head b
}.

(** The room [Claim] offers. *)
Definition room (b : BipBuffer) : Z := snd (claim_place b).

Ltac bip_cases H :=
  destruct H as [?Hdata [?Hh ?Ht] [?Hwh ?Hw] [?Hc ?Hct] ?Hp];
  unfold scap in *.

Lemma bip_inv_new n b : NewBipBuffer n = Ret b -> bip_inv b /\ bip_queue b = [].
Proof.
  unfold NewBipBuffer, make. case_decide as Hn; [|done]. intros [= <-].
  split; [|done]. split; unfold scap; simpl; llia.
Qed.

Lemma Claim_spec b n :
  bip_inv b -> 0 <= n ->
  exists b' s, BipBuffer_Claim b n = Ret (b', s) /\ bip_inv b'
    /\ bip_queue b' = bip_queue b
    /\ match s with
       | None => room b = 0 /\ b' = b
       | Some s => slen s = Z.min n (room b) /\ 0 < room b /\ elems s = bip_claimed b'
                   /\ Claimed b' = slen s
       end.
Proof.
  intros Hi Hn. destruct Hi as [Hdata [Hh Ht] [Hwh Hw] [Hc Hct] Hp] eqn:E. clear E.
  unfold BipBuffer_Claim, room. destruct (claim_place b) as [ch fs] eqn:Ep. simpl.
  assert (0 <= fs /\ 0 <= ch /\ ch + fs <= slen (data b)
    /\ (head b = tail b \/ wrappedTail b = 0 /\ ch = tail b
        \/ ch = wrappedTail b /\ ch + fs <= head b)) as (Hfs & Hch & Hlen & Hpl).
  { unfold claim_place, Wrapped, BipBuffer_Size in Ep.
    case_bool_decide; [|case_decide]; injection Ep as <- <-; lia. }
  case_decide; [eexists _, None; by split_and!|].
  set (k := if decide (fs > n) then n else fs).
  assert (k = Z.min n fs) as Hk by (unfold k; case_decide; lia). clearbody k.
  rewrite reslice_ok by (simpl; lia). res_step. eexists _, (Some _). split; [done|].
  split; [|split; [done|]].
  - split; simpl; lia.
  - simpl. split_and!; [lia|lia| |unfold Claimed; simpl; lia]. done.
Qed.

(** ** Segments *)

Lemma segment_app b lo mid hi :
  0 <= lo <= mid -> mid <= hi -> segment b lo hi = segment b lo mid ++ segment b mid hi.
Proof.
  intros H1 H2. unfold segment.
  rewrite <-(take_drop (Z.to_nat (mid - lo)) (ztake (hi - lo) _)).
  rewrite take_take, skipn_firstn_comm, drop_drop. repeat (f_equal; try lia).
Qed.

Lemma segment_nil b lo hi : hi <= lo -> segment b lo hi = [].
Proof. intros H. unfold segment. apply ztake_neg. lia. Qed.

Lemma segment_take b lo hi n :
  ztake n (segment b lo hi) = segment b lo (lo + Z.min n (hi - lo)).
Proof. unfold segment. rewrite take_take. f_equal. lia. Qed.

Lemma segment_drop b lo hi n :
  0 <= lo -> 0 <= n -> zdrop n (segment b lo hi) = segment b (lo + n) hi.
Proof.
  intros H1 H2. unfold segment. rewrite skipn_firstn_comm, drop_drop. f_equal; [lia|].
  f_equal. lia.
Qed.

Lemma segment_length b lo hi :
  0 <= lo <= hi -> hi <= scap (data b) -> zlen (segment b lo hi) = hi - lo.
Proof. unfold segment, scap. intros. llia. Qed.

(** Writing inside a claim leaves what does not meet it. *)
Lemma segment_fill b xs lo hi :
  0 <= lo -> 0 <= claimHead b -> claimHead b + zlen xs <= scap (data b) ->
  hi <= lo \/ hi <= claimHead b \/ claimHead b + zlen xs <= lo ->
  segment (fill_claim b xs) lo hi = segment b lo hi.
Proof.
  intros Hlo Hc Hx Hd. unfold segment, scap in *. cbn [data fill_claim arr].
  destruct (decide (hi <= lo)); [by rewrite !ztake_neg by lia|].
  destruct (split3 (claimHead b) (claimHead b + zlen xs) (arr (data b)))
    as (a & m & c & E & Ha & Hm); [lia|lia|].
  rewrite E, (write_at_app _ xs a m c) by lia. destruct Hd as [?|[?|?]]; [lia| |]; zsimpl; [done|].
  do 2 f_equal. lia.
Qed.

Lemma fill_claimed b xs :
  0 <= claimHead b -> claimHead b + zlen xs <= claimTail b -> claimTail b <= scap (data b) ->
  bip_claimed (fill_claim b xs) = xs ++ zdrop (zlen xs) (bip_claimed b).
Proof.
  intros Hc Hx Hd. unfold bip_claimed, segment, scap in *.
  cbn [data fill_claim arr claimHead claimTail].
  destruct (split3 (claimHead b) (claimHead b + zlen xs) (arr (data b)))
    as (a & m & c & E & Ha & Hm); [lia|lia|].
  rewrite E, (write_at_app _ xs a m c) by lia. zsimpl.
  do 3 f_equal. lia.
Qed.

Lemma Fill_spec b xs :
  bip_inv b -> zlen xs <= Claimed b ->
  bip_inv (fill_claim b xs) /\ bip_queue (fill_claim b xs) = bip_queue b
  /\ bip_claimed (fill_claim b xs) = xs ++ zdrop (zlen xs) (bip_claimed b).
Proof.
  intros [Hdata [Hh Ht] [Hwh Hw] [Hc Hct] Hp] Hx. unfold Claimed in *. split_and!.
  - split; cbn [fill_claim data head tail wrappedHead wrappedTail claimHead claimTail slen];
      try done. unfold scap in *. simpl. rewrite length_write_at by lia. lia.
  - unfold bip_queue. cbn [head tail wrappedHead wrappedTail fill_claim].
    assert (zlen xs <= 0 \/ 0 < zlen xs) as [Hz|Hz] by lia.
    + destruct xs; [|simpl in Hz; lia]. rewrite !segment_fill; unfold scap in *; simpl; try lia. done.
    + rewrite !segment_fill by lia. done.
  - apply fill_claimed; lia.
Qed.

Lemma Commit_spec b n :
  bip_inv b -> 0 <= n ->
  exists b' s, BipBuffer_Commit b n = Ret (b', s) /\ bip_inv b'
    /\ bip_queue b' = bip_queue b ++ ztake n (bip_claimed b)
    /\ Claimed b' = 0
    /\ match s with None => n = 0 | Some s => elems s = ztake n (bip_claimed b) end.
Proof.
  intros [Hdata [Hh Ht] [Hwh Hw] [Hc Hct] Hp] Hn. unfold BipBuffer_Commit.
  case_decide as Hn0.
  { subst n. eexists _, None. split; [done|]. rewrite app_nil_r. split_and!; try done.
    split; simpl; try done; lia. }
  set (k := if decide (claimTail b - claimHead b > n) then n else claimTail b - claimHead b).
  assert (k = Z.min n (claimTail b - claimHead b)) as Hk by (unfold k; case_decide; lia).
  clearbody k. unfold bip_claimed. rewrite segment_take, <-Hk. unfold Committed, bip_queue.
  destruct (decide (tail b - head b + wrappedTail b - wrappedHead b = 0)) as [H0|H0];
    [|destruct (decide (claimHead b = tail b)) as [H1|H1]]; simpl;
    rewrite reslice_ok by lia; res_step; eexists _, (Some _); (split; [done|]);
    cbn [head tail wrappedHead wrappedTail].
  - split_and!; [split; simpl; lia| |done|done].
    rewrite !(segment_nil b) by lia. rewrite (segment_nil _ (wrappedHead b)) by lia.
    by rewrite app_nil_r.
  - split_and!; [split; simpl; lia| |done|by rewrite H1].
    rewrite !(segment_nil _ (wrappedHead b)) by lia. rewrite !app_nil_r, H1.
    by apply (segment_app b); lia.
  - assert (k = 0 \/ claimHead b = wrappedTail b) as Hkw by lia.
    split_and!; [split; simpl; lia| |done|].
    + rewrite <-app_assoc. change (segment _ (head b) (tail b)) with (segment b (head b) (tail b)) at 1.
      f_equal. etransitivity; [apply (segment_app b _ (wrappedTail b)); lia|]. f_equal.
      destruct Hkw as [->| ->]; [|done]. by rewrite !segment_nil by lia.
    + unfold elems. simpl. change (ztake _ _) with (segment b (wrappedTail b) (wrappedTail b + k)).
      destruct Hkw as [->| ->]; [|done]. by rewrite !segment_nil by lia.
Qed.

Lemma Consume_spec b n :
  bip_inv b -> 0 <= n ->
  bip_inv (BipBuffer_Consume b n)
  /\ bip_queue (BipBuffer_Consume b n) = zdrop (Z.min n (tail b - head b)) (bip_queue b).
Proof.
  intros [Hdata [Hh Ht] [Hwh Hw] [Hc Hct] Hp] Hn. unfold BipBuffer_Consume, bip_queue.
  pose proof (segment_length b (head b) (tail b)) as Hl. case_decide.
  - split; [split; simpl; lia|]. rewrite Z.min_r by lia.
    rewrite zdrop_app_ge by lia. rewrite zdrop_neg by lia.
    cbn [head tail wrappedHead wrappedTail]. by rewrite (segment_nil _ 0 0), app_nil_r by lia.
  - split; [split; simpl; lia|]. rewrite Z.min_l, zdrop_app_le, segment_drop by lia. done.
Qed.

Lemma Head_spec b :
  bip_inv b ->
  exists s, Head b = Ret s
    /\ match s with
       | None => bip_queue b = []
       | Some s => elems s = segment b (head b) (tail b) /\ elems s <> []
                   /\ slen s = tail b - head b /\ elems s `prefix_of` bip_queue b
       end.
Proof.
  intros [Hdata [Hh Ht] [Hwh Hw] [Hc Hct] Hp]. unfold Head, bip_queue. case_decide.
  - rewrite reslice_ok by lia. res_step. eexists. split; [done|].
    cbn beta iota.
    change (elems (Slice (zdrop (head b) (arr (data b))) (tail b - head b)))
      with (segment b (head b) (tail b)). split_and!; [done| |done|].
    + intros E. pose proof (segment_length b (head b) (tail b)) as Hl. rewrite E in Hl.
      simpl in Hl. lia.
    + by eexists.
  - eexists. split; [done|]. simpl. by rewrite !segment_nil by lia.
Qed.

(** * Runs *)

Inductive bip_op : Type :=
| BClaim (n : Z) | BFill (xs : list byte) | BCommit (n : Z) | BConsume (n : Z) | BHead.

Definition bip_apply (b : BipBuffer) (x : bip_op) : res BipBuffer :=
  match x with
  | BClaim n => '(b, _) ← BipBuffer_Claim b n; Ret b
  | BFill xs => Ret (fill_claim b xs)
  | BCommit n => '(b, _) ← BipBuffer_Commit b n; Ret b
  | BConsume n => Ret (BipBuffer_Consume b n)
  | BHead => _ ← Head b; Ret b
  end.

(** Counts are not negative, and a fill stays within the claimed slice. *)
Definition bip_op_ok (b : BipBuffer) (x : bip_op) : Prop :=
  match x with
  | BClaim n | BCommit n | BConsume n => 0 <= n
  | BFill xs => zlen xs <= Claimed b
  | BHead => True
  end.

(** The bytes a call puts into the queue and those it takes out. *)
Definition bip_in (b : BipBuffer) (x : bip_op) : list byte :=
  match x with BCommit n => ztake n (bip_claimed b) | _ => [] end.
Definition bip_out (b : BipBuffer) (x : bip_op) : list byte :=
  match x with BConsume n => ztake (Z.min n (tail b - head b)) (bip_queue b) | _ => [] end.

Fixpoint bip_run (b : BipBuffer) (xs : list bip_op) : res (BipBuffer * list byte * list byte) :=
  match xs with
  | [] => Ret (b, [], [])
  | x :: xs =>
      b' ← bip_apply b x;
      '(b'', i, o) ← bip_run b' xs;
      Ret (b'', bip_in b x ++ i, bip_out b x ++ o)
  end.

Fixpoint bip_run_ok (b : BipBuffer) (xs : list bip_op) : Prop :=
  match xs with
  | [] => True
  | x :: xs => bip_op_ok b x
      /\ match bip_apply b x with Ret b' => bip_run_ok b' xs | _ => True end
  end.

Lemma bip_apply_spec b x :
  bip_inv b -> bip_op_ok b x ->
  exists b', bip_apply b x = Ret b' /\ bip_inv b'
    /\ bip_queue b ++ bip_in b x = bip_out b x ++ bip_queue b'.
Proof.
  intros Hi Hx. destruct x as [n|xs|n|n|]; cbn [bip_apply bip_in bip_out bip_op_ok] in *.
  - destruct (Claim_spec b n Hi Hx) as (b' & s & -> & ? & Hq & _). rewrite <-Hq. exists b'.
    by rewrite app_nil_r.
  - destruct (Fill_spec b xs Hi Hx) as (? & Hq & _). eexists. split_and!; [done..|].
    by rewrite Hq, app_nil_r.
  - destruct (Commit_spec b n Hi Hx) as (b' & s & -> & ? & Hq & _). exists b'. by split_and!.
  - destruct (Consume_spec b n Hi Hx) as [? Hq]. eexists. split_and!; [done..|].
    by rewrite Hq, ztake_zdrop, app_nil_r.
  - destruct (Head_spec b Hi) as (s & -> & _). exists b. by rewrite app_nil_r.
Qed.

Lemma bip_run_spec xs b :
  bip_inv b -> bip_run_ok b xs ->
  exists b' i o, bip_run b xs = Ret (b', i, o) /\ bip_inv b'
    /\ bip_queue b ++ i = o ++ bip_queue b'.
Proof.
  revert b. induction xs as [|x xs IH]; intros b Hi Hok.
  { exists b, [], []. split_and!; [done..|]. by rewrite app_nil_r. }
  destruct Hok as [Hx Hok]. destruct (bip_apply_spec b x Hi Hx) as (b1 & E & Hi1 & Hq).
  rewrite E in Hok. destruct (IH b1 Hi1 Hok) as (b' & i & o & E' & Hi' & Hq').
  cbn [bip_run]. rewrite E. res_step. rewrite E'. res_step.
  eexists _, _, _. split_and!; [done..|]. by rewrite app_assoc, Hq, <-!app_assoc, Hq'.
Qed.

(** * Properties *)

(** C24: every run of claims, fills, commits, consumes and heads on a new bip buffer
    returns, and the buffer is a queue: the bytes committed, in order, are the bytes
    consumed followed by the bytes still in the buffer.  Claims never overlap committed
    bytes, also when consumes come between a claim and its commit. *)
Theorem bip_fifo (n : Z) (xs : list bip_op) (b : BipBuffer) :
  NewBipBuffer n = Ret b -> bip_run_ok b xs ->
  exists b' i o, bip_run b xs = Ret (b', i, o) /\ bip_inv b' /\ i = o ++ bip_queue b'.
Proof.
  intros (Hi & Hq)%bip_inv_new Hok.
  destruct (bip_run_spec xs b Hi Hok) as (b' & i & o & E & Hi' & Hs). rewrite Hq in Hs. eauto 10.
Qed.

Definition example_bip : list bip_op :=
  [BClaim 6; BFill [Byte.x01; Byte.x02; Byte.x03; Byte.x04; Byte.x05; Byte.x06]; BCommit 6;
   BHead; BConsume 4; BClaim 3; BFill [Byte.x07; Byte.x08; Byte.x09]; BConsume 9; BCommit 3;
   BConsume 1].

Lemma bip_fifo_witness :
  exists b b' i o, NewBipBuffer 8 = Ret b /\ bip_run b example_bip = Ret (b', i, o)
    /\ bip_inv b' /\ i = o ++ bip_queue b'.
Proof.
  eexists. edestruct (bip_fifo 8 example_bip) as (b' & i & o & H); [reflexivity| |].
  - vm_compute. by split_and!.
  - eexists b', i, o. split; [reflexivity|]. exact H.
Defined.

(** [Claim] returns a contiguous slice of the size asked for, up to the room at the
    larger free end of the buffer, and nil only when there is no room there; [Commit]
    returns the bytes it commits, a prefix of the claim; [Head] returns a non-empty
    contiguous prefix of the queue, or nil exactly when the queue is empty. *)
Theorem bip_slices (b : BipBuffer) (n : Z) :
  bip_inv b -> 0 <= n ->
  (exists b' s, BipBuffer_Claim b n = Ret (b', s) /\ bip_queue b' = bip_queue b
     /\ match s with
        | None => room b = 0 /\ b' = b
        | Some s => slen s = Z.min n (room b) /\ 0 < room b /\ elems s = bip_claimed b'
        end)
  /\ (exists b' s, BipBuffer_Commit b n = Ret (b', s)
        /\ bip_queue b' = bip_queue b ++ ztake n (bip_claimed b)
        /\ match s with None => n = 0 | Some s => elems s = ztake n (bip_claimed b) end)
  /\ (exists s, Head b = Ret s
        /\ match s with
           | None => bip_queue b = []
           | Some s => elems s <> [] /\ elems s `prefix_of` bip_queue b
           end).
Proof.
  intros Hi Hn. split_and!.
  - destruct (Claim_spec b n Hi Hn) as (b' & s & ? & ? & ? & Hs). exists b', s.
    split_and!; [done..|]. destruct s; [|done]. by destruct Hs as (? & ? & ? & _).
  - destruct (Commit_spec b n Hi Hn) as (b' & s & ? & ? & ? & ? & Hs). by exists b', s.
  - destruct (Head_spec b Hi) as (s & ? & Hs). exists s. split; [done|].
    destruct s; [|done]. by destruct Hs as (_ & ? & _ & ?).
Qed.

(** A wrapped buffer: [5; 6] at the end, [1; 2] at the front. *)
Definition example_bip_state : BipBuffer :=
  mkBip (Slice [Byte.x01; Byte.x02; Byte.x00; Byte.x00; Byte.x05; Byte.x06] 6) 4 6 0 2 0 0.

Lemma bip_slices_witness :
  exists s, Head example_bip_state = Ret s
    /\ match s with
       | None => bip_queue example_bip_state = []
       | Some s => elems s <> [] /\ elems s `prefix_of` bip_queue example_bip_state
       end.
Proof.
  apply (bip_slices example_bip_state 3); [|lia]. split; unfold scap; simpl; lia.
Defined.
