(* ===== verification/MirroredBuffer.v ===== *)
(** The mirrored circular buffer of [src/bytes/mirrored_buffer.go].

    A file of [size] bytes is mapped twice in a row, so a region that runs over the end
    of the first mapping continues at the start of the file.  The model keeps the file's
    bytes [mem]; the buffer's slice is [mem ++ mem], and a store through the slice goes to
    the file.  A slice of it that the caller holds, as [Claim] returns it, is a [window]:
    contents and place, and a store through it goes to that place.  The system calls of the
    constructor are parameters. *)

From S2P Require Import Prelude GoSlice.

(** * The mapping *)

(** The process sees the file twice. *)
Definition mirror (mem : list byte) : list byte := mem ++ mem.

(** A store of [xs] at offset [p] of the first mapping, wrapping around. *)
Definition mirror_write (mem : list byte) (p : Z) (xs : list byte) : list byte :=
  let k := zlen mem - p in
  write_at 0 (zdrop k xs) (write_at p (ztake k xs) mem).

(** * Operations *)

Record MirroredBuffer : Type := mkMirrored {
  mem : option (list byte);  (** [None] once unmapped *)
  size : Z;
  sizeMask : Z;
  head : Z;
  tail : Z;
  used : Z
}.

Definition mslice (b : MirroredBuffer) : slice byte :=
  match mem b with
  | Some m => Slice (mirror m) (2 * zlen m)
  | None => nil_slice
  end.

(** Results of the system calls the constructor makes. *)
Record MmapEnv : Type := mkMmapEnv {
  Getpagesize : Z;
  shm_missing : bool;                    (** [os.Stat] finds no [/dev/shm] *)
  CreateTemp : bool -> option error;     (** in [/dev/shm] or in the default directory *)
  Truncate : Z -> option error;
  mmapAnon : Z -> bool -> Z + error;     (** the address of an anonymous mapping *)
  mmapFixed : Z -> Z -> Z + error;       (** mapping the file at an address; its address *)
  Munmap : option error;
  Remove : option error;
  CloseFile : option error
}.

(** What the process holds: the anonymous mapping, the temporary file and its descriptor. *)
Record resources : Type := mkResources { mapped : bool; file_there : bool; file_open : bool }.

(** What the constructor returns and leaves behind. *)
Record New_result : Type := mkNew {
  new_b : option MirroredBuffer;
  new_err : option error;
  left_behind : resources
}.

Definition Destroy (env : MmapEnv) (b : MirroredBuffer) : MirroredBuffer * option error :=
  match mem b with
  | None => (b, None)
  | Some _ =>
      match Munmap env with
      | None => (mkMirrored None (size b) (sizeMask b) (head b) (tail b) (used b), None)
      | Some _ => (b, None)
      end
  end.

(** The first deferred function: [if err != nil && b != nil { _ = b.Destroy() }]. *)
Definition deferred (env : MmapEnv) (r : New_result) : New_result :=
  match new_b r, new_err r with
  | Some b, Some _ =>
      let '(b', _) := Destroy env b in
      mkNew (new_b r) (new_err r)
        (mkResources (bool_decide (mem b' <> None)) (file_there (left_behind r)) (file_open (left_behind r)))
  | _, _ => r
  end.

(** The second: [_ = os.Remove(file.Name()); _ = file.Close()]. *)
Definition deferred_file (env : MmapEnv) (r : New_result) : New_result :=
  mkNew (new_b r) (new_err r)
    (mkResources (mapped (left_behind r))
       (match Remove env with None => false | Some _ => file_there (left_behind r) end)
       (match CloseFile env with None => false | Some _ => file_open (left_behind r) end)).

Definition round_size (env : MmapEnv) (size : Z) : Z :=
  let remainder := Z.rem size (Getpagesize env) in
  if decide (remainder > 0) then i64 (size + (Getpagesize env - remainder)) else size.

(** [mmapAllocate]: [syscall.Mmap] refuses a length that is not positive. *)
Definition mmapAllocate (env : MmapEnv) (size : Z) (prefault : bool) : Z + error :=
  if decide (size <= 0) then inr (ErrOther 22) else mmapAnon env size prefault.

Definition remap (env : MmapEnv) (size baseAddr : Z) : option error :=
  if decide (baseAddr = 0) then Some (ErrOther (-5))
  else match mmapFixed env baseAddr size with
       | inr errno => Some errno
       | inl addr => if decide (addr <> baseAddr) then Some (ErrOther (-6)) else None
       end.

(** Every failure is [return nil, err]; the named result [b] is nil from then on.  Deferred
    functions run in the reverse order, the second one only once it has been deferred. *)
Definition NewMirroredBuffer (env : MmapEnv) (size0 : Z) (prefault : bool) : New_result :=
  let size := round_size env size0 in
  let leave r := deferred env (deferred_file env r) in
  let fail err m := leave (mkNew None (Some err) (mkResources m true true)) in
  if decide (size <= 0)
  then deferred env (mkNew None (Some (ErrOther (-4))) (mkResources false false false))
  else match CreateTemp env (negb (shm_missing env)) with
  | Some err => deferred env (mkNew None (Some err) (mkResources false false false))
  | None =>
  match Truncate env size with
  | Some err => fail err false
  | None =>
  match mmapAllocate env (i64 (2 * size)) prefault with
  | inr err => fail err false
  | inl firstAddr =>
  let secondAddr := firstAddr + size in
  if decide (i64 (i64 secondAddr - i64 firstAddr) <> size) then fail (ErrOther (-7)) true
  else match remap env size firstAddr with
  | Some err => fail err true
  | None =>
  match remap env size secondAddr with
  | Some err => fail err true
  | None =>
      leave (mkNew (Some (mkMirrored (Some (replicate (Z.to_nat size) Byte.x00)) size (size - 1) 0 0 0))
               None (mkResources true true true))
  end end end end end.

Definition set_mem (b : MirroredBuffer) (m : option (list byte)) : MirroredBuffer :=
  mkMirrored m (size b) (sizeMask b) (head b) (tail b) (used b).

Definition MirroredBuffer_Prefault (b : MirroredBuffer) : MirroredBuffer :=
  set_mem b ((fun m => replicate (length m) Byte.x00) <$> mem b).

Definition FreeSpace (b : MirroredBuffer) : Z := size b - used b.
Definition UsedSpace (b : MirroredBuffer) : Z := used b.

(** A slice of the mapping, by the offset it starts at. *)
Record window : Type := mkWindow { place : Z; win : slice byte }.

Definition window_slice (w : window) (lo hi : Z) : res window :=
  s ← reslice (win w) lo hi; Ret (mkWindow (place w + lo) s).

Definition MirroredBuffer_Claim (b : MirroredBuffer) (n : Z) : res (option window) :=
  let n := if decide (n > FreeSpace b) then FreeSpace b else n in
  if decide (n = 0) then Ret None
  else
    claim ← window_slice (mkWindow 0 (mslice b)) (tail b) (slen (mslice b));
    claim ← window_slice claim 0 n;
    Ret (Some claim).

Definition MirroredBuffer_Commit (b : MirroredBuffer) (n : Z) : MirroredBuffer * Z :=
  let n := if decide (n > FreeSpace b) then FreeSpace b else n in
  (mkMirrored (mem b) (size b) (sizeMask b) (head b)
     (Z.land (i64 (tail b + n)) (sizeMask b)) (i64 (used b + n)), n).

Definition MirroredBuffer_Consume (b : MirroredBuffer) (n : Z) : MirroredBuffer * Z :=
  let n := if decide (n > UsedSpace b) then UsedSpace b else n in
  if decide (n = 0) then (b, 0)
  else (mkMirrored (mem b) (size b) (sizeMask b) (Z.land (i64 (head b + n)) (sizeMask b))
          (tail b) (i64 (used b - n)), n).

Definition Full (b : MirroredBuffer) : bool := bool_decide (used b = size b).
Definition MirroredBuffer_Size (b : MirroredBuffer) : Z := size b.

Definition MirroredBuffer_Reset (b : MirroredBuffer) : MirroredBuffer :=
  mkMirrored (mem b) (size b) (sizeMask b) 0 0 0.

(** The caller copies [xs] into a slice it holds: the bytes that fit, at its place. *)
Definition store (b : MirroredBuffer) (w : window) (xs : list byte) : MirroredBuffer :=
  set_mem b ((fun m => mirror_write m (place w mod zlen m) (ztake (slen (win w)) xs)) <$> mem b).

(** * Rings *)

(** [n] bytes from offset [p] on, as the double mapping shows them. *)
Definition ring (m : list byte) (p n : Z) : list byte := ztake n (zdrop p (mirror m)).

Lemma ring_length m p n : 0 <= p <= zlen m -> 0 <= n <= zlen m -> zlen (ring m p n) = n.
Proof. intros. unfold ring, mirror. llia. Qed.

Lemma ring_app m p a b :
  0 <= p < zlen m -> 0 <= a -> 0 <= b -> a + b <= zlen m ->
  ring m p (a + b) = ring m p a ++ ring m ((p + a) mod zlen m) b.
Proof.
  intros Hp Ha Hb Hab. unfold ring, mirror.
  rewrite <-(take_drop (Z.to_nat a) (ztake (a + b) _)).
  rewrite take_take, skipn_firstn_comm, drop_drop. f_equal; [f_equal; lia|].
  replace (Z.to_nat (a + b) - Z.to_nat a)%nat with (Z.to_nat b) by lia.
  replace (Z.to_nat p + Z.to_nat a)%nat with (Z.to_nat (p + a)) by lia.
  destruct (decide (p + a < zlen m)).
  - by rewrite Z.mod_small by lia.
  - replace ((p + a) mod zlen m) with (p + a - zlen m).
    2: { rewrite <-(Z_mod_plus_full (p + a) (-1)). rewrite Z.mod_small; lia. }
    by zsimpl.
Qed.

(** A store either stays within the file or goes on at its start. *)
Lemma mirror_write_cases m p xs :
  0 <= p < zlen m -> zlen xs <= zlen m ->
  (exists a y c, m = a ++ y ++ c /\ zlen a = p /\ length y = length xs
     /\ mirror_write m p xs = a ++ xs ++ c)
  \/ (exists y2 c y1 x1 x2, m = y2 ++ c ++ y1 /\ xs = x1 ++ x2 /\ zlen (y2 ++ c) = p
        /\ length y1 = length x1 /\ length y2 = length x2 /\ x2 <> []
        /\ mirror_write m p xs = x2 ++ c ++ x1).
Proof.
  intros Hp Hx. unfold mirror_write. destruct (decide (zlen xs <= zlen m - p)).
  - left. destruct (split3 p (p + zlen xs) m) as (a & y & c & -> & Ha & Hy); [lia|lia|].
    exists a, y, c. split_and!; [done|done|lia|].
    rewrite zdrop_all, ztake_all by lia. rewrite (write_at_app p xs a y c) by lia.
    unfold write_at. simpl. done.
  - right. remember (zlen m - p) as k eqn:Hk.
    destruct (split3 (zlen xs - k) p m) as (y2 & c & y1 & -> & H1 & H2); [lia|lia|].
    exists y2, c, y1, (ztake k xs), (zdrop k xs).
    split_and!; [done|by rewrite take_drop|llia|llia|llia| |].
    + intros E. assert (zlen (zdrop k xs) = 0) by (by rewrite E). llia.
    + rewrite <-(app_nil_r y1), !app_assoc, <-app_assoc.
      rewrite (write_at_app p (ztake k xs) (y2 ++ c) y1 []) by llia.
      rewrite <-!app_assoc, app_nil_r.
      apply (write_at_app 0 (zdrop k xs) [] y2 (c ++ ztake k xs)); llia.
Qed.

(** A store shows where it was made and nowhere else. *)
Lemma ring_write_same m p xs :
  0 <= p < zlen m -> zlen xs <= zlen m -> ring (mirror_write m p xs) p (zlen xs) = xs.
Proof.
  intros Hp Hx. unfold ring, mirror.
  destruct (mirror_write_cases m p xs Hp Hx) as [(a & y & c & -> & Ha & Hy & ->)|
    (y2 & c & y1 & x1 & x2 & -> & -> & Hpc & H1 & H2 & Hne & ->)].
  - rewrite <-!app_assoc. by zsimpl.
  - rewrite <-!app_assoc. rewrite length_app in Hpc. by zsimpl.
Qed.

Lemma length_mirror_write m p xs :
  0 <= p < zlen m -> zlen xs <= zlen m -> length (mirror_write m p xs) = length m.
Proof.
  intros Hp Hx. destruct (mirror_write_cases m p xs Hp Hx) as [(a & y & c & -> & Ha & Hy & ->)|
    (y2 & c & y1 & x1 & x2 & -> & -> & Hpc & H1 & H2 & Hne & ->)]; llia.
Qed.

Lemma ring_write_after m p xs :
  0 <= p < zlen m -> zlen xs <= zlen m ->
  ring (mirror_write m p xs) ((p + zlen xs) mod zlen m) (zlen m - zlen xs)
  = ring m ((p + zlen xs) mod zlen m) (zlen m - zlen xs).
Proof.
  intros Hp Hx. unfold ring, mirror.
  destruct (mirror_write_cases m p xs Hp Hx) as [(a & y & c & -> & Ha & Hy & ->)|
    (y2 & c & y1 & x1 & x2 & -> & -> & Hpc & H1 & H2 & Hne & ->)].
  - destruct c as [|z c].
    + rewrite app_nil_r in *. replace (p + zlen xs) with (zlen (a ++ y)) by llia.
      rewrite Z.mod_same by llia. rewrite <-!app_assoc. by zsimpl.
    + set (c' := z :: c) in *. assert (0 < zlen c') by (subst c'; simpl; lia).
      rewrite Z.mod_small by llia. rewrite <-!app_assoc. by zsimpl.
  - replace ((p + zlen (x1 ++ x2)) mod zlen (y2 ++ c ++ y1)) with (zlen x2).
    2: { rewrite <-(Z_mod_plus_full _ (-1)). rewrite Z.mod_small; llia. }
    rewrite <-!app_assoc. by zsimpl.
Qed.

(** * The queue *)

(** A mapped buffer whose size is a power of two. *)
Record mir_inv (b : MirroredBuffer) (m : list byte) : Prop := MirInv {
  mi_mem : mem b = Some m;
  mi_len : zlen m = size b;
  mi_pow : exists k, 0 <= k <= 60 /\ size b = 2 ^ k;
  mi_mask : sizeMask b = size b - 1;
  mi_head : 0 <= head b < size b;
  mi_used : 0 <= used b <= size b;
  mi_tail : tail b = (head b + used b) mod size b
}.

Definition readable (b : MirroredBuffer) : list byte :=
  match mem b with Some m => ring m (head b) (used b) | None => [] end.

(** What [Claim] shows of the first [n] free bytes. *)
Definition claimable (b : MirroredBuffer) (n : Z) : list byte :=
  match mem b with Some m => ring m (tail b) (Z.min n (FreeSpace b)) | None => [] end.

(** [x & sizeMask] is [x mod size] for a power of two. *)
Lemma mask_mod b m x :
  mir_inv b m -> 0 <= x <= 2 * size b -> Z.land (i64 x) (sizeMask b) = x mod size b.
Proof.
  intros I Hx. destruct (mi_pow _ _ I) as (k & Hk & Hs).
  assert (2 ^ k <= 2 ^ 60) by (apply Z.pow_le_mono_r; lia).
  rewrite i64_small by (unfold is_int; lia).
  rewrite (mi_mask _ _ I), Hs, Z.sub_1_r, <-Z.ones_equiv. apply Z.land_ones. lia.
Qed.

Lemma mir_small b m : mir_inv b m -> 0 < size b <= 2 ^ 60.
Proof.
  intros I. destruct (mi_pow _ _ I) as (k & Hk & ->).
  split; [apply Z.pow_pos_nonneg; lia|apply Z.pow_le_mono_r; lia].
Qed.

Lemma mir_tail b m : mir_inv b m -> 0 <= tail b < size b.
Proof.
  intros I. rewrite (mi_tail _ _ I). apply Z.mod_pos_bound. apply mir_small in I. lia.
Qed.

(** [Claim] gives the free bytes from the tail on, as many as asked for if there are. *)
Lemma mirrored_Claim b m n :
  mir_inv b m -> 0 <= n ->
  exists o, MirroredBuffer_Claim b n = Ret o
    /\ match o with
       | None => Z.min n (FreeSpace b) = 0
       | Some w => place w = tail b /\ slen (win w) = Z.min n (FreeSpace b)
                   /\ elems (win w) = claimable b n
       end.
Proof.
  intros I Hn. pose proof (mir_tail _ _ I). pose proof (mi_used _ _ I). pose proof (mi_len _ _ I).
  unfold MirroredBuffer_Claim, claimable. replace (if decide _ then _ else _)
    with (Z.min n (FreeSpace b)) by (unfold FreeSpace; case_decide; lia).
  case_decide; [by eexists|]. unfold window_slice, mslice, FreeSpace in *.
  rewrite (mi_mem _ _ I). cbn [slen win].
  rewrite reslice_ok by (unfold scap, mirror; simpl; llia). res_step. cbn [win place].
  rewrite reslice_0 by (unfold scap, mirror; simpl; llia). res_step. eexists. split; [done|].
  split_and!; simpl; [lia|done|done].
Qed.

(** Storing in the free space from the tail on. *)
Definition fill (b : MirroredBuffer) (xs : list byte) : MirroredBuffer :=
  set_mem b ((fun m => mirror_write m (tail b) xs) <$> mem b).

Lemma store_fill b m w xs :
  mir_inv b m -> place w = tail b -> zlen xs <= slen (win w) -> store b w xs = fill b xs.
Proof.
  intros I Hw Hl. pose proof (mir_tail _ _ I). unfold store, fill. rewrite (mi_mem _ _ I). simpl.
  by rewrite Hw, (mi_len _ _ I), Z.mod_small, ztake_all by lia.
Qed.

Lemma mirrored_fill b m xs :
  mir_inv b m -> zlen xs <= FreeSpace b ->
  exists m', mir_inv (fill b xs) m' /\ readable (fill b xs) = readable b
    /\ claimable (fill b xs) (zlen xs) = xs.
Proof.
  intros I Hx. pose proof (mir_tail _ _ I) as Ht. pose proof (mi_used _ _ I) as Hu.
  pose proof (mi_len _ _ I) as Hl. pose proof (mi_head _ _ I) as Hh. pose proof (mir_small _ _ I).
  unfold FreeSpace in Hx. exists (mirror_write m (tail b) xs).
  pose proof (length_mirror_write m (tail b) xs ltac:(lia) ltac:(lia)) as Hl'.
  split; [|split].
  - destruct I. split; unfold fill, set_mem; cbn [mem size sizeMask head tail used]; try done.
    + by rewrite mi_mem0.
    + lia.
  - unfold readable, fill, set_mem; cbn [mem size sizeMask head tail used].
    rewrite (mi_mem _ _ I). simpl.
    pose proof (ring_write_after m (tail b) xs ltac:(lia) ltac:(lia)) as Hr.
    set (q := (tail b + zlen xs) mod zlen m) in *.
    assert (0 <= q < zlen m) by (apply Z.mod_pos_bound; lia).
    replace (zlen m - zlen xs) with ((size b - used b - zlen xs) + used b) in Hr by lia.
    rewrite !ring_app in Hr by lia.
    assert ((q + (size b - used b - zlen xs)) mod zlen m = head b) as Hq.
    { subst q. rewrite Hl, Zplus_mod_idemp_l, (mi_tail _ _ I).
      replace ((head b + used b) mod size b + zlen xs + (size b - used b - zlen xs))
        with ((head b + used b) mod size b + (size b - used b)) by lia.
      rewrite Zplus_mod_idemp_l. replace (head b + used b + (size b - used b))
        with (head b + 1 * size b) by lia. rewrite Z_mod_plus_full. apply Z.mod_small. lia. }
    rewrite Hl', Hq in Hr. apply app_inj_1 in Hr as [_ Hr]; [done|].
    apply Nat2Z.inj. rewrite !ring_length by lia. done.
  - unfold claimable, fill, set_mem, FreeSpace; cbn [mem size sizeMask head tail used].
    rewrite (mi_mem _ _ I). simpl. rewrite Z.min_l by lia. apply ring_write_same; lia.
Qed.

Lemma mirrored_Commit b m n :
  mir_inv b m -> 0 <= n ->
  let '(b', k) := MirroredBuffer_Commit b n in
  mir_inv b' m /\ k = Z.min n (FreeSpace b) /\ readable b' = readable b ++ claimable b n.
Proof.
  intros I Hn. pose proof (mir_tail _ _ I) as Ht. pose proof (mi_used _ _ I) as Hu.
  pose proof (mi_len _ _ I) as Hl. pose proof (mi_head _ _ I) as Hh. pose proof (mir_small _ _ I).
  unfold MirroredBuffer_Commit, claimable, FreeSpace.
  replace (if decide _ then _ else _) with (Z.min n (size b - used b)) by (case_decide; lia).
  set (k := Z.min n (size b - used b)). assert (0 <= k <= size b - used b) by lia. clearbody k.
  rewrite (mask_mod b m), (i64_small (used b + k)) by (done || unfold is_int; lia).
  split; [|split; [done|]].
  - destruct I. split; cbn [mem size sizeMask head tail used]; try done; [lia|].
    rewrite mi_tail0, Zplus_mod_idemp_l. f_equal. lia.
  - unfold readable. cbn [mem head used]. rewrite (mi_mem _ _ I).
    rewrite ring_app by lia. by rewrite Hl, <-(mi_tail _ _ I).
Qed.

Lemma mirrored_Consume b m n :
  mir_inv b m -> 0 <= n ->
  let '(b', k) := MirroredBuffer_Consume b n in
  mir_inv b' m /\ k = Z.min n (used b) /\ readable b' = zdrop n (readable b).
Proof.
  intros I Hn. pose proof (mir_tail _ _ I) as Ht. pose proof (mi_used _ _ I) as Hu.
  pose proof (mi_len _ _ I) as Hl. pose proof (mi_head _ _ I) as Hh. pose proof (mir_small _ _ I).
  unfold MirroredBuffer_Consume, UsedSpace.
  replace (if decide (n > used b) then used b else n) with (Z.min n (used b)) by (case_decide; lia).
  assert (zlen (readable b) = used b) as Hr.
  { unfold readable. rewrite (mi_mem _ _ I). apply ring_length; lia. }
  set (k := Z.min n (used b)).
  assert (zdrop n (readable b) = zdrop k (readable b)) as ->.
  { subst k. destruct (decide (n <= used b)); [by rewrite Z.min_l by lia|].
    by rewrite !zdrop_all by lia. }
  assert (0 <= k <= used b) by lia. clearbody k. case_decide as Hk.
  { subst k. split_and!; done. }
  rewrite (mask_mod b m), (i64_small (used b - k)) by (done || unfold is_int; lia).
  split; [|split; [done|]].
  - destruct I. split; cbn [mem size sizeMask head tail used]; try done; [|lia|].
    + apply Z.mod_pos_bound. lia.
    + rewrite Zplus_mod_idemp_l. rewrite mi_tail0. f_equal. lia.
  - unfold readable in *. cbn [mem head used]. rewrite (mi_mem _ _ I) in *.
    replace (used b) with (k + (used b - k)) at 2 by lia.
    rewrite ring_app by lia. rewrite zdrop_app_ge by (rewrite ring_length; lia).
    rewrite zdrop_neg by (rewrite ring_length; lia). by rewrite Hl.
Qed.

(** * Runs *)

Inductive mir_op : Type :=
| MClaim (n : Z) | MFill (xs : list byte) | MCommit (n : Z) | MConsume (n : Z).

(** A buffer in use: the slice the caller got from the last [Claim], until the next
    [Commit], and what it has stored at its front. *)
Record mir_state : Type := mkMirState {
  buf : MirroredBuffer;
  claim : option window;
  stored : list byte
}.

Definition mir_apply (s : mir_state) (x : mir_op) : res mir_state :=
  match x with
  | MClaim n => w ← MirroredBuffer_Claim (buf s) n; Ret (mkMirState (buf s) w [])
  | MFill xs =>
      Ret (match claim s with
           | Some w => mkMirState (store (buf s) w xs) (claim s) (xs ++ zdrop (zlen xs) (stored s))
           | None => s
           end)
  | MCommit n => Ret (mkMirState (fst (MirroredBuffer_Commit (buf s) n)) None [])
  | MConsume n => Ret (mkMirState (fst (MirroredBuffer_Consume (buf s) n)) (claim s) (stored s))
  end.

(** The caller stores no more than it claimed and commits no more than it stored. *)
Definition mir_op_ok (s : mir_state) (x : mir_op) : Prop :=
  match x with
  | MClaim n | MConsume n => 0 <= n
  | MFill xs => match claim s with Some w => zlen xs <= slen (win w) | None => xs = [] end
  | MCommit n => 0 <= n <= zlen (stored s)
  end.

Definition mir_in (s : mir_state) (x : mir_op) : list byte :=
  match x with MCommit n => ztake n (stored s) | _ => [] end.
Definition mir_out (s : mir_state) (x : mir_op) : list byte :=
  match x with MConsume n => ztake n (readable (buf s)) | _ => [] end.

Fixpoint mir_run (s : mir_state) (xs : list mir_op) : res (mir_state * list byte * list byte) :=
  match xs with
  | [] => Ret (s, [], [])
  | x :: xs =>
      s' ← mir_apply s x;
      '(s'', i, o) ← mir_run s' xs;
      Ret (s'', mir_in s x ++ i, mir_out s x ++ o)
  end.

Fixpoint mir_run_ok (s : mir_state) (xs : list mir_op) : Prop :=
  match xs with
  | [] => True
  | x :: xs => mir_op_ok s x
      /\ match mir_apply s x with Ret s' => mir_run_ok s' xs | _ => True end
  end.

(** The claim the caller holds is free space, and what it stored is there. *)
Record run_inv (s : mir_state) (m : list byte) : Prop := RunInv {
  ru_mir : mir_inv (buf s) m;
  ru_claim : forall w, claim s = Some w ->
    place w = tail (buf s) /\ slen (win w) <= FreeSpace (buf s) /\ zlen (stored s) <= slen (win w);
  ru_none : claim s = None -> stored s = [];
  ru_stored : claimable (buf s) (zlen (stored s)) = stored s
}.

Lemma ru_free s m : run_inv s m -> zlen (stored s) <= FreeSpace (buf s).
Proof.
  intros I. pose proof (mi_used _ _ (ru_mir _ _ I)). destruct (claim s) as [w|] eqn:E.
  - destruct (ru_claim _ _ I w E) as (_ & ? & ?). lia.
  - rewrite (ru_none _ _ I E). unfold FreeSpace. simpl. lia.
Qed.

(** A shorter claim shows a prefix. *)
Lemma claimable_take b m n k :
  mir_inv b m -> 0 <= k <= n -> n <= FreeSpace b -> claimable b k = ztake k (claimable b n).
Proof.
  intros I Hk Hn. unfold claimable. rewrite (mi_mem _ _ I), !Z.min_l by lia.
  unfold ring. rewrite take_take. f_equal. lia.
Qed.

Lemma claimable_zero b : claimable b 0 = [].
Proof.
  unfold claimable. destruct (mem b); [|done]. unfold ring. apply ztake_neg. lia.
Qed.

(** Storing again at the front keeps what lies behind. *)
Lemma claimable_fill b m xs ys :
  mir_inv b m -> zlen xs <= FreeSpace b -> zlen ys <= FreeSpace b -> claimable b (zlen ys) = ys ->
  claimable (fill b xs) (zlen (xs ++ zdrop (zlen xs) ys)) = xs ++ zdrop (zlen xs) ys.
Proof.
  intros I Hx Hy Hc. pose proof (mir_tail _ _ I) as Ht. pose proof (mi_used _ _ I) as Hu.
  pose proof (mi_len _ _ I) as Hl. destruct (mirrored_fill b m xs I Hx) as (m' & I' & _ & Hf).
  unfold FreeSpace in *. pose proof (mi_len _ _ I') as Hl'. rewrite length_app.
  unfold claimable in *. rewrite (mi_mem _ _ I') in *. rewrite (mi_mem _ _ I) in Hc.
  change (tail (fill b xs)) with (tail b) in *. unfold FreeSpace in *.
  change (size (fill b xs)) with (size b) in *. change (used (fill b xs)) with (used b) in *.
  assert (m' = mirror_write m (tail b) xs) as ->.
  { pose proof (mi_mem _ _ I') as E. unfold fill, set_mem in E. rewrite (mi_mem _ _ I) in E.
    simpl in E. by injection E as <-. }
  rewrite Z.min_l in * by llia. rewrite Nat2Z.inj_add, ring_app by llia. f_equal; [done|].
  rewrite Hl'. rewrite length_drop.
  destruct (decide (zlen ys <= zlen xs)).
  { rewrite zdrop_all by lia. unfold ring. apply ztake_neg. lia. }
  pose proof (ring_write_after m (tail b) xs ltac:(lia) ltac:(lia)) as Hr. rewrite Hl in Hr.
  set (k := Z.of_nat (length ys - Z.to_nat (zlen xs))).
  set (q := (tail b + zlen xs) mod size b) in *.
  assert (0 <= q < size b) by (apply Z.mod_pos_bound; lia).
  assert (forall m0, zlen m0 = size b -> ring m0 q k = ztake k (ring m0 q (size b - zlen xs))) as Hk.
  { intros m0 _. unfold ring. rewrite take_take. f_equal. lia. }
  rewrite Hk, Hr, <-Hk by lia.
  rewrite <-Hc at 1. replace (zlen ys) with (zlen xs + k) by lia. rewrite ring_app by lia.
  rewrite zdrop_app_ge, zdrop_neg by (rewrite ring_length; lia). by rewrite Hl.
Qed.

Lemma mir_apply_spec s m x :
  run_inv s m -> mir_op_ok s x ->
  exists s' m', mir_apply s x = Ret s' /\ run_inv s' m'
    /\ readable (buf s) ++ mir_in s x = mir_out s x ++ readable (buf s').
Proof.
  intros R Hx. pose proof (ru_mir _ _ R) as I. pose proof (ru_free _ _ R) as Hfree.
  destruct x as [n|xs|n|n]; cbn [mir_apply mir_in mir_out mir_op_ok] in *.
  - destruct (mirrored_Claim (buf s) m n I Hx) as (o & -> & Ho). res_step. eexists _, m.
    split; [done|]. rewrite app_nil_r. split; [|done].
    pose proof (mi_used _ _ I). split; cbn [buf claim stored]; [done| |done|apply claimable_zero].
    intros w ->. destruct Ho as (? & -> & _). unfold FreeSpace in *. simpl. lia.
  - destruct (claim s) as [w|] eqn:E.
    2: { exists s, m. by rewrite app_nil_r. }
    destruct (ru_claim _ _ R w E) as (Hp & Hl & Hs). rewrite (store_fill _ _ _ _ I Hp Hx).
    destruct (mirrored_fill (buf s) m xs I ltac:(lia)) as (m' & I' & Hr & _). eexists _, m'.
    split; [done|]. cbn [buf]. rewrite Hr, app_nil_r. split; [|done].
    split; cbn [buf claim stored]; [done| |done|].
    + intros w' [= <-]. split_and!; [done|done|llia].
    + by eapply claimable_fill; [done|lia|lia|apply R].
  - pose proof (mirrored_Commit (buf s) m n I ltac:(lia)) as Hc.
    destruct (MirroredBuffer_Commit (buf s) n) as [b' k]. destruct Hc as (I' & _ & Hr).
    eexists _, m. split; [done|]. cbn [buf fst]. split.
    + split; cbn [buf claim stored fst]; [done|done|done|apply claimable_zero].
    + rewrite app_nil_l, Hr. f_equal.
      rewrite (claimable_take _ m (zlen (stored s))) by (done || lia). by rewrite (ru_stored _ _ R).
  - pose proof (mirrored_Consume (buf s) m n I Hx) as Hc. pose proof (mi_used _ _ I).
    unfold MirroredBuffer_Consume in *. set (k := if decide (n > UsedSpace (buf s)) then _ else _) in *.
    assert (0 <= k <= used (buf s)) by (unfold k, UsedSpace in *; case_decide; lia).
    pose proof (mir_small _ _ I).
    destruct (decide (k = 0)).
    + destruct Hc as (_ & _ & Hr). exists s, m. cbn [fst]. destruct s as [b c st]; cbn [buf claim stored] in *.
      split_and!; [done|done|]. rewrite app_nil_r. rewrite Hr at 3. by rewrite ztake_zdrop.
    + destruct Hc as (I' & _ & Hr). eexists _, m. cbn [fst]. split; [done|]. cbn [buf] in *. split.
      * split; cbn [buf claim stored]; [done| |apply R|].
        -- intros w Hw. destruct (ru_claim _ _ R w Hw) as (? & Hl & ?). unfold FreeSpace in *.
           cbn [tail size used]. split_and!; [done| |done]. rewrite i64_small; [lia|unfold is_int; lia].
        -- rewrite <-(ru_stored _ _ R) at 2. unfold claimable, FreeSpace in *. cbn [mem tail size used].
           destruct (mem (buf s)); [|done]. rewrite i64_small by (unfold is_int; lia).
           by rewrite !Z.min_l by lia.
      * rewrite Hr, app_nil_r. by rewrite ztake_zdrop.
Qed.

Lemma mir_run_spec xs s m :
  run_inv s m -> mir_run_ok s xs ->
  exists s' m' i o, mir_run s xs = Ret (s', i, o) /\ run_inv s' m'
    /\ readable (buf s) ++ i = o ++ readable (buf s').
Proof.
  revert s m. induction xs as [|x xs IH]; intros s m I Hok.
  { exists s, m, [], []. split_and!; [done..|]. by rewrite app_nil_r. }
  destruct Hok as [Hx Hok]. destruct (mir_apply_spec s m x I Hx) as (s1 & m1 & E & I1 & Hq).
  rewrite E in Hok. destruct (IH s1 m1 I1 Hok) as (s' & m' & i & o & E' & I' & Hq').
  cbn [mir_run]. rewrite E. res_step. rewrite E'. res_step.
  eexists _, _, _, _. split_and!; [done..|]. by rewrite app_assoc, Hq, <-!app_assoc, Hq'.
Qed.

Lemma land_three_pages k : 0 <= k -> Z.land (2 ^ k) (3 * 2 ^ k - 1) = 0.
Proof.
  intros Hk. replace (3 * 2 ^ k - 1) with (Z.lor (2 ^ (k + 1)) (Z.ones k)).
  - apply Z.bits_inj'. intros n Hn. rewrite Z.land_spec, Z.lor_spec, Z.bits_0.
    rewrite !Z.pow2_bits_eqb by lia. destruct (Z.eqb_spec k n) as [->|]; [|done].
    rewrite Z.ones_spec_high by lia. simpl. destruct (Z.eqb_spec (n + 1) n); [lia|done].
  - pose proof (Z.add_lor_land (2 ^ (k + 1)) (Z.ones k)) as E.
    rewrite Z.land_ones, Z.pow_add_r, Z.mul_comm, Z_mod_mult, Z.ones_equiv in E by lia.
    rewrite Z.ones_equiv, Z.pow_add_r, Z.mul_comm by lia. lia.
Qed.

(** * The constructor *)

(** A kernel that grants everything, with pages of [page] bytes. *)
Definition good_env (page : Z) : MmapEnv :=
  mkMmapEnv page false (fun _ => None) (fun _ => None) (fun _ _ => inl 4096) (fun a _ => inl a)
    None None None.

Lemma round_size_spec env n :
  0 < Getpagesize env -> 0 < n -> n + Getpagesize env < 2 ^ 63 ->
  round_size env n mod Getpagesize env = 0 /\ n <= round_size env n < n + Getpagesize env.
Proof.
  intros Hp Hn Hb. unfold round_size. set (p := Getpagesize env) in *.
  rewrite Z.rem_mod_nonneg by lia. pose proof (Z.mod_pos_bound n p Hp) as Hm.
  case_decide; [|split; lia]. rewrite i64_small by (unfold is_int; lia). split; [|lia].
  rewrite (Z.div_mod n p) at 1 by lia.
  replace (p * (n / p) + n mod p + (p - n mod p)) with (0 + (n / p + 1) * p) by lia.
  rewrite Z_mod_plus_full. apply Z.mod_0_l. lia.
Qed.

(** What the constructor finds, as far as it gets. *)
Definition file_made (env : MmapEnv) : Prop := CreateTemp env (negb (shm_missing env)) = None.

Definition anon_at (env : MmapEnv) (n : Z) (pf : bool) (a : Z) : Prop :=
  Truncate env (round_size env n) = None
  /\ mmapAllocate env (i64 (2 * round_size env n)) pf = inl a.

Definition both_mapped (env : MmapEnv) (n a : Z) : Prop :=
  remap env (round_size env n) a = None
  /\ remap env (round_size env n) (a + round_size env n) = None.

Lemma anon_unique env n pf a a' : anon_at env n pf a -> anon_at env n pf a' -> a = a'.
Proof. intros [_ E] [_ E']. rewrite E in E'. by injection E'. Qed.

(** The four outcomes: nothing was made, the file was, the anonymous
    mapping was as well, everything was. *)
Lemma New_cases env n pf :
  0 < round_size env n < 2 ^ 63 ->
  let r := NewMirroredBuffer env n pf in
  let kept (o : option error) := match o with None => false | Some _ => true end in
  (~ file_made env /\ exists e, r = mkNew None (Some e) (mkResources false false false))
  \/ (file_made env /\ (forall a, ~ anon_at env n pf a) /\ exists e,
        r = mkNew None (Some e) (mkResources false (kept (Remove env)) (kept (CloseFile env))))
  \/ (exists a, file_made env /\ anon_at env n pf a /\ ~ both_mapped env n a /\ exists e,
        r = mkNew None (Some e) (mkResources true (kept (Remove env)) (kept (CloseFile env))))
  \/ (exists a, file_made env /\ anon_at env n pf a /\ both_mapped env n a
        /\ r = mkNew (Some (mkMirrored (Some (replicate (Z.to_nat (round_size env n)) Byte.x00))
                       (round_size env n) (round_size env n - 1) 0 0 0)) None
                 (mkResources true (kept (Remove env)) (kept (CloseFile env)))).
Proof.
  intros Hs. cbv zeta. unfold NewMirroredBuffer, file_made, anon_at, both_mapped. cbv zeta.
  rewrite decide_False by lia.
  destruct (CreateTemp env _) as [e|]; [left; split; [done|by exists e]|right].
  destruct (Truncate env _) as [e|]; [left; split_and!; [done|by intros a []|by exists e]|].
  destruct (mmapAllocate env _ pf) as [a|e];
    [right|left; split_and!; [done|by intros a []|by exists e]].
  rewrite (decide_False (P := _ <> _)).
  2: { intros Hn. apply Hn. autorewrite with i64. rewrite i64_small; unfold is_int; lia. }
  destruct (remap env _ a) as [e|] eqn:E1;
    [left; exists a; split_and!; [done..|by rewrite E1; intros []|by exists e]|].
  destruct (remap env _ (a + _)) as [e|] eqn:E2;
    [left; exists a; split_and!; [done..|by rewrite E2; intros []|by exists e]|].
  right. exists a. done.
Qed.

Lemma new_some env n pf b :
  new_b (NewMirroredBuffer env n pf) = Some b ->
  b = mkMirrored (Some (replicate (Z.to_nat (round_size env n)) Byte.x00))
        (round_size env n) (round_size env n - 1) 0 0 0.
Proof.
  unfold NewMirroredBuffer. cbv zeta. intros H. repeat case_match; simpl in H; by simplify_eq.
Qed.

(** The kernel that grants everything gives a buffer. *)
Lemma new_good page n pf :
  let s := round_size (good_env page) n in
  0 < s < 2 ^ 62 ->
  new_b (NewMirroredBuffer (good_env page) n pf)
  = Some (mkMirrored (Some (replicate (Z.to_nat s) Byte.x00)) s (s - 1) 0 0 0).
Proof.
  intros s Hs. destruct (New_cases (good_env page) n pf ltac:(fold s; lia))
    as [[Hf _]|[(_ & Ha & _)|[(a & _ & [_ Ha] & Hm & _)|(a & _ & _ & _ & ->)]]]; [by destruct Hf| | |done].
  - destruct (Ha 4096). split; [done|]. unfold mmapAllocate. rewrite i64_small by (unfold is_int; lia).
    by rewrite decide_False by (fold s; lia).
  - destruct Hm. unfold mmapAllocate in Ha. case_decide; [done|]. injection Ha as <-.
    unfold both_mapped, remap. fold s. rewrite !decide_False by lia. simpl. by rewrite !decide_False by lia.
Qed.

Lemma mir_inv_new k n :
  0 <= k <= 60 -> n = 2 ^ k ->
  mir_inv (mkMirrored (Some (replicate (Z.to_nat n) Byte.x00)) n (n - 1) 0 0 0)
    (replicate (Z.to_nat n) Byte.x00).
Proof.
  intros Hk ->. assert (0 < 2 ^ k) by (apply Z.pow_pos_nonneg; lia).
  split; cbn [mem size sizeMask head tail used]; try done; try lia.
  - rewrite length_replicate. lia.
  - by exists k.
Qed.

(** * Properties *)

(** C23: a mirrored buffer whose size, rounded up to pages, is a power of two of at most
    2^60 is a queue.  In every run of claims, stores into the slice that [Claim] returned,
    commits and consumes, with any wrap-arounds, each call returns, and the bytes the caller
    stored and committed are those consumed followed by those still readable.  The caller
    passes no negative numbers, stores no more than the slice holds, commits no more than it
    stored, and does not use a slice any more after a commit; it may store several times and
    consume in between. *)
Theorem mirrored_fifo (env : MmapEnv) (n k : Z) (pf : bool) (b : MirroredBuffer)
    (xs : list mir_op) :
  new_b (NewMirroredBuffer env n pf) = Some b ->
  0 <= k <= 60 -> round_size env n = 2 ^ k -> mir_run_ok (mkMirState b None []) xs ->
  exists s' m' i o, mir_run (mkMirState b None []) xs = Ret (s', i, o) /\ mir_inv (buf s') m'
    /\ i = o ++ readable (buf s').
Proof.
  intros Hb Hk Hs Hok. apply new_some in Hb.
  pose proof (mir_inv_new k _ Hk Hs) as I. rewrite <-Hb in I.
  assert (run_inv (mkMirState b None []) (replicate (Z.to_nat (round_size env n)) Byte.x00)) as R.
  { split; [done|done|done|apply claimable_zero]. }
  destruct (mir_run_spec xs _ _ R Hok) as (s' & m' & i & o & Er & R' & Hq).
  exists s', m', i, o. split_and!; [done|apply R'|]. rewrite <-Hq. by rewrite Hb.
Qed.

Definition example_mir : list mir_op :=
  [MClaim 3; MFill [Byte.x01; Byte.x02; Byte.x03]; MCommit 3; MClaim 1; MConsume 2;
   MClaim 5; MFill [Byte.x04; Byte.x05; Byte.x06]; MConsume 0; MCommit 3; MConsume 3].

Lemma mirrored_fifo_witness :
  exists b s' m' i o, new_b (NewMirroredBuffer (good_env 4) 3 true) = Some b
    /\ mir_run (mkMirState b None []) example_mir = Ret (s', i, o) /\ mir_inv (buf s') m'
    /\ i = o ++ readable (buf s').
Proof.
  eexists. edestruct (mirrored_fifo (good_env 4) 3 2 true) as (s' & m' & i & o & H);
    [reflexivity|lia|reflexivity| |].
  - instantiate (1 := example_mir). vm_compute. split_and!; discriminate || done.
  - exists s', m', i, o. split; [reflexivity|]. exact H.
Defined.

(** The constructor accepts every size that is a multiple of the page size, but the
    indices wrap with a mask that is right for powers of two only: in a buffer of three
    pages, the claim after a commit of one page is the committed page itself, and
    filling it replaces bytes that were not consumed. *)
Theorem mirrored_three_pages (k : Z) (pf : bool) (xs ys : list byte) :
  0 <= k <= 58 -> zlen xs = 2 ^ k -> zlen ys = 2 ^ k ->
  exists b, new_b (NewMirroredBuffer (good_env (2 ^ k)) (3 * 2 ^ k) pf) = Some b
    /\ let b1 := fst (MirroredBuffer_Commit (fill b xs) (2 ^ k)) in
       readable b1 = xs /\ FreeSpace b1 = 2 * 2 ^ k /\ readable (fill b1 ys) = ys.
Proof.
  intros Hk Hx Hy.
  assert (0 < 2 ^ k <= 2 ^ 58) as Hp.
  { split; [apply Z.pow_pos_nonneg; lia|apply Z.pow_le_mono_r; lia]. }
  assert (round_size (good_env (2 ^ k)) (3 * 2 ^ k) = 3 * 2 ^ k) as Hr.
  { unfold round_size. simpl. rewrite Z.rem_mod_nonneg, Z_mod_mult by lia. done. }
  assert (new_b (NewMirroredBuffer (good_env (2 ^ k)) (3 * 2 ^ k) pf)
    = Some (mkMirrored (Some (replicate (Z.to_nat (3 * 2 ^ k)) Byte.x00)) (3 * 2 ^ k)
              (3 * 2 ^ k - 1) 0 0 0)) as ->.
  { rewrite new_good; rewrite Hr; [done|lia]. }
  eexists. split; [done|]. cbv zeta.
  set (m := replicate (Z.to_nat (3 * 2 ^ k)) Byte.x00).
  assert (zlen m = 3 * 2 ^ k) as Hm by (unfold m; rewrite length_replicate; lia). clearbody m.
  unfold MirroredBuffer_Commit, FreeSpace, fill, set_mem, readable.
  cbn [mem size sizeMask head tail used fst fmap option_fmap option_map].
  rewrite decide_False by lia. rewrite Z.add_0_l, (i64_small (2 ^ k)) by (unfold is_int; lia).
  rewrite land_three_pages by lia.
  rewrite <-Hx at 1. rewrite ring_write_same by lia. split_and!; [done|lia|].
  rewrite <-Hy at 1. rewrite ring_write_same; [done|rewrite length_mirror_write; lia..].
Qed.

(** Pages of two bytes: a buffer of six. *)
Lemma mirrored_three_pages_witness :
  exists b, new_b (NewMirroredBuffer (good_env (2 ^ 1)) (3 * 2 ^ 1) false) = Some b
    /\ let b1 := fst (MirroredBuffer_Commit (fill b [Byte.x01; Byte.x02]) (2 ^ 1)) in
       readable b1 = [Byte.x01; Byte.x02] /\ FreeSpace b1 = 2 * 2 ^ 1
       /\ readable (fill b1 [Byte.x08; Byte.x09]) = [Byte.x08; Byte.x09].
Proof. apply (mirrored_three_pages 1 false); [lia|reflexivity|reflexivity]. Defined.

(** C38: the constructor, asked for a positive size that rounds up within [int], returns
    either a buffer or an error.  It returns a buffer exactly when the file could be created
    and truncated and the anonymous mapping and both mappings of the file were granted at
    their addresses; its size is the size asked for, rounded up to the next multiple of the
    page size, and it is empty.  The temporary file is there afterwards, and its descriptor
    open, only if removing or closing it failed, an error the constructor ignores.  The
    anonymous mapping stays in place whenever it was granted, also when either of the two
    mappings of the file fails: the failing return has set the named result to nil, so the
    deferred clean-up that is meant to destroy the mapping does not run. *)
Theorem mirrored_new (env : MmapEnv) (n : Z) (pf : bool) :
  0 < Getpagesize env -> 0 < n -> n + Getpagesize env < 2 ^ 63 ->
  let r := NewMirroredBuffer env n pf in
  (new_b r <> None <-> file_made env /\ exists a, anon_at env n pf a /\ both_mapped env n a)
  /\ (forall b, new_b r = Some b ->
        size b mod Getpagesize env = 0 /\ n <= size b < n + Getpagesize env
        /\ readable b = [] /\ FreeSpace b = size b)
  /\ (new_b r = None <-> new_err r <> None)
  /\ (file_there (left_behind r) = true <-> file_made env /\ Remove env <> None)
  /\ (file_open (left_behind r) = true <-> file_made env /\ CloseFile env <> None)
  /\ (mapped (left_behind r) = true <-> file_made env /\ exists a, anon_at env n pf a).
Proof.
  intros Hp Hn Hb. pose proof (round_size_spec env n Hp Hn Hb) as [Hmod Hlen]. cbv zeta.
  split_and!.
  2: { intros b ->%new_some. simpl. split_and!; [done|lia|lia|done|]. unfold FreeSpace. simpl. lia. }
  all: destruct (New_cases env n pf) as [[Hf (e & ->)]|[(Hf & Ha & e & ->)|[(a & Hf & Ha & Hm & e & ->)|
    (a & Hf & Ha & Hm & ->)]]]; [lia|..]; simpl.
  all: destruct (Remove env), (CloseFile env); split; try done; intros Hx.
  all: repeat match goal with
         | H : _ /\ _ |- _ => destruct H
         | H : exists _, _ |- _ => destruct H
         | H : anon_at _ _ _ ?a, H' : anon_at _ _ _ ?b |- _ => pose proof (anon_unique _ _ _ _ _ H H'); subst b; clear H'
         | H : forall a, ~ anon_at _ _ _ a, H' : anon_at _ _ _ _ |- _ => destruct (H _ H')
         end; eauto; congruence.
Qed.

(** A kernel that maps the file once and not twice, and will not remove it. *)
Definition refusing_env : MmapEnv :=
  mkMmapEnv 4096 true (fun _ => None) (fun _ => None) (fun _ _ => inl 65536)
    (fun a _ => if decide (a = 65536) then inl a else inr (ErrOther 12)) None (Some (ErrOther 13)) None.

Lemma mirrored_new_witness :
  let r := NewMirroredBuffer refusing_env 5000 false in
  (new_b r = None <-> new_err r <> None)
  /\ (mapped (left_behind r) = true <-> file_made refusing_env /\ exists a, anon_at refusing_env 5000 false a)
  /\ r = mkNew None (Some (ErrOther 12)) (mkResources true true false).
Proof.
  destruct (mirrored_new refusing_env 5000 false) as (_ & _ & He & _ & _ & Hm); [simpl; lia..|].
  split_and!; [exact He|exact Hm|reflexivity].
Defined.
