(* ===== verification/LinkedList.v ===== *)
(** The singly linked list of [src/util/list.go].

    Nodes live in an arena, [heap]: a pointer is an index into it, nil is [None], and
    [&listNode{...}] appends a node.  Several lists may share one arena; a [List] is the
    head pointer and the counter.  Loops that follow [next] take fuel, since nothing in the
    types rules out a cycle. *)

From S2P Require Import Prelude.

Section linked_list.
Context {T : Type} `{EqDecision T}.

Abbreviation ptr := (option nat).

Record listNode : Type := mkNode { v : T; next : ptr }.

Abbreviation heap := (list listNode).

Record List : Type := mkList { head : ptr; n : Z }.

(** [*p], a nil dereference being a panic. *)
Definition deref (h : heap) (p : ptr) : res listNode :=
  match p with
  | None => Panic
  | Some a => match h !! a with Some nd => Ret nd | None => Panic end
  end.

(** [p.next = q]. *)
Definition set_next (h : heap) (p q : ptr) : res heap :=
  nd ← deref h p;
  Ret (match p with Some a => <[a := mkNode (v nd) q]> h | None => h end).

Definition NewList : List := mkList None 0.

(** [for last.next != nil { last = last.next }] *)
Fixpoint last_loop (fuel : nat) (h : heap) (last : ptr) : res ptr :=
  nd ← deref h last;
  match next nd with
  | None => Ret last
  | Some _ => match fuel with O => NoFuel | S fuel' => last_loop fuel' h (next nd) end
  end.

Definition List_Add (fuel : nat) (h : heap) (l : List) (x : T) : res (heap * List) :=
  let node := Some (length h) in
  let h := h ++ [mkNode x None] in
  match head l with
  | None => Ret (h, mkList node (n l + 1))
  | Some _ =>
      last ← last_loop fuel h (head l);
      h ← set_next h last node;
      Ret (h, mkList (head l) (n l + 1))
  end.

Definition List_Size (l : List) : Z := n l.

(** [for i := 0; i < ix; i++ { p = p.next }] *)
Fixpoint advance (k : nat) (h : heap) (p : ptr) : res ptr :=
  match k with
  | O => Ret p
  | S k' => nd ← deref h p; advance k' h (next nd)
  end.

Definition List_At (h : heap) (l : List) (ix : Z) : res T :=
  if decide (List_Size l <= ix) then Panic
  else
    p ← advance (Z.to_nat ix) h (head l);
    nd ← deref h p;
    Ret (v nd).

Fixpoint exists_loop (fuel : nat) (h : heap) (p : ptr) (x : T) : res bool :=
  match p with
  | None => Ret false
  | Some _ =>
      match fuel with
      | O => NoFuel
      | S fuel' =>
          nd ← deref h p;
          if decide (v nd = x) then Ret true else exists_loop fuel' h (next nd) x
      end
  end.

Definition List_Exists (fuel : nat) (h : heap) (l : List) (x : T) : res bool :=
  exists_loop fuel h (head l) x.

(** [if prev == nil { l.head = cur.next } else { prev.next = cur.next }; l.n--] *)
Definition unlink (h : heap) (l : List) (prev : ptr) (cur : listNode) : res (heap * List) :=
  match prev with
  | None => Ret (h, mkList (next cur) (n l - 1))
  | Some _ => h ← set_next h prev (next cur); Ret (h, mkList (head l) (n l - 1))
  end.

(** The loop of [RemoveValue] assigns neither [prev] nor [cur]. *)
Fixpoint RemoveValue_loop (fuel : nat) (h : heap) (l : List) (prev cur : ptr) (x : T)
    : res (heap * List * bool) :=
  match cur with
  | None => Ret (h, l, false)
  | Some _ =>
      match fuel with
      | O => NoFuel
      | S fuel' =>
          nd ← deref h cur;
          if decide (v nd = x) then hl ← unlink h l prev nd; Ret (hl, true)
          else RemoveValue_loop fuel' h l prev cur x
      end
  end.

Definition List_RemoveValue (fuel : nat) (h : heap) (l : List) (x : T) : res (heap * List * bool) :=
  RemoveValue_loop fuel h l None (head l) x.

(** [for i := 0; i < ix; i++ { prev = cur; cur = cur.next }] *)
Fixpoint advance2 (k : nat) (h : heap) (prev cur : ptr) : res (ptr * ptr) :=
  match k with
  | O => Ret (prev, cur)
  | S k' => nd ← deref h cur; advance2 k' h cur (next nd)
  end.

Definition List_RemoveIndex (h : heap) (l : List) (ix : Z) : res (heap * List * T) :=
  if decide (List_Size l <= ix) then Panic
  else
    '(prev, cur) ← advance2 (Z.to_nat ix) h None (head l);
    nd ← deref h cur;
    hl ← unlink h l prev nd;
    Ret (hl, v nd).

(** [fn] gets a pointer to the value of each node; here it is what it stores there. *)
Fixpoint iterate_loop (fuel : nat) (fn : T -> T) (h : heap) (p : ptr) : res heap :=
  match p with
  | None => Ret h
  | Some a =>
      match fuel with
      | O => NoFuel
      | S fuel' =>
          nd ← deref h p;
          iterate_loop fuel' fn (<[a := mkNode (fn (v nd)) (next nd)]> h) (next nd)
      end
  end.

Definition List_Iterate (fuel : nat) (fn : T -> T) (h : heap) (l : List) : res heap :=
  iterate_loop fuel fn h (head l).

(** * Segments *)

(** The nodes from [p] up to [q] are at the addresses, and hold the values, of [cells]. *)
Fixpoint lseg (h : heap) (p : ptr) (cells : list (nat * T)) (q : ptr) : Prop :=
  match cells with
  | [] => p = q
  | (a, x) :: cs => p = Some a /\ exists r, h !! a = Some (mkNode x r) /\ lseg h r cs q
  end.

Lemma lseg_app h p c1 c2 q :
  lseg h p (c1 ++ c2) q <-> exists m, lseg h p c1 m /\ lseg h m c2 q.
Proof.
  revert p. induction c1 as [|[a x] c1 IH]; intros p; simpl.
  - split; [eauto|]. by intros (m & -> & Hm).
  - split.
    + intros (-> & r & Hr & (m & Hm & Hq)%IH). eauto 10.
    + intros (m & (-> & r & Hr & Hm) & Hq). split; [done|]. exists r. split; [done|].
      apply IH. eauto.
Qed.

Lemma lseg_frame h h' p cells q :
  (forall a, a ∈ cells.*1 -> h' !! a = h !! a) -> lseg h p cells q -> lseg h' p cells q.
Proof.
  revert p. induction cells as [|[a x] cs IH]; intros p Hf; simpl in *; [done|].
  intros (-> & r & Hr & Hs). split; [done|]. exists r. rewrite Hf by left.
  split; [done|]. apply IH; [|done]. intros b Hb. apply Hf. by right.
Qed.

Lemma lseg_insert h a nd p cells q :
  a ∉ cells.*1 -> lseg h p cells q -> lseg (<[a := nd]> h) p cells q.
Proof.
  intros Ha. apply lseg_frame. intros b Hb. apply list_lookup_insert_ne. by intros ->.
Qed.

Lemma lseg_alloc h nd p cells q : lseg h p cells q -> lseg (h ++ [nd]) p cells q.
Proof.
  revert p. induction cells as [|[a x] cs IH]; intros p; simpl; [done|].
  intros (-> & r & Hr & Hs). split; [done|]. exists r. split; [|by apply IH].
  by apply lookup_app_l_Some.
Qed.

Lemma lseg_lt h p cells q a : lseg h p cells q -> a ∈ cells.*1 -> (a < length h)%nat.
Proof.
  revert p. induction cells as [|[b x] cs IH]; intros p; simpl.
  - by intros _ ?%elem_of_nil.
  - intros (-> & r & Hr & Hs) [->|Ha]%elem_of_cons; [by eapply lookup_lt_Some|by eapply IH].
Qed.

(** [l] consists of [cells]: they are its nodes from [head] on, no node twice, and the
    counter is their number. *)
Definition owns (h : heap) (l : List) (cells : list (nat * T)) : Prop :=
  lseg h (head l) cells None /\ NoDup cells.*1 /\ n l = zlen cells.

(** Only nodes of [cells] differ: whoever else has nodes in the arena finds them as they were. *)
Definition only_differ (cells : list (nat * T)) (h h' : heap) : Prop :=
  (length h <= length h')%nat
  /\ forall a, (a < length h)%nat -> a ∉ cells.*1 -> h' !! a = h !! a.

Lemma only_differ_refl cells h : only_differ cells h h.
Proof. by split. Qed.

Lemma only_differ_alloc cells h nd : only_differ cells h (h ++ [nd]).
Proof. split; [llia|]. intros a Ha _. by apply lookup_app_l. Qed.

Lemma only_differ_insert cells h h' a nd :
  a ∈ cells.*1 -> only_differ cells h h' -> only_differ cells h (<[a := nd]> h').
Proof.
  intros Ha [Hl Hf]. split; [llia|]. intros b Hb Hn.
  rewrite list_lookup_insert_ne by (by intros ->). by apply Hf.
Qed.

(** * The loops *)

Lemma last_loop_spec fuel h p c a x :
  lseg h p (c ++ [(a, x)]) None -> (length c <= fuel)%nat -> last_loop fuel h p = Ret (Some a).
Proof.
  revert fuel p. induction c as [|[b y] c IH]; intros fuel p Hs Hl.
  - destruct Hs as (-> & r & Hr & ->). destruct fuel; cbn; by rewrite Hr.
  - destruct Hs as (-> & r & Hr & Hs). destruct fuel as [|fuel]; simpl in Hl; [lia|].
    cbn. rewrite Hr. cbn. destruct r as [r|].
    + apply IH; [done|lia].
    + by destruct c as [|[? ?] ?]; destruct Hs.
Qed.

Lemma advance_spec h p c1 m : lseg h p c1 m -> advance (length c1) h p = Ret m.
Proof.
  revert p. induction c1 as [|[a x] c1 IH]; intros p; simpl; [by intros ->|].
  intros (-> & r & Hr & Hs). cbn. rewrite Hr. by apply IH.
Qed.

Lemma advance2_spec h p0 p c1 m :
  lseg h p c1 m ->
  advance2 (length c1) h p0 p = Ret (match list.last c1 with Some (a, _) => Some a | None => p0 end, m).
Proof.
  revert p0 p. induction c1 as [|[a x] c1 IH]; intros p0 p; [by intros ->|].
  intros (-> & r & Hr & Hs). cbn [length advance2 deref]. rewrite Hr. res_step. simpl next. rewrite (IH _ _ Hs).
  rewrite last_cons. by destruct (list.last c1) as [[b y]|].
Qed.

Lemma exists_loop_spec fuel h p cells x :
  lseg h p cells None -> (length cells <= fuel)%nat ->
  exists_loop fuel h p x = Ret (bool_decide (x ∈ cells.*2)).
Proof.
  revert fuel p. induction cells as [|[a y] cs IH]; intros fuel p; simpl.
  - intros -> _. by destruct fuel.
  - intros (-> & r & Hr & Hs) Hl. destruct fuel as [|fuel]; [lia|]. cbn. rewrite Hr. cbn.
    destruct (decide (y = x)) as [->|Hy].
    + rewrite bool_decide_true by left. done.
    + rewrite (IH fuel r Hs) by lia. f_equal. apply bool_decide_ext. rewrite elem_of_cons. split; [by right|].
      by intros [->|?].
Qed.

Lemma iterate_loop_spec fuel fn h p cells :
  lseg h p cells None -> NoDup cells.*1 -> (length cells <= fuel)%nat ->
  exists h', iterate_loop fuel fn h p = Ret h'
    /\ lseg h' p (prod_map id fn <$> cells) None /\ only_differ cells h h'.
Proof.
  revert fuel h p. induction cells as [|[a y] cs IH]; intros fuel h p; simpl.
  - intros -> _ _. exists h. by destruct fuel.
  - intros (-> & r & Hr & Hs) [Ha Hd]%list.NoDup_cons Hl. destruct fuel as [|fuel]; [lia|]. cbn.
    rewrite Hr. cbn.
    destruct (IH fuel (<[a := mkNode (fn y) r]> h) r) as (h' & -> & Hs' & [Hlen Hf]);
      [by apply lseg_insert|done|lia|].
    pose proof (lookup_lt_Some _ _ _ Hr).
    exists h'. split_and!; [done|done| |].
    + exists r. split; [|done]. rewrite Hf by (done || llia). by apply list_lookup_insert_eq.
    + split; [llia|]. intros b Hb [Hba Hbc]%not_elem_of_cons.
      rewrite Hf by (done || llia). by apply list_lookup_insert_ne.
Qed.

(** * The operations *)

Lemma List_Add_spec fuel h l cells x :
  owns h l cells -> (length cells <= fuel)%nat ->
  exists h' l', List_Add fuel h l x = Ret (h', l')
    /\ owns h' l' (cells ++ [(length h, x)]) /\ only_differ cells h h'.
Proof.
  intros (Hs & Hd & Hn) Hf. unfold List_Add.
  assert (NoDup (cells ++ [(length h, x)]).*1) as Hd'.
  { rewrite fmap_app. apply list.NoDup_app. split_and!; [done| |apply NoDup_singleton].
    intros a Ha%(lseg_lt _ _ _ _ _ Hs) ->%list_elem_of_singleton. simpl in *. lia. }
  assert ((h ++ [mkNode x None]) !! length h = Some (mkNode x None)) as Hnew.
  { by rewrite lookup_app_r, Nat.sub_diag by lia. }
  destruct cells as [|[a y] c _] using rev_ind.
  - simpl in Hs. rewrite Hs. eexists _, _. split; [done|].
    split; [|apply only_differ_alloc]. split_and!; [|done|simpl in *; lia].
    simpl. eauto.
  - assert (head l <> None) as Hh by (destruct c as [|[? ?] ?]; destruct Hs as [-> _]; done).
    destruct (head l) as [p|] eqn:Hp; [clear Hh|done].
    pose proof (lseg_alloc _ (mkNode x None) _ _ _ Hs) as Hs1.
    rewrite length_app in Hf. simpl in Hf. rewrite (last_loop_spec fuel _ _ c a y) by (done || lia).
    apply lseg_app in Hs1 as (m & Hc & -> & r & Hr & ->). cbn. rewrite Hr. cbn.
    rewrite fmap_app in Hd. apply list.NoDup_app in Hd as (_ & Hac & _).
    assert (a ∉ c.*1) by (intros ?; by eapply Hac; [|left]).
    assert (a < length h)%nat as Ha.
    { apply (lseg_lt _ _ _ _ _ Hs). rewrite fmap_app. apply elem_of_app. right. left. }
    eexists _, _. split; [done|]. split.
    + split_and!; [|done|simpl; llia]. simpl. apply lseg_app. exists (Some (length h)). split.
      * apply lseg_app. exists (Some a). split; [by apply lseg_insert|]. split; [done|].
        eexists. rewrite list_lookup_insert_eq by llia. done.
      * split; [done|]. exists None. split; [|done].
        rewrite list_lookup_insert_ne by lia. done.
    + apply only_differ_insert; [|apply only_differ_alloc].
      rewrite fmap_app. apply elem_of_app. right. left.
Qed.

(** Dropping the cell [(a, x)] by linking its predecessor, or the head, to its successor. *)
Lemma unlink_spec h l c1 a x c2 r :
  owns h l (c1 ++ (a, x) :: c2) -> h !! a = Some (mkNode x r) -> lseg h r c2 None ->
  exists h' l', unlink h l (match list.last c1 with Some (b, _) => Some b | None => None end) (mkNode x r)
      = Ret (h', l')
    /\ owns h' l' (c1 ++ c2) /\ only_differ c1 h h'.
Proof.
  intros (Hs & Hd & Hn) Ha Hr.
  assert (NoDup (c1 ++ c2).*1) as Hd'.
  { eapply sublist_NoDup; [done|]. rewrite !fmap_app, fmap_cons.
    apply sublist_app; [done|]. by apply sublist_cons. }
  apply lseg_app in Hs as (m & Hc & _).
  destruct c1 as [|[b y] c _] using rev_ind.
  - exists h, (mkList r (n l - 1)). split_and!; [done| |apply only_differ_refl].
    split_and!; [done|done|simpl in *; llia].
  - rewrite last_snoc. apply lseg_app in Hc as (m' & Hc & -> & r' & Hb & ->).
    cbn. rewrite Hb. cbn.
    assert ((b ∉ c.*1) /\ (b ∉ c2.*1)) as [Hb1 Hb2].
    { rewrite !fmap_app in Hd'. apply list.NoDup_app in Hd' as ((_ & Hx & _)%list.NoDup_app & Hy & _).
      split; intros ?; [by eapply Hx; [|left]|eapply Hy; [|done]].
      apply elem_of_app. right. left. }
    eexists _, _. split_and!; [done| |].
    + split_and!; [|done|simpl; llia]. simpl. apply lseg_app. exists r.
      split; [|by apply lseg_insert]. apply lseg_app. exists (Some b).
      split; [by apply lseg_insert|]. split; [done|]. eexists.
      rewrite list_lookup_insert_eq by (by eapply lookup_lt_Some). done.
    + apply only_differ_insert; [|apply only_differ_refl].
      rewrite fmap_app. apply elem_of_app. right. left.
Qed.

Lemma owns_at h l cells i a x :
  owns h l cells -> cells !! i = Some (a, x) ->
  exists r, lseg h (head l) (take i cells) (Some a) /\ length (take i cells) = i
    /\ cells = take i cells ++ (a, x) :: drop (S i) cells
    /\ h !! a = Some (mkNode x r) /\ lseg h r (drop (S i) cells) None.
Proof.
  intros (Hs & _ & _) Hi. pose proof (take_drop_middle _ _ _ Hi) as Hc. rewrite <-Hc in Hs.
  apply lseg_app in Hs as (m & Hc1 & -> & r & Ha & Hc2). exists r.
  apply lookup_lt_Some in Hi. split_and!; [done| |by rewrite Hc|done|done].
  rewrite length_take. lia.
Qed.
End linked_list.

Arguments listNode T : clear implicits.

(** * Properties *)

Section list_properties.
Context {T : Type} `{EqDecision T}.

(** C35: on a list that consists of the nodes [cells] of the arena, the operations are those
    of a sequence: [Add] appends, [At] and [RemoveIndex] find and remove the element at an
    index and panic past the end, [Exists] is membership, [Iterate] changes every value.
    Each leaves the nodes it keeps linked in order, the counter right and all other nodes of
    the arena alone, and its loops end within the length of the list. *)
Theorem linked_list_refines (h : list (listNode T)) (l : List) (cells : list (nat * T))
    (ix : Z) (x : T) (fn : T -> T) (fuel : nat) :
  owns h l cells -> (length cells <= fuel)%nat ->
  (exists h' l', List_Add fuel h l x = Ret (h', l')
     /\ owns h' l' (cells ++ [(length h, x)]) /\ only_differ cells h h')
  /\ List_Exists fuel h l x = Ret (bool_decide (x ∈ cells.*2))
  /\ (exists h', List_Iterate fuel fn h l = Ret h'
        /\ owns h' l (prod_map id fn <$> cells) /\ only_differ cells h h')
  /\ match cells !! Z.to_nat ix with
     | Some (a, y) =>
         List_At h l ix = Ret y
         /\ exists h' l', List_RemoveIndex h l ix = Ret (h', l', y)
              /\ owns h' l' (take (Z.to_nat ix) cells ++ drop (S (Z.to_nat ix)) cells)
              /\ only_differ cells h h'
     | None => List_At h l ix = Panic /\ List_RemoveIndex h l ix = Panic
     end.
Proof.
  intros Ho Hf. destruct Ho as (Hs & Hd & Hn) eqn:Eo. split_and!.
  - by apply List_Add_spec.
  - by apply exists_loop_spec.
  - destruct (iterate_loop_spec fuel fn h (head l) cells Hs Hd Hf) as (h' & He & Hs' & Ho').
    exists h'. split_and!; [done|split_and!|done]; [done| |llia].
    rewrite <-list_fmap_compose. done.
  - destruct (cells !! Z.to_nat ix) as [[a y]|] eqn:E.
    + destruct (owns_at h l cells _ a y Ho E) as (r & Hc1 & Hlen & Hc & Ha & Hc2).
      pose proof (lookup_lt_Some _ _ _ E). unfold List_At, List_RemoveIndex, List_Size.
      rewrite !decide_False by lia. 
      assert (advance (Z.to_nat ix) h (head l) = Ret (Some a)) as ->
        by (rewrite <-Hlen at 1; by apply advance_spec).
      pose proof (advance2_spec _ None _ _ _ Hc1) as Ha2. rewrite Hlen in Ha2.
      cbn. rewrite Ha, Ha2. cbn. rewrite Ha. cbn. split; [done|].
      destruct (unlink_spec h l (take (Z.to_nat ix) cells) a y (drop (S (Z.to_nat ix)) cells) r)
        as (h' & l' & -> & Hw & Hl' & Ho'); [by rewrite <-Hc|done|done|].
      exists h', l'. split_and!; [done|done|split; [done|]]. intros b Hb Hn'. apply Ho'; [done|].
      intros Hin. apply Hn'. rewrite Hc, fmap_app. apply elem_of_app. by left.
    + apply lookup_ge_None in E. unfold List_At, List_RemoveIndex, List_Size.
      destruct (decide (n l <= ix)); [done|].
      assert (cells = []) as -> by (apply length_zero_iff_nil; lia).
      replace (Z.to_nat ix) with 0%nat by (simpl in *; lia). simpl in Hs. cbn. by rewrite Hs.
Qed.

(** [RemoveValue] removes the value when the first node holds it, and returns
    [false] on an empty list; in every other case the loop, which never moves to the next
    node, does not end: no number of rounds is enough, also when the value is in the
    list. *)
Theorem RemoveValue_diverges (h : list (listNode T)) (l : List) cells (x : T) :
  owns h l cells ->
  match cells with
  | [] => forall fuel, List_RemoveValue fuel h l x = Ret (h, l, false)
  | (_, y) :: cs =>
      if decide (y = x)
      then exists l', owns h l' cs /\ forall fuel, List_RemoveValue (S fuel) h l x = Ret (h, l', true)
      else forall fuel, List_RemoveValue fuel h l x = NoFuel
  end.
Proof.
  intros (Hs & Hd & Hn). unfold List_RemoveValue. destruct cells as [|[a y] cs].
  - intros fuel. simpl in Hs. rewrite Hs. by destruct fuel.
  - destruct Hs as (-> & r & Ha & Hs). destruct (decide (y = x)) as [->|Hy].
    + exists (mkList r (n l - 1)). split.
      * apply list.NoDup_cons in Hd as [_ Hd]. split_and!; [done|done|simpl in *; lia].
      * intros fuel. cbn. rewrite Ha. cbn. by rewrite decide_True.
    + intros fuel. induction fuel as [|fuel IH]; cbn; [done|]. rewrite Ha. cbn.
      by rewrite decide_False.
Qed.
End list_properties.

(** Two lists share the arena, their nodes interleaved: removing from one leaves the other. *)
Definition two_lists : list (listNode Z) :=
  [mkNode 3 (Some 2%nat); mkNode 7 None; mkNode 5 (Some 3%nat); mkNode 8 None].

Lemma linked_list_refines_witness :
  List_At two_lists (mkList (Some 0%nat) 3) 1 = Ret 5
  /\ exists h' l', List_RemoveIndex two_lists (mkList (Some 0%nat) 3) 1 = Ret (h', l', 5)
       /\ owns h' l' [(0%nat, 3); (3%nat, 8)]
       /\ only_differ [(0%nat, 3); (2%nat, 5); (3%nat, 8)] two_lists h'.
Proof.
  apply (linked_list_refines two_lists (mkList (Some 0%nat) 3)
           [(0%nat, 3); (2%nat, 5); (3%nat, 8)] 1 0 id 3); [|simpl; lia].
  split_and!; [cbn; eauto 20| |reflexivity].
  apply (bool_decide_unpack _). vm_compute. exact I.
Defined.

(** 8 is in the list, behind 3. *)
Lemma RemoveValue_diverges_witness :
  List_RemoveValue 1000 [mkNode 3 (Some 1%nat); mkNode 8 None] (mkList (Some 0%nat) 2) 8 = NoFuel.
Proof.
  set (h := [mkNode 3 (Some 1%nat); mkNode 8 None]). set (l := mkList (Some 0%nat) 2).
  assert (owns h l [(0%nat, 3); (1%nat, 8)]) as Ho.
  { split_and!; [cbn; eauto 20| |reflexivity]. apply (bool_decide_unpack _). vm_compute. exact I. }
  exact ((RemoveValue_diverges h l _ 8 Ho : forall fuel, _ = NoFuel) 1000%nat).
Defined.
