(* ===== verification/Utf8.v ===== *)
(** [unicode/utf8.Valid], which the WebSocket stream applies to text payloads and to the
    reasons of close frames: the byte ranges of the Unicode standard's table of
    well-formed sequences, and their reading as encodings of scalar values. *)

From S2P Require Import Prelude.

(** * The check *)

Definition between (lo hi : Z) (b : byte) : bool := bool_decide (lo <= b2z b <= hi).

(** A continuation byte. *)
Definition cont (b : byte) : bool := between 128 191 b.

(** The second byte's range depends on the first. *)
Definition second3 (b0 b1 : byte) : bool :=
  if decide (b2z b0 = 224) then between 160 191 b1
  else if decide (b2z b0 = 237) then between 128 159 b1 else cont b1.

Definition second4 (b0 b1 : byte) : bool :=
  if decide (b2z b0 = 240) then between 144 191 b1
  else if decide (b2z b0 = 244) then between 128 143 b1 else cont b1.

Fixpoint utf8_valid (p : list byte) : bool :=
  match p with
  | [] => true
  | b0 :: p0 =>
      if between 0 127 b0 then utf8_valid p0
      else match p0 with
      | [] => false
      | b1 :: p1 =>
          if between 194 223 b0 then cont b1 && utf8_valid p1
          else match p1 with
          | [] => false
          | b2 :: p2 =>
              if between 224 239 b0 then second3 b0 b1 && cont b2 && utf8_valid p2
              else match p2 with
              | [] => false
              | b3 :: p3 =>
                  between 240 244 b0 && second4 b0 b1 && cont b2 && cont b3 && utf8_valid p3
              end
          end
      end
  end.

(** * Scalar values *)

Definition scalar (c : Z) : Prop := 0 <= c < 55296 \/ 57344 <= c < 1114112.

Definition utf8_encode (c : Z) : list byte :=
  if decide (c < 128) then [z2b c]
  else if decide (c < 2048) then [z2b (192 + c / 64); z2b (128 + c mod 64)]
  else if decide (c < 65536) then
    [z2b (224 + c / 4096); z2b (128 + c / 64 mod 64); z2b (128 + c mod 64)]
  else [z2b (240 + c / 262144); z2b (128 + c / 4096 mod 64); z2b (128 + c / 64 mod 64);
        z2b (128 + c mod 64)].

Lemma between_spec lo hi b : between lo hi b = true <-> lo <= b2z b <= hi.
Proof. apply bool_decide_eq_true. Qed.

(** The bytes of an encoding as numbers. *)
Lemma z2b_small z : 0 <= z < 256 -> b2z (z2b z) = z.
Proof. intros Hz. rewrite b2z_z2b. by apply Z.mod_small. Qed.

Ltac utf8_arith :=
  unfold scalar in *; Z.to_euclidean_division_equations; lia.

(** A valid sequence followed by anything is judged by what follows. *)
Lemma utf8_valid_encode c p : scalar c -> utf8_valid (utf8_encode c ++ p) = utf8_valid p.
Proof.
  intros Hc. unfold utf8_encode.
  destruct (decide (c < 128)); [|destruct (decide (c < 2048)); [|destruct (decide (c < 65536))]].
  all: cbn [app utf8_valid]; unfold second3, second4, cont, between;
    rewrite ?z2b_small by utf8_arith.
  all: repeat match goal with
    | |- context [bool_decide ?P] =>
        first [rewrite (bool_decide_true P) by utf8_arith
              |rewrite (bool_decide_false P) by utf8_arith]
    | |- context [decide ?P] => destruct (decide P)
    end; done.
Qed.

Ltac utf8_bytes :=
  repeat match goal with
  | H : _ && _ = true |- _ => apply andb_true_iff in H as [? ?]
  | H : between _ _ _ = true |- _ => apply between_spec in H
  | H : between _ _ _ = false |- _ => apply bool_decide_eq_false in H
  | H : cont _ = true |- _ => unfold cont in H
  | H : second3 _ _ = true |- _ => unfold second3 in H; repeat case_decide
  | H : second4 _ _ = true |- _ => unfold second4 in H; repeat case_decide
  end.

(** A non-empty valid sequence starts with the encoding of a scalar value. *)
Lemma utf8_valid_first b0 p :
  utf8_valid (b0 :: p) = true ->
  exists c q, scalar c /\ b0 :: p = utf8_encode c ++ q /\ utf8_valid q = true.
Proof.
  cbn [utf8_valid]. pose proof (b2z_range b0). destruct (between 0 127 b0) eqn:E1.
  { intros Hv. utf8_bytes. exists (b2z b0), p. split; [utf8_arith|]. split; [|done].
    unfold utf8_encode. rewrite decide_True by lia. by rewrite z2b_b2z. }
  destruct p as [|b1 p]; [done|]. pose proof (b2z_range b1). destruct (between 194 223 b0) eqn:E2.
  { intros Hv. utf8_bytes. exists ((b2z b0 - 192) * 64 + (b2z b1 - 128)), p.
    split; [utf8_arith|]. split; [|done]. unfold utf8_encode.
    rewrite decide_False, decide_True by lia. cbn [app].
    repeat (f_equal; try (apply b2z_inj; rewrite z2b_small; utf8_arith)). }
  destruct p as [|b2 p]; [done|]. pose proof (b2z_range b2). destruct (between 224 239 b0) eqn:E3.
  { intros Hv. exists ((b2z b0 - 224) * 4096 + (b2z b1 - 128) * 64 + (b2z b2 - 128)), p.
    utf8_bytes; (split; [utf8_arith|]; split; [|done]; unfold utf8_encode;
      rewrite !decide_False, decide_True by lia; cbn [app];
      repeat (f_equal; try (apply b2z_inj; rewrite z2b_small; utf8_arith))). }
  destruct p as [|b3 p]; [done|]. pose proof (b2z_range b3). intros Hv.
  exists ((b2z b0 - 240) * 262144 + (b2z b1 - 128) * 4096 + (b2z b2 - 128) * 64 + (b2z b3 - 128)), p.
  utf8_bytes; (split; [utf8_arith|]; split; [|done]; unfold utf8_encode;
    rewrite !decide_False by lia; cbn [app];
    repeat (f_equal; try (apply b2z_inj; rewrite z2b_small; utf8_arith))).
Qed.

(** [utf8_valid] accepts exactly the encodings of sequences of scalar values. *)
Lemma utf8_valid_spec p :
  utf8_valid p = true <-> exists cs, Forall scalar cs /\ p = concat (utf8_encode <$> cs).
Proof.
  split.
  - remember (length p) as n eqn:En. revert p En.
    induction n as [n IH] using lt_wf_ind. intros [|b0 p] -> Hv; [by exists []|].
    destruct (utf8_valid_first b0 p Hv) as (c & q & Hc & E & Hq). rewrite E in *.
    assert (0 < length (utf8_encode c))%nat by (unfold utf8_encode; repeat case_decide; simpl; lia).
    destruct (IH (length q)) with q as (cs & Hcs & ->); [rewrite length_app; lia|done|done|].
    exists (c :: cs). split; [by constructor|done].
  - intros (cs & Hcs & ->). induction Hcs as [|c cs Hc _ IH]; [done|].
    rewrite fmap_cons. cbn [concat]. by rewrite utf8_valid_encode.
Qed.
