(* ===== verification/Codec.v ===== *)
(** Codecs and connections that use them: [src/codec.go].

    [Codec] is the interface of the source; [LawfulDecoder] is what a connection relies
    on: items have byte encodings, [Decode] finds the item at the front of the unread
    bytes or reports [ErrNeedMore] leaving them alone and leaving room to read into.
    [ReadNext] is proved against that interface, and its asynchronous variant against
    [ReadNext]. *)

From S2P Require Import Prelude GoSlice GoIO ByteBuffer.

(** * The interface *)

Class Codec (C Enc Dec : Type) := {
  codec_encode : C -> Enc -> ByteBuffer -> res (C * ByteBuffer * option error);
  codec_decode : C -> ByteBuffer -> res (C * ByteBuffer * (option Dec * option error))
}.

(** * [CodecConn] *)

Record CodecConn (C T : Type) : Type := mkCodecConn {
  stream : T;
  codec : C;
  src : ByteBuffer;
  dst : ByteBuffer
}.
Arguments mkCodecConn {C T}.
Arguments stream {C T}.
Arguments codec {C T}.
Arguments src {C T}.
Arguments dst {C T}.

Definition NewCodecConn {C T} (stream : T) (codec : C) (src dst : ByteBuffer) :
    CodecConn C T * option error := (mkCodecConn stream codec src dst, None).

Section codec_conn.
Context {C Enc Dec T : Type} `{Codec C Enc Dec} `{Reader T} `{Writer T}.
Implicit Types (conn : CodecConn C T).

(** [for { item, err := c.codec.Decode(c.src); ...; _, err = c.src.ReadFrom(c.stream) }]. *)
Fixpoint ReadNext (fuel : nat) conn : res (CodecConn C T * (option Dec * option error)) :=
  match fuel with
  | O => NoFuel
  | S fuel' =>
      '(c, b, (item, err)) ← codec_decode (codec conn) (src conn);
      let conn := mkCodecConn (stream conn) c b (dst conn) in
      match err with
      | None => Ret (conn, (item, None))
      | Some e =>
          if decide (e <> ErrNeedMore) then Ret (conn, (None, Some e))
          else
            '(b, t, (_, err)) ← ReadFrom (src conn) (stream conn);
            let conn := mkCodecConn t (codec conn) b (dst conn) in
            match err with
            | Some e => Ret (conn, (None, Some e))
            | None => ReadNext fuel' conn
            end
      end
  end.

(** [AsyncReadNext(cb)] up to the next return to the event loop: [Some] is the
    argument [cb] is called with, [None] that the stream's [AsyncRead] is pending on the
    free part of [src]. *)
Definition AsyncReadNext conn : res (CodecConn C T * option (option error * option Dec)) :=
  '(c, b, (item, err)) ← codec_decode (codec conn) (src conn);
  let conn := mkCodecConn (stream conn) c b (dst conn) in
  if decide (err = Some ErrNeedMore) then Ret (conn, None)
  else Ret (conn, Some (err, item)).

(** The callback of that [AsyncRead], run when it completes. *)
Definition AsyncReadNext_resume conn (complete : list byte -> list byte * Z * option error) :
    res (CodecConn C T * option (option error * option Dec)) :=
  '(b, (err, _)) ← AsyncReadFrom (src conn) complete;
  let conn := mkCodecConn (stream conn) (codec conn) b (dst conn) in
  match err with
  | Some e => Ret (conn, Some (Some e, None))
  | None => AsyncReadNext conn
  end.

Definition WriteNext (fuel : nat) conn (item : Enc) :
    res (CodecConn C T * (Z * option error)) :=
  '(c, b, err) ← codec_encode (codec conn) item (dst conn);
  let conn := mkCodecConn (stream conn) c (src conn) b in
  match err with
  | None =>
      '(b, t, (n, err)) ← WriteTo fuel (dst conn) (stream conn);
      Ret (mkCodecConn t (codec conn) (src conn) b, (n, err))
  | Some e => Ret (conn, (0, Some e))
  end.

(** [AsyncWriteNext(item, cb)] up to the return to the event loop: [Some] is the argument
    of [cb], [None] that the stream's [AsyncWriteAll] is pending on the read area of [dst]. *)
Definition AsyncWriteNext conn (item : Enc) : res (CodecConn C T * option (option error * Z)) :=
  '(c, b, err) ← codec_encode (codec conn) item (dst conn);
  let conn := mkCodecConn (stream conn) c (src conn) b in
  match err with
  | None => Ret (conn, None)
  | Some e => Ret (conn, Some (Some e, 0))
  end.

(** The completion of that [AsyncWriteAll]; the pair is the argument of [cb]. *)
Definition AsyncWriteNext_resume conn (complete : list byte -> option error * Z) :
    res (CodecConn C T * (option error * Z)) :=
  '(b, r) ← AsyncWriteTo (dst conn) complete;
  Ret (mkCodecConn (stream conn) (codec conn) (src conn) b, r).

Definition NextLayer conn : T := stream conn.

Definition CodecConn_Close conn (close : T -> T * option error) : CodecConn C T * option error :=
  let '(t, err) := close (stream conn) in
  (mkCodecConn t (codec conn) (src conn) (dst conn), err).
End codec_conn.

(** * What a decoder promises *)

Class LawfulDecoder (C Enc Dec : Type) `{Codec C Enc Dec} := {
  (** the bytes of the buffer no returned item covers *)
  unread_of : C -> ByteBuffer -> list byte -> Prop;
  (** the encodings [c] accepts, and the items they stand for *)
  encoding : C -> list byte -> Prop;
  denotes : Dec -> list byte -> Prop;
  (** the same configuration, after any number of calls *)
  same_codec : C -> C -> Prop;
  same_codec_trans : forall c1 c2 c3, same_codec c1 c2 -> same_codec c2 c3 -> same_codec c1 c3;
  same_codec_encoding : forall c c' x, same_codec c c' -> encoding c x -> encoding c' x;
  unread_areas : forall c b U, unread_of c b U -> exists S R W F o, b = bb S R W F o;
  (** bytes that arrive at the end of the write area *)
  unread_more : forall c S R W F F' o U x,
    unread_of c (bb S R W F o) U -> zlen F' + zlen x = zlen F ->
    unread_of c (bb S R (W ++ x) F' o) (U ++ x);
  decode_item : forall c b x rest,
    unread_of c b (x ++ rest) -> encoding c x ->
    exists c' b' d, codec_decode c b = Ret (c', b', (Some d, None)) /\ denotes d x
      /\ unread_of c' b' rest /\ same_codec c c';
  decode_more : forall c b U y,
    unread_of c b U -> encoding c (U ++ y) -> y <> [] ->
    exists c' b', codec_decode c b = Ret (c', b', (None, Some ErrNeedMore))
      /\ unread_of c' b' U /\ 0 < Reserved b' /\ same_codec c c'
}.

(** * Reading items from a stream *)

Section read_next.
Context {C Enc Dec T : Type} `{LawfulDecoder C Enc Dec} `{ReaderStream T}.
Implicit Types (conn : CodecConn C T).

(** The bytes of the connection no returned item covers, buffered or still to come. *)
Definition conn_holds conn (bs : list byte) : Prop :=
  exists U, unread_of (codec conn) (src conn) U /\ U ++ pend (stream conn) = bs.

(** One read into the free part of the buffer. *)
Lemma ReadFrom_stream c b U (t : T) :
  unread_of c b U -> 0 < Reserved b -> pend t <> [] ->
  exists b' t' x, ReadFrom b t = Ret (b', t', (zlen x, None)) /\ x <> []
    /\ unread_of c b' (U ++ x) /\ pend t = x ++ pend t'.
Proof.
  intros Hu Hr Hp. destruct (unread_areas c b U Hu) as (S & R & W & F & o & ->).
  unfold Reserved in Hr. rewrite scap_bb in Hr. simpl in Hr.
  assert (F <> []) as HF by (intros ->; simpl in Hr; lia).
  destruct (pend_read t F HF Hp) as (t' & n & E & Hn & Hnp & Ht').
  rewrite (ReadFrom_bb S R W F o t t' _ _ _ E) by llia.
  eexists _, t', (ztake n (pend t)). split_and!.
  - do 4 f_equal. llia.
  - intros E0. assert (zlen (ztake n (pend t)) = 0) by (by rewrite E0). llia.
  - rewrite ztake_app_le by llia. rewrite (ztake_all n) by llia.
    eapply unread_more; [done|]. rewrite zdrop_app_ge by llia. llia.
  - by rewrite Ht', take_drop.
Qed.

Lemma ReadNext_stream fuel conn x rest :
  conn_holds conn (x ++ rest) -> encoding (codec conn) x ->
  (length (pend (stream conn)) < fuel)%nat ->
  exists conn' d, ReadNext fuel conn = Ret (conn', (Some d, None)) /\ denotes d x
    /\ conn_holds conn' rest /\ dst conn' = dst conn
    /\ same_codec (codec conn) (codec conn')
    /\ (length (pend (stream conn')) <= length (pend (stream conn)))%nat.
Proof.
  revert conn. induction fuel as [|fuel IH]; intros conn (U & Hu & HU) Hx Hf; [lia|].
  cbn [ReadNext].
  assert ((exists u, U = x ++ u) \/ exists y, x = U ++ y /\ y <> []) as [[u ->]|(y & -> & Hy)].
  { destruct (app_eq_inv _ _ _ _ HU) as [(u & -> & _)|(y & -> & _)]; [by eauto|].
    destruct y as [|z y]; [left; exists []; by rewrite !app_nil_r|right; eauto]. }
  - destruct (decode_item _ _ _ _ Hu Hx) as (c' & b' & d & -> & Hd & Hu' & Hc). res_step.
    eexists _, d. split; [done|]. split; [done|]. split; [|done].
    exists u. split; [done|]. simpl. rewrite <-app_assoc in HU. by apply app_inv_head in HU.
  - destruct (decode_more _ _ _ _ Hu Hx Hy) as (c' & b' & -> & Hu' & Hr & Hc). res_step.
    rewrite decide_False by auto. cbn [src stream codec dst].
    rewrite <-app_assoc in HU. apply app_inv_head in HU.
    assert (pend (stream conn) <> []) as Hp by (rewrite HU; by destruct y).
    destruct (ReadFrom_stream c' b' U (stream conn) Hu' Hr Hp) as (b1 & t1 & z & -> & Hz & Hu1 & Ht1).
    res_step. assert (length (pend t1) < length (pend (stream conn)))%nat.
    { rewrite Ht1, length_app. destruct z; [done|simpl; lia]. }
    destruct (IH (mkCodecConn t1 c' b1 (dst conn))) as (conn' & d & -> & Hd & Hh & Hds & Hc' & Hl).
    + exists (U ++ z). split; [done|]. simpl. rewrite <-!app_assoc, <-Ht1, HU. done.
    + by eapply same_codec_encoding.
    + simpl. lia.
    + exists conn', d. split_and!; [done..| |simpl in *; lia]. by eapply same_codec_trans.
Qed.
End read_next.

(** * The asynchronous reader *)

Section async_read_next.
Context {C Enc Dec T : Type} `{Codec C Enc Dec} `{Reader T}.
Implicit Types (conn : CodecConn C T).

(** An event loop that completes each pending [AsyncRead] with one [Read] of the
    transport into the slice the operation was started on, at most [fuel] times. *)
Fixpoint complete_reads (fuel : nat) conn (r : option (option error * option Dec)) :
    res (CodecConn C T * (option error * option Dec)) :=
  match r with
  | Some r => Ret (conn, r)
  | None =>
      match fuel with
      | O => NoFuel
      | S fuel' =>
          s ← reslice (data (src conn)) (wi (src conn)) (scap (data (src conn)));
          '(t, completion) ← io_read (stream conn) (elems s);
          '(conn, r) ← AsyncReadNext_resume
            (mkCodecConn t (codec conn) (src conn) (dst conn)) (fun _ => completion);
          complete_reads fuel' conn r
      end
  end.

(** The result of [ReadNext] in the order of the callback's arguments; [ReadNext]
    drops the item of a failed [Decode]. *)
Definition sync_result (r : option error * option Dec) : option Dec * option error :=
  (match fst r with None => snd r | Some _ => None end, fst r).

Lemma ReadFrom_Async b (t : T) :
  ReadFrom b t
  = (s ← reslice (data b) (wi b) (scap (data b));
     '(t, completion) ← io_read t (elems s);
     '(b, (err, n)) ← AsyncReadFrom b (fun _ => completion);
     Ret (b, t, (n, err))).
Proof.
  unfold ReadFrom, AsyncReadFrom.
  destruct (reslice (data b) (wi b) (scap (data b))) as [s| |]; [|done..]. res_step.
  destruct (io_read t (elems s)) as [[t' [[p n] e]]| |]; [|done..]. res_step.
  destruct e; [done|]. by destruct (set_wi _ _ _).
Qed.

Lemma AsyncReadNext_sync fuel conn :
  ReadNext fuel conn <> NoFuel ->
  ReadNext fuel conn
  = ('(conn, r) ← AsyncReadNext conn;
     '(conn, r) ← complete_reads fuel conn r;
     Ret (conn, sync_result r)).
Proof.
  revert conn. induction fuel as [|fuel IH]; intros conn; [done|].
  cbn [ReadNext]. unfold AsyncReadNext at 1.
  destruct (codec_decode (codec conn) (src conn)) as [[[c b] [i [e|]]]| |]; res_step; try done.
  destruct (decide (e = ErrNeedMore)) as [->|He].
  - rewrite decide_False by auto. rewrite decide_True by done.
    res_step. cbn [complete_reads codec stream src dst]. rewrite ReadFrom_Async.
    destruct (reslice (data b) (wi b) (scap (data b))) as [s| |]; [|done..]. res_step.
    destruct (io_read (stream conn) (elems s)) as [[t r]| |]; [|done..]. res_step.
    unfold AsyncReadNext_resume. cbn [src codec stream dst].
    destruct (AsyncReadFrom b (fun _ => r)) as [[b' [[e|] n]]| |]; res_step; try done.
    + by destruct fuel.
    + intros Hf. rewrite (IH _ Hf). by destruct (AsyncReadNext _) as [[]| |].
  - rewrite decide_True by done. by rewrite decide_False by congruence.
Qed.
End async_read_next.
