(* ===== verification/LengthFrame.v ===== *)
(** The length-prefixed codec of [src/codec/frame/frame.go]: a payload behind four
    bytes of big-endian length.

    [Decode] returns the payload as a slice of the buffer and consumes it at the next
    call.  It is an instance of [LawfulDecoder]. *)

From S2P Require Import Prelude GoSlice GoIO ByteBuffer Codec.

(** * Operations *)

Definition HeaderLen : Z := 4.
Definition MaxPayloadLength : Z := 1024 * 1024 * 1024.

(** [codec.src] of the source is the buffer [Decode] is called with: [NewCodec] is
    handed the buffer of the connection. *)
Record LengthCodec : Type := mkLengthCodec {
  decodeReset : bool;
  decodeBytes : Z
}.

Definition NewCodec : LengthCodec := mkLengthCodec false 0.

Section length_ops.
Context `{GoRuntime}.
Implicit Types (c : LengthCodec) (b : ByteBuffer).

(** The function [Encode] passes to [Claim]. *)
Definition put_frame (frame into : list byte) : res (list byte * Z) :=
  if decide (HeaderLen <= zlen into) then
    let payloadLen := zlen frame in
    let into := write_at 0 (be_encode 4 payloadLen) into in
    let into := write_at HeaderLen (ztake (zlen into - HeaderLen) frame) into in
    Ret (into, HeaderLen + payloadLen)
  else Panic.

Definition Encode (frame : list byte) b : res (ByteBuffer * option error) :=
  let payloadLen := zlen frame in
  if decide (payloadLen > MaxPayloadLength) then Ret (b, Some ErrPayloadLengthOverflow)
  else
    b ← Reserve b (HeaderLen + payloadLen);
    b ← Claim b (put_frame frame);
    Ret (b, None).

Definition resetDecode c b : res (LengthCodec * ByteBuffer) :=
  if decodeReset c then
    b ← Consume b (decodeBytes c);
    Ret (mkLengthCodec false 0, b)
  else Ret (c, b).

(** [src.Data()[:n]]. *)
Definition data_prefix b (n : Z) : res (slice byte) :=
  d ← reslice (data b) (si b) (ri b); reslice d 0 n.

Definition Decode c b : res (LengthCodec * ByteBuffer * (option (slice byte) * option error)) :=
  '(c, b) ← resetDecode c b;
  '(b, err) ← PrepareRead b HeaderLen;
  match err with
  | Some e => Ret (c, b, (None, Some e))
  | None =>
      h ← data_prefix b HeaderLen;
      let payloadLen := be_decode (elems h) in
      if decide (payloadLen > MaxPayloadLength)
      then Ret (c, b, (None, Some ErrPayloadLengthOverflow))
      else
        '(b, err) ← PrepareRead b (HeaderLen + payloadLen);
        match err with
        | Some e =>
            b ← (if decide (e = ErrNeedMore) then Reserve b (HeaderLen + payloadLen) else Ret b);
            Ret (c, b, (None, Some e))
        | None =>
            b ← Consume b HeaderLen;
            p ← data_prefix b payloadLen;
            Ret (mkLengthCodec true payloadLen, b, (Some p, None))
        end
  end.

#[export] Instance length_codec : Codec LengthCodec (list byte) (slice byte) := {|
  codec_encode := fun c x b => '(b, err) ← Encode x b; Ret (c, b, err);
  codec_decode := Decode
|}.
End length_ops.

(** * Encoding and decoding *)

Definition prefixed (p : list byte) : list byte := be_encode 4 (zlen p) ++ p.

Lemma zlen_prefixed p : zlen (prefixed p) = 4 + zlen p.
Proof. unfold prefixed. rewrite length_app, length_be_encode. lia. Qed.

Section length_laws.
Context `{GoRuntime}.

(** The encoding goes to the write area: it is left to the caller to commit it. *)
Lemma Encode_prefixed S R W F o p :
  zlen p <= MaxPayloadLength -> zlen S + zlen R + zlen W + zlen F <= 2 ^ 59 ->
  exists F', Encode p (bb S R W F o) = Ret (bb S R (W ++ prefixed p) F' o, None)
    /\ zlen F - zlen (prefixed p) <= zlen F' /\ zlen F' <= 2 ^ 60.
Proof.
  unfold Encode, MaxPayloadLength, HeaderLen. intros Hp Hs. rewrite decide_False by lia.
  destruct (Reserve_bb S R W F o (4 + zlen p)) as (F1 & ER & HF1 & HF2);
    [unfold is_int; lia|unfold max_alloc; lia|].
  pose proof (Reserve_cap S R W F o (4 + zlen p) _ ltac:(unfold is_int; lia) ER) as Hc.
  unfold Cap in Hc. rewrite !scap_bb in Hc. unfold max_alloc in Hc. rewrite ER. res_step.
  destruct (split3 4 (4 + zlen p) F1) as (a & b & c & -> & Ha & Hb); [lia|lia|].
  assert (zlen (prefixed p) = 4 + zlen p) as Hl by apply zlen_prefixed.
  rewrite (Claim_bb _ _ _ _ _ _ (prefixed p ++ c) (4 + zlen p)).
  - rewrite decide_True by llia. res_step. exists c. zsimpl. split; [done|llia].
  - unfold put_frame, HeaderLen. rewrite decide_True by llia. cbv zeta.
    pose proof (length_be_encode 4 (zlen p)) as He.
    assert (write_at 0 (be_encode 4 (zlen p)) (a ++ b ++ c) = be_encode 4 (zlen p) ++ b ++ c) as ->
      by (unfold write_at; by zsimpl).
    rewrite (ztake_all _ p) by llia. do 2 f_equal. unfold write_at, prefixed.
    rewrite <-app_assoc. by zsimpl.
  - rewrite !length_app. llia.
  - unfold is_int. llia.
Qed.

(** [U] are the bytes of [b] that no returned payload covers; the buffer has room for a
    header. *)
Definition unread_len (c : LengthCodec) (b : ByteBuffer) (U : list byte) : Prop :=
  exists S R W F o, b = bb S R W F o
    /\ (let k := if decodeReset c then decodeBytes c else 0 in
        0 <= k <= zlen R /\ U = zdrop k R ++ W)
    /\ bounded S R W F /\ 4 <= zlen R + zlen W + zlen F.

Lemma resetDecode_len c b U :
  unread_len c b U ->
  exists c' S R W F o, resetDecode c b = Ret (c', bb S R W F o) /\ decodeReset c' = false
    /\ U = R ++ W /\ bounded S R W F /\ 4 <= zlen R + zlen W + zlen F.
Proof.
  intros (S & R & W & F & o & -> & [Hk ->] & [Hs Ht] & H4). unfold resetDecode, bounded.
  destruct (decodeReset c) eqn:E.
  - destruct (Consume_bb S R W F o (decodeBytes c)) as (F' & -> & HF'). res_step.
    eexists _, S, _, W, F', o. split_and!; [done..|llia|llia|llia].
  - exists c, S, R, W, F, o. rewrite zdrop_neg by lia. by split_and!.
Qed.

Lemma data_prefix_bb S R W F o n :
  0 <= n <= zlen R ->
  exists p, data_prefix (bb S R W F o) n = Ret p /\ elems p = ztake n R.
Proof.
  intros Hn. unfold data_prefix. rewrite reslice_bb by (simpl; lia). res_step.
  rewrite reslice_0 by (unfold scap; simpl; llia). eexists. split; [done|].
  unfold elems. simpl. by zsimpl.
Qed.

Lemma unread_len_false c S R W F o U :
  decodeReset c = false -> U = R ++ W -> bounded S R W F -> 4 <= zlen R + zlen W + zlen F ->
  unread_len c (bb S R W F o) U.
Proof.
  intros E -> Hs H4. exists S, R, W, F, o. cbv zeta. rewrite E, zdrop_neg by lia.
  split_and!; [done|lia|lia|done|done..].
Qed.

Lemma Decode_short c b U :
  unread_len c b U -> zlen U < 4 ->
  exists c' b', Decode c b = Ret (c', b', (None, Some ErrNeedMore))
    /\ unread_len c' b' U /\ 0 < Reserved b'.
Proof.
  intros Hu HU. destruct (resetDecode_len c b U Hu) as (c1 & S & R & W & F & o & E & Hr & -> & Hs & H4).
  unfold Decode, HeaderLen. rewrite E. res_step. rewrite length_app in HU. pose proof Hs as [??].
  rewrite PrepareRead_bb by (unfold is_int; lia). rewrite decide_False by lia. res_step.
  eexists _, _. split; [done|]. split; [by apply unread_len_false|].
  unfold Reserved. rewrite scap_bb. simpl. lia.
Qed.

(** Enough bytes: they are in the read area afterwards. *)
Lemma PrepareRead_enough S R W F o n :
  bounded S R W F -> 0 <= n <= zlen R + zlen W ->
  exists R' W', PrepareRead (bb S R W F o) n = Ret (bb S R' W' F o, None)
    /\ R ++ W = R' ++ W' /\ n <= zlen R' /\ zlen R' + zlen W' = zlen R + zlen W
    /\ bounded S R' W' F.
Proof.
  intros [Hs Ht] Hn. rewrite PrepareRead_bb by (unfold is_int; lia). rewrite decide_True by lia.
  eexists _, _. split; [done|]. unfold bounded. split_and!; [|llia..].
  by rewrite <-app_assoc, take_drop.
Qed.

(** The first bytes of the read area, and what follows them. *)
Lemma read_area_split (h t R W : list byte) :
  h ++ t = R ++ W -> zlen h <= zlen R -> ztake (zlen h) R = h /\ zdrop (zlen h) R ++ W = t.
Proof.
  intros E Hl. destruct (app_eq_inv _ _ _ _ E) as [(k & -> & ->)|(k & -> & ->)].
  - assert (k = []) as -> by (apply nil_length_inv; rewrite length_app in Hl; lia).
    rewrite app_nil_r. by zsimpl.
  - by zsimpl.
Qed.

Lemma Decode_long c b h t :
  unread_len c b (h ++ t) -> length h = 4%nat ->
  let n := be_decode h in
  if decide (n > MaxPayloadLength) then
    exists c' b', Decode c b = Ret (c', b', (None, Some ErrPayloadLengthOverflow))
      /\ unread_len c' b' (h ++ t)
  else if decide (zlen t < n) then
    exists c' b', Decode c b = Ret (c', b', (None, Some ErrNeedMore))
      /\ unread_len c' b' (h ++ t) /\ HeaderLen + n <= Reserved b'
  else
    exists c' b' p, Decode c b = Ret (c', b', (Some p, None)) /\ elems p = ztake n t
      /\ unread_len c' b' (zdrop n t).
Proof.
  intros Hu Hh n.
  destruct (resetDecode_len c b _ Hu) as (c1 & S & R & W & F & o & E & Hr & HU & [Hs Ht] & H4).
  pose proof (be_decode_bound h) as Hn. fold n in Hn. rewrite Hh in Hn.
  assert (4 + zlen t = zlen R + zlen W) as Hl.
  { apply (f_equal length) in HU. rewrite !length_app in HU. lia. }
  unfold Decode, HeaderLen. rewrite E. res_step.
  destruct (PrepareRead_enough S R W F o 4) as (R1 & W1 & -> & HU1 & HR1 & Hl1 & [_ Ht1]); [done|lia|].
  res_step. rewrite HU1 in HU.
  destruct (read_area_split h t R1 W1 HU) as [Hh1 _]; [lia|]. rewrite Hh in Hh1.
  change (Z.of_nat 4) with 4 in Hh1.
  destruct (data_prefix_bb S R1 W1 F o 4) as (p & -> & Ep); [lia|]. res_step.
  rewrite Ep, Hh1. fold n. unfold MaxPayloadLength in *. case_decide as Hbig.
  { eexists _, _. split; [done|]. by apply unread_len_false; [..|lia]. }
  destruct (decide (zlen t < n)).
  - rewrite PrepareRead_bb by (unfold is_int; lia). rewrite (decide_False (P := 4 + n <= _)) by lia.
    res_step. destruct (Reserve_bb S R1 W1 F o (4 + n)) as (F' & ER & HF1 & HF2);
      [unfold is_int; lia|unfold max_alloc; lia|].
    pose proof (Reserve_cap S R1 W1 F o (4 + n) _ ltac:(unfold is_int; lia) ER) as Hc.
    unfold Cap in Hc. rewrite !scap_bb in Hc. unfold max_alloc in Hc. rewrite ER. res_step.
    eexists _, _. split; [done|]. split; [apply unread_len_false; unfold bounded; done || lia|].
    unfold Reserved. rewrite scap_bb. simpl. lia.
  - destruct (PrepareRead_enough S R1 W1 F o (4 + n))
      as (R2 & W2 & -> & HU2 & HR2 & Hl2 & [_ Ht2]); [done|lia|].
    res_step. rewrite HU2 in HU. destruct (read_area_split h t R2 W2 HU) as [_ Et]; [lia|].
    rewrite Hh in Et. change (Z.of_nat 4) with 4 in Et.
    destruct (Consume_bb S R2 W2 F o 4) as (F' & -> & HF'). res_step.
    destruct (data_prefix_bb S (zdrop 4 R2) W2 F' o n) as (q & -> & Eq); [llia|]. res_step.
    eexists _, _, q. split; [done|]. split; [rewrite Eq, <-Et; by rewrite ztake_app_le by llia|].
    exists S, (zdrop 4 R2), W2, F', o. simpl. split; [done|]. unfold bounded.
    split_and!; [lia|llia| |llia|llia|llia]. rewrite <-Et. by rewrite zdrop_app_le by llia.
Qed.
End length_laws.

(** * The decoder's contract *)

Definition length_encoding (x : list byte) : Prop :=
  exists p, zlen p <= MaxPayloadLength /\ x = prefixed p.

Lemma be_decode_prefix (p : list byte) :
  zlen p <= MaxPayloadLength -> be_decode (be_encode 4 (zlen p)) = zlen p.
Proof.
  unfold MaxPayloadLength. intros Hp. rewrite be_decode_encode. apply Z.mod_small.
  change (256 ^ Z.of_nat 4) with 4294967296. lia.
Qed.

#[export] Instance length_lawful `{GoRuntime} : LawfulDecoder LengthCodec (list byte) (slice byte).
Proof.
  refine {| unread_of := unread_len; encoding := fun _ => length_encoding;
            denotes := fun d x => x = prefixed (elems d); same_codec := fun _ _ => True |}.
  - done.
  - done.
  - intros c b U (S & R & W & F & o & -> & _). by eexists _, _, _, _, _.
  - intros c S R W F F' o U x (S' & R' & W' & F'' & o' & E & [Hk ->] & [Hs Ht] & H4) Hl.
    apply bb_inj in E as (-> & -> & -> & -> & ->).
    exists S', R', (W' ++ x), F', o'. split; [done|]. rewrite <-app_assoc.
    unfold bounded. split_and!; try done; try lia; llia.
  - intros c b x rest Hu (p & Hp & ->). unfold prefixed in *. rewrite <-app_assoc in Hu.
    pose proof (Decode_long _ _ _ _ Hu (length_be_encode _ _)) as Hd.
    rewrite be_decode_prefix in Hd by done. cbv zeta in Hd. rewrite !decide_False in Hd by llia.
    destruct Hd as (c' & b' & q & Ed & Eq & Hu'). exists c', b', q. split; [done|].
    revert Eq Hu'. zsimpl. by intros -> ?.
  - intros c b U y Hu (p & Hp & HU) Hy.
    assert (0 < zlen y) by (destruct y; [done|simpl; lia]).
    destruct (decide (zlen U < 4)) as [Hl|Hl].
    { destruct (Decode_short c b U Hu Hl) as (c' & b' & Ed & Hu' & Hr). exists c', b'. done. }
    assert (exists t, U = be_encode 4 (zlen p) ++ t /\ p = t ++ y) as (t & -> & ->).
    { symmetry in HU. pose proof (length_be_encode 4 (zlen p)) as He.
      destruct (read_area_split _ _ _ _ HU) as [E1 E2]; [lia|].
      exists (zdrop (zlen (be_encode 4 (zlen p))) U). rewrite <-E1 at 1. by rewrite take_drop. }
    pose proof (Decode_long _ _ _ _ Hu (length_be_encode _ _)) as Hd.
    rewrite be_decode_prefix in Hd by done. cbv zeta in Hd.
    rewrite decide_False, decide_True in Hd by llia.
    destruct Hd as (c' & b' & Ed & Hu' & Hr). exists c', b'. unfold HeaderLen in Hr.
    split_and!; done || llia.
Defined.

Section length_write.
Context `{GoRuntime}.

Lemma WriteTo_nothing {T} `{Writer T} S W F o fuel (w : T) :
  WriteTo fuel (bb S [] W F o) w = Ret (bb S [] W F o, w, (0, None)).
Proof.
  unfold WriteTo. destruct fuel; cbn [WriteTo_loop]; rewrite decide_False by (simpl; lia); done.
Qed.

(** The room a header needs is kept, and the write area is part of the unread bytes. *)
Lemma unread_len_write c S R W F o F' x :
  unread_len c (bb S R W F o) [] -> zlen x <= 2 ^ 59 -> zlen F - zlen x <= zlen F' ->
  zlen F' <= 2 ^ 60 -> zlen S + zlen R + zlen W <= 2 ^ 59 ->
  unread_len c (bb S R (W ++ x) F' o) x.
Proof.
  intros (S1 & R1 & W1 & F1 & o1 & E & [Hk HU] & [Hs Ht] & H4) Hx HF HF2 Hsum.
  apply bb_inj in E as (-> & -> & -> & -> & ->).
  exists S1, R1, (W1 ++ x), F', o1. split; [done|]. unfold bounded.
  symmetry in HU. apply app_nil in HU as [HU ->]. rewrite HU.
  split_and!; try done; llia.
Qed.
End length_write.

(** * Properties *)

Section length_properties.
Context `{GoRuntime}.

(** C33: [Encode] followed by [Decode] on the same buffer gives the payload back,
    whatever other areas the buffer has, and leaves no byte unread; a payload of more
    than [MaxPayloadLength] bytes is refused and the buffer is left as it was. *)
Theorem length_roundtrip (c : LengthCodec) (b : ByteBuffer) (p : list byte) :
  unread_len c b [] -> Cap b <= 2 ^ 59 ->
  (MaxPayloadLength < zlen p -> Encode p b = Ret (b, Some ErrPayloadLengthOverflow))
  /\ (zlen p <= MaxPayloadLength ->
      exists b1 c' b' q, Encode p b = Ret (b1, None) /\ Decode c b1 = Ret (c', b', (Some q, None))
        /\ elems q = p /\ unread_len c' b' []).
Proof.
  intros Hu Hc. split; intros Hp.
  { unfold Encode. by rewrite decide_True by lia. }
  pose proof Hu as (S & R & W & F & o & -> & _). unfold Cap in Hc. rewrite scap_bb in Hc.
  destruct (Encode_prefixed S R W F o p Hp) as (F' & E & HF1 & HF2); [lia|].
  pose proof (zlen_prefixed p) as Hl. unfold MaxPayloadLength in Hp.
  assert (unread_len c (bb S R (W ++ prefixed p) F' o) (prefixed p ++ [])) as Hu'.
  { rewrite app_nil_r. apply (unread_len_write c S R W F); done || lia. }
  destruct (decode_item (LawfulDecoder := length_lawful) c _ (prefixed p) [] Hu') as (c' & b' & q & Ed & Hq & Hr & _); [by exists p|].
  exists (bb S R (W ++ prefixed p) F' o), c', b', q. split_and!; try done.
  simpl in Hq. apply app_inj_1 in Hq as [_ Hq]; [done|]. by rewrite !length_be_encode.
Qed.

(** [Encode] leaves the encoding in the write area, while [WriteTo] sends the read
    area: [WriteNext] of a connection with this codec reports success but sends nothing,
    and the item stays in the write area of the connection's buffer. *)
Theorem length_WriteNext_unsent {T} `{Writer T}
    (conn : CodecConn LengthCodec T) S W F o (p : list byte) (fuel : nat) :
  dst conn = bb S [] W F o -> zlen p <= MaxPayloadLength ->
  zlen S + zlen W + zlen F <= 2 ^ 59 ->
  exists conn' F', WriteNext fuel conn p = Ret (conn', (0, None))
    /\ stream conn' = stream conn /\ dst conn' = bb S [] (W ++ prefixed p) F' o.
Proof.
  intros Hd Hp Hs. unfold WriteNext. simpl codec_encode. rewrite Hd.
  destruct (Encode_prefixed S [] W F o p Hp) as (F1 & -> & _); [simpl; lia|]. res_step.
  cbn [dst stream]. rewrite WriteTo_nothing. res_step. by eexists _, F1.
Qed.
End length_properties.

Lemma length_roundtrip_witness :
  exists b1 c' b' q, Encode (H := doubling_runtime) [Byte.x68; Byte.x69] (bb [] [] [] (repeat Byte.x00 8) Byte.x00)
      = Ret (b1, None)
    /\ Decode (H := doubling_runtime) NewCodec b1 = Ret (c', b', (Some q, None))
    /\ elems q = [Byte.x68; Byte.x69] /\ unread_len c' b' [].
Proof.
  apply (length_roundtrip (H := doubling_runtime) NewCodec
    (bb [] [] [] (repeat Byte.x00 8) Byte.x00) [Byte.x68; Byte.x69]).
  - exists [], [], [], (repeat Byte.x00 8), Byte.x00. unfold bounded. simpl.
    split_and!; done || lia.
  - vm_compute. done.
  - vm_compute. done.
Defined.

Lemma length_WriteNext_unsent_witness :
  let conn := mkCodecConn (mkSink 1 9 []) NewCodec (bb [] [] [] [] Byte.x00)
    (bb [] [] [] [] Byte.x00) in
  exists conn' F', WriteNext (H := length_codec (H := doubling_runtime)) 0 conn [Byte.x68]
      = Ret (conn', (0, None))
    /\ stream conn' = stream conn /\ dst conn' = bb [] [] ([] ++ prefixed [Byte.x68]) F' Byte.x00.
Proof.
  intros conn. apply (length_WriteNext_unsent (H := doubling_runtime) conn [] [] [] Byte.x00);
    [done|vm_compute; done|simpl; lia].
Defined.
