(* ===== verification/WebsocketFrame.v ===== *)
(** WebSocket frames: [src/codec/websocket/frame.go], [rfc6455.go] and [util.go].

    A [Frame] is a byte slice holding header, extended length, mask and payload; the
    accessors and setters index into it, so they panic when it is too short, and
    [SetPayload] may re-allocate it.  The second half relates frames to the wire format
    of RFC 6455, section 5.2. *)

From S2P Require Import Prelude GoSlice GoIO.

(** * src/codec/websocket/rfc6455.go *)

Definition MaxControlFramePayloadLength : Z := 125.
Definition frameMaxHeaderLength : Z := 14.
Definition frameHeaderLength : Z := 2.
Definition frameMaskLength : Z := 4.

Definition bitFIN : Z := Z.shiftl 1 7.
Definition bitRSV1 : Z := Z.shiftl 1 6.
Definition bitRSV2 : Z := Z.shiftl 1 5.
Definition bitRSV3 : Z := Z.shiftl 1 4.
Definition bitmaskOpcode : Z := Z.shiftl 1 4 - 1.
Definition bitIsMasked : Z := Z.shiftl 1 7.
Definition bitmaskPayloadLength : Z := Z.shiftl 1 7 - 1.

(** [type Opcode byte] and its constants. *)
Definition OpcodeContinuation : Z := 0.
Definition OpcodeText : Z := 1.
Definition OpcodeBinary : Z := 2.
Definition OpcodeClose : Z := 8.
Definition OpcodePing : Z := 9.
Definition OpcodePong : Z := 10.

Definition IsContinuation (c : Z) : bool := bool_decide (c = OpcodeContinuation).
Definition IsText (c : Z) : bool := bool_decide (c = OpcodeText).
Definition IsBinary (c : Z) : bool := bool_decide (c = OpcodeBinary).
Definition IsClose (c : Z) : bool := bool_decide (c = OpcodeClose).
Definition IsPing (c : Z) : bool := bool_decide (c = OpcodePing).
Definition IsPong (c : Z) : bool := bool_decide (c = OpcodePong).

Definition IsReserved (c : Z) : bool :=
  negb (IsContinuation c) && negb (IsText c) && negb (IsBinary c)
  && negb (IsClose c) && negb (IsPing c) && negb (IsPong c).

Definition IsControl (c : Z) : bool := IsPing c || IsPong c || IsClose c.

(** [type CloseCode uint16] and its constants. *)
Definition CloseNormal : Z := 1000.
Definition CloseGoingAway : Z := 1001.
Definition CloseProtocolError : Z := 1002.
Definition CloseUnknownData : Z := 1003.
Definition CloseBadPayload : Z := 1007.
Definition ClosePolicyError : Z := 1008.
Definition CloseTooBig : Z := 1009.
Definition CloseNeedsExtension : Z := 1010.
Definition CloseInternalError : Z := 1011.
Definition CloseServiceRestart : Z := 1012.
Definition CloseTryAgainLater : Z := 1013.
Definition CloseNone : Z := 0.
Definition CloseNoStatus : Z := 1005.
Definition CloseAbnormal : Z := 1006.

Definition ValidCloseCode (closeCode : Z) : bool :=
  bool_decide (closeCode = CloseNormal) || bool_decide (closeCode = CloseGoingAway)
  || bool_decide (closeCode = CloseProtocolError) || bool_decide (closeCode = CloseUnknownData)
  || bool_decide (closeCode = CloseBadPayload) || bool_decide (closeCode = ClosePolicyError)
  || bool_decide (closeCode = CloseTooBig) || bool_decide (closeCode = CloseNeedsExtension)
  || bool_decide (closeCode = CloseInternalError)
  || bool_decide (closeCode = CloseServiceRestart)
  || bool_decide (closeCode = CloseTryAgainLater)
  || (bool_decide (3000 <= closeCode) && bool_decide (closeCode <= 4999)).

Definition EncodeCloseCode (cc : Z) : list byte := be_encode 2 cc.

(** [binary.BigEndian.Uint16(b[:2])]: a panic on less than two bytes. *)
Definition DecodeCloseCode (b : list byte) : res Z :=
  if decide (2 <= zlen b) then Ret (be_decode (ztake 2 b)) else Panic.

(** * src/codec/websocket/util.go *)

(** [for i := range b { b[i] ^= mask[i&3] }]. *)
Fixpoint Mask_loop (mask : list byte) (i : Z) (b : list byte) : res (list byte) :=
  match b with
  | [] => Ret []
  | x :: b' =>
      match mask !! Z.to_nat (Z.land i 3) with
      | Some m => b' ← Mask_loop mask (i + 1) b'; Ret (bxor x m :: b')
      | None => Panic
      end
  end.

Definition Mask (mask b : list byte) : res (list byte) := Mask_loop mask 0 b.

Definition EncodeCloseFramePayload (cc : Z) (reason : list byte) : list byte :=
  EncodeCloseCode cc ++ reason.

Definition DecodeCloseFramePayload (b : list byte) : res (Z * list byte) :=
  if decide (zlen b < 2) then Ret (CloseNoStatus, [])
  else cc ← DecodeCloseCode (ztake 2 b); Ret (cc, zdrop 2 b).

(** * src/codec/websocket/frame.go *)

Abbreviation Frame := (slice byte).

Definition zeroBytes : list byte := replicate 14 Byte.x00.

Definition NewFrame : Frame := Slice zeroBytes 14.

Section frame_ops.
Context `{GoRuntime}.
Implicit Types (f : Frame).

Definition Frame_Reset f : res Frame := '(f, _) ← copy_at f 0 zeroBytes; Ret f.

(** [f[i] & m], [f[i] |= m], [f[i] &= m] and [f[i] ^= m]. *)
Definition get_bits f (i m : Z) : res Z := x ← index f i; Ret (Z.land (b2z x) m).
Definition or_bits f (i m : Z) : res Frame := x ← index f i; update f i (z2b (Z.lor (b2z x) m)).
Definition and_bits f (i m : Z) : res Frame :=
  x ← index f i; update f i (z2b (Z.land (b2z x) m)).
Definition xor_bits f (i m : Z) : res Frame :=
  x ← index f i; update f i (z2b (Z.lxor (b2z x) m)).

Definition ExtendedPayloadLengthBytes f : res Z :=
  v ← get_bits f 1 bitmaskPayloadLength;
  Ret (if decide (v = 127) then 8 else if decide (v = 126) then 2 else 0).

Definition PayloadLength f : res Z :=
  length ← get_bits f 1 bitmaskPayloadLength;
  if decide (length = 127) then
    s ← reslice f frameHeaderLength (frameHeaderLength + 8); Ret (i64 (be_decode (elems s)))
  else if decide (length = 126) then
    s ← reslice f frameHeaderLength (frameHeaderLength + 2); Ret (be_decode (elems s))
  else Ret length.

Definition has_bit f (i m : Z) : res bool := v ← get_bits f i m; Ret (bool_decide (v <> 0)).

Definition IsFIN f : res bool := has_bit f 0 bitFIN.
Definition IsRSV1 f : res bool := has_bit f 0 bitRSV1.
Definition IsRSV2 f : res bool := has_bit f 0 bitRSV2.
Definition IsRSV3 f : res bool := has_bit f 0 bitRSV3.
Definition Frame_Opcode f : res Z := get_bits f 0 bitmaskOpcode.
Definition IsMasked f : res bool := has_bit f 1 bitIsMasked.
Definition SetIsMasked f : res Frame := or_bits f 1 bitIsMasked.
Definition UnsetIsMasked f : res Frame := xor_bits f 1 bitIsMasked.

Definition MaskBytes f : res Z := m ← IsMasked f; Ret (if (m : bool) then frameMaskLength else 0).

Definition SetFIN f : res Frame := or_bits f 0 bitFIN.
Definition SetRSV1 f : res Frame := or_bits f 0 bitRSV1.
Definition SetRSV2 f : res Frame := or_bits f 0 bitRSV2.
Definition SetRSV3 f : res Frame := or_bits f 0 bitRSV3.

Definition clearOpcode f : res Frame := and_bits f 0 (Z.shiftl bitmaskOpcode 4).

Definition SetOpcode f (c : Z) : res Frame :=
  let c := Z.land c bitmaskOpcode in
  f ← clearOpcode f;
  or_bits f 0 c.

Definition SetContinuation f : res Frame := SetOpcode f OpcodeContinuation.
Definition SetText f : res Frame := SetOpcode f OpcodeText.
Definition SetBinary f : res Frame := SetOpcode f OpcodeBinary.
Definition SetClose f : res Frame := SetOpcode f OpcodeClose.
Definition SetPing f : res Frame := SetOpcode f OpcodePing.
Definition SetPong f : res Frame := SetOpcode f OpcodePong.

(** The sub-slices of a frame are given by offset and length in its array. *)
Definition extendedPayloadLength f : res (option (Z * Z)) :=
  bytes ← ExtendedPayloadLengthBytes f;
  if decide (bytes > 0) then
    b ← reslice f frameHeaderLength (slen f);
    _ ← reslice b 0 bytes;
    Ret (Some (frameHeaderLength, bytes))
  else Ret None.

Definition Header f : res (list byte) := s ← reslice f 0 frameHeaderLength; Ret (elems s).

Definition maskOffset f : res Z :=
  e ← ExtendedPayloadLengthBytes f; Ret (frameHeaderLength + e).

(** Where [f.Mask()] lies, [None] for nil. *)
Definition Frame_Mask f : res (option Z) :=
  m ← IsMasked f;
  if (m : bool) then
    off ← maskOffset f;
    mask ← reslice f off (slen f);
    _ ← reslice mask 0 frameMaskLength;
    Ret (Some off)
  else Ret None.

Definition payloadOffset f : res Z :=
  e ← ExtendedPayloadLengthBytes f; m ← MaskBytes f; Ret (frameHeaderLength + e + m).

(** [binary.BigEndian.PutUint64(f[2:], n)] and the 16-bit one: a panic when [f[2:]] is
    shorter than [k] bytes. *)
Definition put_be f (k : nat) (n : Z) : res Frame :=
  s ← reslice f 2 (slen f);
  if decide (Z.of_nat k <= slen s)
  then Ret (Slice (write_at 2 (be_encode k n) (arr f)) (slen f))
  else Panic.

Definition setPayloadLength f (n : Z) : res Frame :=
  f ← and_bits f 1 (Z.shiftl 1 7);
  if decide (n > Z.shiftl 1 16 - 1) then f ← or_bits f 1 127; put_be f 8 n
  else if decide (n > 125) then f ← or_bits f 1 126; put_be f 2 n
  else or_bits f 1 n.

Definition Payload f : res (slice byte) :=
  off ← payloadOffset f; reslice f off (slen f).

Definition SetPayload f (b : list byte) : res Frame :=
  f ← setPayloadLength f (zlen b);
  off ← payloadOffset f;
  f ← ExtendSlice Byte.x00 f (i64 (off + zlen b));
  off ← payloadOffset f;
  _ ← reslice f off (slen f);
  '(f, _) ← copy_at f off b;
  Ret f.

(** [mask = f.Mask()], [payload = f.Payload()], [Mask(mask, payload)]: both alias the
    frame; [rnd] is what [GenMask] stores first, if anything. *)
Definition apply_mask f (moff : Z) (rnd : option (list byte)) : res Frame :=
  let a := match rnd with Some r => write_at moff r (arr f) | None => arr f end in
  off ← payloadOffset f;
  let f := Slice a (slen f) in
  p ← reslice f off (slen f);
  x ← Mask (ztake frameMaskLength (zdrop moff a)) (elems p);
  Ret (Slice (write_at off x a) (slen f)).

(** [rnd]: the four bytes [crypto/rand] delivers. *)
Definition MaskPayload f (rnd : list byte) : res Frame :=
  f ← SetIsMasked f;
  mask ← Frame_Mask f;
  payload ← Payload f;
  match mask with
  | Some moff => if decide (slen payload > 0) then apply_mask f moff (Some rnd) else Ret f
  | None => Panic
  end.

Definition UnmaskPayload f : res Frame :=
  mask ← Frame_Mask f;
  match mask with
  | Some moff => _ ← Payload f; apply_mask f moff None
  | None => Ret f
  end.

(** [fitPayload]: the frame made long enough, and where the payload goes. *)
Definition fitPayload f : res (Frame * option (Z * Z)) :=
  length ← PayloadLength f;
  if decide (length <= 0) then Ret (f, None)
  else
    off ← payloadOffset f;
    f ← ExtendSlice Byte.x00 f (i64 (off + length));
    off ← payloadOffset f;
    b ← reslice f off (slen f);
    _ ← reslice b 0 length;
    Ret (f, Some (off, length)).

(** [io.ReadFull(r, b)] for the sub-slice [b] of [k] bytes at [off]. *)
Definition read_part {R} `{Reader R} (fuel : nat) f (r : R) (off k : Z) :
    res (Frame * R * (Z * option error)) :=
  '(r, (b, n, err)) ← ReadFull fuel r (ztake k (zdrop off (arr f)));
  Ret (Slice (write_at off b (arr f)) (slen f), r, (n, err)).

Definition Frame_ReadFrom {R} `{Reader R} (fuel : nat) f (r : R) :
    res (Frame * R * (Z * option error)) :=
  _ ← Header f;
  '(f, r, (n1, err)) ← read_part fuel f r 0 frameHeaderLength;
  if decide (err <> None) then Ret (f, r, (n1, err)) else
  ext ← extendedPayloadLength f;
  '(f, r, (n2, err)) ← (match ext with
     | Some (off, k) => read_part fuel f r off k
     | None => Ret (f, r, (0, None))
     end);
  if decide (err <> None) then Ret (f, r, (n1 + n2, err)) else
  mask ← Frame_Mask f;
  '(f, r, (n3, err)) ← (match mask with
     | Some off => read_part fuel f r off frameMaskLength
     | None => Ret (f, r, (0, None))
     end);
  if decide (err <> None) then Ret (f, r, (n1 + n2 + n3, err)) else
  '(f, b) ← fitPayload f;
  '(f, r, (n4, err)) ← (match b with
     | Some (off, k) => read_part fuel f r off k
     | None => Ret (f, r, (0, None))
     end);
  Ret (f, r, (n1 + n2 + n3 + n4, err)).

(** [for written < len(f) { n, err := w.Write(f[written:]); ... }]. *)
Fixpoint Frame_WriteTo_loop {W} `{Writer W} (fuel : nat) f (w : W) (written : Z) :
    res (W * (Z * option error)) :=
  if decide (written < slen f) then
    match fuel with
    | O => NoFuel
    | S fuel' =>
        s ← reslice f written (slen f);
        '(w, (n, err)) ← io_write w (elems s);
        match err with
        | Some e => Ret (w, (n, Some e))
        | None => Frame_WriteTo_loop fuel' f w (written + n)
        end
    end
  else Ret (w, (written, None)).

Definition Frame_WriteTo {W} `{Writer W} (fuel : nat) f (w : W) :
    res (W * (Z * option error)) := Frame_WriteTo_loop fuel f w 0.
End frame_ops.
