(* ===== verification/WebsocketWire.v ===== *)
(** Frames on the wire.

    [wire] is a frame as RFC 6455, section 5.2 lays it out: the byte with the FIN and
    reserved bits and the opcode, the masking key if any, and the payload as it is sent;
    [wire_bytes] is its encoding.  The operations of [WebsocketFrame.v] are related to
    it: the accessors read the fields of an encoding, the setters build one. *)

From S2P Require Import Prelude GoSlice GoIO WebsocketFrame.

(** * The format *)

Record wire : Type := Wire {
  w_first : byte;
  w_mask : option (list byte);
  w_payload : list byte
}.

Definition w_masked (w : wire) : bool := match w_mask w with Some _ => true | None => false end.

(** The 7-bit length field and the extended length that goes with it. *)
Definition len7 (n : Z) : Z := if decide (n > 65535) then 127 else if decide (n > 125) then 126 else n.
Definition ext_len (n : Z) : list byte :=
  if decide (n > 65535) then be_encode 8 n else if decide (n > 125) then be_encode 2 n else [].

Definition second_byte (masked : bool) (n : Z) : byte :=
  z2b ((if masked then 128 else 0) + len7 n).

Definition wire_header (first : byte) (masked : bool) (n : Z) : list byte :=
  [first; second_byte masked n] ++ ext_len n.

Definition wire_bytes (w : wire) : list byte :=
  wire_header (w_first w) (w_masked w) (zlen (w_payload w))
  ++ default [] (w_mask w) ++ w_payload w.

(** Keys are four bytes long. *)
Definition wire_ok (w : wire) : Prop :=
  (forall m, w_mask w = Some m -> length m = 4%nat) /\ zlen (w_payload w) < 2 ^ 63.

(** The fields of the first byte. *)
Definition first_fin (b : byte) : bool := bool_decide (128 <= b2z b).
Definition first_rsv (b : byte) : Z := Z.land (b2z b) 112.
Definition first_opcode (b : byte) : Z := b2z b mod 16.

(** * Bits of a byte *)

Lemma fin_bit b : bool_decide (Z.land (b2z b) bitFIN <> 0) = first_fin b.
Proof. by destruct b. Qed.

Lemma masked_bit b : bool_decide (Z.land (b2z b) bitIsMasked <> 0) = bool_decide (128 <= b2z b).
Proof. by destruct b. Qed.

Lemma opcode_bits b : Z.land (b2z b) bitmaskOpcode = first_opcode b.
Proof. by destruct b. Qed.

Lemma len7_range n : 0 <= n -> 0 <= len7 n < 128.
Proof. intros. unfold len7. repeat case_decide; lia. Qed.

Lemma b2z_second_byte masked n :
  0 <= n -> b2z (second_byte masked n) = (if masked then 128 else 0) + len7 n.
Proof.
  intros Hn. unfold second_byte. rewrite b2z_z2b. pose proof (len7_range n Hn).
  apply Z.mod_small. destruct masked; lia.
Qed.

Lemma second_byte_len masked n :
  0 <= n -> Z.land (b2z (second_byte masked n)) bitmaskPayloadLength = len7 n.
Proof.
  intros Hn. rewrite b2z_second_byte by done. pose proof (len7_range n Hn).
  change bitmaskPayloadLength with (Z.ones 7). rewrite Z.land_ones by lia.
  change (2 ^ 7) with 128. destruct masked.
  - replace (128 + len7 n) with (len7 n + 1 * 128) by lia. rewrite Z_mod_plus_full.
    apply Z.mod_small. lia.
  - apply Z.mod_small. lia.
Qed.

Lemma second_byte_masked masked n :
  0 <= n -> bool_decide (Z.land (b2z (second_byte masked n)) bitIsMasked <> 0) = masked.
Proof.
  intros Hn. rewrite masked_bit, b2z_second_byte by done. pose proof (len7_range n Hn).
  destruct masked; [apply bool_decide_eq_true|apply bool_decide_eq_false]; lia.
Qed.

(** [(b & 128) | l] is the second byte with [b]'s masking bit. *)
Lemma second_byte_set b n :
  0 <= n ->
  z2b (Z.lor (b2z (z2b (Z.land (b2z b) (Z.shiftl 1 7)))) (len7 n))
  = second_byte (bool_decide (128 <= b2z b)) n.
Proof.
  intros Hn. pose proof (len7_range n Hn) as Hl.
  assert (b2z (z2b (Z.land (b2z b) (Z.shiftl 1 7))) = if bool_decide (128 <= b2z b) then 128 else 0)
    as -> by (by destruct b).
  unfold second_byte. case_bool_decide; [|done].
  pose proof (Z.add_lor_land 128 (len7 n)) as E.
  replace (Z.land 128 (len7 n)) with 0 in E; [f_equal; lia|].
  symmetry. rewrite <-(Z.mod_small (len7 n) (2 ^ 7)) by lia.
  rewrite <-Z.land_ones, (Z.land_comm (len7 n)), Z.land_assoc by lia. apply Z.land_0_l.
Qed.

Lemma length_ext_len n :
  zlen (ext_len n) = if decide (n > 65535) then 8 else if decide (n > 125) then 2 else 0.
Proof. unfold ext_len. repeat case_decide; rewrite ?length_be_encode; done. Qed.

Lemma be_decode_ext n :
  125 < n < 2 ^ 63 -> be_decode (ext_len n) = n.
Proof.
  intros Hn. unfold ext_len. repeat case_decide; try lia; rewrite be_decode_encode;
    apply Z.mod_small; simpl; lia.
Qed.

(** * Masking *)

(** Octet [i] of the payload is combined with octet [i mod 4] of the key. *)
Definition xor_mask (mask b : list byte) : list byte :=
  imap (fun i x => bxor x (nth (i mod 4) mask Byte.x00)) b.

Lemma Mask_spec mask b : length mask = 4%nat -> Mask mask b = Ret (xor_mask mask b).
Proof.
  intros Hm. unfold Mask, xor_mask. change 0 with (Z.of_nat 0).
  assert (forall k, Mask_loop mask (Z.of_nat k) b
    = Ret (imap (fun i x => bxor x (nth ((k + i) mod 4) mask Byte.x00)) b)) as H.
  2: { rewrite H. done. }
  induction b as [|x b IH]; intros k; simpl; [done|].
  change 3 with (Z.ones 2). rewrite Z.land_ones by lia. change (2 ^ 2) with (Z.of_nat 4).
  rewrite <-Nat2Z.inj_mod, Nat2Z.id.
  destruct (lookup_lt_is_Some_2 mask (k mod 4)) as [m Hk].
  { rewrite Hm. apply Nat.mod_upper_bound. lia. }
  rewrite Hk. replace (Z.of_nat k + 1) with (Z.of_nat (S k)) by lia. rewrite IH. res_step.
  rewrite Nat.add_0_r. f_equal. f_equal.
  - f_equal. symmetry. by apply nth_lookup_Some.
  - apply imap_ext. intros i y _. simpl. by rewrite <-plus_n_Sm.
Qed.

Lemma length_xor_mask mask b : length (xor_mask mask b) = length b.
Proof. apply length_imap. Qed.

Lemma xor_mask_involutive mask b : xor_mask mask (xor_mask mask b) = b.
Proof.
  apply list_eq. intros i. unfold xor_mask. rewrite !list_lookup_imap.
  destruct (b !! i); [|done]. simpl. by rewrite bxor_involutive.
Qed.

(** * Accessors on an encoding *)

Section accessors.
Context `{GoRuntime}.
Implicit Types (f : Frame).

(** A frame that starts with the header of [n] payload bytes. *)
Definition has_header f (first : byte) (masked : bool) (n : Z) (rest : list byte) : Prop :=
  slice_wf f /\ elems f = first :: second_byte masked n :: rest /\ 0 <= n.

Lemma index_0 f x l : slice_wf f -> elems f = x :: l -> index f 0 = Ret x.
Proof. intros Hwf E. apply index_elems; [done|by rewrite E|lia]. Qed.

Lemma index_1 f x y l : slice_wf f -> elems f = x :: y :: l -> index f 1 = Ret y.
Proof. intros Hwf E. apply index_elems; [done|by rewrite E|lia]. Qed.

Lemma header_ext f b0 m n rest :
  has_header f b0 m n rest -> ExtendedPayloadLengthBytes f = Ret (zlen (ext_len n)).
Proof.
  intros (Hwf & E & Hn). unfold ExtendedPayloadLengthBytes, get_bits.
  rewrite (index_1 f _ _ _ Hwf E). res_step. rewrite second_byte_len, length_ext_len by done.
  f_equal. unfold len7. repeat case_decide; lia.
Qed.

Lemma header_masked f b0 m n rest : has_header f b0 m n rest -> IsMasked f = Ret m.
Proof.
  intros (Hwf & E & Hn). unfold IsMasked, has_bit, get_bits.
  rewrite (index_1 f _ _ _ Hwf E). res_step. by rewrite second_byte_masked.
Qed.

Lemma header_first f b0 m n rest :
  has_header f b0 m n rest ->
  IsFIN f = Ret (first_fin b0) /\ Frame_Opcode f = Ret (first_opcode b0).
Proof.
  intros (Hwf & E & Hn). unfold IsFIN, Frame_Opcode, has_bit, get_bits.
  rewrite (index_0 f _ _ Hwf E). res_step. by rewrite fin_bit, opcode_bits.
Qed.

Lemma header_length f b0 m n rest :
  has_header f b0 m n (ext_len n ++ rest) -> n < 2 ^ 63 -> PayloadLength f = Ret n.
Proof.
  intros (Hwf & E & Hn) Hb. unfold PayloadLength, get_bits.
  rewrite (index_1 f _ _ _ Hwf E). res_step. rewrite second_byte_len by done.
  pose proof (length_ext_len n) as Hl. pose proof (zlen_elems f Hwf) as Hz. rewrite E in Hz.
  unfold len7, frameHeaderLength. repeat case_decide; try lia; [| |done].
  - destruct (reslice_elems f 2 (2 + 8)) as (s & -> & _ & _ & Hs); [done|lia|simpl in Hz; llia|].
    res_step. rewrite Hs, E. change (2 + 8 - 2) with 8. simpl drop. rewrite drop_0. zsimpl.
    rewrite be_decode_ext by lia. f_equal. apply i64_small. unfold is_int. lia.
  - destruct (reslice_elems f 2 (2 + 2)) as (s & -> & _ & _ & Hs); [done|lia|simpl in Hz; llia|].
    res_step. rewrite Hs, E. change (2 + 2 - 2) with 2. simpl drop. rewrite drop_0. zsimpl.
    by rewrite be_decode_ext by lia.
Qed.

Lemma header_offset f b0 m n rest :
  has_header f b0 m n rest ->
  payloadOffset f = Ret (2 + zlen (ext_len n) + (if m then 4 else 0)).
Proof.
  intros Hh. unfold payloadOffset, MaskBytes. rewrite (header_ext _ _ _ _ _ Hh). res_step.
  by rewrite (header_masked _ _ _ _ _ Hh).
Qed.
End accessors.

(** * Frames that hold an encoding *)

Definition frame_is (f : Frame) (w : wire) : Prop := slice_wf f /\ elems f = wire_bytes w.

Section building.
Context `{GoRuntime}.
Implicit Types (f : Frame).

Lemma frame_header f w :
  frame_is f w ->
  has_header f (w_first w) (w_masked w) (zlen (w_payload w))
    (ext_len (zlen (w_payload w)) ++ default [] (w_mask w) ++ w_payload w).
Proof. intros [Hwf E]. split_and!; [done| |lia]. by rewrite E. Qed.

Lemma length_wire_bytes w :
  wire_ok w ->
  zlen (wire_bytes w) = 2 + zlen (ext_len (zlen (w_payload w)))
    + (if w_masked w then 4 else 0) + zlen (w_payload w).
Proof.
  intros [Hm _]. unfold wire_bytes, wire_header, w_masked. rewrite !length_app. simpl.
  destruct (w_mask w) as [m|]; simpl; [rewrite (Hm m eq_refl)|]; lia.
Qed.

Lemma zlen_mask w : wire_ok w -> zlen (default [] (w_mask w)) = if w_masked w then 4 else 0.
Proof.
  intros [Hm _]. unfold w_masked. destruct (w_mask w) as [m|]; [|done]. simpl.
  by rewrite (Hm m eq_refl).
Qed.

(** Every accessor reads its field. *)
Lemma frame_accessors f w :
  frame_is f w -> wire_ok w ->
  PayloadLength f = Ret (zlen (w_payload w)) /\ IsMasked f = Ret (w_masked w)
  /\ IsFIN f = Ret (first_fin (w_first w)) /\ Frame_Opcode f = Ret (first_opcode (w_first w))
  /\ (exists p, Payload f = Ret p /\ elems p = w_payload w /\ slen p = zlen (w_payload w))
  /\ slen f = zlen (wire_bytes w).
Proof.
  intros Hf Hok. pose proof (frame_header f w Hf) as Hh. destruct Hf as [Hwf E].
  pose proof (header_first _ _ _ _ _ Hh) as [? ?].
  pose proof (zlen_elems f Hwf) as Hl. rewrite E in Hl. pose proof Hl as Hl'.
  rewrite (length_wire_bytes w Hok) in Hl. split_and!; try done.
  - by eapply header_length, Hok.
  - by eapply header_masked.
  - unfold Payload. rewrite (header_offset _ _ _ _ _ Hh). res_step.
    destruct (reslice_elems f (2 + zlen (ext_len (zlen (w_payload w)))
      + (if w_masked w then 4 else 0)) (slen f)) as (p & -> & _ & Hp & Hpe);
      [done|destruct (w_masked w); lia|lia|].
    exists p. split; [done|]. split; [|lia]. rewrite Hpe, E. unfold wire_bytes, wire_header.
    pose proof (zlen_mask w Hok). rewrite <-!app_assoc. rewrite (app_assoc _ (ext_len _)).
    rewrite (app_assoc _ (default [] _)). rewrite zdrop_app_ge by (rewrite !length_app; simpl; lia).
    rewrite zdrop_neg by (rewrite !length_app; simpl; lia). apply ztake_all. lia.
Qed.

(** ** The length field *)

Lemma bits_step f i x m (op : Z -> Z -> Z) :
  slice_wf f -> 0 <= i -> elems f !! Z.to_nat i = Some x ->
  exists f', (x ← index f i; update f i (z2b (op (b2z x) m))) = Ret f' /\ slice_wf f'
    /\ elems f' = <[Z.to_nat i := z2b (op (b2z x) m)]> (elems f)
    /\ slen f' = slen f /\ scap f' = scap f.
Proof.
  intros Hwf Hi Hx. rewrite (index_elems f i x) by done. res_step.
  pose proof (zlen_elems f Hwf). pose proof (lookup_lt_Some _ _ _ Hx).
  destruct (update_elems f i (z2b (op (b2z x) m))) as (f' & E & ? & ?); [done|lia|].
  exists f'. unfold update in E. rewrite decide_True in E by lia. split_and!; [|done..| |].
  - unfold update. by rewrite decide_True by lia.
  - by injection E as <-.
  - injection E as <-. unfold scap. simpl. by rewrite length_insert.
Qed.

(** The extended length goes right after the two header bytes. *)
Lemma put_be_header f b0 b1 rest k n :
  slice_wf f -> elems f = b0 :: b1 :: rest -> 2 + Z.of_nat k <= slen f ->
  exists f' rest', put_be f k n = Ret f' /\ slice_wf f'
    /\ elems f' = b0 :: b1 :: be_encode k n ++ rest'
    /\ slen f' = slen f /\ scap f' = scap f.
Proof.
  intros Hwf E Hk. unfold put_be.
  destruct (reslice_elems f 2 (slen f)) as (s & -> & _ & Hs & _); [done|lia|lia|]. res_step.
  rewrite decide_True by lia.
  destruct (write_at_elems f 2 (be_encode k n) Hwf) as [W El]; [lia|rewrite length_be_encode; lia|].
  eexists _, (zdrop (Z.of_nat k) rest). split; [done|]. split_and!; [done| |done|].
  - rewrite El, E. unfold write_at. rewrite length_be_encode.
    replace (Z.to_nat (2 + Z.of_nat k)) with (S (S (Z.to_nat (Z.of_nat k)))) by lia. done.
  - unfold scap. simpl. destruct Hwf. unfold scap in *.
    by rewrite length_write_at by (rewrite ?length_be_encode; lia).
Qed.

Lemma setPayloadLength_spec f b0 b1 rest n :
  slice_wf f -> elems f = b0 :: b1 :: rest -> 0 <= n ->
  (125 < n -> 4 <= slen f) -> (65535 < n -> 10 <= slen f) ->
  exists f' rest', setPayloadLength f n = Ret f'
    /\ has_header f' b0 (bool_decide (128 <= b2z b1)) n (ext_len n ++ rest')
    /\ slen f' = slen f /\ scap f' = scap f.
Proof.
  intros Hwf E Hn H16 H64. unfold setPayloadLength, and_bits, or_bits.
  destruct (bits_step f 1 b1 (Z.shiftl 1 7) Z.land Hwf) as (f1 & E1 & W1 & El1 & L1 & C1);
    [lia|by rewrite E|]. rewrite E1. res_step. rewrite E in El1. simpl in El1.
  set (a := z2b (Z.land (b2z b1) (Z.shiftl 1 7))) in *.
  destruct (bits_step f1 1 a (len7 n) Z.lor W1) as (f2 & E2 & W2 & El2 & L2 & C2);
    [lia|by rewrite El1|]. rewrite El1 in El2. simpl in El2. subst a.
  rewrite second_byte_set in El2 by done.
  pose proof (zlen_elems f2 W2) as Hl2. rewrite El2 in Hl2. simpl in Hl2.
  change (Z.shiftl 1 16 - 1) with 65535. unfold len7, ext_len in *.
  destruct (decide (n > 65535)); [|destruct (decide (n > 125))]; rewrite E2; res_step.
  - destruct (put_be_header f2 _ _ _ 8 n W2 El2) as (f' & r & -> & ? & ? & ? & ?); [lia|].
    exists f', r. split; [done|]. split; [by split_and!|lia].
  - destruct (put_be_header f2 _ _ _ 2 n W2 El2) as (f' & r & -> & ? & ? & ? & ?); [lia|].
    exists f', r. split; [done|]. split; [by split_and!|lia].
  - exists f2, rest. split; [done|]. split; [by split_and!|lia].
Qed.

(** [SetPayload] keeps the first byte and the masking bit and encodes the rest, provided
    the slice is long enough for the extended length when it is called. *)
Lemma SetPayload_spec f b0 b1 rest b :
  slice_wf f -> elems f = b0 :: b1 :: rest -> is_int (scap f) ->
  zlen b <= max_alloc - 14 ->
  (125 < zlen b -> 4 <= slen f) -> (65535 < zlen b -> 10 <= slen f) ->
  exists f' mk, SetPayload f b = Ret f' /\ frame_is f' (Wire b0 mk b)
    /\ wire_ok (Wire b0 mk b)
    /\ w_masked (Wire b0 mk b) = bool_decide (128 <= b2z b1)
    /\ scap f' <= Z.max (scap f) max_alloc.
Proof.
  intros Hwf E Hc Hb H16 H64. unfold max_alloc in Hb. unfold SetPayload.
  destruct (setPayloadLength_spec f b0 b1 rest (zlen b) Hwf E)
    as (f1 & r1 & -> & Hh & Hl & Hcap); [lia|done|done|]. res_step.
  set (m := bool_decide (128 <= b2z b1)) in *. set (e := ext_len (zlen b)) in *.
  rewrite (header_offset _ _ _ _ _ Hh). res_step. fold e.
  pose proof (length_ext_len (zlen b)) as He. fold e in He.
  assert (0 <= zlen e <= 8) by (repeat case_decide; lia). clear He.
  set (off := 2 + zlen e + (if m then 4 else 0)).
  assert (2 <= off <= 14) by (subst off; destruct m; lia).
  rewrite (i64_small (off + zlen b)) by (unfold is_int; lia).
  destruct (ExtendSlice_spec Byte.x00 f1 (off + zlen b)) as (ex & Eex & Hex & _);
    [unfold max_alloc; lia|by rewrite Hcap|].
  pose proof (ExtendSlice_cap Byte.x00 f1 _ (off + zlen b) Eex) as Hcx.
  rewrite Eex. res_step.
  destruct Hh as (W1 & El1 & _). unfold elems in El1.
  set (f2 := Slice (arr f1 ++ ex) (off + zlen b)).
  assert (slice_wf f2) as W2 by (unfold slice_wf, scap, f2 in *; simpl; llia).
  assert (exists mk, length mk = (if m then 4 else 0)%nat
    /\ exists t, elems f2 = b0 :: second_byte m (zlen b) :: e ++ mk ++ t /\ zlen t = zlen b)
    as (mk & Hmk & t & El2 & Ht).
  { pose proof (zlen_elems f2 W2) as Hz. unfold elems, f2 in *. cbn [arr slen] in *.
    rewrite <-(ztake_zdrop (slen f1) (arr f1)), El1 in Hz |- *.
    change (b0 :: second_byte m (zlen b) :: e ++ r1)
      with ((b0 :: second_byte m (zlen b) :: e) ++ r1) in *.
    rewrite <-!app_assoc in *. set (q := r1 ++ _) in *. clearbody q.
    rewrite ztake_app_ge in Hz |- * by (simpl; subst off; destruct m; lia).
    rewrite length_app in Hz. cbn [length] in Hz.
    set (u := ztake _ q) in *. exists (ztake (if m then 4 else 0) u).
    assert (zlen u = (if m then 4 else 0) + zlen b) as Hu by (subst off; lia). split.
    - rewrite length_take. destruct m; lia.
    - exists (zdrop (if m then 4 else 0) u). split; [|rewrite length_drop; destruct m; lia].
      by rewrite take_drop. }
  assert (has_header f2 b0 m (zlen b) (e ++ mk ++ t)) as Hh2 by (split_and!; [done..|lia]).
  rewrite (header_offset _ _ _ _ _ Hh2). res_step. fold e off.
  rewrite reslice_ok by (destruct W2; simpl in *; lia). res_step.
  rewrite copy_at_ok by (simpl; lia). res_step.
  destruct (write_at_elems f2 off b W2) as [W3 El3]; [lia|simpl; lia|].
  eexists _, (if m then Some mk else None). split; [done|].
  assert (wire_ok (Wire b0 (if m then Some mk else None) b)) as Hok.
  { split; simpl; [|lia]. intros k Hk. destruct m; congruence. }
  split; [split; [done|]|split; [done|split; [by destruct m|]]].
  2: { destruct W2 as [_ W2]. unfold scap in *. cbn [arr slen] in *. subst f2.
       rewrite length_write_at by (simpl in *; lia). rewrite Hcap in Hcx. unfold max_alloc in *.
       etransitivity; [apply Hcx|lia]. unfold is_int in *. lia. }
  rewrite El3, El2. unfold wire_bytes, wire_header. cbn [w_first w_mask w_payload].
  replace (w_masked _) with m by (by destruct m). fold e.
  replace (default [] (if m then Some mk else None)) with mk
    by (destruct m; [done|by destruct mk]).
  transitivity (write_at off b ((b0 :: second_byte m (zlen b) :: e ++ mk) ++ t ++ [])).
  { rewrite app_nil_r. simpl. by rewrite <-app_assoc. }
  rewrite write_at_app; [|simpl; rewrite length_app; subst off; destruct m; lia|lia].
  rewrite app_nil_r. simpl. by rewrite <-app_assoc.
Qed.

(** Without that room it panics: the length is stored before the slice is extended. *)
Lemma SetPayload_short f b0 b1 rest b :
  slice_wf f -> elems f = b0 :: b1 :: rest -> slen f < 10 -> 65535 < zlen b ->
  SetPayload f b = Panic.
Proof.
  intros Hwf E Hs Hb. unfold SetPayload, setPayloadLength, and_bits, or_bits.
  destruct (bits_step f 1 b1 (Z.shiftl 1 7) Z.land Hwf) as (f1 & -> & W1 & El1 & L1 & C1);
    [lia|by rewrite E|]. rewrite E in El1. simpl in El1. res_step.
  change (Z.shiftl 1 16 - 1) with 65535. rewrite decide_True by lia.
  destruct (bits_step f1 1 _ 127 Z.lor W1 ltac:(lia) ltac:(by rewrite El1))
    as (f2 & -> & W2 & El2 & L2 & C2). rewrite El1 in El2. simpl in El2. res_step.
  pose proof (zlen_elems f2 W2) as Hl2. rewrite El2 in Hl2. simpl in Hl2.
  unfold put_be. destruct (reslice_elems f2 2 (slen f2)) as (s & -> & _ & Hls & _);
    [done|lia|lia|]. res_step. by rewrite decide_False by lia.
Qed.

(** ** Masking a frame *)

Lemma frame_mask f b0 mk p :
  frame_is f (Wire b0 (Some mk) p) -> wire_ok (Wire b0 (Some mk) p) ->
  Frame_Mask f = Ret (Some (2 + zlen (ext_len (zlen p))))
  /\ payloadOffset f = Ret (2 + zlen (ext_len (zlen p)) + 4).
Proof.
  intros Hf Hok. pose proof (frame_header _ _ Hf) as Hh.
  pose proof (length_wire_bytes _ Hok) as Hl. destruct Hf as [Hwf E].
  rewrite <-E, (zlen_elems f Hwf) in Hl. cbn [w_masked w_mask w_payload] in *.
  split; [|by rewrite (header_offset _ _ _ _ _ Hh)].
  unfold Frame_Mask, maskOffset. rewrite (header_masked _ _ _ _ _ Hh). res_step.
  cbn [w_masked w_mask]. rewrite (header_ext _ _ _ _ _ Hh). res_step.
  cbn [w_payload] in *. unfold frameHeaderLength, frameMaskLength.
  destruct (reslice_elems f (2 + zlen (ext_len (zlen p))) (slen f)) as (s & -> & [? ?] & Hs & _);
    [done|lia|lia|]. res_step. rewrite reslice_0 by lia. done.
Qed.

(** The pieces of the array behind a masked frame. *)
Lemma frame_arr f b0 mk p :
  frame_is f (Wire b0 (Some mk) p) ->
  exists tl, arr f = wire_header b0 true (zlen p) ++ mk ++ p ++ tl.
Proof.
  intros [Hwf E]. exists (zdrop (slen f) (arr f)).
  rewrite <-(ztake_zdrop (slen f) (arr f)) at 1. fold (elems f). rewrite E.
  unfold wire_bytes. cbn [w_first w_mask w_payload w_masked]. by rewrite <-!app_assoc.
Qed.

Lemma zlen_header b0 m n : zlen (wire_header b0 m n) = 2 + zlen (ext_len n).
Proof. unfold wire_header. rewrite length_app. simpl. lia. Qed.

Lemma apply_mask_spec f b0 mk p rnd :
  frame_is f (Wire b0 (Some mk) p) -> wire_ok (Wire b0 (Some mk) p) ->
  (forall r, rnd = Some r -> length r = 4%nat) ->
  let k := default mk rnd in
  exists f', apply_mask f (2 + zlen (ext_len (zlen p))) rnd = Ret f'
    /\ frame_is f' (Wire b0 (Some k) (xor_mask k p)) /\ scap f' = scap f.
Proof.
  intros Hf Hok Hr k. pose proof (frame_mask _ _ _ _ Hf Hok) as [_ Hoff].
  destruct (frame_arr _ _ _ _ Hf) as [tl Ha]. pose proof (length_wire_bytes _ Hok) as Hl.
  destruct Hf as [Hwf E]. rewrite <-E, (zlen_elems f Hwf) in Hl.
  pose proof (proj1 Hok mk eq_refl) as Hmk. cbn [w_masked w_mask w_payload] in *.
  assert (length k = 4%nat) as Hk by (destruct rnd; [by apply Hr|done]).
  pose proof (zlen_header b0 true (zlen p)) as Hh.
  unfold apply_mask. rewrite Hoff. res_step.
  assert (match rnd with Some r => write_at (2 + zlen (ext_len (zlen p))) r (arr f) | None => arr f end
    = wire_header b0 true (zlen p) ++ k ++ p ++ tl) as ->.
  { subst k. destruct rnd as [r|]; [|done]. rewrite Ha. change (default mk (Some r)) with r in *.
    apply write_at_app; lia. }
  rewrite reslice_ok by (unfold scap; simpl; llia). res_step. cbn [arr slen].
  unfold frameMaskLength, elems. cbn [arr slen].
  set (h := wire_header b0 true (zlen p)) in *. rewrite !(app_assoc h k). zsimpl.
  rewrite (Mask_spec k p Hk). res_step. eexists. split; [done|].
  pose proof (length_xor_mask k p) as Hx. rewrite write_at_app by llia.
  split; [|unfold scap; rewrite Ha; cbn [arr]; llia].
  split; [unfold slice_wf, scap; simpl; llia|].
  unfold elems, wire_bytes, wire_header. cbn [arr slen w_first w_mask w_payload w_masked].
  rewrite Hx. fold (wire_header b0 true (zlen p)). fold h.
  change (default [] (Some k)) with k. rewrite <-!app_assoc. zsimpl. done.
Qed.

Lemma or_masked b : 128 <= b2z b -> z2b (Z.lor (b2z b) bitIsMasked) = b.
Proof. destruct b; vm_compute; done. Qed.

(** [MaskPayload] on a frame that reserves the key: the key drawn is stored (unless
    there is nothing to mask) and the payload combined with it. *)
Lemma MaskPayload_spec f b0 mk p rnd :
  frame_is f (Wire b0 (Some mk) p) -> wire_ok (Wire b0 (Some mk) p) -> length rnd = 4%nat ->
  let k := if decide (p = []) then mk else rnd in
  exists f', MaskPayload f rnd = Ret f' /\ frame_is f' (Wire b0 (Some k) (xor_mask k p))
    /\ scap f' = scap f.
Proof.
  intros Hf Hok Hr k. unfold MaskPayload, SetIsMasked, or_bits.
  pose proof (frame_header _ _ Hf) as (Hwf & E & _).
  cbn [w_first w_masked w_mask w_payload] in E.
  destruct (bits_step f 1 _ bitIsMasked Z.lor Hwf ltac:(lia) ltac:(by rewrite E)) as (f1 & -> & W1 & E1 & _ & C1).
  res_step. rewrite or_masked in E1.
  2: { rewrite b2z_second_byte by lia. pose proof (len7_range (zlen p)). lia. }
  assert (frame_is f1 (Wire b0 (Some mk) p)) as Hf1.
  { split; [done|]. rewrite E1, list_insert_id; [by apply Hf|]. by rewrite E. }
  destruct (frame_mask _ _ _ _ Hf1 Hok) as [-> _]. res_step.
  destruct (frame_accessors _ _ Hf1 Hok) as (_ & _ & _ & _ & (q & -> & _ & Hq) & _). res_step.
  cbn [w_payload] in Hq. subst k. case_decide as Hs.
  - rewrite decide_False by (intros ->; simpl in Hq; lia).
    destruct (apply_mask_spec f1 b0 mk p (Some rnd) Hf1 Hok) as (f' & -> & Hf' & Hc);
      [by intros ? [= <-]|]. exists f'. by rewrite Hc.
  - destruct p; [|simpl in Hq; lia]. by exists f1.
Qed.

(** [UnmaskPayload] combines the payload with the key of the frame. *)
Lemma UnmaskPayload_spec f b0 mk p :
  frame_is f (Wire b0 (Some mk) p) -> wire_ok (Wire b0 (Some mk) p) ->
  exists f', UnmaskPayload f = Ret f' /\ frame_is f' (Wire b0 (Some mk) (xor_mask mk p)).
Proof.
  intros Hf Hok. unfold UnmaskPayload. destruct (frame_mask _ _ _ _ Hf Hok) as [-> _]. res_step.
  destruct (frame_accessors _ _ Hf Hok) as (_ & _ & _ & _ & (q & -> & _ & _) & _). res_step.
  destruct (apply_mask_spec f b0 mk p None Hf Hok) as (f' & -> & Hf' & _); [done|by exists f'].
Qed.

(** ** Building a frame *)

Definition first_byte (op : Z) : byte := z2b (128 + Z.land op 15).

Lemma first_byte_fields op :
  first_fin (first_byte op) = true /\ first_rsv (first_byte op) = 0
  /\ first_opcode (first_byte op) = Z.land op 15.
Proof.
  assert (0 <= Z.land op 15 < 16) as Hr.
  { change 15 with (Z.ones 4). rewrite Z.land_ones by lia. apply Z.mod_pos_bound. lia. }
  unfold first_byte. set (o := Z.land op 15) in *. clearbody o.
  assert (o = 0 \/ o = 1 \/ o = 2 \/ o = 3 \/ o = 4 \/ o = 5 \/ o = 6 \/ o = 7 \/ o = 8
    \/ o = 9 \/ o = 10 \/ o = 11 \/ o = 12 \/ o = 13 \/ o = 14 \/ o = 15) as Ho by lia.
  clear Hr. destruct_or! Ho; subst o; by vm_compute.
Qed.

(** [SetFIN], [SetOpcode] and [SetIsMasked] on a frame whose header is cleared. *)
Lemma set_header f rest op :
  slice_wf f -> elems f = Byte.x00 :: Byte.x00 :: rest ->
  (exists f', (f ← SetFIN f; SetOpcode f op) = Ret f' /\ slice_wf f'
     /\ elems f' = first_byte op :: Byte.x00 :: rest /\ slen f' = slen f /\ scap f' = scap f)
  /\ (exists f', (f ← SetIsMasked f; f ← SetFIN f; SetOpcode f op) = Ret f' /\ slice_wf f'
     /\ elems f' = first_byte op :: Byte.x80 :: rest /\ slen f' = slen f /\ scap f' = scap f).
Proof.
  intros Hwf E.
  assert (forall g b1, slice_wf g -> elems g = Byte.x00 :: b1 :: rest ->
    exists f', (f ← SetFIN g; SetOpcode f op) = Ret f' /\ slice_wf f'
     /\ elems f' = first_byte op :: b1 :: rest /\ slen f' = slen g /\ scap f' = scap g) as Hset.
  { intros g b1 Wg Eg. unfold SetFIN, SetOpcode, clearOpcode, and_bits, or_bits.
    destruct (bits_step g 0 Byte.x00 bitFIN Z.lor Wg) as (f1 & -> & W1 & E1 & L1 & C1);
      [lia|by rewrite Eg|]. rewrite Eg in E1. simpl in E1. res_step.
    destruct (bits_step f1 0 _ (Z.shiftl bitmaskOpcode 4) Z.land W1 ltac:(lia)
      ltac:(by rewrite E1)) as (f2 & -> & W2 & E2 & L2 & C2). rewrite E1 in E2. simpl in E2. res_step.
    destruct (bits_step f2 0 _ (Z.land op bitmaskOpcode) Z.lor W2 ltac:(lia)
      ltac:(by rewrite E2)) as (f3 & -> & W3 & E3 & L3 & C3). rewrite E2 in E3. simpl in E3.
    exists f3. split; [done|]. split; [done|]. split; [|lia]. rewrite E3. f_equal.
    unfold first_byte. f_equal. change (b2z _) with 128. change bitmaskOpcode with 15.
    set (o := Z.land op 15). assert (Z.land 128 o = 0) as Ho.
    { unfold o. by rewrite (Z.land_comm op), Z.land_assoc. }
    pose proof (Z.add_lor_land 128 o). lia. }
  split; [by apply Hset|]. unfold SetIsMasked, or_bits.
  destruct (bits_step f 1 Byte.x00 bitIsMasked Z.lor Hwf) as (f1 & -> & W1 & E1 & L1 & C1);
    [lia|by rewrite E|]. rewrite E in E1. simpl in E1. res_step.
  destruct (Hset f1 Byte.x80 W1 E1) as (f' & -> & ? & ? & ? & ?). exists f'.
  split; [done|]. split; [done|]. split; [done|lia].
Qed.
End building.

(** * Reading a frame from a stream *)

Section reading.
Context `{GoRuntime} {R : Type} `{ReaderStream R}.
Implicit Types (f : Frame).

Lemma read_part_spec fuel f (r : R) (P u t x y : list byte) :
  arr f = P ++ u ++ t -> length u = length x -> pend r = x ++ y -> (length x <= fuel)%nat ->
  exists r', read_part fuel f r (zlen P) (zlen x)
      = Ret (Slice (P ++ x ++ t) (slen f), r', (zlen x, None))
    /\ pend r' = y.
Proof.
  intros Ha Hu Hr Hf. unfold read_part. rewrite Ha. zsimpl.
  destruct (ReadFull_stream fuel r u) as (r' & -> & Hr'); [rewrite Hr; llia|lia|].
  res_step. exists r'. rewrite Hr in *. rewrite Hu in *.
  split; [|by rewrite Hr', zdrop_app_ge, zdrop_neg by lia].
  rewrite ztake_app_ge, ztake_neg, app_nil_r by lia. by rewrite write_at_app.
Qed.

Lemma elems_prefix f (P t : list byte) :
  arr f = P ++ t -> zlen P <= slen f -> slice_wf f ->
  exists t', elems f = P ++ t' /\ zlen t' = slen f - zlen P.
Proof.
  intros Ha Hl [? Hc]. exists (ztake (slen f - zlen P) t). unfold elems, scap in *. rewrite Ha.
  split; [|rewrite Ha in Hc; llia]. by rewrite ztake_app_ge by lia.
Qed.

Lemma ext_part f b0 m n t fuel (r : R) y :
  arr f = b0 :: second_byte m n :: t -> 14 <= slen f -> slice_wf f -> 0 <= n ->
  pend r = ext_len n ++ y -> (8 <= fuel)%nat ->
  exists f' r' t', (ext ← extendedPayloadLength f;
      match ext with
      | Some (off, k) => read_part fuel f r off k
      | None => Ret (f, r, (0, None))
      end) = Ret (f', r', (zlen (ext_len n), None))
    /\ arr f' = wire_header b0 m n ++ t' /\ slen f' = slen f /\ slice_wf f' /\ pend r' = y
    /\ scap f' = scap f.
Proof.
  intros Ha Hl Hwf Hn Hr Hf.
  destruct (elems_prefix f [b0; second_byte m n] t Ha) as (t0 & E & Ht0); [simpl; lia|done|].
  assert (has_header f b0 m n t0) as Hh by done.
  unfold extendedPayloadLength. rewrite (header_ext _ _ _ _ _ Hh). res_step.
  pose proof (length_ext_len n) as He.
  assert (0 <= zlen (ext_len n) <= 8) by (repeat case_decide; lia). clear He.
  case_decide as Hz.
  - destruct (reslice_elems f frameHeaderLength (slen f)) as (s & -> & [? ?] & Hs & _);
      [done|unfold frameHeaderLength; lia|lia|]. res_step.
    unfold frameHeaderLength in *. rewrite reslice_0 by lia. res_step.
    destruct (read_part_spec fuel f r [b0; second_byte m n] (ztake (zlen (ext_len n)) t)
      (zdrop (zlen (ext_len n)) t) (ext_len n) y) as (r' & E' & Hr').
    + rewrite Ha. simpl. by rewrite take_drop.
    + destruct Hwf as [_ Hc]. unfold scap in Hc. rewrite Ha in Hc. simpl in Hc. llia.
    + done.
    + lia.
    + change (zlen [b0; second_byte m n]) with 2 in E'. rewrite E'.
      eexists _, r', _. split; [done|]. simpl. split; [by rewrite <-app_assoc || done|].
      split; [done|]. destruct Hwf as [? Hc]. unfold slice_wf, scap in *. simpl.
      rewrite Ha in Hc |- *. simpl in *. split; [|split; [done|]]; llia.
  - assert (ext_len n = []) as Hnil by (destruct (ext_len n); [done|simpl in *; lia]).
    rewrite Hnil in *. exists f, r, t. unfold wire_header. rewrite Hnil. by split_and!.
Qed.

Lemma header_of_arr f b0 m n t :
  arr f = wire_header b0 m n ++ t -> 14 <= slen f -> slice_wf f -> 0 <= n ->
  exists t', has_header f b0 m n (ext_len n ++ t')
    /\ zlen t' = slen f - 2 - zlen (ext_len n) /\ 0 <= zlen (ext_len n) <= 8.
Proof.
  intros Ha Hl Hwf Hn. pose proof (length_ext_len n) as He.
  assert (0 <= zlen (ext_len n) <= 8) by (repeat case_decide; lia). clear He.
  pose proof (zlen_header b0 m n).
  destruct (elems_prefix f _ _ Ha) as (t' & E & Ht'); [lia|done|]. exists t'.
  split; [|lia]. split_and!; [done|by rewrite E|done].
Qed.

Lemma mask_part f b0 m n t mk fuel (r : R) y :
  arr f = wire_header b0 m n ++ t -> 14 <= slen f -> slice_wf f -> 0 <= n ->
  length mk = (if m then 4 else 0)%nat -> pend r = mk ++ y -> (4 <= fuel)%nat ->
  exists f' r' t', (mask ← Frame_Mask f;
      match mask with
      | Some off => read_part fuel f r off frameMaskLength
      | None => Ret (f, r, (0, None))
      end) = Ret (f', r', (zlen mk, None))
    /\ arr f' = wire_header b0 m n ++ mk ++ t' /\ slen f' = slen f /\ slice_wf f'
    /\ pend r' = y /\ scap f' = scap f.
Proof.
  intros Ha Hl Hwf Hn Hmk Hr Hf.
  destruct (header_of_arr f b0 m n t Ha Hl Hwf Hn) as (t0 & Hh & Ht0 & He).
  unfold Frame_Mask, maskOffset. rewrite (header_masked _ _ _ _ _ Hh). res_step.
  destruct m.
  - rewrite (header_ext _ _ _ _ _ Hh). res_step. unfold frameHeaderLength, frameMaskLength.
    destruct (reslice_elems f (2 + zlen (ext_len n)) (slen f)) as (s & -> & [? ?] & Hs & _);
      [done|lia|lia|]. res_step. rewrite reslice_0 by lia. res_step.
    assert (scap f = zlen (wire_header b0 true n) + zlen t) as Hc by (unfold scap; rewrite Ha; llia).
    pose proof (zlen_header b0 true n) as Hz. destruct Hwf as [? ?].
    destruct (read_part_spec fuel f r (wire_header b0 true n) (ztake 4 t) (zdrop 4 t) mk y)
      as (r' & E' & Hr'); [by rewrite take_drop|llia|done|lia|].
    replace (zlen mk) with 4 in E' by lia. rewrite Hz in E'. rewrite E'.
    eexists _, r', _. split; [by replace (zlen mk) with 4 by lia|]. simpl.
    split; [done|]. split; [done|]. unfold slice_wf, scap in *. simpl.
    split; [|split; [done|]]; llia.
  - destruct mk; [|done]. res_step. by exists f, r, t.
Qed.

Lemma payload_part f b0 m n t mk p fuel (r : R) y :
  arr f = wire_header b0 m n ++ mk ++ t -> 14 <= slen f -> slice_wf f -> is_int (scap f) ->
  length mk = (if m then 4 else 0)%nat -> zlen p = n -> 0 < n <= max_alloc - 14 ->
  pend r = p ++ y -> (length p <= fuel)%nat ->
  exists f' r', ('(f, b) ← fitPayload f;
      match b with
      | Some (off, k) => read_part fuel f r off k
      | None => Ret (f, r, (0, None))
      end) = Ret (f', r', (n, None))
    /\ frame_is f' (Wire b0 (if m then Some mk else None) p) /\ pend r' = y.
Proof.
  intros Ha Hl Hwf Hc Hmk Hp Hn Hr Hf. unfold max_alloc in Hn.
  destruct (header_of_arr f b0 m n _ Ha Hl Hwf) as (t0 & Hh & Ht0 & He); [lia|].
  unfold fitPayload. rewrite (header_length _ _ _ _ _ Hh) by lia. res_step.
  rewrite decide_False by lia. rewrite (header_offset _ _ _ _ _ Hh). res_step.
  set (off := 2 + zlen (ext_len n) + (if m then 4 else 0)).
  assert (2 <= off <= 14) by (subst off; destruct m; lia).
  rewrite (i64_small (off + n)) by (unfold is_int; lia).
  destruct (ExtendSlice_spec Byte.x00 f (off + n)) as (ex & -> & Hex & _);
    [unfold max_alloc; lia|done|]. res_step.
  set (f1 := Slice (arr f ++ ex) (off + n)).
  pose proof (zlen_header b0 m n) as Hz.
  assert (zlen (wire_header b0 m n ++ mk) = off) as Hzm.
  { rewrite length_app. subst off. destruct m; lia. }
  assert (arr f1 = (wire_header b0 m n ++ mk) ++ t ++ ex) as Ha1.
  { unfold f1. simpl. by rewrite Ha, <-!app_assoc. }
  assert (slice_wf f1) as W1.
  { unfold slice_wf, f1, scap in *. simpl. llia. }
  destruct (elems_prefix f1 _ _ Ha1) as (t1 & E1 & Ht1); [rewrite Hzm; simpl; lia|done|].
  assert (has_header f1 b0 m n (ext_len n ++ mk ++ t1)) as Hh1.
  { split_and!; [done| |lia]. rewrite E1. unfold wire_header. by rewrite <-!app_assoc. }
  rewrite (header_offset _ _ _ _ _ Hh1). res_step. fold off.
  destruct (reslice_elems f1 off (slen f1)) as (s & -> & [? ?] & Hs & _); [done|simpl; lia|lia|].
  res_step. simpl in Hs. rewrite reslice_0 by lia. res_step.
  assert (n <= zlen (t ++ ex)) as Htx.
  { destruct W1 as [_ W1]. unfold scap in W1. rewrite Ha1 in W1. simpl in W1. llia. }
  destruct (read_part_spec fuel f1 r (wire_header b0 m n ++ mk) (ztake n (t ++ ex))
    (zdrop n (t ++ ex)) p y) as (r' & E' & Hr'); [by rewrite take_drop|llia|done|done|].
  rewrite Hzm, Hp in E'. rewrite E'. eexists _, r'. split; [done|]. split; [|done].
  split; [unfold slice_wf, scap; simpl; llia|].
  unfold elems, wire_bytes. cbn [arr slen w_first w_mask w_payload f1].
  replace (w_masked _) with m by (by destruct m). rewrite Hp.
  replace (default [] (if m then Some mk else None)) with mk by (destruct m; [done|by destruct mk]).
  rewrite <-!app_assoc. rewrite length_app in Hzm. by zsimpl.
Qed.

(** The header, extended length and mask, with all that [ReadFrom] does up to there. *)
Lemma ReadFrom_head f w fuel (r : R) y :
  slice_wf f -> 14 <= slen f -> wire_ok w -> (14 <= fuel)%nat ->
  pend r = wire_bytes w ++ y ->
  exists f' r' t,
    Frame_ReadFrom fuel f r
    = ('(f, b) ← fitPayload f';
       '(f, r, (n4, err)) ← (match b with
          | Some (off, k) => read_part fuel f r' off k
          | None => Ret (f, r', (0, None))
          end);
       Ret (f, r, (zlen (wire_bytes w) - zlen (w_payload w) + n4, err)))
    /\ arr f' = wire_header (w_first w) (w_masked w) (zlen (w_payload w))
                ++ default [] (w_mask w) ++ t
    /\ slen f' = slen f /\ slice_wf f' /\ scap f' = scap f /\ pend r' = w_payload w ++ y.
Proof.
  intros Hwf Hl Hok Hf Hr. pose proof (length_wire_bytes w Hok) as Hwl.
  pose proof (zlen_mask w Hok) as Hzm.
  set (n := zlen (w_payload w)) in *. set (m := w_masked w) in *.
  unfold wire_bytes, wire_header in Hr. fold n m in Hr. rewrite <-!app_assoc in Hr.
  unfold Frame_ReadFrom, Header, frameHeaderLength.
  rewrite reslice_0 by (destruct Hwf; lia). res_step.
  set (mk := default [] (w_mask w)) in *. set (p := w_payload w) in *.
  destruct (read_part_spec fuel f r [] (ztake 2 (arr f)) (zdrop 2 (arr f))
    [w_first w; second_byte m n] (ext_len n ++ mk ++ p ++ y) (eq_sym (take_drop _ _)))
    as (r1 & E1 & Hr1); [destruct Hwf; unfold scap in *; llia|exact Hr|simpl; lia|].
  change (zlen []) with 0 in E1. change (zlen [w_first w; second_byte m n]) with 2 in E1.
  rewrite E1. res_step. rewrite (decide_False (P := None <> None)) by (by intros []).
  set (f1 := Slice _ (slen f)).
  assert (slice_wf f1 /\ scap f1 = scap f) as [W1 C1].
  { destruct Hwf. unfold slice_wf, scap, f1 in *. simpl. llia. }
  destruct (ext_part f1 (w_first w) m n (zdrop 2 (arr f)) fuel r1 (mk ++ p ++ y) eq_refl)
    as (f2 & r2 & t2 & E2 & Ha2 & L2 & W2 & Hr2 & C2); [simpl; lia|done|lia|done|lia|].
  apply res_bind_inv in E2 as (e2 & Ea & Eb). cbn beta in Eb. rewrite Ea. res_step. rewrite Eb.
  res_step. rewrite (decide_False (P := None <> None)) by (by intros []).
  destruct (mask_part f2 (w_first w) m n t2 mk fuel r2 (p ++ y) Ha2)
    as (f3 & r3 & t3 & E3 & Ha3 & L3 & W3 & Hr3 & C3);
    [simpl in L2; lia|done|lia|destruct m; lia|done|lia|].
  apply res_bind_inv in E3 as (e3 & Ec & Ed). cbn beta in Ed. rewrite Ec. res_step. rewrite Ed.
  res_step. rewrite (decide_False (P := None <> None)) by (by intros []).
  exists f3, r3, t3. simpl in L2. split_and!; [|done|lia|done|lia|done].
  replace (2 + zlen (ext_len n) + zlen mk) with (zlen (wire_bytes w) - n) by lia. done.
Qed.

Lemma ReadFrom_spec f w fuel (r : R) y :
  slice_wf f -> 14 <= slen f -> is_int (scap f) -> wire_ok w ->
  0 < zlen (w_payload w) <= max_alloc - 14 ->
  (14 + length (w_payload w) <= fuel)%nat -> pend r = wire_bytes w ++ y ->
  exists f' r', Frame_ReadFrom fuel f r = Ret (f', r', (zlen (wire_bytes w), None))
    /\ frame_is f' w /\ pend r' = y.
Proof.
  intros Hwf Hl Hc Hok Hp Hf Hr.
  destruct (ReadFrom_head f w fuel r y) as (f1 & r1 & t & -> & Ha & L1 & W1 & C1 & Hr1);
    [done|done|done|lia|done|].
  pose proof (zlen_mask w Hok) as Hzm.
  destruct (payload_part f1 (w_first w) (w_masked w) (zlen (w_payload w)) t
    (default [] (w_mask w)) (w_payload w) fuel r1 y Ha) as (f' & r' & E & Hf' & Hr');
    [lia|done|by rewrite C1|destruct (w_masked w); lia|done|done|done|lia|].
  apply res_bind_inv in E as ([g b] & Ea & Eb). cbn beta in Eb. rewrite Ea. res_step.
  rewrite Eb. res_step. exists f', r'. split; [by rewrite Z.sub_add|]. split; [|done].
  destruct w as [b0 [mk|] p]; done.
Qed.
End reading.

(** * Writing a frame *)

Section writing.
Context {W : Type} `{WriterLaws W} `{!WriterLog W}.

(** The whole frame in order, or an error and a prefix of it. *)
Lemma Frame_WriteTo_loop_spec fuel (f : Frame) (w : W) k :
  slice_wf f -> 0 <= k <= slen f -> (Z.to_nat (slen f - k) <= fuel)%nat ->
  exists w' n e, Frame_WriteTo_loop fuel f w k = Ret (w', (n, e))
    /\ exists j, k <= j <= slen f /\ wlog w' = wlog w ++ ztake (j - k) (zdrop k (elems f))
       /\ (e = None -> j = slen f /\ n = slen f).
Proof.
  intros Hwf. pose proof (zlen_elems f Hwf) as Hl.
  revert w k. induction fuel as [|fuel IH]; intros w k Hk Hf; cbn [Frame_WriteTo_loop].
  - rewrite decide_False by lia. eexists _, _, _. split; [done|]. exists k. split; [lia|].
    split; [|lia]. rewrite ztake_neg by lia. by rewrite app_nil_r.
  - case_decide as Hd.
    2: { eexists _, _, _. split; [done|]. exists k. split; [lia|].
         split; [|lia]. rewrite ztake_neg by lia. by rewrite app_nil_r. }
    destruct (reslice_elems f k (slen f)) as (s & -> & Ws & Hs & Es); [done|lia|lia|]. res_step.
    rewrite ztake_all in Es by llia.
    destruct (io_write_ok w (elems s)) as (w1 & n & e & Ew & Hn & Hpos). rewrite Ew. res_step.
    pose proof (wlog_write _ _ _ _ _ Ew) as Hlog. pose proof (zlen_elems s Ws) as Hls.
    destruct e as [e|].
    + eexists _, _, _. split; [done|]. exists (k + n). split; [lia|]. split; [|done].
      rewrite Hlog, Es. do 3 f_equal. lia.
    + assert (0 < n) by (apply Hpos; [done|intros E; rewrite E in Hls; simpl in Hls; lia]).
      destruct (IH w1 (k + n)) as (w' & n' & e' & -> & j & Hj & Hlog' & He'); [lia|lia|].
      eexists _, _, _. split; [done|]. exists j. split; [lia|]. split; [|done].
      rewrite Hlog', Hlog, Es, <-app_assoc. f_equal.
      rewrite <-(ztake_zdrop n (ztake (j - k) (zdrop k (elems f)))).
      rewrite take_take, skipn_firstn_comm, drop_drop. repeat (f_equal; try lia).
Qed.
End writing.

(** * Properties *)

Section frame_properties.
Context `{GoRuntime}.

(** C31: building a frame the way the stream does, in a frame whose header is cleared and
    which is long enough for the length field: the bytes are the RFC 6455 encoding of an
    unfragmented frame with that opcode and payload; a client's frame carries the key
    drawn and the payload combined with it, and [UnmaskPayload] recovers the payload. *)
Theorem frame_build (f : Frame) (rest : list byte) (op : Z) (b rnd : list byte) :
  slice_wf f -> elems f = Byte.x00 :: Byte.x00 :: rest -> is_int (scap f) ->
  length rnd = 4%nat -> zlen b <= max_alloc - 14 ->
  (125 < zlen b -> 4 <= slen f) -> (65535 < zlen b -> 10 <= slen f) ->
  (exists f', (f ← SetFIN f; f ← SetOpcode f op; SetPayload f b) = Ret f'
     /\ elems f' = wire_bytes (Wire (first_byte op) None b)
     /\ PayloadLength f' = Ret (zlen b) /\ IsFIN f' = Ret true /\ IsMasked f' = Ret false
     /\ Frame_Opcode f' = Ret (Z.land op 15))
  /\ (exists f' k, (f ← SetIsMasked f; f ← SetFIN f; f ← SetOpcode f op; f ← SetPayload f b;
                    MaskPayload f rnd) = Ret f'
        /\ (b <> [] -> k = rnd) /\ length k = 4%nat
        /\ elems f' = wire_bytes (Wire (first_byte op) (Some k) (xor_mask k b))
        /\ PayloadLength f' = Ret (zlen b) /\ IsMasked f' = Ret true
        /\ exists f'' p, UnmaskPayload f' = Ret f'' /\ Payload f'' = Ret p /\ elems p = b).
Proof.
  intros Hwf E Hc Hr Hb H16 H64.
  pose proof (first_byte_fields op) as (Hfin & _ & Hop).
  destruct (set_header f rest op Hwf E)
    as [(f1 & E1 & W1 & El1 & L1 & C1) (f2 & E2 & W2 & El2 & L2 & C2)]. split.
  - destruct (SetPayload_spec f1 _ _ _ b W1 El1) as (f' & mk & Es & Hf' & Hok & Hm & _);
      [by rewrite C1|done|by rewrite L1|by rewrite L1|].
    destruct mk; [done|]. apply res_bind_inv in E1 as (g & Ea & Eb). rewrite Ea. res_step.
    rewrite Eb. res_step. exists f'. pose proof (frame_accessors _ _ Hf' Hok) as (? & ? & Hif & Hio & _).
    cbn [w_first] in *. rewrite Hfin in Hif. rewrite Hop in Hio. split_and!; try done. apply Hf'.
  - destruct (SetPayload_spec f2 _ _ _ b W2 El2) as (f3 & mk & Es & Hf3 & Hok & Hm & _);
      [by rewrite C2|done|by rewrite L2|by rewrite L2|].
    destruct mk as [mk|]; [|done]. apply res_bind_inv in E2 as (g & Ea & E2).
    apply res_bind_inv in E2 as (g' & Eb & Ec). rewrite Ea. res_step. rewrite Eb. res_step.
    rewrite Ec. res_step. rewrite Es. res_step.
    destruct (MaskPayload_spec f3 _ mk b rnd Hf3 Hok Hr) as (f4 & -> & Hf4 & _).
    set (k := if decide (b = []) then mk else rnd) in *.
    assert (length k = 4%nat) as Hk by (subst k; case_decide; [by apply Hok|done]).
    assert (wire_ok (Wire (first_byte op) (Some k) (xor_mask k b))) as Hok4.
    { split; simpl; [by intros ? [= <-]|]. rewrite length_xor_mask. unfold max_alloc in Hb. lia. }
    exists f4, k. pose proof (frame_accessors _ _ Hf4 Hok4) as (Hpl & ? & _).
    cbn [w_payload] in Hpl. rewrite length_xor_mask in Hpl.
    split; [done|]. split; [subst k; by case_decide|]. split; [done|]. split; [apply Hf4|].
    split; [done|]. split; [done|].
    destruct (UnmaskPayload_spec f4 _ k _ Hf4 Hok4) as (f5 & -> & Hf5).
    rewrite xor_mask_involutive in Hf5.
    destruct (frame_accessors _ _ Hf5) as (_ & _ & _ & _ & (p & Ep & ? & _) & _).
    + split; simpl; [by intros ? [= <-]|]. unfold max_alloc in Hb. lia.
    + by exists f5, p.
Qed.

(** A new frame reads from any stream that starts with an encoding of a non-empty
    payload exactly that encoding, however the stream cuts it, and leaves the rest in the
    stream. *)
Theorem frame_read {R : Type} `{ReaderStream R} (w : wire) (fuel : nat) (r : R) (y : list byte) :
  wire_ok w -> 0 < zlen (w_payload w) <= max_alloc - 14 ->
  (14 + length (w_payload w) <= fuel)%nat -> pend r = wire_bytes w ++ y ->
  exists f' r', Frame_ReadFrom fuel NewFrame r = Ret (f', r', (zlen (wire_bytes w), None))
    /\ elems f' = wire_bytes w /\ pend r' = y.
Proof.
  intros Hok Hp Hf Hr. destruct (ReadFrom_spec NewFrame w fuel r y) as (f' & r' & ? & [_ ?] & ?);
    [by vm_compute|done|by vm_compute|done|done|done|done|]. by exists f', r'.
Qed.

(** Reading a frame without payload into a new frame leaves the slice at its initial
    fourteen bytes: [PayloadLength] is 0, but [Payload] returns the bytes left over. *)
Theorem read_empty_payload {R : Type} `{ReaderStream R} (w : wire) (fuel : nat) (r : R)
    (y : list byte) :
  wire_ok w -> w_payload w = [] -> (14 <= fuel)%nat -> pend r = wire_bytes w ++ y ->
  exists f' r' p, Frame_ReadFrom fuel NewFrame r = Ret (f', r', (zlen (wire_bytes w), None))
    /\ PayloadLength f' = Ret 0 /\ Payload f' = Ret p
    /\ zlen (elems p) = (if w_masked w then 8 else 12).
Proof.
  intros Hok Hp Hf Hr.
  destruct (ReadFrom_head NewFrame w fuel r y) as (f1 & r1 & t & -> & Ha & L1 & W1 & C1 & Hr1);
    [by vm_compute|done|done|done|done|].
  rewrite Hp in *. change (zlen []) with 0 in *.
  destruct (header_of_arr f1 _ _ _ _ Ha) as (t' & Hh & Ht' & _); [by rewrite L1|done|done|].
  pose proof (header_length _ _ _ _ _ Hh) as Hpl. unfold fitPayload. rewrite Hpl by done.
  res_step. rewrite decide_True by done. res_step. exists f1, r1.
  unfold Payload. rewrite (header_offset _ _ _ _ _ Hh). res_step.
  change (zlen (ext_len 0)) with 0 in *. change (slen NewFrame) with 14 in *.
  destruct (reslice_elems f1 (2 + 0 + (if w_masked w then 4 else 0)) (slen f1))
    as (p & Ep & Wp & Lp & _); [done|destruct (w_masked w); lia|lia|].
  exists p. split; [by rewrite Z.sub_0_r, Z.add_0_r|]. split; [by apply Hpl|]. split; [done|].
  rewrite (zlen_elems p Wp). destruct (w_masked w); lia.
Qed.

(** A frame shorter than ten bytes cannot take a payload of more than 65535: the
    extended length is stored before the slice is extended, and panics.  [SetPayload]
    shortens the frame to the payload it was given and [Reset] does not restore its length,
    so a frame released after a small payload, as the stream's pool keeps them, panics on
    the next large one. *)
Theorem short_frame_panics (op : Z) (small large : list byte) :
  zlen small <= 3 -> 65535 < zlen large ->
  exists f g, (f ← SetIsMasked NewFrame; f ← SetFIN f; f ← SetOpcode f op; SetPayload f small) = Ret f
    /\ Frame_Reset f = Ret g
    /\ (g ← SetIsMasked g; g ← SetFIN g; g ← SetOpcode g op; SetPayload g large) = Panic.
Proof.
  intros Hs Hl.
  destruct (set_header NewFrame (replicate 12 Byte.x00) op) as [_ (f1 & E1 & W1 & El1 & L1 & C1)];
    [by vm_compute|done|].
  destruct (SetPayload_spec f1 _ _ _ small W1 El1) as (f & mk & Es & Hf & Hok & Hm & _);
    [rewrite C1; by vm_compute|unfold max_alloc; lia|lia|lia|].
  exists f. apply res_bind_inv in E1 as (a & Ea & E1). apply res_bind_inv in E1 as (b & Eb & Ec).
  rewrite Ea. res_step. rewrite Eb. res_step. rewrite Ec. res_step. rewrite Es.
  pose proof (frame_accessors _ _ Hf Hok) as (_ & _ & _ & _ & _ & Hlen).
  rewrite (length_wire_bytes _ Hok), Hm in Hlen. cbn [w_payload] in Hlen.
  assert (slen f = 6 + zlen small) as Hlf.
  { rewrite Hlen, length_ext_len. rewrite !decide_False by lia.
    rewrite bool_decide_true by (by vm_compute). lia. }
  destruct Hf as [Wf _]. unfold Frame_Reset, copy_at. rewrite decide_True by lia. res_step.
  eexists. split; [done|]. split; [done|].
  set (z := ztake _ zeroBytes).
  assert (z = replicate (Z.to_nat (slen f)) Byte.x00) as Hz.
  { subst z. unfold zeroBytes. rewrite take_replicate. f_equal. simpl. lia. }
  destruct (write_at_elems f 0 z Wf) as [Wg Eg]; [lia|rewrite Hz; llia|].
  set (g := Slice (write_at 0 z (arr f)) (slen f)) in *.
  assert (exists r, elems g = Byte.x00 :: Byte.x00 :: r) as [r Er].
  { rewrite Eg. unfold write_at. simpl. rewrite Hz.
    replace (Z.to_nat (slen f)) with (S (S (Z.to_nat (slen f - 2)))) by lia. simpl. by eexists. }
  destruct (set_header g r op Wg Er) as [_ (g1 & E2 & W2 & El2 & L2 & C2)].
  apply res_bind_inv in E2 as (a' & Ea' & E2). apply res_bind_inv in E2 as (b' & Eb' & Ec').
  rewrite Ea'. res_step. rewrite Eb'. res_step. rewrite Ec'. res_step.
  apply SetPayload_short with (first_byte op) Byte.x80 r; [done|done|rewrite L2; simpl; lia|lia].
Qed.
End frame_properties.

(** A text message built in a new frame. *)
Lemma frame_build_witness :
  exists f' k, (f ← SetIsMasked NewFrame; f ← SetFIN f; f ← SetOpcode f OpcodeText;
                f ← SetPayload (H:=doubling_runtime) f [Byte.x48; Byte.x69];
                MaskPayload f [Byte.x01; Byte.x02; Byte.x03; Byte.x04]) = Ret f'
    /\ (([Byte.x48; Byte.x69] : list byte) <> [] -> k = [Byte.x01; Byte.x02; Byte.x03; Byte.x04])
    /\ length k = 4%nat
    /\ elems f' = wire_bytes (Wire (first_byte 1) (Some k) (xor_mask k [Byte.x48; Byte.x69]))
    /\ PayloadLength f' = Ret 2 /\ IsMasked f' = Ret true
    /\ exists f'' p, UnmaskPayload f' = Ret f'' /\ Payload f'' = Ret p
         /\ elems p = [Byte.x48; Byte.x69].
Proof.
  apply (frame_build (H:=doubling_runtime) NewFrame (replicate 12 Byte.x00) 1
    [Byte.x48; Byte.x69] [Byte.x01; Byte.x02; Byte.x03; Byte.x04]);
    [by vm_compute|reflexivity|by vm_compute|reflexivity|unfold max_alloc; simpl; lia|simpl; lia..].
Defined.

(** A binary frame of three bytes, cut inside the header and inside the payload. *)
Definition example_wire : wire := Wire Byte.x82 None [Byte.x0a; Byte.x0b; Byte.x0c].

Lemma frame_read_witness :
  exists f' r', Frame_ReadFrom (H:=doubling_runtime) 20 NewFrame
      (mkChunks [[Byte.x82]; [Byte.x03; Byte.x0a]; [Byte.x0b; Byte.x0c; Byte.xff]])
      = Ret (f', r', (5, None))
    /\ elems f' = wire_bytes example_wire /\ pend r' = [Byte.xff].
Proof.
  apply (frame_read (H:=doubling_runtime) example_wire 20
    (mkChunks [[Byte.x82]; [Byte.x03; Byte.x0a]; [Byte.x0b; Byte.x0c; Byte.xff]]) [Byte.xff]);
    [by split|unfold max_alloc; simpl; lia|simpl; lia|by vm_compute].
Defined.

(** An unmasked ping without payload. *)
Lemma read_empty_payload_witness :
  exists f' r' p, Frame_ReadFrom (H:=doubling_runtime) 14 NewFrame (mkChunks [[Byte.x89; Byte.x00]])
      = Ret (f', r', (2, None))
    /\ PayloadLength f' = Ret 0 /\ Payload f' = Ret p /\ zlen (elems p) = 12.
Proof.
  apply (read_empty_payload (H:=doubling_runtime) (Wire Byte.x89 None []) 14
    (mkChunks [[Byte.x89; Byte.x00]]) []); [by split|done|lia|by vm_compute].
Defined.

Lemma short_frame_panics_witness :
  exists f g, (f ← SetIsMasked NewFrame; f ← SetFIN f; f ← SetOpcode f OpcodeText;
               SetPayload (H:=doubling_runtime) f [Byte.x48; Byte.x69]) = Ret f
    /\ Frame_Reset f = Ret g
    /\ (g ← SetIsMasked g; g ← SetFIN g; g ← SetOpcode g OpcodeText;
        SetPayload (H:=doubling_runtime) g (replicate (Z.to_nat 65536) Byte.x2a)) = Panic.
Proof.
  apply (short_frame_panics (H:=doubling_runtime)); [simpl; lia|].
  rewrite length_replicate. lia.
Defined.
