(* ===== verification/WebsocketCodec.v ===== *)
(** The WebSocket frame codec of [src/codec/websocket/frame_codec.go].

    The codec decodes frames in place: a decoded frame is a slice of the source buffer,
    which the next call consumes.  [parse] says what the unread bytes of a buffer amount
    to; [Decode] is shown to compute it without losing a byte. *)

From S2P Require Import Prelude GoSlice GoIO ByteBuffer WebsocketFrame WebsocketWire.

(** * Operations *)

(** [decodeFrame] is nil between frames; [src] and [dst] of the source are the buffers
    the calls are made with. *)
Record FrameCodec : Type := mkFrameCodec {
  maxMessageSize : Z;
  decodeFrame : option Frame;
  decodeReset : bool
}.

Definition NewFrameCodec (maxMessageSize : Z) : FrameCodec :=
  mkFrameCodec maxMessageSize (Some NewFrame) false.

Section codec_ops.
Context `{GoRuntime}.
Implicit Types (c : FrameCodec) (src dst : ByteBuffer).

Definition frame_len (f : option Frame) : Z := match f with Some f => slen f | None => 0 end.

Definition resetDecode c src : res (FrameCodec * ByteBuffer) :=
  if decodeReset c then
    src ← Consume src (frame_len (decodeFrame c));
    Ret (mkFrameCodec (maxMessageSize c) None false, src)
  else Ret (c, src).

(** [if err := src.PrepareRead(n); err != nil { ... }] and
    [c.decodeFrame = src.Data()[:n]]. *)
Definition prepare src (n : Z) : res (ByteBuffer * (error + Frame)) :=
  '(src, err) ← PrepareRead src n;
  match err with
  | Some e => Ret (src, inl e)
  | None =>
      d ← reslice (data src) (si src) (ri src);
      f ← reslice d 0 n;
      Ret (src, inr f)
  end.

(** [c.decodeFrame = nil; return nil, err]. *)
Definition decode_fail c src (e : error) :
    res (FrameCodec * ByteBuffer * (option Frame * option error)) :=
  Ret (mkFrameCodec (maxMessageSize c) None (decodeReset c), src, (None, Some e)).

Definition Decode c src : res (FrameCodec * ByteBuffer * (option Frame * option error)) :=
  '(c, src) ← resetDecode c src;
  let readSoFar := frameHeaderLength in
  '(src, r) ← prepare src readSoFar;
  match r with
  | inl e => decode_fail c src e
  | inr f =>
  ext ← ExtendedPayloadLengthBytes f;
  let readSoFar := readSoFar + ext in
  '(src, r) ← prepare src readSoFar;
  match r with
  | inl e => decode_fail c src e
  | inr f =>
  payloadLength ← PayloadLength f;
  if decide (payloadLength > maxMessageSize c) then decode_fail c src ErrPayloadOverMaxSize
  else
  masked ← IsMasked f;
  let readSoFar := if (masked : bool) then readSoFar + frameMaskLength else readSoFar in
  '(src, r) ← (if (masked : bool) then prepare src readSoFar else Ret (src, inr f));
  match r with
  | inl e => decode_fail c src e
  | inr f =>
  let readSoFar := i64 (readSoFar + payloadLength) in
  '(src, r) ← prepare src readSoFar;
  match r with
  | inl e => src ← Reserve src payloadLength; decode_fail c src e
  | inr f => Ret (mkFrameCodec (maxMessageSize c) (Some f) true, src, (Some f, None))
  end end end end.

(** [frame.WriteTo(dst)] takes one round per [dst.Write], which accepts all it is
    given. *)
Definition Encode (frame : Frame) dst : res (ByteBuffer * option error) :=
  n ← PayloadLength frame;
  dst ← Reserve dst (i64 (n + frameMaxHeaderLength));
  '(dst, (n, err)) ← Frame_WriteTo (Z.to_nat (slen frame)) frame dst;
  let dst := Commit dst n in
  dst ← (match err with Some _ => Consume dst n | None => Ret dst end);
  Ret (dst, err).
End codec_ops.

(** * What the unread bytes amount to *)

Inductive parsed : Type :=
| Need (reserve : Z)   (** not a whole frame; room was asked for *)
| TooBig
| Got (n : Z)          (** a frame of that many bytes *)
| Crash                (** the length field is negative as an [int], beyond the header *)
| Wraps.               (** so negative that the buffer's own arithmetic may wrap around *)

Definition ext_bytes (l7 : Z) : Z := if decide (l7 = 127) then 8 else if decide (l7 = 126) then 2 else 0.

Definition parse (max : Z) (U : list byte) : parsed :=
  match U with
  | _ :: b1 :: t =>
      let l7 := Z.land (b2z b1) bitmaskPayloadLength in
      let e := ext_bytes l7 in
      if decide (zlen t < e) then Need 0
      else
        let n := if decide (l7 = 127) then i64 (be_decode (ztake 8 t))
                 else if decide (l7 = 126) then be_decode (ztake 2 t) else l7 in
        if decide (n > max) then TooBig
        else
          let h := 2 + e + (if decide (128 <= b2z b1) then 4 else 0) in
          if decide (zlen U < h) then Need 0
          else if decide (zlen U < h + n) then Need n
          else if decide (h + n < - 2 ^ 62) then Wraps
          else if decide (h + n < 0) then Crash
          else Got (h + n)
  | _ => Need 0
  end.

(** [U] are the bytes of [src] that no returned frame covers. *)
Definition unread (c : FrameCodec) (src : ByteBuffer) (U : list byte) : Prop :=
  exists S R W F o, src = bb S R W F o
    /\ (let k := if decodeReset c then frame_len (decodeFrame c) else 0 in
        0 <= k <= zlen R /\ U = zdrop k R ++ W)
    /\ bounded S R W F.

(** * Decoding *)

Section decoding.
Context `{GoRuntime}.

Lemma prepare_bb S R W F o n :
  - 2 ^ 62 <= n <= 2 ^ 62 -> zlen S + zlen R + zlen W <= 2 ^ 61 ->
  (zlen R + zlen W < n -> prepare (bb S R W F o) n = Ret (bb S R W F o, inl ErrNeedMore))
  /\ (0 <= n <= zlen R + zlen W ->
      exists R' W' f, prepare (bb S R W F o) n = Ret (bb S R' W' F o, inr f)
        /\ R ++ W = R' ++ W' /\ slice_wf f /\ elems f = ztake n (R ++ W) /\ slen f = n
        /\ n <= zlen R')
  /\ (n < 0 -> prepare (bb S R W F o) n = Panic).
Proof.
  intros Hn Hs. unfold prepare. rewrite PrepareRead_bb by (unfold is_int; lia). res_step.
  split_and!; intros Hc.
  - by rewrite decide_False by lia.
  - rewrite decide_True by lia. set (k := n - zlen R).
    exists (R ++ ztake k W), (zdrop k W).
    rewrite reslice_bb by (simpl; llia). res_step. rewrite reslice_0 by (unfold scap; simpl; llia).
    res_step. eexists. split; [done|]. split_and!.
    + by rewrite <-app_assoc, take_drop.
    + unfold slice_wf, scap. simpl. llia.
    + unfold elems. simpl. zsimpl. destruct (decide (n <= zlen R)).
      * by rewrite !ztake_app_le by lia.
      * rewrite !ztake_app_ge by lia. by rewrite take_take, Nat.min_id.
    + done.
    + subst k. llia.
  - rewrite decide_True by lia. rewrite reslice_bb by (simpl; llia). res_step.
    by rewrite reslice_panic by lia.
Qed.

(** The accessors on a frame cut off after its header. *)
Lemma raw_ext f b0 b1 t :
  slice_wf f -> elems f = b0 :: b1 :: t ->
  ExtendedPayloadLengthBytes f = Ret (ext_bytes (Z.land (b2z b1) bitmaskPayloadLength)).
Proof.
  intros Hwf E. unfold ExtendedPayloadLengthBytes, get_bits. by rewrite (index_1 f _ _ _ Hwf E).
Qed.

Lemma raw_masked f b0 b1 t :
  slice_wf f -> elems f = b0 :: b1 :: t -> IsMasked f = Ret (bool_decide (128 <= b2z b1)).
Proof.
  intros Hwf E. unfold IsMasked, has_bit, get_bits. rewrite (index_1 f _ _ _ Hwf E). res_step.
  by rewrite masked_bit.
Qed.

Lemma raw_length f b0 b1 t :
  slice_wf f -> elems f = b0 :: b1 :: t ->
  let l7 := Z.land (b2z b1) bitmaskPayloadLength in
  ext_bytes l7 <= zlen t ->
  PayloadLength f = Ret (if decide (l7 = 127) then i64 (be_decode (ztake 8 t))
                         else if decide (l7 = 126) then be_decode (ztake 2 t) else l7).
Proof.
  intros Hwf E l7 Ht. unfold PayloadLength, get_bits. rewrite (index_1 f _ _ _ Hwf E). res_step.
  fold l7. pose proof (zlen_elems f Hwf) as Hz. rewrite E in Hz. simpl in Hz.
  unfold ext_bytes, frameHeaderLength in *.
  destruct (decide (l7 = 127)); [|destruct (decide (l7 = 126)); [|done]].
  - destruct (reslice_elems f 2 (2 + 8)) as (s & -> & _ & _ & Es); [done|lia|lia|].
    res_step. rewrite Es, E. simpl. by rewrite drop_0.
  - destruct (reslice_elems f 2 (2 + 2)) as (s & -> & _ & _ & Es); [done|lia|lia|].
    res_step. rewrite Es, E. simpl. by rewrite drop_0.
Qed.

Lemma land_127_range b : 0 <= Z.land (b2z b) bitmaskPayloadLength < 128.
Proof.
  change bitmaskPayloadLength with (Z.ones 7). rewrite Z.land_ones by lia.
  apply Z.mod_pos_bound. lia.
Qed.

Lemma be_decode_small (bs : list byte) : (length bs <= 2)%nat -> 0 <= be_decode bs < 65536.
Proof.
  intros Hl. pose proof (be_decode_bound bs) as Hb.
  assert (256 ^ Z.of_nat (length bs) <= 256 ^ 2) by (apply Z.pow_le_mono_r; lia). lia.
Qed.

(** [resetDecode] leaves the unread bytes as the only contents of the read and write
    areas. *)
Lemma resetDecode_unread c src U :
  unread c src U ->
  exists c' S R W F o, resetDecode c src = Ret (c', bb S R W F o)
    /\ decodeReset c' = false /\ maxMessageSize c' = maxMessageSize c
    /\ U = R ++ W /\ bounded S R W F
    /\ si src = zlen S /\ Cap src = zlen S + zlen U + zlen F.
Proof.
  intros (S & R & W & F & o & -> & [Hk ->] & Hs). unfold resetDecode.
  destruct (decodeReset c) eqn:E.
  - destruct (Consume_bb S R W F o (frame_len (decodeFrame c))) as (F' & -> & HF'). res_step.
    eexists _, S, _, W, F', o. unfold bounded in *. split_and!; [done..|llia|llia|done|].
    unfold Cap, scap. simpl. llia.
  - exists c, S, R, W, F, o. rewrite zdrop_neg by lia. split_and!; try done.
    unfold Cap, scap. simpl. llia.
Qed.

(** What a decoding step [m] on [src] with unread bytes [U] comes to. *)
Definition decode_outcome (m : res (FrameCodec * ByteBuffer * (option Frame * option error)))
    (max : Z) (src : ByteBuffer) (U : list byte) (p : parsed) : Prop :=
  match p with
  | Wraps => True
  | Crash => m = Panic
  | Need k =>
      exists c' src', m = Ret (c', src', (None, Some ErrNeedMore))
        /\ unread c' src' U /\ maxMessageSize c' = max /\ decodeReset c' = false
        /\ k <= Reserved src' /\ Reserved src' = Cap src' - si src' - zlen U
        /\ Cap src - si src <= Cap src' - si src'
  | TooBig =>
      exists c' src', m = Ret (c', src', (None, Some ErrPayloadOverMaxSize))
        /\ unread c' src' U /\ maxMessageSize c' = max
  | Got n =>
      exists c' src' f, m = Ret (c', src', (Some f, None))
        /\ slice_wf f /\ elems f = ztake n U /\ unread c' src' (zdrop n U)
        /\ maxMessageSize c' = max /\ Cap src' - si src' = Cap src - si src
  end.

Lemma fail_result c S R W F o U src k :
  decodeReset c = false -> U = R ++ W -> bounded S R W F ->
  si src = zlen S -> Cap src <= zlen S + zlen U + zlen F -> k <= zlen F ->
  decode_outcome (decode_fail c (bb S R W F o) ErrNeedMore) (maxMessageSize c) src U (Need k).
Proof.
  intros Hr -> Hs Hsi Hc Hk. unfold decode_fail. eexists _, _. split; [done|]. split.
  - exists S, R, W, F, o. simpl. rewrite Hr. split_and!; [done|lia|lia|done|done].
  - unfold Reserved, Cap, scap in *. simpl. split_and!; [done|done|llia|llia|llia].
Qed.

(** The last step: the payload. *)
Lemma decode_payload c S R W F o U src h n :
  decodeReset c = false -> U = R ++ W -> bounded S R W F ->
  si src = zlen S -> Cap src = zlen S + zlen U + zlen F ->
  2 <= h <= zlen U -> h <= 14 -> - 2 ^ 63 <= n <= maxMessageSize c -> maxMessageSize c <= 2 ^ 48 ->
  let m := ('(b, r) ← prepare (bb S R W F o) (i64 (h + n));
     match r with
     | inl e => b ← Reserve b n; decode_fail c b e
     | inr f => Ret (mkFrameCodec (maxMessageSize c) (Some f) true, b, (Some f, None))
     end) in
  decode_outcome m (maxMessageSize c) src U
    (if decide (zlen U < h + n) then Need n
     else if decide (h + n < - 2 ^ 62) then Wraps
     else if decide (h + n < 0) then Crash else Got (h + n)).
Proof.
  intros Hr HU Hs Hsi Hcap Hh Hh14 Hn Hmax m. subst m. unfold bounded in Hs.
  rewrite i64_small by (unfold is_int; lia).
  assert (zlen U = zlen R + zlen W) as HlU by (rewrite HU; llia).
  destruct (decide (zlen U < h + n)); [|destruct (decide (h + n < - 2 ^ 62)); [done|]].
  2: destruct (decide (h + n < 0)).
  - destruct (prepare_bb S R W F o (h + n)) as (Hp & _); [lia|lia|]. rewrite Hp by lia. res_step.
    destruct (Reserve_bb S R W F o n) as (F' & ER & HF1 & HF2);
      [unfold is_int; lia|unfold max_alloc; lia|].
    pose proof (Reserve_cap S R W F o n _ ltac:(unfold is_int; lia) ER) as Hc.
    unfold Cap in Hc. rewrite !scap_bb in Hc. unfold max_alloc in Hc.
    rewrite ER. res_step. apply fail_result; try done; unfold bounded; lia.
  - destruct (prepare_bb S R W F o (h + n)) as (_ & _ & Hp); [lia|lia|]. by rewrite Hp by lia.
  - destruct (prepare_bb S R W F o (h + n)) as (_ & Hp & _); [lia|lia|].
    destruct Hp as (R' & W' & f & -> & HU' & Wf & Ef & Lf & HR'); [lia|].
    res_step. eexists _, _, f. split; [done|]. rewrite HU.
    split_and!; [done|done| |done|].
    2: { unfold Cap in *. rewrite scap_bb. simpl. apply (f_equal length) in HU'. llia. }
    exists S, R', W', F, o. split; [done|]. simpl.
    assert (zlen R + zlen W = zlen R' + zlen W') by (apply (f_equal length) in HU'; llia).
    unfold bounded. split_and!; [lia|lia| |lia|lia]. rewrite HU', Lf. by rewrite zdrop_app_le by lia.
Qed.

Lemma Decode_parse c src U :
  unread c src U -> 0 <= maxMessageSize c <= max_alloc ->
  decode_outcome (Decode c src) (maxMessageSize c) src U (parse (maxMessageSize c) U).
Proof.
  intros Hu Hmax. unfold max_alloc in *.
  destruct (resetDecode_unread c src U Hu)
    as (c1 & S & R & W & F & o & E & Hr & Hm & HU & Hs & Hsi & Hcap).
  rewrite <-Hm in *. assert (zlen U = zlen R + zlen W) as HlU by (rewrite HU; llia).
  unfold Decode, frameHeaderLength, frameMaskLength. rewrite E. res_step.
  pose proof Hs as [Hs1 Hs2].
  destruct (prepare_bb S R W F o 2) as (Hp1 & Hp2 & _); [lia|lia|].
  destruct U as [|b0 [|b1 t]]; [| |].
  1,2: unfold parse; rewrite Hp1 by (simpl in HlU; lia); res_step;
    apply fail_result; done || lia.
  destruct Hp2 as (R1 & W1 & f1 & -> & HU1 & Wf1 & Ef1 & _); [simpl in HlU; lia|]. res_step.
  rewrite <-HU in Ef1. change (ztake 2 (b0 :: b1 :: t)) with [b0; b1] in Ef1.
  rewrite (raw_ext _ _ _ _ Wf1 Ef1). res_step. rewrite HU1 in HU. clear Hp1.
  unfold parse. set (l7 := Z.land (b2z b1) bitmaskPayloadLength).
  pose proof (land_127_range b1) as Hl7. fold l7 in Hl7.
  assert (0 <= ext_bytes l7 <= 8) as He by (unfold ext_bytes; repeat case_decide; lia).
  assert (bounded S R1 W1 F /\ zlen (b0 :: b1 :: t) = zlen R1 + zlen W1) as [Hs' HlU'].
  { apply (f_equal length) in HU1. unfold bounded. rewrite HU. llia. }
  clear Hs Hs1 Hs2 HlU HU1 E. pose proof Hs' as [Hs1 Hs2]. simpl in HlU'.
  destruct (prepare_bb S R1 W1 F o (2 + ext_bytes l7)) as (Hp1 & Hp2 & _); [lia|lia|].
  destruct (decide (zlen t < ext_bytes l7)) as [Ht|Ht].
  { rewrite Hp1 by lia. res_step. apply fail_result; done || lia. }
  destruct Hp2 as (R2 & W2 & f2 & -> & HU2 & Wf2 & Ef2 & _); [lia|]. res_step.
  rewrite <-HU in Ef2.
  replace (ztake (2 + ext_bytes l7) (b0 :: b1 :: t)) with (b0 :: b1 :: ztake (ext_bytes l7) t) in Ef2.
  2: { by replace (Z.to_nat (2 + ext_bytes l7)) with (2 + Z.to_nat (ext_bytes l7))%nat by lia. }
  rewrite (raw_length _ _ _ _ Wf2 Ef2) by (fold l7; llia). res_step. fold l7.
  set (n := if decide (l7 = 127) then i64 (be_decode (ztake 8 t))
            else if decide (l7 = 126) then be_decode (ztake 2 t) else l7).
  assert ((if decide (l7 = 127) then i64 (be_decode (ztake 8 (ztake (ext_bytes l7) t)))
    else if decide (l7 = 126) then be_decode (ztake 2 (ztake (ext_bytes l7) t)) else l7) = n) as ->.
  { subst n. unfold ext_bytes. destruct (decide (l7 = 127)); [by rewrite take_take|].
    destruct (decide (l7 = 126)); [by rewrite take_take|done]. }
  assert (- 2 ^ 63 <= n) as Hn.
  { subst n. destruct (decide (l7 = 127)); [apply i64_is_int|].
    destruct (decide (l7 = 126)); [|lia]. pose proof (be_decode_bound (ztake 2 t)). lia. }
  clearbody n. rewrite HU2 in HU.
  assert (bounded S R2 W2 F /\ zlen (b0 :: b1 :: t) = zlen R2 + zlen W2) as [Hs'' HlU''].
  { apply (f_equal length) in HU2. unfold bounded. rewrite HU. llia. }
  clear Hs' Hs1 Hs2 HlU' HU2 Hp1. pose proof Hs'' as [Hs1 Hs2].
  destruct (decide (n > maxMessageSize c1)) as [Hbig|Hbig].
  { unfold decode_fail. eexists _, _. split; [done|]. split; [|done].
    exists S, R2, W2, F, o. simpl. rewrite Hr. split_and!; [done|lia|lia|done|done]. }
  rewrite (raw_masked _ _ _ _ Wf2 Ef2). res_step.
  destruct (decide (128 <= b2z b1)) as [Hmk|Hmk].
  - rewrite bool_decide_true by done.
    destruct (prepare_bb S R2 W2 F o (2 + ext_bytes l7 + 4)) as (Hp1 & Hp2 & _); [lia|lia|].
    destruct (decide (zlen (b0 :: b1 :: t) < 2 + ext_bytes l7 + 4)) as [Hh|Hh].
    { rewrite Hp1 by lia. res_step. apply fail_result; done || lia. }
    destruct Hp2 as (R3 & W3 & f3 & -> & HU3 & _); [lia|]. res_step. rewrite HU3 in HU.
    apply decode_payload; try done; try lia.
    apply (f_equal length) in HU3. unfold bounded. llia.
  - rewrite bool_decide_false by done. rewrite Z.add_0_r.
    rewrite (decide_False (P := zlen (b0 :: b1 :: t) < 2 + ext_bytes l7)) by (simpl in *; lia).
    res_step. apply decode_payload; try done; try lia. simpl in *. lia.
Qed.
End decoding.

(** * Parsing encodings *)

Lemma ext_bytes_len n : 0 <= n -> ext_bytes (len7 n) = zlen (ext_len n).
Proof. intros Hn. rewrite length_ext_len. unfold ext_bytes, len7. repeat case_decide; lia. Qed.

(** Once the length is there, the header decides. *)
Lemma parse_header max b0 m n t :
  0 <= n < 2 ^ 63 ->
  parse max (b0 :: second_byte m n :: ext_len n ++ t)
  = if decide (n > max) then TooBig
    else
      let h := 2 + zlen (ext_len n) + (if m then 4 else 0) in
      let k := 2 + zlen (ext_len n ++ t) in
      if decide (k < h) then Need 0 else if decide (k < h + n) then Need n else Got (h + n).
Proof.
  intros Hn. unfold parse. rewrite second_byte_len by lia. rewrite ext_bytes_len by lia.
  rewrite (decide_False (P := zlen (ext_len n ++ t) < _)) by llia.
  pose proof (length_ext_len n) as He.
  assert ((if decide (len7 n = 127) then i64 (be_decode (ztake 8 (ext_len n ++ t)))
    else if decide (len7 n = 126) then be_decode (ztake 2 (ext_len n ++ t)) else len7 n) = n) as ->.
  { unfold len7. destruct (decide (n > 65535)); [|destruct (decide (n > 125))].
    - rewrite decide_True by done. zsimpl. rewrite be_decode_ext by lia. apply i64_small.
      unfold is_int. lia.
    - rewrite decide_False, decide_True by done. zsimpl. apply be_decode_ext. lia.
    - by rewrite !decide_False by lia. }
  destruct (decide (n > max)); [done|]. pose proof (second_byte_masked m n ltac:(lia)) as Hm.
  rewrite masked_bit in Hm. assert ((if decide (128 <= b2z (second_byte m n)) then 4 else 0)
    = if m then 4 else 0) as ->.
  { destruct (decide (128 <= b2z (second_byte m n))) as [Hd|Hd];
      [rewrite bool_decide_true in Hm by done|rewrite bool_decide_false in Hm by done];
      clear Hd; by subst m. }
  assert (zlen (b0 :: second_byte m n :: ext_len n ++ t) = 2 + zlen (ext_len n ++ t)) as ->
    by (simpl; lia).
  set (h := 2 + zlen (ext_len n) + _). assert (2 <= h) by (subst h; destruct m; lia).
  destruct (decide (2 + zlen (ext_len n ++ t) < h)); [done|].
  destruct (decide (2 + zlen (ext_len n ++ t) < h + n)); [done|].
  by rewrite !decide_False by lia.
Qed.

Lemma wire_bytes_shape w rest :
  wire_bytes w ++ rest
  = w_first w :: second_byte (w_masked w) (zlen (w_payload w))
    :: ext_len (zlen (w_payload w)) ++ default [] (w_mask w) ++ w_payload w ++ rest.
Proof. unfold wire_bytes, wire_header. rewrite <-!app_assoc. done. Qed.

Lemma parse_wire max w rest :
  wire_ok w -> zlen (w_payload w) <= max ->
  parse max (wire_bytes w ++ rest) = Got (zlen (wire_bytes w)).
Proof.
  intros Hok Hn. pose proof (zlen_mask w Hok). pose proof (proj2 Hok).
  rewrite wire_bytes_shape, parse_header by lia. rewrite (length_wire_bytes w Hok).
  rewrite decide_False by lia. cbv zeta. rewrite !decide_False; [done|..];
    rewrite !length_app; destruct (w_masked w); lia.
Qed.

Lemma parse_too_big max w rest :
  wire_ok w -> max < zlen (w_payload w) -> parse max (wire_bytes w ++ rest) = TooBig.
Proof.
  intros Hok Hn. pose proof (proj2 Hok). rewrite wire_bytes_shape, parse_header by lia.
  by rewrite decide_True by lia.
Qed.

(** A proper prefix is never a frame; the room asked for is that of the payload. *)
Lemma parse_prefix max w U rest :
  wire_ok w -> zlen (w_payload w) <= max -> wire_bytes w = U ++ rest -> rest <> [] ->
  exists k, parse max U = Need k /\ (zlen U < 14 \/ 0 < k) /\ 0 <= k <= max.
Proof.
  intros Hok Hn HU Hr. pose proof (zlen_mask w Hok) as Hm. pose proof (proj2 Hok).
  pose proof (length_wire_bytes w Hok) as Hl. rewrite HU, length_app in Hl.
  assert (0 < zlen rest) by (destruct rest; simpl; [done|lia]).
  pose proof (wire_bytes_shape w []) as Hs. rewrite app_nil_r, HU in Hs.
  set (n := zlen (w_payload w)) in *. set (e := ext_len n) in *.
  assert (0 <= zlen e <= 8) as He.
  { unfold e. rewrite length_ext_len. repeat case_decide; lia. }
  assert (zlen U < 14 -> parse max U = Need 0 ->
    exists k, parse max U = Need k /\ (zlen U < 14 \/ 0 < k) /\ 0 <= k <= max) as Hsmall.
  { intros ? ->. exists 0. split_and!; [done|by left|lia|lia]. }
  destruct U as [|b0 [|b1 U]].
  - apply Hsmall; [simpl; lia|done].
  - apply Hsmall; [simpl; lia|done].
  - simpl in Hs. injection Hs as -> -> Hs. rewrite app_nil_r in Hs.
    destruct (decide (zlen U < zlen e)) as [Hlt|Hge].
    + apply Hsmall; [simpl; lia|]. unfold parse.
      rewrite second_byte_len, ext_bytes_len by lia. fold e. by rewrite decide_True by lia.
    + assert (exists t, U = e ++ t) as [t ->].
      { exists (zdrop (zlen e) U). rewrite <-(ztake_zdrop (zlen e) U) at 1. f_equal.
        apply (f_equal (take (Z.to_nat (zlen e)))) in Hs. revert Hs. by zsimpl. }
      rewrite parse_header by lia. fold e. rewrite decide_False by lia. cbv zeta.
      autorewrite with zlist in Hl. simpl in Hl.
      case_decide; [exists 0; split_and!; [done| |lia|lia]|
        rewrite decide_True by llia; exists n; split_and!; [done| |lia|lia]].
      * left. simpl. destruct (w_masked w); llia.
      * destruct (decide (0 < n)); [by right|]. left. simpl. destruct (w_masked w); llia.
Qed.

(** * Encoding *)

Section encoding.
Context `{GoRuntime}.

(** One [Write] takes the whole frame. *)
Lemma Frame_WriteTo_bb f S R W F o fuel :
  slice_wf f -> (0 < slen f -> (0 < fuel)%nat) ->
  exists F', Frame_WriteTo fuel f (bb S R W F o) = Ret (bb S R (W ++ elems f) F' o, (slen f, None))
    /\ zlen F - slen f <= zlen F'
    /\ Cap (bb S R (W ++ elems f) F' o)
       <= Z.max (Cap (bb S R W F o)) (Z.max (zlen S + zlen R + zlen W + slen f) max_alloc).
Proof.
  intros Hwf Hf. pose proof (zlen_elems f Hwf) as Hl. pose proof Hwf as [Hs _].
  unfold Frame_WriteTo. destruct (decide (0 < slen f)) as [Hp|Hz].
  - destruct fuel as [|fuel]; [lia|]. cbn [Frame_WriteTo_loop]. rewrite decide_True by done.
    destruct (reslice_elems f 0 (slen f)) as (s & -> & _ & _ & Es); [done|lia|lia|]. res_step.
    rewrite ztake_all in Es by llia. change (zdrop 0 (elems f)) with (elems f) in Es. rewrite Es.
    destruct (Write_bb S R W F o (elems f)) as (F' & E & HF).
    pose proof (Write_cap _ _ _ _ _ _ _ _ E) as Hc.
    unfold io_write, bytebuffer_writer. rewrite E. res_step. exists F'.
    rewrite Hl in *. split; [|lia].
    destruct fuel; cbn [Frame_WriteTo_loop]; by rewrite decide_False by lia.
  - assert (elems f = []) as -> by (apply nil_length_inv; lia). exists F.
    rewrite app_nil_r. split; [|lia].
    replace (slen f) with 0 by lia. destruct fuel; cbn [Frame_WriteTo_loop];
      by rewrite decide_False by lia.
Qed.

Lemma Encode_bb f w S R F o :
  frame_is f w -> wire_ok w -> zlen (w_payload w) <= 2 ^ 47 -> bounded S R [] F ->
  zlen S + zlen R <= 2 ^ 59 ->
  exists F', Encode f (bb S R [] F o) = Ret (bb S (R ++ wire_bytes w) [] F' o, None)
    /\ bounded S (R ++ wire_bytes w) [] F'.
Proof.
  intros Hf Hok Hn [Hs Ht] HR. pose proof (frame_accessors f w Hf Hok) as (Hl & _ & _ & _ & _ & Hsl).
  destruct Hf as [Hwf Ef]. unfold Encode. rewrite Hl. res_step.
  pose proof (length_wire_bytes w Hok) as Hlw. unfold frameMaxHeaderLength.
  assert (zlen (ext_len (zlen (w_payload w))) <= 8) by (rewrite length_ext_len; repeat case_decide; lia).
  assert (zlen (wire_bytes w) <= 2 ^ 47 + 14) by (destruct (w_masked w); lia).
  rewrite i64_small by (unfold is_int; lia).
  destruct (Reserve_bb S R [] F o (zlen (w_payload w) + 14)) as (F1 & E1 & HF1 & _);
    [unfold is_int; simpl in *; lia|unfold max_alloc; lia|].
  pose proof (Reserve_cap S R [] F o (zlen (w_payload w) + 14) _
    ltac:(unfold is_int; simpl in *; lia) E1) as Hc1.
  rewrite E1. res_step.
  destruct (Frame_WriteTo_bb f S R [] F1 o (Z.to_nat (slen f))) as (F2 & -> & HF2 & Hc2);
    [done|lia|].
  res_step. rewrite Commit_bb by (unfold is_int; lia). unfold Cap in *. rewrite !scap_bb in *. unfold max_alloc in *.
  exists F2. rewrite Ef in *. rewrite Hsl in *. cbn [app] in *. change (zlen []) with 0 in *.
  rewrite ztake_all, zdrop_all by lia. split; [done|]. unfold bounded. rewrite length_app. change (zlen []) with 0. lia.
Qed.
End encoding.

(** * Negative lengths *)

Lemma parse_negative max field rest :
  0 <= max -> length field = 8%nat -> 2 ^ 63 + 2 ^ 62 <= be_decode field ->
  parse max (Byte.x82 :: Byte.x7f :: field ++ rest)
  = if decide (be_decode field < 2 ^ 64 - 10) then Crash else Got (be_decode field - 2 ^ 64 + 10).
Proof.
  intros Hm Hl Hn. pose proof (be_decode_bound field) as Hb. rewrite Hl in Hb.
  change (256 ^ Z.of_nat 8) with (2 ^ 64) in Hb.
  assert (i64 (be_decode field) = be_decode field - 2 ^ 64) as En.
  { unfold i64. rewrite <-(Z.mod_unique _ _ 1 (be_decode field - 2 ^ 63)); lia. }
  unfold parse. change (Z.land (b2z Byte.x7f) bitmaskPayloadLength) with 127.
  change (ext_bytes 127) with 8. rewrite (decide_True (P := 127 = 127)) by done.
  rewrite ztake_app_le, (ztake_all _ field), En by lia. change (b2z Byte.x7f) with 127.
  rewrite (decide_False (P := 128 <= 127)) by lia. cbn [length].
  rewrite (decide_False (P := zlen _ < 8)) by (rewrite length_app; lia).
  rewrite (decide_False (P := _ > max)) by lia. cbv zeta.
  rewrite !(decide_False (P := Z.of_nat _ < _)) by (rewrite length_app; lia).
  rewrite (decide_False (P := _ < - 2 ^ 62)) by lia.
  destruct (decide (be_decode field < 2 ^ 64 - 10)).
  - by rewrite decide_True by lia.
  - rewrite decide_False by lia. f_equal. lia.
Qed.

Section negative.
Context `{GoRuntime}.

(** An unmasked frame shorter than the ten header bytes its length field calls for. *)
Lemma Payload_truncated f U rest :
  slice_wf f -> U = Byte.x82 :: Byte.x7f :: rest -> elems f = ztake (slen f) U -> slen f < 10 ->
  Payload f = Panic.
Proof.
  intros Hwf -> Ef Hl. unfold Payload, payloadOffset. pose proof (zlen_elems f Hwf) as Hz.
  destruct (decide (2 <= slen f)) as [H2|H2].
  - assert (exists t, elems f = Byte.x82 :: Byte.x7f :: t) as [t Et].
    { rewrite Ef. replace (Z.to_nat (slen f)) with (2 + Z.to_nat (slen f - 2))%nat by lia.
      simpl. eauto. }
    rewrite (raw_ext f _ _ _ Hwf Et). res_step. unfold MaskBytes.
    rewrite (raw_masked f _ _ _ Hwf Et). rewrite bool_decide_false by (vm_compute; congruence).
    res_step. rewrite reslice_panic; [done|]. change (ext_bytes _) with 8.
    unfold frameHeaderLength. lia.
  - unfold ExtendedPayloadLengthBytes, get_bits, index. by rewrite decide_False by lia.
Qed.
End negative.
