(* ===== verification/CodecRoundTrip.v ===== *)
(** Connections with a codec, end to end.

    The WebSocket frame codec is an instance of [LawfulDecoder].  A connection delivers
    the items encoded in the transport's bytes whatever way they are cut into reads; the
    asynchronous reader agrees with the blocking one; what [WriteNext] sends, the other
    end's [ReadNext] returns. *)

From S2P Require Import Prelude GoSlice GoIO ByteBuffer Codec WebsocketFrame WebsocketWire WebsocketCodec.

(** * The WebSocket codec as an instance *)

Section instance.
Context `{GoRuntime}.

#[export] Instance frame_codec : Codec FrameCodec Frame Frame := {|
  codec_encode := fun c f b => '(b, err) ← Encode f b; Ret (c, b, err);
  codec_decode := Decode
|}.

Definition frame_unread (c : FrameCodec) (b : ByteBuffer) (U : list byte) : Prop :=
  unread c b U /\ frameMaxHeaderLength <= Cap b - si b /\ 0 <= maxMessageSize c <= max_alloc.

Definition frame_encoding (c : FrameCodec) (x : list byte) : Prop :=
  exists w, wire_ok w /\ zlen (w_payload w) <= maxMessageSize c /\ x = wire_bytes w.

Lemma frame_unread_more c S R W F F' o U x :
  frame_unread c (bb S R W F o) U -> zlen F' + zlen x = zlen F ->
  frame_unread c (bb S R (W ++ x) F' o) (U ++ x).
Proof.
  intros ((S' & R' & W' & F'' & o' & E & [Hk ->] & [Hs Ht]) & Hr & Hm) Hl.
  apply bb_inj in E as (-> & -> & -> & -> & ->). split_and!; [|..|lia|lia].
  - exists S', R', (W' ++ x), F', o'. rewrite <-app_assoc. unfold bounded.
    split_and!; try done; try lia; llia.
  - unfold Cap in *. rewrite scap_bb in *. simpl in *. llia.
Qed.

Lemma frame_decode_item c b x rest :
  frame_unread c b (x ++ rest) -> frame_encoding c x ->
  exists c' b' f, Decode c b = Ret (c', b', (Some f, None))
    /\ slice_wf f /\ elems f = x /\ frame_unread c' b' rest /\ maxMessageSize c' = maxMessageSize c.
Proof.
  intros (Hu & Hr & Hm) (w & Hok & Hp & ->). pose proof (Decode_parse c b _ Hu Hm) as Hd.
  rewrite (parse_wire _ w rest Hok Hp) in Hd.
  destruct Hd as (c' & b' & f & Ed & Hwf & Ef & Hu' & Hmx & Hc). exists c', b', f.
  rewrite ztake_app_le, ztake_all in Ef by lia.
  rewrite zdrop_app_ge, zdrop_neg in Hu' by lia.
  split_and!; try done. unfold frame_unread. by rewrite Hmx, Hc.
Qed.

Lemma frame_decode_more c b U y :
  frame_unread c b U -> frame_encoding c (U ++ y) -> y <> [] ->
  exists c' b', Decode c b = Ret (c', b', (None, Some ErrNeedMore))
    /\ frame_unread c' b' U /\ 0 < Reserved b' /\ maxMessageSize c' = maxMessageSize c.
Proof.
  intros (Hu & Hr & Hm) (w & Hok & Hp & E) Hy. pose proof (Decode_parse c b _ Hu Hm) as Hd.
  destruct (parse_prefix _ w U y Hok Hp (eq_sym E) Hy) as (k & Ek & Hk & _). rewrite Ek in Hd.
  destruct Hd as (c' & b' & Ed & Hu' & Hmx & _ & Hres & Hres' & Hc). exists c', b'.
  unfold frame_unread, frameMaxHeaderLength in *. rewrite Hmx. split_and!; done || lia.
Qed.

#[export] Instance frame_lawful : LawfulDecoder FrameCodec Frame Frame.
Proof.
  refine {| unread_of := frame_unread; encoding := frame_encoding;
            denotes := fun f x => slice_wf f /\ elems f = x;
            same_codec := fun c c' => maxMessageSize c' = maxMessageSize c |}.
  - by intros c1 c2 c3 -> ->.
  - intros c c' x E. unfold frame_encoding. by rewrite E.
  - intros c b U ((S & R & W & F & o & -> & _) & _). by eexists _, _, _, _, _.
  - apply frame_unread_more.
  - intros c b x rest Hu Hx.
    destruct (frame_decode_item c b x rest Hu Hx) as (c' & b' & f & E & Hwf & Ef & Hu' & Hm).
    by exists c', b', f.
  - intros c b U y Hu Hx Hy.
    destruct (frame_decode_more c b U y Hu Hx Hy) as (c' & b' & E & Hu' & Hr & Hm).
    by exists c', b'.
Defined.
End instance.

(** * Many items *)

Section many.
Context {C Enc Dec T : Type} `{Codec C Enc Dec} `{Reader T} `{Writer T}.

(** A client that calls [ReadNext] [n] times. *)
Fixpoint read_many (n fuel : nat) (conn : CodecConn C T) :
    res (CodecConn C T * list (option Dec * option error)) :=
  match n with
  | O => Ret (conn, [])
  | S n' =>
      '(conn, r) ← ReadNext fuel conn;
      '(conn, rs) ← read_many n' fuel conn;
      Ret (conn, r :: rs)
  end.

(** A client that calls [WriteNext] on each item, up to the first error. *)
Fixpoint write_many (fuel : nat) (conn : CodecConn C T) (items : list Enc) :
    res (CodecConn C T * option error) :=
  match items with
  | [] => Ret (conn, None)
  | i :: items =>
      '(conn, (_, err)) ← WriteNext fuel conn i;
      match err with Some e => Ret (conn, Some e) | None => write_many fuel conn items end
  end.
End many.

Section read_many.
Context {C Enc Dec T : Type} `{LawfulDecoder C Enc Dec} `{ReaderStream T}.

Lemma read_many_stream fuel (xs : list (list byte)) : forall (conn : CodecConn C T) rest,
  conn_holds conn (concat xs ++ rest) -> Forall (encoding (codec conn)) xs ->
  (length (pend (stream conn)) < fuel)%nat ->
  exists conn' ds, read_many (length xs) fuel conn = Ret (conn', (fun d => (Some d, None)) <$> ds)
    /\ Forall2 denotes ds xs /\ conn_holds conn' rest.
Proof.
  induction xs as [|x xs IH]; intros conn rest Hh Hxs Hf.
  { exists conn, []. split_and!; [done|constructor|done]. }
  apply list.Forall_cons in Hxs as [Hx Hxs]. simpl in Hh. rewrite <-app_assoc in Hh.
  destruct (ReadNext_stream fuel conn x (concat xs ++ rest) Hh Hx Hf)
    as (conn1 & d & E & Hd & Hh1 & _ & Hc & Hl).
  destruct (IH conn1 rest Hh1) as (conn2 & ds & E2 & Hds & Hh2).
  - eapply list.Forall_impl; [exact Hxs|]. intros y. by apply same_codec_encoding.
  - lia.
  - exists conn2, (d :: ds). cbn [read_many length]. rewrite E. res_step. rewrite E2. res_step.
    split_and!; [done|by constructor|done].
Qed.
End read_many.

(** * Writing frames *)

Section write_frames.
Context {T : Type} `{GoRuntime} `{WriterLaws T} `{!WriterLog T}.
Implicit Types (conn : CodecConn FrameCodec T).

Definition sendable (f : Frame) (w : wire) : Prop :=
  frame_is f w /\ wire_ok w /\ zlen (w_payload w) <= 2 ^ 47.

(** Nothing of an earlier item is left in the buffer of the connection. *)
Definition flushed conn : Prop :=
  exists S F o, dst conn = bb S [] [] F o /\ bounded S [] [] F.

(** [WriteNext] with [R] left over from an earlier item that could not be sent. *)
Lemma WriteNext_leftover conn f w fuel S R F o :
  dst conn = bb S R [] F o -> bounded S R [] F -> zlen S + zlen R <= 2 ^ 59 -> sendable f w ->
  zlen (R ++ wire_bytes w) <= Z.of_nat fuel ->
  exists t k e x F', WriteNext fuel conn f
      = Ret (mkCodecConn t (codec conn) (src conn) (bb S (zdrop k (R ++ wire_bytes w)) [] F' o), (k, e))
    /\ bounded S (zdrop k (R ++ wire_bytes w)) [] F'
    /\ wlog t = wlog (stream conn) ++ ztake k (R ++ wire_bytes w) ++ x
    /\ x `prefix_of` zdrop k (R ++ wire_bytes w) /\ 0 <= k <= zlen (R ++ wire_bytes w)
    /\ (e = None -> k = zlen (R ++ wire_bytes w) /\ x = []).
Proof.
  intros Hd Hb HR (Hf & Hok & Hn) Hfuel. unfold WriteNext. simpl codec_encode. rewrite Hd.
  destruct (Encode_bb f w S R F o Hf Hok Hn Hb HR) as (F1 & -> & Hb1).
  res_step. cbn [dst stream codec src] in *. set (B := R ++ wire_bytes w) in *.
  destruct (WriteTo_bb S B [] F1 o fuel (stream conn) Hfuel)
    as (t & k & e & x & F2 & -> & Hk & He & Hlog & Hx & HF2).
  res_step. exists t, k, e, x, F2. split_and!; try done; [|lia..].
  destruct Hb1 as [_ Hb1]. unfold bounded in *. change (zlen []) with 0 in *. llia.
Qed.

Lemma WriteNext_frame conn f w fuel :
  flushed conn -> sendable f w -> zlen (wire_bytes w) <= Z.of_nat fuel ->
  exists conn' n e x, WriteNext fuel conn f = Ret (conn', (n, e))
    /\ codec conn' = codec conn /\ src conn' = src conn
    /\ wlog (stream conn') = wlog (stream conn) ++ x /\ x `prefix_of` wire_bytes w
    /\ (e = None -> n = zlen (wire_bytes w) /\ x = wire_bytes w /\ flushed conn').
Proof.
  intros (S & F & o & Hd & Hb) Hs Hfuel. pose proof Hb as [Hs' _].
  destruct (WriteNext_leftover conn f w fuel S [] F o Hd Hb) as (t & k & e & x & F' & E & Hb' & Hlog & Hx & Hk & He);
    [simpl; lia|done|done|].
  change ([] ++ wire_bytes w) with (wire_bytes w) in *.
  eexists _, k, e, (ztake k (wire_bytes w) ++ x). split; [exact E|]. do 3 (split; [done|]). split.
  - destruct Hx as [y Hy]. exists y. by rewrite <-app_assoc, <-Hy, take_drop.
  - intros Ee. destruct (He Ee) as [-> ->]. rewrite app_nil_r. rewrite ztake_all by lia.
    split_and!; [done|done|]. exists S, F', o. cbn [dst]. rewrite zdrop_all in * by lia. done.
Qed.

Lemma write_many_frames fuel fs ws : forall conn,
  flushed conn -> Forall2 sendable fs ws ->
  Forall (fun w => zlen (wire_bytes w) <= Z.of_nat fuel) ws ->
  exists conn' e x, write_many fuel conn fs = Ret (conn', e)
    /\ wlog (stream conn') = wlog (stream conn) ++ x
    /\ x `prefix_of` concat (wire_bytes <$> ws)
    /\ (e = None -> x = concat (wire_bytes <$> ws)).
Proof.
  intros conn Hfl Hfs. revert conn Hfl. induction Hfs as [|f w fs ws Hf Hfs IH]; intros conn Hfl Hw.
  { exists conn, None, []. rewrite app_nil_r. by split_and!. }
  apply list.Forall_cons in Hw as [Hw1 Hw].
  destruct (WriteNext_frame conn f w fuel Hfl Hf Hw1) as (c1 & n & e & x & E & _ & _ & Hl & Hx & He).
  cbn [write_many]. rewrite E. res_step. destruct e as [e|].
  { exists c1, (Some e), x. split_and!; [done|done| |done].
    rewrite fmap_cons. cbn [concat]. by apply prefix_app_r. }
  destruct (He eq_refl) as (_ & -> & Hfl1).
  destruct (IH c1 Hfl1 Hw) as (c2 & e2 & x2 & -> & Hl2 & Hx2 & He2).
  exists c2, e2, (wire_bytes w ++ x2). split; [done|]. split; [by rewrite Hl2, Hl, <-app_assoc|].
  split; [by apply prefix_app|]. intros E2. by rewrite (He2 E2).
Qed.
End write_frames.

(** What was sent, as encodings the receiver accepts and frames it recovers. *)
Lemma sent_encodings (c : FrameCodec) fs ws :
  Forall2 sendable fs ws -> Forall (fun w => zlen (w_payload w) <= maxMessageSize c) ws ->
  Forall (frame_encoding c) (wire_bytes <$> ws).
Proof.
  induction 1 as [|f w fs ws (Hf & Hok & Hn) Hfs IH]; intros Hws; [constructor|].
  apply list.Forall_cons in Hws as [Hw Hws]. constructor; [by exists w|by apply IH].
Qed.

Lemma recovered_frames fs ws gs :
  Forall2 sendable fs ws ->
  Forall2 (fun f x => slice_wf f /\ elems f = x) gs (wire_bytes <$> ws) ->
  elems <$> gs = elems <$> fs.
Proof.
  intros Hfs. revert gs. induction Hfs as [|f w fs ws ([_ Ef] & _) Hfs IH]; intros gs Hgs.
  - by apply Forall2_nil_inv_r in Hgs as ->.
  - rewrite fmap_cons in Hgs. apply Forall2_cons_inv_r in Hgs as (g & gs' & [_ Eg] & Hgs & ->).
    rewrite !fmap_cons, (IH _ Hgs). congruence.
Qed.

(** * Properties *)

(** C8: Whatever way the transport cuts its bytes into reads, a connection with a lawful
    codec delivers the encoded items one by one, in order, and keeps what follows them for
    the next call; each [ReadNext] returns after at most as many reads as there are bytes
    to come. *)
Theorem conn_reads_items {C Enc Dec T : Type} `{LawfulDecoder C Enc Dec}
    `{ReaderStream T} (conn : CodecConn C T) (xs : list (list byte)) (rest : list byte) fuel :
  conn_holds conn (concat xs ++ rest) -> Forall (encoding (codec conn)) xs ->
  (length (pend (stream conn)) < fuel)%nat ->
  exists conn' ds, read_many (length xs) fuel conn = Ret (conn', (fun d => (Some d, None)) <$> ds)
    /\ Forall2 denotes ds xs /\ conn_holds conn' rest.
Proof. apply read_many_stream. Qed.

(** [AsyncReadNext], resumed by an event loop that completes each pending read with
    one [Read] of the transport, calls back with the item and error [ReadNext] returns and
    leaves the same connection. *)
Theorem async_read_agrees {C Enc Dec T : Type} `{Codec C Enc Dec} `{Reader T}
    (conn : CodecConn C T) (fuel : nat) :
  ReadNext fuel conn <> NoFuel ->
  ReadNext fuel conn
  = ('(conn, r) ← AsyncReadNext conn;
     '(conn, r) ← complete_reads fuel conn r;
     Ret (conn, sync_result r)).
Proof. apply AsyncReadNext_sync. Qed.

(** C5: Frames written through one connection and read through another: the bytes that
    reach the transport are always a prefix of the encodings in order; when every
    [WriteNext] succeeds, a reader of those bytes, cut up in any way, gets frames with
    exactly the bytes of the frames sent. *)
Theorem frames_end_to_end {T1 T2 : Type} `{GoRuntime} `{WriterLaws T1} `{!WriterLog T1}
    `{ReaderStream T2} (tx : CodecConn FrameCodec T1) (rx : CodecConn FrameCodec T2)
    (fs : list Frame) (ws : list wire) (fuel : nat) :
  flushed tx -> wlog (stream tx) = [] -> Forall2 sendable fs ws ->
  Forall (fun w => zlen (wire_bytes w) <= Z.of_nat fuel
    /\ zlen (w_payload w) <= maxMessageSize (codec rx)) ws ->
  frame_unread (codec rx) (src rx) [] ->
  exists tx' e, write_many fuel tx fs = Ret (tx', e)
    /\ wlog (stream tx') `prefix_of` concat (wire_bytes <$> ws)
    /\ (e = None -> pend (stream rx) = wlog (stream tx') ->
        exists rx' gs, read_many (length fs) (S (length (pend (stream rx)))) rx
            = Ret (rx', (fun f => (Some f, None)) <$> gs)
          /\ elems <$> gs = elems <$> fs /\ conn_holds rx' []).
Proof.
  intros Hfl Hlog Hfs Hws Hu.
  destruct (write_many_frames fuel fs ws tx Hfl Hfs) as (tx' & e & x & E & Hl & Hx & He).
  { eapply list.Forall_impl; [exact Hws|]. by intros ? [? _]. }
  exists tx', e. rewrite Hlog in Hl. simpl in Hl. rewrite Hl. split_and!; [done..|].
  intros -> Hp. rewrite (He eq_refl) in Hp.
  destruct (read_many_stream (S (length (pend (stream rx)))) (wire_bytes <$> ws) rx [])
    as (rx' & gs & Er & Hgs & Hh).
  - exists []. by rewrite app_nil_r.
  - apply (sent_encodings _ fs ws Hfs). eapply list.Forall_impl; [exact Hws|]. by intros ? [_ ?].
  - lia.
  - rewrite length_fmap in Er. rewrite (Forall2_length Hfs). exists rx', gs.
    split_and!; [done| |done]. by apply (recovered_frames fs ws).
Qed.

(** The eight-byte length field is read as an [int].  A peer that sets its top bit
    makes it negative, which is below every maximum: [Decode] then panics, or, when the
    length is between -10 and -1, returns a frame shorter than its own header, whose
    [Payload] panics. *)
Theorem negative_length_panics `{GoRuntime} (c : FrameCodec) (b : ByteBuffer) (field rest : list byte) :
  length field = 8%nat -> 2 ^ 63 + 2 ^ 62 <= be_decode field -> 0 <= maxMessageSize c <= max_alloc ->
  unread c b (Byte.x82 :: Byte.x7f :: field ++ rest) ->
  (be_decode field < 2 ^ 64 - 10 -> Decode c b = Panic)
  /\ (2 ^ 64 - 10 <= be_decode field ->
      exists c' b' f, Decode c b = Ret (c', b', (Some f, None)) /\ Payload f = Panic).
Proof.
  intros Hl Hn Hm Hu. pose proof (Decode_parse c b _ Hu Hm) as Hd.
  rewrite parse_negative in Hd by (done || lia). split; intros Hc.
  - by rewrite decide_True in Hd by done.
  - rewrite decide_False in Hd by lia. destruct Hd as (c' & b' & f & Ed & Hwf & Ef & _).
    exists c', b', f. split; [done|]. pose proof (be_decode_bound field) as Hb.
    rewrite Hl in Hb. change (256 ^ Z.of_nat 8) with (2 ^ 64) in Hb.
    assert (slen f = be_decode field - 2 ^ 64 + 10) as Hs.
    { rewrite <-(zlen_elems f Hwf), Ef. rewrite length_take. cbn [length].
      rewrite length_app. lia. }
    eapply Payload_truncated; [done|done|by rewrite Hs|lia].
Qed.

(** * Witnesses *)

#[local] Existing Instance doubling_runtime.

Definition hi_wire : wire := Wire Byte.x81 None [Byte.x68; Byte.x69].
Definition hi_frame : Frame := Slice (wire_bytes hi_wire) 4.
Definition room : ByteBuffer := bb [] [] [] (repeat Byte.x00 16) Byte.x00.
Definition rx_conn (cs : list (list byte)) : CodecConn FrameCodec ChunkReader :=
  mkCodecConn (mkChunks cs) (NewFrameCodec 64) room room.
Definition tx_conn : CodecConn FrameCodec SinkWriter :=
  mkCodecConn (mkSink 3 9 []) (NewFrameCodec 64) room room.
Definition two_frames : list (list byte) :=
  [[Byte.x81]; [Byte.x02; Byte.x68; Byte.x69; Byte.x81; Byte.x02]; [Byte.x68; Byte.x69]].

Lemma hi_ok : wire_ok hi_wire.
Proof. split; [done|]. simpl. lia. Qed.

Lemma hi_sendable : sendable hi_frame hi_wire.
Proof. split_and!; [split; [done|reflexivity]|apply hi_ok|simpl; lia]. Qed.

Lemma room_unread : frame_unread (NewFrameCodec 64) room [].
Proof.
  split_and!; [|done..]. exists [], [], [], (repeat Byte.x00 16), Byte.x00.
  split_and!; done.
Qed.

Lemma conn_reads_items_witness :
  exists conn' ds, read_many 2 9 (rx_conn two_frames) = Ret (conn', (fun d => (Some d, None)) <$> ds)
    /\ Forall2 (denotes (LawfulDecoder := frame_lawful)) ds
         [wire_bytes hi_wire; wire_bytes hi_wire]
    /\ conn_holds conn' [].
Proof.
  apply (conn_reads_items
    (rx_conn two_frames) [wire_bytes hi_wire; wire_bytes hi_wire] [] 9).
  - exists []. split; [apply room_unread|done].
  - repeat constructor; exists hi_wire; split_and!; done || apply hi_ok.
  - simpl. lia.
Defined.

Lemma async_read_agrees_witness :
  ReadNext 9 (rx_conn two_frames)
  = ('(conn, r) ← AsyncReadNext (rx_conn two_frames);
     '(conn, r) ← complete_reads 9 conn r;
     Ret (conn, sync_result r)).
Proof.
  apply (async_read_agrees (rx_conn two_frames) 9).
  vm_compute. congruence.
Defined.

Lemma frames_end_to_end_witness :
  exists tx' e, write_many 9 tx_conn [hi_frame; hi_frame]
      = Ret (tx', e)
    /\ wlog (stream tx') `prefix_of` concat (wire_bytes <$> [hi_wire; hi_wire])
    /\ (e = None -> pend (stream (rx_conn two_frames)) = wlog (stream tx') ->
        exists rx' gs, read_many 2
            (S (length (pend (stream (rx_conn two_frames))))) (rx_conn two_frames)
            = Ret (rx', (fun f => (Some f, None)) <$> gs)
          /\ elems <$> gs = elems <$> [hi_frame; hi_frame]
          /\ conn_holds rx' []).
Proof.
  apply (frames_end_to_end tx_conn (rx_conn two_frames)
    [hi_frame; hi_frame] [hi_wire; hi_wire] 9).
  - exists [], (repeat Byte.x00 16), Byte.x00. done.
  - done.
  - repeat constructor; apply hi_sendable.
  - repeat constructor; simpl; lia.
  - apply room_unread.
Defined.

Lemma negative_length_panics_witness :
  Decode (NewFrameCodec 64)
    (bb [] (Byte.x82 :: Byte.x7f :: repeat Byte.xff 7 ++ [Byte.x80]) [] [] Byte.x00) = Panic.
Proof.
  apply (negative_length_panics (NewFrameCodec 64) _
    (repeat Byte.xff 7 ++ [Byte.x80]) []); [done|vm_compute; done|vm_compute; done| |vm_compute; done].
  exists [], (Byte.x82 :: Byte.x7f :: repeat Byte.xff 7 ++ [Byte.x80]), [], [], Byte.x00.
  split_and!; done.
Defined.
