(* ===== verification/WebsocketStream.v ===== *)
(** The WebSocket stream of [src/codec/websocket/stream.go] and [definitions.go], in its
    blocking form: state, frame pool, pending frames, the reading side (verification,
    control frames, reassembly of messages) and the writing side. *)

From Stdlib Require Import Strings.String.
From stdpp Require Import sets.
From S2P Require Import Prelude GoSlice GoIO ByteBuffer Codec Utf8 WebsocketFrame WebsocketWire WebsocketCodec CodecRoundTrip.

(** * src/codec/websocket/definitions.go *)

Definition DefaultMaxMessageSize : Z := 1024 * 512.

Inductive Role : Type := RoleClient | RoleServer.

#[export] Instance role_eq_dec : EqDecision Role.
Proof. solve_decision. Defined.

Definition Role_String (r : Role) : string :=
  match r with RoleClient => "role_client" | RoleServer => "role_client" end.

(** [MessageType] is a byte, as [Opcode]. *)
Definition TypeText : Z := OpcodeText.
Definition TypeBinary : Z := OpcodeBinary.
Definition TypeClose : Z := OpcodeClose.
Definition TypePing : Z := OpcodePing.
Definition TypePong : Z := OpcodePong.
Definition TypeNone : Z := 255.

Definition MessageType_String (t : Z) : string :=
  if decide (t = TypeText) then "type_text"
  else if decide (t = TypeBinary) then "type_binary"
  else if decide (t = TypeClose) then "type_close"
  else if decide (t = TypePing) then "type_ping"
  else if decide (t = TypePong) then "type_pong"
  else "type_unknown".

Definition Opcode_String (c : Z) : string :=
  if decide (c = OpcodeContinuation) then "continuation"
  else if decide (c = OpcodeText) then "text"
  else if decide (c = OpcodeBinary) then "binary"
  else if decide (c = OpcodeClose) then "close"
  else if decide (c = OpcodePing) then "ping"
  else if decide (c = OpcodePong) then "pong"
  else "unknown".

Inductive StreamState : Type :=
| StateHandshake | StateActive | StateClosedByUs | StateClosedByPeer | StateCloseAcked
| StateTerminated.

#[export] Instance stream_state_eq_dec : EqDecision StreamState.
Proof. solve_decision. Defined.

Definition StreamState_String (s : StreamState) : string :=
  match s with
  | StateHandshake => "state_handshake"
  | StateActive => "state_active"
  | StateClosedByUs => "state_closed_by_us"
  | StateClosedByPeer => "state_closed_by_peer"
  | StateCloseAcked => "state_closed_acked"
  | StateTerminated => "state_terminated"
  end.

(** * The frame pool *)

(** [sync.Pool] with [New: NewFrame]: "Get selects an arbitrary item from the Pool,
    removes it from the Pool, and returns it [...] If Get would otherwise return nil and
    p.New is non-nil, Get returns the result of calling p.New"; items may vanish at any
    time. *)
Class FramePool (P : Type) := {
  pool_get : P -> P * Frame;
  pool_put : P -> Frame -> P;
  pooled : P -> Frame -> Prop;
  pool_get_ok : forall p p' f, pool_get p = (p', f) ->
    (f = NewFrame \/ pooled p f) /\ (forall g, pooled p' g -> pooled p g);
  pool_put_ok : forall p f g, pooled (pool_put p f) g -> g = f \/ pooled p g
}.

(** A pool that hands out what was put in last. *)
#[export] Instance list_pool : FramePool (list Frame).
Proof.
  refine {| pool_get := fun p => match p with [] => ([], NewFrame) | f :: p => (p, f) end;
            pool_put := fun p f => f :: p; pooled := fun p f => f ∈ p |}.
  - intros [|g p] p' f [= <- <-]; (split; [|set_solver]); [by left|right; set_solver].
  - intros p f g. rewrite elem_of_cons. done.
Defined.

(** * State *)

(** [codecConn] is nil before [init]; with it the codec and the transport, while the
    buffers [src] and [dst] are those of the stream.  [s.stream] and [s.conn], which only
    the handshake and the accessors of addresses use, are left out.  [controlCallback]
    says whether one is set, [controlCalls] are the calls made to it (it must not use the
    stream).  [drawn] counts the keys drawn from [crypto/rand]. *)
Record Stream (P T : Type) : Type := mkStream {
  codecConn : option (FrameCodec * T);
  role : Role;
  state : StreamState;
  src : ByteBuffer;
  dst : ByteBuffer;
  handshakeBuffer : slice byte;
  pendingFrames : list Frame;
  framePool : P;
  maxMessageSize : Z;
  validateUTF8 : bool;
  controlCallback : bool;
  controlCalls : list (Z * list byte);
  drawn : nat
}.
Arguments mkStream {P T}.
Arguments codecConn {P T}.
Arguments role {P T}.
Arguments state {P T}.
Arguments src {P T}.
Arguments dst {P T}.
Arguments handshakeBuffer {P T}.
Arguments pendingFrames {P T}.
Arguments framePool {P T}.
Arguments maxMessageSize {P T}.
Arguments validateUTF8 {P T}.
Arguments controlCallback {P T}.
Arguments controlCalls {P T}.
Arguments drawn {P T}.

Section updates.
Context {P T : Type}.
Implicit Types (s : Stream P T).

Definition set_state s (x : StreamState) : Stream P T :=
  mkStream (codecConn s) (role s) x (src s) (dst s) (handshakeBuffer s) (pendingFrames s)
    (framePool s) (maxMessageSize s) (validateUTF8 s) (controlCallback s) (controlCalls s) (drawn s).

Definition set_pending s (x : list Frame) : Stream P T :=
  mkStream (codecConn s) (role s) (state s) (src s) (dst s) (handshakeBuffer s) x
    (framePool s) (maxMessageSize s) (validateUTF8 s) (controlCallback s) (controlCalls s) (drawn s).

Definition set_pool s (x : P) : Stream P T :=
  mkStream (codecConn s) (role s) (state s) (src s) (dst s) (handshakeBuffer s) (pendingFrames s)
    x (maxMessageSize s) (validateUTF8 s) (controlCallback s) (controlCalls s) (drawn s).

Definition set_drawn s (x : nat) : Stream P T :=
  mkStream (codecConn s) (role s) (state s) (src s) (dst s) (handshakeBuffer s) (pendingFrames s)
    (framePool s) (maxMessageSize s) (validateUTF8 s) (controlCallback s) (controlCalls s) x.

(** The state after a call on the connection, which shares the buffers. *)
Definition set_conn s (conn : CodecConn FrameCodec T) : Stream P T :=
  mkStream (Some (Codec.codec conn, Codec.stream conn)) (role s) (state s) (Codec.src conn)
    (Codec.dst conn) (handshakeBuffer s) (pendingFrames s) (framePool s) (maxMessageSize s)
    (validateUTF8 s) (controlCallback s) (controlCalls s) (drawn s).

(** [if s.controlCallback != nil { s.controlCallback(t, payload) }]. *)
Definition call_control s (t : Z) (payload : list byte) : Stream P T :=
  mkStream (codecConn s) (role s) (state s) (src s) (dst s) (handshakeBuffer s) (pendingFrames s)
    (framePool s) (maxMessageSize s) (validateUTF8 s) (controlCallback s)
    (if controlCallback s then controlCalls s ++ [(t, payload)] else controlCalls s) (drawn s).
End updates.

(** * Operations *)

(** [genMask n] are the bytes of the [n]-th key drawn; [fuel] bounds each loop that waits
    for the transport. *)
Section stream_ops.
Context {P T : Type} `{GoRuntime} `{FramePool P} `{Reader T} `{Writer T}.
Context (genMask : nat -> list byte) (fuel : nat).
Implicit Types (s : Stream P T) (f : Frame).

Definition NewWebsocketStream (pool : P) (role : Role) : res (Stream P T * option error) :=
  src ← Reserve NewByteBuffer 4096;
  dst ← Reserve NewByteBuffer 4096;
  Ret (mkStream None role StateHandshake src dst (Slice (replicate 1024 Byte.x00) 1024) [] pool
         DefaultMaxMessageSize false false [] 0%nat, None).

Definition AcquireFrame s : res (Stream P T * Frame) :=
  let '(p, f) := pool_get (framePool s) in
  f ← (if decide (role s = RoleClient) then SetIsMasked f else Ret f);
  Ret (set_pool s p, f).

Definition releaseFrame s f : res (Stream P T) :=
  f ← Frame_Reset f;
  Ret (set_pool s (pool_put (framePool s) f)).

(** The error is [fmt.Errorf("stream must be in StateActive")]. *)
Definition Stream_init s (stream : T) : Stream P T * option error :=
  if decide (state s <> StateActive) then (s, Some (ErrOther 0))
  else
    (mkStream (Some (NewFrameCodec (maxMessageSize s), stream)) (role s) (state s) (src s) (dst s)
       (handshakeBuffer s) (pendingFrames s) (framePool s) (maxMessageSize s) (validateUTF8 s)
       (controlCallback s) (controlCalls s) (drawn s), None).

Definition Stream_reset s : res (Stream P T) :=
  h ← reslice (handshakeBuffer s) 0 (scap (handshakeBuffer s));
  src' ← ByteBuffer.Reset (src s);
  dst' ← ByteBuffer.Reset (dst s);
  Ret (mkStream (codecConn s) (role s) StateHandshake src' dst' h (pendingFrames s) (framePool s)
         (maxMessageSize s) (validateUTF8 s) (controlCallback s) (controlCalls s) (drawn s)).

Definition Stream_NextLayer s : option T := snd <$> codecConn s.

Definition ValidatesUTF8 s : bool := validateUTF8 s.

Definition ValidateUTF8 s (v : bool) : Stream P T :=
  mkStream (codecConn s) (role s) (state s) (src s) (dst s) (handshakeBuffer s) (pendingFrames s)
    (framePool s) (maxMessageSize s) v (controlCallback s) (controlCalls s) (drawn s).

Definition canRead s : bool :=
  bool_decide (state s = StateActive) || bool_decide (state s = StateClosedByUs).

Definition Pending s : Z := zlen (pendingFrames s).

(** A call on [s.codecConn]: a nil pointer dereference before [init]. *)
Definition with_codecConn {A} s
    (call : CodecConn FrameCodec T -> res (CodecConn FrameCodec T * A)) : res (Stream P T * A) :=
  match codecConn s with
  | None => Panic
  | Some (c, t) =>
      '(conn, r) ← call (mkCodecConn t c (src s) (dst s));
      Ret (set_conn s conn, r)
  end.

(** ** Writing *)

Definition prepareWrite s f : res (Stream P T) :=
  if decide (role s = RoleClient) then
    f ← MaskPayload f (genMask (drawn s));
    Ret (set_pending (set_drawn s (Datatypes.S (drawn s))) (pendingFrames s ++ [f]))
  else Ret (set_pending s (pendingFrames s ++ [f])).

(** [s.AcquireFrame().SetFIN().SetOpcode(op).SetPayload(payload)] and [prepareWrite]. *)
Definition queueFrame s (op : Z) (payload : list byte) : res (Stream P T) :=
  '(s, f) ← AcquireFrame s;
  f ← SetFIN f;
  f ← SetOpcode f op;
  f ← SetPayload f payload;
  prepareWrite s f.

Definition prepareClose s (payload : list byte) : res (Stream P T) := queueFrame s OpcodeClose payload.

(** The loop over the pending frames, with what is left of them. *)
Fixpoint Flush_loop s (frames : list Frame) : res (Stream P T * (list Frame * option error)) :=
  match frames with
  | [] => Ret (s, ([], None))
  | f :: rest =>
      '(s, (_, err)) ← with_codecConn s (fun conn => WriteNext fuel conn f);
      match err with
      | Some e => Ret (s, (frames, Some e))
      | None => s ← releaseFrame s f; Flush_loop s rest
      end
  end.

Definition Flush s : res (Stream P T * option error) :=
  '(s, (rest, err)) ← Flush_loop s (pendingFrames s);
  Ret (set_pending s rest, err).

Definition Stream_Write s (b : list byte) (messageType : Z) : res (Stream P T * option error) :=
  if decide (zlen b > maxMessageSize s) then Ret (s, Some ErrMessageTooBig)
  else if decide (state s = StateActive) then
    s ← queueFrame s messageType b;
    Flush s
  else Ret (s, Some ErrCancelled).

Definition WriteFrame s f : res (Stream P T * option error) :=
  if decide (state s = StateActive) then
    s ← prepareWrite s f;
    Flush s
  else
    s ← releaseFrame s f;
    Ret (s, Some ErrCancelled).

Definition Stream_Close s (cc : Z) (reason : list byte) : res (Stream P T * option error) :=
  match state s with
  | StateActive =>
      s ← prepareClose (set_state s StateClosedByUs) (EncodeCloseFramePayload cc reason);
      Flush s
  | StateClosedByUs | StateHandshake => Ret (s, Some ErrCancelled)
  | _ => Ret (s, Some EOF)
  end.

(** ** Reading *)

Definition verifyFrame s f : res (option error) :=
  r1 ← IsRSV1 f;
  r2 ← (if (r1 : bool) then Ret true else IsRSV2 f);
  r3 ← (if (r2 : bool) then Ret true else IsRSV3 f);
  if (r3 : bool) then Ret (Some ErrNonZeroReservedBits)
  else
    masked ← IsMasked f;
    if decide (role s = RoleClient /\ masked = true) then Ret (Some ErrMaskedFramesFromServer)
    else if decide (role s = RoleServer /\ masked = false)
    then Ret (Some ErrUnmaskedFramesFromClient)
    else Ret None.

(** The answer to a close frame with that payload. *)
Definition close_reply (payload : list byte) : res (list byte) :=
  if decide (2 <= zlen payload) then
    if utf8_valid (zdrop 2 payload) then
      closeCode ← DecodeCloseCode payload;
      if ValidCloseCode closeCode then Ret payload else Ret (EncodeCloseCode CloseProtocolError)
    else Ret (EncodeCloseCode CloseProtocolError)
  else if decide (0 < zlen payload) then Ret (EncodeCloseCode CloseProtocolError)
  else Ret (EncodeCloseCode CloseNormal).

Definition handleControlFrame s f : res (Stream P T * option error) :=
  fin ← IsFIN f;
  if negb fin then Ret (s, Some ErrInvalidControlFrame)
  else
    n ← PayloadLength f;
    if decide (n > MaxControlFramePayloadLength) then Ret (s, Some ErrControlFrameTooBig)
    else
      op ← Frame_Opcode f;
      if decide (op = OpcodePing) then
        if decide (state s = StateActive) then
          payload ← Payload f;
          s ← queueFrame s OpcodePong (elems payload);
          Ret (s, None)
        else Ret (s, None)
      else if decide (op = OpcodePong) then Ret (s, None)
      else if decide (op = OpcodeClose) then
        match state s with
        | StateHandshake => Panic
        | StateActive =>
            payload ← Payload f;
            reply ← close_reply (elems payload);
            s ← prepareClose (set_state s StateClosedByPeer) reply;
            Ret (s, None)
        | StateClosedByPeer | StateCloseAcked => Ret (s, None)
        | StateClosedByUs => Ret (set_state s StateCloseAcked, None)
        | StateTerminated => Panic
        end
      else Ret (s, Some ErrInvalidControlFrame).

Definition handleDataFrame s f : res (option error) :=
  op ← Frame_Opcode f;
  if IsReserved op then Ret (Some ErrReservedOpcode)
  else if IsText op && validateUTF8 s then
    payload ← Payload f;
    Ret (if utf8_valid (elems payload) then None else Some ErrInvalidUTF8)
  else Ret None.

Definition handleFrame s f : res (Stream P T * option error) :=
  err ← verifyFrame s f;
  '(s, err) ← (match err with
               | Some e => Ret (s, Some e)
               | None =>
                   op ← Frame_Opcode f;
                   if IsControl op then handleControlFrame s f
                   else err ← handleDataFrame s f; Ret (s, err)
               end);
  match err with
  | Some e =>
      s ← prepareClose (set_state s StateClosedByUs) (EncodeCloseFramePayload CloseProtocolError []);
      Ret (s, Some e)
  | None => Ret (s, None)
  end.

(** The 1006 close frame handed to the caller on an abnormal closure. *)
Definition abnormalClose : res Frame :=
  f ← SetFIN NewFrame;
  f ← SetClose f;
  SetPayload f (EncodeCloseFramePayload CloseAbnormal []).

Definition nextFrame s : res (Stream P T * (option Frame * option error)) :=
  '(s, (f, err)) ← with_codecConn s (fun conn => ReadNext fuel conn);
  '(s, f) ← (if decide (state s <> StateTerminated /\ err = Some EOF) then
               f ← abnormalClose; Ret (set_state s StateTerminated, Some f)
             else Ret (s, f));
  match err, f with
  | None, Some fr => '(s, err) ← handleFrame s fr; Ret (s, (f, err))
  | None, None => Panic
  | Some e, _ => Ret (s, (f, Some e))
  end.

Definition too_big : list byte := list_byte_of_string "payload too big".

Definition NextFrame s : res (Stream P T * (option Frame * option error)) :=
  '(s, err) ← Flush s;
  if decide (err = Some ErrMessageTooBig) then
    '(s, _) ← Stream_Close s CloseGoingAway too_big;
    Ret (s, (None, err))
  else
    match err with
    | Some e => Ret (s, (None, Some e))
    | None =>
        if canRead s then
          '(s, (f, err)) ← nextFrame s;
          Ret (if decide (err = Some EOF) then set_state s StateTerminated else s, (f, err))
        else Ret (s, (None, Some EOF))
    end.

(** The loop of [NextMessage]: [b] is the caller's buffer; [rounds] bounds the frames of
    the message. *)
Fixpoint NextMessage_loop (rounds : nat) s (b : list byte) (readBytes : Z)
    (continuation : bool) (messageType : Z) :
    res (Stream P T * list byte * (Z * Z * option error)) :=
  match rounds with
  | O => NoFuel
  | Datatypes.S rounds' =>
      '(s, (f, err)) ← NextFrame s;
      match err, f with
      | Some e, _ => Ret (s, b, (messageType, readBytes, Some e))
      | None, None => Panic
      | None, Some f =>
          op ← Frame_Opcode f;
          if IsControl op then
            payload ← Payload f;
            NextMessage_loop rounds' (call_control s op (elems payload)) b readBytes continuation
              messageType
          else
            let messageType := if decide (messageType = TypeNone) then op else messageType in
            payload ← Payload f;
            let n := Z.min (zlen b - readBytes) (slen payload) in
            let b := write_at readBytes (ztake n (elems payload)) b in
            let readBytes := readBytes + n in
            len ← PayloadLength f;
            if decide (readBytes > maxMessageSize s \/ n <> len) then
              '(s, _) ← Stream_Close s CloseGoingAway too_big;
              Ret (s, b, (messageType, readBytes, Some ErrMessageTooBig))
            else
              fin ← IsFIN f;
              let err :=
                if continuation then
                  if IsContinuation op then None else Some ErrExpectedContinuation
                else if IsContinuation op then Some ErrUnexpectedContinuation else None in
              match err with
              | Some e => Ret (s, b, (messageType, readBytes, Some e))
              | None =>
                  if (fin : bool) then Ret (s, b, (messageType, readBytes, None))
                  else NextMessage_loop rounds' s b readBytes true messageType
              end
      end
  end.

Definition NextMessage (rounds : nat) s (b : list byte) :
    res (Stream P T * list byte * (Z * Z * option error)) :=
  NextMessage_loop rounds s b 0 false TypeNone.

Definition SetMaxMessageSize s (bytes : Z) : Stream P T :=
  mkStream
    (match codecConn s with
     | Some (c, t) => Some (mkFrameCodec bytes (decodeFrame c) (decodeReset c), t)
     | None => None
     end) (role s) (state s) (src s) (dst s) (handshakeBuffer s) (pendingFrames s) (framePool s)
    bytes (validateUTF8 s) (controlCallback s) (controlCalls s) (drawn s).

Definition SetControlCallback s (set : bool) : Stream P T :=
  mkStream (codecConn s) (role s) (state s) (src s) (dst s) (handshakeBuffer s) (pendingFrames s)
    (framePool s) (maxMessageSize s) (validateUTF8 s) set (controlCalls s) (drawn s).

(** The end of [Handshake] (in [Handshake.v]): what [handshake] delivered becomes the
    transport. *)
Definition Handshake_done s (outcome : error + T) : Stream P T * option error :=
  match outcome with
  | inr t => Stream_init (set_state s StateActive) t
  | inl e => (set_state s StateTerminated, Some e)
  end.
End stream_ops.
