(* ===== verification/WebsocketStreamSpec.v ===== *)
(** What the WebSocket stream does: the frames it queues and sends, its answers to control
    frames, the life of its state, and the messages it reassembles. *)

From stdpp Require Import sets.
From S2P Require Import Prelude GoSlice GoIO ByteBuffer Codec Utf8 WebsocketFrame WebsocketWire WebsocketCodec CodecRoundTrip WebsocketStream.

(** * Transports in both directions *)

(** Reading and writing are independent directions of a stream transport. *)
Class Duplex (T : Type) `{ReaderStream T} `{Writer T} `{!WriterLog T} : Prop := {
  read_wlog : forall (t t' : T) p r, io_read t p = Ret (t', r) -> wlog t' = wlog t;
  write_pend : forall (t t' : T) p r, io_write t p = Ret (t', r) -> pend t' = pend t
}.

Section preserved.
Context {T A : Type} (g : T -> A).

Lemma WriteTo_loop_preserved `{Writer T} fuel b (w w' : T) k r :
  (forall t t' p x, io_write t p = Ret (t', x) -> g t' = g t) ->
  WriteTo_loop fuel b w k = Ret (w', r) -> g w' = g w.
Proof.
  intros Hg. revert w k. induction fuel as [|fuel IH]; intros w k; cbn [WriteTo_loop].
  { case_decide; [done|]. by intros [= <- _]. }
  case_decide; [|by intros [= <- _]]. intros E.
  apply res_bind_inv in E as (s & _ & E). apply res_bind_inv in E as ([w1 [n e]] & Ew & E).
  pose proof (Hg _ _ _ _ Ew) as Hw. destruct e; [injection E as <- _; done|].
  rewrite (IH _ _ E). done.
Qed.

Lemma WriteNext_preserved {C Enc Dec} `{Codec C Enc Dec} `{GoRuntime} `{Writer T} fuel
    (conn conn' : CodecConn C T) x r :
  (forall t t' p x, io_write t p = Ret (t', x) -> g t' = g t) ->
  WriteNext fuel conn x = Ret (conn', r) -> g (stream conn') = g (stream conn).
Proof.
  intros Hg E. unfold WriteNext in E. apply res_bind_inv in E as ([[c b] e] & _ & E).
  destruct e; [by injection E as <- _|]. apply res_bind_inv in E as ([[b' t'] [n e]] & Ew & E).
  injection E as <- _. unfold WriteTo in Ew. cbn [stream dst] in *.
  apply res_bind_inv in Ew as ([w [k e']] & Ew & Ec). apply res_bind_inv in Ec as (b2 & _ & Ec).
  injection Ec as _ <- _ _. by apply (WriteTo_loop_preserved _ _ _ _ _ _ Hg Ew).
Qed.

Lemma ReadNext_preserved {C Enc Dec} `{Codec C Enc Dec} `{Reader T} fuel
    (conn conn' : CodecConn C T) r :
  (forall t t' p x, io_read t p = Ret (t', x) -> g t' = g t) ->
  ReadNext fuel conn = Ret (conn', r) -> g (stream conn') = g (stream conn).
Proof.
  intros Hg. revert conn. induction fuel as [|fuel IH]; intros conn; [done|]. cbn [ReadNext]. intros E.
  apply res_bind_inv in E as ([[c b] [i e]] & _ & E). destruct e as [e|]; [|by injection E as <- _].
  case_decide; [by injection E as <- _|].
  apply res_bind_inv in E as ([[b' t'] [n e']] & Er & E). cbn [src stream codec dst] in *.
  unfold ReadFrom in Er. apply res_bind_inv in Er as (sl & _ & Er).
  apply res_bind_inv in Er as ([t1 [[p k] e1]] & Eio & Er). apply res_bind_inv in Er as (b1 & _ & Er).
  injection Er as _ <- _ _. pose proof (Hg _ _ _ _ Eio) as Ht.
  destruct e'; [by injection E as <- _|]. by rewrite (IH _ E).
Qed.
End preserved.

(** A writer that takes bytes at every call and does not fail. *)
Class ReliableWriter (T : Type) `{Writer T} : Prop :=
  io_write_nil : forall (t t' : T) p n e, io_write t p = Ret (t', (n, e)) -> e = None.

Section reliable.
Context {T : Type} `{ReliableWriter T}.

Lemma WriteTo_reliable fuel b b' (w w' : T) n e :
  WriteTo fuel b w = Ret (b', w', (n, e)) -> e = None.
Proof.
  unfold WriteTo. intros E. apply res_bind_inv in E as ([w1 [k e1]] & E & Ec).
  apply res_bind_inv in Ec as (b1 & _ & Ec). injection Ec as _ _ _ <-. revert w k E.
  generalize 0 as j. induction fuel as [|fuel IH]; intros j w k; cbn [WriteTo_loop].
  { case_decide; [done|]. by intros [= _ _ <-]. }
  case_decide; [|by intros [= _ _ <-]]. intros E.
  apply res_bind_inv in E as (s & _ & E). apply res_bind_inv in E as ([w2 [m e]] & Ew & E).
  rewrite (io_write_nil _ _ _ _ _ Ew) in E. by apply IH in E.
Qed.

Lemma WriteNext_reliable `{GoRuntime} fuel (conn conn' : CodecConn FrameCodec T) f w n e :
  flushed conn -> sendable f w -> WriteNext fuel conn f = Ret (conn', (n, e)) -> e = None.
Proof.
  intros (S & F & o & Hd & Hb) (Hf & Hok & Hn). unfold WriteNext. simpl codec_encode.
  rewrite Hd. pose proof Hb as [Hs _].
  destruct (Encode_bb f w S [] F o Hf Hok Hn Hb) as (F1 & -> & _); [simpl; lia|]. res_step.
  intros E. apply res_bind_inv in E as ([[b t] [m e1]] & Ew & [= _ _ <-]).
  by apply WriteTo_reliable in Ew.
Qed.
End reliable.

(** * Frames in the pool and in the queue *)

(** What [Reset] leaves: a cleared header. *)
Definition clean_frame (f : Frame) : Prop :=
  slice_wf f /\ (exists rest, elems f = Byte.x00 :: Byte.x00 :: rest) /\ scap f <= max_alloc.

(** The encoding of what the stream sends: a client masks it with the key [k]. *)
Definition out_wire (r : Role) (k : list byte) (op : Z) (payload : list byte) : wire :=
  match r with
  | RoleClient => Wire (first_byte op) (Some k) (xor_mask k payload)
  | RoleServer => Wire (first_byte op) None payload
  end.

Definition queued (f : Frame) (w : wire) : Prop := sendable f w /\ scap f <= max_alloc.

Section frames.
Context `{GoRuntime}.

Lemma new_frame_clean : clean_frame NewFrame.
Proof. split_and!; [by vm_compute|by eexists|by vm_compute]. Qed.

Lemma Reset_clean f : slice_wf f -> 2 <= slen f -> scap f <= max_alloc ->
  exists g, Frame_Reset f = Ret g /\ clean_frame g /\ slen g = slen f.
Proof.
  intros Hwf H2 Hc. unfold Frame_Reset, copy_at. rewrite decide_True by lia. res_step.
  eexists. split; [done|]. set (n := Z.min (slen f - 0) (zlen zeroBytes)).
  assert (2 <= n <= slen f) as Hn by (subst n; unfold zeroBytes; simpl; lia).
  assert (n <= 14) as Hn' by (subst n; unfold zeroBytes; simpl; lia).
  destruct (write_at_elems f 0 (ztake n zeroBytes) Hwf) as [Wg Eg]; [lia|llia|].
  split; [|done]. split_and!; [done| |].
  - rewrite Eg. replace (ztake n zeroBytes) with (Byte.x00 :: Byte.x00 :: replicate (Z.to_nat (n - 2)) Byte.x00).
    + unfold write_at. simpl. by eexists.
    + unfold zeroBytes. rewrite take_replicate.
      by replace (Z.to_nat n `min` 14)%nat with (2 + Z.to_nat (n - 2))%nat by lia.
  - unfold scap in *. cbn [arr]. destruct Hwf as [_ Hwf]. unfold scap in Hwf.
    rewrite length_write_at by llia. done.
Qed.

Lemma queued_reset f w : queued f w ->
  exists g, Frame_Reset f = Ret g /\ clean_frame g.
Proof.
  intros ((Hf & Hok & _) & Hc). pose proof (frame_accessors f w Hf Hok) as (_ & _ & _ & _ & _ & Hl).
  rewrite (length_wire_bytes w Hok) in Hl. destruct Hf as [Hwf _].
  destruct (Reset_clean f Hwf) as (g & E & Hg & _); [destruct (w_masked w); lia|done|eauto].
Qed.

(** ** Room for the length *)

(** [setPayloadLength] stores the extended length before the slice is extended, so the frame
    must be long enough for it already. *)
Definition takes_length (f : Frame) (n : Z) : Prop :=
  (125 < n -> 4 <= slen f) /\ (65535 < n -> 10 <= slen f).

#[export] Instance takes_length_dec f n : Decision (takes_length f n).
Proof. unfold takes_length. apply _. Defined.

(** The outcome [r] of an operation that returns a frame of length [n] or panics. *)
Definition keeps_len (n : Z) (r : res Frame) : Prop :=
  match r with Ret f => slen f = n | Panic => True | NoFuel => False end.

Lemma keeps_len_bits f i g : keeps_len (slen f) (x ← index f i; update f i (g x)).
Proof.
  unfold index. case_decide; [|done]. destruct (arr f !! Z.to_nat i); [|done]. res_step.
  unfold update. by case_decide.
Qed.

Lemma or_bits_len f i m f' : or_bits f i m = Ret f' -> slen f' = slen f.
Proof.
  intros E. pose proof (keeps_len_bits f i (fun x => z2b (Z.lor (b2z x) m))
    : keeps_len (slen f) (or_bits f i m)) as K. by rewrite E in K.
Qed.

Lemma and_bits_len f i m f' : and_bits f i m = Ret f' -> slen f' = slen f.
Proof.
  intros E. pose proof (keeps_len_bits f i (fun x => z2b (Z.land (b2z x) m))
    : keeps_len (slen f) (and_bits f i m)) as K. by rewrite E in K.
Qed.

Lemma keeps_len_bind {A} n r (g : Frame -> res A) : keeps_len n r -> (forall f, slen f = n -> g f = Panic) -> (r ≫= g) = Panic.
Proof. destruct r; simpl; [auto|done|done]. Qed.

Lemma put_be_short f k n : slen f < Z.of_nat k + 2 -> put_be f k n = Panic.
Proof.
  intros Hl. unfold put_be, reslice. case_decide; [|done]. res_step. cbn [slen].
  by rewrite decide_False by lia.
Qed.

Lemma SetPayload_no_room f b : ~ takes_length f (zlen b) -> SetPayload f b = Panic.
Proof.
  intros Hn. unfold SetPayload. assert (setPayloadLength f (zlen b) = Panic) as ->; [|done].
  unfold setPayloadLength. eapply keeps_len_bind; [apply keeps_len_bits|]. intros f1 Hf1.
  change (Z.shiftl 1 16 - 1) with 65535. unfold takes_length in Hn. case_decide; [|case_decide; [|lia]].
  - eapply keeps_len_bind; [apply keeps_len_bits|]. intros f2 Hf2. apply put_be_short. lia.
  - eapply keeps_len_bind; [apply keeps_len_bits|]. intros f2 Hf2. apply put_be_short. lia.
Qed.

Lemma SetPayload_room f b f' : SetPayload f b = Ret f' -> takes_length f (zlen b).
Proof. intros E. destruct (decide (takes_length f (zlen b))) as [?|Hn]; [done|]. by rewrite SetPayload_no_room in E. Qed.

Lemma SetOpcode_len f c f' : SetOpcode f c = Ret f' -> slen f' = slen f.
Proof. intros (f1 & E1%and_bits_len & E2%or_bits_len)%res_bind_inv. lia. Qed.

(** Building a frame for either role in a clean frame that has room for the length. *)
Lemma build_frame r f op payload rnd :
  clean_frame f -> length rnd = 4%nat -> zlen payload <= 2 ^ 47 ->
  (125 < zlen payload -> 4 <= slen f) -> (65535 < zlen payload -> 10 <= slen f) ->
  exists f1 f2 f3 f' k,
    (if decide (r = RoleClient) then SetIsMasked f else Ret f) = Ret f1
    /\ SetFIN f1 = Ret f2 /\ (f ← SetOpcode f2 op; SetPayload f payload) = Ret f3
    /\ (if decide (r = RoleClient) then MaskPayload f3 rnd else Ret f3) = Ret f'
    /\ (payload <> [] -> k = rnd) /\ length k = 4%nat
    /\ queued f' (out_wire r k op payload).
Proof.
  intros (Hwf & [rest E] & Hc) Hr Hp H4 H10.
  destruct (set_header f rest op Hwf E)
    as [(g1 & E1 & W1 & El1 & L1 & C1) (g2 & E2 & W2 & El2 & L2 & C2)].
  assert (0 <= scap f) by (unfold scap; lia). unfold max_alloc in *.
  destruct r; [rewrite !decide_True by done|rewrite !decide_False by done].
  - apply res_bind_inv in E2 as (f1 & Ea & E2). apply res_bind_inv in E2 as (f2 & Eb & Ec).
    destruct (SetPayload_spec g2 _ _ _ payload W2 El2) as (f3 & mk & Es & Hf3 & Hok & Hm & Hc3);
      [rewrite C2; unfold is_int; lia|unfold max_alloc; lia|lia|lia|].
    destruct mk as [mk|]; [|done].
    destruct (MaskPayload_spec f3 _ mk payload rnd Hf3 Hok Hr) as (f4 & Em & Hf4 & Hc4).
    set (k := if decide (payload = []) then mk else rnd) in *.
    assert (length k = 4%nat) as Hk by (subst k; case_decide; [by apply Hok|done]).
    exists f1, f2, f3, f4, k. rewrite Ec. res_step. split_and!; try done.
    + subst k. by case_decide.
    + split; [|unfold max_alloc in *; lia]. split; [done|]. simpl out_wire. unfold wire_ok.
      cbn [w_mask w_payload]. rewrite length_xor_mask. split; [|lia].
      split; [by intros ? [= <-]|lia].
  - apply res_bind_inv in E1 as (f2 & Eb & Ec).
    destruct (SetPayload_spec g1 _ _ _ payload W1 El1) as (f3 & mk & Es & Hf3 & Hok & Hm & Hc3);
      [rewrite C1; unfold is_int; lia|unfold max_alloc; lia|lia|lia|].
    destruct mk as [mk|]; [done|].
    exists f, f2, f3, f3, rnd. rewrite Ec. res_step. split_and!; try done.
    split; [|unfold max_alloc in *; lia]. by split.
Qed.
End frames.

(** * The reaction to a frame *)

(** What a stream in state [st] does with a received frame: the next state, the frame it
    queues in answer (opcode and payload), and the error reported. *)
Definition reaction : Type := StreamState * option (Z * list byte) * option error.

(** A violation of the protocol: the connection is failed with status 1002. *)
Definition violation (e : error) : reaction :=
  (StateClosedByUs, Some (OpcodeClose, EncodeCloseFramePayload CloseProtocolError []), Some e).

(** The answer to the payload of a close frame: the same payload when it is empty-free,
    has a status code a peer may send and a reason in UTF-8. *)
Definition echo_close (p : list byte) : list byte :=
  if decide (p = []) then EncodeCloseCode CloseNormal
  else if decide (2 <= zlen p /\ utf8_valid (zdrop 2 p) = true
      /\ ValidCloseCode (be_decode (ztake 2 p)) = true)
  then p else EncodeCloseCode CloseProtocolError.

Definition react_control (st : StreamState) (w : wire) : reaction :=
  let op := first_opcode (w_first w) in
  if negb (first_fin (w_first w)) then violation ErrInvalidControlFrame
  else if decide (125 < zlen (w_payload w)) then violation ErrControlFrameTooBig
  else if decide (op = OpcodePing) then
    (st, if decide (st = StateActive) then Some (OpcodePong, w_payload w) else None, None)
  else if decide (op = OpcodePong) then (st, None, None)
  else match st with
       | StateActive => (StateClosedByPeer, Some (OpcodeClose, echo_close (w_payload w)), None)
       | StateClosedByUs => (StateCloseAcked, None, None)
       | _ => (st, None, None)
       end.

Definition react_data (utf8 : bool) (st : StreamState) (w : wire) : reaction :=
  let op := first_opcode (w_first w) in
  if IsReserved op then violation ErrReservedOpcode
  else if IsText op && utf8 && negb (utf8_valid (w_payload w)) then violation ErrInvalidUTF8
  else (st, None, None).

Definition react (r : Role) (utf8 : bool) (st : StreamState) (w : wire) : reaction :=
  if decide (first_rsv (w_first w) <> 0) then violation ErrNonZeroReservedBits
  else
    match r, w_masked w with
    | RoleClient, true => violation ErrMaskedFramesFromServer
    | RoleServer, false => violation ErrUnmaskedFramesFromClient
    | _, _ =>
        if IsControl (first_opcode (w_first w)) then react_control st w else react_data utf8 st w
    end.

(** The stream stays readable or was closed; only [nextFrame] itself reports [EOF]. *)
Lemma react_facts r utf8 st w :
  snd (react r utf8 st w) <> Some EOF /\ snd (react r utf8 st w) <> Some ErrMessageTooBig.
Proof.
  unfold react, react_control, react_data, violation.
  repeat case_match; simpl; split; congruence.
Qed.

Lemma rsv_bits b :
  bool_decide (Z.land (b2z b) bitRSV1 <> 0) || bool_decide (Z.land (b2z b) bitRSV2 <> 0)
  || bool_decide (Z.land (b2z b) bitRSV3 <> 0) = bool_decide (first_rsv b <> 0).
Proof. destruct b; reflexivity. Qed.

Lemma opcode_range b : 0 <= first_opcode b < 16.
Proof. apply Z.mod_pos_bound. lia. Qed.

Lemma close_reply_echo p : close_reply p = Ret (echo_close p).
Proof.
  unfold close_reply, echo_close, DecodeCloseCode. destruct (decide (p = [])) as [->|Hp]; [done|].
  assert (0 < zlen p) by (destruct p; [done|simpl; lia]).
  destruct (decide (2 <= zlen p)).
  - destruct (utf8_valid (zdrop 2 p)) eqn:Eu; [|by rewrite decide_False by (intros (? & ? & ?); congruence || lia)].
    res_step. destruct (ValidCloseCode _) eqn:Ev.
    + by rewrite decide_True.
    + by rewrite decide_False by (intros (? & ? & ?); congruence || lia).
  - rewrite decide_True by lia. by rewrite decide_False by (intros (? & ? & ?); congruence || lia).
Qed.

(** * Messages *)

(** Frames the peer of a stream with role [r] may send: a client masks its frames and a
    server does not. *)
Definition from_peer (r : Role) (w : wire) : Prop :=
  wire_ok w /\ first_rsv (w_first w) = 0 /\ w_masked w = bool_decide (r = RoleServer).

Definition data_frame (r : Role) (op : Z) (fin : bool) (w : wire) : Prop :=
  from_peer r w /\ first_fin (w_first w) = fin /\ first_opcode (w_first w) = op.

Definition control_frame (r : Role) (op : Z) (w : wire) : Prop :=
  data_frame r op true w /\ zlen (w_payload w) <= 125.

(** The frames of a message whose next fragment has opcode [op], with pings and pongs in
    between, and the payload they carry (for a server, still masked). *)
Inductive fragments (r : Role) (op : Z) : list wire -> list byte -> Prop :=
| fragment_last w : data_frame r op true w -> fragments r op [w] (w_payload w)
| fragment_more w ws p :
    data_frame r op false w -> fragments r OpcodeContinuation ws p ->
    fragments r op (w :: ws) (w_payload w ++ p)
| fragment_ping w ws p :
    control_frame r OpcodePing w -> fragments r op ws p -> fragments r op (w :: ws) p
| fragment_pong w ws p :
    control_frame r OpcodePong w -> fragments r op ws p -> fragments r op (w :: ws) p.

(** The control frames among them, as the control callback sees them. *)
Definition controls (ws : list wire) : list (Z * list byte) :=
  (fun w => (first_opcode (w_first w), w_payload w))
  <$> filter (fun w => IsControl (first_opcode (w_first w)) = true) ws.

Definition ping_payloads (ws : list wire) : list (list byte) :=
  w_payload <$> filter (fun w => first_opcode (w_first w) = OpcodePing) ws.

Lemma react_ping {r} w : control_frame r OpcodePing w ->
  react r false StateActive w = (StateActive, Some (OpcodePong, w_payload w), None).
Proof.
  intros [((_ & Hr & Hm) & Hf & Ho) Hl]. unfold react, react_control.
  rewrite Hr, Hm, Ho, Hf. destruct r; cbn; by rewrite (decide_False (P := 125 < _)) by lia.
Qed.

Lemma react_pong {r} w : control_frame r OpcodePong w ->
  react r false StateActive w = (StateActive, None, None).
Proof.
  intros [((_ & Hr & Hm) & Hf & Ho) Hl]. unfold react, react_control.
  rewrite Hr, Hm, Ho, Hf. destruct r; cbn; by rewrite (decide_False (P := 125 < _)) by lia.
Qed.

Lemma react_close {r utf8} w : control_frame r OpcodeClose w ->
  react r utf8 StateClosedByUs w = (StateCloseAcked, None, None)
  /\ react r utf8 StateActive w
     = (StateClosedByPeer, Some (OpcodeClose, echo_close (w_payload w)), None).
Proof.
  intros [((_ & Hr & Hm) & Hf & Ho) Hl]. unfold react, react_control.
  rewrite Hr, Hm, Ho, Hf. destruct r; cbn; rewrite !(decide_False (P := 125 < _)) by lia; by split.
Qed.

Definition data_opcode (op : Z) : Prop := op = OpcodeContinuation \/ op = OpcodeText \/ op = OpcodeBinary.

Lemma react_fragment {r} op fin w : data_frame r op fin w -> data_opcode op ->
  react r false StateActive w = (StateActive, None, None).
Proof.
  intros ((_ & Hr & Hm) & Hf & Ho) Hd. unfold react, react_data. rewrite Hr, Hm, Ho.
  by destruct r, Hd as [-> | [-> | ->]].
Qed.

(** What the peer may send until it answers our close frame: data, in UTF-8 where that is
    checked, pings and pongs. *)
Definition before_close (r : Role) (utf8 : bool) (w : wire) : Prop :=
  (exists op fin, data_frame r op fin w /\ data_opcode op
     /\ (op = OpcodeText -> utf8 = true -> utf8_valid (w_payload w) = true))
  \/ control_frame r OpcodePing w \/ control_frame r OpcodePong w.

Lemma react_before_close {r utf8} w : before_close r utf8 w ->
  react r utf8 StateClosedByUs w = (StateClosedByUs, None, None).
Proof.
  unfold react, react_control, react_data.
  intros [(op & fin & ((_ & Hr & Hm) & Hf & Ho) & Hd & Hu) | [[((_ & Hr & Hm) & Hf & Ho) Hl] | [((_ & Hr & Hm) & Hf & Ho) Hl]]];
    rewrite Hr, Hm, Ho, ?Hf.
  - destruct r, Hd as [-> | [-> | ->]], utf8; cbn; try done; by rewrite Hu.
  - destruct r; cbn; by rewrite (decide_False (P := 125 < _)) by lia.
  - destruct r; cbn; by rewrite (decide_False (P := 125 < _)) by lia.
Qed.

Lemma before_close_ok r utf8 w : before_close r utf8 w -> wire_ok w.
Proof. by intros [(op & fin & ((? & _) & _) & _) | [[((? & _) & _) _] | [((? & _) & _) _]]]. Qed.

Lemma controls_data {r} op fin w ws : data_frame r op fin w -> data_opcode op ->
  ping_payloads (w :: ws) = ping_payloads ws /\ controls (w :: ws) = controls ws.
Proof.
  intros (_ & _ & Ho) Hd. unfold ping_payloads, controls. rewrite !filter_cons, Ho.
  by destruct Hd as [-> | [-> | ->]].
Qed.

Lemma controls_ping {r} w ws : control_frame r OpcodePing w ->
  ping_payloads (w :: ws) = w_payload w :: ping_payloads ws
  /\ controls (w :: ws) = (OpcodePing, w_payload w) :: controls ws.
Proof.
  intros [(_ & _ & Ho) _]. unfold ping_payloads, controls. rewrite !filter_cons, Ho.
  rewrite !decide_True by done. by rewrite !fmap_cons, Ho.
Qed.

Lemma controls_pong {r} w ws : control_frame r OpcodePong w ->
  ping_payloads (w :: ws) = ping_payloads ws
  /\ controls (w :: ws) = (OpcodePong, w_payload w) :: controls ws.
Proof.
  intros [(_ & _ & Ho) _]. unfold ping_payloads, controls. rewrite !filter_cons, Ho.
  rewrite decide_False, decide_True by done. by rewrite !fmap_cons, Ho.
Qed.

(** * Queueing and flushing *)

Section stream.
Context {P T : Type} `{GoRuntime} `{FramePool P} `{Duplex T} `{!WriterLaws T}.
Context (genMask : nat -> list byte) (fuel : nat).
Context (genMask_len : forall n, length (genMask n) = 4%nat).
Implicit Types (s : Stream P T) (f : Frame) (w : wire).

Definition pool_ok (p : P) : Prop := forall f, pooled p f -> clean_frame f.

(** Every frame the pool may hand out can take the longest length field. *)
Definition roomy (p : P) : Prop := forall f, pooled p f -> 10 <= slen f.

(** Queueing, when the frame the pool hands out can take the length. *)
Lemma queueFrame_built s op payload (f0 := (pool_get (framePool s)).2) :
  pool_ok (framePool s) -> zlen payload <= 2 ^ 47 ->
  (125 < zlen payload -> 4 <= slen f0) -> (65535 < zlen payload -> 10 <= slen f0) ->
  exists p d f k,
    queueFrame genMask s op payload
      = Ret (set_pending (set_drawn (set_pool s p) d) (pendingFrames s ++ [f]))
    /\ (forall g, pooled p g -> pooled (framePool s) g)
    /\ (payload <> [] -> k = genMask (drawn s)) /\ length k = 4%nat
    /\ queued f (out_wire (role s) k op payload).
Proof.
  subst f0. intros Hp Hl Hs4 Hs10. unfold queueFrame, AcquireFrame, prepareWrite.
  destruct (pool_get (framePool s)) as [p f] eqn:Eg. cbn [snd] in *.
  destruct (pool_get_ok _ _ _ Eg) as [Hf Hsub].
  assert (clean_frame f) as Hc by (destruct Hf as [->|Hf]; [apply new_frame_clean|by apply Hp]).
  destruct (build_frame (role s) f op payload (genMask (drawn s)) Hc (genMask_len _) Hl Hs4 Hs10)
    as (f1 & f2 & f3 & f' & k & E1 & E2 & E3 & E4 & Hk & Hk4 & Hq).
  rewrite E1. res_step. rewrite E2. res_step.
  apply res_bind_inv in E3 as (f3' & E3 & E3'). rewrite E3. res_step. rewrite E3'. res_step.
  change (role (set_pool s p)) with (role s). change (drawn (set_pool s p)) with (drawn s).
  destruct (decide (role s = RoleClient)).
  - rewrite E4. res_step. by exists p, (Datatypes.S (drawn s)), f', k.
  - injection E4 as ->. by exists p, (drawn s), f', k.
Qed.

Lemma queueFrame_ok s op payload :
  pool_ok (framePool s) -> zlen payload <= 2 ^ 47 ->
  (125 < zlen payload -> roomy (framePool s)) ->
  exists p d f k,
    queueFrame genMask s op payload
      = Ret (set_pending (set_drawn (set_pool s p) d) (pendingFrames s ++ [f]))
    /\ (forall g, pooled p g -> pooled (framePool s) g)
    /\ (payload <> [] -> k = genMask (drawn s)) /\ length k = 4%nat
    /\ queued f (out_wire (role s) k op payload).
Proof.
  intros Hp Hl Hr. destruct (pool_get (framePool s)) as [p f] eqn:Eg.
  assert (125 < zlen payload -> 10 <= slen f) as H10.
  { intros Hb. destruct (pool_get_ok _ _ _ Eg) as [[->|Hf] _]; [simpl; lia|by apply Hr]. }
  apply queueFrame_built; try done; rewrite Eg; cbn [snd]; intros; [|apply H10; lia].
  pose proof (H10 ltac:(lia)). lia.
Qed.

(** The frame the pool hands out next. *)
Definition next_frame s : Frame := (pool_get (framePool s)).2.

Lemma queueFrame_room s op payload s' : queueFrame genMask s op payload = Ret s' ->
  takes_length (next_frame s) (zlen payload).
Proof.
  unfold next_frame, queueFrame, AcquireFrame. destruct (pool_get (framePool s)) as [p f]. cbn [snd]. intros E.
  apply res_bind_inv in E as ([s1 f1] & E1 & E). apply res_bind_inv in E1 as (f0 & E0 & [= <- <-]).
  apply res_bind_inv in E as (f2 & E2%or_bits_len & E). apply res_bind_inv in E as (f3 & E3%SetOpcode_len & E).
  apply res_bind_inv in E as (f4 & E4%SetPayload_room & _). unfold takes_length in *.
  assert (slen f0 = slen f) as E0' by (case_decide; [by apply or_bits_len in E0|by injection E0 as <-]). lia.
Qed.

(** A frame that is too short for the length makes [SetPayload] panic. *)
Lemma queueFrame_short s op payload :
  ~ takes_length (next_frame s) (zlen payload) -> queueFrame genMask s op payload = Panic.
Proof.
  unfold next_frame, queueFrame, AcquireFrame. destruct (pool_get (framePool s)) as [p f]. cbn [snd]. intros Hn.
  assert (keeps_len (slen f) (if decide (role s = RoleClient) then SetIsMasked f else Ret f)) as K
    by (case_decide; [apply keeps_len_bits|done]).
  destruct (if decide (role s = RoleClient) then SetIsMasked f else Ret f) as [f1| |]; [|done|done]. res_step.
  simpl in K. eapply keeps_len_bind; [apply keeps_len_bits|]. intros f2 Hf2.
  assert (keeps_len (slen f2) (SetOpcode f2 op)) as K2.
  { unfold SetOpcode. pose proof (keeps_len_bits f2 0 (fun x => z2b (Z.land (b2z x) (Z.shiftl bitmaskOpcode 4)))
      : keeps_len (slen f2) (clearOpcode f2)) as Kc.
    destruct (clearOpcode f2) as [f3| |]; [|done|done]. res_step. simpl in Kc. rewrite <-Kc. apply keeps_len_bits. }
  destruct (SetOpcode f2 op) as [f3| |]; [|done|done]. res_step. simpl in K2.
  rewrite SetPayload_no_room; [done|]. unfold takes_length in *. lia.
Qed.

(** Nothing of an earlier frame is left in the write buffer. *)
Definition drained (b : ByteBuffer) : Prop :=
  exists S F o, b = bb S [] [] F o /\ bounded S [] [] F.

(** A connected stream whose pending frames hold the encodings [ws]. *)
Definition stream_inv s (c : FrameCodec) (t : T) (ws : list wire) : Prop :=
  codecConn s = Some (c, t) /\ drained (dst s) /\ Forall2 queued (pendingFrames s) ws
  /\ pool_ok (framePool s).

Definition fits (ws : list wire) : Prop := Forall (fun w => zlen (wire_bytes w) <= Z.of_nat fuel) ws.

Lemma releaseFrame_ok s f w :
  queued f w -> pool_ok (framePool s) ->
  exists p, releaseFrame s f = Ret (set_pool s p) /\ pool_ok p.
Proof.
  intros Hq Hp. destruct (queued_reset f w Hq) as (g & E & Hg). unfold releaseFrame. rewrite E.
  res_step. eexists. split; [done|]. intros h Hh. apply pool_put_ok in Hh as [->|Hh]; auto.
Qed.

(** The state after a flush: the transport, the write buffer and the pool have changed. *)
Definition flushed_to s (c : FrameCodec) (t : T) (d : ByteBuffer) (p : P) : Stream P T :=
  set_pool (set_conn s (mkCodecConn t c (src s) d)) p.

Lemma Flush_loop_ok c fs ws : forall s t,
  codecConn s = Some (c, t) -> drained (dst s) -> Forall2 queued fs ws -> pool_ok (framePool s) ->
  fits ws ->
  exists t' d p rest e x,
    Flush_loop fuel s fs = Ret (flushed_to s c t' d p, (rest, e))
    /\ wlog t' = wlog t ++ x /\ x `prefix_of` concat (wire_bytes <$> ws) /\ pend t' = pend t
    /\ pool_ok p
    /\ (e = None -> rest = [] /\ x = concat (wire_bytes <$> ws) /\ drained d)
    /\ (ReliableWriter T -> e = None).
Proof.
  intros s t Hc Hd Hq. revert s t Hc Hd.
  induction Hq as [|f w fs ws Hf Hfs IH]; intros s t Hc Hd Hp Hfit.
  { exists t, (dst s), (framePool s), [], None, []. rewrite app_nil_r. split_and!; try done.
    simpl. unfold flushed_to, set_conn, set_pool. simpl. destruct s; simpl in *. by subst. }
  apply list.Forall_cons in Hfit as [Hfit1 Hfit].
  cbn [Flush_loop]. unfold with_codecConn at 1. rewrite Hc.
  destruct (WriteNext_frame (mkCodecConn t c (src s) (dst s)) f w fuel Hd (proj1 Hf) Hfit1)
    as (conn & n & e & x & E & Ec & Es & Hlog & Hx & He).
  pose proof (WriteNext_preserved pend fuel _ _ _ _ write_pend E) as Hpend.
  assert (ReliableWriter T -> e = None) as Hrel.
  { intros ?. by apply (WriteNext_reliable fuel (mkCodecConn t c (src s) (dst s)) conn f w n e
      Hd (proj1 Hf) E). }
  destruct conn as [t1 c1 b1 d1]. cbn [Codec.codec Codec.src Codec.dst Codec.stream] in *. subst c1 b1.
  rewrite E. res_step. destruct e as [e|].
  { eexists t1, d1, (framePool s), (f :: fs), (Some e), x. split_and!; try done.
    rewrite fmap_cons. cbn [concat]. by apply prefix_app_r. }
  destruct (He eq_refl) as (_ & -> & Hd1).
  destruct (releaseFrame_ok (set_conn s (mkCodecConn t1 c (src s) d1)) f w Hf Hp) as (p1 & -> & Hp1).
  res_step.
  destruct (IH (set_pool (set_conn s (mkCodecConn t1 c (src s) d1)) p1) t1)
    as (t2 & d2 & p2 & rest & e2 & x2 & -> & Hlog2 & Hx2 & Hpd2 & Hp2 & He2 & Hrel2); try done.
  exists t2, d2, p2, rest, e2, (wire_bytes w ++ x2). split_and!; try done.
  - by rewrite Hlog2, Hlog, <-app_assoc.
  - rewrite fmap_cons. cbn [concat]. by apply prefix_app.
  - by rewrite Hpd2, Hpend.
  - intros E2. destruct (He2 E2) as (-> & -> & ?). done.
Qed.

Lemma Flush_ok s c t ws :
  stream_inv s c t ws -> fits ws ->
  exists t' d p rest e x,
    Flush fuel s = Ret (set_pending (flushed_to s c t' d p) rest, e)
    /\ wlog t' = wlog t ++ x /\ x `prefix_of` concat (wire_bytes <$> ws) /\ pend t' = pend t
    /\ pool_ok p
    /\ (e = None -> rest = [] /\ x = concat (wire_bytes <$> ws) /\ drained d)
    /\ (ReliableWriter T -> e = None).
Proof.
  intros (Hc & Hd & Hq & Hp) Hfit. unfold Flush.
  destruct (Flush_loop_ok c _ ws s t Hc Hd Hq Hp Hfit) as (t' & d & p & rest & e & x & E & Hrest).
  rewrite E. res_step. by exists t', d, p, rest, e, x.
Qed.

(** ** [Write] *)

Lemma length_out_wire r k op payload :
  length k = 4%nat -> zlen (wire_bytes (out_wire r k op payload)) <= zlen payload + 14.
Proof.
  intros Hk. unfold wire_bytes, wire_header. rewrite !length_app. simpl.
  assert (zlen (ext_len (zlen (w_payload (out_wire r k op payload)))) <= 8).
  { rewrite length_ext_len. repeat case_decide; lia. }
  destruct r; simpl in *; rewrite ?length_xor_mask in *; lia.
Qed.

(** What a step leaves alone. *)
Definition same_config s s' : Prop :=
  role s' = role s /\ maxMessageSize s' = maxMessageSize s /\ validateUTF8 s' = validateUTF8 s
  /\ controlCallback s' = controlCallback s /\ controlCalls s' = controlCalls s.

(** One frame queued on an empty queue and flushed. *)
Lemma send_built s c t op payload :
  stream_inv s c t [] -> zlen payload <= 2 ^ 47 -> takes_length (next_frame s) (zlen payload) ->
  zlen payload + 14 <= Z.of_nat fuel ->
  exists s' t' e x k,
    (s ← queueFrame genMask s op payload; Flush fuel s) = Ret (s', e)
    /\ length k = 4%nat /\ (payload <> [] -> k = genMask (drawn s))
    /\ Stream_NextLayer s' = Some t' /\ state s' = state s /\ src s' = src s
    /\ same_config s s' /\ pend t' = pend t /\ (ReliableWriter T -> e = None)
    /\ wlog t' = wlog t ++ x /\ x `prefix_of` wire_bytes (out_wire (role s) k op payload)
    /\ (e = None -> x = wire_bytes (out_wire (role s) k op payload) /\ stream_inv s' c t' []).
Proof.
  intros (Hc & Hd & Hq & Hp) Hl [Hr4 Hr10] Hf. apply Forall2_nil_inv_r in Hq.
  destruct (queueFrame_built s op payload Hp Hl Hr4 Hr10) as (p & d & f & k & -> & Hsub & Hk & Hk4 & Hqf).
  res_step. set (s1 := set_pending _ _).
  destruct (Flush_ok s1 c t [out_wire (role s) k op payload])
    as (t' & d' & p' & rest & e & x & E & Hlog & Hx & Hpd & Hp' & He & Hrel).
  - split_and!; [done|done| |].
    + subst s1. simpl. rewrite Hq. apply Forall2_cons; [done|constructor].
    + intros g Hg. by apply Hp, Hsub.
  - constructor; [|constructor]. pose proof (length_out_wire (role s) k op payload Hk4). lia.
  - rewrite fmap_cons, fmap_nil in Hx, He. cbn [concat] in Hx, He. rewrite app_nil_r in Hx, He.
    eexists _, t', e, x, k. split; [exact E|]. split_and!; try done.
    intros Ee. destruct (He Ee) as (-> & -> & Hd'). split; [done|]. split_and!; done || constructor.
Qed.

Lemma roomy_takes s n : (125 < n -> roomy (framePool s)) -> takes_length (next_frame s) n.
Proof.
  intros Hr. unfold next_frame. destruct (pool_get (framePool s)) as [p f] eqn:Eg. cbn [snd].
  assert (125 < n -> 10 <= slen f) as H10; [|split; intros ?; pose proof (H10 ltac:(lia)); lia].
  intros Hb. destruct (pool_get_ok _ _ _ Eg) as [[->|Hf] _]; [simpl; lia|by apply Hr].
Qed.

Lemma send_one s c t op payload :
  stream_inv s c t [] -> zlen payload <= 2 ^ 47 -> (125 < zlen payload -> roomy (framePool s)) ->
  zlen payload + 14 <= Z.of_nat fuel ->
  exists s' t' e x k,
    (s ← queueFrame genMask s op payload; Flush fuel s) = Ret (s', e)
    /\ length k = 4%nat /\ (payload <> [] -> k = genMask (drawn s))
    /\ Stream_NextLayer s' = Some t' /\ state s' = state s /\ src s' = src s
    /\ same_config s s' /\ pend t' = pend t /\ (ReliableWriter T -> e = None)
    /\ wlog t' = wlog t ++ x /\ x `prefix_of` wire_bytes (out_wire (role s) k op payload)
    /\ (e = None -> x = wire_bytes (out_wire (role s) k op payload) /\ stream_inv s' c t' []).
Proof. intros Hi Hl Hr Hf. apply send_built; try done. by apply roomy_takes. Qed.

(** ** Received frames *)

Lemma verifyFrame_ok s f w :
  frame_is f w -> wire_ok w ->
  verifyFrame s f
  = Ret (if decide (first_rsv (w_first w) <> 0) then Some ErrNonZeroReservedBits
         else match role s, w_masked w with
              | RoleClient, true => Some ErrMaskedFramesFromServer
              | RoleServer, false => Some ErrUnmaskedFramesFromClient
              | _, _ => None
              end).
Proof.
  intros Hf Hok. pose proof (frame_accessors f w Hf Hok) as (_ & Hm & _).
  pose proof (frame_header f w Hf) as (Hwf & E & _). pose proof (rsv_bits (w_first w)) as Hr.
  unfold verifyFrame, IsRSV1, IsRSV2, IsRSV3, has_bit, get_bits.
  rewrite (index_0 f _ _ Hwf E). res_step. revert Hr.
  generalize (bool_decide (Z.land (b2z (w_first w)) bitRSV1 <> 0)) as r1.
  generalize (bool_decide (Z.land (b2z (w_first w)) bitRSV2 <> 0)) as r2.
  generalize (bool_decide (Z.land (b2z (w_first w)) bitRSV3 <> 0)) as r3.
  intros r3 r2 r1. rewrite Hm.
  destruct (decide (first_rsv (w_first w) <> 0)) as [Hb|Hb];
    [rewrite (bool_decide_true _ Hb)|rewrite (bool_decide_false _ Hb)];
    destruct r1, r2, r3; try done; intros _; res_step.
  destruct (role s), (w_masked w); try done; repeat case_decide; destruct_and?; done || tauto.
Qed.

(** [handleFrame] queues at most one frame. *)
Definition answered s (st : StreamState) (answer : option (Z * list byte)) (s' : Stream P T) : Prop :=
  state s' = st /\ role s' = role s /\ codecConn s' = codecConn s /\ src s' = src s
  /\ dst s' = dst s /\ maxMessageSize s' = maxMessageSize s /\ validateUTF8 s' = validateUTF8 s
  /\ controlCallback s' = controlCallback s /\ controlCalls s' = controlCalls s
  /\ (pool_ok (framePool s) -> pool_ok (framePool s'))
  /\ match answer with
     | None => pendingFrames s' = pendingFrames s
     | Some (op, p) => exists f k, pendingFrames s' = pendingFrames s ++ [f] /\ length k = 4%nat
         /\ queued f (out_wire (role s) k op p)
     end.

Lemma queueFrame_answered s st op p :
  pool_ok (framePool s) -> zlen p <= 125 ->
  exists s', queueFrame genMask (set_state s st) op p = Ret s' /\ answered s st (Some (op, p)) s'.
Proof.
  intros Hp Hl.
  destruct (queueFrame_ok (set_state s st) op p) as (q & d & f & k & E & Hsub & _ & Hk & Hq);
    [done|lia|lia|].
  eexists. split; [exact E|]. unfold answered. simpl. split_and!; try done.
  - intros _ g Hg. by apply Hp, Hsub.
  - by exists f, k.
Qed.

Lemma answered_none s st : answered s st None (set_state s st).
Proof. by unfold answered. Qed.

Lemma zlen_echo_close p : zlen p <= 125 -> zlen (echo_close p) <= 125.
Proof.
  intros Hp. unfold echo_close. repeat case_decide; try done;
    unfold EncodeCloseCode; rewrite length_be_encode; lia.
Qed.

(** The outcome of a handler, before the error is acted upon. *)
Definition handled s (r : reaction) (m : res (Stream P T * option error)) : Prop :=
  exists s' e, m = Ret (s', e)
    /\ match e with
       | Some err => s' = s /\ r = violation err
       | None => answered s (fst (fst r)) (snd (fst r)) s' /\ snd r = None
       end.

Lemma handleControlFrame_ok s f w :
  frame_is f w -> wire_ok w -> pool_ok (framePool s) -> canRead s = true ->
  IsControl (first_opcode (w_first w)) = true ->
  handled s (react_control (state s) w) (handleControlFrame genMask s f).
Proof.
  intros Hf Hok Hp Hr Hop.
  pose proof (frame_accessors f w Hf Hok) as (Hl & _ & Hfin & Ho & (p & Ep & Hpe & _) & _).
  unfold handleControlFrame, react_control, handled. rewrite Hfin. res_step.
  destruct (first_fin (w_first w)); cbn [negb]; [|by eexists _, _].
  rewrite Hl. res_step. unfold MaxControlFramePayloadLength.
  destruct (decide (zlen (w_payload w) > 125)).
  { rewrite decide_True by lia. by eexists _, _. }
  rewrite (decide_False (P := 125 < _)) by lia. rewrite Ho. res_step.
  assert (set_state s (state s) = s) as Hs by (by destruct s).
  destruct (decide (first_opcode (w_first w) = OpcodePing)).
  { destruct (decide (state s = StateActive)) as [Ha|Ha].
    - rewrite Ep. res_step. rewrite Hpe.
      destruct (queueFrame_answered s (state s) OpcodePong (w_payload w) Hp) as (s' & E & Hs');
        [lia|]. rewrite Hs in E. rewrite E. res_step. by eexists _, _.
    - eexists _, _. split; [done|]. split; [|done]. rewrite <-Hs at 2. apply answered_none. }
  destruct (decide (first_opcode (w_first w) = OpcodePong)).
  { eexists _, _. split; [done|]. split; [|done]. rewrite <-Hs at 2. apply answered_none. }
  rewrite decide_True.
  2: { unfold IsControl, IsPing, IsPong, IsClose in Hop. rewrite !bool_decide_false in Hop by done.
       by apply bool_decide_eq_true in Hop. }
  unfold canRead in Hr. destruct (state s) eqn:Est; try done.
  - rewrite Ep. res_step. rewrite Hpe, close_reply_echo. res_step.
    destruct (queueFrame_answered s StateClosedByPeer OpcodeClose (echo_close (w_payload w)) Hp)
      as (s' & E & Hs'); [apply zlen_echo_close; lia|].
    unfold prepareClose. rewrite E. res_step. by eexists _, _.
  - eexists _, _. split; [done|]. split; [|done]. apply answered_none.
Qed.

Lemma handleDataFrame_ok s f w :
  frame_is f w -> wire_ok w ->
  handled s (react_data (validateUTF8 s) (state s) w)
    (err ← handleDataFrame s f; Ret (s, err)).
Proof.
  intros Hf Hok.
  pose proof (frame_accessors f w Hf Hok) as (_ & _ & _ & Ho & (p & Ep & Hpe & _) & _).
  assert (answered s (state s) None s) as Hn.
  { pose proof (answered_none s (state s)) as Hn. by destruct s. }
  unfold handleDataFrame, react_data, handled. rewrite Ho. res_step.
  destruct (IsReserved _); [by eexists _, _|].
  destruct (IsText _ && validateUTF8 s); cbn [andb]; [|by eexists _, _].
  rewrite Ep. res_step. rewrite Hpe. destruct (utf8_valid (w_payload w)); by eexists _, _.
Qed.

(** [handleFrame] reacts as specified. *)
Lemma handleFrame_ok s f w :
  frame_is f w -> wire_ok w -> pool_ok (framePool s) -> canRead s = true ->
  exists s', handleFrame genMask s f = Ret (s', snd (react (role s) (validateUTF8 s) (state s) w))
    /\ answered s (fst (fst (react (role s) (validateUTF8 s) (state s) w)))
         (snd (fst (react (role s) (validateUTF8 s) (state s) w))) s'.
Proof.
  intros Hf Hok Hp Hr. unfold handleFrame. rewrite (verifyFrame_ok s f w Hf Hok). res_step.
  pose proof (frame_accessors f w Hf Hok) as (_ & _ & _ & Ho & _). rewrite Ho. res_step.
  assert (forall e : error, exists s', (s0 ← prepareClose genMask (set_state s StateClosedByUs)
      (EncodeCloseFramePayload CloseProtocolError []); Ret (s0, Some e)) = Ret (s', Some e)
    /\ answered s StateClosedByUs (Some (OpcodeClose, EncodeCloseFramePayload CloseProtocolError [])) s')
    as Hbad.
  { intros e. unfold prepareClose. destruct (queueFrame_answered s StateClosedByUs OpcodeClose
      (EncodeCloseFramePayload CloseProtocolError []) Hp) as (s' & E & Hs'); [done|].
    rewrite E. res_step. by exists s'. }
  unfold react.
  destruct (decide (first_rsv (w_first w) <> 0)); [apply Hbad|].
  destruct (role s), (w_masked w); try (apply Hbad).
  all: destruct (IsControl (first_opcode (w_first w))) eqn:Ec;
    [destruct (handleControlFrame_ok s f w Hf Hok Hp Hr Ec) as (s' & e & -> & He)
    |destruct (handleDataFrame_ok s f w Hf Hok) as (s' & e & -> & He)]; res_step;
    destruct e as [e|]; [destruct He as [-> ->]; apply Hbad|destruct He as [Ha ->]; by exists s'
    |destruct He as [-> ->]; apply Hbad|destruct He as [Ha ->]; by exists s'].
Qed.

(** ** [NextFrame] *)

(** A connected stream that has [ws] to send and has yet to receive the bytes [bs]. *)
Definition live s (c : FrameCodec) (t : T) (ws : list wire) (bs : list byte) : Prop :=
  stream_inv s c t ws /\ conn_holds (mkCodecConn t c (src s) (dst s)) bs.

Definition answers (r : Role) (answer : option (Z * list byte)) (ws : list wire) : Prop :=
  match answer with
  | None => ws = []
  | Some (op, p) => exists k, length k = 4%nat /\ ws = [out_wire r k op p]
  end.

Lemma nextFrame_ok s c t w rest :
  live s c t [] (wire_bytes w ++ rest) -> wire_ok w ->
  zlen (w_payload w) <= WebsocketCodec.maxMessageSize c -> canRead s = true ->
  (length (pend t) < fuel)%nat ->
  let r := react (role s) (validateUTF8 s) (state s) w in
  exists s' c' t' f ws, nextFrame genMask fuel s = Ret (s', (Some f, snd r))
    /\ frame_is f w /\ state s' = fst (fst r) /\ same_config s s'
    /\ answers (role s) (snd (fst r)) ws /\ live s' c' t' ws rest
    /\ wlog t' = wlog t /\ (length (pend t') <= length (pend t))%nat
    /\ WebsocketCodec.maxMessageSize c' = WebsocketCodec.maxMessageSize c.
Proof.
  intros [(Hc & Hd & Hq & Hp) Hh] Hok Hmax Hr Hf r. unfold nextFrame, with_codecConn. rewrite Hc.
  assert (encoding c (wire_bytes w)) as Henc by (by exists w).
  destruct (ReadNext_stream fuel (mkCodecConn t c (src s) (dst s)) (wire_bytes w) rest Hh Henc Hf)
    as (conn & f & E & Hden & Hh' & Hdst & Hkeep & Hlen).
  pose proof (ReadNext_preserved wlog fuel _ _ _ read_wlog E) as Hlog.
  destruct conn as [t' c' b' d']. cbn [Codec.dst Codec.stream Codec.codec] in *. subst d'.
  rewrite E. res_step. rewrite decide_False by (intros [_ ?]; done). res_step.
  set (s1 := set_conn s (mkCodecConn t' c' b' (dst s))).
  destruct (handleFrame_ok s1 f w Hden Hok Hp Hr) as (s' & -> & Hans). res_step.
  change (role s1) with (role s) in *. change (validateUTF8 s1) with (validateUTF8 s) in *.
  change (state s1) with (state s) in *. fold r in Hans |- *.
  destruct Hans as (Hst & Hro & Hcc & Hsrc & Hdst & Hm & Hv & Hcb & Hcl & Hpool & Hpend).
  apply Forall2_nil_inv_r in Hq. change (pendingFrames s1) with (pendingFrames s) in Hpend.
  rewrite Hq in Hpend.
  assert (exists ws, answers (role s) (snd (fst r)) ws /\ Forall2 queued (pendingFrames s') ws)
    as (ws & Hws & Hqs).
  { destruct (snd (fst r)) as [[op p]|].
    - destruct Hpend as (g & k & -> & Hk & Hg). exists [out_wire (role s) k op p].
      split; [by exists k|]. apply Forall2_cons; [done|constructor].
    - exists []. rewrite Hpend. by split. }
  exists s', c', t', f, ws. split_and!; try done.
  split; [split_and!; [done|by rewrite Hdst|done|by apply Hpool]|].
  rewrite Hsrc, Hdst. exact Hh'.
Qed.

Lemma set_pending_id s : set_pending s (pendingFrames s) = s.
Proof. by destruct s. Qed.

Lemma NextFrame_ok `{!ReliableWriter T} s c t ws w rest :
  live s c t ws (wire_bytes w ++ rest) -> fits ws -> wire_ok w ->
  zlen (w_payload w) <= WebsocketCodec.maxMessageSize c -> canRead s = true ->
  (length (pend t) < fuel)%nat ->
  let r := react (role s) (validateUTF8 s) (state s) w in
  exists s' c' t' f ws', NextFrame genMask fuel s = Ret (s', (Some f, snd r))
    /\ frame_is f w /\ state s' = fst (fst r) /\ same_config s s'
    /\ answers (role s) (snd (fst r)) ws' /\ live s' c' t' ws' rest
    /\ wlog t' = wlog t ++ concat (wire_bytes <$> ws)
    /\ (length (pend t') <= length (pend t))%nat
    /\ WebsocketCodec.maxMessageSize c' = WebsocketCodec.maxMessageSize c.
Proof.
  intros [Hi Hh] Hfit Hok Hmax Hr Hf r. unfold NextFrame.
  destruct (Flush_ok s c t ws Hi Hfit)
    as (t1 & d & p & left & e & x & -> & Hlog & _ & Hpd & Hp & He & Hrel). res_step.
  rewrite (Hrel _) in *. destruct (He eq_refl) as (-> & -> & Hd).
  rewrite (decide_False (P := None = _)) by done.
  set (s1 := set_pending (flushed_to s c t1 d p) []). change (canRead s1) with (canRead s).
  rewrite Hr.
  destruct (nextFrame_ok s1 c t1 w rest) as
    (s' & c' & t' & f & ws' & E & Hfr & Hst & Hcfg & Hans & Hlive & Hlog' & Hpd' & Hkeep); try done.
  - split; [split_and!; done || constructor|]. destruct Hh as (U & Hu & HU). exists U.
    split; [done|]. simpl in *. by rewrite Hpd.
  - by rewrite Hpd.
  - rewrite E. res_step. destruct (react_facts (role s) (validateUTF8 s) (state s) w) as [Hne _].
    change (react (role s1) (validateUTF8 s1) (state s1) w) with r in *.
    rewrite (decide_False (P := _ = Some EOF)) by done.
    exists s', c', t', f, ws'. rewrite Hlog', Hlog. rewrite Hpd in Hpd'. by split_and!.
Qed.

(** ** [NextMessage] *)

Definition pong_for (r : Role) (p : list byte) (w : wire) : Prop :=
  exists k, length k = 4%nat /\ w = out_wire r k OpcodePong p.

(** The outcome of a successful read of a message. *)
Definition delivers (r : Role) s (t : T) (out ws : list wire) (p tail rest : list byte) (typ : Z) (read : list byte)
    (m : Stream P T * list byte * (Z * Z * option error) -> Prop) : Prop :=
  exists s' c' t' pongs,
    m (s', read ++ p ++ zdrop (zlen p) tail, (typ, zlen read + zlen p, None))
    /\ Forall2 (pong_for r) (ping_payloads ws) pongs
    /\ wlog t' = wlog t ++ concat (wire_bytes <$> (out ++ pongs))
    /\ live s' c' t' [] rest /\ state s' = StateActive
    /\ controlCalls s' = controlCalls s ++ (if controlCallback s then controls ws else []).

Lemma fits_pong {r} p w : zlen p <= 125 -> (139 <= fuel)%nat -> pong_for r p w -> fits [w].
Proof.
  intros Hp Hf (k & Hk & ->). constructor; [|constructor].
  pose proof (length_out_wire r k OpcodePong p Hk). lia.
Qed.

(** A stream that reads with the default settings. *)
Definition reading (r : Role) s : Prop :=
  role s = r /\ state s = StateActive /\ validateUTF8 s = false.

(** One round of the loop on a frame that is accepted silently or answered with a pong. *)
Lemma NextFrame_reading `{!ReliableWriter T} {r} s c t out w rest answer :
  live s c t out (wire_bytes w ++ rest) -> fits out -> from_peer r w ->
  zlen (w_payload w) <= WebsocketCodec.maxMessageSize c -> reading r s ->
  (length (pend t) < fuel)%nat ->
  react r false StateActive w = (StateActive, answer, None) ->
  exists s' c' t' f out', NextFrame genMask fuel s = Ret (s', (Some f, None))
    /\ frame_is f w /\ reading r s' /\ same_config s s'
    /\ answers r answer out' /\ live s' c' t' out' rest
    /\ wlog t' = wlog t ++ concat (wire_bytes <$> out)
    /\ (length (pend t') <= length (pend t))%nat
    /\ WebsocketCodec.maxMessageSize c' = WebsocketCodec.maxMessageSize c.
Proof.
  intros Hl Hfit (Hok & _) Hmax (Hro & Hst & Hv) Hf Hr.
  destruct (NextFrame_ok s c t out w rest Hl Hfit Hok Hmax) as
    (s' & c' & t' & f & out' & E & Hfr & Hst' & Hcfg & Hans & Hlive & Hrest);
    [unfold canRead; by rewrite Hst|done|].
  rewrite Hro, Hst, Hv, Hr in *. cbn [fst snd] in *. exists s', c', t', f, out'.
  pose proof Hcfg as (Hro' & _ & Hv' & _). split_and!; try done; try apply Hrest.
  split_and!; [by rewrite Hro'|done|by rewrite Hv'].
Qed.

(** What the accessors of a received frame say. *)
Lemma received_frame {r} f op fin w :
  frame_is f w -> data_frame r op fin w ->
  Frame_Opcode f = Ret op /\ IsFIN f = Ret fin /\ PayloadLength f = Ret (zlen (w_payload w))
  /\ exists p, Payload f = Ret p /\ elems p = w_payload w /\ slen p = zlen (w_payload w).
Proof.
  intros Hf ((Hok & _) & Hfin & Hop). rewrite <-Hfin, <-Hop.
  pose proof (frame_accessors f w Hf Hok) as (? & _ & ? & ? & ? & _). by split_and!.
Qed.


Lemma ztake_all' (l : list byte) n : n = zlen l -> ztake n l = l.
Proof. intros ->. by apply ztake_all. Qed.

(** The caller's buffer after one fragment. *)
Lemma store_fragment (read p tail : list byte) :
  zlen p <= zlen tail ->
  write_at (zlen read) (ztake (Z.min (zlen (read ++ tail) - zlen read) (zlen p)) p) (read ++ tail)
  = (read ++ p) ++ zdrop (zlen p) tail.
Proof.
  intros Hp. rewrite (ztake_all' p) by llia.
  rewrite <-(ztake_zdrop (zlen p) tail) at 1. rewrite write_at_app by llia.
  by rewrite <-app_assoc.
Qed.

(** A data frame: its payload is stored and the loop goes on unless it is the last. *)
Lemma NextMessage_fragment {r} rounds s s' f op fin w read tail (continuation : bool) typ mt :
  NextFrame genMask fuel s = Ret (s', (Some f, None)) -> frame_is f w -> data_frame r op fin w ->
  data_opcode typ -> op = (if continuation then OpcodeContinuation else typ) ->
  mt = (if continuation then typ else TypeNone) -> typ <> OpcodeContinuation ->
  zlen (w_payload w) <= zlen tail -> zlen read + zlen (w_payload w) <= maxMessageSize s' ->
  NextMessage_loop genMask fuel (Datatypes.S rounds) s (read ++ tail) (zlen read) continuation mt
  = if fin then Ret (s', (read ++ w_payload w) ++ zdrop (zlen (w_payload w)) tail,
                     (typ, zlen (read ++ w_payload w), None))
    else NextMessage_loop genMask fuel rounds s'
      ((read ++ w_payload w) ++ zdrop (zlen (w_payload w)) tail) (zlen (read ++ w_payload w)) true typ.
Proof.
  intros E Hf Hw Htyp Hop Hmt Hne Htail Hmax. cbn [NextMessage_loop]. rewrite E. res_step.
  destruct (received_frame f op fin w Hf Hw) as (Ho & Hfin & Hl & p & Hp & Hpe & Hps).
  rewrite Ho. res_step.
  assert (IsControl op = false) as ->.
  { subst op. destruct continuation; [done|]. by destruct Htyp as [-> | [-> | ->]]. }
  rewrite Hp. res_step. rewrite Hpe, Hps, store_fragment by done. rewrite Hl. res_step.
  assert (Z.min (zlen (read ++ tail) - zlen read) (zlen (w_payload w)) = zlen (w_payload w)) as ->
    by llia.
  rewrite (decide_False (P := zlen read + zlen (w_payload w) > maxMessageSize s' \/
    zlen (w_payload w) <> zlen (w_payload w))) by lia. rewrite Hfin. res_step.
  assert ((if decide (mt = TypeNone) then op else mt) = typ) as ->.
  { subst mt op. destruct continuation; [|done]. rewrite decide_False; [done|].
    by destruct Htyp as [-> | [-> | ->]]. }
  assert (zlen read + zlen (w_payload w) = zlen (read ++ w_payload w)) as -> by llia.
  assert ((if continuation then if IsContinuation op then None else Some ErrExpectedContinuation
    else if IsContinuation op then Some ErrUnexpectedContinuation else None) = None) as ->.
  { subst op. destruct continuation; [done|]. destruct Htyp as [-> | [-> | ->]]; done. }
  done.
Qed.

(** A ping or a pong: the callback is told and the loop goes on. *)
Lemma NextMessage_control {r} rounds s s' f op w b n continuation mt :
  NextFrame genMask fuel s = Ret (s', (Some f, None)) -> frame_is f w -> control_frame r op w ->
  op = OpcodePing \/ op = OpcodePong ->
  NextMessage_loop genMask fuel (Datatypes.S rounds) s b n continuation mt
  = NextMessage_loop genMask fuel rounds (call_control s' op (w_payload w)) b n continuation mt.
Proof.
  intros E Hf [Hw _] Hop. cbn [NextMessage_loop]. rewrite E. res_step.
  destruct (received_frame f op true w Hf Hw) as (Ho & _ & _ & p & Hp & Hpe & _).
  rewrite Ho. res_step. assert (IsControl op = true) as -> by (by destruct Hop as [-> | ->]).
  rewrite Hp. res_step. by rewrite Hpe.
Qed.

Lemma live_call_control s c t out bs op p :
  live s c t out bs -> live (call_control s op p) c t out bs.
Proof. done. Qed.

(** What the two loops that read a message, the blocking one and the chain of callbacks,
    have in common: [runs rounds s b n continuation mt result] says that the loop entered
    with that state, buffer, count, flag and type ends with [result] within [rounds]
    frames. *)
Record message_reader
    (runs : nat -> Stream P T -> list byte -> Z -> bool -> Z ->
            Stream P T * list byte * (Z * Z * option error) -> Prop) : Prop := {
  runs_fragment : forall r rounds s s' c t out f op (fin : bool) w read tail (continuation : bool) typ mt result,
    stream_inv s c t out -> fits out ->
    NextFrame genMask fuel s = Ret (s', (Some f, None)) -> frame_is f w -> data_frame r op fin w ->
    data_opcode typ -> op = (if continuation then OpcodeContinuation else typ) ->
    mt = (if continuation then typ else TypeNone) -> typ <> OpcodeContinuation ->
    zlen (w_payload w) <= zlen tail -> zlen read + zlen (w_payload w) <= maxMessageSize s' ->
    (if fin then result = (s', (read ++ w_payload w) ++ zdrop (zlen (w_payload w)) tail,
                           (typ, zlen (read ++ w_payload w), None))
     else runs rounds s' ((read ++ w_payload w) ++ zdrop (zlen (w_payload w)) tail)
            (zlen (read ++ w_payload w)) true typ result) ->
    runs (Datatypes.S rounds) s (read ++ tail) (zlen read) continuation mt result;
  runs_control : forall r rounds s s' c t out f op w b n continuation mt result,
    stream_inv s c t out -> fits out ->
    NextFrame genMask fuel s = Ret (s', (Some f, None)) -> frame_is f w -> control_frame r op w ->
    op = OpcodePing \/ op = OpcodePong ->
    runs rounds (call_control s' op (w_payload w)) b n continuation mt result ->
    runs (Datatypes.S rounds) s b n continuation mt result
}.

Lemma NextMessage_reader :
  message_reader (fun rounds s b n continuation mt result =>
    NextMessage_loop genMask fuel rounds s b n continuation mt = Ret result).
Proof.
  split.
  - intros r rounds s s' c t out f op fin w read tail cont typ mt result _ _ E Hf Hw Htyp Hop Hmt Hne
      Htail Hmax Hres.
    rewrite (NextMessage_fragment rounds s s' f op fin w read tail cont typ mt) by done.
    by destruct fin; [rewrite Hres|].
  - intros r rounds s s' c t out f op w b n cont mt result _ _ E Hf Hw Hop Hres.
    by rewrite (NextMessage_control rounds s s' f op w _ _ _ _ E Hf Hw Hop).
Qed.

Context (runs : nat -> Stream P T -> list byte -> Z -> bool -> Z ->
            Stream P T * list byte * (Z * Z * option error) -> Prop).
Context (reader : message_reader runs).

(** The loop on the rest of a message. *)
Definition loop_ok (r : Role) (op : Z) (ws : list wire) (p : list byte) : Prop :=
  forall rounds s c t out read tail rest (continuation : bool) typ mt,
    data_opcode typ -> typ <> OpcodeContinuation ->
    op = (if continuation then OpcodeContinuation else typ) ->
    mt = (if continuation then typ else TypeNone) ->
    (length ws <= rounds)%nat -> live s c t out (concat (wire_bytes <$> ws) ++ rest) ->
    fits out -> reading r s ->
    Forall (fun w => zlen (w_payload w) <= WebsocketCodec.maxMessageSize c) ws ->
    zlen p <= zlen tail -> zlen read + zlen p <= maxMessageSize s ->
    (length (pend t) < fuel)%nat -> (139 <= fuel)%nat ->
    delivers r s t out ws p tail rest typ read
      (runs rounds s (read ++ tail) (zlen read) continuation mt).

Lemma loop_last `{!ReliableWriter T} {r} op w : data_frame r op true w -> loop_ok r op [w] (w_payload w).
Proof.
  intros Hw rounds s c t out read tail rest cont typ mt Htyp Hne Hop Hmt Hr Hl Hfit Hrd Hmax Htail
    Hsz Hf _.
  destruct rounds as [|rounds]; [simpl in Hr; lia|].
  rewrite fmap_cons, fmap_nil in Hl. cbn [concat] in Hl. rewrite app_nil_r in Hl.
  apply list.Forall_cons in Hmax as [Hmax _].
  assert (data_opcode op) as Hdo by (subst op; destruct cont; [by left|done]).
  destruct (NextFrame_reading s c t out w rest None Hl Hfit (proj1 Hw) Hmax Hrd Hf)
    as (s' & c' & t' & f & out' & E & Hfr & Hrd' & Hcfg & Hans & Hl' & Hlog & _);
    [by eapply react_fragment|].
  simpl in Hans. subst out'. destruct Hcfg as (_ & Hm & _ & _ & Hcc).
  exists s', c', t', []. split.
  { rewrite app_assoc, <-Nat2Z.inj_add, <-length_app.
    eapply (runs_fragment runs reader r rounds s s' c t out f op true w read tail cont typ mt);
      done || lia || apply Hl. }
  destruct (controls_data op true w [] Hw Hdo) as [-> ->]. rewrite app_nil_r.
  split_and!; try done.
  - apply Hrd'.
  - rewrite Hcc. destruct (controlCallback s); by rewrite app_nil_r.
Qed.

Lemma loop_more `{!ReliableWriter T} {r} op w ws p :
  data_frame r op false w -> loop_ok r OpcodeContinuation ws p -> loop_ok r op (w :: ws) (w_payload w ++ p).
Proof.
  intros Hw IH rounds s c t out read tail rest cont typ mt Htyp Hne Hop Hmt Hr Hl Hfit Hrd Hmax Htail
    Hsz Hf Hf'.
  destruct rounds as [|rounds]; [simpl in Hr; lia|].
  rewrite fmap_cons in Hl. cbn [concat] in Hl. rewrite <-app_assoc in Hl.
  apply list.Forall_cons in Hmax as [Hmax Hmax'].
  assert (data_opcode op) as Hdo by (subst op; destruct cont; [by left|done]).
  destruct (NextFrame_reading s c t out w _ None Hl Hfit (proj1 Hw) Hmax Hrd Hf)
    as (s' & c' & t' & f & out' & E & Hfr & Hrd' & Hcfg & Hans & Hl' & Hlog & Hpd & Hmc);
    [by eapply react_fragment|].
  simpl in Hans. subst out'. destruct Hcfg as (_ & Hm & _ & Hcb & Hcc). rewrite length_app in *.
  destruct (IH rounds s' c' t' [] (read ++ w_payload w) (zdrop (zlen (w_payload w)) tail) rest true typ typ)
    as (s2 & c2 & t2 & pongs & E2 & Hpongs & Hlog2 & Hl2 & Hst2 & Hcc2);
    [done|done|done|done|simpl in Hr; lia|done|constructor|done|by rewrite Hmc|llia|llia|lia|done|].
  destruct (controls_data op false w ws Hw Hdo) as [Hpp Hct].
  exists s2, c2, t2, pongs. rewrite Hcc2, Hcb, Hcc, Hlog2, Hlog, Hpp, Hct.
  rewrite <-!app_assoc, (fmap_app _ out), concat_app. split_and!; try done.
  rewrite !drop_drop, !length_app, <-!app_assoc in E2.
  rewrite !Nat2Z.id, !Nat2Z.inj_add, <-Z.add_assoc in E2. rewrite !length_app, !Nat2Z.id, !Nat2Z.inj_add.
  eapply (runs_fragment runs reader r rounds s s' c t out f op false w read tail cont typ mt);
    [apply Hl|done..|lia|lia|].
  by rewrite <-app_assoc, length_app, Nat2Z.id, Nat2Z.inj_add.
Qed.

(** The answer to a control frame is what the next round sends first. *)
Lemma loop_control `{!ReliableWriter T} {r} op cop w ws p answer :
  control_frame r cop w -> cop = OpcodePing \/ cop = OpcodePong ->
  react r false StateActive w = (StateActive, answer, None) ->
  controls (w :: ws) = (cop, w_payload w) :: controls ws ->
  (forall out' pongs, answers r answer out' -> Forall2 (pong_for r) (ping_payloads ws) pongs ->
     Forall2 (pong_for r) (ping_payloads (w :: ws)) (out' ++ pongs)) ->
  (forall out', answers r answer out' -> (139 <= fuel)%nat -> fits out') ->
  loop_ok r op ws p -> loop_ok r op (w :: ws) p.
Proof.
  intros Hw Hcop Hre Hct Hpg Hfo IH rounds s c t out read tail rest cont typ mt Htyp Hne Hop Hmt Hr Hl
    Hfit Hrd Hmax Htail Hsz Hf Hf'.
  destruct rounds as [|rounds]; [simpl in Hr; lia|].
  rewrite fmap_cons in Hl. cbn [concat] in Hl. rewrite <-app_assoc in Hl.
  apply list.Forall_cons in Hmax as [Hmax Hmax'].
  destruct (NextFrame_reading s c t out w _ answer Hl Hfit (proj1 (proj1 Hw)) Hmax Hrd Hf Hre)
    as (s' & c' & t' & f & out' & E & Hfr & Hrd' & Hcfg & Hans & Hl' & Hlog & Hpd & Hmc).
  destruct Hcfg as (_ & Hm & _ & Hcb & Hcc).
  destruct (IH rounds (call_control s' cop (w_payload w)) c' t' out' read tail rest cont typ mt)
    as (s2 & c2 & t2 & pongs & E2 & Hpongs & Hlog2 & Hl2 & Hst2 & Hcc2);
    [done|done|done|done|simpl in Hr; lia|done|by apply Hfo|done|by rewrite Hmc|lia| |lia|done|].
  { change (maxMessageSize (call_control s' cop (w_payload w))) with (maxMessageSize s'). lia. }
  exists s2, c2, t2, (out' ++ pongs). rewrite Hlog2, Hlog, Hct, <-app_assoc, Hcc2.
  split_and!; try done.
  - by eapply (runs_control runs reader r rounds s s' c t out f cop w); [apply Hl|..].
  - by apply Hpg.
  - by rewrite (fmap_app _ out), concat_app.
  - simpl. rewrite Hcb, Hcc. destruct (controlCallback s); by rewrite <-?app_assoc.
Qed.

Lemma loop_all `{!ReliableWriter T} {r} op ws p : fragments r op ws p -> loop_ok r op ws p.
Proof.
  induction 1 as [op w Hw|op w ws p Hw Hfr IH|op w ws p Hw Hfr IH|op w ws p Hw Hfr IH].
  - by apply loop_last.
  - by apply loop_more.
  - destruct (controls_ping w ws Hw) as [Hpp Hct].
    apply (loop_control op OpcodePing w ws p _ Hw (or_introl eq_refl) (react_ping w Hw) Hct); [..|done].
    + intros out' pongs (k & Hk & ->) Hp. rewrite Hpp. simpl. constructor; [by exists k|done].
    + intros out' (k & Hk & ->) Hf. apply (fits_pong (r := r) (w_payload w)); [apply Hw|done|by exists k].
  - destruct (controls_pong w ws Hw) as [Hpp Hct].
    apply (loop_control op OpcodePong w ws p _ Hw (or_intror eq_refl) (react_pong w Hw) Hct); [..|done].
    + intros out' pongs -> Hp. by rewrite Hpp.
    + intros out' -> _. constructor.
Qed.
End stream.
