(* ===== verification/WebsocketStreamProps.v ===== *)
(** Properties of the WebSocket stream: what is sent, how frames are reacted to, which
    messages are delivered, how the state moves, and the closing handshake. *)

From stdpp Require Import sets relations.
From S2P Require Import Prelude GoSlice GoIO ByteBuffer Codec Utf8 WebsocketFrame WebsocketWire WebsocketCodec CodecRoundTrip WebsocketStream WebsocketStreamSpec.

(** * The life of the state *)

Definition terminal (st : StreamState) : Prop :=
  st = StateClosedByPeer \/ st = StateCloseAcked \/ st = StateTerminated.

(** The transitions documented with [StreamState]. *)
Inductive moves : StreamState -> StreamState -> Prop :=
| closed_by_us : moves StateActive StateClosedByUs
| closed_by_peer : moves StateActive StateClosedByPeer
| close_acked : moves StateClosedByUs StateCloseAcked
| terminated st : st = StateActive \/ st = StateClosedByUs -> moves st StateTerminated.

Lemma terminal_stays st st' : terminal st -> rtc moves st st' -> st' = st.
Proof.
  intros Ht. induction 1 as [|st st1 st2 Hm _ IH]; [done|].
  destruct Hm as [| | |st Hs]; destruct Ht as [Ht|[Ht|Ht]]; try done; destruct Hs; congruence.
Qed.

(** The calls a client makes on a connected stream. *)
Inductive stream_op : Type :=
| DoFlush | DoWrite (b : list byte) (t : Z) | DoWriteFrame (f : Frame)
| DoClose (cc : Z) (reason : list byte) | DoNextFrame | DoNextMessage (rounds : nat) (b : list byte).

Section progress.
Context {P T : Type} `{GoRuntime} `{FramePool P} `{Reader T} `{Writer T}.
Context (genMask : nat -> list byte) (fuel : nat).
Implicit Types (s : Stream P T).

Definition apply_op s (op : stream_op) : res (Stream P T) :=
  match op with
  | DoFlush => '(s, _) ← Flush fuel s; Ret s
  | DoWrite b t => '(s, _) ← Stream_Write genMask fuel s b t; Ret s
  | DoWriteFrame f => '(s, _) ← WriteFrame genMask fuel s f; Ret s
  | DoClose cc reason => '(s, _) ← Stream_Close genMask fuel s cc reason; Ret s
  | DoNextFrame => '(s, _) ← NextFrame genMask fuel s; Ret s
  | DoNextMessage rounds b => '(s, _, _) ← NextMessage genMask fuel rounds s b; Ret s
  end.

Lemma prepareWrite_state s f s' : prepareWrite genMask s f = Ret s' -> state s' = state s.
Proof.
  unfold prepareWrite. case_decide; [|by intros [= <-]].
  intros E. by apply res_bind_inv in E as (g & _ & [= <-]).
Qed.

Lemma queueFrame_state s op p s' : queueFrame genMask s op p = Ret s' -> state s' = state s.
Proof.
  unfold queueFrame, AcquireFrame. destruct (pool_get (framePool s)) as [q f]. intros E.
  apply res_bind_inv in E as ([s1 f1] & E1 & E). apply res_bind_inv in E1 as (f2 & _ & [= <- <-]).
  apply res_bind_inv in E as (f3 & _ & E). apply res_bind_inv in E as (f4 & _ & E).
  apply res_bind_inv in E as (f5 & _ & E). by rewrite (prepareWrite_state _ _ _ E).
Qed.

Lemma Flush_loop_state l : forall s s' r, Flush_loop fuel s l = Ret (s', r) -> state s' = state s.
Proof.
  induction l as [|f l IH]; intros s s' r; cbn [Flush_loop]; [by intros [= <- _]|].
  intros E. apply res_bind_inv in E as ([s2 [n e2]] & E2 & E).
  assert (state s2 = state s) as Hs2.
  { unfold with_codecConn in E2. destruct (codecConn s) as [[c t]|]; [|done].
    by apply res_bind_inv in E2 as ([conn x] & _ & [= <- _]). }
  destruct e2; [by injection E as <- _|].
  apply res_bind_inv in E as (s3 & E3 & E). rewrite (IH _ _ _ E), <-Hs2.
  unfold releaseFrame in E3. by apply res_bind_inv in E3 as (g & _ & [= <-]).
Qed.

Lemma Flush_state s s' e : Flush fuel s = Ret (s', e) -> state s' = state s.
Proof.
  unfold Flush. intros E. apply res_bind_inv in E as ([s1 [fs e1]] & E & [= <- _]).
  exact (Flush_loop_state _ _ _ _ E).
Qed.

Lemma Close_moves s s' e cc reason :
  Stream_Close genMask fuel s cc reason = Ret (s', e) -> rtc moves (state s) (state s').
Proof.
  unfold Stream_Close. destruct (state s) eqn:Es; intros E;
    try (injection E as <- _; rewrite Es; constructor).
  apply res_bind_inv in E as (s1 & E1 & E). rewrite (Flush_state _ _ _ E).
  unfold prepareClose in E1. rewrite (queueFrame_state _ _ _ _ E1). simpl.
  apply rtc_once. constructor.
Qed.

Lemma handleControlFrame_moves s s' f e :
  handleControlFrame genMask s f = Ret (s', e) ->
  rtc moves (state s) (state s') /\ (e <> None -> state s' = state s).
Proof.
  unfold handleControlFrame. intros E. apply res_bind_inv in E as (fin & _ & E).
  destruct (negb fin); [injection E as <- _; by split|].
  apply res_bind_inv in E as (n & _ & E). case_decide; [injection E as <- _; by split|].
  apply res_bind_inv in E as (op & _ & E). case_decide.
  { case_decide; [|injection E as <- _; by split]. apply res_bind_inv in E as (p & _ & E).
    apply res_bind_inv in E as (s1 & Eq & [= <- _]). by rewrite (queueFrame_state _ _ _ _ Eq). }
  case_decide; [injection E as <- _; by split|]. case_decide; [|injection E as <- _; by split].
  destruct (state s) eqn:Es; try done; try (injection E as <- _; rewrite Es; by split).
  - apply res_bind_inv in E as (p & _ & E). apply res_bind_inv in E as (r & _ & E).
    apply res_bind_inv in E as (s1 & Eq & [= <- <-]). unfold prepareClose in Eq.
    rewrite (queueFrame_state _ _ _ _ Eq). split; [apply rtc_once; constructor|done].
  - injection E as <- <-. split; [apply rtc_once; constructor|done].
Qed.

Lemma handleFrame_moves s s' f e :
  canRead s = true -> handleFrame genMask s f = Ret (s', e) ->
  rtc moves (state s) (state s') /\ (e <> None -> state s' = StateClosedByUs).
Proof.
  unfold handleFrame. intros Hr E. apply res_bind_inv in E as (v & _ & E).
  apply res_bind_inv in E as ([s1 e1] & E1 & E).
  assert (rtc moves (state s) (state s1) /\ (e1 <> None -> state s1 = state s)) as [Hm He].
  { destruct v as [v|]; [by injection E1 as <- <-; split|].
    apply res_bind_inv in E1 as (op & _ & E1). destruct (IsControl op).
    - by apply handleControlFrame_moves in E1.
    - apply res_bind_inv in E1 as (x & _ & [= <- _]). by split. }
  destruct e1 as [e1|]; [|by injection E as <- <-].
  apply res_bind_inv in E as (s2 & E2 & [= <- <-]). unfold prepareClose in E2.
  rewrite (queueFrame_state _ _ _ _ E2). simpl. split; [|done].
  unfold canRead in Hr. destruct (state s); try done.
  apply rtc_once. constructor.
Qed.

Lemma canRead_state s : canRead s = true -> state s = StateActive \/ state s = StateClosedByUs.
Proof. unfold canRead. destruct (state s); by auto. Qed.

Lemma nextFrame_moves s s' f e :
  canRead s = true -> nextFrame genMask fuel s = Ret (s', (f, e)) ->
  rtc moves (state s) (state s')
  /\ (e = Some EOF -> state s' = StateTerminated \/ state s' = StateClosedByUs).
Proof.
  unfold nextFrame. intros Hr E. apply res_bind_inv in E as ([s1 [g e1]] & E1 & E).
  assert (state s1 = state s) as Hs1.
  { unfold with_codecConn in E1. destruct (codecConn s) as [[c t]|]; [|done].
    by apply res_bind_inv in E1 as ([conn x] & _ & [= <- _]). }
  pose proof (canRead_state s Hr) as Hst.
  apply res_bind_inv in E as ([s2 f2] & E2 & E). destruct e1 as [e1|].
  - injection E as <- _ <-. case_decide as Hd.
    + apply res_bind_inv in E2 as (h & _ & [= <- _]). split; [|by left].
      by apply rtc_once, terminated.
    + injection E2 as <- _. rewrite Hs1 in *. split; [done|]. intros [= ->].
      destruct Hd. split; [by destruct Hst as [-> | ->]|done].
  - rewrite decide_False in E2 by (by intros [_ ?]). injection E2 as <- <-.
    destruct g as [g|]; [|done]. apply res_bind_inv in E as ([s3 e3] & E3 & [= <- _ <-]).
    apply handleFrame_moves in E3 as [Hm He]; [|unfold canRead; by rewrite Hs1].
    rewrite Hs1 in Hm. split; [done|]. intros ->. right. by apply He.
Qed.

Lemma NextFrame_moves s s' r : NextFrame genMask fuel s = Ret (s', r) -> rtc moves (state s) (state s').
Proof.
  unfold NextFrame. intros E. apply res_bind_inv in E as ([s1 e1] & E1 & E).
  rewrite <-(Flush_state _ _ _ E1). case_decide.
  { apply res_bind_inv in E as ([s2 e2] & E2 & [= <- _]). by apply Close_moves in E2. }
  destruct e1; [by injection E as <- _|]. destruct (canRead s1) eqn:Hr; [|by injection E as <- _].
  apply res_bind_inv in E as ([s2 [f e]] & E2 & [= <- _]).
  apply nextFrame_moves in E2 as [Hm He]; [|done]. case_decide as Hd; [|done]. simpl.
  etransitivity; [exact Hm|]. destruct (He Hd) as [-> | ->]; [done|].
  apply rtc_once, terminated. by right.
Qed.

Lemma NextMessage_moves rounds : forall s s' b b' n cont mt r,
  NextMessage_loop genMask fuel rounds s b n cont mt = Ret (s', b', r) ->
  rtc moves (state s) (state s').
Proof.
  induction rounds as [|rounds IH]; intros s s' b b' n cont mt r; [done|]. cbn [NextMessage_loop].
  intros E. apply res_bind_inv in E as ([s1 [f e]] & E1 & E). apply NextFrame_moves in E1.
  etransitivity; [exact E1|]. destruct e; [by injection E as <- _ _|]. destruct f as [f|]; [|done].
  apply res_bind_inv in E as (op & _ & E). destruct (IsControl op).
  { apply res_bind_inv in E as (p & _ & E). by apply IH in E. }
  apply res_bind_inv in E as (p & _ & E). apply res_bind_inv in E as (len & _ & E). case_decide.
  { apply res_bind_inv in E as ([s2 e2] & E2 & [= <- _ _]). by apply Close_moves in E2. }
  apply res_bind_inv in E as (fin & _ & E).
  destruct cont, (IsContinuation op); try (by injection E as <- _ _);
    (destruct fin; [by injection E as <- _ _|by apply IH in E]).
Qed.

Lemma apply_op_moves s op s' : apply_op s op = Ret s' -> rtc moves (state s) (state s').
Proof.
  destruct op; unfold apply_op; intros E; apply res_bind_inv in E as ([s1 r] & E & Er).
  - injection Er as <-. by rewrite (Flush_state _ _ _ E).
  - injection Er as <-. unfold Stream_Write in E. case_decide; [by injection E as <- _|].
    case_decide; [|by injection E as <- _]. apply res_bind_inv in E as (s2 & E2 & E).
    by rewrite (Flush_state _ _ _ E), (queueFrame_state _ _ _ _ E2).
  - injection Er as <-. unfold WriteFrame in E. case_decide; apply res_bind_inv in E as (s2 & E2 & E).
    + by rewrite (Flush_state _ _ _ E), (prepareWrite_state _ _ _ E2).
    + injection E as <- _. unfold releaseFrame in E2. by apply res_bind_inv in E2 as (g & _ & [= <-]).
  - injection Er as <-. by apply Close_moves in E.
  - injection Er as <-. by apply NextFrame_moves in E.
  - destruct s1 as [s1 b1]. injection Er as <-. by apply NextMessage_moves in E.
Qed.
End progress.

(** * Sequences of calls *)

Section scenarios.
Context {P T : Type} `{GoRuntime} `{FramePool P} `{Duplex T} `{!WriterLaws T}.
Context (genMask : nat -> list byte) (fuel : nat).
Context (genMask_len : forall n, length (genMask n) = 4%nat).
Implicit Types (s : Stream P T).

Lemma live_sent s c t bs s' t' :
  live s c t [] bs -> stream_inv s' c t' [] -> src s' = src s -> pend t' = pend t ->
  live s' c t' [] bs.
Proof.
  intros [_ (U & Hu & HU)] Hi Hs Hp. split; [done|]. exists U. simpl in *. by rewrite Hs, Hp.
Qed.

(** The close frame of [Stream_Close], sent at once. *)
Lemma Close_sends `{!ReliableWriter T} s c t bs cc reason :
  live s c t [] bs -> state s = StateActive -> zlen reason <= 123 -> (139 <= fuel)%nat ->
  exists s' t' k, Stream_Close genMask fuel s cc reason = Ret (s', None)
    /\ length k = 4%nat /\ state s' = StateClosedByUs /\ same_config s s' /\ live s' c t' [] bs
    /\ wlog t' = wlog t ++ wire_bytes (out_wire (role s) k OpcodeClose (EncodeCloseFramePayload cc reason))
    /\ pend t' = pend t.
Proof.
  intros Hl Hst Hr Hf. unfold Stream_Close, prepareClose. rewrite Hst.
  assert (zlen (EncodeCloseFramePayload cc reason) = 2 + zlen reason) as Hlen.
  { unfold EncodeCloseFramePayload, EncodeCloseCode. rewrite length_app, length_be_encode. lia. }
  destruct (send_one genMask fuel genMask_len (set_state s StateClosedByUs) c t OpcodeClose
    (EncodeCloseFramePayload cc reason)) as
    (s' & t' & e & x & k & E & Hk & _ & _ & Hst' & Hsrc & Hcfg & Hpd & Hrel & Hlog & _ & He);
    [apply Hl|lia|lia|lia|].
  rewrite (Hrel _) in *. destruct (He eq_refl) as [-> Hi]. exists s', t', k. rewrite E.
  split_and!; try done. by apply (live_sent s c t).
Qed.

Lemma cannot_read s c t bs :
  live s c t [] bs -> terminal (state s) ->
  exists s', NextFrame genMask fuel s = Ret (s', (None, Some EOF)) /\ state s' = state s
    /\ live s' c t [] bs.
Proof.
  intros [Hi Hh] Hst. pose proof Hi as (Hc & Hd & Hq & Hp). apply Forall2_nil_inv_r in Hq.
  unfold NextFrame, Flush. rewrite Hq. cbn [Flush_loop]. res_step.
  rewrite (decide_False (P := None = _)) by done.
  assert (canRead (set_pending s []) = false) as ->.
  { unfold canRead. simpl. by destruct Hst as [-> | [-> | ->]]. }
  by exists (set_pending s []).
Qed.

Lemma not_active_rejects s b typ :
  state s <> StateActive ->
  Stream_Write genMask fuel s b typ
  = Ret (s, Some (if decide (zlen b > maxMessageSize s) then ErrMessageTooBig else ErrCancelled)).
Proof. intros Hst. unfold Stream_Write. case_decide; [done|]. by rewrite decide_False. Qed.

(** Whatever is to be written is refused, and nothing of the stream changes but the pool
    that a refused frame goes back to. *)
Definition refuses s : Prop :=
  (forall b typ, Stream_Write genMask fuel s b typ
     = Ret (s, Some (if decide (zlen b > maxMessageSize s) then ErrMessageTooBig else ErrCancelled)))
  /\ (forall f w, queued f w -> exists p, WriteFrame genMask fuel s f = Ret (set_pool s p, Some ErrCancelled))
  /\ (forall cc reason, exists e, Stream_Close genMask fuel s cc reason = Ret (s, Some e)).

Lemma closed_refuses s : state s <> StateActive -> pool_ok (framePool s) -> refuses s.
Proof.
  intros Hst Hp. split_and!.
  - intros b typ. by apply not_active_rejects.
  - intros f w Hq. unfold WriteFrame. rewrite decide_False by done.
    destruct (releaseFrame_ok s f w Hq Hp) as (p & -> & _). by exists p.
  - intros cc reason. unfold Stream_Close. destruct (state s); eauto; done.
Qed.

(** [n] calls of [NextFrame], up to the first error. *)
Fixpoint read_frames (n : nat) s : res (Stream P T * list Frame) :=
  match n with
  | O => Ret (s, [])
  | S n' =>
      '(s, (f, err)) ← NextFrame genMask fuel s;
      match err, f with
      | None, Some f => '(s, fs) ← read_frames n' s; Ret (s, f :: fs)
      | _, _ => Ret (s, [])
      end
  end.

Definition frame_holds (f : Frame) (w : wire) : Prop := elems f = wire_bytes w.

(** Reading goes on after our close frame, and nothing is answered any more. *)
Lemma reads_on `{!ReliableWriter T} ws : forall s c t rest,
  live s c t [] (concat (wire_bytes <$> ws) ++ rest) -> state s = StateClosedByUs ->
  Forall (before_close (role s) (validateUTF8 s)) ws ->
  Forall (fun w => zlen (w_payload w) <= WebsocketCodec.maxMessageSize c) ws ->
  (length (pend t) < fuel)%nat ->
  exists s' c' t' fs,
    (forall n, read_frames (length ws + n) s = ('(s, gs) ← read_frames n s'; Ret (s, fs ++ gs)))
    /\ Forall2 frame_holds fs ws
    /\ state s' = StateClosedByUs /\ same_config s s' /\ live s' c' t' [] rest /\ wlog t' = wlog t
    /\ (length (pend t') <= length (pend t))%nat
    /\ WebsocketCodec.maxMessageSize c' = WebsocketCodec.maxMessageSize c.
Proof.
  induction ws as [|w ws IH]; intros s c t rest Hl Hst Hb Hm Hf.
  { exists s, c, t, []. split_and!; try done. intros n. simpl. by destruct (read_frames n s) as [[]| |]. }
  apply list.Forall_cons in Hb as [Hw Hb]. apply list.Forall_cons in Hm as [Hmw Hm].
  rewrite fmap_cons in Hl. cbn [concat] in Hl. rewrite <-app_assoc in Hl.
  destruct (NextFrame_ok genMask fuel genMask_len s c t [] w _ Hl) as
    (s1 & c1 & t1 & f & out & E1 & [_ Hfr] & Hst1 & Hcfg & Hans & Hl1 & Hlog & Hpd & Hmc);
    [constructor|by eapply before_close_ok|done|unfold canRead; by rewrite Hst|done|].
  rewrite Hst, (react_before_close w Hw) in *. cbn [fst snd answers] in *. subst out.
  pose proof Hcfg as (Hro & Hmx & Hv & Hcc & Hcl).
  destruct (IH s1 c1 t1 rest Hl1 Hst1) as (s2 & c2 & t2 & fs & E2 & Hfs & Hst2 & Hcfg2 & Hl2 & Hlog2 & Hpd2 & Hmc2);
    [by rewrite Hro, Hv|by rewrite Hmc|lia|].
  exists s2, c2, t2, (f :: fs).
  assert (forall n, read_frames (length (w :: ws) + n) s = ('(s, gs) ← read_frames n s2; Ret (s, (f :: fs) ++ gs))) as E12.
  { intros n. cbn [length Nat.add read_frames]. rewrite E1. res_step. rewrite E2.
    by destruct (read_frames n s2) as [[]| |]. }
  destruct Hcfg2 as (? & ? & ? & ? & ?).
  split_and!; [done|by constructor|done|split_and!; congruence|done| |lia|congruence].
  rewrite Hlog2, Hlog. apply app_nil_r.
Qed.

(** Our close frame, what the peer still sends, and its close frame. *)
Lemma closed_by_us_scenario `{!ReliableWriter T} s c t ws w rest cc reason :
  live s c t [] (concat (wire_bytes <$> ws) ++ wire_bytes w ++ rest) -> state s = StateActive ->
  Forall (before_close (role s) (validateUTF8 s)) ws ->
  Forall (fun w => zlen (w_payload w) <= WebsocketCodec.maxMessageSize c) ws ->
  control_frame (role s) OpcodeClose w ->
  125 <= WebsocketCodec.maxMessageSize c -> zlen reason <= 123 ->
  (length (pend t) < fuel)%nat -> (139 <= fuel)%nat ->
  exists s1 t1 k s2 t2 fs s3,
    Stream_Close genMask fuel s cc reason = Ret (s1, None) /\ Stream_NextLayer s1 = Some t1
    /\ wlog t1 = wlog t ++ wire_bytes (out_wire (role s) k OpcodeClose (EncodeCloseFramePayload cc reason))
    /\ state s1 = StateClosedByUs /\ refuses s1
    /\ read_frames (S (length ws)) s1 = Ret (s2, fs) /\ Forall2 frame_holds fs (ws ++ [w])
    /\ state s2 = StateCloseAcked /\ Stream_NextLayer s2 = Some t2 /\ wlog t2 = wlog t1 /\ refuses s2
    /\ NextFrame genMask fuel s2 = Ret (s3, (None, Some EOF)).
Proof.
  intros Hl Hst Hb Hbm Hw Hmax Hr Hf Hf'. pose proof Hw as [((Hok & _) & _) Hp].
  destruct (Close_sends s c t _ cc reason Hl Hst Hr Hf')
    as (s1 & t1 & k & E1 & Hk & Hst1 & (Hro1 & Hm1 & Hv1 & _) & Hl1 & Hlog & Hpd).
  destruct (reads_on ws s1 c t1 (wire_bytes w ++ rest) Hl1 Hst1)
    as (s2 & c2 & t2 & fs & E2 & Hfs & Hst2 & (Hro2 & Hm2 & Hv2 & _) & Hl2 & Hlog2 & Hpd2 & Hmc);
    [by rewrite Hro1, Hv1|done|by rewrite Hpd|].
  destruct (NextFrame_ok genMask fuel genMask_len s2 c2 t2 [] w rest Hl2) as
    (s3 & c3 & t3 & f & out & E3 & [_ Hfr] & Hst3 & _ & Hans & Hl3 & Hlog3 & _);
    [constructor|done|lia|unfold canRead; by rewrite Hst2|rewrite Hpd in Hpd2; lia|].
  rewrite Hst2, Hro2, Hro1, (proj1 (react_close w Hw)) in *. cbn [fst snd answers] in *. subst out.
  destruct (cannot_read s3 c3 t3 rest Hl3) as (s4 & E4 & _); [rewrite Hst3; unfold terminal; tauto|].
  assert (read_frames (S (length ws)) s1 = Ret (s3, fs ++ [f])) as E23.
  { replace (S (length ws)) with (length ws + 1)%nat by lia. rewrite E2. cbn [read_frames]. by rewrite E3. }
  exists s1, t1, k, s3, t3, (fs ++ [f]), s4.
  assert (forall s c t ws bs, live s c t ws bs -> Stream_NextLayer s = Some t /\ pool_ok (framePool s)) as Hlive.
  { clear. intros s c t ws bs [(Hc & _ & _ & Hp) _]. unfold Stream_NextLayer. by rewrite Hc. }
  split_and!; try done.
  - by eapply Hlive.
  - apply closed_refuses; [by rewrite Hst1|by eapply Hlive].
  - apply Forall2_app; [done|]. by repeat constructor.
  - by eapply Hlive.
  - rewrite Hlog3, Hlog2. apply app_nil_r.
  - apply closed_refuses; [by rewrite Hst3|by eapply Hlive].
Qed.

(** The peer's close frame, then our answer. *)
Lemma closed_by_peer_scenario `{!ReliableWriter T} s c t w rest :
  live s c t [] (wire_bytes w ++ rest) -> state s = StateActive -> control_frame (role s) OpcodeClose w ->
  125 <= WebsocketCodec.maxMessageSize c -> (length (pend t) < fuel)%nat -> (139 <= fuel)%nat ->
  exists s1 f s2 t2 k,
    NextFrame genMask fuel s = Ret (s1, (Some f, None)) /\ frame_holds f w
    /\ state s1 = StateClosedByPeer /\ refuses s1
    /\ NextFrame genMask fuel s1 = Ret (s2, (None, Some EOF)) /\ Stream_NextLayer s2 = Some t2
    /\ wlog t2 = wlog t ++ wire_bytes (out_wire (role s) k OpcodeClose (echo_close (w_payload w)))
    /\ state s2 = StateClosedByPeer /\ refuses s2.
Proof.
  intros Hl Hst Hw Hmax Hf Hf'. pose proof Hw as [((Hok & _) & _) Hp].
  destruct (NextFrame_ok genMask fuel genMask_len s c t [] w rest Hl) as
    (s1 & c1 & t1 & f & ws & E1 & [_ Hfr] & Hst1 & Hcfg & Hans & [Hi1 _] & Hlog & _);
    [constructor|done|lia|unfold canRead; by rewrite Hst|done|].
  rewrite Hst, (proj2 (react_close w Hw)) in *. cbn [fst snd answers] in *.
  destruct Hans as (k & Hk & ->). change (concat (wire_bytes <$> [])) with ([] : list byte) in Hlog.
  rewrite app_nil_r in Hlog.
  destruct (Flush_ok fuel s1 c1 t1 _ Hi1) as (t2 & d & p & rest' & e & x & E2 & Hlog2 & _ & _ & Hp2 & He & Hrel).
  { constructor; [|constructor]. pose proof (zlen_echo_close (w_payload w) Hp).
    pose proof (length_out_wire (role s) k OpcodeClose (echo_close (w_payload w)) Hk). lia. }
  rewrite (Hrel _) in *. destruct (He eq_refl) as (-> & -> & _).
  exists s1, f, (set_pending (flushed_to s1 c1 t2 d p) []), t2, k. split_and!; try done.
  - apply closed_refuses; [by rewrite Hst1|apply Hi1].
  - unfold NextFrame. rewrite E2. res_step. rewrite (decide_False (P := None = _)) by done.
    unfold canRead. simpl. by rewrite Hst1.
  - rewrite Hlog2, Hlog, fmap_cons, fmap_nil. cbn [concat]. by rewrite app_nil_r.
  - apply closed_refuses; [simpl; by rewrite Hst1|exact Hp2].
Qed.
End scenarios.

(** * A flush that fails *)

Section failed_flush.
Context {P T : Type} `{GoRuntime} `{FramePool P} `{WriterLaws T} `{!WriterLog T}.
Context (fuel : nat).
Implicit Types (s : Stream P T).

(** [Flush] of a single pending frame when [R] is left in the write buffer. *)
Lemma Flush_single s c t f w S R F o s' e :
  codecConn s = Some (c, t) -> dst s = bb S R [] F o -> bounded S R [] F ->
  zlen S + zlen R <= 2 ^ 59 -> pendingFrames s = [f] -> queued f w -> pool_ok (framePool s) ->
  zlen (R ++ wire_bytes w) <= Z.of_nat fuel ->
  Flush fuel s = Ret (s', e) ->
  exists t' k x F', codecConn s' = Some (c, t') /\ 0 <= k <= zlen (R ++ wire_bytes w)
    /\ dst s' = bb S (zdrop k (R ++ wire_bytes w)) [] F' o
    /\ bounded S (zdrop k (R ++ wire_bytes w)) [] F'
    /\ wlog t' = wlog t ++ ztake k (R ++ wire_bytes w) ++ x
    /\ (e = None -> k = zlen (R ++ wire_bytes w) /\ x = [])
    /\ (e <> None -> pendingFrames s' = [f] /\ framePool s' = framePool s).
Proof.
  intros Hc Hd Hb HR Hpf Hq Hp Hf. unfold Flush. rewrite Hpf. cbn [Flush_loop].
  unfold with_codecConn. rewrite Hc.
  destruct (WriteNext_leftover (mkCodecConn t c (src s) (dst s)) f w fuel S R F o Hd Hb HR (proj1 Hq) Hf)
    as (t' & k & e' & x & F' & -> & Hb' & Hlog & Hx & Hk & He). res_step.
  destruct e' as [e'|].
  - intros [= <- <-]. by exists t', k, x, F'.
  - intros E. destruct (releaseFrame_ok (set_conn s (mkCodecConn t' c (src s)
      (bb S (zdrop k (R ++ wire_bytes w)) [] F' o))) f w Hq Hp) as (p & Er & _).
    cbn [Codec.codec Codec.src Codec.dst Codec.stream] in *. rewrite Er in E.
    cbn [mbind res_bind] in E. injection E as <- <-. by exists t', k, x, F'.
Qed.
End failed_flush.

(** * A transport for the witnesses *)

(** A connection with scripted input that takes at most three bytes per [Write]. *)
Record PairConn : Type := mkPair { rx : ChunkReader; tx : list byte }.

#[export] Instance pair_reader : Reader PairConn := fun c p =>
  '(r, x) ← io_read (rx c) p; Ret (mkPair r (tx c), x).

#[export] Instance pair_writer : Writer PairConn := fun c p =>
  let n := Z.min (zlen p) 3 in Ret (mkPair (rx c) (tx c ++ ztake n p), (n, None)).

#[export] Instance pair_stream : ReaderStream PairConn.
Proof.
  refine {| pend := fun c => pend (rx c) |}.
  - intros c p Hp Hc. destruct (pend_read (rx c) p Hp Hc) as (r' & n & E & Hrest).
    exists (mkPair r' (tx c)), n. unfold io_read, pair_reader. by rewrite E.
  - intros c p Hc. destruct (pend_eof (rx c) p Hc) as (r' & E & Hrest).
    exists (mkPair r' (tx c)). unfold io_read, pair_reader. by rewrite E.
Defined.

#[export] Instance pair_writer_laws : WriterLaws PairConn.
Proof.
  intros c p. eexists _, _, _. split; [reflexivity|]. split; [lia|].
  intros _ Hp. destruct p; [done|simpl; lia].
Qed.

#[export] Instance pair_writer_log : WriterLog PairConn.
Proof. refine {| wlog := tx |}. by intros c p c' n e [= <- <- _]. Defined.

#[export] Instance pair_duplex : Duplex PairConn.
Proof.
  split.
  - intros t t' p r E. unfold io_read, pair_reader in E.
    by apply res_bind_inv in E as ([r1 x] & _ & [= <- _]).
  - by intros t t' p r [= <- _].
Qed.

#[export] Instance pair_reliable : ReliableWriter PairConn.
Proof. by intros t t' p n e [= _ _ <-]. Qed.

(** A writer that follows a plan: [false] is a failed call, [true] (and every call after
    the end of the plan) takes two bytes. *)
Record PlanWriter : Type := mkPlan { plan : list bool; written : list byte }.

#[export] Instance plan_writer : Writer PlanWriter := fun w p =>
  match plan w with
  | false :: l => Ret (mkPlan l (written w), (0, Some (ErrOther 32)))
  | _ => let n := Z.min (zlen p) 2 in
         Ret (mkPlan (tail (plan w)) (written w ++ ztake n p), (n, None))
  end.

#[export] Instance plan_writer_laws : WriterLaws PlanWriter.
Proof.
  intros w p. unfold io_write, plan_writer. destruct (plan w) as [|[] l];
    eexists _, _, _; (split; [reflexivity|]); (split; [lia|]); try done;
    intros _ Hp; destruct p; [done|simpl; lia|done|simpl; lia].
Qed.

#[export] Instance plan_writer_log : WriterLog PlanWriter.
Proof.
  refine {| wlog := written |}. intros w p w' n e E. unfold io_write, plan_writer in E.
  destruct (plan w) as [|[] l]; simplify_eq; simpl; by rewrite ?app_nil_r.
Defined.

(** * Properties *)

(** C25: [Write] on a connected stream with nothing pending, an empty write buffer and a pool
    of reset frames, for messages of at most 2^47 bytes.  A message over the maximum, and any
    message on a stream that is not active, is refused without any effect.  Otherwise, if the
    frame the pool hands out is long enough for the length field (4 bytes for a message over
    125 bytes, 10 for one over 65535; a new frame is), the transport receives the RFC 6455
    encoding of one unfragmented frame with that type and payload, masked with the key drawn
    when the stream is a client; on an error of the transport a prefix of it.  If the frame
    is not long enough, which a pooled frame that last carried a short message may not be,
    [Write] panics. *)
Theorem stream_write {P T : Type} `{GoRuntime} `{FramePool P} `{Duplex T} `{!WriterLaws T}
    (genMask : nat -> list byte) (fuel : nat) (s : Stream P T) (c : FrameCodec) (t : T)
    (b : list byte) (typ : Z) :
  (forall n, length (genMask n) = 4%nat) -> stream_inv s c t [] -> zlen b <= 2 ^ 47 ->
  zlen b + 14 <= Z.of_nat fuel ->
  if decide (maxMessageSize s < zlen b) then Stream_Write genMask fuel s b typ = Ret (s, Some ErrMessageTooBig)
  else if decide (state s <> StateActive) then Stream_Write genMask fuel s b typ = Ret (s, Some ErrCancelled)
  else if decide (takes_length (next_frame s) (zlen b)) then
    exists s' t' e x k, Stream_Write genMask fuel s b typ = Ret (s', e)
      /\ length k = 4%nat /\ (b <> [] -> k = genMask (drawn s))
      /\ Stream_NextLayer s' = Some t' /\ state s' = StateActive
      /\ wlog t' = wlog t ++ x /\ x `prefix_of` wire_bytes (out_wire (role s) k typ b)
      /\ (e = None -> x = wire_bytes (out_wire (role s) k typ b) /\ stream_inv s' c t' [])
  else Stream_Write genMask fuel s b typ = Panic.
Proof.
  intros Hg Hi Hl Hf. unfold Stream_Write. case_decide as Hb; [by rewrite decide_True by lia|].
  rewrite (decide_False (P := zlen b > _)) by lia. destruct (decide (state s <> StateActive)) as [Hst|Hst].
  { by rewrite decide_False. }
  destruct (decide (state s = StateActive)) as [Ha|]; [|done]. case_decide as Ht.
  - destruct (send_built genMask fuel Hg s c t typ b Hi Hl Ht Hf) as
      (s' & t' & e & x & k & E & Hk & Hk' & Hn & Hst' & _ & _ & _ & _ & Hlog & Hx & He).
    exists s', t', e, x, k. rewrite Hst'. by split_and!.
  - by rewrite queueFrame_short.
Qed.

(** C6: The reaction to a received frame, for both roles: reserved bits, masking against
    the role, fragmented or oversized control frames, reserved opcodes and invalid text
    fail the connection with a 1002 close frame; a ping is answered by a pong with its
    payload; a close frame is answered once and moves the state; nothing else is queued
    and nothing else of the stream changes. *)
Theorem handle_frame_reacts {P T : Type} `{GoRuntime} `{FramePool P} `{Duplex T}
    (genMask : nat -> list byte) (s : Stream P T) (f : Frame) (w : wire) :
  (forall n, length (genMask n) = 4%nat) -> frame_is f w -> wire_ok w -> pool_ok (framePool s) ->
  canRead s = true ->
  exists s', handleFrame genMask s f = Ret (s', snd (react (role s) (validateUTF8 s) (state s) w))
    /\ answered s (fst (fst (react (role s) (validateUTF8 s) (state s) w)))
         (snd (fst (react (role s) (validateUTF8 s) (state s) w))) s'.
Proof. intros Hg. by apply handleFrame_ok. Qed.

(** C2: A stream that calls [NextMessage] gets the payload of the next message whole,
    with its type and length, however the peer fragmented it and the transport cut it, and
    with any pings and pongs between the fragments: each ping has been answered on the
    transport, in order, by a pong with its payload (masked, from a client), the control
    callback has seen every control frame, and the bytes that follow are left for the next
    call.  A server gets the payload as it is on the wire, still masked.  The stream is active
    and does not validate UTF-8 (the default), nothing of earlier writes is left, the
    transport accepts what is written, the message fits the caller's buffer and the maximum
    of the stream, and each frame the maximum of the codec. *)
Theorem next_message_delivers {P T : Type} `{GoRuntime} `{FramePool P} `{Duplex T}
    `{!WriterLaws T} `{!ReliableWriter T} (genMask : nat -> list byte) (fuel rounds : nat)
    {r : Role} (s : Stream P T) (c : FrameCodec) (t : T) (typ : Z) (ws : list wire) (p b rest : list byte) :
  (forall n, length (genMask n) = 4%nat) -> fragments r typ ws p ->
  typ = OpcodeText \/ typ = OpcodeBinary -> live s c t [] (concat (wire_bytes <$> ws) ++ rest) ->
  reading r s -> Forall (fun w => zlen (w_payload w) <= WebsocketCodec.maxMessageSize c) ws ->
  zlen p <= zlen b -> zlen p <= maxMessageSize s ->
  (length ws <= rounds)%nat -> (length (pend t) < fuel)%nat -> (139 <= fuel)%nat ->
  exists s' c' t' pongs,
    NextMessage genMask fuel rounds s b = Ret (s', p ++ zdrop (zlen p) b, (typ, zlen p, None))
    /\ Forall2 (pong_for r) (ping_payloads ws) pongs
    /\ wlog t' = wlog t ++ concat (wire_bytes <$> pongs)
    /\ live s' c' t' [] rest /\ state s' = StateActive
    /\ controlCalls s' = controlCalls s ++ (if controlCallback s then controls ws else []).
Proof.
  intros Hg Hfr Htyp Hl Hrd Hmax Hb Hm Hr Hf Hf'.
  destruct (loop_all genMask fuel Hg _ (NextMessage_reader genMask fuel) typ ws p Hfr rounds s c t [] [] b rest false typ TypeNone)
    as (s' & c' & t' & pongs & E & Hrest);
    [unfold data_opcode; tauto|by destruct Htyp as [-> | ->]|done|done|done|done|constructor|done..|].
  by exists s', c', t', pongs.
Qed.

(** C9: The closing handshake, for both roles, on an active stream over a transport that
    accepts what is written, with nothing left of earlier writes and frames of at most the
    maximum.  Started by us: [Close], with a reason of at most 123 bytes, sends one close
    frame; from then on reading goes on, [NextFrame] returns each frame the peer still sends
    (data, pings and pongs, in any number, which are not answered any more) and then the
    peer's close frame, after which the state is acknowledged and nothing more has been
    written.  Started by the peer: its close frame is returned, and the answer, the same
    payload or a status code that says what was wrong with it, is on the transport after the
    next call of [NextFrame].  In both cases, from the moment the first close frame was sent
    or received, every write of a message or of a frame and every further [Close] is refused
    without any effect on the transport, and at the end reads report [EOF]. *)
Theorem closing_handshake {P T : Type} `{GoRuntime} `{FramePool P} `{Duplex T}
    `{!WriterLaws T} `{!ReliableWriter T} (genMask : nat -> list byte) (fuel : nat)
    (s : Stream P T) (c : FrameCodec) (t : T) (ws : list wire) (w : wire) (rest reason : list byte) (cc : Z) :
  (forall n, length (genMask n) = 4%nat) ->
  live s c t [] (concat (wire_bytes <$> ws) ++ wire_bytes w ++ rest) -> state s = StateActive ->
  Forall (before_close (role s) (validateUTF8 s)) ws ->
  Forall (fun w => zlen (w_payload w) <= WebsocketCodec.maxMessageSize c) ws ->
  control_frame (role s) OpcodeClose w -> 125 <= WebsocketCodec.maxMessageSize c ->
  zlen reason <= 123 -> (length (pend t) < fuel)%nat -> (139 <= fuel)%nat ->
  (exists s1 t1 k s2 t2 fs s3,
     Stream_Close genMask fuel s cc reason = Ret (s1, None) /\ Stream_NextLayer s1 = Some t1
     /\ wlog t1 = wlog t ++ wire_bytes (out_wire (role s) k OpcodeClose (EncodeCloseFramePayload cc reason))
     /\ state s1 = StateClosedByUs /\ refuses genMask fuel s1
     /\ read_frames genMask fuel (S (length ws)) s1 = Ret (s2, fs) /\ Forall2 frame_holds fs (ws ++ [w])
     /\ state s2 = StateCloseAcked /\ Stream_NextLayer s2 = Some t2 /\ wlog t2 = wlog t1
     /\ refuses genMask fuel s2 /\ NextFrame genMask fuel s2 = Ret (s3, (None, Some EOF)))
  /\ (ws = [] -> exists s1 f s2 t2 k,
     NextFrame genMask fuel s = Ret (s1, (Some f, None)) /\ frame_holds f w
     /\ state s1 = StateClosedByPeer /\ refuses genMask fuel s1
     /\ NextFrame genMask fuel s1 = Ret (s2, (None, Some EOF)) /\ Stream_NextLayer s2 = Some t2
     /\ wlog t2 = wlog t ++ wire_bytes (out_wire (role s) k OpcodeClose (echo_close (w_payload w)))
     /\ state s2 = StateClosedByPeer /\ refuses genMask fuel s2).
Proof.
  intros Hg Hl Hst Hb Hbm Hw Hmax Hr Hf Hf'. split.
  - by apply (closed_by_us_scenario genMask fuel Hg s c t ws w rest).
  - intros ->. by apply (closed_by_peer_scenario genMask fuel Hg s c t w rest).
Qed.

(** C40: A failed [Flush] leaves the frame both in the queue and, for the part that was not
    written, in the write buffer: when the next [Flush] succeeds, the transport has been
    given the frame twice, the rest of the first encoding and then the whole frame again;
    [x] is what the failing write put out along with its error, if anything. *)
Theorem failed_flush_repeats {P T : Type} `{GoRuntime} `{FramePool P} `{WriterLaws T}
    `{!WriterLog T} (fuel : nat) (s s1 s2 : Stream P T) (c : FrameCodec) (t t2 : T)
    (f : Frame) (w : wire) (e : error) :
  codecConn s = Some (c, t) -> drained (dst s) -> si (dst s) = 0 -> pendingFrames s = [f] ->
  queued f w -> pool_ok (framePool s) -> 2 * zlen (wire_bytes w) <= Z.of_nat fuel <= 2 ^ 58 ->
  Flush fuel s = Ret (s1, Some e) -> Flush fuel s1 = Ret (s2, None) ->
  Stream_NextLayer s2 = Some t2 ->
  exists k x, 0 <= k <= zlen (wire_bytes w)
    /\ wlog t2 = wlog t ++ ztake k (wire_bytes w) ++ x ++ zdrop k (wire_bytes w) ++ wire_bytes w.
Proof.
  intros Hc (S & F & o & Hd & Hb) HS Hpf Hq Hp Hf E1 E2 Ht. pose proof Hb as [Hb1 _].
  rewrite Hd in HS. cbn [si bb] in HS.
  destruct (Flush_single fuel s c t f w S [] F o s1 (Some e) Hc Hd Hb)
    as (t1 & k & x & F1 & Hc1 & Hk & Hd1 & Hb' & Hlog1 & _ & Hkeep);
    [simpl; lia|done|done|done|cbn [app]; lia|done|].
  destruct (Hkeep ltac:(done)) as [Hpf1 Hp1]. cbn [app] in *.
  destruct (Flush_single fuel s1 c t1 f w S (zdrop k (wire_bytes w)) F1 o s2 None Hc1 Hd1 Hb')
    as (t2' & k2 & x2 & F2 & Hc2 & Hk2 & _ & _ & Hlog2 & He2 & _);
    [llia|done|done|by rewrite Hp1|llia|done|].
  destruct (He2 eq_refl) as [-> ->]. unfold Stream_NextLayer in Ht. rewrite Hc2 in Ht.
  injection Ht as <-. exists k, x. split; [done|]. rewrite Hlog2, Hlog1.
  rewrite (ztake_all (zlen (zdrop k (wire_bytes w) ++ wire_bytes w))) by lia. by rewrite app_nil_r, <-!app_assoc.
Qed.

(** * Witnesses *)

#[local] Existing Instance doubling_runtime.

(** An active client that has received nothing yet; [cs] is what the server sends. *)
Definition client {T} (t : T) (pending : list Frame) : Stream (list Frame) T :=
  mkStream (Some (NewFrameCodec 1024, t)) RoleClient StateActive room room (Slice [] 0) pending []
    1024 false true [] 0%nat.
Definition connected (cs : list (list byte)) : PairConn := mkPair (mkChunks cs) [].
Definition key (n : nat) : list byte := [Byte.x01; Byte.x02; Byte.x03; Byte.x04].

Lemma client_inv {T} (t : T) : stream_inv (client t []) (NewFrameCodec 1024) t [].
Proof.
  split_and!; [done| |constructor|].
  - by exists [], (repeat Byte.x00 16), Byte.x00.
  - intros f Hf. inversion Hf.
Qed.

Lemma client_live cs : live (client (connected cs) []) (NewFrameCodec 1024) (connected cs) [] (concat cs).
Proof.
  split; [apply client_inv|]. exists []. split; [|done]. split_and!; [|done..].
  by exists [], [], [], (repeat Byte.x00 16), Byte.x00.
Qed.

Lemma stream_write_witness :
  exists s' t' e x k, Stream_Write key 20 (client (connected []) []) [Byte.x68; Byte.x69] TypeText
      = Ret (s', e)
    /\ length k = 4%nat /\ (([Byte.x68; Byte.x69] : list byte) <> [] -> k = key 0)
    /\ Stream_NextLayer s' = Some t' /\ state s' = StateActive
    /\ wlog t' = wlog (connected []) ++ x
    /\ x `prefix_of` wire_bytes (out_wire RoleClient k TypeText [Byte.x68; Byte.x69])
    /\ (e = None -> x = wire_bytes (out_wire RoleClient k TypeText [Byte.x68; Byte.x69])
        /\ stream_inv s' (NewFrameCodec 1024) t' []).
Proof.
  apply (stream_write key 20 (client (connected []) []) (NewFrameCodec 1024) (connected [])
    [Byte.x68; Byte.x69] TypeText); try done; apply client_inv.
Defined.

(** A ping with payload, received by an active client. *)
Definition ping_wire : wire := Wire Byte.x89 None [Byte.x2a].

Lemma handle_frame_reacts_witness :
  exists s', handleFrame key (client (connected []) []) (Slice (wire_bytes ping_wire) 3)
      = Ret (s', snd (react RoleClient false StateActive ping_wire))
    /\ answered (client (connected []) []) StateActive (Some (OpcodePong, [Byte.x2a])) s'.
Proof.
  apply (handle_frame_reacts key (client (connected []) []) (Slice (wire_bytes ping_wire) 3) ping_wire).
  - done.
  - by split.
  - by split.
  - apply client_inv.
  - done.
Defined.

(** "hi" in two fragments with a ping in between, and a byte of the next frame. *)
Definition hi_script : list wire :=
  [Wire Byte.x01 None [Byte.x68]; ping_wire; Wire Byte.x80 None [Byte.x69]].
Definition hi_chunks : list (list byte) :=
  [[Byte.x01; Byte.x01; Byte.x68; Byte.x89]; [Byte.x01; Byte.x2a; Byte.x80; Byte.x01; Byte.x69; Byte.x81]].

Lemma hi_fragments : fragments RoleClient OpcodeText hi_script [Byte.x68; Byte.x69].
Proof.
  apply (fragment_more RoleClient OpcodeText (Wire Byte.x01 None [Byte.x68]) _ [Byte.x69]); [by split_and!|].
  apply fragment_ping; [by split; [split_and!|]|]. apply fragment_last. by split_and!.
Qed.

Lemma next_message_delivers_witness :
  exists s' c' t' pongs,
    NextMessage key 200 3 (client (connected hi_chunks) []) (repeat Byte.x00 4)
      = Ret (s', [Byte.x68; Byte.x69] ++ zdrop 2 (repeat Byte.x00 4), (OpcodeText, 2, None))
    /\ Forall2 (pong_for RoleClient) (ping_payloads hi_script) pongs
    /\ wlog t' = wlog (connected hi_chunks) ++ concat (wire_bytes <$> pongs)
    /\ live s' c' t' [] [Byte.x81] /\ state s' = StateActive
    /\ controlCalls s' = [] ++ controls hi_script.
Proof.
  apply (next_message_delivers key 200 3 (client (connected hi_chunks) []) (NewFrameCodec 1024)
    (connected hi_chunks) OpcodeText hi_script [Byte.x68; Byte.x69] (repeat Byte.x00 4) [Byte.x81]).
  - done.
  - apply hi_fragments.
  - by left.
  - apply client_live.
  - done.
  - repeat constructor; vm_compute; done.
  - vm_compute; done.
  - vm_compute; done.
  - simpl; lia.
  - vm_compute; lia.
  - lia.
Defined.

Definition close_wire : wire := Wire Byte.x88 None [Byte.x03; Byte.xe8].

Lemma closing_handshake_witness :
  let t := connected [wire_bytes ping_wire; wire_bytes close_wire] in
  let s := client t [] in
  exists s1 t1 k s2 t2 fs s3,
     Stream_Close key 200 s CloseNormal [] = Ret (s1, None) /\ Stream_NextLayer s1 = Some t1
     /\ wlog t1 = wlog t ++ wire_bytes (out_wire RoleClient k OpcodeClose (EncodeCloseFramePayload CloseNormal []))
     /\ state s1 = StateClosedByUs /\ refuses key 200 s1
     /\ read_frames key 200 2 s1 = Ret (s2, fs) /\ Forall2 frame_holds fs [ping_wire; close_wire]
     /\ state s2 = StateCloseAcked /\ Stream_NextLayer s2 = Some t2 /\ wlog t2 = wlog t1
     /\ refuses key 200 s2 /\ NextFrame key 200 s2 = Ret (s3, (None, Some EOF)).
Proof.
  intros t s. apply (closing_handshake key 200 s (NewFrameCodec 1024) t [ping_wire] close_wire [] [] CloseNormal).
  - done.
  - apply (client_live [wire_bytes ping_wire; wire_bytes close_wire]).
  - done.
  - constructor; [|constructor]. right. left. by split; [split_and!|].
  - repeat constructor; vm_compute; done.
  - by split; [split_and!|].
  - vm_compute; done.
  - vm_compute; done.
  - vm_compute; lia.
  - lia.
Defined.

Lemma failed_flush_repeats_witness :
  let s := client (mkPlan [true; false] []) [hi_frame] in
  exists s1 s2 t2 k x, Flush 20 s = Ret (s1, Some (ErrOther 32)) /\ Flush 20 s1 = Ret (s2, None)
    /\ Stream_NextLayer s2 = Some t2 /\ 0 <= k <= 4
    /\ wlog t2 = [] ++ ztake k (wire_bytes hi_wire) ++ x ++ zdrop k (wire_bytes hi_wire)
         ++ wire_bytes hi_wire.
Proof.
  intros s. destruct (Flush 20 s) as [[s1 [e|]]| |] eqn:E1; [|vm_compute in E1; done..].
  destruct (Flush 20 s1) as [[s2 [e2|]]| |] eqn:E2;
    [vm_compute in E1; injection E1 as <- <-; vm_compute in E2; done
    | |vm_compute in E1; injection E1 as <- <-; vm_compute in E2; done..].
  assert (e = ErrOther 32) as -> by (vm_compute in E1; by injection E1 as _ <-).
  assert (exists t2, Stream_NextLayer s2 = Some t2) as [t2 Ht2].
  { vm_compute in E1. injection E1 as <-. vm_compute in E2. injection E2 as <-. by eexists. }
  destruct (failed_flush_repeats 20 s s1 s2 (NewFrameCodec 1024) (mkPlan [true; false] []) t2 hi_frame
    hi_wire (ErrOther 32)) as (k & x & Hk & Hx).
  - reflexivity.
  - clear E1 E2 Ht2. by exists [], (repeat Byte.x00 16), Byte.x00.
  - reflexivity.
  - reflexivity.
  - clear E1 E2 Ht2. split; [apply hi_sendable|vm_compute; done].
  - intros f Hf. inversion Hf.
  - clear E1 E2 Ht2. vm_compute; done.
  - exact E1.
  - exact E2.
  - exact Ht2.
  - exists s1, s2, t2, k, x. split_and!; [reflexivity|exact E2|exact Ht2|apply Hk|apply Hk|exact Hx].
Defined.
