(* ===== verification/WebsocketAsync.v ===== *)
(** The asynchronous half of [src/codec/websocket/stream.go].

    Callbacks are defunctionalised: a continuation says what the code does when the
    operation it waits for calls back.  [perform] is the body of each function up to its
    calls, [resume] the completion of a pending transport operation; an event loop
    interleaves them.  Reading a message that way is shown to agree with [NextMessage]. *)

From S2P Require Import Prelude GoSlice GoIO ByteBuffer Codec WebsocketFrame WebsocketWire WebsocketCodec CodecRoundTrip WebsocketStream WebsocketStreamSpec WebsocketStreamProps.

(** * Continuations and calls *)

(** What an [AsyncFrameCallback] is: the user's, or the closure of [asyncNextMessage]. *)
Inductive frame_cont : Type :=
| UserFrame
| ForMessage (b : list byte) (readBytes : Z) (continuation : bool) (messageType : Z).

(** What a [func(err error)] is: the user's, the closure of [AsyncNextFrame], or the empty
    one given to [AsyncClose] on a message that is too big. *)
Inductive flush_cont : Type :=
| UserDone
| ThenFrame (k : frame_cont)
| Ignored.

(** Calls still to be made, innermost first. *)
Inductive call : Type :=
| AsyncFlush (k : flush_cont)
| Flushed (err : option error) (k : flush_cont)
| AsyncNextFrame (k : frame_cont)
| asyncNextFrame (k : frame_cont)
| FrameRead (err : option error) (f : option Frame) (k : frame_cont)
| GotFrame (err : option error) (f : option Frame) (k : frame_cont)
| AsyncClose (cc : Z) (reason : list byte) (k : flush_cont)
| AsyncWrite (b : list byte) (messageType : Z) (k : flush_cont)
| AsyncWriteFrame (f : Frame) (k : flush_cont).

(** A transport operation in flight. *)
Inductive pending : Type :=
| Writing (sent : Frame) (k : flush_cont)
| Reading (k : frame_cont).

(** The user's callbacks, as they are invoked. *)
Inductive event : Type :=
| Done (err : option error)
| FrameDone (err : option error) (f : option Frame)
| MessageDone (err : option error) (readBytes : Z) (messageType : Z) (b : list byte).

Record effects : Type := Effects { calls : list call; starts : list pending; events : list event }.

Definition then_calls (l : list call) : effects := Effects l [] [].
Definition then_wait (p : pending) : effects := Effects [] [p] [].
Definition then_event (e : event) : effects := Effects [] [] [e].

Definition AsyncNextMessage (b : list byte) : call := AsyncNextFrame (ForMessage b 0 false TypeNone).

(** * The functions *)

Section async_ops.
Context {P T : Type} `{GoRuntime} `{FramePool P} `{Reader T} `{Writer T}.
Context (genMask : nat -> list byte).
Implicit Types (s : Stream P T).

(** The closure of [asyncNextMessage] on a data frame. *)
Definition message_frame s (f : Frame) (op : Z) (b : list byte) (readBytes : Z)
    (continuation : bool) (messageType : Z) : res (Stream P T * effects) :=
  let messageType := if decide (messageType = TypeNone) then op else messageType in
  payload ← Payload f;
  let n := Z.min (zlen b - readBytes) (slen payload) in
  let b := write_at readBytes (ztake n (elems payload)) b in
  let readBytes := readBytes + n in
  len ← PayloadLength f;
  if decide (readBytes > maxMessageSize s \/ n <> len) then
    Ret (s, Effects [AsyncClose CloseGoingAway too_big Ignored;
                     GotFrame (Some ErrMessageTooBig) None (ForMessage b readBytes continuation messageType)]
              [] [])
  else
    fin ← IsFIN f;
    let err :=
      if continuation then
        if IsContinuation op then None else Some ErrExpectedContinuation
      else if IsContinuation op then Some ErrUnexpectedContinuation else None in
    match err with
    | Some e => Ret (s, then_event (MessageDone (Some e) readBytes messageType b))
    | None =>
        if (fin : bool) then Ret (s, then_event (MessageDone None readBytes messageType b))
        else Ret (s, then_calls [AsyncNextFrame (ForMessage b readBytes true messageType)])
    end.

Definition run_AsyncFlush s (k : flush_cont) : res (Stream P T * effects) :=
  match pendingFrames s with
  | [] => Ret (s, then_calls [Flushed None k])
  | sent :: rest =>
      '(s, r) ← with_codecConn (set_pending s rest) (fun conn => AsyncWriteNext conn sent);
      match r with
      | None => Ret (s, then_wait (Writing sent k))
      | Some (err, _) =>
          s ← releaseFrame s sent;
          Ret (s, then_calls [match err with
                              | Some e => Flushed (Some e) k
                              | None => AsyncFlush k
                              end])
      end
  end.

(** The callback of [AsyncFlush]. *)
Definition run_Flushed s (err : option error) (k : flush_cont) : res (Stream P T * effects) :=
  match k with
  | UserDone => Ret (s, then_event (Done err))
  | Ignored => Ret (s, then_calls [])
  | ThenFrame k =>
      if decide (err = Some ErrMessageTooBig) then
        Ret (s, then_calls [AsyncClose CloseGoingAway too_big Ignored;
                            GotFrame (Some ErrMessageTooBig) None k])
      else
        match (match err with None => if canRead s then None else Some EOF | Some e => Some e end) with
        | None => Ret (s, then_calls [asyncNextFrame k])
        | Some e => Ret (set_state s StateTerminated, then_calls [GotFrame (Some e) None k])
        end
  end.

Definition run_asyncNextFrame s (k : frame_cont) : res (Stream P T * effects) :=
  '(s, r) ← with_codecConn s (fun conn => AsyncReadNext conn);
  match r with
  | None => Ret (s, then_wait (Reading k))
  | Some (err, f) => Ret (s, then_calls [FrameRead err f k])
  end.

(** The callback [asyncNextFrame] gives to [AsyncReadNext]. *)
Definition run_FrameRead s (err : option error) (f : option Frame) (k : frame_cont) :
    res (Stream P T * effects) :=
  match err, f with
  | None, None => Panic
  | None, Some f =>
      '(s, err) ← handleFrame genMask s f;
      Ret (s, then_calls [GotFrame err (Some f) k])
  | Some e, f =>
      if decide (state s <> StateTerminated /\ e = EOF) then
        f ← abnormalClose;
        Ret (set_state s StateTerminated, then_calls [GotFrame (Some e) (Some f) k])
      else Ret (s, then_calls [GotFrame (Some e) f k])
  end.

(** The callback of [AsyncNextFrame]. *)
Definition run_GotFrame s (err : option error) (f : option Frame) (k : frame_cont) :
    res (Stream P T * effects) :=
  match k, err, f with
  | UserFrame, err, f => Ret (s, then_event (FrameDone err f))
  | ForMessage b n _ mt, Some e, _ => Ret (s, then_event (MessageDone (Some e) n mt b))
  | ForMessage _ _ _ _, None, None => Panic
  | ForMessage b n continuation mt, None, Some f =>
      op ← Frame_Opcode f;
      if IsControl op then
        payload ← Payload f;
        Ret (call_control s op (elems payload),
             then_calls [AsyncNextFrame (ForMessage b n continuation mt)])
      else message_frame s f op b n continuation mt
  end.

Definition run_AsyncClose s (cc : Z) (reason : list byte) (k : flush_cont) : res (Stream P T * effects) :=
  match state s with
  | StateActive =>
      s ← prepareClose genMask (set_state s StateClosedByUs) (EncodeCloseFramePayload cc reason);
      Ret (s, then_calls [AsyncFlush k])
  | StateClosedByUs | StateHandshake => Ret (s, then_calls [Flushed (Some ErrCancelled) k])
  | _ => Ret (s, then_calls [Flushed (Some EOF) k])
  end.

Definition run_AsyncWrite s (b : list byte) (messageType : Z) (k : flush_cont) : res (Stream P T * effects) :=
  if decide (zlen b > maxMessageSize s) then
    Ret (s, then_calls [Flushed (Some ErrMessageTooBig) k])
  else if decide (state s = StateActive) then
    s ← queueFrame genMask s messageType b;
    Ret (s, then_calls [AsyncFlush k])
  else Ret (s, then_calls [Flushed (Some ErrCancelled) k]).

Definition run_AsyncWriteFrame s (f : Frame) (k : flush_cont) : res (Stream P T * effects) :=
  if decide (state s = StateActive) then
    s ← prepareWrite genMask s f;
    Ret (s, then_calls [AsyncFlush k])
  else
    s ← releaseFrame s f;
    Ret (s, then_calls [Flushed (Some ErrCancelled) k]).

Definition perform s (c : call) : res (Stream P T * effects) :=
  match c with
  | AsyncFlush k => run_AsyncFlush s k
  | Flushed err k => run_Flushed s err k
  | AsyncNextFrame k => Ret (s, then_calls [AsyncFlush (ThenFrame k)])
  | asyncNextFrame k => run_asyncNextFrame s k
  | FrameRead err f k => run_FrameRead s err f k
  | GotFrame err f k => run_GotFrame s err f k
  | AsyncClose cc reason k => run_AsyncClose s cc reason k
  | AsyncWrite b messageType k => run_AsyncWrite s b messageType k
  | AsyncWriteFrame f k => run_AsyncWriteFrame s f k
  end.

(** The callback of the transport's [AsyncWriteAll], with its outcome. *)
Definition resume_write s (sent : Frame) (k : flush_cont) (outcome : option error * Z) :
    res (Stream P T * effects) :=
  '(s, (err, _)) ← with_codecConn s (fun conn => AsyncWriteNext_resume conn (fun _ => outcome));
  s ← releaseFrame s sent;
  Ret (s, then_calls [match err with Some e => Flushed (Some e) k | None => AsyncFlush k end]).

(** The callback of the transport's [AsyncRead], with what it made of the slice. *)
Definition resume_read s (k : frame_cont) (outcome : list byte * Z * option error) :
    res (Stream P T * effects) :=
  '(s, r) ← with_codecConn s (fun conn => AsyncReadNext_resume conn (fun _ => outcome));
  match r with
  | None => Ret (s, then_wait (Reading k))
  | Some (err, f) => Ret (s, then_calls [FrameRead err f k])
  end.

(** [AsyncHandshake]: the goroutine's result reaches the loop through [ioc.Post]. *)
Definition AsyncHandshake s : res (Stream P T * option error) :=
  if decide (role s <> RoleClient) then Ret (s, Some ErrWrongHandshakeRole)
  else s ← Stream_reset s; Ret (s, None).

Definition AsyncHandshake_posted s (outcome : error + T) : Stream P T * option error :=
  Handshake_done s outcome.
End async_ops.

(** * The event loop *)

Section event_loop.
Context {P T : Type} `{GoRuntime} `{FramePool P} `{Reader T} `{Writer T}.
Context (genMask : nat -> list byte) (fuel : nat).
Implicit Types (s : Stream P T).

(** [stack]: the calls being made, innermost first; [waiting]: transport operations in
    flight, oldest first; [log]: the user's callbacks invoked so far. *)
Record config : Type := Config {
  strm : Stream P T;
  stack : list call;
  waiting : list pending;
  log : list event
}.

Definition after (c : config) (rest : list call) (w : list pending) (r : Stream P T * effects) : config :=
  Config (fst r) (calls (snd r) ++ rest) (w ++ starts (snd r)) (log c ++ events (snd r)).

(** The transport completes an [AsyncWriteAll] by writing until everything is written or a
    [Write] fails, an [AsyncRead] by one [Read]. *)
Definition set_transport s (t : T) : Stream P T :=
  match codecConn s with
  | Some (c, _) => set_conn s (mkCodecConn t c (src s) (dst s))
  | None => s
  end.

Definition complete s (p : pending) : res (Stream P T * effects) :=
  match codecConn s with
  | None => Panic
  | Some (c, t) =>
      match p with
      | Writing sent k =>
          '(t, (n, err)) ← WriteTo_loop fuel (dst s) t 0;
          resume_write (set_transport s t) sent k (err, n)
      | Reading k =>
          b ← reslice (data (src s)) (wi (src s)) (scap (data (src s)));
          '(t, outcome) ← io_read t (elems b);
          resume_read (set_transport s t) k outcome
      end
  end.

Definition step (c : config) : res config :=
  match stack c with
  | call :: rest => r ← perform genMask (strm c) call; Ret (after c rest (waiting c) r)
  | [] =>
      match waiting c with
      | p :: w => r ← complete (strm c) p; Ret (after c [] w r)
      | [] => Ret c
      end
  end.

Fixpoint steps (n : nat) (c : config) : res config :=
  match n with
  | O => Ret c
  | S n' => c ← step c; steps n' c
  end.

Definition reaches (c c' : config) : Prop := exists n, steps n c = Ret c'.

Lemma reaches_refl c : reaches c c.
Proof. by exists 0%nat. Qed.

Lemma reaches_step c c1 c' : step c = Ret c1 -> reaches c1 c' -> reaches c c'.
Proof. intros E [n En]. exists (S n). cbn [steps]. by rewrite E. Qed.

Lemma reaches_trans c1 c2 c3 : reaches c1 c2 -> reaches c2 c3 -> reaches c1 c3.
Proof.
  intros [n En]. revert c1 En. induction n as [|n IH]; intros c1; cbn [steps].
  - by intros [= ->].
  - intros E H23. apply res_bind_inv in E as (c & E & En). by eapply reaches_step; [exact E|apply IH].
Qed.

Lemma step_call s call rest w l r :
  perform genMask s call = Ret r ->
  step (Config s (call :: rest) w l)
  = Ret (Config (fst r) (calls (snd r) ++ rest) (w ++ starts (snd r)) (l ++ events (snd r))).
Proof. intros E. unfold step. cbn [stack strm]. rewrite E. done. Qed.

Lemma step_complete s p w l r :
  complete s p = Ret r ->
  step (Config s [] (p :: w) l)
  = Ret (Config (fst r) (calls (snd r)) (w ++ starts (snd r)) (l ++ events (snd r))).
Proof.
  intros E. unfold step. cbn [stack strm waiting]. rewrite E. res_step. unfold after.
  cbn [log]. by rewrite app_nil_r.
Qed.

(** A call that only makes further calls. *)
Lemma reaches_calls s s' call l cs c' :
  perform genMask s call = Ret (s', then_calls cs) -> reaches (Config s' cs [] l) c' ->
  reaches (Config s [call] [] l) c'.
Proof.
  intros E Hr. eapply reaches_step; [by apply step_call|]. simpl. by rewrite !app_nil_r.
Qed.

(** ** Flushing *)

Lemma set_conn_id s c t : codecConn s = Some (c, t) -> set_conn s (mkCodecConn t c (src s) (dst s)) = s.
Proof. intros E. destruct s. simpl in *. by subst. Qed.
End event_loop.
Arguments config : clear implicits.
Arguments Config {P T}.

Section agreement.
Context {P T : Type} `{GoRuntime} `{FramePool P} `{Duplex T} `{!WriterLaws T}.
Context (genMask : nat -> list byte) (fuel : nat).
Context (genMask_len : forall n, length (genMask n) = 4%nat).
Implicit Types (s : Stream P T).

(** One frame: [WriteNext] against the pair of [AsyncWriteNext] and its completion. *)
Lemma async_write_one s c t f w k rest l conn n :
  codecConn s = Some (c, t) -> drained (dst s) -> queued f w ->
  WriteNext fuel (mkCodecConn t c (src s) (dst s)) f = Ret (conn, (n, None)) ->
  exists g, Frame_Reset f = Ret g
    /\ reaches genMask fuel (Config (set_pending s (f :: rest)) [AsyncFlush k] [] l)
         (Config (set_pending (set_pool (set_conn s conn) (pool_put (framePool s) g)) rest)
            [AsyncFlush k] [] l).
Proof.
  intros Hc (S & F & o & Hd & Hb) Hq E. destruct (queued_reset f w Hq) as (g & Eg & _).
  exists g. split; [done|]. destruct Hq as [(Hf & Hok & Hn) _]. pose proof Hb as [Hb1 _].
  destruct (Encode_bb f w S [] F o Hf Hok Hn Hb) as (F1 & Ee & _); [simpl; lia|].
  unfold WriteNext in E. simpl codec_encode in E. rewrite Hd, Ee in E. cbn [mbind res_bind] in E.
  cbn [Codec.dst Codec.stream Codec.codec Codec.src] in E.
  apply res_bind_inv in E as ([[b2 t2] [n2 e2]] & Ew & [= <- <- ->]). unfold WriteTo in Ew.
  apply res_bind_inv in Ew as ([t3 [n3 e3]] & Ew & Econ).
  apply res_bind_inv in Econ as (b3 & Econ & [= <- <- <- ->]).
  set (b1 := bb S ([] ++ wire_bytes w) [] F1 o) in *.
  assert (Data b1 = Ret ([] ++ wire_bytes w)) as Hdata by apply Data_bb. clearbody b1.
  eapply reaches_step.
  { apply step_call. cbn [perform]; unfold run_AsyncFlush; cbn [pendingFrames set_pending]. unfold with_codecConn.
    cbn [codecConn set_pending src dst]. rewrite Hc. unfold AsyncWriteNext. simpl codec_encode.
    rewrite Hd, Ee. reflexivity. }
  cbn [fst snd then_wait calls starts events app]. rewrite app_nil_r. eapply reaches_step.
  { apply step_complete. unfold complete. cbn [codecConn set_conn dst Codec.dst Codec.codec Codec.stream].
    rewrite Ew. res_step. unfold resume_write, with_codecConn, set_transport.
    cbn [codecConn set_conn src dst Codec.dst Codec.codec Codec.stream Codec.src set_pending].
    unfold AsyncWriteNext_resume, AsyncWriteTo. cbn [Codec.dst Codec.codec Codec.stream Codec.src].
    rewrite Hdata. res_step. rewrite Econ. res_step. unfold releaseFrame.
    rewrite Eg. reflexivity. }
  cbn [fst snd then_calls calls starts events app]. rewrite app_nil_r. apply reaches_refl.
Qed.

Lemma async_flush c fs ws : forall s t s' k l,
  codecConn s = Some (c, t) -> drained (dst s) -> Forall2 queued fs ws -> pool_ok (framePool s) ->
  fits fuel ws -> Flush_loop fuel s fs = Ret (s', ([], None)) ->
  reaches genMask fuel (Config (set_pending s fs) [AsyncFlush k] [] l)
    (Config (set_pending s' []) [Flushed None k] [] l).
Proof.
  intros s t s' k l Hc Hd Hq. revert s t s' l Hc Hd.
  induction Hq as [|f w fs ws Hf Hfs IH]; intros s t s' l Hc Hd Hp Hfit E.
  { injection E as <-. eapply reaches_calls; [reflexivity|]. apply reaches_refl. }
  apply list.Forall_cons in Hfit as [Hfit1 Hfit]. cbn [Flush_loop] in E.
  destruct (WriteNext_frame (mkCodecConn t c (src s) (dst s)) f w fuel Hd (proj1 Hf) Hfit1)
    as (conn & n & e & x & Ew & Ec & Es & Hlog & Hx & He).
  unfold with_codecConn in E. rewrite Hc, Ew in E. cbn [mbind res_bind] in E.
  destruct e as [e|]; [done|]. destruct (He eq_refl) as (_ & _ & Hd1).
  destruct (async_write_one s c t f w k fs l conn n Hc Hd Hf Ew) as (g & Eg & Hreach).
  eapply reaches_trans; [exact Hreach|]. unfold releaseFrame in E. rewrite Eg in E.
  cbn [mbind res_bind] in E. destruct conn as [t1 c1 b1 d1].
  cbn [Codec.codec Codec.src Codec.dst Codec.stream] in *. subst c1 b1.
  apply (IH (set_pool (set_conn s (mkCodecConn t1 c (src s) d1)) (pool_put (framePool s) g)) t1);
    try done.
  intros h Hh. simpl in Hh. apply pool_put_ok in Hh as [->|Hh]; [|by apply Hp].
  destruct (queued_reset f w Hf) as (g' & Eg' & Hg'). congruence.
Qed.

(** Reading: the chain of completions of [complete_reads]. *)
Lemma async_reads n : forall s conn conn' r e f k l,
  complete_reads n conn r = Ret (conn', (e, f)) ->
  reaches genMask fuel
    (Config (set_conn s conn) (match r with None => [] | Some (e, f) => [FrameRead e f k] end)
       (match r with None => [Reading k] | Some _ => [] end) l)
    (Config (set_conn s conn') [FrameRead e f k] [] l).
Proof.
  induction n as [|n IH]; intros s conn conn' r e f k l; cbn [complete_reads];
    (destruct r as [[e1 f1]|]; [intros [= <- <- <-]; apply reaches_refl|]); [done|].
  intros E. apply res_bind_inv in E as (b & Eb & E). apply res_bind_inv in E as ([t outcome] & Eio & E).
  apply res_bind_inv in E as ([conn1 r1] & Er & E). specialize (IH s conn1 conn' r1 e f k l E).
  destruct r1 as [[e1 f1]|].
  all: eapply reaches_step;
    [apply step_complete; unfold complete; cbn [codecConn set_conn src Codec.stream Codec.codec];
     rewrite Eb; res_step; rewrite Eio; res_step;
     unfold resume_read, with_codecConn, set_transport;
     cbn [codecConn set_conn src dst Codec.dst Codec.codec Codec.stream Codec.src]; rewrite Er;
     res_step; reflexivity|].
  all: cbn [fst snd then_calls then_wait calls starts events app]; rewrite ?app_nil_r; exact IH.
Qed.

Lemma async_read_next s c t conn f k l :
  codecConn s = Some (c, t) ->
  ReadNext fuel (mkCodecConn t c (src s) (dst s)) = Ret (conn, (Some f, None)) ->
  reaches genMask fuel (Config s [asyncNextFrame k] [] l)
    (Config (set_conn s conn) [FrameRead None (Some f) k] [] l).
Proof.
  intros Hc E. rewrite AsyncReadNext_sync in E by (rewrite E; done).
  apply res_bind_inv in E as ([conn1 r] & E1 & E). apply res_bind_inv in E as ([conn2 [e f2]] & E2 & E).
  injection E as <- Ef ->. simpl in Ef. subst f2.
  pose proof (async_reads _ s conn1 conn2 r None (Some f) k l E2) as Hr.
  destruct r as [[e1 f1]|]; (eapply reaches_step;
    [apply step_call; cbn [perform]; unfold run_asyncNextFrame, with_codecConn; rewrite Hc, E1; reflexivity|]); cbn [fst snd then_calls then_wait calls starts events app];
    rewrite ?app_nil_r; exact Hr.
Qed.

(** [AsyncNextFrame] calls back with the frame [NextFrame] returns, in the same state. *)
Lemma async_next_frame s c t ws s' f k l :
  stream_inv s c t ws -> fits fuel ws -> NextFrame genMask fuel s = Ret (s', (Some f, None)) ->
  reaches genMask fuel (Config s [AsyncNextFrame k] [] l) (Config s' [GotFrame None (Some f) k] [] l).
Proof.
  intros (Hc & Hd & Hq & Hp) Hfit E. unfold NextFrame in E.
  apply res_bind_inv in E as ([s1 e1] & Ef & E).
  destruct e1 as [e1|]; [case_decide; [|done];
    by apply res_bind_inv in E as ([? ?] & _ & ?)|].
  rewrite decide_False in E by done. destruct (canRead s1) eqn:Hr; [|done].
  apply res_bind_inv in E as ([s2 [f2 e2]] & En & E). injection E as <- -> ->.
  rewrite decide_False by done.
  unfold Flush in Ef. apply res_bind_inv in Ef as ([s0 [rest e0]] & Ef & [= <- ->]).
  assert (rest = []) as ->.
  { destruct (Flush_loop_ok fuel c _ ws s t Hc Hd Hq Hp Hfit)
      as (? & ? & ? & rest' & e' & ? & E' & _ & _ & _ & _ & He & _).
    rewrite Ef in E'. injection E' as _ -> <-. by apply He. }
  eapply reaches_calls; [reflexivity|]. eapply reaches_trans.
  { rewrite <-(set_pending_id s) at 1. by eapply async_flush. }
  eapply reaches_calls.
  { cbn [perform]. unfold run_Flushed. rewrite decide_False by done. rewrite Hr. reflexivity. }
  unfold nextFrame in En. apply res_bind_inv in En as ([s3 [f3 e3]] & Er & En).
  apply res_bind_inv in En as ([s4 f4] & E4 & En). destruct e3 as [e3|]; [done|].
  rewrite decide_False in E4 by (by intros [_ ?]). injection E4 as <- <-.
  destruct f3 as [f3|]; [|done]. apply res_bind_inv in En as ([s5 e5] & Eh & [= <- <- ->]).
  unfold with_codecConn in Er. destruct (codecConn (set_pending s0 [])) as [[c0 t0]|] eqn:Hc0; [|done].
  apply res_bind_inv in Er as ([conn r] & Er & [= <- ->]).
  eapply reaches_trans; [by eapply async_read_next|].
  eapply reaches_calls; [cbn [perform]; unfold run_FrameRead; rewrite Eh; reflexivity|]. apply reaches_refl.
Qed.

(** ** Messages *)

(** The chain of callbacks of [AsyncNextMessage] ends with that call of the user's. *)
Definition async_runs (rounds : nat) s (b : list byte) (n : Z) (continuation : bool) (mt : Z)
    (result : Stream P T * list byte * (Z * Z * option error)) : Prop :=
  forall l, reaches genMask fuel (Config s [AsyncNextFrame (ForMessage b n continuation mt)] [] l)
    (let '(s', b', (mt', n', err)) := result in Config s' [] [] (l ++ [MessageDone err n' mt' b'])).

(** The closure of [asyncNextMessage] on a fragment. *)
Lemma message_frame_ok {r} s f op fin w read tail (continuation : bool) typ mt :
  frame_is f w -> data_frame r op fin w -> data_opcode typ ->
  op = (if continuation then OpcodeContinuation else typ) ->
  mt = (if continuation then typ else TypeNone) -> typ <> OpcodeContinuation ->
  zlen (w_payload w) <= zlen tail -> zlen read + zlen (w_payload w) <= maxMessageSize s ->
  message_frame s f op (read ++ tail) (zlen read) continuation mt
  = let b := (read ++ w_payload w) ++ zdrop (zlen (w_payload w)) tail in
    let n := zlen (read ++ w_payload w) in
    Ret (s, if fin then then_event (MessageDone None n typ b)
            else then_calls [AsyncNextFrame (ForMessage b n true typ)]).
Proof.
  intros Hf Hw Htyp Hop Hmt Hne Htail Hmax. unfold message_frame.
  destruct (received_frame f op fin w Hf Hw) as (_ & Hfin & Hl & p & Hp & Hpe & Hps).
  rewrite Hp. res_step. rewrite Hpe, Hps, store_fragment by done. rewrite Hl. res_step.
  assert (Z.min (zlen (read ++ tail) - zlen read) (zlen (w_payload w)) = zlen (w_payload w)) as ->
    by llia.
  rewrite (decide_False (P := zlen read + zlen (w_payload w) > maxMessageSize s \/
    zlen (w_payload w) <> zlen (w_payload w))) by lia. rewrite Hfin. res_step.
  assert ((if decide (mt = TypeNone) then op else mt) = typ) as ->.
  { subst mt op. destruct continuation; [|done]. rewrite decide_False; [done|].
    by destruct Htyp as [-> | [-> | ->]]. }
  assert (zlen read + zlen (w_payload w) = zlen (read ++ w_payload w)) as -> by llia.
  assert ((if continuation then if IsContinuation op then None else Some ErrExpectedContinuation
    else if IsContinuation op then Some ErrUnexpectedContinuation else None) = None) as ->.
  { subst op. destruct continuation; [done|]. destruct Htyp as [-> | [-> | ->]]; done. }
  by destruct fin.
Qed.

Lemma async_reader : message_reader genMask fuel async_runs.
Proof.
  split.
  - intros r rounds s s' c t out f op fin w read tail cont typ mt result Hi Hfit E Hf Hw Htyp Hop Hmt Hne
      Htail Hmax Hres l.
    eapply reaches_trans; [by eapply async_next_frame|].
    destruct (received_frame f op fin w Hf Hw) as (Ho & _).
    assert (IsControl op = false) as Hnc.
    { subst op. destruct cont; [done|]. by destruct Htyp as [-> | [-> | ->]]. }
    pose proof (message_frame_ok s' f op fin w read tail cont typ mt Hf Hw Htyp Hop Hmt Hne Htail Hmax)
      as Hm. cbv zeta in Hm. destruct fin.
    + subst result. eapply reaches_step.
      { apply step_call. cbn [perform run_GotFrame]. rewrite Ho. res_step. rewrite Hnc, Hm. reflexivity. }
      apply reaches_refl.
    + eapply reaches_calls; [|apply Hres]. cbn [perform run_GotFrame]. rewrite Ho. res_step. by rewrite Hnc, Hm.
  - intros r rounds s s' c t out f op w b n cont mt result Hi Hfit E Hf [Hw Hl] Hop Hres l.
    eapply reaches_trans; [by eapply async_next_frame|].
    destruct (received_frame f op true w Hf Hw) as (Ho & _ & _ & p & Hp & Hpe & _).
    eapply reaches_calls; [|apply Hres]. cbn [perform run_GotFrame]. rewrite Ho. res_step.
    assert (IsControl op = true) as -> by (by destruct Hop as [-> | ->]).
    rewrite Hp. res_step. by rewrite Hpe.
Qed.
End agreement.

(** * Properties *)

(** C7: [AsyncNextMessage], on an event loop that completes the transport's reads and
    writes as they come, calls the user back exactly once, with the payload, type and
    length of the next message, whatever the fragmentation, the cuts of the transport and
    the pings in between; it answers the pings, tells the control callback and leaves what
    follows unread, as the blocking [NextMessage] does.  The stream is active and does not
    validate UTF-8 (the default), the message fits the caller's buffer and the maximal
    message size, each frame the codec's, and writes do not fail. *)
Theorem async_message_delivers {P T : Type} `{GoRuntime} `{FramePool P} `{Duplex T}
    `{!WriterLaws T} `{!ReliableWriter T} (genMask : nat -> list byte) (fuel : nat)
    {r : Role} (s : Stream P T) (c : FrameCodec) (t : T) (typ : Z) (ws : list wire) (p b rest : list byte) :
  (forall n, length (genMask n) = 4%nat) -> fragments r typ ws p ->
  typ = OpcodeText \/ typ = OpcodeBinary -> live s c t [] (concat (wire_bytes <$> ws) ++ rest) ->
  reading r s -> Forall (fun w => zlen (w_payload w) <= WebsocketCodec.maxMessageSize c) ws ->
  zlen p <= zlen b -> zlen p <= maxMessageSize s ->
  (length (pend t) < fuel)%nat -> (139 <= fuel)%nat ->
  exists s' c' t' pongs,
    reaches genMask fuel (Config s [AsyncNextMessage b] [] [])
      (Config s' [] [] [MessageDone None (zlen p) typ (p ++ zdrop (zlen p) b)])
    /\ Forall2 (pong_for r) (ping_payloads ws) pongs
    /\ wlog t' = wlog t ++ concat (wire_bytes <$> pongs)
    /\ live s' c' t' [] rest /\ state s' = StateActive
    /\ controlCalls s' = controlCalls s ++ (if controlCallback s then controls ws else []).
Proof.
  intros Hg Hfr Htyp Hl Hrd Hmax Hb Hm Hf Hf'.
  destruct (loop_all genMask fuel Hg _ (async_reader genMask fuel) typ ws p Hfr (length ws)
    s c t [] [] b rest false typ TypeNone) as (s' & c' & t' & pongs & E & Hrest);
    [unfold data_opcode; tauto|by destruct Htyp as [-> | ->]|done|done|done|done|constructor|done..|].
  exists s', c', t', pongs. split; [exact (E [])|exact Hrest].
Qed.

#[local] Existing Instance doubling_runtime.

Lemma async_message_delivers_witness :
  exists s' c' t' pongs,
    reaches key 200 (Config (client (connected hi_chunks) []) [AsyncNextMessage (repeat Byte.x00 4)] [] [])
      (Config s' [] [] [MessageDone None 2 OpcodeText ([Byte.x68; Byte.x69] ++ zdrop 2 (repeat Byte.x00 4))])
    /\ Forall2 (pong_for RoleClient) (ping_payloads hi_script) pongs
    /\ wlog t' = wlog (connected hi_chunks) ++ concat (wire_bytes <$> pongs)
    /\ live s' c' t' [] [Byte.x81] /\ state s' = StateActive
    /\ controlCalls s' = [] ++ controls hi_script.
Proof.
  apply (async_message_delivers key 200 (client (connected hi_chunks) []) (NewFrameCodec 1024)
    (connected hi_chunks) OpcodeText hi_script [Byte.x68; Byte.x69] (repeat Byte.x00 4) [Byte.x81]).
  - done.
  - apply hi_fragments.
  - by left.
  - apply client_live.
  - done.
  - repeat constructor; vm_compute; done.
  - vm_compute; done.
  - vm_compute; done.
  - vm_compute; lia.
  - lia.
Defined.
