(* ===== verification/WebsocketLegal.v ===== *)
(** What a WebSocket stream may put on the wire: every frame in its queue is one RFC 6455
    allows an endpoint of its role to send, whatever calls are made and whatever the peer
    and the transport do. *)

From S2P Require Import Prelude GoSlice GoIO ByteBuffer Codec Utf8 WebsocketFrame WebsocketWire WebsocketCodec CodecRoundTrip WebsocketStream WebsocketStreamSpec WebsocketStreamProps WebsocketAsync.

(** * Legal frames *)

(** What may be sent in one frame: data, or a control frame of at most 125 bytes; a close
    frame carries a status code. *)
Definition sends (op n : Z) : Prop :=
  op = OpcodeText \/ op = OpcodeBinary \/ ((op = OpcodePing \/ op = OpcodePong) /\ n <= 125) \/
  (op = OpcodeClose /\ 2 <= n <= 125).

(** A final frame without reserved bits, masked by clients and only by them. *)
Definition legal (r : Role) (w : wire) : Prop :=
  first_fin (w_first w) = true /\ first_rsv (w_first w) = 0 /\ w_masked w = bool_decide (r = RoleClient) /\
  sends (first_opcode (w_first w)) (zlen (w_payload w)).

Definition legal_frame (r : Role) (f : Frame) : Prop := exists w, queued f w /\ legal r w.

Lemma sends_opcode op n : sends op n -> first_opcode (first_byte op) = op.
Proof.
  intros Hs. destruct (first_byte_fields op) as (_ & _ & ->).
  destruct Hs as [-> | [-> | [[[-> | ->] _] | [-> _]]]]; done.
Qed.

Lemma out_wire_legal r k op payload : sends op (zlen payload) -> legal r (out_wire r k op payload).
Proof.
  intros Hs. destruct (first_byte_fields op) as (Hf & Hr & _). unfold legal.
  destruct r; cbn [out_wire w_first w_payload w_masked w_mask]; rewrite ?length_xor_mask, (sends_opcode _ _ Hs); done.
Qed.

(** A frame an application hands to [WriteFrame]: one from [AcquireFrame], so with the
    masking bit of the role, with [FIN], an opcode and a payload set. *)
Definition drafted (r : Role) (f : Frame) : Prop :=
  exists op mk payload, queued f (Wire (first_byte op) mk payload) /\
    (r = RoleClient <-> is_Some mk) /\ sends op (zlen payload).

Section frames.
Context `{GoRuntime}.
Implicit Types (f : Frame).

Lemma prepared_legal r f rnd f' : drafted r f -> length rnd = 4%nat ->
  (if decide (r = RoleClient) then MaskPayload f rnd else Ret f) = Ret f' -> legal_frame r f'.
Proof.
  intros (op & mk & payload & ((Hf & Hok & Hl) & Hc) & Hmk & Hs) Hr E.
  destruct (first_byte_fields op) as (Hfin & Hrsv & _). case_decide as Hrole.
  - destruct (proj1 Hmk Hrole) as [k0 ->].
    destruct (MaskPayload_spec f _ k0 payload rnd Hf Hok Hr) as (g & E' & Hg & Hcg). rewrite E' in E. injection E as <-.
    set (k := if decide (payload = []) then k0 else rnd) in *.
    assert (length k = 4%nat) as Hk by (subst k; case_decide; [by apply Hok|done]).
    exists (out_wire RoleClient k op payload). split; [|subst r; by apply out_wire_legal].
    split; [|by rewrite Hcg]. split; [done|]. split; [|simpl; by rewrite length_xor_mask].
    split; simpl; [by intros ? [= <-]|]. rewrite length_xor_mask. cbn [w_payload] in Hl. lia.
  - injection E as <-. destruct mk as [k|]; [destruct Hrole; apply Hmk; by eexists|].
    exists (out_wire RoleServer [] op payload). split; [by split_and!|].
    destruct r; [done|by apply out_wire_legal].
Qed.
End frames.

(** * Decoded frames *)

Section decoding.
Context `{GoRuntime}.
Implicit Types (f g : Frame) (src : ByteBuffer).

Lemma index_same f g i x y : arr f = arr g -> index f i = Ret x -> index g i = Ret y -> x = y.
Proof. unfold index. intros ->. repeat case_decide; try done. by destruct (arr g !! _); intros; simplify_eq. Qed.

Lemma get_bits_same f g i m x y : arr f = arr g -> get_bits f i m = Ret x -> get_bits g i m = Ret y -> x = y.
Proof.
  intros Ha (a & Ea & [= <-])%res_bind_inv (b & Eb & [= <-])%res_bind_inv. by rewrite (index_same f g i a b Ha Ea Eb).
Qed.

Lemma reslice_same f g lo hi s t : arr f = arr g -> reslice f lo hi = Ret s -> reslice g lo hi = Ret t -> s = t.
Proof. unfold reslice, scap. intros ->. case_decide; [|done]. intros; simplify_eq. done. Qed.

Lemma PayloadLength_same f g n m : arr f = arr g -> PayloadLength f = Ret n -> PayloadLength g = Ret m -> n = m.
Proof.
  intros Ha (x & Ex & E)%res_bind_inv (y & Ey & E')%res_bind_inv. rewrite (get_bits_same f g _ _ x y Ha Ex Ey) in E.
  repeat case_decide; try (by simplify_eq);
    apply res_bind_inv in E as (s & Es & [= <-]), E' as (t & Et & [= <-]); by rewrite (reslice_same f g _ _ s t Ha Es Et).
Qed.

Lemma ext_same f g n m : arr f = arr g -> ExtendedPayloadLengthBytes f = Ret n -> ExtendedPayloadLengthBytes g = Ret m -> n = m.
Proof.
  intros Ha (x & Ex & [= <-])%res_bind_inv (y & Ey & [= <-])%res_bind_inv. by rewrite (get_bits_same f g _ _ x y Ha Ex Ey).
Qed.

Lemma masked_same f g n m : arr f = arr g -> IsMasked f = Ret n -> IsMasked g = Ret m -> n = m.
Proof.
  intros Ha (x & Ex & [= <-])%res_bind_inv (y & Ey & [= <-])%res_bind_inv. by rewrite (get_bits_same f g _ _ x y Ha Ex Ey).
Qed.

Lemma PayloadLength_low f n : PayloadLength f = Ret n -> - 2 ^ 63 <= n.
Proof.
  intros (x & (b & _ & [= <-])%res_bind_inv & E)%res_bind_inv. pose proof (b2z_range b).
  repeat case_decide.
  - apply res_bind_inv in E as (s & _ & [= <-]). pose proof (i64_is_int (be_decode (elems s))) as Hi. unfold is_int in Hi. lia.
  - apply res_bind_inv in E as (s & _ & [= <-]). pose proof (be_decode_bound (elems s)). lia.
  - injection E as <-. assert (0 <= Z.land (b2z b) bitmaskPayloadLength) by (apply Z.land_nonneg; lia). lia.
Qed.

(** All of [Decode] looks at the same bytes. *)
Lemma prepare_frame src n src' f : prepare src n = Ret (src', inr f) ->
  arr f = zdrop (si src) (arr (data src)) /\ slen f = n /\ si src' = si src /\ data src' = data src.
Proof.
  intros ([b err] & E & E')%res_bind_inv. destruct err; [done|].
  apply res_bind_inv in E' as (d & Ed & E'). apply res_bind_inv in E' as (g & Eg & [= <- <-]).
  assert (si b = si src /\ data b = data src) as [Hsi Hd].
  { unfold PrepareRead in E. apply res_bind_inv in E as (l & _ & E). cbn zeta in E.
    case_decide; [|by injection E as <-]. apply res_bind_inv in E as (wl & _ & E).
    case_decide; [|done]. injection E as <-. unfold Commit. by case_decide. }
  unfold reslice in Ed, Eg. destruct (decide _) in Ed; [|done]. injection Ed as <-.
  destruct (decide _) in Eg; [|done]. injection Eg as <-. cbn [arr slen]. rewrite Hsi, Hd. split_and!; [done|lia|done|done].
Qed.

(** A frame whose payload is what its header says, when that is a control frame's. *)
Definition measured f : Prop :=
  forall n p, PayloadLength f = Ret n -> n <= 125 -> Payload f = Ret p -> zlen (elems p) <= 125.

Lemma measured_length f g e m n : arr f = arr g -> ExtendedPayloadLengthBytes g = Ret e -> IsMasked g = Ret m ->
  PayloadLength g = Ret n -> slen f = i64 (2 + e + (if m : bool then 4 else 0) + n) -> measured f.
Proof.
  intros Ha He Hm Hn Hs n' p Hn' Hle Hp. rewrite (PayloadLength_same f g n' n Ha Hn' Hn) in Hle.
  unfold Payload, payloadOffset, MaskBytes in Hp. apply res_bind_inv in Hp as (off & Hoff & Hp).
  apply res_bind_inv in Hoff as (e' & He' & Hoff). apply res_bind_inv in Hoff as (mb & Hmb & [= <-]).
  apply res_bind_inv in Hmb as (m' & Hm' & [= <-]). rewrite (ext_same f g e' e Ha He' He), (masked_same f g m' m Ha Hm' Hm) in Hp.
  assert (0 <= e <= 8) as Hb by (apply res_bind_inv in He as (v & _ & [= <-]); repeat case_decide; lia).
  pose proof (PayloadLength_low g n Hn) as Hlow. unfold frameMaskLength, frameHeaderLength in Hp.
  rewrite i64_small in Hs by (unfold is_int; destruct m; lia).
  unfold reslice in Hp. destruct (decide _) in Hp; [|done]. injection Hp as <-. unfold elems. cbn [slen arr].
  rewrite length_take. destruct m; lia.
Qed.

Lemma Decode_measured c src c' src' f : Decode c src = Ret (c', src', (Some f, None)) -> measured f.
Proof.
  intros ([c1 s1] & _ & E)%res_bind_inv. cbn zeta in E.
  apply res_bind_inv in E as ([s2 [?|f1]] & P1 & E); [done|]. apply res_bind_inv in E as (e & He & E).
  apply res_bind_inv in E as ([s3 [?|f2]] & P2 & E); [done|]. apply res_bind_inv in E as (n & Hn & E).
  destruct (decide _) in E; [done|]. apply res_bind_inv in E as (m & Hm & E).
  apply res_bind_inv in E as ([s4 [?|f3]] & P3 & E); [done|]. apply res_bind_inv in E as ([s5 [?|f4]] & P4 & E).
  { by apply res_bind_inv in E as (? & _ & ?). }
  injection E as _ _ <-. apply prepare_frame in P1 as (A1 & _ & S1 & D1), P2 as (A2 & L2 & S2 & D2), P4 as (A4 & L4 & _).
  assert (si s4 = si s3 /\ data s4 = data s3) as [S3 D3].
  { destruct m; [by apply prepare_frame in P3 as (_ & _ & ? & ?)|by injection P3 as -> _]. }
  assert (arr f4 = arr f2) as Ha by (rewrite A4, A2, S3, D3, S2, D2; done).
  assert (arr f1 = arr f2) as Ha1 by (rewrite A1, A2, S1, D1; done).
  destruct (ExtendedPayloadLengthBytes f2) as [e2| |] eqn:He2.
  - rewrite <- (ext_same f1 f2 e e2 Ha1 He He2) in He2.
    apply (measured_length f4 f2 e m n); try done. rewrite L4. unfold frameHeaderLength, frameMaskLength.
    f_equal. destruct m; lia.
  - unfold PayloadLength in Hn. unfold ExtendedPayloadLengthBytes in He2.
    apply res_bind_inv in Hn as (v & Hv & _). by rewrite Hv in He2.
  - unfold PayloadLength in Hn. unfold ExtendedPayloadLengthBytes in He2.
    apply res_bind_inv in Hn as (v & Hv & _). by rewrite Hv in He2.
Qed.

Lemma ReadNext_measured {T} `{Reader T} fuel : forall (conn conn' : CodecConn FrameCodec T) f,
  ReadNext fuel conn = Ret (conn', (Some f, None)) -> measured f.
Proof.
  induction fuel as [|fuel IH]; intros conn conn' f E; [done|]. cbn [ReadNext] in E.
  apply res_bind_inv in E as ([[c b] [item err]] & Ed & E). cbn zeta in E. destruct err as [e|].
  - case_decide; [done|]. apply res_bind_inv in E as ([[b' t] [k err]] & _ & E). destruct err; [done|]. by eapply IH.
  - injection E as _ ->. exact (Decode_measured _ _ _ _ _ Ed).
Qed.
End decoding.

(** * The stream *)

Section stream.
Context {P T : Type} `{GoRuntime} `{FramePool P} `{Reader T} `{Writer T}.
Context (genMask : nat -> list byte) (fuel : nat).
Context (genMask_len : forall n, length (genMask n) = 4%nat).
Implicit Types (s : Stream P T) (f : Frame).

Definition legal_stream (r : Role) s : Prop :=
  role s = r /\ pool_ok (framePool s) /\ Forall (legal_frame r) (pendingFrames s).

Lemma queueFrame_legal r s op payload s' : legal_stream r s -> zlen payload <= 2 ^ 47 -> sends op (zlen payload) ->
  queueFrame genMask s op payload = Ret s' -> legal_stream r s'.
Proof.
  intros (Hr & Hp & Hq) Hl Hs E. destruct (queueFrame_room genMask s op payload s' E) as [Hs4 Hs10].
  destruct (queueFrame_built genMask genMask_len s op payload Hp Hl Hs4 Hs10) as (p & d & f & k & E' & Hsub & _ & _ & Hf).
  rewrite E' in E. injection E as <-. split_and!; [done|by intros g Hg; apply Hp, Hsub|].
  cbn [pendingFrames set_pending]. apply list.Forall_app. split; [done|]. constructor; [|constructor].
  exists (out_wire (role s) k op payload). split; [done|]. rewrite Hr. by apply out_wire_legal.
Qed.

Lemma prepareWrite_legal r s f s' : legal_stream r s -> drafted r f -> prepareWrite genMask s f = Ret s' -> legal_stream r s'.
Proof.
  intros (Hr & Hp & Hq) Hf E. unfold prepareWrite in E. rewrite Hr in E.
  assert (exists g d, (if decide (r = RoleClient) then MaskPayload f (genMask (drawn s)) else Ret f) = Ret g /\
    s' = set_pending (set_drawn s d) (pendingFrames s ++ [g])) as (g & d & Eg & ->).
  { case_decide; [apply res_bind_inv in E as (g & Eg & [= <-]); by eexists _, _|].
    injection E as <-. exists f, (drawn s). split; [done|]. by destruct s. }
  split_and!; [done|done|]. cbn [pendingFrames set_pending]. apply list.Forall_app. split; [done|].
  constructor; [|constructor]. by apply (prepared_legal r f (genMask (drawn s))).
Qed.

Lemma release_legal r s f w s' : legal_stream r s -> queued f w -> releaseFrame s f = Ret s' -> legal_stream r s'.
Proof.
  intros (Hr & Hp & Hq) Hf E. destruct (releaseFrame_ok s f w Hf Hp) as (p & E' & Hp').
  rewrite E' in E. injection E as <-. done.
Qed.

Lemma with_codecConn_legal {A} r s call s' (a : A) : legal_stream r s -> with_codecConn s call = Ret (s', a) -> legal_stream r s'.
Proof.
  unfold with_codecConn. destruct (codecConn s) as [[c t]|]; [|done]. intros Hs ([conn x] & _ & [= <- _])%res_bind_inv. done.
Qed.

Lemma Flush_loop_legal r fs : forall s s' rest e, legal_stream r s -> Forall (legal_frame r) fs ->
  Flush_loop fuel s fs = Ret (s', (rest, e)) -> legal_stream r s' /\ Forall (legal_frame r) rest.
Proof.
  induction fs as [|f fs IH]; intros s s' rest e Hs Hfs E; cbn [Flush_loop] in E; [by injection E as <- <- _|].
  pose proof Hfs as [(w & Hw & _) Hrest]%list.Forall_cons.
  apply res_bind_inv in E as ([s1 [n err]] & E1 & E). apply (with_codecConn_legal r) in E1; [|done].
  destruct err; [by injection E as <- <- _|]. apply res_bind_inv in E as (s2 & E2 & E).
  apply (release_legal r _ _ w) in E2; [|done..]. by eapply IH.
Qed.

Lemma Flush_legal r s s' e : legal_stream r s -> Flush fuel s = Ret (s', e) -> legal_stream r s'.
Proof.
  intros Hs ([s1 [rest err]] & E & [= <- _])%res_bind_inv. pose proof Hs as (_ & _ & Hq).
  destruct (Flush_loop_legal r _ _ _ _ _ Hs Hq E) as [(Hr & Hp & _) Hrest]. done.
Qed.

Lemma close_payload_sends cc reason : zlen reason <= 123 -> sends OpcodeClose (zlen (EncodeCloseFramePayload cc reason)).
Proof. intros Hr. right; right; right. split; [done|]. unfold EncodeCloseFramePayload, EncodeCloseCode. rewrite length_app, length_be_encode. lia. Qed.

Lemma set_state_legal r s st : legal_stream r s -> legal_stream r (set_state s st).
Proof. done. Qed.

Lemma sends_small op n : sends op n -> op = OpcodeClose \/ op = OpcodePong -> n <= 2 ^ 47.
Proof. intros [-> | [-> | [[_ ?] | [_ ?]]]] [Ho | Ho]; try done; lia. Qed.

Lemma Close_legal r s s' cc reason e : legal_stream r s -> zlen reason <= 123 ->
  Stream_Close genMask fuel s cc reason = Ret (s', e) -> legal_stream r s'.
Proof.
  intros Hs Hr E. unfold Stream_Close in E. destruct (state s); try (by injection E as <- _).
  apply res_bind_inv in E as (s1 & E1 & E). apply (Flush_legal r) in E; [done|].
  pose proof (close_payload_sends cc reason Hr) as Hc.
  eapply (queueFrame_legal r); [| |exact Hc|exact E1]; [done|eapply sends_small; [exact Hc|by left]].
Qed.

Lemma reply_sends p q : close_reply p = Ret q -> zlen p <= 125 -> sends OpcodeClose (zlen q).
Proof.
  intros E Hp. right; right; right. split; [done|].
  assert (forall c, zlen (EncodeCloseCode c) = 2) as Hlen2 by (intros c; unfold EncodeCloseCode; by rewrite length_be_encode).
  unfold close_reply in E. destruct (decide (2 <= zlen p)).
  - destruct (utf8_valid _); [|injection E as <-; rewrite Hlen2; lia].
    apply res_bind_inv in E as (c & _ & E). destruct (ValidCloseCode c); injection E as <-; rewrite ?Hlen2; lia.
  - destruct (decide _) in E; injection E as <-; rewrite Hlen2; lia.
Qed.

Lemma handleControlFrame_legal r s f s' e : legal_stream r s -> measured f ->
  handleControlFrame genMask s f = Ret (s', e) -> legal_stream r s'.
Proof.
  intros Hs Hf E. unfold handleControlFrame in E. apply res_bind_inv in E as (fin & _ & E).
  destruct fin; cbn [negb] in E; [|by injection E as <- _]. apply res_bind_inv in E as (n & Hn & E).
  destruct (decide (n > _)) as [|Hle]; [by injection E as <- _|]. unfold MaxControlFramePayloadLength in Hle.
  apply res_bind_inv in E as (op & _ & E). destruct (decide (op = OpcodePing)).
  { destruct (decide _) in E; [|by injection E as <- _]. apply res_bind_inv in E as (p & Hp & E).
    apply res_bind_inv in E as (s1 & E1 & [= <- _]).
    assert (zlen (elems p) <= 125) as Hl by (apply (Hf n); [done|lia|done]).
    eapply (queueFrame_legal r); [done| | |exact E1]; [lia|right; right; left; split; [by right|done]]. }
  destruct (decide (op = OpcodePong)); [by injection E as <- _|].
  destruct (decide (op = OpcodeClose)); [|by injection E as <- _].
  destruct (state s); try done; try (by injection E as <- _).
  apply res_bind_inv in E as (p & Hp & E). apply res_bind_inv in E as (q & Hq & E).
  apply res_bind_inv in E as (s1 & E1 & [= <- _]).
  assert (sends OpcodeClose (zlen q)) as Hc by (eapply reply_sends; [exact Hq|apply (Hf n); [done|lia|done]]).
  eapply (queueFrame_legal r); [| |exact Hc|exact E1]; [done|eapply sends_small; [exact Hc|by left]].
Qed.

Lemma handleFrame_legal r s f s' e : legal_stream r s -> measured f ->
  handleFrame genMask s f = Ret (s', e) -> legal_stream r s'.
Proof.
  intros Hs Hf E. unfold handleFrame in E. apply res_bind_inv in E as (err & _ & E).
  apply res_bind_inv in E as ([s1 err1] & E1 & E).
  assert (legal_stream r s1) as Hs1.
  { destruct err; [by injection E1 as <- _|]. apply res_bind_inv in E1 as (op & _ & E1). destruct (IsControl op).
    - by eapply handleControlFrame_legal.
    - by apply res_bind_inv in E1 as (? & _ & [= <- _]). }
  destruct err1; [|by injection E as <- _]. apply res_bind_inv in E as (s2 & E2 & [= <- _]).
  pose proof (close_payload_sends CloseProtocolError [] ltac:(done)) as Hc.
  eapply (queueFrame_legal r); [| |exact Hc|exact E2]; [done|eapply sends_small; [exact Hc|by left]].
Qed.

Lemma nextFrame_legal r s s' x : legal_stream r s -> nextFrame genMask fuel s = Ret (s', x) -> legal_stream r s'.
Proof.
  intros Hs E. unfold nextFrame in E. apply res_bind_inv in E as ([s1 [f1 err]] & E1 & E).
  pose proof (with_codecConn_legal r s _ _ _ Hs E1) as Hs1. destruct err as [err|].
  - apply res_bind_inv in E as ([s2 f2] & E2 & E). injection E as <- _.
    destruct (decide _) in E2; [|by injection E2 as <- _]. by apply res_bind_inv in E2 as (g & _ & [= <- _]).
  - rewrite decide_False in E by (by intros [_ ?]). cbn [mbind res_bind] in E. destruct f1 as [f1|]; [|done].
    apply res_bind_inv in E as ([s2 err] & E2 & [= <- _]). eapply handleFrame_legal; [exact Hs1| |exact E2].
    unfold with_codecConn in E1. destruct (codecConn s) as [[c t]|]; [|done].
    apply res_bind_inv in E1 as ([conn y] & Ey & [= _ ->]). by eapply ReadNext_measured.
Qed.

Lemma NextFrame_legal r s s' x : legal_stream r s -> NextFrame genMask fuel s = Ret (s', x) -> legal_stream r s'.
Proof.
  intros Hs E. unfold NextFrame in E. apply res_bind_inv in E as ([s1 err] & E1 & E). apply (Flush_legal r) in E1; [|done].
  destruct (decide _) in E.
  { apply res_bind_inv in E as ([s2 e2] & E2 & [= <- _]). by apply (Close_legal r) in E2. }
  destruct err; [by injection E as <- _|]. destruct (canRead s1); [|by injection E as <- _].
  apply res_bind_inv in E as ([s2 [f e]] & E2 & [= <- _]). apply (nextFrame_legal r) in E2; [|done]. by case_decide.
Qed.

Lemma NextMessage_legal r rounds : forall s s' b b' n cont mt x, legal_stream r s ->
  NextMessage_loop genMask fuel rounds s b n cont mt = Ret (s', b', x) -> legal_stream r s'.
Proof.
  induction rounds as [|rounds IH]; intros s s' b b' n cont mt x Hs E; [done|]. cbn [NextMessage_loop] in E.
  apply res_bind_inv in E as ([s1 [f e]] & E1 & E). apply (NextFrame_legal r) in E1; [|done].
  destruct e; [by injection E as <- _ _|]. destruct f as [f|]; [|done].
  apply res_bind_inv in E as (op & _ & E). destruct (IsControl op).
  { apply res_bind_inv in E as (p & _ & E). apply IH in E; [done|]. unfold call_control. by destruct (controlCallback s1). }
  apply res_bind_inv in E as (p & _ & E). apply res_bind_inv in E as (len & _ & E). case_decide.
  { apply res_bind_inv in E as ([s2 e2] & E2 & [= <- _ _]). by apply (Close_legal r) in E2. }
  apply res_bind_inv in E as (fin & _ & E).
  destruct cont, (IsContinuation op); try (by injection E as <- _ _);
    (destruct fin; [by injection E as <- _ _|by apply IH in E]).
Qed.

(** The calls of an application that uses the stream as documented: it sends what may be
    sent, and its close reasons fit a control frame. *)
Definition sane_op (r : Role) (op : stream_op) : Prop :=
  match op with
  | DoWrite b t => sends t (zlen b) /\ zlen b <= 2 ^ 47
  | DoWriteFrame f => drafted r f
  | DoClose _ reason => zlen reason <= 123
  | DoFlush | DoNextFrame | DoNextMessage _ _ => True
  end.

Lemma apply_op_legal r s op s' : legal_stream r s -> sane_op r op -> apply_op genMask fuel s op = Ret s' -> legal_stream r s'.
Proof.
  intros Hs Ho. destruct op; unfold apply_op; intros E; apply res_bind_inv in E as ([s1 x] & E & Er).
  - injection Er as <-. by apply (Flush_legal r) in E.
  - injection Er as <-. destruct Ho. unfold Stream_Write in E. case_decide; [by injection E as <- _|].
    case_decide; [|by injection E as <- _]. apply res_bind_inv in E as (s2 & E2 & E).
    apply (Flush_legal r) in E; [done|]. by eapply (queueFrame_legal r).
  - injection Er as <-. unfold WriteFrame in E. case_decide; apply res_bind_inv in E as (s2 & E2 & E).
    + apply (Flush_legal r) in E; [done|]. by eapply (prepareWrite_legal r).
    + injection E as <- _. destruct Ho as (o & mk & p & Hq & _). by eapply (release_legal r).
  - injection Er as <-. by apply (Close_legal r) in E.
  - injection Er as <-. by apply (NextFrame_legal r) in E.
  - destruct s1 as [s1 b1]. injection Er as <-. by apply (NextMessage_legal r) in E.
Qed.

(** ** The asynchronous half *)

Definition sane_call (r : Role) (c : call) : Prop :=
  match c with
  | AsyncWrite b t _ => sends t (zlen b) /\ zlen b <= 2 ^ 47
  | AsyncWriteFrame f _ => drafted r f
  | AsyncClose _ reason _ => zlen reason <= 123
  | FrameRead None (Some f) _ => measured f
  | _ => True
  end.

(** The frame being written went through the queue. *)
Definition sane_pending (r : Role) (p : pending) : Prop :=
  match p with Writing sent _ => legal_frame r sent | Reading _ => True end.

Definition sane_effects (r : Role) (x : Stream P T * effects) : Prop :=
  legal_stream r x.1 /\ Forall (sane_call r) (calls x.2) /\ Forall (sane_pending r) (starts x.2).

Lemma effects_calls r s l : legal_stream r s -> Forall (sane_call r) l -> sane_effects r (s, then_calls l).
Proof. intros Hs Hl. split_and!; [done|done|constructor]. Qed.

Lemma effects_call r s c : legal_stream r s -> sane_call r c -> sane_effects r (s, then_calls [c]).
Proof. intros Hs Hc. apply effects_calls; [done|by repeat constructor]. Qed.

Lemma effects_wait r s p : legal_stream r s -> sane_pending r p -> sane_effects r (s, then_wait p).
Proof. intros Hs Hp. split_and!; [done|constructor|by repeat constructor]. Qed.

Lemma effects_event r s e : legal_stream r s -> sane_effects r (s, then_event e).
Proof. intros Hs. split_and!; [done|constructor|constructor]. Qed.

Lemma AsyncReadNext_measured (conn conn' : CodecConn FrameCodec T) f :
  AsyncReadNext conn = Ret (conn', Some (None, Some f)) -> measured f.
Proof.
  intros ([[c b] [item err]] & Ed & E)%res_bind_inv. cbn zeta in E. case_decide; [done|]. injection E as _ -> ->.
  exact (Decode_measured _ _ _ _ _ Ed).
Qed.

Lemma resume_measured (conn conn' : CodecConn FrameCodec T) g f :
  AsyncReadNext_resume conn g = Ret (conn', Some (None, Some f)) -> measured f.
Proof.
  intros ([b [err n]] & _ & E)%res_bind_inv. cbn zeta in E. destruct err; [done|]. by eapply AsyncReadNext_measured.
Qed.

(** A frame the codec hands over, with or without waiting. *)
Lemma read_sane r s k call x : legal_stream r s ->
  (forall conn conn' f, call conn = Ret (conn', Some (None, Some f)) -> measured f) ->
  ('(s, y) ← with_codecConn s call;
   match y with
   | None => Ret (s, then_wait (Reading k))
   | Some (err, f) => Ret (s, then_calls [FrameRead err f k])
   end) = Ret x -> sane_effects r x.
Proof.
  intros Hs Hm ([s1 y] & E1 & E)%res_bind_inv. pose proof (with_codecConn_legal r s _ _ _ Hs E1) as Hs1.
  destruct y as [[err f]|]; injection E as <-; [|by apply effects_wait]. apply effects_call; [done|].
  destruct err; [done|]. destruct f as [f|]; [|done]. unfold with_codecConn in E1. destruct (codecConn s) as [[c t]|]; [|done].
  apply res_bind_inv in E1 as ([conn z] & Ez & [= _ ->]). by eapply Hm.
Qed.

Lemma run_AsyncFlush_sane r s k x : legal_stream r s -> run_AsyncFlush s k = Ret x -> sane_effects r x.
Proof.
  intros Hs E. unfold run_AsyncFlush in E. pose proof Hs as (Hr & Hp & Hq). destruct (pendingFrames s) as [|f rest].
  { injection E as <-. by apply effects_call. }
  apply list.Forall_cons in Hq as [Hf Hrest]. pose proof Hf as (w & Hw & _).
  apply res_bind_inv in E as ([s1 y] & E1 & E). apply (with_codecConn_legal r) in E1; [|done].
  destruct y as [[err n]|]; [|injection E as <-; by apply effects_wait].
  apply res_bind_inv in E as (s2 & E2 & [= <-]). apply (release_legal r _ _ w) in E2; [|done..].
  apply effects_call; [done|]. by destruct err.
Qed.

Lemma run_Flushed_sane r s err k x : legal_stream r s -> run_Flushed s err k = Ret x -> sane_effects r x.
Proof.
  intros Hs E. destruct k as [|k|]; cbn [run_Flushed] in E; [injection E as <-; by apply effects_event| |injection E as <-; by apply effects_calls].
  case_decide; [injection E as <-; apply effects_calls; [done|by repeat constructor]|].
  destruct err as [e|]; [|destruct (canRead s)]; injection E as <-; by apply effects_call.
Qed.

Lemma run_FrameRead_sane r s err (f : option Frame) k x : legal_stream r s -> sane_call r (FrameRead err f k) ->
  run_FrameRead genMask s err f k = Ret x -> sane_effects r x.
Proof.
  intros Hs Hc E. destruct err as [e|]; cbn [run_FrameRead] in E.
  - case_decide; [apply res_bind_inv in E as (g & _ & E)|]; injection E as <-; by apply effects_call.
  - destruct f as [f|]; [|done]. apply res_bind_inv in E as ([s1 e] & E1 & [= <-]).
    apply effects_call; [by eapply handleFrame_legal|done].
Qed.

Lemma run_GotFrame_sane r s err (f : option Frame) k x : legal_stream r s -> run_GotFrame s err f k = Ret x -> sane_effects r x.
Proof.
  intros Hs E. destruct k as [|b n cont mt]; cbn [run_GotFrame] in E; [injection E as <-; by apply effects_event|].
  destruct err; [injection E as <-; by apply effects_event|]. destruct f as [f|]; [|done].
  apply res_bind_inv in E as (op & _ & E). destruct (IsControl op).
  { apply res_bind_inv in E as (p & _ & [= <-]). apply effects_call; [|done]. unfold call_control. by destruct (controlCallback s). }
  unfold message_frame in E. apply res_bind_inv in E as (p & _ & E). apply res_bind_inv in E as (len & _ & E).
  cbn zeta in E. destruct (decide (_ \/ _)) in E.
  { injection E as <-. split_and!; [done|by repeat constructor|constructor]. }
  apply res_bind_inv in E as (fin & _ & E).
  destruct cont, (IsContinuation op); try (injection E as <-; by apply effects_event);
    (destruct fin; injection E as <-; [by apply effects_event|by apply effects_call]).
Qed.

Lemma perform_sane r s c x : legal_stream r s -> sane_call r c -> perform genMask s c = Ret x -> sane_effects r x.
Proof.
  intros Hs Hc E. destruct c as [k|err k|k|k|err f k|err f k|cc reason k|b t k|f k]; cbn [perform] in E.
  - by eapply run_AsyncFlush_sane.
  - by eapply run_Flushed_sane.
  - injection E as <-. by apply effects_call.
  - eapply read_sane; [exact Hs| |exact E]. apply AsyncReadNext_measured.
  - by eapply run_FrameRead_sane.
  - by eapply run_GotFrame_sane.
  - unfold run_AsyncClose in E. pose proof (close_payload_sends cc reason Hc) as Hp.
    destruct (state s); try (injection E as <-; by apply effects_call). apply res_bind_inv in E as (s1 & E1 & [= <-]).
    apply effects_call; [|done]. eapply (queueFrame_legal r); [| |exact Hp|exact E1]; [done|eapply sends_small; [exact Hp|by left]].
  - unfold run_AsyncWrite in E. destruct Hc. case_decide; [injection E as <-; by apply effects_call|].
    case_decide; [|injection E as <-; by apply effects_call]. apply res_bind_inv in E as (s1 & E1 & [= <-]).
    apply effects_call; [by eapply (queueFrame_legal r)|done].
  - unfold run_AsyncWriteFrame in E. case_decide; apply res_bind_inv in E as (s1 & E1 & [= <-]); (apply effects_call; [|done]).
    + by eapply (prepareWrite_legal r).
    + destruct Hc as (o & mk & p & Hq & _). by eapply (release_legal r).
Qed.

Lemma set_transport_legal r s t : legal_stream r s -> legal_stream r (set_transport s t).
Proof. unfold set_transport. by destruct (codecConn s) as [[c t']|]. Qed.

Lemma complete_sane r s p x : legal_stream r s -> sane_pending r p -> complete fuel s p = Ret x -> sane_effects r x.
Proof.
  intros Hs Hp E. unfold complete in E. destruct (codecConn s) as [[c t]|]; [|done]. destruct p as [sent k|k].
  - apply res_bind_inv in E as ([t' [n err]] & _ & E). apply res_bind_inv in E as ([s1 [err1 n1]] & E1 & E).
    apply (with_codecConn_legal r) in E1; [|by apply set_transport_legal]. destruct Hp as (w & Hw & _).
    apply res_bind_inv in E as (s2 & E2 & [= <-]). apply (release_legal r _ _ w) in E2; [|done..].
    apply effects_call; [done|]. by destruct err1.
  - apply res_bind_inv in E as (b & _ & E). apply res_bind_inv in E as ([t' out] & _ & E).
    eapply read_sane; [by apply (set_transport_legal r s t')| |exact E]. intros conn conn' f. apply resume_measured.
Qed.

(** ** Sessions *)

(** What happens to a stream: a blocking call, the start of an asynchronous one (from a
    callback or not), or a step of the event loop. *)
Inductive action : Type := Blocking (op : stream_op) | Start (c : call) | Turn.

Definition act (c : config P T) (a : action) : res (config P T) :=
  match a with
  | Blocking op => s ← apply_op genMask fuel (strm c) op; Ret (Config s (stack c) (waiting c) (log c))
  | Start k => Ret (Config (strm c) (k :: stack c) (waiting c) (log c))
  | Turn => step genMask fuel c
  end.

Fixpoint session (c : config P T) (l : list action) : res (config P T) :=
  match l with
  | [] => Ret c
  | a :: l => c ← act c a; session c l
  end.

(** The calls of an application that uses the stream as documented. *)
Definition sane_action (r : Role) (a : action) : Prop :=
  match a with Blocking op => sane_op r op | Start c => sane_call r c | Turn => True end.

Definition legal_config (r : Role) (c : config P T) : Prop :=
  legal_stream r (strm c) /\ Forall (sane_call r) (stack c) /\ Forall (sane_pending r) (waiting c).

Lemma after_legal r c rest w x : sane_effects r x -> Forall (sane_call r) rest -> Forall (sane_pending r) w ->
  legal_config r (after c rest w x).
Proof. intros (Hs & Hc & Hw) Hr Hw'. split_and!; [done|by apply list.Forall_app|by apply list.Forall_app]. Qed.

Lemma step_legal r c c' : legal_config r c -> step genMask fuel c = Ret c' -> legal_config r c'.
Proof.
  intros (Hs & Hc & Hw) E. unfold step in E. destruct (stack c) as [|k rest] eqn:Ek.
  - destruct (waiting c) as [|p w] eqn:Ew; [injection E as <-; split_and!; [done|by rewrite Ek|by rewrite Ew]|].
    apply list.Forall_cons in Hw as [Hp Hw]. apply res_bind_inv in E as (x & Ex & [= <-]).
    apply after_legal; [by eapply complete_sane|done|done].
  - apply list.Forall_cons in Hc as [Hk Hc]. apply res_bind_inv in E as (x & Ex & [= <-]).
    apply after_legal; [by eapply perform_sane|done|done].
Qed.

Lemma act_legal r c a c' : legal_config r c -> sane_action r a -> act c a = Ret c' -> legal_config r c'.
Proof.
  intros Hl Ha E. destruct a as [op|k|]; cbn [act] in E; [| |by eapply step_legal]; destruct Hl as (Hs & Hc & Hw).
  - apply res_bind_inv in E as (s & Es & [= <-]). split_and!; [by eapply apply_op_legal|done|done].
  - injection E as <-. split_and!; [done|by constructor|done].
Qed.

Lemma session_legal r l : forall c c', legal_config r c -> Forall (sane_action r) l -> session c l = Ret c' -> legal_config r c'.
Proof.
  induction l as [|a l IH]; intros c c' Hc Hl E; cbn [session] in E; [by injection E as <-|].
  apply list.Forall_cons in Hl as [Ha Hl]. apply res_bind_inv in E as (c1 & E1 & E).
  eapply IH; [|done|exact E]. by eapply act_legal.
Qed.
End stream.

(** C15: a stream only sends frames that RFC 6455 allows its endpoint to send.  Start with
    an empty queue (or one of legal frames) and a pool of reset frames, and let anything
    happen: blocking and asynchronous writes of messages and of frames that may be sent,
    closes whose reason fits, flushes, reads of frames and of messages, interleaved with the
    completions of the transport in any way, in any state and with any peer.  Afterwards
    each frame in the queue or in flight is final, has no reserved bit set, carries a known
    opcode, is masked exactly when the stream is a client's, and if it is a control frame
    its payload has at most 125 bytes, a close frame's at least the status code; this
    includes the answers the stream makes up itself, to pings, closes and violations. *)
Theorem frames_legal {P T : Type} `{GoRuntime} `{FramePool P} `{Reader T} `{Writer T}
    (genMask : nat -> list byte) (fuel : nat) (s : Stream P T) (l : list action) (c' : config P T) :
  (forall n, length (genMask n) = 4%nat) ->
  pool_ok (framePool s) -> Forall (legal_frame (role s)) (pendingFrames s) -> Forall (sane_action (role s)) l ->
  session genMask fuel (Config s [] [] []) l = Ret c' ->
  role (strm c') = role s /\ Forall (legal_frame (role s)) (pendingFrames (strm c')) /\
  Forall (sane_pending (role s)) (waiting c').
Proof.
  intros Hg Hp Hq Hl E.
  destruct (session_legal genMask fuel Hg (role s) l (Config s [] [] []) c') as ((Hr & _ & Hq') & _ & Hw); [|done..].
  split_and!; [by split_and!|constructor|constructor].
Qed.

#[local] Existing Instance doubling_runtime.

(** A client says hi, starts reading a message and receives a ping: the pong is in flight
    when it closes the stream. *)
Lemma frames_legal_witness :
  let s := client (connected [wire_bytes ping_wire]) [] in
  let l := [Blocking (DoWrite [Byte.x68; Byte.x69] TypeText); Start (AsyncNextMessage [Byte.x00]); Turn; Turn; Turn;
            Turn; Turn; Turn; Turn; Turn; Turn; Start (AsyncClose CloseNormal [] UserDone); Turn] in
  exists c, session key 200 (Config s [] [] []) l = Ret c /\
    length (pendingFrames (strm c)) = 1%nat /\ length (waiting c) = 1%nat /\
    role (strm c) = role s /\ Forall (legal_frame (role s)) (pendingFrames (strm c)) /\
    Forall (sane_pending (role s)) (waiting c).
Proof.
  intros s l. destruct (session key 200 (Config s [] [] []) l) as [c| |] eqn:E; [|vm_compute in E; done|vm_compute in E; done].
  exists c. split; [done|].
  assert ((c ← session key 200 (Config s [] [] []) l; Ret (length (pendingFrames (strm c)), length (waiting c))) = Ret (1%nat, 1%nat))
    as L by (vm_compute; reflexivity).
  rewrite E in L. injection L as L1 L2. split; [exact L1|]. split; [exact L2|].
  apply (frames_legal key 200 s l c).
  - done.
  - intros f Hf. inversion Hf.
  - constructor.
  - repeat constructor; vm_compute; done.
  - exact E.
Defined.
