(* ===== verification/WebsocketStates.v ===== *)
(** The life of a WebSocket stream's state ([StreamState] in
    [src/codec/websocket/definitions.go]) when blocking and asynchronous calls are mixed.

    The sessions are those of [WebsocketLegal]: blocking calls, starts of asynchronous ones,
    and steps of the event loop.  A read that has been started is a token, carried by the
    calls and the transport operations it consists of; one read at a time is one token. *)

From stdpp Require Import relations.
From S2P Require Import Prelude GoSlice GoIO ByteBuffer Codec WebsocketFrame WebsocketCodec WebsocketWire WebsocketStream WebsocketStreamSpec WebsocketStreamProps WebsocketAsync WebsocketLegal.

(** The documented transitions, and the one [AsyncNextFrame] makes from every state when it
    cannot read. *)
Definition async_moves (st st' : StreamState) : Prop := moves st st' \/ st' = StateTerminated.

Lemma async_moves_from st st' : rtc async_moves st st' ->
  (st = StateTerminated -> st' = StateTerminated)
  /\ (terminal st -> st' = st \/ st' = StateTerminated)
  /\ (st <> StateActive -> st' <> StateActive).
Proof.
  induction 1 as [st|st st1 st2 Hm _ (IH1 & IH2 & IH3)]; [by auto|].
  destruct Hm as [Hm| ->].
  - assert (st <> StateTerminated /\ ~ terminal st /\ st1 <> StateActive) as (? & ? & ?).
    { unfold terminal. destruct Hm as [| | |st [-> | ->]]; split_and!; try done; intros [|[]]; done. }
    split_and!; [done|done|auto].
  - rewrite (IH1 eq_refl). by auto.
Qed.

Lemma moves_async st st' : rtc moves st st' -> rtc async_moves st st'.
Proof. apply rtc_subrel. by left. Qed.

(** * Outstanding reads *)

Definition cont_reads (k : flush_cont) : nat := match k with ThenFrame _ => 1 | UserDone | Ignored => 0 end.

Definition call_reads (c : call) : nat :=
  match c with
  | AsyncFlush k | Flushed _ k | AsyncClose _ _ k | AsyncWrite _ _ k | AsyncWriteFrame _ k => cont_reads k
  | AsyncNextFrame _ | asyncNextFrame _ | FrameRead _ _ _ | GotFrame _ _ _ => 1
  end.

Definition pending_reads (p : pending) : nat :=
  match p with Writing _ k => cont_reads k | Reading _ => 1 end.

Definition total (l : list call) (w : list pending) : nat :=
  sum_list_with call_reads l + sum_list_with pending_reads w.

(** The reads that passed the check of the state in [AsyncNextFrame] and will look at what
    arrives. *)
Definition call_awaits (c : call) : bool :=
  match c with asyncNextFrame _ | FrameRead _ _ _ => true | _ => false end.

Definition pending_awaits (p : pending) : bool := match p with Reading _ => true | Writing _ _ => false end.

Definition awaits (l : list call) (w : list pending) : bool := existsb call_awaits l || existsb pending_awaits w.

Lemma awaits_app l1 l2 w1 w2 : awaits (l1 ++ l2) (w1 ++ w2) = awaits l1 w1 || awaits l2 w2.
Proof. unfold awaits. rewrite !existsb_app. by destruct (existsb call_awaits l1), (existsb call_awaits l2), (existsb pending_awaits w1). Qed.

Lemma no_reads_no_awaits l w : total l w = 0%nat -> awaits l w = false.
Proof.
  unfold total, awaits. intros Ht. apply orb_false_iff. split.
  - induction l as [|c l IH]; [done|]. cbn [sum_list_with existsb] in *. rewrite IH by lia.
    destruct c; try done; cbn in Ht; lia.
  - induction w as [|p w IH]; [done|]. cbn [sum_list_with existsb] in *. rewrite IH by lia.
    destruct p; [done|]. cbn in Ht; lia.
Qed.

(** * What the calls do to the state *)

Section states.
Context {P T : Type} `{GoRuntime} `{FramePool P} `{Reader T} `{Writer T}.
Context (genMask : nat -> list byte) (fuel : nat).
Implicit Types (s : Stream P T) (c : config P T).

Lemma with_codecConn_state {A} s call s' (a : A) : with_codecConn s call = Ret (s', a) -> state s' = state s.
Proof.
  unfold with_codecConn. destruct (codecConn s) as [[c t]|]; [|done]. by intros ([conn x] & _ & [= <- _])%res_bind_inv.
Qed.

Lemma releaseFrame_state s f s' : releaseFrame s f = Ret s' -> state s' = state s.
Proof. by intros (g & _ & [= <-])%res_bind_inv. Qed.

Lemma set_transport_state s t : state (set_transport s t) = state s.
Proof. unfold set_transport. by destruct (codecConn s) as [[c t']|]. Qed.

(** A step that holds [n] reads: it does not start more, it leaves a readable state to the
    reads that look at what arrives, and moves the state as documented when it is no read. *)
Record fair (s : Stream P T) (n : nat) (x : Stream P T * effects) : Prop := {
  fair_reads : (total (calls x.2) (starts x.2) <= n)%nat;
  fair_awaits : awaits (calls x.2) (starts x.2) = true -> canRead x.1 = true;
  fair_moves : rtc async_moves (state s) (state x.1);
  fair_quiet : n = 0%nat -> rtc moves (state s) (state x.1) /\ (canRead s = true -> canRead x.1 = true)
}.

(** Most steps leave the state alone. *)
Lemma fair_same s n s' e : state s' = state s -> (total (calls e) (starts e) <= n)%nat ->
  (awaits (calls e) (starts e) = true -> canRead s = true) -> fair s n (s', e).
Proof.
  intros Hs Ht Ha. assert (canRead s' = canRead s) as Hr by (unfold canRead; by rewrite Hs).
  split; cbn [fst snd]; rewrite ?Hs, ?Hr; done.
Qed.

Lemma read_fair s k call x : canRead s = true ->
  ('(s, y) ← with_codecConn s call;
   match y with
   | None => Ret (s, then_wait (Reading k))
   | Some (err, f) => Ret (s, then_calls [FrameRead err f k])
   end) = Ret x -> fair s 1 x.
Proof.
  intros Hr ([s1 y] & E1%with_codecConn_state & E)%res_bind_inv.
  destruct y as [[err f]|]; injection E as <-; by apply fair_same.
Qed.

Lemma run_AsyncFlush_fair s k x : run_AsyncFlush s k = Ret x -> fair s (cont_reads k) x.
Proof.
  unfold run_AsyncFlush. destruct (pendingFrames s) as [|f rest].
  { intros [= <-]. apply fair_same; cbn; [done|lia|done]. }
  intros ([s1 y] & E1%with_codecConn_state & E)%res_bind_inv.
  destruct y as [[err n]|]; [|injection E as <-; apply fair_same; cbn; [done|lia|done]].
  apply res_bind_inv in E as (s2 & E2%releaseFrame_state & [= <-]).
  apply fair_same; [by rewrite E2|destruct err; cbn; lia|by destruct err].
Qed.

Lemma run_Flushed_fair s err k x : run_Flushed s err k = Ret x -> fair s (cont_reads k) x.
Proof.
  destruct k as [|k|]; cbn [run_Flushed]; [intros [= <-]; by apply fair_same| |intros [= <-]; by apply fair_same].
  case_decide; [intros [= <-]; by apply fair_same|].
  destruct err as [e|]; [|destruct (canRead s) eqn:Hr]; intros [= <-].
  1,3: split; cbn; [lia|done|apply rtc_once; by right|done].
  by apply fair_same.
Qed.

Lemma run_FrameRead_fair s err (f : option Frame) k x : canRead s = true ->
  run_FrameRead genMask s err f k = Ret x -> fair s 1 x.
Proof.
  intros Hr E. destruct err as [e|]; cbn [run_FrameRead] in E.
  - case_decide; [apply res_bind_inv in E as (g & _ & E)|]; injection E as <-; [|by apply fair_same].
    split; cbn; [lia|done|apply rtc_once; by right|done].
  - destruct f as [f|]; [|done]. apply res_bind_inv in E as ([s1 e] & E1 & [= <-]).
    apply handleFrame_moves in E1 as [Hm _]; [|done]. split; cbn; [lia|done|by apply moves_async|done].
Qed.

Lemma run_GotFrame_fair s err (f : option Frame) k x : run_GotFrame s err f k = Ret x -> fair s 1 x.
Proof.
  destruct k as [|b n cont mt]; cbn [run_GotFrame]; [intros [= <-]; apply fair_same; cbn; [done|lia|done]|].
  destruct err; [intros [= <-]; apply fair_same; cbn; [done|lia|done]|]. destruct f as [f|]; [|done].
  intros (op & _ & E)%res_bind_inv. destruct (IsControl op).
  { apply res_bind_inv in E as (p & _ & [= <-]). apply fair_same; [|done|done].
    unfold call_control. by destruct (controlCallback s). }
  unfold message_frame in E. apply res_bind_inv in E as (p & _ & E). apply res_bind_inv in E as (len & _ & E).
  cbn zeta in E. destruct (decide (_ \/ _)) in E; [injection E as <-; by apply fair_same|].
  apply res_bind_inv in E as (fin & _ & E).
  destruct cont, (IsContinuation op), fin; injection E as <-; (apply fair_same; cbn; [done|lia|done]).
Qed.

Lemma run_AsyncClose_fair s cc reason k x : run_AsyncClose genMask s cc reason k = Ret x -> fair s (cont_reads k) x.
Proof.
  unfold run_AsyncClose. destruct (state s) eqn:Es;
    try (intros [= <-]; apply fair_same; cbn; [done|lia|done]).
  intros (s1 & E1%queueFrame_state & [= <-])%res_bind_inv. cbn in E1.
  assert (rtc moves StateActive StateClosedByUs) by (apply rtc_once; constructor).
  split; cbn; rewrite ?E1, ?Es; [lia|done|by apply moves_async|]. intros _. split; [done|]. unfold canRead. by rewrite E1.
Qed.

Lemma perform_fair s k x : (call_awaits k = true -> canRead s = true) -> perform genMask s k = Ret x ->
  fair s (call_reads k) x.
Proof.
  intros Ha E. destruct k as [k|err k|k|k|err f k|err f k|cc reason k|b t k|f k]; cbn [perform call_reads] in *.
  - by apply run_AsyncFlush_fair.
  - by apply run_Flushed_fair in E.
  - injection E as <-. by apply fair_same.
  - by eapply read_fair; [apply Ha|].
  - by eapply run_FrameRead_fair; [apply Ha|].
  - by eapply run_GotFrame_fair.
  - by eapply run_AsyncClose_fair.
  - unfold run_AsyncWrite in E. case_decide; [injection E as <-; apply fair_same; cbn; [done|lia|done]|].
    case_decide; [|injection E as <-; apply fair_same; cbn; [done|lia|done]].
    apply res_bind_inv in E as (s1 & E1%queueFrame_state & [= <-]). apply fair_same; cbn; [done|lia|done].
  - unfold run_AsyncWriteFrame in E. case_decide; apply res_bind_inv in E as (s1 & E1 & [= <-]).
    + apply prepareWrite_state in E1. apply fair_same; cbn; [done|lia|done].
    + apply releaseFrame_state in E1. apply fair_same; cbn; [done|lia|done].
Qed.

Lemma complete_fair s p x : (pending_awaits p = true -> canRead s = true) -> complete fuel s p = Ret x ->
  fair s (pending_reads p) x.
Proof.
  intros Ha E. unfold complete in E. destruct (codecConn s) as [[c t]|]; [|done]. destruct p as [sent k|k].
  - apply res_bind_inv in E as ([t' [n err]] & _ & E). apply res_bind_inv in E as ([s1 [err1 n1]] & E1 & E).
    apply with_codecConn_state in E1. rewrite set_transport_state in E1.
    apply res_bind_inv in E as (s2 & E2%releaseFrame_state & [= <-]).
    apply fair_same; [by rewrite E2|destruct err1; cbn; lia|by destruct err1].
  - apply res_bind_inv in E as (b & _ & E). apply res_bind_inv in E as ([t' out] & _ & E).
    assert (fair (set_transport s t') 1 x) as [F1 F2 F3 F4].
    { eapply read_fair; [|exact E]. unfold canRead. rewrite set_transport_state. by apply Ha. }
    split; [done|done|by rewrite <-(set_transport_state s t')|done].
Qed.

(** * Sessions *)

Definition reads c : nat := total (stack c) (waiting c).

(** An asynchronous read of a frame or a message. *)
Definition starts_read (a : action) : bool := match a with Start (AsyncNextFrame _) => true | _ => false end.

(** What an application that reads one frame or message at a time may do now. *)
Definition orderly c (a : action) : bool :=
  match a with
  | Blocking DoNextFrame | Blocking (DoNextMessage _ _) => Nat.eqb (reads c) 0
  | Blocking _ => true
  | Start (AsyncNextFrame _) => Nat.eqb (reads c) 0
  | Start (AsyncFlush UserDone) | Start (AsyncClose _ _ UserDone)
  | Start (AsyncWrite _ _ UserDone) | Start (AsyncWriteFrame _ UserDone) => true
  | Start _ => false
  | Turn => true
  end.

Fixpoint orderly_session c (l : list action) : bool :=
  match l with
  | [] => true
  | a :: l => orderly c a && match act genMask fuel c a with Ret c' => orderly_session c' l | _ => true end
  end.

Definition single c : Prop := (reads c <= 1)%nat /\ (awaits (stack c) (waiting c) = true -> canRead (strm c) = true).

(** One step of the loop, by what it performs: [n] reads of the step, the others in [rest]. *)
Lemma after_single c n rest w x : fair (strm c) n x -> (n + total rest w <= 1)%nat ->
  (awaits rest w = true -> canRead (strm c) = true) -> single (after c rest w x).
Proof.
  intros [F1 F2 F3 F4] Hn Ha. unfold single, reads, after. cbn [stack waiting strm].
  assert (total (calls x.2 ++ rest) (w ++ starts x.2) = total (calls x.2) (starts x.2) + total rest w)%nat as ->.
  { unfold total. rewrite !sum_list_with_app. lia. }
  split; [lia|].
  assert (awaits (calls x.2 ++ rest) (w ++ starts x.2) = awaits (calls x.2) (starts x.2) || awaits rest w) as ->.
  { unfold awaits. rewrite !existsb_app. by destruct (existsb call_awaits rest), (existsb call_awaits (calls x.2)),
      (existsb pending_awaits w), (existsb pending_awaits (starts x.2)). }
  intros [Hx|Hx]%orb_true_iff; [by apply F2|]. apply F4; [|by apply Ha].
  destruct n; [done|]. rewrite no_reads_no_awaits in Hx; [done|lia].
Qed.

Lemma step_single c c' : single c -> step genMask fuel c = Ret c' ->
  single c' /\ rtc async_moves (state (strm c)) (state (strm c'))
  /\ (reads c = 0%nat -> reads c' = 0%nat /\ rtc moves (state (strm c)) (state (strm c'))).
Proof.
  assert (forall n rest w x, fair (strm c) n x -> n + total rest w = 0 -> reads (after c rest w x) = 0)%nat as Hz.
  { intros n rest w x [F1 _ _ _] Hn. unfold reads, after, total in *. cbn [stack waiting].
    rewrite !sum_list_with_app. lia. }
  intros [Ht Ha] E. unfold step in E. destruct (stack c) as [|k rest] eqn:Ek.
  - destruct (waiting c) as [|p w] eqn:Ew; [injection E as <-; split_and!; [by split; rewrite ?Ek, ?Ew|done|done]|].
    apply res_bind_inv in E as (x & Ex & [= <-]).
    assert (fair (strm c) (pending_reads p) x) as F.
    { apply complete_fair; [|done]. intros Hp. apply Ha. unfold awaits. cbn [existsb]. by rewrite Hp, orb_true_r. }
    assert (reads c = pending_reads p + total [] w)%nat as Hr by (unfold reads; rewrite Ek, Ew; unfold total; cbn; lia).
    rewrite Hr in *. split_and!.
    + apply (after_single c (pending_reads p)); [done|done|]. intros Hw. apply Ha. unfold awaits in *. cbn in *.
      by rewrite Hw, orb_true_r.
    + by destruct F.
    + intros H0'. split; [by eapply Hz|]. apply (fair_quiet _ _ _ F). lia.
  - apply res_bind_inv in E as (x & Ex & [= <-]).
    assert (fair (strm c) (call_reads k) x) as F.
    { apply perform_fair; [|done]. intros Hp. apply Ha. unfold awaits. cbn [existsb]. by rewrite Hp. }
    assert (reads c = call_reads k + total rest (waiting c))%nat as Hr by (unfold reads; rewrite Ek; unfold total; cbn; lia).
    rewrite Hr in *. split_and!.
    + apply (after_single c (call_reads k)); [done|done|]. intros Hw. apply Ha. unfold awaits in *. cbn [existsb].
      by rewrite <-orb_assoc, Hw, orb_true_r.
    + by destruct F.
    + intros H0'. split; [by eapply Hz|]. apply (fair_quiet _ _ _ F). lia.
Qed.

(** A blocking call that does not read keeps the state readable. *)
Lemma apply_op_canRead s op s' : match op with DoNextFrame | DoNextMessage _ _ => False | _ => True end ->
  apply_op genMask fuel s op = Ret s' -> canRead s = true -> canRead s' = true.
Proof.
  intros Hop E Hr. assert (state s' = state s \/ state s' = StateClosedByUs) as Hs.
  { destruct op; try done; unfold apply_op in E; apply res_bind_inv in E as ([s1 y] & E & [= <-]).
    - left. by eapply Flush_state.
    - left. unfold Stream_Write in E. case_decide; [by injection E as <- _|].
      case_decide; [|by injection E as <- _]. apply res_bind_inv in E as (s2 & E2%queueFrame_state & E).
      by rewrite (Flush_state _ _ _ _ E).
    - left. unfold WriteFrame in E. case_decide; apply res_bind_inv in E as (s2 & E2 & E).
      + by rewrite (Flush_state _ _ _ _ E), (prepareWrite_state _ _ _ _ E2).
      + injection E as <- _. by eapply releaseFrame_state.
    - unfold Stream_Close in E. destruct (state s) eqn:Es; try (injection E as <- _; by left).
      right. apply res_bind_inv in E as (s2 & E2%queueFrame_state & E). by rewrite (Flush_state _ _ _ _ E), E2. }
  unfold canRead in *. by destruct Hs as [-> | ->].
Qed.

Lemma act_single c a c' : single c -> orderly c a = true -> act genMask fuel c a = Ret c' ->
  single c' /\ rtc async_moves (state (strm c)) (state (strm c'))
  /\ (reads c = 0%nat -> starts_read a = false -> reads c' = 0%nat /\ rtc moves (state (strm c)) (state (strm c'))).
Proof.
  intros Hs Ho E. destruct a as [op|k|]; cbn [act] in E.
  - apply res_bind_inv in E as (s & Es & [= <-]). pose proof (apply_op_moves _ _ _ _ _ Es) as Hm.
    split_and!; [|by apply moves_async|done]. destruct Hs as [Ht Ha]. split; [done|]. cbn [stack waiting strm].
    intros Hw. pose proof (fun H => apply_op_canRead _ op _ H Es (Ha Hw)) as Hk.
    destruct op; try exact (Hk I);
      cbn in Ho; apply Nat.eqb_eq in Ho; unfold reads in Ho; by rewrite (no_reads_no_awaits _ _ Ho) in Hw.
  - injection E as <-. destruct Hs as [Ht Ha]. split_and!; [|done|].
    + split; [unfold reads, total in *; cbn [stack waiting sum_list_with]|].
      * destruct k as [[]|[]|k|k|err f k|err f k|cc reason []|b t []|f []]; cbn in *; try done; try lia.
        apply Nat.eqb_eq in Ho. unfold reads, total in Ho. lia.
      * intros Hw. apply Ha. unfold awaits in *. cbn [stack waiting existsb] in Hw.
        by destruct k as [[]|[]|k|k|err f k|err f k|cc reason []|b t []|f []].
    + intros Hr Hk. split; [|done]. unfold reads, total in *. cbn [stack waiting sum_list_with].
      by destruct k as [[]|[]|k|k|err f k|err f k|cc reason []|b t []|f []].
  - destruct (step_single c c' Hs E) as (Hs' & Hm & Hq). by split_and!; [| |intros Hr _; apply Hq].
Qed.

Lemma session_single l : forall c c', single c -> orderly_session c l = true -> session genMask fuel c l = Ret c' ->
  single c' /\ rtc async_moves (state (strm c)) (state (strm c'))
  /\ (reads c = 0%nat -> Forall (fun a => starts_read a = false) l ->
      reads c' = 0%nat /\ rtc moves (state (strm c)) (state (strm c'))).
Proof.
  induction l as [|a l IH]; intros c c' Hs Ho E; cbn [session orderly_session] in *; [by injection E as <-; split_and!|].
  apply res_bind_inv in E as (c1 & E1 & E). rewrite E1 in Ho. apply andb_true_iff in Ho as [Ha Ho].
  destruct (act_single c a c1 Hs Ha E1) as (Hs1 & Hm1 & Hq1).
  destruct (IH c1 c' Hs1 Ho E) as (Hs2 & Hm2 & Hq2). split_and!; [done|by etransitivity|].
  intros Hr Hl. apply list.Forall_cons in Hl as [Hl1 Hl2]. destruct (Hq1 Hr Hl1) as [Hr1 Hmm].
  destruct (Hq2 Hr1 Hl2) as [Hr2 Hmm2]. split; [done|by etransitivity].
Qed.

Lemma orderly_app l1 l2 : forall c c1, orderly_session c (l1 ++ l2) = true -> session genMask fuel c l1 = Ret c1 ->
  orderly_session c l1 = true /\ orderly_session c1 l2 = true.
Proof.
  induction l1 as [|a l1 IH]; intros c c1 Ho E; cbn [app session orderly_session] in *; [by injection E as <-|].
  apply res_bind_inv in E as (c0 & E0 & E). rewrite E0 in *. apply andb_true_iff in Ho as [Ha Ho].
  destruct (IH c0 c1 Ho E) as [H1' H2']. by rewrite Ha, H1'.
Qed.
End states.

(** C10: How the state of a stream moves between two handshakes, under any mix of blocking
    calls, asynchronous calls and completions of the transport that reads one frame or
    message at a time; [c1] and [c2] are any two moments.  If no asynchronous read was
    started, the state only moves along the documented transitions (active to closed by us,
    by the peer or terminated; closed by us to acknowledged or terminated), so that it stays
    as it is once closed by the peer, acknowledged or terminated.  With asynchronous reads
    there is one more transition, to terminated from every state ([AsyncNextFrame] on a
    stream that cannot be read): closed by the peer and acknowledged are then only ever
    replaced by terminated, terminated is never left, and no stream becomes active again. *)
Theorem state_progress {P T : Type} `{GoRuntime} `{FramePool P} `{Reader T} `{Writer T}
    (genMask : nat -> list byte) (fuel : nat) (s : Stream P T) (l1 l2 : list action) (c1 c2 : config P T) :
  let st1 := state (strm c1) in let st2 := state (strm c2) in
  orderly_session genMask fuel (Config s [] [] []) (l1 ++ l2) = true ->
  session genMask fuel (Config s [] [] []) l1 = Ret c1 -> session genMask fuel c1 l2 = Ret c2 ->
  rtc async_moves st1 st2
  /\ (st1 = StateTerminated -> st2 = StateTerminated)
  /\ (terminal st1 -> st2 = st1 \/ st2 = StateTerminated)
  /\ (st1 <> StateActive -> st2 <> StateActive)
  /\ (Forall (fun a => starts_read a = false) (l1 ++ l2) -> rtc moves st1 st2 /\ (terminal st1 -> st2 = st1)).
Proof.
  intros st1 st2 Ho E1 E2. destruct (orderly_app _ _ _ _ _ _ Ho E1) as [Ho1 Ho2].
  destruct (session_single genMask fuel l1 (Config s [] [] []) c1) as (Hs1 & _ & Hq1); [by split; [cbn; lia|]|done|done|].
  destruct (session_single genMask fuel l2 c1 c2) as (_ & Hm & Hq2); [done..|].
  pose proof (async_moves_from _ _ Hm) as (Ht & Htt & Ha). split_and!; [done..|].
  intros [Hl1 Hl2]%list.Forall_app. destruct (Hq1 eq_refl Hl1) as [Hr _]. destruct (Hq2 Hr Hl2) as [_ Hmm].
  split; [done|]. intros Hst. by apply terminal_stays.
Qed.

#[local] Existing Instance doubling_runtime.

(** A client closes, reads the peer's close frame asynchronously, and reads once more. *)
Lemma state_progress_witness :
  let s := client (connected [wire_bytes close_wire]) [] in
  let l1 := [Blocking (DoClose CloseNormal []); Start (AsyncNextFrame UserFrame); Turn; Turn; Turn; Turn; Turn; Turn; Turn; Turn] in
  let l2 := [Start (AsyncNextFrame UserFrame); Turn; Turn; Turn; Turn] in
  exists c1 c2, session key 200 (Config s [] [] []) l1 = Ret c1 /\ session key 200 c1 l2 = Ret c2
    /\ state (strm c1) = StateCloseAcked /\ state (strm c2) = StateTerminated
    /\ (terminal (state (strm c1)) -> state (strm c2) = state (strm c1) \/ state (strm c2) = StateTerminated).
Proof.
  intros s l1 l2.
  destruct (session key 200 (Config s [] [] []) l1) as [c1| |] eqn:E1; [|vm_compute in E1; done..].
  assert ((c ← session key 200 (Config s [] [] []) l1; Ret (state (strm c))) = Ret StateCloseAcked) as L1 by (vm_compute; reflexivity).
  assert ((c ← session key 200 (Config s [] [] []) l1; c ← session key 200 c l2; Ret (state (strm c))) = Ret StateTerminated)
    as L2 by (vm_compute; reflexivity).
  rewrite E1 in L1, L2. injection L1 as L1. cbn [mbind res_bind] in L2.
  destruct (session key 200 c1 l2) as [c2| |] eqn:E2; [|done|done]. injection L2 as L2.
  exists c1, c2. split_and!; [done..|].
  by apply (state_progress key 200 s l1 l2 c1 c2); [vm_compute|exact E1|exact E2].
Defined.
