(* ===== verification/StreamsTalk.v ===== *)
(** Two WebSocket streams of opposite roles, one writing and the other reading: what
    [Write] of one puts on its transport is what [NextMessage] of the other delivers. *)

From S2P Require Import Prelude GoSlice GoIO ByteBuffer Codec Utf8 WebsocketFrame WebsocketWire WebsocketCodec CodecRoundTrip WebsocketStream WebsocketStreamSpec WebsocketStreamProps.

(** A message: its type and its bytes. *)
Abbreviation message := (Z * list byte)%type.

Definition peer_role (r : Role) : Role := match r with RoleClient => RoleServer | RoleServer => RoleClient end.

(** What is read of a payload sent with the key [k]: the reading side never unmasks. *)
Definition as_read (r : Role) (k : list byte) (m : message) : message :=
  (m.1, match r with RoleClient => xor_mask k m.2 | RoleServer => m.2 end).

Section talk.
Context {P T : Type} `{GoRuntime} `{FramePool P} `{Duplex T} `{!WriterLaws T} `{!ReliableWriter T}.
Context (genMask : nat -> list byte) (fuel : nat).
Context (genMask_len : forall n, length (genMask n) = 4%nat).
Implicit Types (s : Stream P T) (m : message).

(** [Write] for each message until one fails. *)
Fixpoint write_messages s (ms : list message) : res (Stream P T * option error) :=
  match ms with
  | [] => Ret (s, None)
  | m :: ms =>
      '(s, err) ← Stream_Write genMask fuel s m.2 m.1;
      match err with Some e => Ret (s, Some e) | None => write_messages s ms end
  end.

(** [NextMessage] into the same buffer [n] times, keeping a copy of each message. *)
Fixpoint read_messages (rounds : nat) s (b : list byte) (n : nat) : res (Stream P T * list message * option error) :=
  match n with
  | O => Ret (s, [], None)
  | Datatypes.S n =>
      '(s, b, (typ, k, err)) ← NextMessage genMask fuel rounds s b;
      match err with
      | Some e => Ret (s, [], Some e)
      | None => '(s, l, err) ← read_messages rounds s b n; Ret (s, (typ, ztake k b) :: l, err)
      end
  end.

(** ** Sending *)

Definition sendable_message s m : Prop :=
  (m.1 = OpcodeText \/ m.1 = OpcodeBinary) /\ zlen m.2 <= maxMessageSize s /\ zlen m.2 <= 2 ^ 47 /\ zlen m.2 + 14 <= Z.of_nat fuel.

(** The frames in the pool have room for the lengths: none is needed for short messages,
    and messages of eight bytes or more leave frames with room behind. *)
Definition room_for s (ms : list message) : Prop :=
  Forall (fun m => zlen m.2 <= 125) ms \/ (roomy (framePool s) /\ Forall (fun m => 8 <= zlen m.2) ms).

Lemma Reset_slen f g : Frame_Reset f = Ret g -> slen g = slen f.
Proof. unfold Frame_Reset, copy_at. case_decide; [| done]. res_step. by intros [= <-]. Qed.

Lemma Flush_loop_roomy l : forall s s' r, Flush_loop fuel s l = Ret (s', r) -> Forall (fun f => 10 <= slen f) l ->
  roomy (framePool s) -> roomy (framePool s').
Proof.
  induction l as [|f l IH]; intros s s' r; cbn [Flush_loop]; [by intros [= <- _]|].
  intros E [Hf Hl]%list.Forall_cons Hr. apply res_bind_inv in E as ([s2 [n e2]] & E2 & E).
  assert (framePool s2 = framePool s) as Hs2.
  { unfold with_codecConn in E2. destruct (codecConn s) as [[c t]|]; [|done]. by apply res_bind_inv in E2 as ([conn x] & _ & [= <- _]). }
  destruct e2; [injection E as <- _; by rewrite Hs2|]. apply res_bind_inv in E as (s3 & E3 & E). apply (IH _ _ _ E Hl).
  unfold releaseFrame in E3. apply res_bind_inv in E3 as (g & Eg & [= <-]). intros h Hh. cbn in Hh.
  apply pool_put_ok in Hh as [->|Hh]; [by rewrite (Reset_slen _ _ Eg)|apply Hr; by rewrite <-Hs2].
Qed.

Lemma long_out_wire r k op p : wire_ok (out_wire r k op p) -> 8 <= zlen p -> 10 <= zlen (wire_bytes (out_wire r k op p)).
Proof.
  intros Hok Hp. rewrite (length_wire_bytes _ Hok). destruct r; cbn [out_wire w_payload w_masked w_mask]; rewrite ?length_xor_mask; lia.
Qed.

Lemma send_roomy s c t op p s' e : stream_inv s c t [] -> zlen p <= 2 ^ 47 -> 8 <= zlen p -> roomy (framePool s) ->
  (s ← queueFrame genMask s op p; Flush fuel s) = Ret (s', e) -> roomy (framePool s').
Proof.
  intros (Hc & Hd & Hq & Hp) Hl H8 Hr E. apply Forall2_nil_inv_r in Hq.
  destruct (queueFrame_ok genMask genMask_len s op p Hp Hl (fun _ => Hr)) as (q & d & f & k & Eq & Hsub & _ & _ & Hqf).
  rewrite Eq in E. cbn [mbind res_bind] in E. unfold Flush in E. apply res_bind_inv in E as ([s1 [fs e1]] & E & [= <- _]).
  rewrite Hq in E. cbn [app pendingFrames set_pending] in E. eapply (Flush_loop_roomy _ _ _ _ E); [| intros g Hg; apply Hr, Hsub, Hg].
  constructor; [| done]. destruct Hqf as [(Hf & Hok & _) _]. pose proof (frame_accessors f _ Hf Hok) as (_ & _ & _ & _ & _ & ->).
  by apply long_out_wire.
Qed.

(** One message. *)
Lemma Write_sends s c t m : stream_inv s c t [] -> state s = StateActive -> sendable_message s m ->
  takes_length (next_frame s) (zlen m.2) ->
  exists s' t' k, Stream_Write genMask fuel s m.2 m.1 = Ret (s', None) /\ length k = 4%nat /\
    stream_inv s' c t' [] /\ state s' = StateActive /\ same_config s s' /\
    wlog t' = wlog t ++ wire_bytes (out_wire (role s) k m.1 m.2).
Proof.
  intros Hi Hst (Ht & Hm & Hl & Hf) Hroom. unfold Stream_Write. rewrite decide_False, decide_True by (done || lia).
  destruct (send_built genMask fuel genMask_len s c t m.1 m.2 Hi Hl Hroom Hf) as
    (s' & t' & e & x & k & E & Hk & _ & _ & Hst' & _ & Hcfg & _ & Hrel & Hlog & _ & He).
  rewrite (Hrel _) in *. destruct (He eq_refl) as [-> Hi']. exists s', t', k. rewrite Hst'. by split_and!.
Qed.

Lemma Write_short s m : state s = StateActive -> sendable_message s m -> ~ takes_length (next_frame s) (zlen m.2) ->
  Stream_Write genMask fuel s m.2 m.1 = Panic.
Proof.
  intros Hst (Ht & Hm & Hl & Hf) Hroom. unfold Stream_Write. rewrite decide_False, decide_True by (done || lia).
  by rewrite queueFrame_short.
Qed.

(** With room there is room for the next message too. *)
Lemma Write_room s c t m ms : stream_inv s c t [] -> state s = StateActive -> sendable_message s m -> room_for s (m :: ms) ->
  takes_length (next_frame s) (zlen m.2) /\
  forall s', Stream_Write genMask fuel s m.2 m.1 = Ret (s', None) -> room_for s' ms.
Proof.
  intros Hi Hst (Ht & Hm & Hl & Hf) Hroom. split.
  - apply roomy_takes. destruct Hroom as [[Hs _]%list.Forall_cons | [Hr _]]; [lia | done].
  - intros s'. unfold Stream_Write. rewrite decide_False, decide_True by (done || lia). intros E.
    destruct Hroom as [[_ Hs]%list.Forall_cons | [Hro [H8 Hs]%list.Forall_cons]]; [by left | right; split; [| done]].
    by apply (send_roomy s c t m.1 m.2 s' None).
Qed.

Lemma sendable_messages s s' ms : maxMessageSize s' = maxMessageSize s -> Forall (sendable_message s) ms ->
  Forall (sendable_message s') ms.
Proof. intros Hm Hms. eapply list.Forall_impl; [exact Hms |]. unfold sendable_message. by rewrite Hm. Qed.

Lemma write_messages_ok ms : forall s c t, stream_inv s c t [] -> state s = StateActive -> Forall (sendable_message s) ms ->
  write_messages s ms = Panic \/
  exists s' t' ks, write_messages s ms = Ret (s', None) /\ length ks = length ms /\ Forall (fun k => length k = 4%nat) ks /\
    stream_inv s' c t' [] /\ state s' = StateActive /\ same_config s s' /\
    wlog t' = wlog t ++ concat (wire_bytes <$> zip_with (fun k m => out_wire (role s) k m.1 m.2) ks ms).
Proof.
  induction ms as [| m ms IH]; intros s c t Hi Hst Hms.
  { right. exists s, t, []. cbn. rewrite app_nil_r. split_and!; try done. }
  apply list.Forall_cons in Hms as [Hm Hms]. cbn [write_messages].
  destruct (decide (takes_length (next_frame s) (zlen m.2))) as [Hr | Hr]; [| left; by rewrite Write_short].
  destruct (Write_sends s c t m Hi Hst Hm Hr) as (s1 & t1 & k & -> & Hk & Hi1 & Hst1 & Hcfg & Hlog). res_step.
  destruct Hcfg as (Hro & Hmx & Hv & Hcb & Hcl).
  destruct (IH s1 c t1 Hi1 Hst1) as [E | (s2 & t2 & ks & E & Hlen & Hks & Hi2 & Hst2 & (Hro2 & Hmx2 & Hv2 & Hcb2 & Hcl2) & Hlog2)];
    [by apply (sendable_messages s) | by left | right].
  exists s2, t2, (k :: ks). rewrite E, Hlog2, Hlog, Hro. split_and!; try done; [cbn; lia | by constructor | split_and!; congruence |].
  cbn. by rewrite <- app_assoc.
Qed.

Lemma write_messages_room ms : forall s c t, stream_inv s c t [] -> state s = StateActive -> Forall (sendable_message s) ms ->
  room_for s ms -> write_messages s ms <> Panic.
Proof.
  induction ms as [| m ms IH]; intros s c t Hi Hst Hms Hroom; [done |].
  apply list.Forall_cons in Hms as [Hm Hms]. cbn [write_messages].
  destruct (Write_room s c t m ms Hi Hst Hm Hroom) as [Hr Hnext].
  destruct (Write_sends s c t m Hi Hst Hm Hr) as (s1 & t1 & k & E & _ & Hi1 & Hst1 & (_ & Hmx & _) & _).
  rewrite E. res_step. eapply IH; [done | done | by apply (sendable_messages s) | by apply Hnext].
Qed.

(** ** Receiving *)

Lemma out_wire_frame r k m : length k = 4%nat -> m.1 = OpcodeText \/ m.1 = OpcodeBinary -> zlen m.2 <= 2 ^ 47 ->
  data_frame (peer_role r) m.1 true (out_wire r k m.1 m.2) /\ w_payload (out_wire r k m.1 m.2) = (as_read r k m).2.
Proof.
  intros Hk Ht Hl. destruct (first_byte_fields m.1) as (Hf & Hr & Ho).
  assert (Z.land m.1 15 = m.1) as Hop by (by destruct Ht as [-> | ->]). rewrite Hop in Ho.
  split; [| by destruct r]. destruct r; (split; [split_and!|]; try done; split; cbn [out_wire w_mask w_payload]; [| rewrite ?length_xor_mask; lia]).
  - by intros ? [= <-].
  - done.
Qed.

(** A message in one frame. *)
Lemma NextMessage_one rounds r s c t typ w b rest : live s c t [] (wire_bytes w ++ rest) -> data_frame r typ true w ->
  typ = OpcodeText \/ typ = OpcodeBinary -> reading r s -> zlen (w_payload w) <= WebsocketCodec.maxMessageSize c ->
  zlen (w_payload w) <= zlen b -> zlen (w_payload w) <= maxMessageSize s -> (length (pend t) < fuel)%nat ->
  exists s' c' t', NextMessage genMask fuel (Datatypes.S rounds) s b =
      Ret (s', w_payload w ++ zdrop (zlen (w_payload w)) b, (typ, zlen (w_payload w), None)) /\
    live s' c' t' [] rest /\ reading r s' /\ maxMessageSize s' = maxMessageSize s /\
    WebsocketCodec.maxMessageSize c' = WebsocketCodec.maxMessageSize c /\ (length (pend t') <= length (pend t))%nat.
Proof.
  intros Hl Hw Ht Hrd Hc Hb Hm Hf. assert (data_opcode typ) as Hd by (unfold data_opcode; tauto).
  destruct (NextFrame_reading genMask fuel genMask_len s c t [] w rest None Hl (list.Forall_nil_2 _) (proj1 Hw) Hc Hrd Hf)
    as (s' & c' & t' & f & out & E & Hfr & Hrd' & (_ & Hmx & _) & Hans & Hl' & _ & Hpd & Hmc); [by eapply react_fragment |].
  cbn in Hans. subst out. exists s', c', t'. split_and!; try done. unfold NextMessage.
  apply (NextMessage_fragment genMask fuel rounds s s' f typ true w [] b false typ TypeNone E Hfr Hw Hd); try done; [| cbn; lia].
  by destruct Ht as [-> | ->].
Qed.

Lemma read_messages_ok rounds r ks ms : forall s c t b rest, length ks = length ms -> Forall (fun k => length k = 4%nat) ks ->
  Forall (fun m => (m.1 = OpcodeText \/ m.1 = OpcodeBinary) /\ zlen m.2 <= 2 ^ 47 /\ zlen m.2 <= zlen b /\
    zlen m.2 <= maxMessageSize s /\ zlen m.2 <= WebsocketCodec.maxMessageSize c) ms ->
  live s c t [] (concat (wire_bytes <$> zip_with (fun k m => out_wire r k m.1 m.2) ks ms) ++ rest) ->
  reading (peer_role r) s -> (length (pend t) < fuel)%nat ->
  exists s' c' t', read_messages (Datatypes.S rounds) s b (length ms) = Ret (s', zip_with (as_read r) ks ms, None) /\
    live s' c' t' [] rest /\ reading (peer_role r) s'.
Proof.
  revert ks; induction ms as [| m ms IH]; intros [| k ks] s c t b rest Hlen Hks Hms Hl Hrd Hf; try done; [by exists s, c, t |].
  apply list.Forall_cons in Hks as [Hk Hks]. apply list.Forall_cons in Hms as [(Ht & H47 & Hb & Hm & Hc) Hms].
  cbn in Hl. rewrite <- app_assoc in Hl. destruct (out_wire_frame r k m Hk Ht H47) as [Hw Hp].
  assert (zlen (as_read r k m).2 = zlen m.2) as Hz by (destruct r; cbn; by rewrite ?length_xor_mask).
  destruct (NextMessage_one rounds _ s c t m.1 _ b _ Hl Hw Ht Hrd) as (s1 & c1 & t1 & E & Hl1 & Hrd1 & Hm1 & Hc1 & Hp1);
    rewrite ?Hp in *; try lia.
  assert (zlen ((as_read r k m).2 ++ zdrop (zlen (as_read r k m).2) b) = zlen b) as Hb1 by llia.
  destruct (IH ks s1 c1 t1 ((as_read r k m).2 ++ zdrop (zlen (as_read r k m).2) b) rest) as (s2 & c2 & t2 & E2 & Hl2 & Hrd2); try done; [by injection Hlen | | lia |].
  { rewrite Hm1, Hc1, Hb1. exact Hms. }
  exists s2, c2, t2. cbn [read_messages length]. rewrite E. res_step. rewrite E2. res_step. split_and!; try done.
  rewrite ztake_app_le, ztake_all by lia. by destruct m.
Qed.
End talk.

(** The reading side has room for a message. *)
Definition fits_reader {P T} (s : Stream P T) (c : FrameCodec) (b : list byte) (m : message) : Prop :=
  zlen m.2 <= zlen b /\ zlen m.2 <= maxMessageSize s /\ zlen m.2 <= WebsocketCodec.maxMessageSize c.

(** C17: Messages written to one stream are read from another of the opposite role.  The
    writer is active, with nothing left of earlier writes and a transport that accepts what
    is written; the messages are text or binary and of at most its maximum and 2^47 bytes.
    The writes all succeed or one of them panics, on a frame of the pool that is too short
    for the length of the message; they do not panic if all the messages have at most 125
    bytes, or all at least 8 and the frames in the pool at least 10.  If they succeed, then
    whatever way the transport cuts the bytes, as many calls of [NextMessage] by a reader
    with room for each message and no UTF-8 validation return the messages in order, with
    their types, and leave what follows.  What a server wrote a client reads unchanged.
    What a client wrote a server reads with the masking key still applied: it gets the
    exclusive or of each message with a key of four bytes it is not told, since [stream.go]
    checks that a client masks and never unmasks. *)
Theorem streams_talk {P T P' T' : Type} `{GoRuntime} `{FramePool P} `{Duplex T} `{!WriterLaws T} `{!ReliableWriter T}
    `{FramePool P'} `{Duplex T'} `{!WriterLaws T'} `{!ReliableWriter T'} (genMask genMask' : nat -> list byte)
    (fuel fuel' rounds : nat) (s : Stream P T) (c : FrameCodec) (t : T) (ms : list message) :
  (forall n, length (genMask n) = 4%nat) -> (forall n, length (genMask' n) = 4%nat) ->
  stream_inv s c t [] -> state s = StateActive -> Forall (sendable_message fuel s) ms ->
  (room_for s ms -> write_messages genMask fuel s ms <> Panic) /\
  (write_messages genMask fuel s ms = Panic \/
   exists s' t' sent ks, write_messages genMask fuel s ms = Ret (s', None) /\ stream_inv s' c t' [] /\ state s' = StateActive /\
    wlog t' = wlog t ++ sent /\ length ks = length ms /\ Forall (fun k => length k = 4%nat) ks /\
    forall (q : Stream P' T') d u b rest, live q d u [] (sent ++ rest) -> reading (peer_role (role s)) q ->
      Forall (fits_reader q d b) ms -> (length (pend u) < fuel')%nat ->
      exists q' d' u' got, read_messages genMask' fuel' (Datatypes.S rounds) q b (length ms) = Ret (q', got, None) /\
        live q' d' u' [] rest /\ reading (peer_role (role s)) q' /\
        (role s = RoleServer -> got = ms) /\
        (role s = RoleClient -> got = zip_with (fun k m => (m.1, xor_mask k m.2)) ks ms)).
Proof.
  intros Hg Hg' Hi Hst Hms. split; [by eapply write_messages_room |].
  destruct (write_messages_ok genMask fuel Hg ms s c t Hi Hst Hms) as [E | (s' & t' & ks & E & Hlen & Hks & Hi' & Hst' & _ & Hlog)];
    [by left | right].
  eexists s', t', _, ks. split_and!; try done. intros q d u b rest Hl Hrd Hfit Hf.
  destruct (read_messages_ok genMask' fuel' Hg' rounds (role s) ks ms q d u b rest Hlen Hks) as (q' & d' & u' & E' & Hl' & Hrd'); try done.
  { apply list.Forall_forall. intros m Hm. rewrite list.Forall_forall in Hms, Hfit.
    destruct (Hms m Hm) as (Ht & _ & H47 & _), (Hfit m Hm) as (H1' & H2' & H3'). done. }
  exists q', d', u', (zip_with (as_read (role s)) ks ms). split_and!; try done; intros ->; [| done].
  apply list_eq. intros i. rewrite lookup_zip_with. destruct (ks !! i) as [k |] eqn:Ek; cbn.
  - destruct (ms !! i) as [[] |]; done.
  - symmetry. apply lookup_ge_None. apply lookup_ge_None in Ek. lia.
Qed.

#[local] Existing Instance doubling_runtime.

(** The other end of [client]. *)
Definition server {T} (t : T) : Stream (list Frame) T :=
  mkStream (Some (NewFrameCodec 1024, t)) RoleServer StateActive room room (Slice [] 0) [] [] 1024 false true [] 0%nat.

Lemma server_live cs : live (server (connected cs)) (NewFrameCodec 1024) (connected cs) [] (concat cs).
Proof. destruct (client_live cs) as [Hi Hc]. by split. Qed.

Definition two_messages : list message := [(OpcodeText, [Byte.x68; Byte.x69]); (OpcodeBinary, [Byte.x2a])].

Lemma two_sendable : Forall (sendable_message 50 (server (connected []))) two_messages /\
  room_for (server (connected [])) two_messages.
Proof.
  split; [| left; repeat constructor; vm_compute; discriminate].
  constructor; [| constructor; [| constructor]]; (split; [cbn [fst]; auto | split_and!; vm_compute; discriminate]).
Qed.

Definition server_chunks : list (list byte) := [[Byte.x81; Byte.x02; Byte.x68; Byte.x69; Byte.x82]; [Byte.x01; Byte.x2a; Byte.xff]].
Definition client_chunks : list (list byte) :=
  [[Byte.x81; Byte.x82; Byte.x01; Byte.x02]; [Byte.x03; Byte.x04; Byte.x69; Byte.x6b; Byte.x82; Byte.x81]; [Byte.x01; Byte.x02; Byte.x03; Byte.x04; Byte.x2b]].

(** The frames of either side, cut within them: the client reads the messages, the server
    reads "ik" for "hi". *)
Lemma streams_talk_witness :
  (exists q', read_messages key 50 1 (client (connected server_chunks) []) (repeat Byte.x00 4) 2 = Ret (q', two_messages, None)) /\
  (exists q' ks, read_messages key 50 1 (server (connected client_chunks)) (repeat Byte.x00 4) 2 =
     Ret (q', zip_with (fun k m => (m.1, xor_mask k m.2)) ks two_messages, None)).
Proof.
  split.
  - destruct (streams_talk key key 50 50 0 (server (connected [])) (NewFrameCodec 1024) (connected []) two_messages (P' := list Frame) (T' := PairConn))
      as [Hno [E | (s' & t' & sent & ks & E & (Hc & _) & _ & Hlog & _ & _ & Hr)]];
      [reflexivity | reflexivity | apply server_live | reflexivity | apply two_sendable | by apply Hno in E; [| apply two_sendable] |].
    assert (exists s1, write_messages key 50 (server (connected [])) two_messages = Ret (s1, None) /\
      codecConn s1 = Some (NewFrameCodec 1024, mkPair (mkChunks []) [Byte.x81; Byte.x02; Byte.x68; Byte.x69; Byte.x82; Byte.x01; Byte.x2a]))
      as (s1 & E1 & Hc1) by (eexists; split; vm_compute; reflexivity).
    rewrite E1 in E. injection E as <-. rewrite Hc1 in Hc. injection Hc as <-. cbn [wlog] in Hlog. cbn in Hlog. subst sent.
    destruct (Hr (client (connected server_chunks) []) (NewFrameCodec 1024) (connected server_chunks) (repeat Byte.x00 4) [Byte.xff])
      as (q' & _ & _ & got & E' & _ & _ & Hgot & _);
      [apply client_live | by split_and! | repeat constructor; vm_compute; discriminate | cbn; lia |].
    exists q'. rewrite <- (Hgot eq_refl). exact E'.
  - destruct (streams_talk key key 50 50 0 (client (connected []) []) (NewFrameCodec 1024) (connected []) two_messages (P' := list Frame) (T' := PairConn))
      as [Hno [E | (s' & t' & sent & ks & E & (Hc & _) & _ & Hlog & _ & _ & Hr)]];
      [reflexivity | reflexivity | apply client_live | reflexivity | apply two_sendable | by apply Hno in E; [| apply two_sendable] |].
    assert (exists s1, write_messages key 50 (client (connected []) []) two_messages = Ret (s1, None) /\
      codecConn s1 = Some (NewFrameCodec 1024, mkPair (mkChunks []) (concat client_chunks)))
      as (s1 & E1 & Hc1) by (eexists; split; vm_compute; reflexivity).
    rewrite E1 in E. injection E as <-. rewrite Hc1 in Hc. injection Hc as <-. cbn [wlog] in Hlog. cbn in Hlog. subst sent.
    destruct (Hr (server (connected client_chunks)) (NewFrameCodec 1024) (connected client_chunks) (repeat Byte.x00 4) [])
      as (q' & _ & _ & got & E' & _ & _ & _ & Hgot);
      [apply server_live | by split_and! | repeat constructor; vm_compute; discriminate | cbn; lia |].
    exists q', ks. rewrite <- (Hgot eq_refl). exact E'.
Defined.
