(* ===== verification/NetAddr.v ===== *)
(** Addresses: what the library uses of [net.IP] and [netip.Addr], and the conversions to
    and from socket addresses of [src/internal/util_unix.go]. *)

From S2P Require Import Prelude.

(** * net.IP *)

(** A [net.IP] is a slice of 4 or 16 bytes, or nil. *)
Definition v4InV6Prefix : list byte := replicate 10 Byte.x00 ++ [Byte.xff; Byte.xff].

#[export] Instance byte_eq_dec : EqDecision byte.
Proof. intros x y; destruct (Byte.byte_eq_dec x y); [by left | by right]. Defined.

(** [ip.To4()]: nil when the address is not an IPv4 address. *)
Definition To4 (ip : list byte) : list byte :=
  if decide (zlen ip = 4) then ip
  else if decide (zlen ip = 16 /\ ztake 12 ip = v4InV6Prefix) then zdrop 12 ip
  else [].

(** [var b [4]byte; copy(b[:], src)]. *)
Definition copy4 (src : list byte) : list byte :=
  write_at 0 (ztake 4 src) (replicate 4 Byte.x00).

(** * net.Addr and syscall.Sockaddr *)

Inductive netAddr : Type :=
| TCPAddr (ip : list byte) (port : Z)
| UDPAddr (ip : list byte) (port : Z)
| UnixAddr (name : list byte).

Inductive Sockaddr : Type :=
| SockaddrInet4 (addr : list byte) (port : Z)
| SockaddrInet6 (addr : list byte) (port : Z)
| SockaddrUnix (name : list byte).

(** IPv6 addresses become 0.0.0.0, the four bytes [To4] leaves untouched. *)
Definition ToSockaddr (addr : netAddr) : res Sockaddr :=
  match addr with
  | TCPAddr ip port | UDPAddr ip port => Ret (SockaddrInet4 (copy4 (To4 ip)) port)
  | UnixAddr _ => Panic
  end.

(** [None]: a nil address. *)
Definition FromSockaddr (sa : option Sockaddr) : option netAddr :=
  match sa with
  | Some (SockaddrInet4 addr port) => Some (TCPAddr addr port)
  | Some (SockaddrUnix name) => Some (UnixAddr name)
  | Some (SockaddrInet6 _ _) | None => None
  end.

(** * netip *)

(** [netip.Addr]: the zero value, an IPv4 or an IPv6 address (zones are not used). *)
Inductive Addr : Type :=
| AddrZero
| AddrFrom4 (b : list byte)
| AddrFrom16 (b : list byte).

#[export] Instance Addr_eq_dec : EqDecision Addr.
Proof. solve_decision. Defined.

Definition Is4 (a : Addr) : bool := match a with AddrFrom4 _ => true | _ => false end.
Definition Is6 (a : Addr) : bool := match a with AddrFrom16 _ => true | _ => false end.
Definition Is4In6 (a : Addr) : bool :=
  match a with AddrFrom16 b => bool_decide (ztake 12 b = v4InV6Prefix) | _ => false end.

(** [As4] panics on an address that has no IPv4 form. *)
Definition As4 (a : Addr) : res (list byte) :=
  match a with
  | AddrFrom4 b => Ret b
  | AddrFrom16 b => if Is4In6 a then Ret (zdrop 12 b) else Panic
  | AddrZero => Panic
  end.

Definition AsSlice (a : Addr) : list byte :=
  match a with AddrZero => [] | AddrFrom4 b | AddrFrom16 b => b end.

Record AddrPort : Type := mkAddrPort { ap_addr : Addr; ap_port : Z }.

Definition noAddrPort : AddrPort := mkAddrPort AddrZero 0.
