(* ===== verification/SocketOpts.v ===== *)
(** Options of sockets: [src/sonicopts]. *)

From stdpp Require Import list.
From S2P Require Import Prelude NetAddr.

Inductive OptionType : Type :=
| TypeNonblocking | TypeReusePort | TypeReuseAddr | TypeNoDelay | TypeBindSocket | TypeMulticast | MaxOption.

#[export] Instance OptionType_eq_dec : EqDecision OptionType.
Proof. solve_decision. Defined.

(** What [Value()] returns, an [interface{}]. *)
Inductive opt_value : Type := VBool (v : bool) | VAddr (addr : netAddr).

(** The interface [Option]. *)
Record Option : Type := mkOption { opt_Type : OptionType; opt_Value : opt_value }.

Definition Nonblocking (v : bool) : Option := mkOption TypeNonblocking (VBool v).
Definition ReusePort (v : bool) : Option := mkOption TypeReusePort (VBool v).
Definition ReuseAddr (v : bool) : Option := mkOption TypeReuseAddr (VBool v).
Definition NoDelay (v : bool) : Option := mkOption TypeNoDelay (VBool v).
Definition BindSocket (addr : netAddr) : Option := mkOption TypeBindSocket (VAddr addr).

(** [opt.Value().(bool)] and [opt.Value().(net.Addr)] panic on another type. *)
Definition as_bool (o : Option) : res bool := match opt_Value o with VBool v => Ret v | _ => Panic end.
Definition as_addr (o : Option) : res netAddr := match opt_Value o with VAddr a => Ret a | _ => Panic end.

(** The slice that is returned. *)
Fixpoint AddOption (add : Option) (opts : list Option) : list Option :=
  match opts with
  | [] => [add]
  | cur :: rest => if decide (opt_Type cur = opt_Type add) then add :: rest else cur :: AddOption add rest
  end.

Fixpoint DelOption (del : OptionType) (opts : list Option) : list Option :=
  match opts with
  | [] => []
  | cur :: rest => if decide (opt_Type cur = del) then rest else cur :: DelOption del rest
  end.

(** The slice the caller passed shares the array: [append(opts[:i], opts[i+1:]...)] has
    moved the options after the deleted one to the left, and the last one is there twice. *)
Definition DelOption_caller (del : OptionType) (opts : list Option) : list Option :=
  let r := DelOption del opts in r ++ zdrop (zlen r) opts.

(** The option of a type that [ApplyOpts] sees first. *)
Definition option_of (t : OptionType) (opts : list Option) : option Option :=
  List.find (fun o => bool_decide (opt_Type o = t)) opts.

(** * Options as a map *)

Lemma option_of_cons t o opts :
  option_of t (o :: opts) = if decide (opt_Type o = t) then Some o else option_of t opts.
Proof. unfold option_of; cbn [List.find]; repeat case_decide || case_bool_decide; done. Qed.

Lemma option_of_add t add opts :
  option_of t (AddOption add opts) = if decide (opt_Type add = t) then Some add else option_of t opts.
Proof.
  induction opts as [| o opts IH]; cbn [AddOption]; [by rewrite option_of_cons |].
  destruct (decide (opt_Type o = opt_Type add)); rewrite !option_of_cons, ?IH; repeat case_decide; congruence.
Qed.

Lemma types_add add opts : opt_Type <$> AddOption add opts =
  if decide (opt_Type add ∈ opt_Type <$> opts) then opt_Type <$> opts else (opt_Type <$> opts) ++ [opt_Type add].
Proof.
  induction opts as [| o opts IH]; cbn [AddOption]; [by rewrite decide_False by (by apply not_elem_of_nil) |].
  destruct (decide (opt_Type o = opt_Type add)) as [E | E]; rewrite !fmap_cons.
  - by rewrite E, decide_True by apply list_elem_of_here.
  - assert (opt_Type add ∈ opt_Type o :: (opt_Type <$> opts) <-> opt_Type add ∈ opt_Type <$> opts) as Hiff
      by (rewrite elem_of_cons; intuition congruence).
    rewrite IH; repeat case_decide; tauto || done.
Qed.

Lemma option_of_notin t opts : t ∉ opt_Type <$> opts -> option_of t opts = None.
Proof.
  induction opts as [| o opts IH]; [done |]; rewrite fmap_cons, not_elem_of_cons; intros [Hn Hs].
  rewrite option_of_cons, decide_False by congruence; auto.
Qed.

Lemma option_of_del t del opts : NoDup (opt_Type <$> opts) ->
  option_of t (DelOption del opts) = if decide (t = del) then None else option_of t opts.
Proof.
  induction opts as [| o opts IH]; cbn [DelOption]; [by case_decide |].
  rewrite fmap_cons; intros [Hn Hnd]%list.NoDup_cons; specialize (IH Hnd).
  destruct (decide (opt_Type o = del)) as [E | E]; rewrite !option_of_cons.
  - case_decide as Et; [subst; by apply option_of_notin | by rewrite decide_False by congruence].
  - rewrite IH; repeat case_decide; congruence.
Qed.

Lemma types_del del opts : opt_Type <$> DelOption del opts ⊆ opt_Type <$> opts.
Proof.
  induction opts as [| o opts IH]; cbn [DelOption]; [done |]; case_decide; rewrite !fmap_cons; intros x Hx;
    [by right |]; apply elem_of_cons in Hx as [-> | Hx]; [by left | right; auto].
Qed.

Lemma NoDup_del del opts : NoDup (opt_Type <$> opts) -> NoDup (opt_Type <$> DelOption del opts).
Proof.
  induction opts as [| o opts IH]; cbn [DelOption]; [done |]; rewrite fmap_cons; intros [Hn Hnd]%list.NoDup_cons.
  destruct (decide (opt_Type o = del)); [done |]; rewrite fmap_cons; apply list.NoDup_cons; split; [| auto].
  intros Hin; by apply Hn, (types_del del).
Qed.

(** Options added and removed behave as a map from option types: a list without two
    options of one type stays so, an added option is the one [ApplyOpts] sees for its type,
    a removed type is gone, and the options of other types stay. *)
Theorem options_are_a_map opts (add : Option) (del t : OptionType) : NoDup (opt_Type <$> opts) ->
  NoDup (opt_Type <$> AddOption add opts) /\ NoDup (opt_Type <$> DelOption del opts) /\
  option_of t (AddOption add opts) = (if decide (opt_Type add = t) then Some add else option_of t opts) /\
  option_of t (DelOption del opts) = (if decide (t = del) then None else option_of t opts).
Proof.
  intros Hnd; split_and!; [| by apply NoDup_del | apply option_of_add | by apply option_of_del].
  rewrite types_add; case_decide; [done |]; apply list.NoDup_app; split_and!; [done | | apply NoDup_singleton].
  intros x Hx ->%list_elem_of_singleton; done.
Qed.

Lemma options_are_a_map_witness :
  option_of TypeNoDelay (AddOption (NoDelay true) [Nonblocking true; NoDelay false]) = Some (NoDelay true).
Proof.
  destruct (options_are_a_map [Nonblocking true; NoDelay false] (NoDelay true) TypeReusePort TypeNoDelay) as
    (_ & _ & H & _); [| exact H].
  apply (bool_decide_eq_true_1 _); vm_compute; reflexivity.
Defined.
