(* ===== verification/ParseAddr.v ===== *)
(** [netip.ParseAddr], [Addr.IsMulticast] and [net.IP.String] followed by [ParseAddr], as the
    standard library has them (zones are checked and dropped). *)

From stdpp Require Import list strings.
From Stdlib Require Import Ascii String.
From S2P Require Import Prelude NetAddr.

(** A string as the codes of its bytes. *)
Definition codes (s : string) : list Z := (fun c => Z.of_N (N_of_ascii c)) <$> list_ascii_of_string s.

Definition is_digit (c : Z) : bool := bool_decide (48 <= c <= 57).
Definition dot : Z := 46.
Definition colon : Z := 58.
Definition percent : Z := 37.

(** The value of a hexadecimal digit. *)
Definition hex_digit (c : Z) : option Z :=
  if decide (48 <= c <= 57) then Some (c - 48)
  else if decide (97 <= c <= 102) then Some (c - 87)
  else if decide (65 <= c <= 70) then Some (c - 55)
  else None.

(** * IPv4 *)

(** The loop of [parseIPv4Fields]: the fields so far, the value and the number of digits of
    the current one, the character before. *)
Fixpoint ipv4_fields (s : list Z) (fields : list Z) (val digLen : Z) (prevDot : bool) : option (list byte) :=
  match s with
  | [] => if decide (zlen fields < 3) then None else Some (z2b <$> fields ++ [val])
  | c :: rest =>
      if is_digit c then
        if decide (digLen = 1 /\ val = 0) then None
        else
          let val := val * 10 + (c - 48) in
          if decide (255 < val) then None else ipv4_fields rest fields val (digLen + 1) false
      else if decide (c = dot) then
        if decide (prevDot = true \/ rest = []) then None
        else if decide (zlen fields = 3) then None
        else ipv4_fields rest (fields ++ [val]) 0 0 true
      else None
  end.

Definition parseIPv4Fields (s : list Z) : option (list byte) := ipv4_fields s [] 0 0 true.

(** * IPv6 *)

(** A group of at most four hexadecimal digits: its value, how many digits, the rest. *)
Fixpoint hex_group (s : list Z) (off acc : Z) : option (Z * Z * list Z) :=
  match s with
  | [] => Some (acc, off, [])
  | c :: rest =>
      match hex_digit c with
      | None => Some (acc, off, s)
      | Some d => if decide (3 < off) then None else hex_group rest (off + 1) (acc * 16 + d)
      end
  end.

(** The loop of [parseIPv6]: [ip] holds the bytes parsed so far, [ellipsis] where a [::] was;
    [fuel] bounds the groups. *)
Fixpoint ipv6_groups (fuel : nat) (s : list Z) (ip : list byte) (ellipsis : option Z) :
    option (list byte * option Z * list Z) :=
  match fuel with
  | O => Some (ip, ellipsis, s)
  | Datatypes.S fuel =>
      match hex_group s 0 0 with
      | None => None
      | Some (acc, off, rest) =>
          if decide (off = 0) then None
          else
            match rest with
            | c :: _ =>
                if decide (c = dot) then
                  if decide ((ellipsis = None /\ zlen ip <> 12) \/ 16 < zlen ip + 4) then None
                  else
                    match parseIPv4Fields s with
                    | None => None
                    | Some v4 => Some (ip ++ v4, ellipsis, [])
                    end
                else
                  let ip := ip ++ [z2b (Z.shiftr acc 8); z2b acc] in
                  if decide (c <> colon) then None
                  else
                    match tail rest with
                    | [] => None
                    | c2 :: rest2 =>
                        if decide (c2 = colon) then
                          if decide (ellipsis <> None) then None
                          else
                            match rest2 with
                            | [] => Some (ip, Some (zlen ip), [])
                            | _ => ipv6_groups fuel rest2 ip (Some (zlen ip))
                            end
                        else ipv6_groups fuel (tail rest) ip ellipsis
                    end
            | [] => Some (ip ++ [z2b (Z.shiftr acc 8); z2b acc], ellipsis, [])
            end
      end
  end.

(** The zone is split off first. *)
Fixpoint before_zone (s : list Z) : option (list Z) :=
  match s with
  | [] => Some []
  | c :: rest =>
      if decide (c = percent) then if decide (rest = []) then None else Some []
      else match before_zone rest with Some s => Some (c :: s) | None => None end
  end.

(** The ellipsis stands for as many zeros as are missing. *)
Definition expand (ip : list byte) (ellipsis : option Z) : option (list byte) :=
  match ellipsis with
  | None => if decide (zlen ip = 16) then Some ip else None
  | Some e =>
      if decide (zlen ip < 16) then
        Some (ztake e ip ++ replicate (Z.to_nat (16 - zlen ip)) Byte.x00 ++ zdrop e ip)
      else None
  end.

Definition parseIPv6 (s : list Z) : option (list byte) :=
  match before_zone s with
  | None => None
  | Some s =>
      let '(s, ellipsis, only) :=
        match s with
        | c1 :: c2 :: rest =>
            if decide (c1 = colon /\ c2 = colon) then (rest, Some 0, bool_decide (rest = [])) else (s, None, false)
        | _ => (s, None, false)
        end in
      if only : bool then Some (replicate 16 Byte.x00)
      else
        match ipv6_groups 8 s [] ellipsis with
        | Some (ip, ellipsis, []) => expand ip ellipsis
        | _ => None
        end
  end.

(** * Addresses *)

(** The first dot or colon decides. *)
Fixpoint address_kind (s : list Z) : option bool :=
  match s with
  | [] => None
  | c :: rest =>
      if decide (c = dot) then Some true
      else if decide (c = colon) then Some false
      else if decide (c = percent) then None
      else address_kind rest
  end.

Definition ParseAddr (str : string) : option Addr :=
  let s := codes str in
  match address_kind s with
  | Some true => AddrFrom4 <$> parseIPv4Fields s
  | Some false => AddrFrom16 <$> parseIPv6 s
  | None => None
  end.

(** [netip.ParseAddr(ip.String())]: [String] writes an address of four bytes, or one of
    sixteen that holds an IPv4 address, with dots; nil and other lengths do not parse. *)
Definition reparse (ip : list byte) : option Addr :=
  if decide (To4 ip <> []) then Some (AddrFrom4 (To4 ip))
  else if decide (zlen ip = 16) then Some (AddrFrom16 ip)
  else None.

(** IPv4 addresses in IPv6 form count as IPv4. *)
Definition IsMulticast (a : Addr) : bool :=
  match a with
  | AddrFrom4 (b :: _) => bool_decide (Z.land (b2z b) 240 = 224)
  | AddrFrom16 b =>
      if Is4In6 a then bool_decide (Z.land (b2z (nth 12 b Byte.x00)) 240 = 224)
      else bool_decide (nth 0 b Byte.x00 = Byte.xff)
  | _ => false
  end.

(** [netip.AddrFromSlice]. *)
Definition AddrFromSlice (b : list byte) : Addr :=
  if decide (zlen b = 4) then AddrFrom4 b else if decide (zlen b = 16) then AddrFrom16 b else AddrZero.

Example parse_examples :
  ParseAddr "224.0.1.0" = Some (AddrFrom4 [Byte.xe0; Byte.x00; Byte.x01; Byte.x00]) /\
  ParseAddr "::ffff:224.0.1.0" =
    Some (AddrFrom16 (replicate 10 Byte.x00 ++ [Byte.xff; Byte.xff; Byte.xe0; Byte.x00; Byte.x01; Byte.x00])) /\
  ParseAddr "ff02::1" = Some (AddrFrom16 (Byte.xff :: Byte.x02 :: replicate 13 Byte.x00 ++ [Byte.x01])) /\
  ParseAddr "::" = Some (AddrFrom16 (replicate 16 Byte.x00)) /\
  ParseAddr "224.0.1" = None /\ ParseAddr "224.00.1.0" = None /\ ParseAddr "1.2.3.256" = None /\
  ParseAddr "1::2::3" = None /\ ParseAddr "" = None.
Proof. vm_compute; split_and!; reflexivity. Qed.
