(* ===== verification/Poller.v ===== *)
(** The event loop: the epoll poller of [src/internal/poll_linux.go] with the slots of
    [src/internal/definitions.go] and the waker of [src/internal/eventfd.go], and the
    executor of [src/io.go].

    Slots live in an arena and are referred to by their index.  The kernel's interest list
    and the handlers are parameters: [Epoll] states what epoll_ctl(2) and epoll_wait(2)
    document, [HandlerLaws] that a handler acts on the poller through its operations. *)

From stdpp Require Import gmap.
From S2P Require Import Prelude.

(** * src/internal/definitions.go *)

Definition PollerReadEvent : Z := 1.
Definition PollerWriteEvent : Z := 4.

(** [Handlers[ReadEvent]] and [Handlers[WriteEvent]], nil until set. *)
Record Slot (H : Type) : Type := mkSlot {
  Fd : Z;
  Events : Z;
  readHandler : option H;
  writeHandler : option H
}.
Arguments mkSlot {H}.
Arguments Fd {H}.
Arguments Events {H}.
Arguments readHandler {H}.
Arguments writeHandler {H}.

Inductive EventType : Type := ReadEvent | WriteEvent.

#[export] Instance EventType_eq_dec : EqDecision EventType.
Proof. solve_decision. Defined.

Definition Slot_Set {H} (s : Slot H) (et : EventType) (h : H) : Slot H :=
  match et with
  | ReadEvent => mkSlot (Fd s) (Events s) (Some h) (writeHandler s)
  | WriteEvent => mkSlot (Fd s) (Events s) (readHandler s) (Some h)
  end.

Definition set_events {H} (s : Slot H) (e : Z) : Slot H :=
  mkSlot (Fd s) e (readHandler s) (writeHandler s).

Definition event_flag (et : EventType) : Z :=
  match et with ReadEvent => PollerReadEvent | WriteEvent => PollerWriteEvent end.

Definition handler_of {H} (s : Slot H) (et : EventType) : option H :=
  match et with ReadEvent => readHandler s | WriteEvent => writeHandler s end.

Definition has_flag (e flag : Z) : bool := bool_decide (Z.land e flag = flag).

(** * The kernel *)

(** The operations of epoll_ctl(2), with the event mask and the slot stored as data. *)
Inductive ctl : Type := CtlAdd (fd mask : Z) (slot : nat) | CtlMod (fd mask : Z) (slot : nat) | CtlDel (fd : Z).

Abbreviation interests := (gmap Z (Z * nat)).

Definition ctl_effect (m : interests) (c : ctl) : interests :=
  match c with
  | CtlAdd fd mask i | CtlMod fd mask i => <[fd := (mask, i)]> m
  | CtlDel fd => delete fd m
  end.

(** [interest k] is the interest list of the epoll instance.  A call that fails does not
    change it.  [epoll_wait k n timeout] reports at most [n] events, of registered
    descriptors only.  [epoll_ctl] may refuse any call: the descriptor is closed or of a kind
    that cannot be watched ([EBADF], [EPERM]), it is there already or not there ([EEXIST],
    [ENOENT]), there is no memory or a limit is reached ([ENOMEM], [ENOSPC]).  [refused k]
    records whether it has refused one so far. *)
Class Epoll (K : Type) := {
  interest : K -> interests;
  refused : K -> bool;
  epoll_ctl : K -> ctl -> K * option error;
  epoll_wait : K -> Z -> Z -> K * (list (Z * nat) + error);
  ctl_ok : forall k c k', epoll_ctl k c = (k', None) -> interest k' = ctl_effect (interest k) c;
  ctl_failed : forall k c k' e, epoll_ctl k c = (k', Some e) -> interest k' = interest k;
  ctl_ok_refused : forall k c k', epoll_ctl k c = (k', None) -> refused k' = refused k;
  ctl_failed_refused : forall k c k' e, epoll_ctl k c = (k', Some e) -> refused k' = true;
  wait_refused : forall k n t k' r, epoll_wait k n t = (k', r) -> refused k' = refused k;
  wait_interest : forall k n t k' r, epoll_wait k n t = (k', r) -> interest k' = interest k;
  wait_registered : forall k n t k' evs, 0 <= n -> epoll_wait k n t = (k', inl evs) -> zlen evs <= n /\
    Forall (fun ev => exists fd m, interest k !! fd = Some (m, ev.2)) evs
}.

(** * src/internal/poll_linux.go *)

(** The errno values the code looks at, and [EBADF]. *)
Definition EINTR : error := ErrOther 4.
Definition EBADF : error := ErrOther 9.
Definition EAGAIN : error := ErrOther 11.

(** [waker] is the slot of the eventfd, [wakeups] its counter.  [lck] is held by the
    goroutine of the poller while it runs posted handlers. *)
Record poller (K H : Type) : Type := mkPoller {
  kernel : K;
  slots : list (Slot H);
  waker : nat;
  wakeups : Z;
  posts : list H;
  lck : bool;
  pending : Z;
  closed : bool
}.
Arguments mkPoller {K H}.
Arguments kernel {K H}.
Arguments slots {K H}.
Arguments waker {K H}.
Arguments wakeups {K H}.
Arguments posts {K H}.
Arguments lck {K H}.
Arguments pending {K H}.
Arguments closed {K H}.

Section poller_ops.
Context {K H : Type} `{Epoll K}.
Implicit Types (p : poller K H).

Definition set_slot p (i : nat) (s : Slot H) : poller K H :=
  mkPoller (kernel p) (<[i := s]> (slots p)) (waker p) (wakeups p) (posts p) (lck p) (pending p)
    (closed p).

Definition add_pending p (d : Z) : poller K H :=
  mkPoller (kernel p) (slots p) (waker p) (wakeups p) (posts p) (lck p) (pending p + d) (closed p).

(** A call of epoll_ctl(2) on [p.fd], which is a closed descriptor after [Close]. *)
Definition control p (c : ctl) : poller K H * option error :=
  if closed p then (p, Some EBADF)
  else
    let '(k, err) := epoll_ctl (kernel p) c in
    (mkPoller k (slots p) (waker p) (wakeups p) (posts p) (lck p) (pending p) (closed p), err).

Definition add p (fd events : Z) (i : nat) : poller K H * option error := control p (CtlAdd fd events i).
Definition modify p (fd events : Z) (i : nat) : poller K H * option error := control p (CtlMod fd events i).
Definition del p (fd : Z) : poller K H * option error := control p (CtlDel fd).

Definition setRW p (i : nat) (flag : Z) : res (poller K H * option error) :=
  match slots p !! i with
  | None => Panic
  | Some s =>
      if has_flag (Events s) flag then Ret (p, None)
      else
        let p := add_pending p 1 in
        let events := Z.lor (Events s) flag in
        let p := set_slot p i (set_events s events) in
        if decide (Events s = 0) then Ret (add p (Fd s) events i)
        else Ret (modify p (Fd s) events i)
  end.

Definition SetRead p (i : nat) : res (poller K H * option error) := setRW p i PollerReadEvent.
Definition SetWrite p (i : nat) : res (poller K H * option error) := setRW p i PollerWriteEvent.

Definition delRW p (i : nat) (flag : Z) : res (poller K H * option error) :=
  match slots p !! i with
  | None => Panic
  | Some s =>
      if has_flag (Events s) flag then
        let p := add_pending p (-1) in
        let events := Z.lxor (Events s) flag in
        let p := set_slot p i (set_events s events) in
        if decide (events <> 0) then Ret (modify p (Fd s) events i)
        else Ret (del p (Fd s))
      else Ret (p, None)
  end.

Definition DelRead p (i : nat) : res (poller K H * option error) := delRW p i PollerReadEvent.
Definition DelWrite p (i : nat) : res (poller K H * option error) := delRW p i PollerWriteEvent.

Definition Del p (i : nat) : res (poller K H * option error) :=
  '(p, err) ← DelRead p i;
  match err with
  | None => DelWrite p i
  | Some _ => Ret (p, None)
  end.

(** [waker.Write(1)], on an eventfd that is open until the poller is closed. *)
Definition waker_Write p : poller K H * option error :=
  if closed p then (p, Some EBADF)
  else (mkPoller (kernel p) (slots p) (waker p) (wakeups p + 1) (posts p) (lck p) (pending p)
          (closed p), None).

(** [None]: the goroutine that holds the lock waits for itself and never goes on. *)
Definition Post p (h : H) : option (poller K H * option error) :=
  if lck p then None
  else Some (waker_Write (mkPoller (kernel p) (slots p) (waker p) (wakeups p) (posts p ++ [h]) (lck p)
                            (pending p + 1) (closed p))).

Definition Posted p : option Z := if lck p then None else Some (zlen (posts p)).
Definition Pending p : Z := pending p.

(** [waker.Close] and [syscall.Close]: from now on every call on the two descriptors fails,
    see [control], [waker_Write] and [Poll]. *)
Definition Close p : poller K H * option error :=
  if closed p then (p, Some EOF)
  else (mkPoller (kernel p) (slots p) (waker p) (wakeups p) (posts p) (lck p) (pending p) true, None).

Definition Closed p : bool := closed p.

(** [NewPoller] with the epoll instance and the eventfd it was given. *)
Definition NewPoller (k : K) (wakerFd : Z) : res (poller K H + error) :=
  let p := mkPoller k [mkSlot wakerFd 0 None None] 0%nat 0 [] false 0 false in
  '(p, err) ← SetRead p 0%nat;
  match err with
  | Some e => Ret (inr e)
  | None => Ret (inl (add_pending p (-1)))
  end.

Definition set_handler p (i : nat) (et : EventType) (h : H) : res (poller K H) :=
  match slots p !! i with
  | None => Panic
  | Some s => Ret (set_slot p i (Slot_Set s et h))
  end.

Definition set_lck p (b : bool) : poller K H :=
  mkPoller (kernel p) (slots p) (waker p) (wakeups p) (posts p) b (pending p) (closed p).

(** The reads of the eventfd until it would block reset its counter. *)
Definition drain p : poller K H :=
  mkPoller (kernel p) (slots p) (waker p) 0 (posts p) (lck p) (pending p) (closed p).

(** [p.posts = p.posts[:0]; p.lck.Unlock()]. *)
Definition posts_done p : poller K H :=
  mkPoller (kernel p) (slots p) (waker p) (wakeups p) [] false (pending p) (closed p).

Definition set_kernel p (k : K) : poller K H :=
  mkPoller k (slots p) (waker p) (wakeups p) (posts p) (lck p) (pending p) (closed p).
End poller_ops.

(** ** Dispatching *)

(** A handler runs in the whole program, of which the poller is a part. *)
Class HasPoller (W K H : Type) := {
  the_poller : W -> poller K H;
  with_poller : W -> poller K H -> W;
  the_with : forall w p, the_poller (with_poller w p) = p
}.

Section dispatching.
Context {W K H : Type} `{Epoll K} `{!HasPoller W K H}.
(** [exec h err w] calls the handler. *)
Context (exec : H -> option error -> W -> res W).
Implicit Types (w : W).

Abbreviation on_poller w f := (with_poller w (f (the_poller w))).

Fixpoint dispatch_loop w (hs : list H) : res W :=
  match hs with
  | [] => Ret w
  | h :: hs => w ← exec h None w; dispatch_loop (on_poller w (fun p => add_pending p (-1))) hs
  end.

Definition dispatch w : res W :=
  let w := on_poller w (fun p => set_lck (drain p) true) in
  w ← dispatch_loop w (posts (the_poller w));
  Ret (on_poller w posts_done).

(** [if events&slot.Events&flag == flag { _ = p.Del..(slot); slot.Handlers[..](nil) }]. *)
Definition fire w (i : nat) (mask : Z) (et : EventType) : res W :=
  match slots (the_poller w) !! i with
  | None => Panic
  | Some s =>
      if has_flag (Z.land mask (Events s)) (event_flag et) then
        '(p, _) ← delRW (the_poller w) i (event_flag et);
        match handler_of s et with
        | Some h => exec h None (with_poller w p)
        | None => Panic
        end
      else Ret w
  end.

Fixpoint Poll_loop w (evs : list (Z * nat)) : res W :=
  match evs with
  | [] => Ret w
  | (mask, i) :: evs =>
      match slots (the_poller w) !! i, slots (the_poller w) !! waker (the_poller w) with
      | Some s, Some wk =>
          w ← (if decide (Fd s = Fd wk) then dispatch w
               else w ← fire w i mask ReadEvent; fire w i mask WriteEvent);
          Poll_loop w evs
      | _, _ => Panic
      end
  end.

Definition Poll w (timeoutMs : Z) : res (W * (Z * option error)) :=
  if closed (the_poller w) then Ret (w, (-1, Some EBADF)) else
  let '(k, r) := epoll_wait (kernel (the_poller w)) 128 timeoutMs in
  let w := on_poller w (fun p => set_kernel p k) in
  match r with
  | inr e => Ret (w, (-1, Some e))
  | inl evs =>
      if decide (evs = [] /\ 0 <= timeoutMs) then Ret (w, (0, Some ErrTimeout))
      else w ← Poll_loop w evs; Ret (w, (zlen evs, None))
  end.
End dispatching.
