(* ===== verification/PollerSpec.v ===== *)
(** What the poller of [Poller.v] promises: its bookkeeping (the event mask of a slot, the
    interest list of the kernel and the pending counter agree) is kept by every operation,
    and by [Poll] whatever lawful program the handlers belong to. *)

From stdpp Require Import gmap.
From S2P Require Import Prelude Poller.

(** * Masks and counts *)

Definition valid_mask (e : Z) : Prop := e = 0 \/ e = 1 \/ e = 4 \/ e = 5.

Definition armed (e : Z) : Z :=
  (if has_flag e PollerReadEvent then 1 else 0) + (if has_flag e PollerWriteEvent then 1 else 0).

(** The events registered in all slots. *)
Definition armed_sum {H} (l : list (Slot H)) : Z := foldr (fun s a => armed (Events s) + a) 0 l.

Ltac masks :=
  repeat match goal with
    | H : valid_mask ?e |- _ => destruct H as [-> | [-> | [-> | ->]]]
    | et : EventType |- _ => destruct et
    end.

Section masks.
Context {H : Type}.

Lemma armed_sum_insert (l : list (Slot H)) i s s' : l !! i = Some s ->
  armed_sum (<[i := s']> l) = armed_sum l - armed (Events s) + armed (Events s').
Proof.
  revert i; induction l as [| x l IH]; intros [| i] Hi; simplify_eq/=.
  - unfold armed_sum; cbn [foldr]; lia.
  - change (armed (Events x) + armed_sum (<[i := s']> l) =
      armed (Events x) + armed_sum l - armed (Events s) + armed (Events s')).
    rewrite (IH i Hi); lia.
Qed.

Lemma mask_set e et : valid_mask e -> has_flag e (event_flag et) = false ->
  valid_mask (Z.lor e (event_flag et)) /\ armed (Z.lor e (event_flag et)) = armed e + 1 /\
  Z.lor e (event_flag et) <> 0.
Proof. intros Hv Hf; masks; vm_compute in Hf; try done; vm_compute; intuition congruence. Qed.

Lemma mask_del e et : valid_mask e -> has_flag e (event_flag et) = true ->
  valid_mask (Z.lxor e (event_flag et)) /\ armed (Z.lxor e (event_flag et)) = armed e - 1 /\ e <> 0.
Proof. intros Hv Hf; masks; vm_compute in Hf; try done; vm_compute; intuition congruence. Qed.

Lemma mask_other e et et' : valid_mask e -> et <> et' ->
  has_flag (Z.lor e (event_flag et)) (event_flag et') = has_flag e (event_flag et') /\
  (has_flag e (event_flag et) = true ->
   has_flag (Z.lxor e (event_flag et)) (event_flag et') = has_flag e (event_flag et')).
Proof. intros Hv Hd; masks; done. Qed.

Lemma mask_set_own e et : valid_mask e -> has_flag (Z.lor e (event_flag et)) (event_flag et) = true.
Proof. by intros Hv; masks. Qed.

Lemma mask_del_own e et : valid_mask e -> has_flag e (event_flag et) = true ->
  has_flag (Z.lxor e (event_flag et)) (event_flag et) = false.
Proof. by intros Hv ?; masks. Qed.

Lemma has_flag_bit e b : 0 <= b -> has_flag e (2 ^ b) = Z.testbit e b.
Proof.
  intros Hb; unfold has_flag; destruct (Z.testbit e b) eqn:E.
  - apply bool_decide_eq_true_2, Z.bits_inj; intros i; rewrite Z.land_spec, Z.pow2_bits_eqb by done.
    destruct (Z.eqb_spec b i) as [<- |]; [by rewrite E | apply andb_false_r].
  - apply bool_decide_eq_false_2; intros Hx; apply (f_equal (fun z => Z.testbit z b)) in Hx.
    by rewrite Z.land_spec, Z.pow2_bits_true, E in Hx.
Qed.

(** What the poller tests before it calls a handler. *)
Lemma fire_flag m e et : has_flag (Z.land m e) (event_flag et) =
  has_flag m (event_flag et) && has_flag e (event_flag et).
Proof.
  assert (exists b, 0 <= b /\ event_flag et = 2 ^ b) as (b & Hb & ->).
  { destruct et; [exists 0 | exists 2]; done. }
  rewrite !has_flag_bit by done; apply Z.land_spec.
Qed.
End masks.

(** * The invariant *)

Section invariant.
Context {K H : Type} `{Epoll K}.
Implicit Types (p : poller K H) (s : Slot H).

(** As long as the kernel has refused nothing it watches the descriptor of a slot for exactly
    the events in its mask; in any case what it watches has a slot as data, and nothing else
    is watched; the waker is watched for reads. *)
Record poller_ok p : Prop := {
  ok_open : closed p = false;
  ok_masks : Forall (fun s => valid_mask (Events s)) (slots p);
  ok_fds : NoDup (Fd <$> slots p);
  ok_waker : exists wk, slots p !! waker p = Some wk /\ Events wk = PollerReadEvent;
  ok_interest : refused (kernel p) = false -> forall i s, slots p !! i = Some s ->
    interest (kernel p) !! Fd s = (if decide (Events s = 0) then None else Some (Events s, i));
  ok_known : forall fd m i, interest (kernel p) !! fd = Some (m, i) ->
    exists s, slots p !! i = Some s /\ Fd s = fd
}.

(** The pending counter against what is registered: [0] for the handlers that were posted
    and the events armed, the waker apart. *)
Definition balance p : Z := pending p - armed_sum (slots p) - zlen (posts p).

(** What an operation leaves alone. *)
Record keeps p p' : Prop := {
  keeps_fds : Fd <$> slots p' = Fd <$> slots p;
  keeps_waker : waker p' = waker p;
  keeps_lck : lck p' = lck p;
  keeps_balance : balance p' = balance p;
  keeps_refused : refused (kernel p) = true -> refused (kernel p') = true;
  keeps_posts : lck p = true -> posts p' = posts p
}.

Lemma keeps_refl p : keeps p p.
Proof. done. Qed.

Lemma keeps_trans p q r : keeps p q -> keeps q r -> keeps p r.
Proof.
  intros [a1 a2 a3 a4 a5 a6] [b1 b2 b3 b4 b5 b6]; split; try congruence; [auto |].
  intros Hl; rewrite b6, a6; [done | done | congruence].
Qed.

Lemma same_slot p i j s s' : poller_ok p -> slots p !! i = Some s -> slots p !! j = Some s' ->
  Fd s = Fd s' -> i = j.
Proof.
  intros Hp Hi Hj Hfd; apply (NoDup_lookup _ i j (Fd s) (ok_fds p Hp));
    rewrite list_lookup_fmap; [by rewrite Hi | by rewrite Hj, Hfd].
Qed.

Lemma fds_insert (l : list (Slot H)) i s s' : l !! i = Some s -> Fd s' = Fd s ->
  Fd <$> <[i := s']> l = Fd <$> l.
Proof. intros Hi Hfd; rewrite list_fmap_insert, Hfd; apply list_insert_id; by rewrite list_lookup_fmap, Hi. Qed.

Lemma slot_mask p i s : poller_ok p -> slots p !! i = Some s -> valid_mask (Events s).
Proof. intros Hp Hi; exact (Forall_lookup_1 _ _ _ _ (ok_masks p Hp) Hi). Qed.

(** The system call that takes the mask of a slot from [e] to [e']. *)
Definition mask_ctl (e e' fd : Z) (i : nat) : ctl :=
  if decide (e = 0) then CtlAdd fd e' i else if decide (e' = 0) then CtlDel fd else CtlMod fd e' i.

Definition wanted (e' : Z) (i : nat) : option (Z * nat) :=
  if decide (e' = 0) then None else Some (e', i).

Lemma mask_ctl_effect (m : interests) e e' fd i fd' : e <> 0 \/ e' <> 0 ->
  ctl_effect m (mask_ctl e e' fd i) !! fd' = if decide (fd' = fd) then wanted e' i else m !! fd'.
Proof.
  intros He; unfold mask_ctl, wanted; repeat case_decide; subst; simplify_map_eq; try done; lia.
Qed.

(** The kernel after the system call, which it may have refused. *)
Definition follows (p : poller K H) (k' : K) (c : ctl) (err : option error) : Prop :=
  match err with
  | None => interest k' = ctl_effect (interest (kernel p)) c /\ refused k' = refused (kernel p)
  | Some _ => interest k' = interest (kernel p) /\ refused k' = true
  end.

Lemma rearm_interest p i s e' (k' : K) err : poller_ok p -> slots p !! i = Some s ->
  Events s <> 0 \/ e' <> 0 -> follows p k' (mask_ctl (Events s) e' (Fd s) i) err ->
  (refused k' = false -> forall j s', <[i := set_events s e']> (slots p) !! j = Some s' ->
     interest k' !! Fd s' = wanted (Events s') j) /\
  (forall fd m j, interest k' !! fd = Some (m, j) ->
     exists s', <[i := set_events s e']> (slots p) !! j = Some s' /\ Fd s' = fd).
Proof.
  intros Hp Hi He Hk; assert (forall fd m j, interest (kernel p) !! fd = Some (m, j) ->
    exists s', <[i := set_events s e']> (slots p) !! j = Some s' /\ Fd s' = fd) as Hknown.
  { intros fd m j Hm; destruct (ok_known p Hp fd m j Hm) as (s' & Hj & Hs'); destruct (decide (i = j)) as [<- | Hne].
    - exists (set_events s e'); rewrite Hi in Hj; injection Hj as <-.
      split; [apply list_lookup_insert_eq; by eapply lookup_lt_Some | done].
    - exists s'; by rewrite list_lookup_insert_ne. }
  destruct err as [e |]; destruct Hk as [Hk Hr]; [split; [congruence | by rewrite Hk] |]; split.
  - intros Hf j s' Hj; rewrite Hr in Hf; rewrite Hk, mask_ctl_effect by done.
    apply list_lookup_insert_Some in Hj as [(<- & <- & _) | [Hne Hj]]; [by rewrite decide_True |].
    rewrite decide_False; [exact (ok_interest p Hp Hf j s' Hj) |].
    intros Hfd; by apply Hne, (same_slot p i j s s' Hp).
  - intros fd m j; rewrite Hk, mask_ctl_effect by done; case_decide as Hfd; [| by apply Hknown].
    unfold wanted; case_decide; [done |]; intros [= _ <-].
    exists (set_events s e'); split; [apply list_lookup_insert_eq; by eapply lookup_lt_Some | done].
Qed.

Definition rearmed p (k' : K) (i : nat) s (e' d : Z) : poller K H :=
  mkPoller k' (<[i := set_events s e']> (slots p)) (waker p) (wakeups p) (posts p) (lck p)
    (pending p + d) (closed p).

Lemma rearm_keeps p k' i s e' : slots p !! i = Some s -> (refused (kernel p) = true -> refused k' = true) ->
  keeps p (rearmed p k' i s e' (armed e' - armed (Events s))).
Proof.
  intros Hi Hr; split; try done; cbn; [by apply (fds_insert _ _ s) |].
  unfold balance; cbn [pending slots posts rearmed].
  rewrite (armed_sum_insert _ _ s) by done; cbn [Events set_events]; lia.
Qed.

(** Changing the mask of a slot other than the waker's: the mask and the counter change
    whether or not the kernel agrees. *)
Lemma rearm_ok p i s e' d : poller_ok p -> slots p !! i = Some s -> i <> waker p ->
  valid_mask e' -> Events s <> 0 \/ e' <> 0 ->
  exists k' err, control (set_slot (add_pending p d) i (set_events s e'))
      (mask_ctl (Events s) e' (Fd s) i) = (rearmed p k' i s e' d, err) /\
    poller_ok (rearmed p k' i s e' d) /\ (refused (kernel p) = true -> refused k' = true) /\
    (refused k' = false -> err = None).
Proof.
  intros Hp Hi Hw Hv He; unfold control; cbn [kernel set_slot add_pending closed]; rewrite (ok_open p Hp).
  destruct (epoll_ctl _ _) as [k' err] eqn:E; exists k', err; split; [unfold rearmed; by rewrite (ok_open p Hp) |].
  assert (follows p k' (mask_ctl (Events s) e' (Fd s) i) err) as Hf.
  { destruct err; cbn; [by split; [eapply ctl_failed | eapply ctl_failed_refused]
                       | by split; [apply ctl_ok | eapply ctl_ok_refused]]. }
  destruct (rearm_interest p i s e' k' err Hp Hi He Hf) as [H1 H2].
  split; [split; cbn |].
  - apply Hp.
  - apply Forall_insert; [apply Hp | exact Hv].
  - rewrite (fds_insert _ _ s); [apply Hp | done | done].
  - destruct (ok_waker p Hp) as (wk & ? & ?); exists wk; by rewrite list_lookup_insert_ne.
  - exact H1.
  - exact H2.
  - destruct err; destruct Hf as [_ Hf]; rewrite Hf; by split.
Qed.

(** The mask after [SetRead]/[SetWrite] and after [DelRead]/[DelWrite]. *)
Definition set_mask (e : Z) (et : EventType) : Z := Z.lor e (event_flag et).
Definition del_mask (e : Z) (et : EventType) : Z :=
  if has_flag e (event_flag et) then Z.lxor e (event_flag et) else e.

Lemma set_mask_id e et : valid_mask e -> has_flag e (event_flag et) = true -> set_mask e et = e.
Proof. by intros Hv ?; masks. Qed.

Lemma rearmed_id p i s : slots p !! i = Some s -> rearmed p (kernel p) i s (Events s) 0 = p.
Proof.
  intros Hi; destruct p, s; unfold rearmed, set_events; cbn in *; by rewrite list_insert_id, Z.add_0_r.
Qed.

(** What [setRW] and [delRW] make of a poller: the mask is [e'], and there is no error as
    long as the kernel refuses nothing. *)
Definition remasked p (i : nat) s (e' : Z) (r : res (poller K H * option error)) : Prop :=
  exists k' d err, r = Ret (rearmed p k' i s e' d, err) /\ poller_ok (rearmed p k' i s e' d) /\
    keeps p (rearmed p k' i s e' d) /\ (refused k' = false -> err = None).

Lemma remasked_id p i s : poller_ok p -> slots p !! i = Some s -> remasked p i s (Events s) (Ret (p, None)).
Proof. intros Hp Hi; exists (kernel p), 0, None; by rewrite rearmed_id. Qed.

Lemma setRW_ok p i s et : poller_ok p -> slots p !! i = Some s -> i <> waker p ->
  remasked p i s (set_mask (Events s) et) (setRW p i (event_flag et)).
Proof.
  intros Hp Hi Hw; pose proof (slot_mask p i s Hp Hi) as Hv; unfold setRW, add, modify; rewrite Hi.
  destruct (has_flag (Events s) (event_flag et)) eqn:Ef; [rewrite set_mask_id by done; by apply remasked_id |].
  destruct (mask_set _ et Hv Ef) as (Hv' & Ha & Hnz).
  destruct (rearm_ok p i s (set_mask (Events s) et) 1 Hp Hi Hw Hv' (or_intror Hnz)) as (k' & err & Hc & Hok & Hr & He).
  exists k', 1, err; split; [| split; [done | split; [| done]]].
  - revert Hc; unfold mask_ctl, set_mask; case_decide; [by intros -> |].
    rewrite decide_False by done; by intros ->.
  - replace 1 with (armed (set_mask (Events s) et) - armed (Events s)) by (unfold set_mask; lia).
    by apply rearm_keeps.
Qed.

Lemma delRW_ok p i s et : poller_ok p -> slots p !! i = Some s -> i <> waker p ->
  remasked p i s (del_mask (Events s) et) (delRW p i (event_flag et)).
Proof.
  intros Hp Hi Hw; pose proof (slot_mask p i s Hp Hi) as Hv; unfold delRW, del_mask, modify, del; rewrite Hi.
  destruct (has_flag (Events s) (event_flag et)) eqn:Ef; [| by apply remasked_id].
  destruct (mask_del _ et Hv Ef) as (Hv' & Ha & Hnz).
  destruct (rearm_ok p i s _ (-1) Hp Hi Hw Hv' (or_introl Hnz)) as (k' & err & Hc & Hok & Hr & He).
  exists k', (-1), err; split; [| split; [done | split; [| done]]].
  - revert Hc; unfold mask_ctl; rewrite decide_False by done.
    intros Hc; case_decide as He0; case_decide; try done; by rewrite Hc.
  - replace (-1) with (armed (Z.lxor (Events s) (event_flag et)) - armed (Events s)) by lia.
    by apply rearm_keeps.
Qed.

Lemma del_both e : valid_mask e -> del_mask (del_mask e ReadEvent) WriteEvent = 0.
Proof. by intros Hv; masks. Qed.

Lemma rearmed_twice p k1 k2 i s e1 e2 d1 d2 :
  rearmed (rearmed p k1 i s e1 d1) k2 i (set_events s e1) e2 d2 = rearmed p k2 i s e2 (d1 + d2).
Proof.
  unfold rearmed, set_events; cbn; f_equal; [apply list_insert_insert_eq | lia].
Qed.

(** [Del] stops at the first error: then the write event is still armed. *)
Lemma Del_ok p i s : poller_ok p -> slots p !! i = Some s -> i <> waker p ->
  exists e', (e' = 0 \/ e' = del_mask (Events s) ReadEvent) /\ remasked p i s e' (Del p i) /\
    forall p' err, Del p i = Ret (p', err) -> refused (kernel p') = false -> e' = 0.
Proof.
  intros Hp Hi Hw; unfold Del, DelRead, DelWrite.
  destruct (delRW_ok p i s ReadEvent Hp Hi Hw) as (k1 & d1 & err1 & E1 & Hp1 & Hk1 & He1).
  change PollerReadEvent with (event_flag ReadEvent); rewrite E1; res_step; destruct err1 as [e |].
  { exists (del_mask (Events s) ReadEvent); split; [by right |]; split; [by exists k1, d1, None |].
    intros p' err [= <- _] Hr; by specialize (He1 Hr). }
  destruct (delRW_ok _ i (set_events s (del_mask (Events s) ReadEvent)) WriteEvent Hp1) as
    (k2 & d2 & err2 & E2 & Hp2 & Hk2 & He2); [apply list_lookup_insert_eq; by eapply lookup_lt_Some | done |].
  rewrite rearmed_twice in E2, Hp2, Hk2; cbn [Events set_events] in E2, Hp2, Hk2.
  rewrite del_both in E2, Hp2, Hk2 by exact (slot_mask p i s Hp Hi).
  exists 0; split; [by left |]; split; [| done].
  exists k2, (d1 + d2), err2; split_and!; [exact E2 | exact Hp2 | by eapply keeps_trans | done].
Qed.

Lemma del_some e e' et : valid_mask e -> e' = 0 \/ e' = del_mask e ReadEvent ->
  has_flag e' (event_flag et) = true -> has_flag e (event_flag et) = true.
Proof. intros Hv [-> | ->]; by masks. Qed.

Lemma set_handler_ok p i s et h : poller_ok p -> slots p !! i = Some s ->
  set_handler p i et h = Ret (set_slot p i (Slot_Set s et h)) /\
  poller_ok (set_slot p i (Slot_Set s et h)) /\ keeps p (set_slot p i (Slot_Set s et h)).
Proof.
  intros Hp Hi; assert (Fd (Slot_Set s et h) = Fd s /\ Events (Slot_Set s et h) = Events s) as [Hf He]
    by (by destruct et).
  unfold set_handler; rewrite Hi; split; [done |]; split; split; cbn.
  - apply Hp.
  - apply Forall_insert; [apply Hp | rewrite He; by eapply slot_mask].
  - rewrite (fds_insert _ _ s); [apply Hp | done | done].
  - destruct (ok_waker p Hp) as (wk & Hwk & Hev); destruct (decide (i = waker p)) as [-> |].
    + exists (Slot_Set s et h); rewrite list_lookup_insert_eq by (by eapply lookup_lt_Some).
      split; [done | congruence].
    + exists wk; by rewrite list_lookup_insert_ne.
  - intros Hr j s' Hj; apply list_lookup_insert_Some in Hj as [(<- & <- & _) | [_ Hj]];
      [rewrite Hf, He |]; by apply (ok_interest p Hp Hr).
  - intros fd m j Hm; destruct (ok_known p Hp fd m j Hm) as (s' & Hj & Hfd).
    destruct (decide (i = j)) as [<- |]; [| exists s'; by rewrite list_lookup_insert_ne].
    exists (Slot_Set s et h); rewrite list_lookup_insert_eq by (by eapply lookup_lt_Some).
    split; [done | congruence].
  - by apply (fds_insert _ _ s).
  - done.
  - done.
  - unfold balance; cbn [pending slots posts set_slot].
    rewrite (armed_sum_insert _ _ s), He by done; lia.
  - done.
  - done.
Qed.
End invariant.

(** * Polling *)

(** What [Poll] expects of the program whose handlers it calls: an invariant that implies
    the poller's and that an event handler, called right after its event was disarmed, and a
    posted handler, called with the lock held, re-establish. *)
Class LawfulProgram (W : Type) {K H : Type} `{Epoll K} `{!HasPoller W K H}
    (exec : H -> option error -> W -> res W) (ok : W -> Prop) : Prop := {
  prog_poller : forall w, ok w -> poller_ok (the_poller w);
  prog_frame : forall w p', ok w -> poller_ok p' -> slots p' = slots (the_poller w) ->
    waker p' = waker (the_poller w) -> posts p' = posts (the_poller w) \/ posts p' = [] ->
    refused (kernel p') = refused (kernel (the_poller w)) -> ok (with_poller w p');
  prog_fire : forall w i s et, ok w -> lck (the_poller w) = false ->
    slots (the_poller w) !! i = Some s -> i <> waker (the_poller w) ->
    has_flag (Events s) (event_flag et) = true ->
    exists p' err h w', delRW (the_poller w) i (event_flag et) = Ret (p', err) /\ handler_of s et = Some h /\
      exec h None (with_poller w p') = Ret w' /\ ok w' /\ keeps (the_poller w) (the_poller w');
  prog_posted : forall w h, ok w -> lck (the_poller w) = true -> h ∈ posts (the_poller w) ->
    exists w', exec h None w = Ret w' /\ ok w' /\ keeps (the_poller w) (the_poller w')
}.

Section polling.
Context {W K H : Type} `{Epoll K} `{!HasPoller W K H}.
Context (exec : H -> option error -> W -> res W) (ok : W -> Prop) `{!LawfulProgram W exec ok}.

Lemma poller_ok_ext (p p' : poller K H) : poller_ok p -> slots p' = slots p -> waker p' = waker p ->
  interest (kernel p') = interest (kernel p) -> refused (kernel p') = refused (kernel p) -> closed p' = closed p ->
  poller_ok p'.
Proof. intros [] Hs Hw Hk Hr Hc; split; rewrite ?Hs, ?Hw, ?Hk, ?Hr, ?Hc; done. Qed.

(** The parts of the poller only [dispatch] and [Post] change. *)
Lemma ok_ext w p' : ok w -> slots p' = slots (the_poller w) -> waker p' = waker (the_poller w) ->
  interest (kernel p') = interest (kernel (the_poller w)) -> refused (kernel p') = refused (kernel (the_poller w)) ->
  closed p' = closed (the_poller w) -> posts p' = posts (the_poller w) \/ posts p' = [] -> ok (with_poller w p').
Proof.
  intros Hok Hs Hw Hk Hr Hc Hp; apply prog_frame; [done | | done ..].
  eapply poller_ok_ext; [exact (prog_poller w Hok) | done ..].
Qed.

Lemma dispatch_loop_ok hs : forall w, ok w -> lck (the_poller w) = true -> hs ⊆ posts (the_poller w) ->
  exists w', dispatch_loop exec w hs = Ret w' /\ ok w' /\
    Fd <$> slots (the_poller w') = Fd <$> slots (the_poller w) /\
    waker (the_poller w') = waker (the_poller w) /\ posts (the_poller w') = posts (the_poller w) /\
    balance (the_poller w') = balance (the_poller w) - zlen hs /\
    (refused (kernel (the_poller w)) = true -> refused (kernel (the_poller w')) = true).
Proof.
  induction hs as [| h hs IH]; intros w Hok Hl Hin.
  { exists w; split_and!; try done; change (zlen (@nil H)) with 0; lia. }
  destruct (prog_posted w h Hok Hl (Hin h (list_elem_of_here _ _))) as (w1 & E1 & Hok1 & [Hf Hwk Hlk Hb Hrf Hp]).
  specialize (Hp Hl); cbn [dispatch_loop]; rewrite E1; res_step.
  set (w2 := with_poller w1 _).
  assert (the_poller w2 = add_pending (the_poller w1) (-1)) as Hw2 by apply the_with.
  assert (ok w2) as Hok2 by (apply ok_ext; [done .. | by left]).
  destruct (IH w2) as (w' & E & Hok' & Hf' & Hwk' & Hp' & Hb' & Hr'); [done | rewrite Hw2; cbn; congruence | |].
  { rewrite Hw2; cbn; rewrite Hp; set_solver. }
  rewrite Hw2 in *; exists w'; split_and!;
    [exact E | exact Hok' | by rewrite Hf' | by rewrite Hwk' | by rewrite Hp' | | by intros Hr; apply Hr', Hrf].
  rewrite Hb', <-Hb; unfold balance; cbn [pending slots posts add_pending]; llia.
Qed.

Lemma dispatch_ok w : ok w -> lck (the_poller w) = false ->
  exists w', dispatch exec w = Ret w' /\ ok w' /\ keeps (the_poller w) (the_poller w').
Proof.
  intros Hok Hl; unfold dispatch; set (w1 := with_poller w _).
  assert (the_poller w1 = set_lck (drain (the_poller w)) true) as Hw1 by apply the_with.
  assert (ok w1) as Hok1 by (apply ok_ext; [done .. | by left]).
  destruct (dispatch_loop_ok (posts (the_poller w1)) w1) as (w2 & E & Hok2 & Hf & Hwk & Hp & Hb & Hr);
    [done | by rewrite Hw1 | done |].
  rewrite E; res_step; eexists; split; [done |].
  split; [apply ok_ext; [done .. | by right] |].
  rewrite the_with; rewrite Hw1 in *; split; cbn.
  - exact Hf.
  - exact Hwk.
  - done.
  - revert Hb; unfold balance; cbn [pending slots posts posts_done set_lck drain]; rewrite Hp.
    cbn [posts set_lck drain]; change (zlen (@nil H)) with 0; lia.
  - exact Hr.
  - congruence.
Qed.

Lemma fire_ok w i s mask et : ok w -> lck (the_poller w) = false ->
  slots (the_poller w) !! i = Some s -> i <> waker (the_poller w) ->
  exists w', fire exec w i mask et = Ret w' /\ ok w' /\ keeps (the_poller w) (the_poller w').
Proof.
  intros Hok Hl Hi Hw; unfold fire; rewrite Hi, fire_flag.
  destruct (has_flag mask _); [| by exists w]; cbn [andb].
  destruct (has_flag (Events s) (event_flag et)) eqn:Ef; [| by exists w].
  destruct (prog_fire w i s et Hok Hl Hi Hw Ef) as (p' & err & h & w' & -> & -> & E & ?); res_step; by exists w'.
Qed.

Lemma keeps_slot (p p' : poller K H) i : keeps p p' -> is_Some (slots p !! i) -> is_Some (slots p' !! i).
Proof.
  intros Hk; rewrite !lookup_lt_is_Some.
  by rewrite <-(length_fmap Fd (slots p')), (keeps_fds _ _ Hk), length_fmap.
Qed.

Lemma Poll_loop_ok evs : forall w, ok w -> lck (the_poller w) = false ->
  Forall (fun ev => is_Some (slots (the_poller w) !! ev.2)) evs ->
  exists w', Poll_loop exec w evs = Ret w' /\ ok w' /\ keeps (the_poller w) (the_poller w').
Proof.
  induction evs as [| [mask i] evs IH]; intros w Hok Hl Hev; [by exists w |].
  apply list.Forall_cons in Hev as [[s Hi] Hev]; cbn in Hi.
  pose proof (prog_poller w Hok) as Hp; destruct (ok_waker _ Hp) as (wk & Hwk & _).
  cbn [Poll_loop]; rewrite Hi, Hwk.
  assert (exists w', (if decide (Fd s = Fd wk) then dispatch exec w
      else w0 ← fire exec w i mask ReadEvent; fire exec w0 i mask WriteEvent) = Ret w' /\ ok w' /\
      keeps (the_poller w) (the_poller w')) as (w1 & E & Hok1 & Hk1).
  { case_decide as Hfd; [by apply dispatch_ok |].
    assert (i <> waker (the_poller w)) as Hiw by congruence.
    destruct (fire_ok w i s mask ReadEvent Hok Hl Hi Hiw) as (w1 & -> & Hok1 & Hk1); res_step.
    destruct (keeps_slot _ _ i Hk1 (mk_is_Some _ _ Hi)) as [s1 Hi1].
    destruct (fire_ok w1 i s1 mask WriteEvent Hok1) as (w2 & E2 & Hok2 & Hk2); try done.
    - rewrite (keeps_lck _ _ Hk1); done.
    - by rewrite (keeps_waker _ _ Hk1).
    - exists w2; split_and!; [done | done | by eapply keeps_trans]. }
  rewrite E; res_step; destruct (IH w1 Hok1) as (w2 & E2 & Hok2 & Hk2).
  - by rewrite (keeps_lck _ _ Hk1).
  - eapply list.Forall_impl; [exact Hev |]; intros ev; by apply keeps_slot.
  - exists w2; split_and!; [done | done | by eapply keeps_trans].
Qed.

Lemma Poll_ok w t : ok w -> lck (the_poller w) = false ->
  exists w' n err, Poll exec w t = Ret (w', (n, err)) /\ ok w' /\ keeps (the_poller w) (the_poller w').
Proof.
  intros Hok Hl; unfold Poll; rewrite (ok_open _ (prog_poller w Hok)); destruct (epoll_wait _ _ _) as [k r] eqn:Ew; set (w1 := with_poller w _).
  assert (the_poller w1 = set_kernel (the_poller w) k) as Hw1 by apply the_with.
  assert (ok w1) as Hok1 by (apply ok_ext;
    [done .. | exact (wait_interest _ _ _ _ _ Ew) | exact (wait_refused _ _ _ _ _ Ew) | done | by left]).
  assert (keeps (the_poller w) (the_poller w1)) as Hk1
    by (rewrite Hw1; split; try done; cbn; by rewrite (wait_refused _ _ _ _ _ Ew)).
  destruct r as [evs | e]; [| by exists w1, (-1), (Some e)].
  case_decide; [by exists w1, 0, (Some ErrTimeout) |].
  destruct (Poll_loop_ok evs w1 Hok1) as (w2 & -> & Hok2 & Hk2).
  - by rewrite Hw1.
  - destruct (wait_registered _ 128 _ _ _ ltac:(done) Ew) as [_ Hev]; eapply list.Forall_impl; [exact Hev |].
    intros ev (fd & m & Hm); rewrite Hw1; cbn.
    destruct (ok_known _ (prog_poller w Hok) _ _ _ Hm) as (s & Hs & _); by rewrite Hs.
  - res_step; exists w2, (zlen evs), None; split_and!; [done | done | by eapply keeps_trans].
Qed.
End polling.

(** * A new poller *)

(** The slots of the objects that use the poller, after the waker's. *)
Section new_poller.
Context {K H : Type} `{Epoll K}.
Implicit Types (p : poller K H) (s : Slot H).

Definition idle_slot (fd : Z) : Slot H := mkSlot fd 0 None None.

Definition with_slots (p : poller K H) (fds : list Z) : poller K H :=
  mkPoller (kernel p) (slots p ++ (idle_slot <$> fds)) (waker p) (wakeups p) (posts p) (lck p) (pending p)
    (closed p).

Lemma boot_slots p fds wk i s : slots p = [wk] -> slots (with_slots p fds) !! i = Some s ->
  (i = 0%nat /\ s = wk) \/ (i <> 0%nat /\ Events s = 0 /\ fds !! (i - 1)%nat = Some (Fd s)).
Proof.
  intros Hp; cbn [slots with_slots]; rewrite Hp; destruct i as [| i]; [intros [= <-]; by left |].
  cbn [app]; rewrite lookup_cons_ne_0 by done; cbn [pred].
  rewrite list_lookup_fmap; intros (z & Hz & ->)%fmap_Some; right; split_and!; [done | done |]; cbn.
  by rewrite Nat.sub_0_r.
Qed.

Lemma NewPoller_ok (k : K) fd : interest k = ∅ ->
  exists r, NewPoller (H := H) k fd = Ret r /\
    forall p, r = inl p -> exists k', p = mkPoller k' [mkSlot fd 1 None None] 0%nat 0 [] false 0 false /\
      interest k' = {[fd := (1, 0%nat)]}.
Proof.
  intros Hk; unfold NewPoller, SetRead, setRW; cbn [slots lookup list_lookup]; change (has_flag _ _) with false.
  rewrite decide_True by done; unfold add, control; cbn [closed set_slot add_pending kernel Fd].
  change (Z.lor _ _) with 1; destruct (epoll_ctl k (CtlAdd fd 1 0%nat)) as [k' err] eqn:E; res_step.
  destruct err as [e |]; eexists; (split; [reflexivity |]); intros p [= <-].
  exists k'; split; [done |]; by rewrite (ctl_ok _ _ _ E), Hk.
Qed.

Lemma boot_poller_ok k' fd fds : interest k' = {[fd := (1, 0%nat)]} -> NoDup (fd :: fds) ->
  poller_ok (with_slots (mkPoller k' [mkSlot fd 1 None None] 0%nat 0 [] false 0 false) fds).
Proof.
  intros Hk Hnd; set (p := mkPoller _ _ _ _ _ _ _ _).
  pose proof (fun i s => boot_slots p fds _ i s eq_refl) as Hs; apply list.NoDup_cons in Hnd as [Hfd Hnd].
  split.
  - done.
  - apply Forall_lookup; intros i s Hi; destruct (Hs i s Hi) as [(-> & ->) | (_ & -> & _)]; unfold valid_mask; cbn; lia.
  - cbn; rewrite <-list_fmap_compose; cbn; rewrite (list_fmap_ext _ id) by done; rewrite list_fmap_id.
    by constructor.
  - by eexists.
  - intros _ i s Hi; cbn; rewrite Hk; destruct (Hs i s Hi) as [(-> & ->) | (_ & He & Hf)].
    + by simplify_map_eq.
    + rewrite He; cbn; apply lookup_singleton_ne; intros ->; apply Hfd; by eapply list_elem_of_lookup_2.
  - intros fd' m i; cbn; rewrite Hk; intros [<- [= <- <-]]%lookup_singleton_Some; by eexists.
Qed.
End new_poller.
