(* ===== verification/Goroutines.v ===== *)
(** Posting from other goroutines: [Post] and [dispatch] of [src/internal/poll_linux.go] (and
    [executePost] of [poll_bsd.go], which is the same code over a pipe) one access to shared
    memory at a time, in any interleaving.

    [EventLoop.v] and [Poller.v] take [Post] as one step.  Here the mutex, the queue, the
    counter of pending operations and the wake-up descriptor are separate accesses, and any
    number of goroutines post while one polls. *)

From S2P Require Import Prelude Poller.

(** * The wake-up descriptor *)

(** What [Post] and [dispatch] rely on: a write makes the descriptor readable, whether or
    not it reports an error, and reads succeed exactly as long as it is readable.
    [wake_count] bounds the reads that succeed. *)
Class Waker (V : Type) := {
  wake_new : V;
  wake_write : V -> V * option error;
  wake_read : V -> V * option error;
  wake_count : V -> nat;
  wake_new_count : wake_count wake_new = 0%nat;
  wake_write_count : forall v, (0 < wake_count (wake_write v).1 <= S (wake_count v))%nat;
  wake_read_some : forall v, (0 < wake_count v)%nat ->
    (wake_read v).2 = None /\ (wake_count (wake_read v).1 < wake_count v)%nat;
  wake_read_none : forall v, wake_count v = 0%nat ->
    (exists e, (wake_read v).2 = Some e) /\ (wake_read v).1 = v
}.

(** ** src/internal/eventfd.go *)

(** "The maximum value that may be stored in the counter is the largest unsigned 64-bit
    value minus 1"; a write beyond it fails with [EAGAIN].  A read takes all of it. *)
Abbreviation eventfd := N.

Definition EventFd_Write (v : eventfd) : eventfd * option error :=
  if decide (v + 1 <= 2 ^ 64 - 2)%N then ((v + 1)%N, None) else (v, Some EAGAIN).

Definition EventFd_Read (v : eventfd) : eventfd * option error :=
  if decide (0 < v)%N then (0%N, None) else (v, Some EAGAIN).

#[export] Instance eventfd_waker : Waker eventfd.
Proof.
  refine {| wake_new := 0%N : eventfd; wake_write := EventFd_Write; wake_read := EventFd_Read;
            wake_count := fun v : eventfd => if decide (0 < v)%N then 1%nat else 0%nat |}.
  - done.
  - intros v; change (2 ^ 64 - 2)%N with 18446744073709551614%N; unfold EventFd_Write; repeat case_decide; cbn [fst] in *; repeat case_decide; lia.
  - intros v; unfold EventFd_Read; case_decide; [intros _; split; [done |]; cbn [fst]; case_decide; lia | lia].
  - intros v; unfold EventFd_Read; case_decide; [lia |]; intros _; cbn; eauto.
Defined.

(** ** src/internal/pipe.go *)

(** One byte at a time, of at most [65536]. *)
Record bytes_in_pipe : Type := mkPipe { in_pipe : nat }.

Definition waker_pipe_Write (v : bytes_in_pipe) : bytes_in_pipe * option error :=
  if decide (in_pipe v < Z.to_nat 65536)%nat then (mkPipe (S (in_pipe v)), None) else (v, Some EAGAIN).

Definition waker_pipe_Read (v : bytes_in_pipe) : bytes_in_pipe * option error :=
  match in_pipe v with O => (v, Some EAGAIN) | S n => (mkPipe n, None) end.

#[export] Instance pipe_waker : Waker bytes_in_pipe.
Proof.
  refine {| wake_new := mkPipe 0; wake_write := waker_pipe_Write; wake_read := waker_pipe_Read; wake_count := in_pipe |}.
  - done.
  - intros v; unfold waker_pipe_Write; case_decide; cbn [fst in_pipe]; lia.
  - intros [[| n]]; cbn; [lia | split; [done | lia]].
  - intros [[| n]]; cbn; [eauto | lia].
Defined.

(** * Goroutines *)

(** What matters of a handler is whether it calls [Post] itself. *)
Class Handler (H : Type) := calls_Post : H -> bool.

(** What a goroutine does: [Post(h)], or an operation that arms an event, of which only
    [p.pending++] matters here ([setRW] does it without the mutex). *)
Inductive command (H : Type) : Type := CPost (h : H) | CArm.
Arguments CPost {H}.
Arguments CArm {H}.

(** Where a goroutine is.  In [Post]: with the mutex, about to append, to read and to write
    the counter, to unlock; then about to write to the waker.  Arming: about to read and to
    write the counter.  In [Poll]: waiting in the system call, draining the waker ([again]:
    a read has succeeded), waiting for the mutex, with it and handlers still to run, between
    a handler and its [p.pending--], about to unlock. *)
Inductive place (H : Type) : Type :=
| Idle
| Appending (h : H) | Counting | Counted (v : Z) | Unlocking | Waking
| Arming | Armed (v : Z)
| Waiting | Draining (again : bool) | Locking
| Running (hs : list (nat * H)) | Ran (hs : list (nat * H)) | Uncounted (v : Z) (hs : list (nat * H)) | Leaving.
Arguments Idle {H}.
Arguments Appending {H}.
Arguments Counting {H}.
Arguments Counted {H}.
Arguments Unlocking {H}.
Arguments Waking {H}.
Arguments Arming {H}.
Arguments Armed {H}.
Arguments Waiting {H}.
Arguments Draining {H}.
Arguments Locking {H}.
Arguments Running {H}.
Arguments Ran {H}.
Arguments Uncounted {H}.
Arguments Leaving {H}.

(** [polls]: once its commands are done the goroutine calls [Poll] for ever, as [Run] does. *)
Record goroutine (H : Type) : Type := mkGo { at_ : place H; todo : list (command H); polls : bool }.
Arguments mkGo {H}.
Arguments at_ {H}.
Arguments todo {H}.
Arguments polls {H}.

(** The memory they share.  The queue holds each handler with the goroutine that posted it.
    [queued] and [ran] record the handlers in the order they were appended and run, [armed]
    counts the events armed. *)
Record memory (V H : Type) : Type := mkMemory {
  mutex : bool; queue : list (nat * H); counter : Z; waker_fd : V;
  queued : list (nat * H); ran : list (nat * H); armed : Z
}.
Arguments mkMemory {V H}.
Arguments mutex {V H}.
Arguments queue {V H}.
Arguments counter {V H}.
Arguments waker_fd {V H}.
Arguments queued {V H}.
Arguments ran {V H}.
Arguments armed {V H}.

Section steps.
Context {V H : Type} `{Waker V, Handler H}.
Implicit Types (m : memory V H) (g : goroutine H).

Definition set_mutex m b : memory V H := mkMemory b (queue m) (counter m) (waker_fd m) (queued m) (ran m) (armed m).
Definition set_counter m n : memory V H := mkMemory (mutex m) (queue m) n (waker_fd m) (queued m) (ran m) (armed m).
Definition set_waker m v : memory V H := mkMemory (mutex m) (queue m) (counter m) v (queued m) (ran m) (armed m).
Definition set_queue m q : memory V H := mkMemory (mutex m) q (counter m) (waker_fd m) (queued m) (ran m) (armed m).
Definition note_queued m x : memory V H := mkMemory (mutex m) (queue m) (counter m) (waker_fd m) (queued m ++ [x]) (ran m) (armed m).
Definition note_ran m x : memory V H := mkMemory (mutex m) (queue m) (counter m) (waker_fd m) (queued m) (ran m ++ [x]) (armed m).
Definition note_armed m : memory V H := mkMemory (mutex m) (queue m) (counter m) (waker_fd m) (queued m) (ran m) (armed m + 1).

Definition go g (p : place H) : goroutine H := mkGo p (todo g) (polls g).

(** The steps of [Post] once it has the mutex. *)
Definition post_step (i : nat) g m : option (goroutine H * memory V H) :=
  match at_ g with
  | Appending h => Some (go g Counting, note_queued (set_queue m (queue m ++ [(i, h)])) (i, h))
  | Counting => Some (go g (Counted (counter m)), m)
  | Counted v => Some (go g Unlocking, set_counter m (v + 1))
  | Unlocking => Some (go g Waking, set_mutex m false)
  | Waking => Some (go g Idle, set_waker m (wake_write (waker_fd m)).1)
  | _ => None
  end.

(** [p.pending++] of [setRW]. *)
Definition arm_step g m : option (goroutine H * memory V H) :=
  match at_ g with
  | Arming => Some (go g (Armed (counter m)), m)
  | Armed v => Some (go g Idle, note_armed (set_counter m (v + 1)))
  | _ => None
  end.

(** The steps of [dispatch].  A handler runs with the mutex held: if it calls [Post], it
    waits for the goroutine it runs on. *)
Definition dispatch_step g m : option (goroutine H * memory V H) :=
  match at_ g with
  | Draining again =>
      let '(v, err) := wake_read (waker_fd m) in
      Some (go g (match err with None => Draining true | Some _ => Locking end), set_waker m v)
  | Locking => if mutex m then None else Some (go g (Running (queue m)), set_mutex m true)
  | Running (x :: hs) => if calls_Post x.2 then None else Some (go g (Ran hs), note_ran m x)
  | Ran hs => Some (go g (Uncounted (counter m) hs), m)
  | Uncounted v hs => Some (go g (Running hs), set_counter m (v - 1))
  | Running [] => Some (go g Leaving, set_queue m [])
  | Leaving => Some (go g Idle, set_mutex m false)
  | _ => None
  end.

(** One step of goroutine [i], [None] if it is blocked or done: the next command, the wait
    in [Poll] for the waker to be readable, or a step within a call. *)
Definition step_one (i : nat) g m : option (goroutine H * memory V H) :=
  match at_ g with
  | Idle =>
      match todo g with
      | CPost h :: rest =>
          if mutex m then None else Some (mkGo (Appending h) rest (polls g), set_mutex m true)
      | CArm :: rest => Some (mkGo Arming rest (polls g), m)
      | [] => if polls g then Some (go g Waiting, m) else None
      end
  | Waiting => if decide (0 < wake_count (waker_fd m))%nat then Some (go g (Draining false), m) else None
  | Appending _ | Counting | Counted _ | Unlocking | Waking => post_step i g m
  | Arming | Armed _ => arm_step g m
  | _ => dispatch_step g m
  end.

(** The goroutines and their memory; a schedule says who moves next. *)
Definition system : Type := list (goroutine H) * memory V H.

Definition step_at (σ : system) (i : nat) : option system :=
  match σ.1 !! i with
  | None => None
  | Some g => '(g', m') ← step_one i g σ.2; Some (<[i := g']> σ.1, m')
  end.

(** Who cannot move is passed over; the moves that were made are counter_exact. *)
Fixpoint run_schedule (σ : system) (sched : list nat) : system * nat :=
  match sched with
  | [] => (σ, 0%nat)
  | i :: sched =>
      match step_at σ i with
      | Some σ' => let '(σ'', n) := run_schedule σ' sched in (σ'', S n)
      | None => run_schedule σ sched
      end
  end.

Definition stuck (σ : system) : Prop := forall i, step_at σ i = None.

(** Goroutine 0 does its commands and polls, the others do theirs. *)
Definition start (poller : list (command H)) (others : list (list (command H))) : system :=
  (mkGo Idle poller true :: ((fun cs => mkGo Idle cs false) <$> others), mkMemory false [] 0 wake_new [] [] 0).

Definition handlers_of (cs : list (command H)) : list H := omap (fun c => match c with CPost h => Some h | CArm => None end) cs.

(** Of the handlers in a list, those goroutine [i] posted. *)
Definition posted_by (i : nat) (l : list (nat * H)) : list H := snd <$> filter (fun x => x.1 = i) l.
End steps.

(** * The invariant *)

Section invariant.
Context {V H : Type} `{Waker V, Handler H}.
Implicit Types (m : memory V H) (g : goroutine H) (σ : system (V := V) (H := H)) (p : place H).

Definition critical p : bool :=
  match p with
  | Appending _ | Counting | Counted _ | Unlocking | Running _ | Ran _ | Uncounted _ _ | Leaving => true
  | _ => false
  end.

(** Between appending and writing to the waker. *)
Definition will_wake p : bool := match p with Counting | Counted _ | Unlocking | Waking => true | _ => false end.

(** On the way to the handlers that are queued. *)
Definition will_run p : bool :=
  match p with Draining _ | Locking | Running _ | Ran _ | Uncounted _ _ => true | _ => false end.

Definition in_Poll p : bool := match p with Waiting | Leaving => true | _ => will_run p end.

(** By how much the counter is behind the queue. *)
Definition lag p : Z := match p with Counting | Counted _ => 1 | Ran _ | Uncounted _ _ => -1 | _ => 0 end.

(** The value read is still that of the counter. *)
Definition fresh p (n : Z) : Prop := match p with Counted v | Uncounted v _ => v = n | _ => True end.

Definition in_flight p : list H := match p with Appending h => [h] | _ => [] end.

(** The handlers still to run. *)
Definition backlog σ : list (nat * H) :=
  match σ.1 !! 0%nat with
  | Some g => match at_ g with Running hs | Ran hs | Uncounted _ hs => hs | _ => queue σ.2 end
  | None => []
  end.

(** No event is armed. *)
Definition only_posts (cs : list (command H)) : Prop := Forall (fun c => c <> CArm) cs.

Definition no_arms g : Prop := only_posts (todo g) /\ match at_ g with Arming | Armed _ => False | _ => True end.

Record sound (progs : list (list (command H))) σ : Prop := {
  so_length : length σ.1 = length progs;
  so_polls : forall i g, σ.1 !! i = Some g -> polls g = bool_decide (i = 0%nat) /\ (in_Poll (at_ g) = true -> i = 0%nat);
  so_todo : forall i g, σ.1 !! i = Some g -> in_Poll (at_ g) = true -> todo g = [];
  so_mutex : exists o : option nat, mutex σ.2 = bool_decide (is_Some o) /\
    (forall i, o = Some i -> is_Some (σ.1 !! i)) /\ forall i g, σ.1 !! i = Some g -> critical (at_ g) = bool_decide (o = Some i);
  so_fifo : queued σ.2 = ran σ.2 ++ backlog σ;
  so_left : forall g, σ.1 !! 0%nat = Some g -> at_ g = Leaving -> queue σ.2 = [];
  so_wake : queue σ.2 <> [] -> (0 < wake_count (waker_fd σ.2))%nat \/
    exists i g, σ.1 !! i = Some g /\ (will_wake (at_ g) = true \/ will_run (at_ g) = true);
  so_drain : forall g, σ.1 !! 0%nat = Some g -> at_ g = Draining false -> (0 < wake_count (waker_fd σ.2))%nat;
  so_owner : forall i g cs, σ.1 !! i = Some g -> progs !! i = Some cs ->
    posted_by i (queued σ.2) ++ in_flight (at_ g) ++ handlers_of (todo g) = handlers_of cs;
  so_ran : Forall (fun x => calls_Post x.2 = false) (ran σ.2);
  so_range : Forall (fun x => (x.1 < length progs)%nat) (queued σ.2)
}.

(** The counter, when nothing is armed. *)
Record counter_exact σ : Prop := {
  co_arms : Forall no_arms σ.1;
  co_free : mutex σ.2 = false -> counter σ.2 = zlen (queued σ.2) - zlen (ran σ.2);
  co_busy : forall i g, σ.1 !! i = Some g -> critical (at_ g) = true ->
    counter σ.2 + lag (at_ g) = zlen (queued σ.2) - zlen (ran σ.2) /\ fresh (at_ g) (counter σ.2)
}.

Lemma step_at_inv σ i σ' : step_at σ i = Some σ' ->
  exists g g' m', σ.1 !! i = Some g /\ step_one i g σ.2 = Some (g', m') /\ σ' = (<[i := g']> σ.1, m').
Proof.
  unfold step_at; destruct (σ.1 !! i) as [g |]; [| done]; destruct (step_one i g σ.2) as [[g' m'] |] eqn:E; [| done].
  intros [= <-]; by exists g, g', m'.
Qed.

(** Case analysis on who is looked up after a step. *)
Lemma lookup_after (gs : list (goroutine H)) i j g g' x : gs !! i = Some g -> <[i := g']> gs !! j = Some x ->
  (j = i /\ x = g') \/ (j <> i /\ gs !! j = Some x).
Proof.
  intros Hi [(-> & -> & _) | [Hne Hj]]%list_lookup_insert_Some; [by left | right; split; [congruence | done]].
Qed.

Lemma start_sound cs css : sound (cs :: css) (start (V := V) cs css).
Proof.
  assert (forall i g, (start (V := V) cs css).1 !! i = Some g ->
    at_ g = Idle /\ polls g = bool_decide (i = 0%nat) /\ (cs :: css) !! i = Some (todo g)) as Hs.
  { intros [| i] g; [by intros [= <-] |]; change (((fun cs => mkGo Idle cs false) <$> css) !! i = Some g -> at_ g = Idle /\
      polls g = bool_decide (S i = 0%nat) /\ css !! i = Some (todo g)).
    rewrite list_lookup_fmap; intros (x & Hx & ->)%fmap_Some; by rewrite Hx. }
  split; try done.
  - cbn; by rewrite length_fmap.
  - intros i g (-> & -> & _)%Hs; done.
  - intros i g (-> & _ & _)%Hs; done.
  - exists None; split_and!; [done | done |]; intros i g (-> & _ & _)%Hs; done.
  - cbn; intros g [= <-]; done.
  - intros i g cs' (-> & _ & ->)%Hs [= <-]; done.
Qed.

Lemma start_counted cs css : only_posts cs -> Forall only_posts css -> counter_exact (start (V := V) cs css).
Proof.
  intros Hc Hcs; split; [| done |].
  - constructor; [done |]; apply Forall_fmap; eapply list.Forall_impl; [exact Hcs |]; done.
  - intros i g Hi; assert (at_ g = Idle) as ->; [| done].
    destruct i as [| i]; [by injection Hi as <- |].
    change (((fun cs => mkGo Idle cs false) <$> css) !! i = Some g) in Hi.
    rewrite list_lookup_fmap in Hi; by apply fmap_Some in Hi as (x & _ & ->).
Qed.

(** The cases of a step: one for each place a goroutine may be at. *)
Ltac step_cases E :=
  unfold step_one, post_step, arm_step, dispatch_step in E;
  match type of E with
  | context [at_ ?g] => let Ep := fresh "Ep" in
      destruct (at_ g) as [| h | | v | | | | v | | again | | [| x hs] | hs | v hs |] eqn:Ep
  end;
  try (match type of E with context [todo ?g] => let Et := fresh "Et" in destruct (todo g) as [| [h |] rest] eqn:Et end);
  try (match type of E with context [polls ?g] => is_var g; let Eq := fresh "Eq" in destruct (polls g) eqn:Eq; try discriminate E end);
  try (match type of E with context [if mutex ?m then _ else _] => let Em := fresh "Em" in destruct (mutex m) eqn:Em; try discriminate E end);
  try (match type of E with context [decide ?P] => let Hc := fresh "Hc" in destruct (decide P) as [Hc | Hc]; try discriminate E end);
  try (match type of E with context [calls_Post ?h] => let Eh := fresh "Eh" in destruct (calls_Post h) eqn:Eh; try discriminate E end);
  try (match type of E with context [wake_read ?v] => let Er := fresh "Er" in destruct (wake_read v) as [v' err] eqn:Er end);
  simplify_eq/=.

(** What a step does to the mutex. *)
Lemma step_mutex i g m g' m' : step_one i g m = Some (g', m') ->
  (mutex m = false /\ mutex m' = true /\ critical (at_ g) = false /\ critical (at_ g') = true) \/
  (mutex m' = false /\ critical (at_ g) = true /\ critical (at_ g') = false) \/
  (mutex m' = mutex m /\ critical (at_ g') = critical (at_ g)).
Proof. intros E; step_cases E; auto; destruct err; auto. Qed.

(** What it does to the queue and the records: only [Appending] and [Poll] change them. *)
Lemma step_queue i g m g' m' : step_one i g m = Some (g', m') -> in_Poll (at_ g) = false ->
  ran m' = ran m /\
  ((exists h, at_ g = Appending h /\ queue m' = queue m ++ [(i, h)] /\ queued m' = queued m ++ [(i, h)]) \/
   (queue m' = queue m /\ queued m' = queued m)).
Proof. intros E Hp; step_cases E; try discriminate Hp; split; try done; eauto. Qed.

Lemma step_polls i g m g' m' : step_one i g m = Some (g', m') ->
  polls g' = polls g /\ (in_Poll (at_ g') = true -> in_Poll (at_ g) = true \/ (polls g = true /\ todo g = [] /\ todo g' = [])) /\
  (in_Poll (at_ g) = true -> todo g' = todo g).
Proof. intros E; step_cases E; split_and!; try done; auto; by destruct err; auto. Qed.

Lemma step_waker i g m g' m' : step_one i g m = Some (g', m') ->
  waker_fd m' = waker_fd m \/ (0 < wake_count (waker_fd m'))%nat \/ will_run (at_ g) = true.
Proof. intros E; step_cases E; auto; right; left; apply wake_write_count. Qed.

Lemma step_owner i g m g' m' : step_one i g m = Some (g', m') ->
  posted_by i (queued m') ++ in_flight (at_ g') ++ handlers_of (todo g') =
    posted_by i (queued m) ++ in_flight (at_ g) ++ handlers_of (todo g) /\
  (forall j, j <> i -> posted_by j (queued m') = posted_by j (queued m)) /\
  (queued m' = queued m \/ exists h, queued m' = queued m ++ [(i, h)]).
Proof.
  intros E; step_cases E; try done; try (by split_and!; [| | left]; try destruct err; rewrite ?Et); unfold posted_by; split_and!; [| intros j Hj |]; [| | eauto];
    rewrite list.filter_app, fmap_app.
  - rewrite list.filter_cons_True by done; by rewrite <- app_assoc.
  - rewrite list.filter_cons_False by (cbn; congruence); by rewrite app_nil_r.
Qed.

(** Only one goroutine is in the critical section. *)
Lemma exclusive progs σ i j g g' : sound progs σ -> σ.1 !! i = Some g -> σ.1 !! j = Some g' ->
  critical (at_ g) = true -> critical (at_ g') = true -> i = j.
Proof.
  intros Hs Hi Hj Cg Cg'; destruct (so_mutex _ _ Hs) as (o & _ & _ & Ho).
  rewrite (Ho _ _ Hi) in Cg; rewrite (Ho _ _ Hj) in Cg'; apply bool_decide_eq_true in Cg, Cg'; congruence.
Qed.

Lemma poll_is_0 progs σ i g : sound progs σ -> σ.1 !! i = Some g -> i <> 0%nat -> in_Poll (at_ g) = false.
Proof. intros Hs Hi Hne; destruct (in_Poll (at_ g)) eqn:E; [| done]; by destruct Hne; apply (so_polls _ _ Hs i g Hi). Qed.

Lemma step_sound_mutex progs σ i g g' m' : sound progs σ -> σ.1 !! i = Some g -> step_one i g σ.2 = Some (g', m') ->
  exists o : option nat, mutex m' = bool_decide (is_Some o) /\
    (forall j, o = Some j -> is_Some (<[i := g']> σ.1 !! j)) /\
    forall j x, <[i := g']> σ.1 !! j = Some x -> critical (at_ x) = bool_decide (o = Some j).
Proof.
  intros Hs Hi E; destruct (so_mutex _ _ Hs) as (o & Hm & Hin & Ho); pose proof (Ho i g Hi) as Hg.
  assert (forall j, is_Some (σ.1 !! j) -> is_Some (<[i := g']> σ.1 !! j)) as Hsome.
  { intros j Hj%lookup_lt_is_Some; apply lookup_lt_is_Some; by rewrite length_insert. }
  destruct (step_mutex _ _ _ _ _ E) as [(M & M' & C & C') | [(M' & C & C') | (M' & C')]].
  - exists (Some i); split_and!; [done | intros j [= <-]; apply Hsome; by rewrite Hi |].
    intros j x [(-> & ->) | (Hne & Hj)]%(lookup_after _ _ _ _ _ _ Hi); [by rewrite bool_decide_true |].
    rewrite (Ho j x Hj); rewrite M in Hm; destruct o; [done |]; rewrite !bool_decide_false by congruence; done.
  - exists None; split_and!; [done | done |].
    intros j x [(-> & ->) | (Hne & Hj)]%(lookup_after _ _ _ _ _ _ Hi); [by rewrite bool_decide_false |].
    rewrite (Ho j x Hj); rewrite C in Hg; symmetry in Hg; apply bool_decide_eq_true in Hg; subst o; by rewrite !bool_decide_false by congruence.
  - exists o; split_and!; [congruence | intros j Hj; by apply Hsome, Hin |].
    intros j x [(-> & ->) | (Hne & Hj)]%(lookup_after _ _ _ _ _ _ Hi); [congruence | by apply Ho].
Qed.

(** The handlers that ran and those still to run are those that were queued. *)
Lemma step_sound_fifo progs σ i g g' m' : sound progs σ -> σ.1 !! i = Some g -> step_one i g σ.2 = Some (g', m') ->
  queued m' = ran m' ++ backlog (<[i := g']> σ.1, m').
Proof.
  intros Hs Hi E; pose proof (so_fifo _ _ Hs) as Hf; unfold backlog in *; cbn [fst snd]; destruct (decide (i = 0%nat)) as [-> | Hne].
  - rewrite list_lookup_insert_eq by (by eapply lookup_lt_Some); rewrite Hi in Hf; pose proof (so_left _ _ Hs g Hi) as Hl.
    step_cases E; try done; try (by destruct err); rewrite ?Hf, <- ?app_assoc; done.
  - rewrite list_lookup_insert_ne by done; destruct (step_queue _ _ _ _ _ E (poll_is_0 _ _ _ _ Hs Hi Hne)) as [-> Hq].
    destruct Hq as [(h & Ha & -> & ->) | [-> ->]]; [| done]; destruct (σ.1 !! 0%nat) as [g0 |] eqn:Hz;
      [| apply lookup_lt_Some in Hi; apply lookup_ge_None in Hz; lia].
    assert (critical (at_ g0) = false) as Hc.
    { destruct (critical (at_ g0)) eqn:C; [| done]; destruct Hne; eapply (exclusive progs σ); try done; by rewrite Ha. }
    rewrite Hf, <- app_assoc; by destruct (at_ g0).
Qed.

Lemma step_sound_left progs σ i g g' m' : sound progs σ -> σ.1 !! i = Some g -> step_one i g σ.2 = Some (g', m') ->
  forall x, <[i := g']> σ.1 !! 0%nat = Some x -> at_ x = Leaving -> queue m' = [].
Proof.
  intros Hs Hi E x [(<- & ->) | (Hne & Hx)]%(lookup_after _ _ _ _ _ _ Hi) Hl.
  - step_cases E; try done; by destruct err.
  - destruct (step_queue _ _ _ _ _ E) as [_ [(h & Ha & _ & _) | [-> _]]]; [by eapply poll_is_0 | | by eapply so_left].
    destruct Hne; eapply (exclusive progs σ); try done; [by rewrite Hl | by rewrite Ha].
Qed.

(** Whoever was going to wake the poller, or to run the handlers, still is, or has. *)
Lemma step_watch i g m g' m' : step_one i g m = Some (g', m') -> (at_ g = Leaving -> queue m = []) ->
  will_wake (at_ g) = true \/ will_run (at_ g) = true ->
  (0 < wake_count (waker_fd m'))%nat \/ will_wake (at_ g') = true \/ will_run (at_ g') = true \/ queue m' = [].
Proof.
  intros E Hl Hw; step_cases E; auto; try (by destruct Hw); try (destruct err; auto); left; apply wake_write_count.
Qed.

Lemma step_sound_wake progs σ i g g' m' : sound progs σ -> σ.1 !! i = Some g -> step_one i g σ.2 = Some (g', m') ->
  queue m' <> [] -> (0 < wake_count (waker_fd m'))%nat \/
    exists j x, <[i := g']> σ.1 !! j = Some x /\ (will_wake (at_ x) = true \/ will_run (at_ x) = true).
Proof.
  intros Hs Hi E Hq; assert (<[i := g']> σ.1 !! i = Some g') as Hi' by (apply list_lookup_insert_eq; by eapply lookup_lt_Some).
  assert (at_ g = Leaving -> queue σ.2 = []) as Hl.
  { intros Hl; eapply (so_left _ _ Hs g); [| done]; rewrite <- Hi; f_equal; symmetry; apply (so_polls _ _ Hs i g Hi); by rewrite Hl. }
  destruct (decide (will_wake (at_ g) = true \/ will_run (at_ g) = true)) as [Hw | Hw].
  { destruct (step_watch _ _ _ _ _ E Hl Hw) as [? | [? | [? | ?]]]; [by left | right; eauto | right; eauto | done]. }
  assert (will_wake (at_ g') = true \/ will_run (at_ g') = true \/
    (queue m' = queue σ.2 /\ waker_fd m' = waker_fd σ.2) \/ (0 < wake_count (waker_fd m'))%nat) as [? | [? | [[Eq Ew] | ?]]].
  { step_cases E; auto; destruct Hw; auto. }
  - right; eauto.
  - right; eauto.
  - rewrite Ew; rewrite Eq in Hq; destruct (so_wake _ _ Hs Hq) as [| (j & x & Hj & Hx)]; [by left | right].
    exists j, x; split; [| done]; rewrite list_lookup_insert_ne; [done |]; intros ->; rewrite Hi in Hj; by injection Hj as <-.
  - by left.
Qed.

Lemma step_sound_drain progs σ i g g' m' : sound progs σ -> σ.1 !! i = Some g -> step_one i g σ.2 = Some (g', m') ->
  forall x, <[i := g']> σ.1 !! 0%nat = Some x -> at_ x = Draining false -> (0 < wake_count (waker_fd m'))%nat.
Proof.
  intros Hs Hi E x [(<- & ->) | (Hne & Hx)]%(lookup_after _ _ _ _ _ _ Hi) Hl.
  - step_cases E; try done; by destruct err.
  - destruct (step_waker _ _ _ _ _ E) as [-> | [| Hr]]; [by eapply so_drain | done |].
    pose proof (poll_is_0 _ _ _ _ Hs Hi (not_eq_sym Hne)) as Hp; unfold in_Poll in Hp; rewrite Hr in Hp; by destruct (at_ g).
Qed.

Lemma step_sound progs σ i σ' : sound progs σ -> step_at σ i = Some σ' -> sound progs σ'.
Proof.
  intros Hs (g & g' & m' & Hi & E & ->)%step_at_inv; split; cbn [fst snd].
  - rewrite length_insert; apply Hs.
  - destruct (step_polls _ _ _ _ _ E) as (Hp & Hin & _); intros j x [(-> & ->) | (Hne & Hj)]%(lookup_after _ _ _ _ _ _ Hi); [| by eapply so_polls].
    destruct (so_polls _ _ Hs i g Hi) as [Hp0 Hin0]; split; [congruence |].
    intros [Hx | [Hx _]]%Hin; [by apply Hin0 |]; rewrite Hp0 in Hx; by apply bool_decide_eq_true in Hx.
  - destruct (step_polls _ _ _ _ _ E) as (_ & Hin & Ht); intros j x [(-> & ->) | (Hne & Hj)]%(lookup_after _ _ _ _ _ _ Hi); [| by eapply so_todo].
    intros [Hx | (_ & _ & Hx)]%Hin; [rewrite (Ht Hx); by eapply so_todo | done].
  - by eapply step_sound_mutex.
  - by eapply step_sound_fifo.
  - by eapply step_sound_left.
  - by eapply step_sound_wake.
  - by eapply step_sound_drain.
  - destruct (step_owner _ _ _ _ _ E) as (Ho & Hother & _).
    intros j x cs [(-> & ->) | (Hne & Hj)]%(lookup_after _ _ _ _ _ _ Hi) Hc; [rewrite Ho | rewrite Hother by done]; by eapply so_owner.
  - pose proof (so_ran _ _ Hs) as Hr; clear Hi Hs; step_cases E; try done; apply list.Forall_app; by repeat constructor.
  - destruct (step_owner _ _ _ _ _ E) as (_ & _ & [-> | [h ->]]); [apply Hs |]; apply list.Forall_app; split; [apply Hs |].
    constructor; [| done]; cbn; rewrite <- (so_length _ _ Hs); by eapply lookup_lt_Some.
Qed.

(** ** The counter *)

Definition outstanding m : Z := zlen (queued m) - zlen (ran m).

Lemma step_count_inside i g m g' m' : step_one i g m = Some (g', m') -> critical (at_ g) = true ->
  counter m + lag (at_ g) = outstanding m -> fresh (at_ g) (counter m) ->
  counter m' + lag (at_ g') = outstanding m' /\ fresh (at_ g') (counter m').
Proof. unfold outstanding; intros E Hc Hd Hf; step_cases E; try discriminate Hc; (split; [llia | done]). Qed.

Lemma step_count_outside i g m g' m' : step_one i g m = Some (g', m') -> critical (at_ g) = false -> no_arms g ->
  counter m' = counter m /\ outstanding m' = outstanding m /\
  (critical (at_ g') = true -> mutex m = false /\ lag (at_ g') = 0 /\ fresh (at_ g') (counter m')).
Proof.
  unfold outstanding; intros E Hc [Ht Ha]; step_cases E; try discriminate Hc; try done; try (by destruct err).
Qed.

Lemma step_no_arms i g m g' m' : step_one i g m = Some (g', m') -> no_arms g -> no_arms g'.
Proof.
  intros E [Ht Ha]; unfold no_arms, only_posts in *; step_cases E; try done; try (by destruct err); try (by rewrite Et);
    apply list.Forall_cons in Ht as [Hh Ht]; done.
Qed.

Lemma step_counted progs σ i σ' : sound progs σ -> counter_exact σ -> step_at σ i = Some σ' -> counter_exact σ'.
Proof.
  intros Hs [Ha Hfree Hbusy] (g & g' & m' & Hi & E & ->)%step_at_inv.
  pose proof (Forall_lookup_1 _ _ _ _ Ha Hi) as Hg; destruct (so_mutex _ _ Hs) as (o & Hm & Hin & Ho).
  assert (forall j x, j <> i -> σ.1 !! j = Some x -> critical (at_ x) = true ->
    critical (at_ g) = false /\ mutex σ.2 = true) as Hother.
  { intros j x Hne Hj Hx; split.
    - destruct (critical (at_ g)) eqn:C; [| done]; destruct Hne; by eapply (exclusive progs σ).
    - rewrite (Ho _ _ Hj) in Hx; apply bool_decide_eq_true in Hx; rewrite Hm, Hx; by apply bool_decide_eq_true. }
  assert (mutex σ.2 = false -> critical (at_ g) = false) as Hout.
  { intros Hf; rewrite Hm in Hf; apply bool_decide_eq_false in Hf; rewrite (Ho _ _ Hi); apply bool_decide_eq_false_2; intros ->; by destruct Hf. }
  split; cbn [fst snd].
  - apply Forall_insert; [done | by eapply step_no_arms].
  - intros Hf; destruct (critical (at_ g)) eqn:C.
    + destruct (Hbusy i g Hi C) as [Hd Hfr]; destruct (step_count_inside _ _ _ _ _ E C Hd Hfr) as [Hd' _].
      destruct (step_mutex _ _ _ _ _ E) as [(_ & M & _) | [(_ & _ & C') | (M & _)]]; [congruence | |].
      * fold (outstanding m'); rewrite <- Hd'; destruct (at_ g'); cbn in C' |- *; try done; lia.
      * rewrite Hf in M; symmetry in M; by apply Hout in M.
    + destruct (step_count_outside _ _ _ _ _ E C Hg) as (-> & Hd & _); fold (outstanding m'); rewrite Hd; apply Hfree.
      destruct (step_mutex _ _ _ _ _ E) as [(M & _) | [(_ & C' & _) | (M & _)]]; congruence.
  - intros j x [(-> & ->) | (Hne & Hj)]%(lookup_after _ _ _ _ _ _ Hi) Hc; fold (outstanding m').
    + destruct (critical (at_ g)) eqn:C.
      * destruct (Hbusy i g Hi C) as [Hd Hfr]; by apply (step_count_inside _ _ _ _ _ E C Hd Hfr).
      * destruct (step_count_outside _ _ _ _ _ E C Hg) as (-> & -> & Hx); destruct (Hx Hc) as (M & -> & Hfr).
        split; [rewrite Z.add_0_r; by apply Hfree | done].
    + destruct (Hother j x Hne Hj Hc) as [C _]; destruct (step_count_outside _ _ _ _ _ E C Hg) as (-> & -> & _); by apply (Hbusy j x).
Qed.

(** * Every run ends *)

Definition place_cost p : nat :=
  match p with
  | Idle => 2 | Appending _ => 19 | Counting => 14 | Counted _ => 13 | Unlocking => 12 | Waking => 11
  | Arming => 4 | Armed _ => 3 | Waiting => 1 | Draining false => 0 | Draining true => 7 | Locking => 6
  | Running _ => 5 | Ran _ => 7 | Uncounted _ _ => 6 | Leaving => 4
  end.

Definition command_cost (c : command H) : nat := match c with CPost _ => 18 | CArm => 3 end.

Definition cost g : nat := place_cost (at_ g) + sum_list_with command_cost (todo g).

(** What is left to do: the handlers still to run and the reads of the waker count too. *)
Definition work σ : nat :=
  8 * wake_count (waker_fd σ.2) + 4 * length (backlog σ) + sum_list_with cost σ.1.

Lemma sum_insert (f : goroutine H -> nat) gs i g g' : gs !! i = Some g ->
  (sum_list_with f (<[i := g']> gs) + f g = sum_list_with f gs + f g')%nat.
Proof.
  revert i; induction gs as [| x gs IH]; intros [| i] Hi; simplify_eq/=; [lia |]; specialize (IH i Hi); lia.
Qed.

(** The handlers left after a step, but for those it appended. *)
Lemma step_backlog progs σ i g g' m' : sound progs σ -> σ.1 !! i = Some g -> step_one i g σ.2 = Some (g', m') ->
  length (backlog (<[i := g']> σ.1, m')) = (length (queued m') - length (ran m'))%nat /\
  length (backlog σ) = (length (queued σ.2) - length (ran σ.2))%nat /\ (length (ran σ.2) <= length (queued σ.2))%nat /\
  (length (ran m') <= length (queued m'))%nat.
Proof.
  intros Hs Hi E; pose proof (f_equal length (step_sound_fifo _ _ _ _ _ _ Hs Hi E)) as E1; pose proof (f_equal length (so_fifo _ _ Hs)) as E2.
  rewrite length_app in E1, E2; lia.
Qed.

Lemma step_work progs σ i σ' : sound progs σ -> step_at σ i = Some σ' -> (work σ' < work σ)%nat.
Proof.
  intros Hs (g & g' & m' & Hi & E & ->)%step_at_inv; unfold work; cbn [fst snd].
  pose proof (sum_insert cost σ.1 i g g' Hi) as Hsum.
  destruct (step_backlog _ _ _ _ _ _ Hs Hi E) as (-> & -> & Hle & Hle').
  revert Hsum; generalize (sum_list_with cost (<[i := g']> σ.1)) (sum_list_with cost σ.1); intros A B Hsum.
  assert (at_ g = Draining false -> (0 < wake_count (waker_fd σ.2))%nat) as Hd.
  { intros Hd; eapply (so_drain _ _ Hs g); [| done]; rewrite <- Hi; f_equal; symmetry; apply (so_polls _ _ Hs i g Hi); by rewrite Hd. }
  pose proof (wake_write_count (waker_fd σ.2)) as Hww; unfold cost in Hsum; step_cases E; rewrite ?length_app in *; cbn [length] in *;
    rewrite ?Et in Hsum; cbn in Hsum; try lia.
  pose proof (wake_read_some (waker_fd σ.2)) as Hsome; pose proof (wake_read_none (waker_fd σ.2)) as Hnone; rewrite Er in Hsome, Hnone.
  destruct (decide (0 < wake_count (waker_fd σ.2))%nat) as [Hc | Hc].
  - destruct (Hsome Hc) as [[= ->] Hlt]; cbn in *; destruct again; lia.
  - destruct (Hnone ltac:(lia)) as [[e [= ->]] [= ->]]; destruct again; [cbn in *; lia | by specialize (Hd eq_refl)].
Qed.

Lemma schedule_sound progs sched : forall σ, sound progs σ ->
  sound progs (run_schedule σ sched).1 /\ (work (run_schedule σ sched).1 + (run_schedule σ sched).2 <= work σ)%nat /\
  (counter_exact σ -> counter_exact (run_schedule σ sched).1).
Proof.
  induction sched as [| i sched IH]; intros σ Hs; cbn [run_schedule]; [split_and!; [done | cbn; lia | done] |].
  destruct (step_at σ i) as [σ' |] eqn:E; [| by apply IH].
  pose proof (step_sound _ _ _ _ Hs E) as Hs'; pose proof (step_work _ _ _ _ Hs E) as Hw; destruct (IH σ' Hs') as (Hs2 & Hw2 & Hc2).
  destruct (run_schedule σ' sched) as [σ'' n]; cbn [fst snd] in *; split_and!; [done | lia | intros Hc; apply Hc2; by apply (step_counted progs σ i)].
Qed.

(** ** When nobody can move *)

Lemma step_blocked i g m : step_one i g m = None ->
  (exists x hs, at_ g = Running (x :: hs) /\ calls_Post x.2 = true) \/
  critical (at_ g) = false /\ will_wake (at_ g) = false /\
  (mutex m = true \/ (at_ g = Idle /\ todo g = [] /\ polls g = false) \/
   (at_ g = Waiting /\ wake_count (waker_fd m) = 0%nat)).
Proof.
  unfold step_one, post_step, arm_step, dispatch_step; intros E; destruct (at_ g) as [| h | | v | | | | v | | again | | [| x hs] | hs | v hs |] eqn:Ep; try done.
  - right; destruct (todo g) as [| [h |] rest] eqn:Et; [destruct (polls g); [done |] | destruct (mutex m); [| done] | done];
      split_and!; auto.
  - right; destruct (decide _); [done |]; split_and!; [done | done |]; right; right; split; [done | lia].
  - by destruct (wake_read _).
  - right; destruct (mutex m); [| done]; split_and!; auto.
  - left; exists x, hs; by destruct (calls_Post x.2).
Qed.

(** The poller waits in a handler for the mutex it holds. *)
Definition self_locked σ : Prop :=
  exists g x hs, σ.1 !! 0%nat = Some g /\ at_ g = Running (x :: hs) /\ calls_Post x.2 = true /\ mutex σ.2 = true.

Lemma self_locked_dec σ : self_locked σ \/ ~ self_locked σ.
Proof.
  unfold self_locked; destruct (mutex σ.2) eqn:Em; [| right; intros (? & ? & ? & _ & _ & _ & E); discriminate E].
  destruct (σ.1 !! 0%nat) as [g |] eqn:Eg; [| right; intros (? & ? & ? & E & _); discriminate E].
  destruct (at_ g) as [| | | | | | | | | | | [| x hs] | | |] eqn:Ea; try (right; intros (? & ? & ? & [= <-] & E & _); congruence).
  destruct (calls_Post x.2) eqn:Ex; [left; by exists g, x, hs | right; intros (? & ? & ? & [= <-] & E & E' & _); congruence].
Qed.

Lemma stuck_blocked progs σ : sound progs σ -> stuck σ -> ~ self_locked σ -> forall i g, σ.1 !! i = Some g ->
  critical (at_ g) = false /\ will_wake (at_ g) = false /\
  (mutex σ.2 = true \/ (at_ g = Idle /\ todo g = [] /\ polls g = false) \/
   (at_ g = Waiting /\ wake_count (waker_fd σ.2) = 0%nat)).
Proof.
  intros Hs Hst Hn i g Hi; specialize (Hst i); unfold step_at in Hst; rewrite Hi in Hst.
  destruct (step_one i g σ.2) as [[] |] eqn:E; [done |]; destruct (step_blocked _ _ _ E) as [(x & hs & Hr & Hx) | Hb]; [| done].
  assert (i = 0%nat) as -> by (apply (so_polls _ _ Hs i g Hi); by rewrite Hr).
  destruct Hn; exists g, x, hs; split_and!; try done; destruct (so_mutex _ _ Hs) as (o & -> & _ & Ho).
  specialize (Ho _ _ Hi); rewrite Hr in Ho; symmetry in Ho; apply bool_decide_eq_true in Ho as ->; by apply bool_decide_eq_true.
Qed.

(** Otherwise nobody holds the mutex, everybody is done, and the poller waits with nothing to run. *)
Lemma stuck_quiet cs css σ : sound (cs :: css) σ -> stuck σ -> ~ self_locked σ ->
  mutex σ.2 = false /\ queue σ.2 = [] /\ ran σ.2 = queued σ.2 /\ (exists g, σ.1 !! 0%nat = Some g /\ at_ g = Waiting) /\
  forall i c, (cs :: css) !! i = Some c -> posted_by i (queued σ.2) = handlers_of c.
Proof.
  intros Hs Hst Hn; pose proof (stuck_blocked _ _ Hs Hst Hn) as Hb.
  assert (mutex σ.2 = false) as Hm.
  { destruct (so_mutex _ _ Hs) as (o & -> & Hin & Ho); destruct o as [i |]; [| done]; destruct (Hin i eq_refl) as [g Hi].
    destruct (Hb i g Hi) as [Hc _]; rewrite (Ho i g Hi) in Hc; by apply bool_decide_eq_false in Hc. }
  assert (is_Some (σ.1 !! 0%nat)) as [g0 H00] by (apply lookup_lt_is_Some; rewrite (so_length _ _ Hs); cbn; lia).
  assert (at_ g0 = Waiting /\ wake_count (waker_fd σ.2) = 0%nat) as [Hw0 Hz].
  { destruct (Hb _ _ H00) as (_ & _ & [Hx | [(_ & _ & Hp) | Hx]]); [congruence | | done].
    destruct (so_polls _ _ Hs _ _ H00) as [Hp' _]; rewrite Hp in Hp'; by rewrite bool_decide_true in Hp'. }
  assert (queue σ.2 = []) as Hq.
  { destruct (decide (queue σ.2 = [])) as [| Hne]; [done |]; destruct (so_wake _ _ Hs Hne) as [| (i & g & Hi & Hx)]; [lia |].
    destruct (Hb _ _ Hi) as (_ & Hww & [Hy | [(Hy & _) | (Hy & _)]]); [congruence | |];
      rewrite Hy in Hx; cbn in Hx; by destruct Hx. }
  split_and!; [done | done | | by exists g0 |].
  - pose proof (so_fifo _ _ Hs) as Hf; unfold backlog in Hf; rewrite H00, Hw0, Hq, app_nil_r in Hf; done.
  - intros i c Hc; assert (is_Some (σ.1 !! i)) as [g Hi].
    { apply lookup_lt_is_Some; rewrite (so_length _ _ Hs); by eapply lookup_lt_Some. }
    pose proof (so_owner _ _ Hs i g c Hi Hc) as Ho.
    destruct (Hb _ _ Hi) as (_ & _ & [Hy | [(Hy & Ht & _) | (Hy & _)]]); [congruence | |].
    + rewrite Hy, Ht in Ho; cbn in Ho; by rewrite app_nil_r in Ho.
    + rewrite Hy, (so_todo _ _ Hs i g Hi) in Ho by (by rewrite Hy); cbn in Ho; by rewrite app_nil_r in Ho.
Qed.

Lemma start_work cs css : (work (start (V := V) cs css) <= 18 * length (cs ++ concat css) + 2 * S (length css))%nat.
Proof.
  assert (forall l, sum_list_with command_cost l <= 18 * length l)%nat as Hl.
  { induction l as [| [h |] l IH]; cbn; lia. }
  unfold work, backlog, start; cbn -[Nat.mul]; rewrite wake_new_count, length_app; pose proof (Hl cs) as Hcs.
  assert (sum_list_with cost ((λ cs, mkGo Idle cs false) <$> css) <= 18 * length (concat css) + 2 * length css)%nat; [| cbn in *; lia].
  clear cs Hcs; induction css as [| c css IH]; [cbn; lia |].
  rewrite fmap_cons; cbn [sum_list_with concat length]; rewrite length_app; pose proof (Hl c); unfold cost at 1; cbn [place_cost at_ todo]; lia.
Qed.
End invariant.

(** C16: Whatever the interleaving of goroutines that post and one that polls, and whichever
    descriptor wakes it, two of them are never in the critical section together; handlers run
    in the order they were appended, each once, and those of one goroutine in the order it
    posted them; only so many steps are possible, and when nobody can move any more (a
    deadlock or a lost wake-up would be such a state) every handler that was posted has run
    and the poller waits with an empty queue, unless a handler that calls [Post] is waiting
    for the mutex the poller holds; such a handler never returns.  If no event is armed meanwhile, the counter is
    the number of handlers still to run whenever the mutex is free. *)
Theorem posts_delivered {V H : Type} `{Waker V, Handler H} (cs : list (command H)) (css : list (list (command H))) (sched : list nat) :
  let '(σ, n) := run_schedule (start (V := V) cs css) sched in
  (n <= 18 * length (cs ++ concat css) + 2 * S (length css))%nat /\
  (forall i j g g', σ.1 !! i = Some g -> σ.1 !! j = Some g' -> critical (at_ g) = true -> critical (at_ g') = true -> i = j) /\
  ran σ.2 `prefix_of` queued σ.2 /\ Forall (fun x => (x.1 < S (length css))%nat) (queued σ.2) /\
  (forall i c, (cs :: css) !! i = Some c -> posted_by i (queued σ.2) `prefix_of` handlers_of c) /\
  Forall (fun x => calls_Post x.2 = false) (ran σ.2) /\
  (stuck σ -> self_locked σ \/
    (queue σ.2 = [] /\ ran σ.2 = queued σ.2 /\ (exists g, σ.1 !! 0%nat = Some g /\ at_ g = Waiting) /\
     forall i c, (cs :: css) !! i = Some c -> posted_by i (ran σ.2) = handlers_of c)) /\
  (only_posts cs -> Forall only_posts css -> mutex σ.2 = false -> counter σ.2 = zlen (queued σ.2) - zlen (ran σ.2)).
Proof.
  destruct (schedule_sound (cs :: css) sched _ (start_sound cs css)) as (Hs & Hn & Hc).
  pose proof (start_work (V := V) cs css) as Hw; destruct (run_schedule _ sched) as [σ n]; cbn [fst snd] in *; split_and!.
  - lia.
  - intros i j g g'; by apply (exclusive (cs :: css)).
  - rewrite (so_fifo _ _ Hs); by eexists.
  - apply (so_range _ _ Hs).
  - intros i c Hi; assert (is_Some (σ.1 !! i)) as [g Hg].
    { apply lookup_lt_is_Some; rewrite (so_length _ _ Hs); by eapply lookup_lt_Some. }
    rewrite <- (so_owner _ _ Hs i g c Hg Hi); by eexists.
  - apply (so_ran _ _ Hs).
  - intros Hst; destruct (self_locked_dec σ) as [| Hl]; [by left | right].
    destruct (stuck_quiet _ _ _ Hs Hst Hl) as (_ & Hq & -> & Hp & Ho); done.
  - intros Ha Hb Hm; apply co_free; [| done]; by apply Hc, start_counted.
Qed.

Lemma stuck_3 {V H : Type} `{Waker V, Handler H} (σ : system (V := V) (H := H)) : length σ.1 = 3%nat ->
  step_at σ 0 = None -> step_at σ 1 = None -> step_at σ 2 = None -> stuck σ.
Proof.
  intros Hl ? ? ? i; destruct i as [| [| [| i]]]; [done.. |]; unfold step_at; by rewrite lookup_ge_None_2 by lia.
Qed.

(** Handlers that do not post, and numbered ones, of which 0 does. *)
#[local] Instance quiet {H : Type} : Handler H | 100 := fun _ => false.

#[local] Instance numbered : Handler Z := fun h => bool_decide (h = 0).

Lemma posts_delivered_witness :
  let σ := (run_schedule (start (V := eventfd) [CPost 1%Z] [[CPost 2; CPost 3]; [CPost 4; CArm]]) (concat (replicate 60 [0; 1; 2]))%nat).1 in
  let τ := (run_schedule (start (V := bytes_in_pipe) [CPost 1%Z] [[CPost 2; CPost 3]; [CPost 0]]) (concat (replicate 60 [0; 1; 2]))%nat).1 in
  stuck σ /\ queue σ.2 = [] /\ ran σ.2 = [(0%nat, 1); (1%nat, 2); (2%nat, 4); (1%nat, 3)] /\ posted_by 1 (ran σ.2) = [2; 3] /\
  self_locked τ.
Proof.
  pose proof (posts_delivered (V := eventfd) [CPost 1%Z] [[CPost 2; CPost 3]; [CPost 4; CArm]] (concat (replicate 60 [0; 1; 2]))%nat) as Hp.
  pose proof (posts_delivered (V := bytes_in_pipe) [CPost 1%Z] [[CPost 2; CPost 3]; [CPost 0]] (concat (replicate 60 [0; 1; 2]))%nat) as Hq.
  destruct (run_schedule (V := eventfd) _ _) as [σ n] eqn:E; destruct (run_schedule (V := bytes_in_pipe) _ _) as [τ n'] eqn:F; cbn [fst snd].
  destruct Hp as (_ & _ & _ & _ & _ & _ & Hs & _); destruct Hq as (_ & _ & _ & _ & _ & _ & Ht & _).
  apply (f_equal fst) in E, F; vm_compute in E, F; cbn [fst] in E, F.
  assert (stuck σ) as Hst by (rewrite <- E; apply stuck_3; vm_compute; reflexivity).
  assert (stuck τ) as Hst' by (rewrite <- F; apply stuck_3; vm_compute; reflexivity).
  destruct (Hs Hst) as [(? & ? & ? & _ & _ & _ & Hm) | (Hq & _ & _ & Ho)]; [rewrite <- E in Hm; discriminate Hm |].
  destruct (Ht Hst') as [Hl | (Hq' & _)]; [| rewrite <- F in Hq'; discriminate Hq'].
  split_and!; [exact Hst | exact Hq | rewrite <- E; reflexivity | exact (Ho 1%nat _ eq_refl) | exact Hl].
Defined.

(** ** Without interleaving *)

(** The memory of the goroutines is that of the poller of [Poller.v]. *)
Definition shows {K H : Type} (p : poller K H) (m : memory eventfd H) : Prop :=
  Poller.posts p = snd <$> queue m /\ lck p = mutex m /\ pending p = counter m /\ wakeups p = Z.of_N (waker_fd m) /\ closed p = false.

Lemma step_at_insert {V H : Type} `{Waker V, Handler H} (gs : list (goroutine H)) i g0 g (m : memory V H) : gs !! i = Some g0 ->
  step_at (<[i := g]> gs, m) i = match step_one i g m with Some (g', m') => Some (<[i := g']> gs, m') | None => None end.
Proof.
  intros Hi; unfold step_at; cbn [fst snd]; rewrite list_lookup_insert_eq by (by eapply lookup_lt_Some).
  destruct (step_one i g m) as [[g' m'] |]; [| done]; cbn; by rewrite list_insert_insert_eq.
Qed.

(** The six steps of a goroutine that posts, taken in a row, are the one step of [Post]. *)
Lemma post_alone {K H : Type} `{Handler H} (p : poller K H) (σ : system (V := eventfd) (H := H)) i h rest b :
  σ.1 !! i = Some (mkGo Idle (CPost h :: rest) b) -> shows p σ.2 -> mutex σ.2 = false -> (waker_fd σ.2 + 1 <= 2 ^ 64 - 2)%N ->
  exists p' m', Post p h = Some (p', None) /\ run_schedule σ (replicate 6 i) = ((<[i := mkGo Idle rest b]> σ.1, m'), 6%nat) /\ shows p' m'.
Proof.
  intros Hi (Hq & Hl & Hp & Hw & Hc) Hm Hv; destruct σ as [gs m]; cbn [fst snd] in *.
  unfold Post, waker_Write; rewrite Hl, Hm; cbn [closed]; rewrite Hc; eexists _, _; split; [done |].
  cbn [replicate run_schedule]; unfold step_at at 1; cbn [fst snd]; rewrite Hi; cbn [step_one at_ todo polls mbind option_bind]; rewrite Hm.
  cbn [mbind option_bind]; do 5 (rewrite (step_at_insert gs i _ _ _ Hi); cbn [step_one post_step at_ todo polls go]); split; [done |].
  unfold shows; cbn; unfold EventFd_Write; rewrite decide_True by done; cbn; rewrite fmap_app; split_and!; [by rewrite Hq | done | lia | lia | done].
Qed.

(** Arming an event while another goroutine posts can lose an update of the counter, which
    [setRW] changes without the mutex: after the same commands, with the handler run and the
    event still armed, the counter is 1 or 0 depending on the interleaving. *)
Theorem pending_race {H : Type} (h : H) :
  let outcome n := exists sched, let σ := (run_schedule (start (V := eventfd) [CArm] [[CPost h]; []]) sched).1 in
    stuck σ /\ ran σ.2 = [(1%nat, h)] /\ armed σ.2 = 1 /\ counter σ.2 = n in
  outcome 1 /\ outcome 0.
Proof.
  split.
  - exists (replicate 40 0 ++ replicate 40 1 ++ replicate 40 0)%nat; cbv zeta; split_and!; [apply stuck_3 | ..]; vm_compute; reflexivity.
  - exists ([0; 0; 1; 1; 1; 1; 0] ++ replicate 40 1 ++ replicate 40 0)%nat; cbv zeta; split_and!; [apply stuck_3 | ..]; vm_compute; reflexivity.
Qed.
