(* ===== verification/Kqueue.v ===== *)
(** The kqueue poller of the BSD builds: [src/internal/poll_bsd.go], with the waker of
    [src/internal/pipe.go] and the timer of [src/internal/timer_bsd.go].

    Unlike the epoll poller of [Poller.v] it queues its changes and hands them to the kernel
    at the next [Poll], where one system call applies them and waits.  The slots are those
    of [Poller.v], with the masks of this system. *)

From stdpp Require Import gmap.
From S2P Require Import Prelude Poller.

(** * kqueue(2) *)

(** The values of Darwin, FreeBSD and DragonFly BSD. *)
Definition EVFILT_READ : Z := -1.
Definition EVFILT_WRITE : Z := -2.
Definition EVFILT_TIMER : Z := -7.
Definition EV_ADD : Z := 1.
Definition EV_DELETE : Z := 2.
Definition EV_ENABLE : Z := 4.
Definition EV_DISABLE : Z := 8.
Definition EV_ONESHOT : Z := 16.
Definition EV_CLEAR : Z := 32.
Definition EV_ERROR : Z := 16384.

(** [Udata] is the slot whose address the code stores; [None] is nil. *)
Record Kevent_t : Type := mkKevent {
  Ident : Z; Filter : Z; Flags : Z; Fflags : Z; Data : Z; Udata : option nat
}.

(** What is registered for an identifier and a filter: the flags and the user data. *)
Abbreviation notes := (gmap (Z * Z) (Z * option nat)).

Definition ev_key (ev : Kevent_t) : Z * Z := (Ident ev, Filter ev).

(** [EV_DELETE] removes, [EV_ADD] adds or replaces.  Deleting what is not there is an error,
    which leaves the rest alone. *)
Definition apply_change (m : notes) (c : Kevent_t) : notes :=
  if has_flag (Flags c) EV_DELETE then delete (ev_key c) m
  else if has_flag (Flags c) EV_ADD then <[ev_key c := (Flags c, Udata c)]> m
  else m.

Definition apply_changes (m : notes) (cs : list Kevent_t) : notes := foldl apply_change m cs.

(** An event in [evs] says that [key] is ready. *)
Definition reported (evs : list Kevent_t) (key : Z * Z) : bool :=
  existsb (fun ev => bool_decide (ev_key ev = key) && negb (has_flag (Flags ev) EV_ERROR)) evs.

(** What is left registered when [evs] are reported: one-shot events are not. *)
Definition after_report (m : notes) (evs : list Kevent_t) : notes :=
  filter (fun '(key, (fl, _)) => reported evs key && has_flag fl EV_ONESHOT = false) m.

(** [kevent k changes n timeout] applies the changes and reports at most [n] events: errors
    of the changes, and what is registered and ready.  It may be interrupted after the
    changes were applied.  An [EVFILT_USER] event is ready when it is triggered, which no
    change of this code asks for.  Some numbers differ between systems. *)
Class Kqueue (K : Type) := {
  EVFILT_USER : Z;
  NOTE_NSECONDS : Z;
  pipe_size : Z;
  knotes : K -> notes;
  kevent : K -> list Kevent_t -> Z -> option Z -> K * (list Kevent_t + error);
  pipe_size_pos : 0 < pipe_size;
  kevent_count : forall k cs n t k' evs, 0 <= n -> kevent k cs n t = (k', inl evs) -> zlen evs <= n;
  kevent_notes : forall k cs n t k' evs, kevent k cs n t = (k', inl evs) ->
    knotes k' = after_report (apply_changes (knotes k) cs) evs;
  kevent_source : forall k cs n t k' evs, kevent k cs n t = (k', inl evs) ->
    Forall (fun ev => (has_flag (Flags ev) EV_ERROR = true /\
                       exists c, c ∈ cs /\ ev_key c = ev_key ev /\ Udata c = Udata ev) \/
                      exists fl, apply_changes (knotes k) cs !! ev_key ev = Some (fl, Udata ev)) evs;
  kevent_user : forall k cs n t k' evs, kevent k cs n t = (k', inl evs) -> Forall (fun ev => Filter ev <> EVFILT_USER) evs;
  kevent_interrupted : forall k cs n t k', kevent k cs n t = (k', inr EINTR) ->
    knotes k' = apply_changes (knotes k) cs
}.

(** No call fails for another reason. *)
Class WillingKqueue (K : Type) `{Kqueue K} : Prop :=
  kevent_willing : forall k cs n t k' e, kevent k cs n t = (k', inr e) -> e = EINTR.

(** * src/internal/poll_bsd.go *)

Definition kq_PollerReadEvent : Z := - EVFILT_READ.
Definition kq_PollerWriteEvent : Z := - EVFILT_WRITE.

Definition kq_flag (et : EventType) : Z :=
  match et with ReadEvent => kq_PollerReadEvent | WriteEvent => kq_PollerWriteEvent end.

(** The masks of the two events must not overlap. *)
Definition kq_init : res unit :=
  let both := Z.lor kq_PollerReadEvent kq_PollerWriteEvent in
  if decide (both = kq_PollerReadEvent \/ both = kq_PollerWriteEvent) then Panic else Ret tt.

(** [kq_waker] is the slot of the read end of the pipe, [piped] the bytes in the pipe. *)
Record kpoller (K H : Type) : Type := mkKpoller {
  kq_kernel : K;
  changes : list Kevent_t;
  kq_slots : list (Slot H);
  kq_waker : nat;
  piped : Z;
  kq_posts : list H;
  kq_lck : bool;
  kq_pending : Z;
  kq_closed : bool
}.
Arguments mkKpoller {K H}.
Arguments kq_kernel {K H}.
Arguments changes {K H}.
Arguments kq_slots {K H}.
Arguments kq_waker {K H}.
Arguments piped {K H}.
Arguments kq_posts {K H}.
Arguments kq_lck {K H}.
Arguments kq_pending {K H}.
Arguments kq_closed {K H}.

Section poller_ops.
Context {K H : Type} `{Kqueue K}.
Implicit Types (p : kpoller K H).

Definition kq_set_slot p (i : nat) (s : Slot H) : kpoller K H :=
  mkKpoller (kq_kernel p) (changes p) (<[i := s]> (kq_slots p)) (kq_waker p) (piped p) (kq_posts p) (kq_lck p)
    (kq_pending p) (kq_closed p).
Definition kq_add_pending p (d : Z) : kpoller K H :=
  mkKpoller (kq_kernel p) (changes p) (kq_slots p) (kq_waker p) (piped p) (kq_posts p) (kq_lck p) (kq_pending p + d)
    (kq_closed p).
Definition set_piped p (n : Z) : kpoller K H :=
  mkKpoller (kq_kernel p) (changes p) (kq_slots p) (kq_waker p) n (kq_posts p) (kq_lck p) (kq_pending p) (kq_closed p).
Definition set_posts p (hs : list H) (lck : bool) : kpoller K H :=
  mkKpoller (kq_kernel p) (changes p) (kq_slots p) (kq_waker p) (piped p) hs lck (kq_pending p) (kq_closed p).
Definition set_kq p (k : K) (cs : list Kevent_t) : kpoller K H :=
  mkKpoller k cs (kq_slots p) (kq_waker p) (piped p) (kq_posts p) (kq_lck p) (kq_pending p) (kq_closed p).

Definition createEvent (flags filter : Z) (slot : option nat) (dur : Z) : Kevent_t :=
  let timed := bool_decide (dur <> 0) && has_flag filter EVFILT_TIMER in
  mkKevent 0 filter flags (if timed then NOTE_NSECONDS else 0) (if timed then dur else 0) slot.

Definition kq_set p (fd : Z) (ev : Kevent_t) : kpoller K H * option error :=
  let ev := mkKevent fd (Filter ev) (Flags ev) (Fflags ev) (Data ev) (Udata ev) in
  (set_kq p (kq_kernel p) (changes p ++ [ev]), None).

(** The bodies of [setRead] and [SetWrite], and of [DelRead] and [DelWrite]. *)
Definition kq_setRW p (i : nat) (fd flags : Z) (et : EventType) : res (kpoller K H * option error) :=
  match kq_slots p !! i with
  | None => Panic
  | Some s =>
      if has_flag (Events s) (kq_flag et) then Ret (p, None)
      else
        let p := kq_add_pending p 1 in
        let p := kq_set_slot p i (set_events s (Z.lor (Events s) (kq_flag et))) in
        Ret (kq_set p fd (createEvent flags (- kq_flag et) (Some i) 0))
  end.

Definition kq_slot_fd p (i : nat) : res Z :=
  match kq_slots p !! i with Some s => Ret (Fd s) | None => Panic end.

Definition setRead p (fd flags : Z) (i : nat) : res (kpoller K H * option error) := kq_setRW p i fd flags ReadEvent.

Definition kq_SetRead p (i : nat) : res (kpoller K H * option error) :=
  fd ← kq_slot_fd p i; setRead p fd (Z.lor EV_ADD EV_ONESHOT) i.

Definition kq_SetWrite p (i : nat) : res (kpoller K H * option error) :=
  fd ← kq_slot_fd p i; kq_setRW p i fd (Z.lor EV_ADD EV_ONESHOT) WriteEvent.

Definition kq_delRW p (i : nat) (et : EventType) : res (kpoller K H * option error) :=
  match kq_slots p !! i with
  | None => Panic
  | Some s =>
      if has_flag (Events s) (kq_flag et) then
        let p := kq_add_pending p (-1) in
        let p := kq_set_slot p i (set_events s (Z.lxor (Events s) (kq_flag et))) in
        Ret (kq_set p (Fd s) (createEvent EV_DELETE (- kq_flag et) (Some i) 0))
      else Ret (p, None)
  end.

Definition kq_DelRead p (i : nat) : res (kpoller K H * option error) := kq_delRW p i ReadEvent.
Definition kq_DelWrite p (i : nat) : res (kpoller K H * option error) := kq_delRW p i WriteEvent.

Definition kq_Del p (i : nat) : res (kpoller K H * option error) :=
  '(p, err) ← kq_DelRead p i;
  match err with
  | None => kq_DelWrite p i
  | Some _ => Ret (p, None)
  end.

(** ** src/internal/pipe.go *)

Definition kq_EAGAIN : error := ErrOther 35.

(** One byte, the pipe being open until the poller is closed. *)
Definition Pipe_Write p : kpoller K H * option error :=
  if kq_closed p then (p, Some EBADF)
  else if decide (pipe_size <= piped p) then (p, Some kq_EAGAIN)
  else (set_piped p (piped p + 1), None).

Definition Pipe_Read p : kpoller K H * option error :=
  if kq_closed p then (p, Some EBADF)
  else if decide (piped p <= 0) then (p, Some kq_EAGAIN)
  else (set_piped p (piped p - 1), None).

(** ** Posting *)

(** [None]: the goroutine that holds the lock waits for itself and never goes on. *)
Definition kq_Post p (h : H) : option (kpoller K H * option error) :=
  if kq_lck p then None
  else Some (Pipe_Write (kq_add_pending (set_posts p (kq_posts p ++ [h]) false) 1)).

Definition kq_Posted p : option Z := if kq_lck p then None else Some (zlen (kq_posts p)).
Definition kq_Pending p : Z := kq_pending p.

(** From now on every call on the pipe and on the kqueue fails, see [Pipe_Write], [Pipe_Read]
    and [kq_Poll]; the changes are queued as before. *)
Definition kq_Close p : kpoller K H * option error :=
  if kq_closed p then (p, Some EOF)
  else (mkKpoller (kq_kernel p) (changes p) (kq_slots p) (kq_waker p) (piped p) (kq_posts p) (kq_lck p) (kq_pending p)
          true, None).

Definition kq_Closed p : bool := kq_closed p.

(** [NewPoller], with the pipe and the kqueue it was given. *)
Definition kq_NewPoller (k : K) (kqueueFd wakerFd : Z) : res (kpoller K H + error) :=
  let '(k, r) := kevent k [mkKevent kqueueFd EVFILT_USER (Z.lor EV_ADD EV_CLEAR) 0 0 None] 0 None in
  match r with
  | inr e => Ret (inr e)
  | inl _ =>
      let p := mkKpoller k [] [mkSlot wakerFd 0 None None] 0%nat 0 [] false 0 false in
      '(p, err) ← setRead p wakerFd EV_ADD 0%nat;
      match err with
      | Some e => Ret (inr e)
      | None => Ret (inl (kq_add_pending p (-1)))
      end
  end.

Definition kq_set_handler p (i : nat) (et : EventType) (h : H) : res (kpoller K H) :=
  match kq_slots p !! i with
  | None => Panic
  | Some s => Ret (kq_set_slot p i (Slot_Set s et h))
  end.

(** ** src/internal/timer_bsd.go *)

(** The timer whose slot is [i]: its descriptor is a number of its own, in [Fd]. *)
Definition kq_Unset p (i : nat) : res (kpoller K H * option error) :=
  match kq_slots p !! i with
  | None => Panic
  | Some s =>
      if has_flag (Events s) kq_PollerReadEvent then
        let p := kq_set_slot p i (set_events s (Z.lxor (Events s) kq_PollerReadEvent)) in
        let p := kq_add_pending p (-1) in
        Ret (kq_set p (Fd s) (createEvent (Z.lor EV_DELETE EV_DISABLE) EVFILT_TIMER (Some i) 0))
      else Ret (p, None)
  end.

Definition kq_Set p (i : nat) (dur : Z) (cb : H) : res (kpoller K H * option error) :=
  '(p, err) ← kq_Unset p i;
  match err with
  | Some e => Ret (p, Some e)
  | None =>
      p ← kq_set_handler p i ReadEvent cb;
      fd ← kq_slot_fd p i;
      let '(p, err) := kq_set p fd (createEvent (Z.lor (Z.lor EV_ADD EV_ENABLE) EV_ONESHOT) EVFILT_TIMER (Some i) dur) in
      match err with
      | Some e => Ret (p, Some e)
      | None =>
          match kq_slots p !! i with
          | None => Panic
          | Some s => Ret (kq_add_pending (kq_set_slot p i (set_events s (Z.lor (Events s) kq_PollerReadEvent))) 1, None)
          end
      end
  end.

Definition kq_Timer_Close p (i : nat) : res (kpoller K H * option error) := kq_Unset p i.
End poller_ops.

(** ** Dispatching *)

Class HasKpoller (W K H : Type) := {
  the_kpoller : W -> kpoller K H;
  with_kpoller : W -> kpoller K H -> W;
  the_with_kq : forall w p, the_kpoller (with_kpoller w p) = p
}.

Section dispatching.
Context {W K H : Type} `{Kqueue K} `{!HasKpoller W K H}.
(** [exec h err w] calls the handler. *)
Context (exec : H -> option error -> W -> res W).
Implicit Types (w : W).

Abbreviation on_kpoller w f := (with_kpoller w (f (the_kpoller w))).

(** The reads of the pipe until one fails. *)
Fixpoint kq_drain (fuel : nat) (p : kpoller K H) : res (kpoller K H) :=
  match fuel with
  | O => NoFuel
  | S fuel => let '(p, err) := Pipe_Read p in match err with Some _ => Ret p | None => kq_drain fuel p end
  end.

Fixpoint executePost_loop w (hs : list H) : res W :=
  match hs with
  | [] => Ret w
  | h :: hs => w ← exec h None w; executePost_loop (on_kpoller w (fun p => kq_add_pending p (-1))) hs
  end.

Definition executePost w : res W :=
  p ← kq_drain (S (Z.to_nat (piped (the_kpoller w)))) (the_kpoller w);
  let w := with_kpoller w (set_posts p (kq_posts p) true) in
  w ← executePost_loop w (kq_posts (the_kpoller w));
  Ret (on_kpoller w (fun p => set_posts p [] false)).

(** [if events&slot.Events&flag == flag { p.pending--; slot.Events ^= flag; slot.Handlers[..](nil) }]. *)
Definition kq_fire w (i : nat) (events : Z) (et : EventType) : res W :=
  match kq_slots (the_kpoller w) !! i with
  | None => Panic
  | Some s =>
      if has_flag (Z.land events (Events s)) (kq_flag et) then
        let p := kq_add_pending (the_kpoller w) (-1) in
        let p := kq_set_slot p i (set_events s (Z.lxor (Events s) (kq_flag et))) in
        match handler_of s et with
        | Some h => exec h None (with_kpoller w p)
        | None => Panic
        end
      else Ret w
  end.

Fixpoint kq_Poll_loop w (evs : list Kevent_t) : res W :=
  match evs with
  | [] => Ret w
  | ev :: evs =>
      match Udata ev with
      | None => Panic
      | Some i =>
          match kq_slots (the_kpoller w) !! i, kq_slots (the_kpoller w) !! kq_waker (the_kpoller w) with
          | Some s, Some wk =>
              let events := - Filter ev in
              w ← (if decide (Fd s = Fd wk) then executePost w
                   else w ← kq_fire w i events ReadEvent; kq_fire w i events WriteEvent);
              kq_Poll_loop w evs
          | _, _ => Panic
          end
      end
  end.

Definition kq_Poll w (timeoutMs : Z) : res (W * (Z * option error)) :=
  let timeout := if decide (0 <= timeoutMs) then Some (timeoutMs * 1000000) else None in
  let p := the_kpoller w in
  if kq_closed p then Ret (with_kpoller w (set_kq p (kq_kernel p) []), (-1, Some EBADF)) else
  let '(k, r) := kevent (kq_kernel p) (changes p) 128 timeout in
  let w := with_kpoller w (set_kq p k []) in
  match r with
  | inr e => Ret (w, (-1, Some e))
  | inl evs =>
      if decide (evs = [] /\ 0 <= timeoutMs) then Ret (w, (0, Some ErrTimeout))
      else w ← kq_Poll_loop w evs; Ret (w, (zlen evs, None))
  end.
End dispatching.
