(* ===== verification/PollerRuns.v ===== *)
(** Using a poller: the calls on the pollers of [Poller.v] and [Kqueue.v], handlers that make
    such calls, and runs of calls and polls with what is seen of them. *)

From stdpp Require Import gmap.
From S2P Require Import Prelude Poller Kqueue.

(** The calls of the [Poller] interface that change it, and the handlers of the slots. *)
Inductive poller_op (H : Type) : Type :=
| OpSet (i : nat) (et : EventType)
| OpDel (i : nat) (et : EventType)
| OpDelBoth (i : nat)
| OpHandler (i : nat) (et : EventType) (h : H)
| OpPost (h : H)
| OpClose.
Arguments OpSet {H}.
Arguments OpDel {H}.
Arguments OpDelBoth {H}.
Arguments OpHandler {H}.
Arguments OpPost {H}.
Arguments OpClose {H}.

(** What the user sees: the handlers that are called, and the errors of the calls and polls,
    those of [Post] apart. *)
Inductive seen (H : Type) : Type :=
| Called (h : H) (err : option error)
| Result (err : option error)
| PostResult (err : option error).
Arguments Called {H}.
Arguments Result {H}.
Arguments PostResult {H}.

(** A poller with what was seen so far. *)
Record traced (P H : Type) : Type := mkTraced { tr_poller : P; trace : list (seen H) }.
Arguments mkTraced {P H}.
Arguments tr_poller {P H}.
Arguments trace {P H}.

Definition see {P H} (w : traced P H) (x : seen H) : traced P H := mkTraced (tr_poller w) (trace w ++ [x]).

(** A step of the goroutine that owns the poller. *)
Inductive step (Op : Type) : Type := Calls (ops : list Op) | Polls (timeoutMs : Z).
Arguments Calls {Op}.
Arguments Polls {Op}.

#[export] Instance traced_poller {K H} : HasPoller (traced (poller K H) H) K H.
Proof. refine {| the_poller := tr_poller; with_poller w p := mkTraced p (trace w) |}; done. Defined.

#[export] Instance traced_kpoller {K H} : HasKpoller (traced (kpoller K H) H) K H.
Proof. refine {| the_kpoller := tr_poller; with_kpoller w p := mkTraced p (trace w) |}; done. Defined.

(** A poller and its calls. *)
Section runner.
Context {P H Op : Type} (call : P -> Op -> res (P * option (seen H))).
(** What a handler does when it is called. *)
Context (body : H -> list Op).

Definition run_op (op : Op) (w : traced P H) : res (traced P H) :=
  '(p, r) ← call (tr_poller w) op;
  let w := mkTraced p (trace w) in
  Ret (match r with Some x => see w x | None => w end).

Fixpoint run_ops (ops : list Op) (w : traced P H) : res (traced P H) :=
  match ops with
  | [] => Ret w
  | op :: ops => w ← run_op op w; run_ops ops w
  end.

Definition run_handler (h : H) (err : option error) (w : traced P H) : res (traced P H) :=
  run_ops (body h) (see w (Called h err)).

Definition run_step (poll : traced P H -> Z -> res (traced P H * (Z * option error))) (s : step Op) (w : traced P H) :
    res (traced P H) :=
  match s with
  | Calls ops => run_ops ops w
  | Polls t => '(w, (_, err)) ← poll w t; Ret (see w (Result err))
  end.

Fixpoint run_steps (poll : traced P H -> Z -> res (traced P H * (Z * option error))) (steps : list (step Op))
    (w : traced P H) : res (traced P H) :=
  match steps with
  | [] => Ret w
  | s :: steps => w ← run_step poll s w; run_steps poll steps w
  end.
End runner.

Definition reporting {A H} (r : res (A * option error)) : res (A * option (seen H)) :=
  '(p, err) ← r; Ret (p, Some (Result err)).

Section linux.
Context {K H : Type} `{Epoll K}.

Definition epoll_call (p : poller K H) (op : poller_op H) : res (poller K H * option (seen H)) :=
  match op with
  | OpSet i ReadEvent => reporting (SetRead p i)
  | OpSet i WriteEvent => reporting (SetWrite p i)
  | OpDel i ReadEvent => reporting (DelRead p i)
  | OpDel i WriteEvent => reporting (DelWrite p i)
  | OpDelBoth i => reporting (Del p i)
  | OpHandler i et h => p ← set_handler p i et h; Ret (p, None)
  | OpPost h => match Post p h with Some (p, err) => Ret (p, Some (PostResult err)) | None => NoFuel end
  | OpClose => let '(p, err) := Close p in Ret (p, Some (Result err))
  end.
End linux.

Section bsd.
Context {K H : Type} `{Kqueue K}.

Definition kqueue_call (p : kpoller K H) (op : poller_op H) : res (kpoller K H * option (seen H)) :=
  match op with
  | OpSet i ReadEvent => reporting (kq_SetRead p i)
  | OpSet i WriteEvent => reporting (kq_SetWrite p i)
  | OpDel i ReadEvent => reporting (kq_DelRead p i)
  | OpDel i WriteEvent => reporting (kq_DelWrite p i)
  | OpDelBoth i => reporting (kq_Del p i)
  | OpHandler i et h => p ← kq_set_handler p i et h; Ret (p, None)
  | OpPost h => match kq_Post p h with Some (p, err) => Ret (p, Some (PostResult err)) | None => NoFuel end
  | OpClose => let '(p, err) := kq_Close p in Ret (p, Some (Result err))
  end.

(** The timers of this system use the poller itself. *)
Inductive kq_op : Type :=
| Plain (op : poller_op H)
| TimerSet (i : nat) (dur : Z) (cb : H)
| TimerUnset (i : nat)
| TimerClose (i : nat).

Definition kq_call (p : kpoller K H) (op : kq_op) : res (kpoller K H * option (seen H)) :=
  match op with
  | Plain op => kqueue_call p op
  | TimerSet i dur cb => reporting (kq_Set p i dur cb)
  | TimerUnset i => reporting (kq_Unset p i)
  | TimerClose i => reporting (kq_Timer_Close p i)
  end.
End bsd.
Arguments kq_op : clear implicits.
