(* ===== verification/KqueueSpec.v ===== *)
(** What the kqueue poller of [Kqueue.v] promises: its changes reach the kernel late, but an
    armed event is always registered, queued for registration or about to be delivered, and
    the pending counter counts the armed events and the posted handlers, whatever is called
    and whatever the handlers call. *)

From stdpp Require Import gmap.
From S2P Require Import Prelude Poller PollerSpec Kqueue PollerRuns.

(** * Masks and changes *)

Definition kq_mask (e : Z) : Prop := e = 0 \/ e = 1 \/ e = 2 \/ e = 3.

Definition kq_armed (e : Z) : Z :=
  (if has_flag e kq_PollerReadEvent then 1 else 0) + (if has_flag e kq_PollerWriteEvent then 1 else 0).

Definition kq_armed_sum {H} (l : list (Slot H)) : Z := foldr (fun s a => kq_armed (Events s) + a) 0 l.

(** The filters under which an event of a slot may be registered: timers fire as reads. *)
Definition watches (et : EventType) (filt : Z) : bool :=
  match et with
  | ReadEvent => bool_decide (filt = EVFILT_READ \/ filt = EVFILT_TIMER)
  | WriteEvent => bool_decide (filt = EVFILT_WRITE)
  end.

Lemma watches_inj et et' filt : watches et filt = true -> watches et' filt = true -> et = et'.
Proof. destruct et, et'; cbn; intros ?%bool_decide_eq_true ?%bool_decide_eq_true; unfold EVFILT_READ, EVFILT_WRITE, EVFILT_TIMER in *; try done; lia. Qed.

Lemma watches_own et : watches et (- kq_flag et) = true.
Proof. by destruct et. Qed.

(** What the kernel reports for a filter has the flag of the event. *)
Lemma watches_flag et filt : watches et filt = true -> has_flag (- filt) (kq_flag et) = true.
Proof. destruct et; cbn; intros H%bool_decide_eq_true; [destruct H as [-> | ->] | rewrite H]; done. Qed.

Ltac kq_masks := repeat match goal with
  | H : kq_mask ?e |- _ => destruct H as [-> | [-> | [-> | ->]]]
  | et : EventType |- _ => destruct et
  end.

Lemma kq_mask_set e et : kq_mask e -> has_flag e (kq_flag et) = false ->
  kq_mask (Z.lor e (kq_flag et)) /\ kq_armed (Z.lor e (kq_flag et)) = kq_armed e + 1 /\
  forall et', has_flag (Z.lor e (kq_flag et)) (kq_flag et') = true -> has_flag e (kq_flag et') = true \/ et' = et.
Proof. intros Hm Hf; kq_masks; vm_compute in Hf; try done; (split_and!; [vm_compute; tauto | done |]); intros [] Hx; vm_compute in Hx; try done; vm_compute; tauto. Qed.

Lemma kq_mask_del e et : kq_mask e -> has_flag e (kq_flag et) = true ->
  kq_mask (Z.lxor e (kq_flag et)) /\ kq_armed (Z.lxor e (kq_flag et)) = kq_armed e - 1 /\
  forall et', has_flag (Z.lxor e (kq_flag et)) (kq_flag et') = true -> has_flag e (kq_flag et') = true /\ et' <> et.
Proof. intros Hm Hf; kq_masks; vm_compute in Hf; try done; (split_and!; [vm_compute; tauto | done |]); intros [] Hx; vm_compute in Hx; try done; vm_compute; split; done. Qed.

Lemma kq_armed_sum_insert {H} (l : list (Slot H)) i s s' : l !! i = Some s ->
  kq_armed_sum (<[i := s']> l) = kq_armed_sum l - kq_armed (Events s) + kq_armed (Events s').
Proof.
  revert i; induction l as [| x l IH]; intros [| i] Hi; simplify_eq/=; unfold kq_armed_sum in *; cbn [foldr]; [lia |].
  rewrite (IH i Hi); lia.
Qed.

Lemma apply_change_other m c key : key <> ev_key c -> apply_change m c !! key = m !! key.
Proof. intros Hk; unfold apply_change; repeat case_match; [by rewrite lookup_delete_ne | by rewrite lookup_insert_ne | done]. Qed.

Lemma apply_changes_other cs key : forall m, Forall (fun c => key <> ev_key c) cs -> apply_changes m cs !! key = m !! key.
Proof.
  induction cs as [| c cs IH]; intros m Hc; [done |]; apply list.Forall_cons in Hc as [Hx Hc].
  unfold apply_changes in *; cbn [foldl]; rewrite IH by done; by apply apply_change_other.
Qed.

Lemma apply_change_add m c : has_flag (Flags c) EV_DELETE = false -> has_flag (Flags c) EV_ADD = true ->
  apply_change m c !! ev_key c = Some (Flags c, Udata c).
Proof. intros Hd Ha; unfold apply_change; rewrite Hd, Ha; by simplify_map_eq. Qed.

Lemma apply_changes_source cs : forall m key fl u, apply_changes m cs !! key = Some (fl, u) ->
  m !! key = Some (fl, u) \/ exists c, c ∈ cs /\ Udata c = u.
Proof.
  induction cs as [| c cs IH]; intros m key fl u E; [by left |].
  destruct (IH (apply_change m c) key fl u E) as [E' | (c' & Hc & Hu)].
  - unfold apply_change in E'; destruct (has_flag _ EV_DELETE).
    { apply lookup_delete_Some in E' as [_ E']; by left. }
    destruct (has_flag _ EV_ADD); [| by left].
    apply lookup_insert_Some in E' as [[_ [= _ <-]] | [_ E']]; [right; exists c; split; [left | done] | by left].
  - right; exists c'; split; [by right | done].
Qed.

(** * The invariant *)

Section invariant.
Context {K H : Type} `{Kqueue K}.
Context (body : H -> list (kq_op H)).
Implicit Types (p : kpoller K H) (s : Slot H) (cov : nat -> EventType -> Prop).

(** What is registered once the queued changes are applied. *)
Definition queued p : notes := apply_changes (knotes (kq_kernel p)) (changes p).

(** Event [et] of slot [i] is, or will be, registered. *)
Definition registered p (i : nat) s (et : EventType) : Prop :=
  exists filt fl, watches et filt = true /\ queued p !! (Fd s, filt) = Some (fl, Some i).

(** A posted handler runs with the lock held. *)
Definition quiet (op : kq_op H) : Prop := match op with Plain (OpPost _) => False | _ => True end.

Definition points_at (n : nat) (u : option nat) : Prop := exists i, u = Some i /\ (i < n)%nat.

(** [cov i et]: an event reported by the kernel is about to be delivered. *)
Record kq_ok cov p : Prop := {
  kok_fds : NoDup (Fd <$> kq_slots p);
  kok_masks : Forall (fun s => kq_mask (Events s)) (kq_slots p);
  kok_waker : exists wk, kq_slots p !! kq_waker p = Some wk /\ Events wk = kq_PollerReadEvent /\
    queued p !! (Fd wk, EVFILT_READ) = Some (EV_ADD, Some (kq_waker p));
  kok_handlers : forall i s et, kq_slots p !! i = Some s -> i <> kq_waker p -> is_Some (handler_of s et);
  kok_armed : forall i s et, kq_slots p !! i = Some s -> i <> kq_waker p -> has_flag (Events s) (kq_flag et) = true ->
    cov i et \/ registered p i s et;
  kok_changes : Forall (fun c => points_at (length (kq_slots p)) (Udata c)) (changes p);
  kok_notes : forall key fl u, knotes (kq_kernel p) !! key = Some (fl, u) ->
    key.2 = EVFILT_USER \/ points_at (length (kq_slots p)) u;
  kok_posts : Forall (fun h => Forall quiet (body h)) (kq_posts p)
}.

Definition kq_balance p : Z := kq_pending p - kq_armed_sum (kq_slots p) - zlen (kq_posts p).

Record kq_keeps p p' : Prop := {
  kk_fds : Fd <$> kq_slots p' = Fd <$> kq_slots p;
  kk_waker : kq_waker p' = kq_waker p;
  kk_lck : kq_lck p' = kq_lck p;
  kk_closed : kq_closed p' = kq_closed p;
  kk_posts : kq_lck p = true -> kq_posts p' = kq_posts p
}.

Lemma kq_keeps_refl p : kq_keeps p p.
Proof. done. Qed.

Lemma kq_keeps_trans p q r : kq_keeps p q -> kq_keeps q r -> kq_keeps p r.
Proof. intros [a1 a2 a3 a4 a5] [b1 b2 b3 b4 b5]; split; try congruence; intros Hl; rewrite b5, a5; [done | done | congruence]. Qed.

Lemma kq_keeps_length p p' : kq_keeps p p' -> length (kq_slots p') = length (kq_slots p).
Proof. intros Hk; rewrite <-!(length_fmap Fd); by rewrite (kk_fds _ _ Hk). Qed.

Lemma kq_same_slot p i j s s' cov : kq_ok cov p -> kq_slots p !! i = Some s -> kq_slots p !! j = Some s' ->
  Fd s = Fd s' -> i = j.
Proof.
  intros Hp Hi Hj Hfd; apply (NoDup_lookup _ i j (Fd s) (kok_fds _ p Hp)); rewrite list_lookup_fmap; [by rewrite Hi | by rewrite Hj, Hfd].
Qed.

(** The slot, the changes and the counter move on, the rest stays. *)
Definition moved p (i : nat) s (cs : list Kevent_t) (d : Z) : kpoller K H :=
  mkKpoller (kq_kernel p) cs (<[i := s]> (kq_slots p)) (kq_waker p) (piped p) (kq_posts p) (kq_lck p) (kq_pending p + d)
    (kq_closed p).

Lemma moved_keeps p i s s' cs d : kq_slots p !! i = Some s -> Fd s' = Fd s -> kq_keeps p (moved p i s' cs d).
Proof. intros Hi Hfd; split; try done; by apply (fds_insert _ _ s). Qed.

Lemma moved_balance p i s s' cs d : kq_slots p !! i = Some s -> d = kq_armed (Events s') - kq_armed (Events s) ->
  kq_balance (moved p i s' cs d) = kq_balance p.
Proof.
  intros Hi ->; unfold kq_balance; cbn [kq_pending kq_slots kq_posts moved]; rewrite (kq_armed_sum_insert _ _ s) by done; lia.
Qed.

(** A change of slot [i], after which its armed events are still watched. *)
Lemma moved_ok cov cov' p i s s' c d : kq_ok cov p -> kq_slots p !! i = Some s -> i <> kq_waker p ->
  Fd s' = Fd s -> kq_mask (Events s') -> (forall et, is_Some (handler_of s' et)) ->
  Forall (fun c => Ident c = Fd s /\ Udata c = Some i) c ->
  (forall j et, j <> i -> cov j et -> cov' j et) ->
  (forall et, has_flag (Events s') (kq_flag et) = true -> cov' i et \/ registered (moved p i s' (changes p ++ c) d) i s' et) ->
  kq_ok cov' (moved p i s' (changes p ++ c) d).
Proof.
  intros Hp Hi Hw Hfd Hm Hh Hc Hcov Ha.
  assert (forall fd filt, fd <> Fd s -> queued (moved p i s' (changes p ++ c) d) !! (fd, filt) = queued p !! (fd, filt)) as Hq.
  { intros fd filt Hne; unfold queued; cbn; unfold apply_changes; rewrite foldl_app; apply apply_changes_other.
    eapply list.Forall_impl; [exact Hc |]; intros x [Hx _]; unfold ev_key; congruence. }
  destruct Hp as [Hnd Hms (wk & Hwk & Hwe & Hwq) Hhs Har Hch Hno Hpo]; split; cbn [moved kq_slots kq_waker changes kq_kernel kq_posts].
  - by rewrite (fds_insert _ _ s).
  - by apply Forall_insert.
  - exists wk; rewrite list_lookup_insert_ne by done; split_and!; [done | done |]; rewrite Hq; [done |].
    intros E; apply Hw; apply (NoDup_lookup _ i (kq_waker p) (Fd s) Hnd); rewrite list_lookup_fmap; [by rewrite Hi | by rewrite Hwk, <- E].
  - intros j x et [(-> & <- & _) | (Hne & Hj)]%list_lookup_insert_Some Hjw; [apply Hh | by eapply Hhs].
  - intros j x et [(-> & <- & _) | (Hne & Hj)]%list_lookup_insert_Some Hjw Hf; [by apply Ha |].
    destruct (Har j x et Hj Hjw Hf) as [Hl | (filt & fl & Hwf & Hr)]; [left; by apply Hcov |].
    right; exists filt, fl; split; [done |]; rewrite Hq; [done |]; intros E; apply Hne.
    apply (NoDup_lookup _ i j (Fd s) Hnd); rewrite list_lookup_fmap; [by rewrite Hi | by rewrite Hj, <- E].
  - rewrite length_insert; apply list.Forall_app; split; [done |]; eapply list.Forall_impl; [exact Hc |].
    intros x [_ Hx]; exists i; split; [done | by eapply lookup_lt_Some].
  - rewrite length_insert; exact Hno.
  - done.
Qed.

Lemma queued_snoc p i s c d : queued (moved p i s (changes p ++ [c]) d) = apply_change (queued p) c.
Proof. unfold queued, apply_changes; cbn [kq_kernel changes moved]; by rewrite foldl_app. Qed.

Definition adds (c : Kevent_t) : Prop := has_flag (Flags c) EV_DELETE = false /\ has_flag (Flags c) EV_ADD = true.

Lemma registered_add p i s c d et : Ident c = Fd s -> Udata c = Some i -> adds c -> watches et (Filter c) = true ->
  registered (moved p i s (changes p ++ [c]) d) i s et.
Proof.
  intros Hi Hu [Hd Ha] Hw; exists (Filter c), (Flags c); split; [done |]; rewrite queued_snoc.
  change (Fd s, Filter c) with (Fd s, (ev_key c).2); rewrite <- Hi, <- Hu; by apply apply_change_add.
Qed.

Lemma registered_kept p i s s' c d et : registered p i s et -> Fd s' = Fd s -> Ident c = Fd s -> Udata c = Some i ->
  adds c \/ watches et (Filter c) = false -> registered (moved p i s' (changes p ++ [c]) d) i s' et.
Proof.
  intros (filt & fl & Hw & Hr) Hfd Hi Hu Hc; destruct (decide (filt = Filter c)) as [-> | Hne].
  - destruct Hc as [Hc | Hc]; [| congruence]; apply registered_add; congruence.
  - exists filt, fl; split; [done |]; rewrite queued_snoc, Hfd, apply_change_other; [done |]; unfold ev_key; congruence.
Qed.

(** The invariant, the frame and the balance. *)
Definition fine cov p p' : Prop := kq_ok cov p' /\ kq_keeps p p' /\ kq_balance p' = kq_balance p.

Lemma fine_refl cov p : kq_ok cov p -> fine cov p p.
Proof. done. Qed.

Lemma fine_trans cov p q r : fine cov p q -> fine cov q r -> fine cov p r.
Proof. intros (_ & Hk & Hb) (Hq & Hk' & Hb'); split_and!; [done | by eapply kq_keeps_trans | congruence]. Qed.

Lemma fine_slot cov p p' i s : fine cov p p' -> kq_slots p !! i = Some s ->
  exists s', kq_slots p' !! i = Some s' /\ Fd s' = Fd s.
Proof.
  intros (_ & Hk & _) Hi; pose proof (f_equal (.!! i) (kk_fds _ _ Hk)) as E; rewrite !list_lookup_fmap, Hi in E.
  destruct (kq_slots p' !! i) as [s' |]; [| done]; injection E as E; by exists s'.
Qed.

(** Arming an event, by a change that adds it. *)
Lemma arm_fine cov p i s h c d e : kq_ok cov p -> kq_slots p !! i = Some s -> i <> kq_waker p ->
  Ident c = Fd s -> Udata c = Some i -> adds c -> kq_mask e -> d = kq_armed e - kq_armed (Events s) ->
  Fd h = Fd s -> Events h = Events s -> (forall et, is_Some (handler_of h et)) ->
  (forall et, has_flag e (kq_flag et) = true -> has_flag (Events s) (kq_flag et) = true \/ watches et (Filter c) = true) ->
  fine cov p (moved p i (set_events h e) (changes p ++ [c]) d).
Proof.
  intros Hp Hi Hw Hid Hu Hc He Hd Hfd Hev Hh Hf; split_and!.
  - apply (moved_ok cov cov p i s); try done; [by repeat constructor |].
    intros et He'; cbn in He'; destruct (Hf et He') as [Ho | Hn].
    + destruct (kok_armed _ _ Hp i s et Hi Hw Ho) as [| Hr]; [by left | right].
      eapply registered_kept; [exact Hr | done | done | done | by left].
    + right; apply registered_add; [cbn; congruence | done | done | done].
  - by eapply moved_keeps.
  - eapply moved_balance; [exact Hi | done].
Qed.

(** Disarming, by a change that removes only what is disarmed. *)
Lemma disarm_fine cov p i s c d e : kq_ok cov p -> kq_slots p !! i = Some s -> i <> kq_waker p ->
  Ident c = Fd s -> Udata c = Some i -> kq_mask e -> d = kq_armed e - kq_armed (Events s) ->
  (forall et, has_flag e (kq_flag et) = true -> has_flag (Events s) (kq_flag et) = true /\ watches et (Filter c) = false) ->
  fine cov p (moved p i (set_events s e) (changes p ++ [c]) d).
Proof.
  intros Hp Hi Hw Hid Hu He Hd Hf; split_and!.
  - apply (moved_ok cov cov p i s); try done; [| by repeat constructor |].
    { intros et; pose proof (kok_handlers _ _ Hp i s et Hi Hw); by destruct et. }
    intros et He'; destruct (Hf et He') as [Ho Hn].
    destruct (kok_armed _ _ Hp i s et Hi Hw Ho) as [| Hr]; [by left | right].
    eapply registered_kept; [exact Hr | done | done | done | by right].
  - by eapply moved_keeps.
  - eapply moved_balance; [exact Hi | done].
Qed.

Lemma kq_slot_mask cov p i s : kq_ok cov p -> kq_slots p !! i = Some s -> kq_mask (Events s).
Proof. intros Hp Hi; exact (Forall_lookup_1 _ _ _ _ (kok_masks _ p Hp) Hi). Qed.

Lemma kq_setRW_fine cov p i s et fl : kq_ok cov p -> kq_slots p !! i = Some s -> i <> kq_waker p ->
  has_flag fl EV_DELETE = false -> has_flag fl EV_ADD = true ->
  exists p', kq_setRW p i (Fd s) fl et = Ret (p', None) /\ fine cov p p'.
Proof.
  intros Hp Hi Hw Hfd Hfa; unfold kq_setRW; rewrite Hi; destruct (has_flag (Events s) (kq_flag et)) eqn:Ef.
  { exists p; by split. }
  destruct (kq_mask_set _ et (kq_slot_mask _ _ _ _ Hp Hi) Ef) as (Hm & Hd & Ho).
  eexists; split; [done |].
  apply (arm_fine cov p i s s (mkKevent (Fd s) (- kq_flag et) fl _ _ (Some i)) 1); try done; [lia | |].
  - intros et'; by apply (kok_handlers _ _ Hp i s et').
  - intros et' [| ->]%Ho; [by left | right; apply watches_own].
Qed.

Lemma kq_delRW_fine cov p i s et : kq_ok cov p -> kq_slots p !! i = Some s -> i <> kq_waker p ->
  exists p', kq_delRW p i et = Ret (p', None) /\ fine cov p p'.
Proof.
  intros Hp Hi Hw; unfold kq_delRW; rewrite Hi; destruct (has_flag (Events s) (kq_flag et)) eqn:Ef; [| by exists p].
  destruct (kq_mask_del _ et (kq_slot_mask _ _ _ _ Hp Hi) Ef) as (Hm & Hd & Ho).
  eexists; split; [done |].
  apply (disarm_fine cov p i s (mkKevent (Fd s) (- kq_flag et) EV_DELETE _ _ (Some i)) (-1)); try done; [lia |].
  intros et' [Hf Hne]%Ho; split; [done |]; cbn [Filter]; destruct (watches et' _) eqn:E; [| done].
  by destruct (watches_inj _ _ _ E (watches_own et)).
Qed.

Lemma kq_Del_fine cov p i s : kq_ok cov p -> kq_slots p !! i = Some s -> i <> kq_waker p ->
  exists p', kq_Del p i = Ret (p', None) /\ fine cov p p'.
Proof.
  intros Hp Hi Hw; unfold kq_Del, kq_DelRead; destruct (kq_delRW_fine cov p i s ReadEvent Hp Hi Hw) as (p1 & -> & Hf1); res_step.
  destruct (fine_slot _ _ _ _ _ Hf1 Hi) as (s1 & Hi1 & _); destruct Hf1 as (Hp1 & Hk1 & Hb1).
  destruct (kq_delRW_fine cov p1 i s1 WriteEvent Hp1 Hi1) as (p2 & E & Hf2); [by rewrite (kk_waker _ _ Hk1) |].
  exists p2; split; [done |]; by apply (fine_trans _ p p1 p2).
Qed.

(** No change is queued. *)
Lemma registered_still p i s s' d et : registered p i s et -> Fd s' = Fd s ->
  registered (moved p i s' (changes p ++ []) d) i s' et.
Proof. intros (filt & fl & Hw & Hr) Hfd; exists filt, fl; split; [done |]; unfold queued; cbn; by rewrite app_nil_r, Hfd. Qed.

Lemma set_handler_fine cov p i s et h : kq_ok cov p -> kq_slots p !! i = Some s -> i <> kq_waker p ->
  kq_set_handler p i et h = Ret (kq_set_slot p i (Slot_Set s et h)) /\ fine cov p (kq_set_slot p i (Slot_Set s et h)).
Proof.
  intros Hp Hi Hw; unfold kq_set_handler; rewrite Hi; split; [done |].
  assert (Fd (Slot_Set s et h) = Fd s /\ Events (Slot_Set s et h) = Events s) as [Hfd He] by (by destruct et).
  replace (kq_set_slot p i (Slot_Set s et h)) with (moved p i (Slot_Set s et h) (changes p ++ []) 0)
    by (unfold moved, kq_set_slot; by rewrite app_nil_r, Z.add_0_r).
  split_and!; [| by eapply moved_keeps | eapply moved_balance; [exact Hi |]; rewrite He; lia].
  apply (moved_ok cov cov p i s); try done.
  - rewrite He; by eapply kq_slot_mask.
  - intros et'; pose proof (kok_handlers _ _ Hp i s et' Hi Hw); destruct et, et'; cbn in *; try done; by eexists.
  - rewrite He; intros et' Hf; destruct (kok_armed _ _ Hp i s et' Hi Hw Hf) as [| Hr]; [by left | right].
    by eapply registered_still.
Qed.

Lemma kq_Unset_fine cov p i s : kq_ok cov p -> kq_slots p !! i = Some s -> i <> kq_waker p ->
  exists p' s', kq_Unset p i = Ret (p', None) /\ fine cov p p' /\ kq_slots p' !! i = Some s' /\
    has_flag (Events s') kq_PollerReadEvent = false.
Proof.
  intros Hp Hi Hw; unfold kq_Unset; rewrite Hi; destruct (has_flag (Events s) kq_PollerReadEvent) eqn:Ef; [| by exists p, s].
  destruct (kq_mask_del _ ReadEvent (kq_slot_mask _ _ _ _ Hp Hi) Ef) as (Hm & Hd & Ho).
  eexists _, (set_events s _); split_and!; [done | | |].
  - apply (disarm_fine cov p i s (mkKevent (Fd s) EVFILT_TIMER (Z.lor EV_DELETE EV_DISABLE) _ _ (Some i)) (-1)); try done; [cbn [kq_flag] in Hd; lia |].
    intros et' [Hf Hne]%Ho; split; [done |]; by destruct et'.
  - apply list_lookup_insert_eq; by eapply lookup_lt_Some.
  - cbn [Events set_events]; destruct (has_flag (Z.lxor _ _) _) eqn:E; [| done]; by destruct (Ho ReadEvent E).
Qed.

Lemma kq_Set_fine cov p i s dur cb : kq_ok cov p -> kq_slots p !! i = Some s -> i <> kq_waker p ->
  exists p', kq_Set p i dur cb = Ret (p', None) /\ fine cov p p'.
Proof.
  intros Hp Hi Hw; unfold kq_Set; destruct (kq_Unset_fine cov p i s Hp Hi Hw) as (p1 & s1 & -> & Hf1 & Hi1 & Hr1); res_step.
  pose proof Hf1 as (Hp1 & Hk1 & _); assert (i <> kq_waker p1) as Hw1 by (by rewrite (kk_waker _ _ Hk1)).
  destruct (set_handler_fine cov p1 i s1 ReadEvent cb Hp1 Hi1 Hw1) as [-> Hf2]; res_step.
  set (s2 := Slot_Set s1 ReadEvent cb) in *; set (p2 := kq_set_slot p1 i s2) in *.
  assert (kq_slots p2 !! i = Some s2) as Hi2 by (apply list_lookup_insert_eq; by eapply lookup_lt_Some).
  unfold kq_slot_fd; rewrite Hi2; res_step; unfold kq_set; cbn zeta; cbn [kq_slots set_kq]; rewrite Hi2; eexists; split; [done |].
  apply (fine_trans _ p p1); [done |]; apply (fine_trans _ p1 p2); [done |].
  destruct (kq_mask_set _ ReadEvent (kq_slot_mask _ _ _ _ Hp1 Hi1) Hr1) as (Hm & Hd & Ho).
  destruct Hf2 as (Hp2 & Hk2 & _).
  apply (arm_fine cov p2 i s2 s2 (mkKevent (Fd s2) EVFILT_TIMER (Z.lor (Z.lor EV_ADD EV_ENABLE) EV_ONESHOT) _ _ (Some i)) 1); try done.
  - cbn in Hd |- *; lia.
  - intros et'; by apply (kok_handlers _ _ Hp2 i s2 et').
  - intros et' [| ->]%Ho; [by left | by right].
Qed.

(** Only the queue of posts, the pipe and the counter change. *)
Lemma posts_fine cov p p' : kq_ok cov p -> kq_kernel p' = kq_kernel p -> changes p' = changes p -> kq_slots p' = kq_slots p ->
  kq_waker p' = kq_waker p -> Forall (fun h => Forall quiet (body h)) (kq_posts p') -> kq_ok cov p'.
Proof.
  intros [] Hk Hc Hs Hw Hq; split; unfold registered, queued in *; rewrite ?Hk, ?Hc, ?Hs, ?Hw; done.
Qed.

Lemma kq_Post_fine cov p h : kq_ok cov p -> kq_lck p = false -> Forall quiet (body h) ->
  exists p' e, kq_Post p h = Some (p', e) /\ fine cov p p'.
Proof.
  intros Hp Hl Hq; unfold kq_Post; rewrite Hl; destruct (Pipe_Write _) as [p' e] eqn:E; exists p', e; split; [done |].
  assert (p' = set_piped (kq_add_pending (set_posts p (kq_posts p ++ [h]) false) 1) (piped p')) as ->.
  { unfold Pipe_Write in E; repeat case_match; by simplify_eq. }
  split_and!.
  - apply (posts_fine cov p); try done; apply list.Forall_app; split; [apply Hp | by constructor].
  - split; try done; cbn; congruence.
  - unfold kq_balance; cbn [kq_pending kq_slots kq_posts set_piped kq_add_pending set_posts]; llia.
Qed.

(** * Calls and handlers *)

(** The slots exist and are not the waker's, posted handlers do not post, and the poller is
    not closed. *)
Definition usable (n wk : nat) (op : kq_op H) : Prop :=
  match op with
  | Plain (OpSet i _ | OpDel i _ | OpDelBoth i | OpHandler i _ _) | TimerSet i _ _ | TimerUnset i | TimerClose i =>
      (i < n)%nat /\ i <> wk
  | Plain (OpPost h) => Forall quiet (body h)
  | Plain OpClose => False
  end.

Lemma reporting_fine cov p (r : res (kpoller K H * option error)) :
  (exists p', r = Ret (p', None) /\ fine cov p p') -> exists p' o, reporting (H := H) r = Ret (p', o) /\ fine cov p p'.
Proof. intros (p' & -> & Hf); exists p', (Some (Result None)); by split. Qed.

Lemma kq_call_fine cov p op : kq_ok cov p -> usable (length (kq_slots p)) (kq_waker p) op -> (kq_lck p = true -> quiet op) ->
  exists p' r, kq_call p op = Ret (p', r) /\ fine cov p p'.
Proof.
  intros Hp Hu Hq.
  destruct op as [[i et | i et | i | i et h | h |] | i dur cb | i | i]; cbn [kq_call kqueue_call usable] in *;
    try (destruct Hu as [[s Hi]%lookup_lt_is_Some Hw]).
  - destruct et; apply reporting_fine; unfold kq_SetRead, kq_SetWrite, setRead, kq_slot_fd; rewrite Hi; res_step;
      by apply (kq_setRW_fine cov p i s).
  - destruct et; apply reporting_fine; by apply (kq_delRW_fine cov p i s).
  - apply reporting_fine; by apply (kq_Del_fine cov p i s).
  - destruct (set_handler_fine cov p i s et h Hp Hi Hw) as [-> Hf]; res_step; by eexists _, _.
  - destruct (kq_lck p) eqn:Hl; [by destruct (Hq eq_refl) |].
    destruct (kq_Post_fine cov p h Hp Hl Hu) as (p' & e & -> & Hf); by eexists p', _.
  - done.
  - apply reporting_fine; by apply (kq_Set_fine cov p i s).
  - apply reporting_fine; destruct (kq_Unset_fine cov p i s Hp Hi Hw) as (p' & s' & E & Hf & _); by exists p'.
  - apply reporting_fine; destruct (kq_Unset_fine cov p i s Hp Hi Hw) as (p' & s' & E & Hf & _); by exists p'.
Qed.

Abbreviation W := (traced (kpoller K H) H).
Implicit Types (w : W).

Definition wfine cov w w' : Prop := fine cov (tr_poller w) (tr_poller w').

Lemma kq_ops_fine cov ops : forall w, kq_ok cov (tr_poller w) ->
  Forall (usable (length (kq_slots (tr_poller w))) (kq_waker (tr_poller w))) ops ->
  (kq_lck (tr_poller w) = true -> Forall quiet ops) ->
  exists w', run_ops kq_call ops w = Ret w' /\ wfine cov w w'.
Proof.
  induction ops as [| op ops IH]; intros w Hp Hu Hq; [by exists w |]; apply list.Forall_cons in Hu as [Ho Hu]; cbn [run_ops].
  destruct (kq_call_fine cov (tr_poller w) op Hp Ho) as (p' & r & E & Hf).
  { intros Hl; by apply Hq, list.Forall_cons in Hl as [? _]. }
  unfold run_op; rewrite E; res_step.
  match goal with |- context [run_ops _ _ ?x] => set (w1 := x) end; assert (tr_poller w1 = p') as Hw1 by (by destruct r).
  pose proof Hf as (Hp' & Hk & _); destruct (IH w1) as (w2 & E2 & Hf2); rewrite ?Hw1.
  - done.
  - by rewrite (kq_keeps_length _ _ Hk), (kk_waker _ _ Hk).
  - rewrite (kk_lck _ _ Hk); intros Hl; by apply Hq, list.Forall_cons in Hl as [_ ?].
  - exists w2; split; [done |]; unfold wfine in *; rewrite Hw1 in Hf2; by eapply fine_trans.
Qed.

Context (n wk : nat).
Hypothesis bodies : forall h, Forall (usable n wk) (body h).

(** The poller of the run, with its [n] slots. *)
Definition placed w : Prop :=
  length (kq_slots (tr_poller w)) = n /\ kq_waker (tr_poller w) = wk /\ kq_closed (tr_poller w) = false.

Lemma placed_kept cov w w' : placed w -> wfine cov w w' -> placed w'.
Proof.
  intros (Hn & Hw & Hc) (_ & Hk & _); unfold placed.
  by rewrite (kq_keeps_length _ _ Hk), (kk_waker _ _ Hk), (kk_closed _ _ Hk).
Qed.

Abbreviation exec := (run_handler kq_call body).

Lemma handler_fine cov w h err : kq_ok cov (tr_poller w) -> placed w -> (kq_lck (tr_poller w) = true -> Forall quiet (body h)) ->
  exists w', exec h err w = Ret w' /\ wfine cov w w'.
Proof.
  intros Hp (Hn & Hw & _) Hq; destruct (kq_ops_fine cov (body h) (see w (Called h err))) as (w' & E & Hf); [done | | done |].
  - cbn [tr_poller see]; rewrite Hn, Hw; apply bodies.
  - by exists w'.
Qed.

(** * Polling *)

Lemma kq_drain_ok fuel : forall (q : kpoller K H), (Z.to_nat (piped q) < fuel)%nat ->
  exists n, kq_drain fuel q = Ret (set_piped q n) /\ n <= piped q.
Proof.
  induction fuel as [| fuel IH]; intros q Hf; [lia |]; cbn [kq_drain]; unfold Pipe_Read.
  assert (q = set_piped q (piped q)) as Hq by (by destruct q).
  destruct (kq_closed q); [exists (piped q); split; [by rewrite <- Hq | done] |].
  case_decide; [exists (piped q); split; [by rewrite <- Hq | done] |].
  destruct (IH (set_piped q (piped q - 1))) as (m & E & Hm); [cbn; lia |]; exists m; cbn in Hm; split; [exact E | lia].
Qed.

Lemma kq_fire_flag ev e et : has_flag (Z.land ev e) (kq_flag et) = has_flag ev (kq_flag et) && has_flag e (kq_flag et).
Proof.
  assert (exists b, 0 <= b /\ kq_flag et = 2 ^ b) as (b & Hb & ->) by (destruct et; [exists 0 | exists 1]; done).
  rewrite !has_flag_bit by done; apply Z.land_spec.
Qed.

Lemma kq_ok_cover cov cov' p :
  (forall i s et, kq_slots p !! i = Some s -> has_flag (Events s) (kq_flag et) = true -> cov i et -> cov' i et) ->
  kq_ok cov p -> kq_ok cov' p.
Proof.
  intros Hc []; split; try done; intros i s et Hi Hw Hf; destruct (kok_armed0 i s et Hi Hw Hf); [left; by eapply Hc | by right].
Qed.

(** Delivering an event: what was about to be delivered is disarmed before its handler runs. *)
Lemma kq_fire_fine cov cov' w i s ev et : kq_ok cov (tr_poller w) -> placed w -> kq_lck (tr_poller w) = false ->
  kq_slots (tr_poller w) !! i = Some s -> i <> wk ->
  (forall j e, cov j e -> cov' j e \/ (j = i /\ e = et /\ has_flag ev (kq_flag et) = true)) ->
  exists w', kq_fire exec w i ev et = Ret w' /\ wfine cov' w w'.
Proof.
  intros Hp Hpl Hl Hi Hw Hc; pose proof Hpl as (Hn & Hwk & _); unfold kq_fire; cbn [the_kpoller traced_kpoller]; rewrite Hi.
  rewrite kq_fire_flag; destruct (has_flag ev (kq_flag et) && _) eqn:Ef.
  - apply andb_prop in Ef as [Hev Ef]; assert (i <> kq_waker (tr_poller w)) as Hiw by congruence.
    destruct (kok_handlers _ _ Hp i s et Hi Hiw) as [h ->]; cbn zeta.
    destruct (kq_mask_del _ et (kq_slot_mask _ _ _ _ Hp Hi) Ef) as (Hm & Hd & Ho).
    set (s' := set_events s _); replace (kq_set_slot (kq_add_pending (tr_poller w) (-1)) i s')
      with (moved (tr_poller w) i s' (changes (tr_poller w) ++ []) (-1)) by (unfold moved; by rewrite app_nil_r).
    assert (fine cov' (tr_poller w) (moved (tr_poller w) i s' (changes (tr_poller w) ++ []) (-1))) as Hf1.
    { split_and!; [| by eapply moved_keeps | eapply moved_balance; [exact Hi |]; cbn; lia].
      apply (moved_ok cov cov' (tr_poller w) i s); try done.
      - intros e; pose proof (kok_handlers _ _ Hp i s e Hi Hiw); by destruct e.
      - intros j e Hne [| (-> & _)]%Hc; [done | by destruct Hne].
      - intros e [He Hne]%Ho; destruct (kok_armed _ _ Hp i s e Hi Hiw He) as [[| (_ & -> & _)]%Hc | Hr];
          [by left | by destruct Hne | right; by eapply registered_still]. }
    destruct (handler_fine cov' (with_kpoller w (moved (tr_poller w) i s' (changes (tr_poller w) ++ []) (-1))) h None)
      as (w' & E & Hf2); [apply Hf1 | by eapply (placed_kept cov') | cbn; congruence |].
    exists w'; split; [exact E | by eapply fine_trans].
  - exists w; split; [done |]; apply fine_refl; apply (kq_ok_cover cov); [| done].
    intros j x e Hj Hx [| (-> & -> & Hev)]%Hc; [done |]; rewrite Hi in Hj; injection Hj as <-; by rewrite Hev, Hx in Ef.
Qed.

Lemma posts_loop_fine cov hs : forall w, kq_ok cov (tr_poller w) -> placed w -> kq_lck (tr_poller w) = true ->
  hs ⊆ kq_posts (tr_poller w) ->
  exists w', executePost_loop exec w hs = Ret w' /\ kq_ok cov (tr_poller w') /\ kq_keeps (tr_poller w) (tr_poller w') /\
    kq_balance (tr_poller w') = kq_balance (tr_poller w) - zlen hs.
Proof.
  induction hs as [| h hs IH]; intros w Hp Hpl Hl Hs; [exists w; split_and!; [done .. |]; llia |]; cbn [executePost_loop].
  destruct (handler_fine cov w h None Hp Hpl) as (w1 & -> & Hf); [| res_step].
  { intros _; apply (list.Forall_forall _ _) with (1 := kok_posts _ _ Hp); set_solver. }
  pose proof Hf as (Hp1 & Hk1 & Hb1); set (w2 := with_kpoller w1 _).
  destruct (IH w2) as (w3 & -> & Hp3 & Hk3 & Hb3).
  - by eapply (posts_fine cov (tr_poller w1)); try done; apply Hp1.
  - exact (placed_kept _ _ _ Hpl Hf).
  - exact (eq_trans (kk_lck _ _ Hk1) Hl).
  - cbn; rewrite (kk_posts _ _ Hk1 Hl); set_solver.
  - exists w3; split_and!; [done | done | by apply (kq_keeps_trans _ _ _ Hk1), (kq_keeps_trans _ (tr_poller w2)) |].
    rewrite Hb3, <- Hb1; unfold kq_balance; cbn [tr_poller w2 with_kpoller traced_kpoller kq_pending kq_slots kq_posts kq_add_pending the_kpoller]; llia.
Qed.

Lemma executePost_fine cov w : kq_ok cov (tr_poller w) -> placed w -> kq_lck (tr_poller w) = false ->
  exists w', executePost exec w = Ret w' /\ wfine cov w w'.
Proof.
  intros Hp Hpl Hl; unfold executePost; cbn [the_kpoller with_kpoller traced_kpoller].
  destruct (kq_drain_ok (S (Z.to_nat (piped (tr_poller w)))) (tr_poller w)) as (m & -> & _); [lia |]; res_step.
  set (w1 := mkTraced _ _); assert (kq_ok cov (tr_poller w1)) as Hp1 by (by apply (posts_fine cov (tr_poller w)); try apply Hp).
  destruct (posts_loop_fine cov (kq_posts (tr_poller w1)) w1) as (w2 & -> & Hp2 & Hk2 & Hb2); [done .. |]; res_step.
  pose proof (kk_posts _ _ Hk2 eq_refl) as Hpo; eexists; split; [done |]; split_and!.
  - apply (posts_fine cov (tr_poller w2)); try done; constructor.
  - destruct Hk2; split; cbn; try done; congruence.
  - revert Hb2; unfold kq_balance; rewrite Hpo; cbn [tr_poller w1 kq_pending kq_slots kq_posts set_posts set_piped].
    change (zlen (@nil H)) with 0; lia.
Qed.

(** What the events of a batch will deliver. *)
Definition cov_of (evs : list Kevent_t) (i : nat) (et : EventType) : Prop :=
  exists ev, ev ∈ evs /\ Udata ev = Some i /\ has_flag (- Filter ev) (kq_flag et) = true.

Definition no_cov : nat -> EventType -> Prop := fun _ _ => False.

Lemma event_fine ev evs w i s : kq_ok (cov_of (ev :: evs)) (tr_poller w) -> placed w -> kq_lck (tr_poller w) = false ->
  Udata ev = Some i -> kq_slots (tr_poller w) !! i = Some s -> i <> wk ->
  exists w', (w ← kq_fire exec w i (- Filter ev) ReadEvent; kq_fire exec w i (- Filter ev) WriteEvent) = Ret w' /\
    wfine (cov_of evs) w w'.
Proof.
  intros Hp Hpl Hl Hu Hi Hw.
  set (cov1 := fun j e => cov_of evs j e \/ (j = i /\ e = WriteEvent /\ has_flag (- Filter ev) (kq_flag WriteEvent) = true)).
  destruct (kq_fire_fine _ cov1 w i s (- Filter ev) ReadEvent Hp Hpl Hl Hi Hw) as (w1 & -> & Hf1); [| res_step].
  { intros j e (x & Hx & Hux & Hfx); apply elem_of_cons in Hx as [-> | Hx]; [| left; left; by exists x].
    assert (j = i) as -> by congruence; destruct e; [by right | left; by right]. }
  destruct (fine_slot _ _ _ _ _ Hf1 Hi) as (s1 & Hi1 & _); pose proof Hf1 as (Hp1 & Hk1 & _).
  destruct (kq_fire_fine cov1 (cov_of evs) w1 i s1 (- Filter ev) WriteEvent) as (w2 & -> & Hf2); try done.
  - by eapply placed_kept.
  - by rewrite (kk_lck _ _ Hk1).
  - exists w2; split; [done |]; destruct Hf1 as (_ & ? & ?), Hf2 as (? & ? & ?); split_and!; [done | by eapply kq_keeps_trans | congruence].
Qed.

Lemma kq_Poll_loop_fine evs : forall w, kq_ok (cov_of evs) (tr_poller w) -> placed w -> kq_lck (tr_poller w) = false ->
  Forall (fun ev => points_at n (Udata ev)) evs -> exists w', kq_Poll_loop exec w evs = Ret w' /\ wfine no_cov w w'.
Proof.
  induction evs as [| ev evs IH]; intros w Hp Hpl Hl Hev.
  { exists w; split; [done |]; apply fine_refl; eapply kq_ok_cover; [| exact Hp]; intros i s et _ _ (x & Hx & _); by inversion Hx. }
  apply list.Forall_cons in Hev as [(i & Hu & Hin) Hev]; pose proof Hpl as (Hn & Hw & _).
  destruct (kok_waker _ _ Hp) as (wks & Hwks & _); rewrite <- Hn in Hin; apply lookup_lt_is_Some in Hin as [s Hi].
  cbn [kq_Poll_loop the_kpoller traced_kpoller]; rewrite Hu, Hi, Hwks; cbn zeta.
  assert (exists w1, (if decide (Fd s = Fd wks) then executePost exec w
      else w ← kq_fire exec w i (- Filter ev) ReadEvent; kq_fire exec w i (- Filter ev) WriteEvent) = Ret w1 /\ wfine (cov_of evs) w w1)
    as (w1 & E & Hf1).
  { case_decide as Hfd; [| apply event_fine with (s := s); try done; intros ->; congruence].
    assert (i = kq_waker (tr_poller w)) as Hiw by (by eapply kq_same_slot).
    apply executePost_fine; [| done | done]; destruct Hp; split; try done.
    intros j x et Hj Hjw Hf; destruct (kok_armed0 j x et Hj Hjw Hf) as [(y & Hy & Huy & Hfy) |]; [left | by right].
    apply elem_of_cons in Hy as [-> | Hy]; [congruence | by exists y]. }
  rewrite E; res_step; pose proof Hf1 as (Hp1 & Hk1 & Hb1); destruct (IH w1) as (w2 & -> & Hp2 & Hk2 & Hb2); [done | | | done |].
  - by eapply placed_kept.
  - by rewrite (kk_lck _ _ Hk1).
  - exists w2; split; [done |]; split_and!; [done | by eapply kq_keeps_trans | congruence].
Qed.

(** * The system call *)

Lemma note_pointer cov p key fl u : kq_ok cov p -> queued p !! key = Some (fl, u) ->
  key.2 = EVFILT_USER \/ points_at (length (kq_slots p)) u.
Proof.
  intros Hp [E | (c & Hc & <-)]%apply_changes_source; [by apply (kok_notes _ _ Hp) in E |].
  right; exact (proj1 (list.Forall_forall _ _) (kok_changes _ _ Hp) c Hc).
Qed.

Lemma events_point cov p t k evs : kq_ok cov p -> kevent (kq_kernel p) (changes p) 128 t = (k, inl evs) ->
  Forall (fun ev => points_at (length (kq_slots p)) (Udata ev)) evs.
Proof.
  intros Hp E; apply list.Forall_forall; intros ev Hev.
  pose proof (proj1 (list.Forall_forall _ _) (kevent_user _ _ _ _ _ _ E) ev Hev) as Hu.
  destruct (proj1 (list.Forall_forall _ _) (kevent_source _ _ _ _ _ _ E) ev Hev) as [(_ & c & Hc & _ & <-) | (fl & Hn)].
  - exact (proj1 (list.Forall_forall _ _) (kok_changes _ _ Hp) c Hc).
  - by destruct (note_pointer _ _ _ _ _ Hp Hn) as [? |].
Qed.

(** A one-shot event that is reported is about to be delivered, the others stay registered. *)
Lemma reported_ok p t k evs : kq_ok no_cov p -> kevent (kq_kernel p) (changes p) 128 t = (k, inl evs) ->
  kq_ok (cov_of evs) (set_kq p k []).
Proof.
  intros Hp E; pose proof (kevent_notes _ _ _ _ _ _ E) as Hk; change (apply_changes _ _) with (queued p) in Hk.
  pose proof (fun key fl u => note_pointer no_cov p key fl u Hp) as Hptr.
  destruct Hp as [Hnd Hms (wks & Hwk & Hwe & Hwq) Hhs Har Hch Hno Hpo]; split; try done.
  - exists wks; split_and!; [done | done |]; unfold queued; cbn [kq_kernel changes set_kq apply_changes foldl].
    rewrite Hk; apply map_lookup_filter_Some; split; [done |]; by rewrite andb_false_r.
  - intros i s et Hi Hw Hf; destruct (Har i s et Hi Hw Hf) as [[] | (filt & fl & Hwf & Hr)].
    destruct (reported evs (Fd s, filt) && has_flag fl EV_ONESHOT) eqn:Er.
    + left; apply andb_prop in Er as [Er _]; unfold reported in Er; apply existsb_exists in Er as (ev & Hev & Hx).
      apply andb_prop in Hx as [Hkey%bool_decide_eq_true Herr]; apply list_elem_of_In in Hev.
      exists ev; split; [done |].
      destruct (proj1 (list.Forall_forall _ _) (kevent_source _ _ _ _ _ _ E) ev Hev) as [(He & _) | (fl' & Hn)];
        [by rewrite He in Herr |]; change (apply_changes _ _) with (queued p) in Hn.
      rewrite Hkey, Hr in Hn; injection Hn as _ Hu; split; [done |]; injection Hkey as _ ->; by apply watches_flag.
    + right; exists filt, fl; split; [done |]; unfold queued; cbn [kq_kernel changes set_kq apply_changes foldl].
      rewrite Hk; by apply map_lookup_filter_Some.
  - intros key fl u; cbn [kq_kernel set_kq]; rewrite Hk; intros [Hn _]%map_lookup_filter_Some; by eapply Hptr.
Qed.

Lemma interrupted_ok p t k : kq_ok no_cov p -> kevent (kq_kernel p) (changes p) 128 t = (k, inr EINTR) ->
  kq_ok no_cov (set_kq p k []).
Proof.
  intros Hp E; pose proof (kevent_interrupted _ _ _ _ _ E) as Hk; change (apply_changes _ _) with (queued p) in Hk.
  pose proof (fun key fl u => note_pointer no_cov p key fl u Hp) as Hptr.
  assert (queued (set_kq p k []) = queued p) as Hq by exact Hk.
  destruct Hp as [Hnd Hms Hwk Hhs Har Hch Hno Hpo]; split; try done.
  - by rewrite Hq.
  - unfold registered; by rewrite Hq.
  - intros key fl u; cbn [kq_kernel set_kq]; rewrite Hk; apply Hptr.
Qed.

Context `{!WillingKqueue K}.

Lemma kq_Poll_fine w t : kq_ok no_cov (tr_poller w) -> placed w -> kq_lck (tr_poller w) = false ->
  exists w' r, kq_Poll exec w t = Ret (w', r) /\ wfine no_cov w w'.
Proof.
  intros Hp Hpl Hl; unfold kq_Poll; cbn zeta; cbn [the_kpoller with_kpoller traced_kpoller].
  rewrite (proj2 (proj2 Hpl)); destruct (kevent _ _ _ _) as [k [evs | e]] eqn:E.
  - pose proof (reported_ok _ _ _ _ Hp E) as Hp1; destruct (decide (evs = [] /\ 0 <= t)) as [Ht |].
    { eexists _, _; split; [done |]; split_and!; [| done | done]; destruct Ht as [-> _].
      eapply kq_ok_cover; [| exact Hp1]; intros i s et _ _ (x & Hx & _); by inversion Hx. }
    destruct (kq_Poll_loop_fine evs (mkTraced (set_kq (tr_poller w) k []) (trace w))) as (w' & -> & Hf); [done .. | |].
    + rewrite <- (proj1 Hpl); by eapply events_point.
    + res_step; eexists _, _; split; [done |]; destruct Hf as (Hq & Hk & Hb); split_and!;
        [done | by apply (kq_keeps_trans _ (set_kq (tr_poller w) k [])) | exact Hb].
  - assert (e = EINTR) as -> by (by eapply kevent_willing).
    eexists _, _; split; [done |]; split_and!; [by eapply interrupted_ok | done | done].
Qed.

Definition usable_step (s : step (kq_op H)) : Prop :=
  match s with Calls ops => Forall (usable n wk) ops | Polls _ => True end.

Lemma kq_steps_fine steps : forall w, kq_ok no_cov (tr_poller w) -> placed w -> kq_lck (tr_poller w) = false ->
  Forall usable_step steps -> exists w', run_steps kq_call (kq_Poll exec) steps w = Ret w' /\ wfine no_cov w w'.
Proof.
  induction steps as [| s steps IH]; intros w Hp Hpl Hl Hs; [by exists w |]; apply list.Forall_cons in Hs as [Hu Hs]; cbn [run_steps].
  assert (exists w1, run_step kq_call (kq_Poll exec) s w = Ret w1 /\ wfine no_cov w w1) as (w1 & -> & Hf1); [| res_step].
  { destruct s as [ops | t]; cbn [run_step].
    - apply kq_ops_fine; [done | | congruence]; destruct Hpl as (-> & -> & _); exact Hu.
    - destruct (kq_Poll_fine w t Hp Hpl Hl) as (w1 & [m err] & -> & Hf); res_step; by eexists. }
  pose proof Hf1 as (Hp1 & Hk1 & _); destruct (IH w1) as (w2 & -> & Hf2); [done | | | done |].
  - by eapply placed_kept.
  - by rewrite (kk_lck _ _ Hk1).
  - exists w2; split; [done | by eapply fine_trans].
Qed.
End invariant.

(** * From a new poller *)

(** The slots of the objects that use the poller, after the waker's. *)
Definition kq_with_slots {K H} (q : kpoller K H) (l : list (Slot H)) : kpoller K H :=
  mkKpoller (kq_kernel q) (changes q) (kq_slots q ++ l) (kq_waker q) (piped q) (kq_posts q) (kq_lck q) (kq_pending q)
    (kq_closed q).

(** Not armed, with handlers. *)
Definition unarmed {H} (s : Slot H) : Prop := Events s = 0 /\ forall et, is_Some (handler_of s et).

Section new_kpoller.
Context {K H : Type} `{Kqueue K} (body : H -> list (kq_op H)).

Lemma kq_armed_none (l : list (Slot H)) : Forall unarmed l -> kq_armed_sum l = 0.
Proof. induction 1 as [| s l [He _] _ IH]; [done |]; unfold kq_armed_sum in *; cbn [foldr]; by rewrite He, IH. Qed.

Lemma new_kq_ok (k : K) kfd fd (l : list (Slot H)) q : knotes k = ∅ -> NoDup (fd :: (Fd <$> l)) -> Forall unarmed l ->
  kq_NewPoller k kfd fd = Ret (inl q) ->
  kq_ok body no_cov (kq_with_slots q l) /\ kq_waker q = 0%nat /\ kq_lck q = false /\ kq_closed q = false /\ length (kq_slots q) = 1%nat /\
  kq_balance (kq_with_slots q l) = -1.
Proof.
  intros Hk Hnd Hl E; unfold kq_NewPoller in E; destruct (kevent _ _ _ _) as [k' [evs | e]] eqn:Ek; [| done]; cbn in E; injection E as <-.
  pose proof (kevent_notes _ _ _ _ _ _ Ek) as Hn; rewrite Hk in Hn.
  assert (forall key fl u, knotes k' !! key = Some (fl, u) -> key.2 = EVFILT_USER) as Hno.
  { intros key fl u; rewrite Hn; intros [Hx _]%map_lookup_filter_Some.
    change (<[(kfd, EVFILT_USER) := (Z.lor EV_ADD EV_CLEAR, None)]> (∅ : notes) !! key = Some (fl, u)) in Hx.
    by apply lookup_insert_Some in Hx as [[<- _] | [_ Hx]]. }
  split_and!; try done.
  - split; try done; cbn.
    + constructor; [by right; left |]; eapply list.Forall_impl; [exact Hl |]; intros s [-> _]; by left.
    + eexists; split_and!; [done | done |].
      by apply (apply_change_add (knotes k') (mkKevent fd EVFILT_READ EV_ADD 0 0 (Some 0%nat))).
    + intros [| i] s et Hi Hw; [done |]; by apply (Forall_lookup_1 _ _ _ _ Hl Hi).
    + intros [| i] s et Hi Hw; [done |]; destruct (Forall_lookup_1 _ _ _ _ Hl Hi) as [-> _]; by destruct et.
    + constructor; [| constructor]; exists 0%nat; split; [done | cbn; lia].
    + intros key fl u Hx; left; by eapply Hno.
  - unfold kq_balance; change (0 - (1 + kq_armed_sum l) - 0 = -1); rewrite kq_armed_none by done; done.
Qed.
End new_kpoller.

(** C13: the kqueue poller loses nothing, on a kernel whose waits fail with [EINTR] only.
    Take a new poller with slots that have handlers and distinct descriptors, and any
    sequence of calls and polls that does not close it and in which posted handlers do not
    post (they run with the lock held): arming and disarming reads, writes and timers,
    changing handlers, posting, whether from outside or from a handler.  Every run returns.  After it the
    pending counter is the number of armed events and posted handlers, and every armed event
    of every slot, the waker's included, is registered with the kernel once the queued
    changes are applied: no order of arming, firing, cancelling and arming again leaves an
    operation that waits for an event nobody watches. *)
Theorem kqueue_keeps_watch {K H} `{WillingKqueue K} (body : H -> list (kq_op H)) (k : K) (kfd fd : Z)
    (l : list (Slot H)) q (steps : list (step (kq_op H))) :
  knotes k = ∅ -> NoDup (fd :: (Fd <$> l)) -> Forall unarmed l ->
  (forall h, Forall (usable body (S (length l)) 0) (body h)) ->
  Forall (usable_step body (S (length l)) 0) steps ->
  kq_NewPoller k kfd fd = Ret (inl q) ->
  exists w, run_steps kq_call (kq_Poll (run_handler kq_call body)) steps (mkTraced (kq_with_slots q l) []) = Ret w /\
    let p := tr_poller w in
    kq_Pending p = kq_armed_sum (drop 1 (kq_slots p)) + zlen (kq_posts p) /\
    forall i s et, kq_slots p !! i = Some s -> has_flag (Events s) (kq_flag et) = true -> registered p i s et.
Proof.
  intros Hk Hnd Hl Hb Hs E; destruct (new_kq_ok body k kfd fd l q Hk Hnd Hl E) as (Hok & Hw & Hlck & Hcl & Hn & Hbal).
  destruct (kq_steps_fine body (S (length l)) 0 Hb steps (mkTraced (kq_with_slots q l) [])) as (w & -> & Hok' & Hkp & Hbal');
    [done | split_and!; [cbn; rewrite length_app; lia | done | done] | done | done |].
  pose proof (kk_waker _ _ Hkp) as Hw'; cbn in Hw'; rewrite Hw in Hw'.
  destruct (kok_waker _ _ _ Hok') as (wk & Hwk & Hwe & Hwq); rewrite Hw' in Hwk, Hwq.
  exists w; split; [done |]; cbn zeta; split.
  - change (tr_poller (mkTraced (kq_with_slots q l) [])) with (kq_with_slots q l) in Hbal'; rewrite Hbal in Hbal'; unfold kq_balance in Hbal'; destruct (kq_slots (tr_poller w)) as [| s rest]; [done |].
    injection Hwk as ->; unfold kq_Pending; unfold kq_armed_sum in *; cbn [foldr drop] in *; rewrite Hwe in Hbal'.
    rewrite drop_0; change (kq_armed kq_PollerReadEvent) with 1 in Hbal'; lia.
  - intros i s et Hi Hf; destruct (decide (i = 0%nat)) as [-> | Hne].
    + rewrite Hwk in Hi; injection Hi as <-; rewrite Hwe in Hf; destruct et; [| done]; by exists EVFILT_READ, EV_ADD.
    + destruct (kok_armed _ _ _ Hok' i s et Hi) as [[] |]; [congruence | done | done].
Qed.

(** A kqueue that answers from a script: the keys that are ready at the n-th wait. *)
Record script_kqueue : Type := mkKscript { noted : notes; answers : list (list (Z * Z)) }.

Definition script_report (m : notes) (key : Z * Z) : option Kevent_t :=
  if decide (key.2 = -10) then None
  else match m !! key with Some (_, u) => Some (mkKevent key.1 key.2 0 0 0 u) | None => None end.

Definition script_kevent (k : script_kqueue) (cs : list Kevent_t) (n : Z) (t : option Z) :
    script_kqueue * (list Kevent_t + error) :=
  let m := apply_changes (noted k) cs in
  match answers k with
  | [] => (mkKscript m [], inl [])
  | keys :: rest =>
      if decide (n <= 0) then (mkKscript m (answers k), inl [])
      else let evs := ztake n (omap (script_report m) keys) in (mkKscript (after_report m evs) rest, inl evs)
  end.

Lemma after_nothing m : after_report m [] = m.
Proof. apply map_filter_id; by intros ? []. Qed.

#[export] Instance script_Kqueue : Kqueue script_kqueue.
Proof.
  refine {| EVFILT_USER := -10; NOTE_NSECONDS := 4; pipe_size := 65536; knotes := noted; kevent := script_kevent |};
    [done | ..]; intros k cs n t k' *; unfold script_kevent; destruct (answers k) as [| keys rest].
  - intros Hn [= _ <-]; done.
  - case_decide; intros Hn [= _ <-]; [done | llia].
  - intros [= <- <-]; by rewrite after_nothing.
  - case_decide; intros [= <- <-]; [by rewrite after_nothing | done].
  - intros [= _ <-]; constructor.
  - case_decide; intros [= _ <-]; [constructor |]; apply Forall_take, list.Forall_forall; intros ev Hev; right.
    apply list_elem_of_omap in Hev as (key & _ & Hk); unfold script_report in Hk; case_decide; [done |].
    destruct (_ !! key) as [[fl u] |] eqn:E; [| done]; injection Hk as <-; exists fl; by destruct key.
  - intros [= _ <-]; constructor.
  - case_decide; intros [= _ <-]; [constructor |]; apply Forall_take, list.Forall_forall; intros ev Hev.
    apply list_elem_of_omap in Hev as (key & _ & Hk); unfold script_report in Hk; case_decide; [done |].
    destruct (_ !! key) as [[fl u] |]; [| done]; by injection Hk as <-.
  - done.
  - by case_decide.
Defined.

#[export] Instance script_kq_willing : WillingKqueue script_kqueue.
Proof. intros k cs n t k' e E; cbn in E; unfold script_kevent in E; repeat case_match; by simplify_eq. Qed.

(** The read handler of slot 1 sets the timer of slot 2 and arms its read again; the timer
    cancels the read, arms it once more and posts a handler. *)
Definition watch_body (h : nat) : list (kq_op nat) :=
  match h with
  | 1 => [TimerSet 2 1000 2; Plain (OpSet 1 ReadEvent)]
  | 2 => [Plain (OpDel 1 ReadEvent); Plain (OpSet 1 ReadEvent); Plain (OpPost 3)]
  | _ => []
  end%nat.

Definition watch_steps : list (step (kq_op nat)) :=
  [Calls [Plain (OpSet 1 ReadEvent); Plain (OpSet 1 WriteEvent)]; Polls (-1); Polls (-1)]%nat.

Definition watch_slots : list (Slot nat) := [mkSlot 5 0 (Some 1%nat) (Some 4%nat); mkSlot 77 0 (Some 2%nat) (Some 4%nat)].

Definition watch_kqueue : script_kqueue := mkKscript ∅ [[(5, EVFILT_READ)]; [(77, EVFILT_TIMER); (5, EVFILT_READ)]].

Definition pending_of (r : res (traced (kpoller script_kqueue nat) nat)) : res Z := w ← r; Ret (kq_Pending (tr_poller w)).

Definition watch_poller : kpoller script_kqueue nat :=
  mkKpoller (mkKscript {[(3, -10) := (33, None)]} (answers watch_kqueue)) [mkKevent 4 EVFILT_READ EV_ADD 0 0 (Some 0%nat)]
    [mkSlot 4 1 None None] 0 0 [] false 0 false.

Lemma kqueue_keeps_watch_witness : kq_NewPoller watch_kqueue 3 4 = Ret (inl watch_poller) /\ exists w,
  run_steps kq_call (kq_Poll (run_handler kq_call watch_body)) watch_steps (mkTraced (kq_with_slots watch_poller watch_slots) []) =
    Ret w /\
  let p := tr_poller w in
  kq_Pending p = kq_armed_sum (drop 1 (kq_slots p)) + zlen (kq_posts p) /\ kq_Pending p = 4 /\
  forall i s et, kq_slots p !! i = Some s -> has_flag (Events s) (kq_flag et) = true -> registered p i s et.
Proof.
  split; [vm_compute; reflexivity |].
  destruct (kqueue_keeps_watch watch_body watch_kqueue 3 4 watch_slots watch_poller watch_steps) as (w & R & Hp & Hw).
  - reflexivity.
  - apply (bool_decide_unpack _); vm_compute; exact I.
  - repeat constructor; intros []; by eexists.
  - intros [| [| [| h]]]; repeat constructor; cbn; lia.
  - repeat constructor; cbn; lia.
  - vm_compute; reflexivity.
  - exists w; split; [exact R | split; [exact Hp | split; [| exact Hw]]].
    assert (Ret (kq_Pending (tr_poller w)) = Ret 4) as P; [| by injection P].
    change (pending_of (Ret w) = Ret 4); rewrite <- R; vm_compute; reflexivity.
Defined.
