(* ===== verification/EventLoop.v ===== *)
(** The executor [IO] of [src/io.go] and the state of the objects that run on it.

    A callback is a program of the user ([prog]): the calls it makes, in order, each with
    what follows it.  A callback that is kept for later (in a reactor, a slot or the posted
    handlers) is kept as such a program; calling it runs the program.  The objects live in
    arenas and are referred to by their index; the buffers of the user are shared memory.
    The system calls are parameters.

    The operations of the objects are in [FileIO.v], [Timers.v], [Adapter.v],
    [PacketConn.v], [ListenConn.v] and [UDPPeer.v]; [RunLoop.v] ties them together. *)

From stdpp Require Import gmap.
From S2P Require Import Prelude Poller NetAddr.

(** * Programs *)

Inductive prog : Type :=
| Return
| CallAsyncRead (f b : nat) (readAll : bool) (cb : option error -> Z -> prog) (next : prog)
| CallAsyncWrite (f b : nat) (writeAll : bool) (cb : option error -> Z -> prog) (next : prog)
| CallClose (f : nat) (next : option error -> prog)
| CallAdapterRead (a b : nat) (readAll : bool) (cb : option error -> Z -> prog) (next : prog)
| CallAdapterWrite (a b : nat) (writeAll : bool) (cb : option error -> Z -> prog) (next : prog)
| CallAdapterClose (a : nat) (next : option error -> prog)
| CallReadFrom (c b : nat) (readAll : bool) (cb : option error -> Z -> option netAddr -> prog) (next : prog)
| CallWriteTo (c b : nat) (to : netAddr) (cb : option error -> prog) (next : prog)
| CallPacketClose (c : nat) (next : option error -> prog)
| CallAccept (l : nat) (cb : option error -> option Z -> prog) (next : prog)
| CallListenerClose (l : nat) (next : option error -> prog)
| CallPeerRead (p b : nat) (fn : option error -> Z -> AddrPort -> prog) (next : prog)
| CallSetAsyncReadBuffer (p b : nat) (next : prog)
| CallPeerWrite (p b : nat) (to : AddrPort) (fn : option error -> Z -> prog) (next : prog)
| CallPeerClose (p : nat) (next : option error -> prog)
| CallScheduleOnce (t : nat) (delay : Z) (cb : prog) (next : option error -> prog)
| CallScheduleRepeating (t : nat) (repeat : Z) (cb : prog) (next : option error -> prog)
| CallTimerCancel (t : nat) (next : option error -> prog)
| CallTimerClose (t : nat) (next : option error -> prog)
| CallPost (h : prog) (next : option error -> prog).

(** The callback types of [src/definitions.go] and [src/multicast/peer.go].  An accepted
    connection reaches its callback as a descriptor. *)
Definition AsyncCallback : Type := option error -> Z -> prog.
Definition AsyncReadCallbackPacket : Type := option error -> Z -> option netAddr -> prog.
Definition AsyncWriteCallbackPacket : Type := option error -> prog.
Definition AcceptCallback : Type := option error -> option Z -> prog.
Definition PeerReadCallback : Type := option error -> Z -> AddrPort -> prog.

(** The callback [ScheduleOnce] was given: the user's, or the one of [ScheduleRepeating]. *)
Inductive timer_cb : Type := Once (cb : prog) | Repeating (repeat : Z) (cb : prog).

(** The closures that are registered with the poller, with what they capture.  [count]:
    the callback was wrapped in one that counts it in [Dispatched]. *)
Inductive handler : Type :=
| OnRead (f : nat)
| OnWrite (f : nat)
| OnAdapterRead (a : nat)
| OnAdapterWrite (a : nat)
| OnPacketRead (c : nat) (b : nat) (readBytes : Z) (readAll : bool) (count : bool) (cb : AsyncReadCallbackPacket)
| OnPacketWrite (c : nat) (b : nat) (to : netAddr) (count : bool) (cb : AsyncWriteCallbackPacket)
| OnAccept (l : nat) (cb : AcceptCallback)
| OnPeerRead (p : nat)
| OnPeerWrite (p : nat)
| OnTimer (t : nat) (cb : timer_cb)
| Posted (h : prog).

(** * System calls *)

(** read(2), write(2) and recvfrom(2) transfer at most what they were asked for, and so
    does the [io.ReadWriter] of an adapter ([rw_read] and [rw_write], with its index). *)
Class System (S : Type) := {
  sys_read : S -> Z -> Z -> S * (list byte + error);
  sys_write : S -> Z -> list byte -> S * (Z + error);
  sys_close : S -> Z -> S * option error;
  sys_recvfrom : S -> Z -> Z -> S * (list byte * option Sockaddr + error);
  sys_sendto : S -> Z -> list byte -> Sockaddr -> S * option error;
  sys_accept : S -> Z -> S * (Z * option Sockaddr + error);
  sys_getsockname : S -> Z -> S * (Sockaddr + error);
  sys_setnonblock : S -> Z -> bool -> S * option error;
  timerfd_settime : S -> Z -> Z -> S * option error;
  rw_read : S -> nat -> Z -> S * (list byte * option error);
  rw_write : S -> nat -> list byte -> S * (Z * option error);
  read_count : forall s fd n s' bs, 0 <= n -> sys_read s fd n = (s', inl bs) -> zlen bs <= n;
  write_count : forall s fd bs s' n, sys_write s fd bs = (s', inl n) -> 0 <= n <= zlen bs;
  recvfrom_count : forall s fd n s' bs from, 0 <= n -> sys_recvfrom s fd n = (s', inl (bs, from)) ->
    zlen bs <= n;
  rw_read_count : forall s a n s' bs err, 0 <= n -> rw_read s a n = (s', (bs, err)) -> zlen bs <= n;
  rw_write_count : forall s a bs s' n err, rw_write s a bs = (s', (n, err)) -> 0 <= n <= zlen bs
}.

(** * State *)

(** The reactors of [src/file.go] and [src/async_adapter.go]. *)
Record reactor : Type := mkReactor {
  r_b : option nat;
  r_all : bool;
  r_cb : option AsyncCallback;
  r_soFar : Z
}.

Record file : Type := mkFile {
  file_slot : nat;
  file_closed : bool;
  readReactor : reactor;
  writeReactor : reactor
}.

Record AsyncAdapter : Type := mkAdapter {
  adapter_slot : nat;
  adapter_closed : bool;
  adapter_readReactor : reactor;
  adapter_writeReactor : reactor
}.

Record packetConn : Type := mkPacketConn {
  packet_slot : nat;
  packet_closed : bool
}.

Record listener : Type := mkListener { listener_slot : nat }.

(** The asynchronous counters of [src/multicast/stats.go]. *)
Record Stats : Type := mkStats {
  immediateReads : Z;
  scheduledReads : Z;
  immediateWrites : Z;
  scheduledWrites : Z
}.

(** [peer_fd] is the descriptor of the peer's socket, -1 once it is closed. *)
Record UDPPeer : Type := mkPeer {
  peer_slot : nat;
  peer_closed : bool;
  peer_fd : Z;
  read_b : option nat;
  read_fn : option PeerReadCallback;
  write_b : option nat;
  write_addr : AddrPort;
  write_fn : option AsyncCallback;
  stats : Stats
}.

Inductive timerState : Type := stateReady | stateScheduled | stateClosed.

#[export] Instance timerState_eq_dec : EqDecision timerState.
Proof. solve_decision. Defined.

Record Timer : Type := mkTimer {
  timer_slot : nat;
  timer_state : timerState;
  cancelled : bool
}.

Record IO (K : Type) : Type := mkIO {
  io_poller : poller K handler;
  static : gmap Z nat;
  dynamic : gmap Z nat;
  pendingTimers : gset nat;
  Dispatched : Z
}.
Arguments mkIO {K}.
Arguments io_poller {K}.
Arguments static {K}.
Arguments dynamic {K}.
Arguments pendingTimers {K}.
Arguments Dispatched {K}.

(** Every object of the program. *)
Record objects : Type := mkObjects {
  files : list file;
  adapters : list AsyncAdapter;
  packets : list packetConn;
  listeners : list listener;
  peers : list UDPPeer;
  timers : list Timer
}.

(** [nesting] counts the callbacks on the stack and [called] lists, for every callback
    called so far, [nesting] and [Dispatched] at the call; the code has neither. *)
Record world (K S : Type) : Type := mkWorld {
  ioc : IO K;
  objs : objects;
  mem : list (list byte);
  sys : S;
  nesting : Z;
  called : list (Z * Z)
}.
Arguments mkWorld {K S}.
Arguments ioc {K S}.
Arguments objs {K S}.
Arguments mem {K S}.
Arguments sys {K S}.
Arguments nesting {K S}.
Arguments called {K S}.

Definition MaxCallbackDispatch : Z := 32.

(** The size of the array of [IO.pending.static]. *)
Definition static_len : Z := 4096.

Section operations.
Context {K S : Type} `{Epoll K}.
Abbreviation W := (world K S).
Implicit Types (w : W).

(** ** Access *)

Definition set_ioc w (i : IO K) : W := mkWorld i (objs w) (mem w) (sys w) (nesting w) (called w).
Definition set_objs w (o : objects) : W := mkWorld (ioc w) o (mem w) (sys w) (nesting w) (called w).
Definition set_sys w (s : S) : W := mkWorld (ioc w) (objs w) (mem w) s (nesting w) (called w).
Definition set_mem w (b : nat) (bs : list byte) : W :=
  mkWorld (ioc w) (objs w) (<[b := bs]> (mem w)) (sys w) (nesting w) (called w).
Definition set_poller w (p : poller K handler) : W :=
  let i := ioc w in
  set_ioc w (mkIO p (static i) (dynamic i) (pendingTimers i) (Dispatched i)).
Definition set_dispatched w (d : Z) : W :=
  let i := ioc w in
  set_ioc w (mkIO (io_poller i) (static i) (dynamic i) (pendingTimers i) d).
Definition set_pendingTimers w (ts : gset nat) : W :=
  let i := ioc w in
  set_ioc w (mkIO (io_poller i) (static i) (dynamic i) ts (Dispatched i)).

(** Dereferencing; a reference to nothing is a nil pointer. *)
Definition deref {A} (l : list A) (i : nat) : res A :=
  match l !! i with Some x => Ret x | None => Panic end.

Definition slot_of w (i : nat) : res (Slot handler) := deref (slots (io_poller (ioc w))) i.

(** A method of the poller called on the world. *)
Definition polling w (r : res (poller K handler * option error)) : res (W * option error) :=
  '(p, err) ← r; Ret (set_poller w p, err).

(** ** src/io.go *)

Definition Register w (i : nat) : res W :=
  s ← slot_of w i;
  let io := ioc w in
  if decide (static_len <= Fd s) then
    Ret (set_ioc w (mkIO (io_poller io) (static io) (<[Fd s := i]> (dynamic io)) (pendingTimers io)
                      (Dispatched io)))
  else if decide (Fd s < 0) then Panic
  else Ret (set_ioc w (mkIO (io_poller io) (<[Fd s := i]> (static io)) (dynamic io) (pendingTimers io)
                         (Dispatched io))).

Definition Deregister w (i : nat) : res W :=
  s ← slot_of w i;
  let io := ioc w in
  if decide (static_len <= Fd s) then
    Ret (set_ioc w (mkIO (io_poller io) (static io) (delete (Fd s) (dynamic io)) (pendingTimers io)
                      (Dispatched io)))
  else if decide (Fd s < 0) then Panic
  else Ret (set_ioc w (mkIO (io_poller io) (delete (Fd s) (static io)) (dynamic io) (pendingTimers io)
                         (Dispatched io))).

Definition IO_SetRead w (i : nat) : res (W * option error) := polling w (SetRead (io_poller (ioc w)) i).
Definition UnsetRead w (i : nat) : res (W * option error) := polling w (DelRead (io_poller (ioc w)) i).
Definition IO_SetWrite w (i : nat) : res (W * option error) := polling w (SetWrite (io_poller (ioc w)) i).
Definition UnsetWrite w (i : nat) : res (W * option error) := polling w (DelWrite (io_poller (ioc w)) i).
Definition UnsetReadWrite w (i : nat) : res (W * option error) := polling w (Del (io_poller (ioc w)) i).

(** A [Post] under the lock never returns. *)
Definition IO_Post w (h : handler) : res (W * option error) :=
  match Post (io_poller (ioc w)) h with
  | Some (p, err) => Ret (set_poller w p, err)
  | None => NoFuel
  end.

Definition IO_Posted w : option Z := Poller.Posted (io_poller (ioc w)).
Definition IO_Pending w : Z := Pending (io_poller (ioc w)).

Definition IO_Close w : W * option error :=
  let '(p, err) := Close (io_poller (ioc w)) in (set_poller w p, err).

Definition IO_Closed w : bool := Closed (io_poller (ioc w)).

(** ** Shared by the objects *)

Definition set_file w (f : nat) (x : file) : W :=
  let o := objs w in
  set_objs w (mkObjects (<[f := x]> (files o)) (adapters o) (packets o) (listeners o) (peers o) (timers o)).
Definition set_adapter w (a : nat) (x : AsyncAdapter) : W :=
  let o := objs w in
  set_objs w (mkObjects (files o) (<[a := x]> (adapters o)) (packets o) (listeners o) (peers o) (timers o)).
Definition set_packet w (c : nat) (x : packetConn) : W :=
  let o := objs w in
  set_objs w (mkObjects (files o) (adapters o) (<[c := x]> (packets o)) (listeners o) (peers o) (timers o)).
Definition set_peer w (p : nat) (x : UDPPeer) : W :=
  let o := objs w in
  set_objs w (mkObjects (files o) (adapters o) (packets o) (listeners o) (<[p := x]> (peers o)) (timers o)).
Definition set_timer w (t : nat) (x : Timer) : W :=
  let o := objs w in
  set_objs w (mkObjects (files o) (adapters o) (packets o) (listeners o) (peers o) (<[t := x]> (timers o))).

Definition reactor_init (bf : option nat) (all : bool) (k : option AsyncCallback) : reactor :=
  mkReactor bf all k 0.

(** The slice of a reactor; nil is empty. *)
Definition buffer w (bf : option nat) : res (list byte) :=
  match bf with Some i => deref (mem w) i | None => Ret [] end.

Definition store w (bf : option nat) (bs : list byte) : W :=
  match bf with Some i => set_mem w i bs | None => w end.

(** [slot.Set(et, h)], then [SetRead] or [SetWrite], then [Register]; [fail] calls back with
    the error of the poller, [armed] is what is recorded when there is none. *)
Definition arm w (i : nat) (et : EventType) (h : handler) (armed : W -> res W) (fail : error -> W -> res W) :
    res W :=
  p ← set_handler (io_poller (ioc w)) i et h;
  '(w, err) ← (match et with
               | ReadEvent => IO_SetRead (set_poller w p) i
               | WriteEvent => IO_SetWrite (set_poller w p) i
               end);
  match err with
  | Some e => fail e w
  | None => w ← armed w; Register w i
  end.

(** A callback counted on the stack: [Dispatched++; cb(...); Dispatched--]. *)
Definition counted (call : W -> res W) : W -> res W := fun w =>
  w ← call (set_dispatched w (Dispatched (ioc w) + 1));
  Ret (set_dispatched w (Dispatched (ioc w) - 1)).

(** The callback a closure captured, wrapped or as the user gave it. *)
Definition maybe_counted (count : bool) (call : W -> res W) : W -> res W :=
  if count then counted call else call.

(** [_ = ioc.UnsetReadWrite(slot); ioc.Deregister(slot)]. *)
Definition unhook w (i : nat) : res W :=
  '(w, _) ← UnsetReadWrite w i; Deregister w i.
End operations.
