(* ===== verification/FileIO.v ===== *)
(** Files and connections: [file] of [src/file.go]. *)

From stdpp Require Import gmap.
From S2P Require Import Prelude Poller NetAddr EventLoop.

Section file_ops.
Context {K S : Type} `{Epoll K} `{System S}.
Abbreviation W := (world K S).
Implicit Types (w : W).

Definition newFile (i : nat) : file :=
  mkFile i false (reactor_init None false None) (reactor_init None false None).

Definition set_readReactor (x : file) (r : reactor) : file :=
  mkFile (file_slot x) (file_closed x) r (writeReactor x).
Definition set_writeReactor (x : file) (r : reactor) : file :=
  mkFile (file_slot x) (file_closed x) (readReactor x) r.

Definition file_Read w (f : nat) (bf : option nat) (off : Z) : res (W * (Z * option error)) :=
  x ← deref (files (objs w)) f;
  s ← slot_of w (file_slot x);
  bs ← buffer w bf;
  if decide (0 <= off <= zlen bs) then
    let '(y, r) := sys_read (sys w) (Fd s) (zlen bs - off) in
    let w := set_sys w y in
    match r with
    | inr e => if decide (e = EAGAIN) then Ret (w, (0, Some ErrWouldBlock)) else Ret (w, (0, Some e))
    | inl got =>
        let w := store w bf (write_at off got bs) in
        if decide (zlen got = 0) then Ret (w, (0, Some EOF)) else Ret (w, (zlen got, None))
    end
  else Panic.

(** [f.Write(b[off:])]. *)
Definition file_Write w (f : nat) (bf : option nat) (off : Z) : res (W * (Z * option error)) :=
  x ← deref (files (objs w)) f;
  s ← slot_of w (file_slot x);
  bs ← buffer w bf;
  if decide (0 <= off <= zlen bs) then
    let '(y, r) := sys_write (sys w) (Fd s) (zdrop off bs) in
    let w := set_sys w y in
    match r with
    | inr e => if decide (e = EAGAIN) then Ret (w, (0, Some ErrWouldBlock)) else Ret (w, (0, Some e))
    | inl n =>
        if decide (n = 0) then Ret (w, (0, Some EOF))
        else if decide (n < 0) then Ret (w, (0, None)) else Ret (w, (n, None))
    end
  else Panic.

Definition scheduleRead w (f : nat) (readSoFar : Z) (call : option error -> Z -> W -> res W) : res W :=
  x ← deref (files (objs w)) f;
  if file_closed x then call (Some EOF) 0 w
  else
    let r := readReactor x in
    arm (set_file w f (set_readReactor x (mkReactor (r_b r) (r_all r) (r_cb r) readSoFar))) (file_slot x)
      ReadEvent (OnRead f) (fun w => Ret w) (fun e => call (Some e) readSoFar).

Definition asyncReadNow w (f : nat) (bf : option nat) (readSoFar : Z) (readAll : bool)
    (call : option error -> Z -> W -> res W) : res W :=
  '(w, (n, err)) ← file_Read w f bf readSoFar;
  let readSoFar := readSoFar + n in
  bs ← buffer w bf;
  if decide (err = None /\ ~ (readAll = true /\ readSoFar <> zlen bs)) then call None readSoFar w
  else if decide (err = Some ErrWouldBlock) then scheduleRead w f readSoFar call
  else call err readSoFar w.

Definition asyncRead w (f bf : nat) (readAll : bool) (k : AsyncCallback)
    (call : option error -> Z -> W -> res W) : res W :=
  x ← deref (files (objs w)) f;
  let w := set_file w f (set_readReactor x (reactor_init (Some bf) readAll (Some k))) in
  if decide (Dispatched (ioc w) < MaxCallbackDispatch) then
    asyncReadNow w f (Some bf) 0 readAll (fun err n => counted (call err n))
  else scheduleRead w f 0 call.

Definition scheduleWrite w (f : nat) (wroteSoFar : Z) (call : option error -> Z -> W -> res W) : res W :=
  x ← deref (files (objs w)) f;
  if file_closed x then call (Some EOF) 0 w
  else
    let r := writeReactor x in
    arm (set_file w f (set_writeReactor x (mkReactor (r_b r) (r_all r) (r_cb r) wroteSoFar))) (file_slot x)
      WriteEvent (OnWrite f) (fun w => Ret w) (fun e => call (Some e) wroteSoFar).

Definition asyncWriteNow w (f : nat) (bf : option nat) (wroteSoFar : Z) (writeAll : bool)
    (call : option error -> Z -> W -> res W) : res W :=
  '(w, (n, err)) ← file_Write w f bf wroteSoFar;
  let wroteSoFar := wroteSoFar + n in
  bs ← buffer w bf;
  if decide (err = None /\ ~ (writeAll = true /\ wroteSoFar <> zlen bs)) then call None wroteSoFar w
  else if decide (err = Some ErrWouldBlock) then scheduleWrite w f wroteSoFar call
  else call err wroteSoFar w.

Definition asyncWrite w (f bf : nat) (writeAll : bool) (k : AsyncCallback)
    (call : option error -> Z -> W -> res W) : res W :=
  x ← deref (files (objs w)) f;
  let w := set_file w f (set_writeReactor x (reactor_init (Some bf) writeAll (Some k))) in
  if decide (Dispatched (ioc w) < MaxCallbackDispatch) then
    asyncWriteNow w f (Some bf) 0 writeAll (fun err n => counted (call err n))
  else scheduleWrite w f 0 call.

Definition file_Close w (f : nat) : res (W * option error) :=
  x ← deref (files (objs w)) f;
  if file_closed x then Ret (w, Some EOF)
  else
    let w := set_file w f (mkFile (file_slot x) true (readReactor x) (writeReactor x)) in
    '(w, err) ← UnsetReadWrite w (file_slot x);
    match err with
    | Some e => Ret (w, Some e)
    | None =>
        w ← Deregister w (file_slot x);
        s ← slot_of w (file_slot x);
        let '(y, err) := sys_close (sys w) (Fd s) in
        Ret (set_sys w y, err)
    end.

(** The handlers of the reactors; [user] calls the callback that was kept. *)
Context (user : option AsyncCallback -> option error -> Z -> W -> res W).

Definition onRead w (f : nat) (err : option error) : res W :=
  x ← deref (files (objs w)) f;
  w ← Deregister w (file_slot x);
  let r := readReactor x in
  match err with
  | Some e => user (r_cb r) (Some e) (r_soFar r) w
  | None => asyncReadNow w f (r_b r) (r_soFar r) (r_all r) (user (r_cb r))
  end.

Definition onWrite w (f : nat) (err : option error) : res W :=
  x ← deref (files (objs w)) f;
  w ← Deregister w (file_slot x);
  let r := writeReactor x in
  match err with
  | Some e => user (r_cb r) (Some e) (r_soFar r) w
  | None => asyncWriteNow w f (r_b r) (r_soFar r) (r_all r) (user (r_cb r))
  end.

End file_ops.
