(* ===== verification/Timers.v ===== *)
(** Timers: [Timer] of [src/timer.go] over the timerfd of [src/internal/timer_linux.go]. *)

From stdpp Require Import gmap.
From S2P Require Import Prelude Poller NetAddr EventLoop.

Section timer_ops.
Context {K S : Type} `{Epoll K} `{System S}.
Abbreviation W := (world K S).
Implicit Types (w : W).

(** * src/internal/timer_linux.go *)

Definition it_Unset w (i : nat) : res (W * option error) :=
  s ← slot_of w i;
  if has_flag (Events s) PollerReadEvent then
    let '(y, err) := timerfd_settime (sys w) (Fd s) 0 in
    let w := set_sys w y in
    match err with
    | None => polling w (Del (io_poller (ioc w)) i)
    | Some e => Ret (w, Some e)
    end
  else Ret (w, None).

Definition it_Set w (i : nat) (dur : Z) (h : handler) : res (W * option error) :=
  '(w, err) ← it_Unset w i;
  match err with
  | Some e => Ret (w, Some e)
  | None =>
      s ← slot_of w i;
      let '(y, err) := timerfd_settime (sys w) (Fd s) dur in
      let w := set_sys w y in
      match err with
      | None =>
          p ← set_handler (io_poller (ioc w)) i ReadEvent h;
          polling (set_poller w p) (SetRead p i)
      | Some e => Ret (w, Some e)
      end
  end.

Definition it_Close w (i : nat) : res (W * option error) :=
  '(w, _) ← it_Unset w i;
  s ← slot_of w i;
  let '(y, err) := sys_close (sys w) (Fd s) in
  Ret (set_sys w y, err).

(** * src/timer.go *)

Definition NewTimer (i : nat) : Timer := mkTimer i stateReady false.

Definition set_cancelled (x : Timer) (c : bool) : Timer := mkTimer (timer_slot x) (timer_state x) c.
Definition set_timer_state (x : Timer) (st : timerState) : Timer := mkTimer (timer_slot x) st (cancelled x).

(** [call] runs the callback now. *)
Definition ScheduleOnce w (t : nat) (delay : Z) (c : timer_cb) (call : W -> res W) :
    res (W * option error) :=
  x ← deref (timers (objs w)) t;
  if decide (timer_state x = stateReady) then
    let x := set_cancelled x false in
    let w := set_timer w t x in
    if decide (delay <= 0) then w ← call w; Ret (w, None)
    else
      '(w, err) ← it_Set w (timer_slot x) delay (OnTimer t c);
      match err with
      | None =>
          Ret (set_timer (set_pendingTimers w ({[t]} ∪ pendingTimers (ioc w))) t
                 (set_timer_state x stateScheduled), None)
      | Some e => Ret (w, Some e)
      end
  else Ret (w, Some ErrCancelled).

(** The delay is positive: the callback is not called now. *)
Definition ScheduleRepeating w (t : nat) (repeat : Z) (cb : prog) : res (W * option error) :=
  if decide (repeat <= 0) then Ret (w, Some ErrCancelled)
  else ScheduleOnce w t repeat (Repeating repeat cb) (fun _ => Panic).

Definition Scheduled (x : Timer) : bool := bool_decide (timer_state x = stateScheduled).

Definition Timer_Cancel w (t : nat) : res (W * option error) :=
  x ← deref (timers (objs w)) t;
  '(w, err) ← it_Unset w (timer_slot x);
  match err with
  | None => Ret (set_timer w t (set_timer_state (set_cancelled x true) stateReady), None)
  | Some e => Ret (w, Some e)
  end.

Definition Timer_Close w (t : nat) : res (W * option error) :=
  x ← deref (timers (objs w)) t;
  if decide (timer_state x = stateClosed) then Ret (w, None)
  else
    '(w, err) ← it_Close w (timer_slot x);
    match err with
    | None =>
        Ret (set_pendingTimers (set_timer w t (set_timer_state x stateClosed))
               (pendingTimers (ioc w) ∖ {[t]}), None)
    | Some e => Ret (w, Some e)
    end.

(** * Firing *)

(** [run_cb] calls a callback of the user. *)
Context (run_cb : prog -> W -> res W).

(** [ccb] of [ScheduleRepeating], or the callback of [ScheduleOnce]. *)
Definition run_timer_cb w (t : nat) (c : timer_cb) : res W :=
  match c with
  | Once k => run_cb k w
  | Repeating repeat k =>
      w ← run_cb k w;
      x ← deref (timers (objs w)) t;
      if cancelled x then Ret (set_timer w t (set_cancelled x false))
      else '(w, _) ← ScheduleOnce w t repeat c (fun _ => Panic); Ret w
  end.

(** The handler [Set] registers, around the one of [ScheduleOnce]. *)
Definition onTimer w (t : nat) (c : timer_cb) : res W :=
  x ← deref (timers (objs w)) t;
  s ← slot_of w (timer_slot x);
  let w := set_sys w (fst (sys_read (sys w) (Fd s) 8)) in
  let w := set_pendingTimers w (pendingTimers (ioc w) ∖ {[t]}) in
  run_timer_cb (set_timer w t (set_timer_state x stateReady)) t c.
End timer_ops.
