(* ===== verification/Adapter.v ===== *)
(** [AsyncAdapter] of [src/async_adapter.go]: asynchronous reads and writes on an
    [io.ReadWriter] whose descriptor is known. *)

From stdpp Require Import gmap.
From S2P Require Import Prelude Poller NetAddr EventLoop.

Section adapter_ops.
Context {K S : Type} `{Epoll K} `{System S}.
Abbreviation W := (world K S).
Implicit Types (w : W).

(** The adapter [NewAsyncAdapter] hands out. *)
Definition NewAsyncAdapter (i : nat) : AsyncAdapter :=
  mkAdapter i false (reactor_init None false None) (reactor_init None false None).

Definition set_adapter_read (x : AsyncAdapter) (r : reactor) : AsyncAdapter :=
  mkAdapter (adapter_slot x) (adapter_closed x) r (adapter_writeReactor x).
Definition set_adapter_write (x : AsyncAdapter) (r : reactor) : AsyncAdapter :=
  mkAdapter (adapter_slot x) (adapter_closed x) (adapter_readReactor x) r.

Definition adapter_scheduleRead w (a : nat) (readBytes : Z) (call : option error -> Z -> W -> res W) : res W :=
  x ← deref (adapters (objs w)) a;
  if adapter_closed x then call (Some EOF) readBytes w
  else
    let r := adapter_readReactor x in
    arm (set_adapter w a (set_adapter_read x (mkReactor (r_b r) (r_all r) (r_cb r) readBytes))) (adapter_slot x)
      ReadEvent (OnAdapterRead a) (fun w => Ret w) (fun e => call (Some e) readBytes).

(** [AsyncRead] and its [All] form. *)
Definition adapter_asyncRead w (a bf : nat) (readAll : bool) (k : AsyncCallback)
    (call : option error -> Z -> W -> res W) : res W :=
  x ← deref (adapters (objs w)) a;
  let w := set_adapter w a (set_adapter_read x (reactor_init (Some bf) readAll (Some k))) in
  adapter_scheduleRead w a 0 call.

Definition adapter_asyncReadNow w (a : nat) (bf : option nat) (readBytes : Z) (readAll : bool)
    (call : option error -> Z -> W -> res W) : res W :=
  bs ← buffer w bf;
  if decide (0 <= readBytes <= zlen bs) then
    let '(y, (got, err)) := rw_read (sys w) a (zlen bs - readBytes) in
    let w := store (set_sys w y) bf (write_at readBytes got bs) in
    let readBytes := readBytes + zlen got in
    match err with
    | Some e => call (Some e) readBytes w
    | None =>
        if decide (readAll = true /\ readBytes <> zlen bs) then adapter_scheduleRead w a readBytes call
        else call None readBytes w
    end
  else Panic.

Definition adapter_scheduleWrite w (a : nat) (writtenBytes : Z) (call : option error -> Z -> W -> res W) : res W :=
  x ← deref (adapters (objs w)) a;
  if adapter_closed x then call (Some EOF) writtenBytes w
  else
    let r := adapter_writeReactor x in
    arm (set_adapter w a (set_adapter_write x (mkReactor (r_b r) (r_all r) (r_cb r) writtenBytes))) (adapter_slot x)
      WriteEvent (OnAdapterWrite a) (fun w => Ret w) (fun e => call (Some e) writtenBytes).

(** [AsyncWrite] and its [All] form. *)
Definition adapter_asyncWrite w (a bf : nat) (writeAll : bool) (k : AsyncCallback)
    (call : option error -> Z -> W -> res W) : res W :=
  x ← deref (adapters (objs w)) a;
  let w := set_adapter w a (set_adapter_write x (reactor_init (Some bf) writeAll (Some k))) in
  adapter_scheduleWrite w a 0 call.

Definition adapter_asyncWriteNow w (a : nat) (bf : option nat) (writtenBytes : Z) (writeAll : bool)
    (call : option error -> Z -> W -> res W) : res W :=
  bs ← buffer w bf;
  if decide (0 <= writtenBytes <= zlen bs) then
    let '(y, (n, err)) := rw_write (sys w) a (zdrop writtenBytes bs) in
    let w := set_sys w y in
    let writtenBytes := writtenBytes + n in
    match err with
    | Some e => call (Some e) writtenBytes w
    | None =>
        if decide (writeAll = true /\ writtenBytes <> zlen bs) then adapter_scheduleWrite w a writtenBytes call
        else call None writtenBytes w
    end
  else Panic.

Definition adapter_Close w (a : nat) : res (W * option error) :=
  x ← deref (adapters (objs w)) a;
  if adapter_closed x then Ret (w, Some EOF)
  else
    let w := set_adapter w a (mkAdapter (adapter_slot x) true (adapter_readReactor x) (adapter_writeReactor x)) in
    w ← unhook w (adapter_slot x);
    s ← slot_of w (adapter_slot x);
    let '(y, err) := sys_close (sys w) (Fd s) in
    Ret (set_sys w y, err).

(** The handlers of the reactors; [user] calls the callback that was kept. *)
Context (user : option AsyncCallback -> option error -> Z -> W -> res W).

Definition onAdapterRead w (a : nat) (err : option error) : res W :=
  x ← deref (adapters (objs w)) a;
  w ← Deregister w (adapter_slot x);
  let r := adapter_readReactor x in
  match err with
  | Some e => user (r_cb r) (Some e) (r_soFar r) w
  | None => adapter_asyncReadNow w a (r_b r) (r_soFar r) (r_all r) (user (r_cb r))
  end.

Definition onAdapterWrite w (a : nat) (err : option error) : res W :=
  x ← deref (adapters (objs w)) a;
  w ← Deregister w (adapter_slot x);
  let r := adapter_writeReactor x in
  match err with
  | Some e => user (r_cb r) (Some e) (r_soFar r) w
  | None => adapter_asyncWriteNow w a (r_b r) (r_soFar r) (r_all r) (user (r_cb r))
  end.

End adapter_ops.
