(* ===== verification/PacketConn.v ===== *)
(** [packetConn] of [src/packet.go].

    The handlers are closures: what they capture is in the handler itself.  A callback that
    [AsyncReadFrom] or [AsyncWriteTo] wrapped to count it stays wrapped when the operation
    has to wait. *)

From stdpp Require Import gmap.
From S2P Require Import Prelude Poller NetAddr EventLoop.

Section packet_ops.
Context {K S : Type} `{Epoll K} `{System S}.
Abbreviation W := (world K S).
Implicit Types (w : W).
(** [user_read k err n addr] and [user_write k err] call the user's callback. *)
Context (user_read : AsyncReadCallbackPacket -> option error -> Z -> option netAddr -> W -> res W).
Context (user_write : AsyncWriteCallbackPacket -> option error -> W -> res W).

(** * Reading *)

Definition packet_ReadFrom w (c bf : nat) : res (W * (Z * option netAddr * option error)) :=
  x ← deref (packets (objs w)) c;
  s ← slot_of w (packet_slot x);
  bs ← deref (mem w) bf;
  let '(y, r) := sys_recvfrom (sys w) (Fd s) (zlen bs) in
  let w := set_sys w y in
  match r with
  | inr e => Ret (w, (0, None, if decide (e = EAGAIN) then Some ErrWouldBlock else Some e))
  | inl (got, addr) =>
      let w := set_mem w bf (write_at 0 got bs) in
      let from := FromSockaddr addr in
      if decide (zlen got = 0) then Ret (w, (0, from, Some EOF)) else Ret (w, (zlen got, from, None))
  end.

(** [cb] in the code. *)
Definition packet_read_cb (count : bool) (k : AsyncReadCallbackPacket) (err : option error) (n : Z)
    (addr : option netAddr) : W -> res W :=
  maybe_counted count (user_read k err n addr).

Definition packet_scheduleRead w (c bf : nat) (readBytes : Z) (readAll count : bool)
    (k : AsyncReadCallbackPacket) : res W :=
  x ← deref (packets (objs w)) c;
  if packet_closed x then packet_read_cb count k (Some EOF) readBytes None w
  else
    arm w (packet_slot x) ReadEvent (OnPacketRead c bf readBytes readAll count k) (fun w => Ret w)
      (fun e => packet_read_cb count k (Some e) readBytes None).

(** The read is made into the whole of [b], wherever the previous one ended. *)
Definition packet_asyncReadNow w (c bf : nat) (readBytes : Z) (readAll count : bool)
    (k : AsyncReadCallbackPacket) : res W :=
  '(w, (n, addr, err)) ← packet_ReadFrom w c bf;
  let readBytes := readBytes + n in
  bs ← deref (mem w) bf;
  if decide (err = None /\ ~ (readAll = true /\ readBytes <> zlen bs)) then
    packet_read_cb count k err readBytes addr w
  else if decide (err = Some ErrWouldBlock) then packet_scheduleRead w c bf readBytes readAll count k
  else packet_read_cb count k err readBytes addr w.

Definition packet_asyncReadFrom w (c bf : nat) (readAll : bool) (k : AsyncReadCallbackPacket) : res W :=
  if decide (Dispatched (ioc w) < MaxCallbackDispatch) then packet_asyncReadNow w c bf 0 readAll true k
  else packet_scheduleRead w c bf 0 readAll false k.

(** [getReadHandler]. *)
Definition onPacketRead w (c bf : nat) (readBytes : Z) (readAll count : bool) (k : AsyncReadCallbackPacket)
    (err : option error) : res W :=
  x ← deref (packets (objs w)) c;
  w ← Deregister w (packet_slot x);
  match err with
  | Some e => packet_read_cb count k (Some e) readBytes None w
  | None => packet_asyncReadNow w c bf readBytes readAll count k
  end.

(** * Writing *)

Definition packet_WriteTo w (c bf : nat) (to : netAddr) : res (W * option error) :=
  x ← deref (packets (objs w)) c;
  s ← slot_of w (packet_slot x);
  bs ← deref (mem w) bf;
  sa ← ToSockaddr to;
  let '(y, err) := sys_sendto (sys w) (Fd s) bs sa in
  Ret (set_sys w y, if decide (err = Some EAGAIN) then Some ErrWouldBlock else err).

Definition packet_write_cb (count : bool) (k : AsyncWriteCallbackPacket) (err : option error) : W -> res W :=
  maybe_counted count (user_write k err).

Definition packet_scheduleWrite w (c bf : nat) (to : netAddr) (count : bool) (k : AsyncWriteCallbackPacket) :
    res W :=
  x ← deref (packets (objs w)) c;
  if packet_closed x then packet_write_cb count k (Some EOF) w
  else
    arm w (packet_slot x) WriteEvent (OnPacketWrite c bf to count k) (fun w => Ret w)
      (fun e => packet_write_cb count k (Some e)).

Definition packet_asyncWriteToNow w (c bf : nat) (to : netAddr) (count : bool) (k : AsyncWriteCallbackPacket) :
    res W :=
  '(w, err) ← packet_WriteTo w c bf to;
  if decide (err = Some ErrWouldBlock) then packet_scheduleWrite w c bf to count k
  else packet_write_cb count k err w.

Definition packet_AsyncWriteTo w (c bf : nat) (to : netAddr) (k : AsyncWriteCallbackPacket) : res W :=
  if decide (Dispatched (ioc w) < MaxCallbackDispatch) then packet_asyncWriteToNow w c bf to true k
  else packet_scheduleWrite w c bf to false k.

(** [getWriteHandler]. *)
Definition onPacketWrite w (c bf : nat) (to : netAddr) (count : bool) (k : AsyncWriteCallbackPacket)
    (err : option error) : res W :=
  x ← deref (packets (objs w)) c;
  w ← Deregister w (packet_slot x);
  match err with
  | Some e => packet_write_cb count k (Some e) w
  | None => packet_asyncWriteToNow w c bf to count k
  end.

(** * Closing *)

(** Nothing stops a second [Close] from closing the descriptor again. *)
Definition packet_Close w (c : nat) : res (W * option error) :=
  x ← deref (packets (objs w)) c;
  w ← unhook (set_packet w c (mkPacketConn (packet_slot x) true)) (packet_slot x);
  s ← slot_of w (packet_slot x);
  let '(y, err) := sys_close (sys w) (Fd s) in
  Ret (set_sys w y, err).
End packet_ops.
