(* ===== verification/ListenConn.v ===== *)
(** [listener] of [src/listen_conn.go]. *)

From stdpp Require Import gmap.
From S2P Require Import Prelude Poller NetAddr EventLoop.

Section listener_ops.
Context {K S : Type} `{Epoll K} `{System S}.
Abbreviation W := (world K S).
Implicit Types (w : W).

(** The connection that was accepted is its descriptor.  The address of a connection whose
    own address cannot be told is lost together with the descriptor. *)
Definition accept w (l : nat) : res (W * (option Z * option error)) :=
  x ← deref (listeners (objs w)) l;
  s ← slot_of w (listener_slot x);
  let '(y, r) := sys_accept (sys w) (Fd s) in
  match r with
  | inr e =>
      let '(y, _) := sys_close y (-1) in
      Ret (set_sys w y, (None, if decide (e = EAGAIN) then Some ErrWouldBlock else Some e))
  | inl (fd, addr) =>
      let '(y, r) := sys_getsockname y fd in
      match r with
      | inr e => Ret (set_sys w y, (None, Some e))
      | inl _ =>
          let '(y, err) := sys_setnonblock y fd true in
          Ret (set_sys w y, (Some fd, err))
      end
  end.

Definition asyncAccept w (l : nat) (k : AcceptCallback) (call : option error -> option Z -> W -> res W) : res W :=
  x ← deref (listeners (objs w)) l;
  arm w (listener_slot x) ReadEvent (OnAccept l k) (fun w => Ret w) (fun e => call (Some e) None).

Definition AsyncAccept w (l : nat) (k : AcceptCallback) (call : option error -> option Z -> W -> res W) : res W :=
  if decide (MaxCallbackDispatch <= Dispatched (ioc w)) then asyncAccept w l k call
  else
    '(w, (conn, err)) ← accept w l;
    if decide (err = Some ErrWouldBlock) then asyncAccept w l k call else counted (call err conn) w.

(** [handleAsyncAccept]. *)
Definition onAccept w (l : nat) (call : option error -> option Z -> W -> res W) (err : option error) : res W :=
  x ← deref (listeners (objs w)) l;
  w ← Deregister w (listener_slot x);
  match err with
  | Some e => call (Some e) None w
  | None => '(w, (conn, err)) ← accept w l; call err conn w
  end.

Definition listener_Close w (l : nat) : res (W * option error) :=
  x ← deref (listeners (objs w)) l;
  w ← unhook w (listener_slot x);
  s ← slot_of w (listener_slot x);
  let '(y, err) := sys_close (sys w) (Fd s) in
  Ret (set_sys w y, err).
End listener_ops.
