(* ===== verification/UDPPeer.v ===== *)
(** Reading and writing of [UDPPeer] of [src/multicast/peer.go], with the reactors of
    [src/multicast/reactor.go], the counters of [src/multicast/stats.go] and the datagram
    calls of [src/socket.go]. *)

From stdpp Require Import gmap.
From S2P Require Import Prelude Poller NetAddr EventLoop.

Definition ENOBUFS : error := ErrOther 105.

(** What [RecvFrom] reports for a peer that is neither IPv4 nor IPv6. *)
Definition errNotInet : error := ErrOther (-3).

(** * Counters *)

Definition noStats : Stats := mkStats 0 0 0 0.

Definition Stats_Reset (_ : Stats) : Stats := noStats.
Definition AsyncTotalReads (s : Stats) : Z := immediateReads s + scheduledReads s.
Definition AsyncTotalWrites (s : Stats) : Z := immediateWrites s + scheduledWrites s.

Section peer_ops.
Context {K S : Type} `{Epoll K} `{System S}.
Abbreviation W := (world K S).
Implicit Types (w : W).

(** * src/socket.go *)

(** [s.RecvFrom(b, 0)] on the socket with descriptor [fd]. *)
Definition RecvFrom w (fd : Z) (bf : option nat) : res (W * (Z * AddrPort * option error)) :=
  bs ← buffer w bf;
  let '(y, r) := sys_recvfrom (sys w) fd (zlen bs) in
  let w := set_sys w y in
  match r with
  | inr e => Ret (w, (0, noAddrPort, if decide (e = EAGAIN) then Some ErrWouldBlock else Some e))
  | inl (got, addr) =>
      let w := store w bf (write_at 0 got bs) in
      if decide (zlen got = 0) then Ret (w, (0, noAddrPort, Some EOF))
      else
        match addr with
        | Some (SockaddrInet4 a port) => Ret (w, (zlen got, mkAddrPort (AddrFrom4 a) port, None))
        | Some (SockaddrInet6 a port) => Ret (w, (zlen got, mkAddrPort (AddrFrom16 a) port, None))
        | _ => Ret (w, (zlen got, noAddrPort, Some errNotInet))
        end
  end.

(** [s.SendTo(b, 0, peerAddr)]: only IPv4 destinations can be expressed. *)
Definition SendTo w (fd : Z) (bf : option nat) (to : AddrPort) : res (W * (Z * option error)) :=
  bs ← buffer w bf;
  a ← As4 (ap_addr to);
  let '(y, err) := sys_sendto (sys w) fd bs (SockaddrInet4 a (ap_port to)) in
  let w := set_sys w y in
  match err with
  | None => Ret (w, (zlen bs, None))
  | Some e =>
      Ret (w, (0, Some (if decide (e = EAGAIN) then ErrWouldBlock
                        else if decide (e = ENOBUFS) then ErrNoBufferSpaceAvailable else e)))
  end.

(** * src/multicast/peer.go *)

Definition set_stats (x : UDPPeer) (s : Stats) : UDPPeer :=
  mkPeer (peer_slot x) (peer_closed x) (peer_fd x) (read_b x) (read_fn x) (write_b x) (write_addr x)
    (write_fn x) s.
Definition set_read (x : UDPPeer) (b : option nat) (fn : option PeerReadCallback) : UDPPeer :=
  mkPeer (peer_slot x) (peer_closed x) (peer_fd x) b fn (write_b x) (write_addr x) (write_fn x) (stats x).
Definition set_write (x : UDPPeer) (b : option nat) (to : AddrPort) (fn : option AsyncCallback) : UDPPeer :=
  mkPeer (peer_slot x) (peer_closed x) (peer_fd x) (read_b x) (read_fn x) b to fn (stats x).

Definition peer_Read w (p : nat) (bf : option nat) : res (W * (Z * AddrPort * option error)) :=
  x ← deref (peers (objs w)) p; RecvFrom w (peer_fd x) bf.

Definition peer_SetAsyncReadBuffer w (p bf : nat) : res W :=
  x ← deref (peers (objs w)) p; Ret (set_peer w p (set_read x (Some bf) (read_fn x))).

(** [p.stats.async.immediateReads++] and [p.stats.async.scheduledReads++]. *)
Definition count_read w (p : nat) (immediate : bool) : res W :=
  x ← deref (peers (objs w)) p;
  let s := stats x in
  Ret (set_peer w p (set_stats x
    (if immediate then mkStats (immediateReads s + 1) (scheduledReads s) (immediateWrites s) (scheduledWrites s)
     else mkStats (immediateReads s) (scheduledReads s + 1) (immediateWrites s) (scheduledWrites s)))).

Definition peer_scheduleRead w (p : nat) (fn : option error -> Z -> AddrPort -> W -> res W) : res W :=
  x ← deref (peers (objs w)) p;
  if peer_closed x then fn (Some EOF) 0 noAddrPort w
  else
    arm w (peer_slot x) ReadEvent (OnPeerRead p) (fun w => count_read w p false)
      (fun e => fn (Some e) 0 noAddrPort).

Definition peer_asyncReadNow w (p : nat) (bf : option nat) (fn : option error -> Z -> AddrPort -> W -> res W) :
    res W :=
  '(w, (n, addr, err)) ← peer_Read w p bf;
  match err with
  | None => w ← count_read w p true; fn None n addr w
  | Some e => if decide (e = ErrWouldBlock) then peer_scheduleRead w p fn else fn (Some e) 0 addr w
  end.

Definition peer_AsyncRead w (p bf : nat) (k : PeerReadCallback)
    (fn : option error -> Z -> AddrPort -> W -> res W) : res W :=
  x ← deref (peers (objs w)) p;
  let w := set_peer w p (set_read x (Some bf) (Some k)) in
  if decide (Dispatched (ioc w) < MaxCallbackDispatch) then
    peer_asyncReadNow w p (Some bf) (fun err n addr => counted (fn err n addr))
  else peer_scheduleRead w p fn.

Definition peer_Write w (p : nat) (bf : option nat) (to : AddrPort) : res (W * (Z * option error)) :=
  x ← deref (peers (objs w)) p; SendTo w (peer_fd x) bf to.

Definition peer_scheduleWrite w (p : nat) (fn : option error -> Z -> W -> res W) : res W :=
  x ← deref (peers (objs w)) p;
  if peer_closed x then fn (Some EOF) 0 w
  else arm w (peer_slot x) WriteEvent (OnPeerWrite p) (fun w => Ret w) (fun e => fn (Some e) 0).

Definition peer_asyncWriteNow w (p : nat) (bf : option nat) (to : AddrPort)
    (fn : option error -> Z -> W -> res W) : res W :=
  '(w, (n, err)) ← peer_Write w p bf to;
  match err with
  | None => fn None n w
  | Some e =>
      if decide (e = ErrWouldBlock \/ e = ErrNoBufferSpaceAvailable) then peer_scheduleWrite w p fn
      else fn (Some e) 0 w
  end.

Definition peer_AsyncWrite w (p bf : nat) (to : AddrPort) (k : AsyncCallback)
    (fn : option error -> Z -> W -> res W) : res W :=
  x ← deref (peers (objs w)) p;
  let w := set_peer w p (set_write x (Some bf) to (Some k)) in
  if decide (Dispatched (ioc w) < MaxCallbackDispatch) then
    peer_asyncWriteNow w p (Some bf) to (fun err n => counted (fn err n))
  else peer_scheduleWrite w p fn.

(** [p.socket.Close()] closes the descriptor once. *)
Definition peer_Close w (p : nat) : res (W * option error) :=
  x ← deref (peers (objs w)) p;
  if peer_closed x then Ret (w, None)
  else
    let x1 := mkPeer (peer_slot x) true (peer_fd x) (read_b x) (read_fn x) (write_b x) (write_addr x)
                (write_fn x) (stats x) in
    w ← unhook (set_peer w p x1) (peer_slot x);
    if decide (0 <= peer_fd x) then
      let '(y, err) := sys_close (sys w) (peer_fd x) in
      let x2 := mkPeer (peer_slot x) true (-1) (read_b x) (read_fn x) (write_b x) (write_addr x)
                  (write_fn x) (stats x) in
      Ret (set_peer (set_sys w y) p x2, err)
    else Ret (w, None).

(** * src/multicast/reactor.go *)

Context (user_read : option PeerReadCallback -> option error -> Z -> AddrPort -> W -> res W).
Context (user_write : option AsyncCallback -> option error -> Z -> W -> res W).

Definition onPeerRead w (p : nat) (err : option error) : res W :=
  x ← deref (peers (objs w)) p;
  w ← Deregister w (peer_slot x);
  match err with
  | Some e => user_read (read_fn x) (Some e) 0 noAddrPort w
  | None => peer_asyncReadNow w p (read_b x) (user_read (read_fn x))
  end.

Definition onPeerWrite w (p : nat) (err : option error) : res W :=
  x ← deref (peers (objs w)) p;
  w ← Deregister w (peer_slot x);
  match err with
  | Some e => user_write (write_fn x) (Some e) 0 w
  | None => peer_asyncWriteNow w p (write_b x) (write_addr x) (user_write (write_fn x))
  end.
End peer_ops.
