(* ===== verification/RunLoop.v ===== *)
(** Running the user's programs, the handlers and the loop of [src/io.go]. *)

From stdpp Require Import gmap.
From S2P Require Import Prelude Poller NetAddr EventLoop FileIO Timers Adapter PacketConn ListenConn UDPPeer.

Section run_loop.
Context {K S : Type} `{Epoll K} `{System S}.
Abbreviation W := (world K S).
Implicit Types (w : W).

(** * Running the user's code *)

(** A callback of the user goes on the stack while it runs. *)
Definition on_stack (body : W -> res W) : W -> res W := fun w =>
  let d := nesting w + 1 in
  w ← body (mkWorld (ioc w) (objs w) (mem w) (sys w) d
              (called w ++ [(d, Dispatched (ioc w))]));
  Ret (mkWorld (ioc w) (objs w) (mem w) (sys w) (nesting w - 1) (called w)).

Fixpoint run (p : prog) w : res W :=
  match p with
  | Return => Ret w
  | CallAsyncRead f bf readAll k next =>
      w ← asyncRead w f bf readAll k (fun err n => on_stack (run (k err n))); run next w
  | CallAsyncWrite f bf writeAll k next =>
      w ← asyncWrite w f bf writeAll k (fun err n => on_stack (run (k err n))); run next w
  | CallClose f next => '(w, err) ← file_Close w f; run (next err) w
  | CallAdapterRead a bf readAll k next =>
      w ← adapter_asyncRead w a bf readAll k (fun err n => on_stack (run (k err n))); run next w
  | CallAdapterWrite a bf writeAll k next =>
      w ← adapter_asyncWrite w a bf writeAll k (fun err n => on_stack (run (k err n))); run next w
  | CallAdapterClose a next => '(w, err) ← adapter_Close w a; run (next err) w
  | CallReadFrom c bf readAll k next =>
      w ← packet_asyncReadFrom (fun _ err n addr => on_stack (run (k err n addr))) w c bf readAll k; run next w
  | CallWriteTo c bf to k next =>
      w ← packet_AsyncWriteTo (fun _ err => on_stack (run (k err))) w c bf to k; run next w
  | CallPacketClose c next => '(w, err) ← packet_Close w c; run (next err) w
  | CallAccept l k next =>
      w ← AsyncAccept w l k (fun err conn => on_stack (run (k err conn))); run next w
  | CallListenerClose l next => '(w, err) ← listener_Close w l; run (next err) w
  | CallPeerRead p bf k next =>
      w ← peer_AsyncRead w p bf k (fun err n addr => on_stack (run (k err n addr))); run next w
  | CallSetAsyncReadBuffer p bf next => w ← peer_SetAsyncReadBuffer w p bf; run next w
  | CallPeerWrite p bf to k next =>
      w ← peer_AsyncWrite w p bf to k (fun err n => on_stack (run (k err n))); run next w
  | CallPeerClose p next => '(w, err) ← peer_Close w p; run (next err) w
  | CallScheduleOnce t delay k next =>
      '(w, err) ← ScheduleOnce w t delay (Once k) (on_stack (run k)); run (next err) w
  | CallScheduleRepeating t repeat k next =>
      '(w, err) ← ScheduleRepeating w t repeat k; run (next err) w
  | CallTimerCancel t next => '(w, err) ← Timer_Cancel w t; run (next err) w
  | CallTimerClose t next => '(w, err) ← Timer_Close w t; run (next err) w
  | CallPost h next => '(w, err) ← IO_Post w (Posted h); run (next err) w
  end.

(** The callbacks that are kept; nil panics when it is called. *)
Definition user (k : option AsyncCallback) (err : option error) (n : Z) : W -> res W :=
  match k with Some k => on_stack (run (k err n)) | None => fun _ => Panic end.
Definition user_packet_read (k : AsyncReadCallbackPacket) (err : option error) (n : Z) (addr : option netAddr) :
    W -> res W := on_stack (run (k err n addr)).
Definition user_packet_write (k : AsyncWriteCallbackPacket) (err : option error) : W -> res W :=
  on_stack (run (k err)).
Definition user_accept (k : AcceptCallback) (err : option error) (conn : option Z) : W -> res W :=
  on_stack (run (k err conn)).
Definition user_peer_read (k : option PeerReadCallback) (err : option error) (n : Z) (addr : AddrPort) :
    W -> res W :=
  match k with Some k => on_stack (run (k err n addr)) | None => fun _ => Panic end.

Definition exec (h : handler) (err : option error) w : res W :=
  match h with
  | OnRead f => onRead user w f err
  | OnWrite f => onWrite user w f err
  | OnAdapterRead a => onAdapterRead user w a err
  | OnAdapterWrite a => onAdapterWrite user w a err
  | OnPacketRead c bf n all count k => onPacketRead user_packet_read w c bf n all count k err
  | OnPacketWrite c bf to count k => onPacketWrite user_packet_write w c bf to count k err
  | OnAccept l k => onAccept w l (user_accept k) err
  | OnPeerRead p => onPeerRead user_peer_read w p err
  | OnPeerWrite p => onPeerWrite user w p err
  | OnTimer t c => onTimer (fun k => on_stack (run k)) w t c
  | Posted h => on_stack (run h) w
  end.

(** * Cancelling *)

Definition cancelReads w (f : nat) : res W :=
  x ← deref (files (objs w)) f;
  s ← slot_of w (file_slot x);
  if has_flag (Events s) PollerReadEvent then
    '(w, err) ← UnsetRead w (file_slot x);
    let err := match err with None => Some ErrCancelled | Some e => Some e end in
    match readHandler s with Some h => exec h err w | None => Panic end
  else Ret w.

Definition cancelWrites w (f : nat) : res W :=
  x ← deref (files (objs w)) f;
  s ← slot_of w (file_slot x);
  if has_flag (Events s) PollerWriteEvent then
    '(w, err) ← UnsetWrite w (file_slot x);
    let err := match err with None => Some ErrCancelled | Some e => Some e end in
    match writeHandler s with Some h => exec h err w | None => Panic end
  else Ret w.

Definition Cancel w (f : nat) : res W := w ← cancelReads w f; cancelWrites w f.

Definition adapter_cancelReads w (a : nat) : res W :=
  x ← deref (adapters (objs w)) a;
  s ← slot_of w (adapter_slot x);
  if has_flag (Events s) PollerReadEvent then
    '(w, err) ← UnsetRead w (adapter_slot x);
    let err := match err with None => Some ErrCancelled | Some e => Some e end in
    match readHandler s with Some h => exec h err w | None => Panic end
  else Ret w.

Definition adapter_cancelWrites w (a : nat) : res W :=
  x ← deref (adapters (objs w)) a;
  s ← slot_of w (adapter_slot x);
  if has_flag (Events s) PollerWriteEvent then
    '(w, err) ← UnsetWrite w (adapter_slot x);
    let err := match err with None => Some ErrCancelled | Some e => Some e end in
    match writeHandler s with Some h => exec h err w | None => Panic end
  else Ret w.

Definition adapter_Cancel w (a : nat) : res W := w ← adapter_cancelReads w a; adapter_cancelWrites w a.

(** * Running the loop *)

#[export] Instance world_poller : HasPoller W K handler.
Proof. refine {| the_poller w := io_poller (ioc w); with_poller := set_poller |}; done. Defined.

(** An error of the poller that is neither a timeout nor an interrupt is wrapped. *)
Definition poll w (timeoutMs : Z) : res (W * (Z * option error)) :=
  '(w, (n, err)) ← Poll exec w timeoutMs;
  match err with
  | None => Ret (w, (n, None))
  | Some e =>
      if decide (e = EINTR) then
        if decide (0 <= timeoutMs) then Ret (w, (0, Some ErrTimeout)) else Ret (w, (0, None))
      else Ret (w, (0, Some e))
  end.

Definition RunOne w : res (W * option error) := '(w, (_, err)) ← poll w (-1); Ret (w, err).

Definition PollOne w : res (W * (Z * option error)) := poll w 0.

(** A [time.Duration] in nanoseconds. *)
Definition checkTimeout (t : Z) : option error := if decide (t < 1000000) then Some (ErrOther (-1)) else None.

Definition RunOneFor w (dur : Z) : res (W * option error) :=
  match checkTimeout dur with
  | Some e => Ret (w, Some e)
  | None => '(w, (_, err)) ← poll w (Z.quot dur 1000000); Ret (w, err)
  end.

(** [fuel] iterations of the loops, which the code does not bound. *)
Fixpoint Run (fuel : nat) w : res (W * option error) :=
  match fuel with
  | O => NoFuel
  | Datatypes.S fuel =>
      '(w, err) ← RunOne w;
      match err with
      | None | Some ErrTimeout => Run fuel w
      | Some e => Ret (w, Some e)
      end
  end.

Fixpoint RunPending (fuel : nat) w : res (W * option error) :=
  match fuel with
  | O => NoFuel
  | Datatypes.S fuel =>
      if decide (IO_Pending w <= 0) then Ret (w, None)
      else
        '(w, err) ← RunOne w;
        match err with
        | None | Some ErrTimeout => RunPending fuel w
        | Some e => Ret (w, Some e)
        end
  end.

Fixpoint PollAll (fuel : nat) w : res (W * option error) :=
  match fuel with
  | O => NoFuel
  | Datatypes.S fuel =>
      '(w, (_, err)) ← PollOne w;
      match err with None => PollAll fuel w | Some e => Ret (w, Some e) end
  end.

Fixpoint RunWarm_loop (fuel : nat) w (busyCycles t i : Z) : res (W * option error) :=
  match fuel with
  | O => NoFuel
  | Datatypes.S fuel =>
      '(w, (n, err)) ← (if decide (i < busyCycles) then poll w 0 else poll w t);
      match err with
      | None | Some ErrTimeout =>
          RunWarm_loop fuel w busyCycles t (if decide (0 < n) then 0 else i + 1)
      | Some e => Ret (w, Some e)
      end
  end.

Definition RunWarm (fuel : nat) w (busyCycles timeout : Z) : res (W * option error) :=
  if decide (busyCycles <= 0) then Ret (w, Some (ErrOther (-2)))
  else
    match checkTimeout timeout with
    | Some e => Ret (w, Some e)
    | None => RunWarm_loop fuel w busyCycles (Z.quot timeout 1000000) 0
    end.
End run_loop.
