(* ===== verification/LoopInvariant.v ===== *)
(** The invariant of the event loop: every slot belongs to one object, an armed event has a
    handler of that object, and the handler finds what it needs.  The steps the operations
    of the objects are made of keep it. *)

From stdpp Require Import gmap.
From S2P Require Import Prelude Poller PollerSpec NetAddr EventLoop RunLoop.

(** * Objects *)

(** How many objects of each kind there are, and how many buffers. *)
Record shape : Type := mkShape {
  nfiles : nat; nadapters : nat; npackets : nat; nlisteners : nat; npeers : nat; ntimers : nat; nmem : nat
}.

(** The object a slot belongs to. *)
Inductive owner : Type :=
| File (f : nat) | Adapter (a : nat) | Packet (c : nat) | Listener (l : nat) | Peer (p : nat) | Clock (t : nat).

#[export] Instance owner_eq_dec : EqDecision owner.
Proof. solve_decision. Defined.

Definition in_shape (sh : shape) (o : owner) : Prop :=
  match o with
  | File f => (f < nfiles sh)%nat
  | Adapter a => (a < nadapters sh)%nat
  | Packet c => (c < npackets sh)%nat
  | Listener l => (l < nlisteners sh)%nat
  | Peer p => (p < npeers sh)%nat
  | Clock t => (t < ntimers sh)%nat
  end.

Inductive object : Type :=
| AFile (x : file) | AnAdapter (x : AsyncAdapter) | APacket (x : packetConn) | AListener (x : listener)
| APeer (x : UDPPeer) | ATimer (x : Timer).

Definition view (ob : objects) (o : owner) : option object :=
  match o with
  | File f => AFile <$> files ob !! f
  | Adapter a => AnAdapter <$> adapters ob !! a
  | Packet c => APacket <$> packets ob !! c
  | Listener l => AListener <$> listeners ob !! l
  | Peer p => APeer <$> peers ob !! p
  | Clock t => ATimer <$> timers ob !! t
  end.

Definition object_slot (x : object) : nat :=
  match x with
  | AFile x => file_slot x | AnAdapter x => adapter_slot x | APacket x => packet_slot x
  | AListener x => listener_slot x | APeer x => peer_slot x | ATimer x => timer_slot x
  end.

(** A closed object calls back from within instead of waiting. *)
Definition object_closed (x : object) : bool :=
  match x with
  | AFile x => file_closed x | AnAdapter x => adapter_closed x | APacket x => packet_closed x
  | APeer x => peer_closed x | AListener _ | ATimer _ => false
  end.

(** The object [o] becomes [x']; the others are as they were. *)
Definition changes (ob ob' : objects) (o : owner) (x' : object) : Prop :=
  forall o', view ob' o' = if decide (o' = o) then Some x' else view ob o'.

Lemma insert_view {A} (l : list A) (F : A -> object) i j x x' : l !! i = Some x ->
  F <$> <[i := x']> l !! j = if decide (j = i) then Some (F x') else F <$> l !! j.
Proof.
  intros Hi; case_decide as Hj; [subst j; rewrite list_lookup_insert_eq by (by eapply lookup_lt_Some); done |].
  by rewrite list_lookup_insert_ne.
Qed.

Ltac solve_changes :=
  intros Hx o'; destruct o'; cbn [view files adapters packets listeners peers timers];
  try (erewrite insert_view by exact Hx); repeat case_decide; congruence.

Lemma changes_file ob f x x' : files ob !! f = Some x ->
  changes ob (mkObjects (<[f := x']> (files ob)) (adapters ob) (packets ob) (listeners ob) (peers ob) (timers ob))
    (File f) (AFile x').
Proof. solve_changes. Qed.

Lemma changes_adapter ob f x x' : adapters ob !! f = Some x ->
  changes ob (mkObjects (files ob) (<[f := x']> (adapters ob)) (packets ob) (listeners ob) (peers ob) (timers ob))
    (Adapter f) (AnAdapter x').
Proof. solve_changes. Qed.

Lemma changes_packet ob f x x' : packets ob !! f = Some x ->
  changes ob (mkObjects (files ob) (adapters ob) (<[f := x']> (packets ob)) (listeners ob) (peers ob) (timers ob))
    (Packet f) (APacket x').
Proof. solve_changes. Qed.

Lemma changes_peer ob f x x' : peers ob !! f = Some x ->
  changes ob (mkObjects (files ob) (adapters ob) (packets ob) (listeners ob) (<[f := x']> (peers ob)) (timers ob))
    (Peer f) (APeer x').
Proof. solve_changes. Qed.

Lemma changes_timer ob f x x' : timers ob !! f = Some x ->
  changes ob (mkObjects (files ob) (adapters ob) (packets ob) (listeners ob) (peers ob) (<[f := x']> (timers ob)))
    (Clock f) (ATimer x').
Proof. solve_changes. Qed.

Lemma changes_here ob ob' o x' : changes ob ob' o x' -> view ob' o = Some x'.
Proof. intros Hc; by rewrite Hc, decide_True. Qed.

(** * Well-formed programs *)

(** Addresses a packet connection and a peer can send to. *)
Definition sendable (to : netAddr) : Prop := exists sa, ToSockaddr to = Ret sa.
Definition reachable (to : AddrPort) : Prop := exists a, As4 (ap_addr to) = Ret a.

(** References are to objects that exist and destinations have the right kind.  A [quiet]
    program does not post, nor do its callbacks: posted handlers run with the lock held.  A
    [calm] one closes nothing but listeners and timers, and does not ask for a timer that
    is due already. *)
Fixpoint valid (sh : shape) (calm quiet : bool) (p : prog) : Prop :=
  match p with
  | Return => True
  | CallAsyncRead f b _ k next | CallAsyncWrite f b _ k next =>
      in_shape sh (File f) /\ (b < nmem sh)%nat /\ (forall e n, valid sh calm quiet (k e n)) /\
      valid sh calm quiet next
  | CallClose f next => in_shape sh (File f) /\ calm = false /\ forall e, valid sh calm quiet (next e)
  | CallAdapterRead a b _ k next | CallAdapterWrite a b _ k next =>
      in_shape sh (Adapter a) /\ (b < nmem sh)%nat /\ (forall e n, valid sh calm quiet (k e n)) /\
      valid sh calm quiet next
  | CallAdapterClose a next => in_shape sh (Adapter a) /\ calm = false /\ forall e, valid sh calm quiet (next e)
  | CallReadFrom c b _ k next =>
      in_shape sh (Packet c) /\ (b < nmem sh)%nat /\ (forall e n a, valid sh calm quiet (k e n a)) /\
      valid sh calm quiet next
  | CallWriteTo c b to k next =>
      in_shape sh (Packet c) /\ (b < nmem sh)%nat /\ sendable to /\ (forall e, valid sh calm quiet (k e)) /\
      valid sh calm quiet next
  | CallPacketClose c next => in_shape sh (Packet c) /\ calm = false /\ forall e, valid sh calm quiet (next e)
  | CallAccept l k next =>
      in_shape sh (Listener l) /\ (forall e c, valid sh calm quiet (k e c)) /\ valid sh calm quiet next
  | CallListenerClose l next => in_shape sh (Listener l) /\ forall e, valid sh calm quiet (next e)
  | CallPeerRead p b k next =>
      in_shape sh (Peer p) /\ (b < nmem sh)%nat /\ (forall e n a, valid sh calm quiet (k e n a)) /\
      valid sh calm quiet next
  | CallSetAsyncReadBuffer p b next => in_shape sh (Peer p) /\ (b < nmem sh)%nat /\ valid sh calm quiet next
  | CallPeerWrite p b to k next =>
      in_shape sh (Peer p) /\ (b < nmem sh)%nat /\ reachable to /\ (forall e n, valid sh calm quiet (k e n)) /\
      valid sh calm quiet next
  | CallPeerClose p next => in_shape sh (Peer p) /\ calm = false /\ forall e, valid sh calm quiet (next e)
  | CallScheduleOnce t delay k next =>
      in_shape sh (Clock t) /\ (calm = true -> 0 < delay) /\ valid sh calm quiet k /\
      forall e, valid sh calm quiet (next e)
  | CallScheduleRepeating t _ k next =>
      in_shape sh (Clock t) /\ valid sh calm quiet k /\ forall e, valid sh calm quiet (next e)
  | CallTimerCancel t next | CallTimerClose t next =>
      in_shape sh (Clock t) /\ forall e, valid sh calm quiet (next e)
  | CallPost h next => quiet = false /\ valid sh calm true h /\ forall e, valid sh calm quiet (next e)
  end.

Lemma valid_loud sh calm p : valid sh calm true p -> valid sh calm false p.
Proof. induction p; cbn; intuition eauto. Qed.

Lemma valid_false sh calm q p : valid sh calm q p -> valid sh calm false p.
Proof. destruct q; [apply valid_loud | done]. Qed.

Section invariant.
Context {K S : Type} `{Epoll K} `{System S}.
Context (sh : shape) (calm : bool).
Implicit Types (w : world K S) (m : list (list byte)) (o : owner) (x : object).
Abbreviation ok_prog q := (valid sh calm q).

(** * The invariant *)

Definition reactor_ready m (r : reactor) : Prop :=
  exists i bs k, r_b r = Some i /\ m !! i = Some bs /\ 0 <= r_soFar r <= zlen bs /\
    r_cb r = Some k /\ forall e n, ok_prog false (k e n).

Definition peer_read_ready m (x : UDPPeer) : Prop :=
  exists i k, read_b x = Some i /\ (i < length m)%nat /\ read_fn x = Some k /\
    forall e n a, ok_prog false (k e n a).

Definition peer_write_ready m (x : UDPPeer) : Prop :=
  exists i k, write_b x = Some i /\ (i < length m)%nat /\ write_fn x = Some k /\ reachable (write_addr x) /\
    forall e n, ok_prog false (k e n).

Definition timer_cb_ok (c : timer_cb) : Prop :=
  match c with Once k => ok_prog false k | Repeating r k => 0 < r /\ ok_prog false k end.

(** [h] is a handler that [o] registers for [et], and finds what it needs. *)
Definition good m o x (et : EventType) (h : handler) : Prop :=
  match o, x, et, h with
  | File f, AFile x, ReadEvent, OnRead f' => f' = f /\ reactor_ready m (readReactor x)
  | File f, AFile x, WriteEvent, OnWrite f' => f' = f /\ reactor_ready m (writeReactor x)
  | Adapter a, AnAdapter x, ReadEvent, OnAdapterRead a' => a' = a /\ reactor_ready m (adapter_readReactor x)
  | Adapter a, AnAdapter x, WriteEvent, OnAdapterWrite a' => a' = a /\ reactor_ready m (adapter_writeReactor x)
  | Packet c, APacket _, ReadEvent, OnPacketRead c' i _ _ _ k =>
      c' = c /\ (i < length m)%nat /\ forall e n a, ok_prog false (k e n a)
  | Packet c, APacket _, WriteEvent, OnPacketWrite c' i to _ k =>
      c' = c /\ (i < length m)%nat /\ sendable to /\ forall e, ok_prog false (k e)
  | Listener l, AListener _, ReadEvent, OnAccept l' k => l' = l /\ forall e c, ok_prog false (k e c)
  | Peer p, APeer x, ReadEvent, OnPeerRead p' => p' = p /\ peer_read_ready m x
  | Peer p, APeer x, WriteEvent, OnPeerWrite p' => p' = p /\ peer_write_ready m x
  | Clock t, ATimer _, ReadEvent, OnTimer t' c => t' = t /\ timer_cb_ok c
  | _, _, _, _ => False
  end.

Definition ready m o x (s : Slot handler) : Prop :=
  (forall et, has_flag (Events s) (event_flag et) = true -> exists h, handler_of s et = Some h /\ good m o x et h) /\
  (calm = true -> object_closed x = false).

(** Every slot but the waker's has one owner, which is ready for its events. *)
Record parts_ok (p : poller K handler) (ob : objects) m : Prop := {
  wo_poller : poller_ok p;
  wo_shape : forall o, in_shape sh o <-> is_Some (view ob o);
  wo_mem : length m = nmem sh;
  wo_posts : Forall (fun h => exists q, h = Posted q /\ ok_prog true q) (posts p);
  wo_slot : forall o x, view ob o = Some x ->
    object_slot x <> waker p /\ exists s, slots p !! object_slot x = Some s /\ 0 <= Fd s /\ ready m o x s;
  wo_owner : forall i, is_Some (slots p !! i) -> i <> waker p ->
    exists o x, view ob o = Some x /\ object_slot x = i;
  wo_distinct : forall o o' x x', view ob o = Some x -> view ob o' = Some x' ->
    object_slot x = object_slot x' -> o = o'
}.

Definition world_ok w : Prop := parts_ok (io_poller (ioc w)) (objs w) (mem w).

(** * What running some code does to the world *)

(** Nothing has been refused by the kernel. *)
Definition willing w : Prop := refused (kernel (io_poller (ioc w))) = false.

#[export] Instance willing_dec w : Decision (willing w).
Proof. unfold willing; apply _. Defined.

(** The counters are back where they were, the callbacks it called were at most
    [MaxCallbackDispatch] deep by the count of the code, and, in a calm run in which the
    kernel refused nothing, at most [base] more by the count of the stack. *)
Record after (base : Z) w w' : Prop := {
  after_keeps : keeps (io_poller (ioc w)) (io_poller (ioc w'));
  after_dispatched : Dispatched (ioc w') = Dispatched (ioc w);
  after_nesting : nesting w' = nesting w;
  after_called : exists new, called w' = called w ++ new /\
    Forall (fun e => e.2 <= MaxCallbackDispatch /\ (calm = true -> willing w' -> e.1 - e.2 <= base)) new
}.

(** No callback is called. *)
Record still w w' : Prop := {
  still_keeps : keeps (io_poller (ioc w)) (io_poller (ioc w'));
  still_dispatched : Dispatched (ioc w') = Dispatched (ioc w);
  still_nesting : nesting w' = nesting w;
  still_called : called w' = called w
}.

Definition lead w : Z := nesting w - Dispatched (ioc w).

Lemma still_refl w : still w w.
Proof. by split. Qed.

Lemma still_trans w1 w2 w3 : still w1 w2 -> still w2 w3 -> still w1 w3.
Proof. intros [a1 a2 a3 a4] [b1 b2 b3 b4]; split; [by eapply keeps_trans | congruence ..]. Qed.

Lemma still_lead w w' : still w w' -> lead w' = lead w.
Proof. intros [_ H1 H2 _]; unfold lead; congruence. Qed.

Lemma still_after base w w' : still w w' -> after base w w'.
Proof. intros [? ? ? ?]; split; [done .. |]; exists []; by rewrite app_nil_r. Qed.

Lemma keeps_willing w w' : keeps (io_poller (ioc w)) (io_poller (ioc w')) -> willing w' -> willing w.
Proof.
  intros Hk Hw; unfold willing in *; destruct (refused (kernel (io_poller (ioc w)))) eqn:E; [| done].
  by rewrite (keeps_refused _ _ Hk E) in Hw.
Qed.

Lemma after_trans base w1 w2 w3 : after base w1 w2 -> after base w2 w3 -> after base w1 w3.
Proof.
  intros [a1 a2 a3 (n1 & a4 & a5)] [b1 b2 b3 (n2 & b4 & b5)]; split; [by eapply keeps_trans | congruence ..|].
  exists (n1 ++ n2); split; [by rewrite b4, a4, app_assoc |]; apply Forall_app; split; [| done].
  eapply list.Forall_impl; [exact a5 |]; intros e [? Hc]; split; [done |]; intros Ht Hw; by eapply Hc, keeps_willing.
Qed.

Lemma after_lead base w w' : after base w w' -> lead w' = lead w.
Proof. intros [_ H1 H2 _]; unfold lead; congruence. Qed.

(** The depth matters only in a calm run in which nothing was refused. *)
Lemma after_weaken base base' w w' : (calm = true -> willing w -> base <= base') -> after base w w' -> after base' w w'.
Proof.
  intros Hb [Hk ? ? (new & ? & Hn)]; split; [done .. |]; exists new; split; [done |].
  eapply list.Forall_impl; [exact Hn |]; intros e [? Hc]; split; [done | intros Ht Hw].
  specialize (Hc Ht Hw); specialize (Hb Ht (keeps_willing _ _ Hk Hw)); lia.
Qed.

Definition runs w (r : res (world K S)) (base : Z) : Prop :=
  exists w', r = Ret w' /\ world_ok w' /\ after base w w'.

Definition returns {A} w (r : res (world K S * A)) (base : Z) : Prop :=
  exists w' a, r = Ret (w', a) /\ world_ok w' /\ after base w w'.

Lemma runs_weaken base base' w r : (calm = true -> willing w -> base <= base') -> runs w r base -> runs w r base'.
Proof. intros Hb (w' & ? & ? & ?); exists w'; split_and!; [done .. | by eapply after_weaken]. Qed.

Lemma still_runs base w w1 r : still w w1 -> runs w1 r base -> runs w r base.
Proof.
  intros Hs (w' & ? & ? & ?); exists w'; split_and!; [done .. |].
  eapply after_trans; [by apply still_after | done].
Qed.

Lemma still_ends base w w1 : world_ok w1 -> still w w1 -> runs w (Ret w1) base.
Proof. intros; exists w1; split_and!; [done .. | by apply still_after]. Qed.

Lemma still_returns {A} base w w1 (a : A) : world_ok w1 -> still w w1 -> returns w (Ret (w1, a)) base.
Proof. intros; exists w1, a; split_and!; [done .. | by apply still_after]. Qed.

(** * Calling back *)

(** The user may be called: posting is out of the question under the lock, and at most [c]
    callbacks are counted. *)
Record enter (q : bool) (c : Z) w : Prop := {
  enter_ok : world_ok w;
  enter_lck : lck (io_poller (ioc w)) = true -> q = true;
  enter_dispatched : Dispatched (ioc w) <= c
}.

Lemma still_enter q c w w1 : enter q c w -> world_ok w1 -> still w w1 -> enter q c w1.
Proof.
  intros [_ H1 H2] Hok [Hk Hd _ _]; split; [done | by rewrite (keeps_lck _ _ Hk) | by rewrite Hd].
Qed.

Lemma after_enter q c w w1 base : enter q c w -> world_ok w1 -> after base w w1 -> enter q c w1.
Proof.
  intros [_ H1 H2] Hok [Hk Hd _ _]; split; [done | by rewrite (keeps_lck _ _ Hk) | by rewrite Hd].
Qed.

(** A call that goes [d] deeper than it counts. *)
Definition call_ok (q : bool) (d c : Z) (call : world K S -> res (world K S)) : Prop :=
  forall w, enter q c w -> runs w (call w) (lead w + d).

Lemma call_after q d c call w w1 : call_ok q d c call -> enter q c w -> world_ok w1 -> still w w1 ->
  runs w (call w1) (lead w + d).
Proof.
  intros Hc He Hok Hs; eapply still_runs; [done |]; rewrite <-(still_lead _ _ Hs).
  apply Hc; by eapply still_enter.
Qed.

(** Counting the callback brings the two counts together. *)
Lemma counted_ok q d c call : call_ok q (d + 1) c call -> call_ok q d (c - 1) (counted call).
Proof.
  intros Hc w [Hok Hq Hd]; unfold counted; set (w1 := set_dispatched w _).
  destruct (Hc w1) as (w2 & E & Hok2 & Ha); [split; [done | done | unfold w1; cbn; lia] |].
  rewrite E; res_step; eexists; split_and!; [done | exact Hok2 |].
  replace (lead w1 + (d + 1)) with (lead w + d) in Ha by (unfold lead, w1; cbn; lia).
  destruct Ha as [Hk Hd2 Hn Hcall]; split; try done; cbn; rewrite Hd2; cbn; lia.
Qed.

Lemma maybe_counted_ok q c (count : bool) call : call_ok q 1 (c + 1) call ->
  call_ok q 1 c (maybe_counted count call).
Proof.
  intros Hc w He; destruct count; cbn [maybe_counted].
  - eapply runs_weaken; [| apply (counted_ok q 0 (c + 1)); [done |]].
    + lia.
    + by replace (c + 1 - 1) with c by lia.
  - apply Hc; destruct He; split; [done | done | lia].
Qed.

Lemma on_stack_ok q body : (forall w, enter q MaxCallbackDispatch w -> runs w (body w) (lead w)) ->
  call_ok q 1 MaxCallbackDispatch (on_stack body).
Proof.
  intros Hb w [Hok Hq Hd]; unfold on_stack; set (w1 := mkWorld _ _ _ _ _ _).
  destruct (Hb w1 ltac:(by split)) as (w2 & -> & Hok2 & [Hk Hd2 Hn (new & Hc & Hf)]); res_step.
  eexists; split_and!; [done | exact Hok2 |].
  assert (lead w1 = lead w + 1) as Hl by (unfold lead, w1; cbn; lia).
  split; [exact Hk | exact Hd2 | cbn; rewrite Hn; cbn; lia |].
  exists ((nesting w + 1, Dispatched (ioc w)) :: new); split; [cbn; rewrite Hc; unfold w1; cbn; by rewrite <-app_assoc |].
  constructor; [split; [exact Hd | cbn; unfold lead; lia] |].
  rewrite Hl in Hf; exact Hf.
Qed.

(** * Stepping one object *)

(** An object changes, and with it its slot. *)
Lemma step_ok p ob m p' ob' o x x' s' : parts_ok p ob m -> view ob o = Some x -> changes ob ob' o x' ->
  object_slot x' = object_slot x -> poller_ok p' -> waker p' = waker p -> posts p' = posts p ->
  slots p' = <[object_slot x := s']> (slots p) ->
  (forall s, slots p !! object_slot x = Some s -> Fd s' = Fd s) -> ready m o x' s' -> parts_ok p' ob' m.
Proof.
  intros Hok Hx Hc Hsl Hp' Hw Hpo Hs Hfd Hr; destruct (wo_slot _ _ _ Hok o x Hx) as (Hiw & s & Hi & Hfd0 & _).
  assert (forall o1 x1, view ob' o1 = Some x1 -> exists x0, view ob o1 = Some x0 /\ object_slot x1 = object_slot x0)
    as Hback by (intros o1 x1; rewrite Hc; case_decide; [intros [= <-]; subst; by exists x | by exists x1]).
  split; [done | | apply Hok | rewrite Hpo; apply Hok | | |].
  - intros o1; rewrite (wo_shape _ _ _ Hok o1), Hc; case_decide; [subst | done]; split; [by eexists | by exists x].
  - intros o1 x1 Hx1; rewrite Hw, Hs; destruct (decide (o1 = o)) as [-> | Hne].
    + rewrite (changes_here _ _ _ _ Hc) in Hx1; injection Hx1 as <-; rewrite Hsl; split; [done |].
      exists s'; rewrite list_lookup_insert_eq by (by eapply lookup_lt_Some); by rewrite (Hfd s).
    + rewrite Hc, decide_False in Hx1 by done; destruct (wo_slot _ _ _ Hok o1 x1 Hx1) as (? & s1 & ? & ?).
      split; [done |]; exists s1; rewrite list_lookup_insert_ne; [done |].
      intros E; by apply Hne, (wo_distinct _ _ _ Hok o1 o x1 x).
  - intros i Hi' Hne; rewrite Hw in Hne; destruct (wo_owner _ _ _ Hok i) as (o1 & x1 & Hx1 & <-); [| done |].
    + rewrite Hs in Hi'; apply lookup_lt_is_Some in Hi'; rewrite length_insert in Hi'; by apply lookup_lt_is_Some.
    + destruct (decide (o1 = o)) as [-> | Hno].
      * exists o, x'; rewrite Hx in Hx1; injection Hx1 as <-; split; [by eapply changes_here | done].
      * exists o1, x1; by rewrite Hc, decide_False.
  - intros o1 o2 x1 x2 (y1 & H1 & E1)%Hback (y2 & H2 & E2)%Hback E; apply (wo_distinct _ _ _ Hok o1 o2 y1 y2 H1 H2).
    congruence.
Qed.

Lemma object_here w o : world_ok w -> in_shape sh o -> exists x, view (objs w) o = Some x.
Proof. intros Hok Ho; by apply (wo_shape _ _ _ Hok). Qed.

Lemma slot_here w o x : world_ok w -> view (objs w) o = Some x ->
  exists s, slots (io_poller (ioc w)) !! object_slot x = Some s /\ object_slot x <> waker (io_poller (ioc w)) /\
    0 <= Fd s /\ ready (mem w) o x s.
Proof. intros Hok Hx; destruct (wo_slot _ _ _ Hok o x Hx) as (? & s & ? & ? & ?); by exists s. Qed.

(** Only the object changes; its handlers still find what they need. *)
Lemma update_ok w ob' o x x' : world_ok w -> view (objs w) o = Some x -> changes (objs w) ob' o x' ->
  object_slot x' = object_slot x -> (calm = true -> object_closed x = false -> object_closed x' = false) ->
  (forall et h, good (mem w) o x et h -> good (mem w) o x' et h) ->
  world_ok (set_objs w ob') /\ still w (set_objs w ob').
Proof.
  intros Hok Hx Hc Hsl Hcl Hg; split; [| by split]; destruct (slot_here w o x Hok Hx) as (s & Hs & _ & _ & H1 & H2).
  eapply (step_ok _ _ _ _ _ o x x' s Hok Hx Hc Hsl); try done; [apply Hok | by rewrite list_insert_id | |].
  - intros s1 Hs1; rewrite Hs in Hs1; by injection Hs1 as <-.
  - split; [| auto]; intros et Hf; destruct (H1 et Hf) as (h & ? & ?); exists h; auto.
Qed.

(** * Steps that leave the objects alone *)

(** The poller and the objects are the same; the buffers have kept their lengths. *)
Record touches w w' : Prop := {
  t_poller : io_poller (ioc w') = io_poller (ioc w);
  t_objs : objs w' = objs w;
  t_length : length (mem w') = length (mem w);
  t_mem : forall i bs, mem w !! i = Some bs -> exists bs', mem w' !! i = Some bs' /\ zlen bs' = zlen bs;
  t_dispatched : Dispatched (ioc w') = Dispatched (ioc w);
  t_nesting : nesting w' = nesting w;
  t_called : called w' = called w
}.

Lemma touches_refl w : touches w w.
Proof. split; try done; intros i bs Hi; by exists bs. Qed.

Lemma touches_sys w y : touches w (set_sys w y).
Proof. split; try done; intros i bs Hi; by exists bs. Qed.

Lemma touches_trans w1 w2 w3 : touches w1 w2 -> touches w2 w3 -> touches w1 w3.
Proof.
  intros [] []; split; try congruence; intros i bs Hi.
  destruct (t_mem0 i bs Hi) as (bs1 & H1 & E1), (t_mem1 i bs1 H1) as (bs2 & H2 & E2); exists bs2; split; [done | lia].
Qed.

Lemma touches_mem w i bs bs' : mem w !! i = Some bs -> length bs' = length bs -> touches w (set_mem w i bs').
Proof.
  intros Hi Hl; split; try done; cbn; [by rewrite length_insert |].
  intros j cs Hj; destruct (decide (j = i)) as [-> |]; [| exists cs; by rewrite list_lookup_insert_ne].
  rewrite Hi in Hj; injection Hj as <-; exists bs'; rewrite list_lookup_insert_eq by (by eapply lookup_lt_Some).
  split; [done | by unfold zlen; rewrite Hl].
Qed.

Lemma touches_reactor w w' r : touches w w' -> reactor_ready (mem w) r -> reactor_ready (mem w') r.
Proof.
  intros Ht (i & bs & k & Hb & Hi & Hn & Hk & Hv); destruct (t_mem _ _ Ht i bs Hi) as (bs' & Hi' & Hl).
  exists i, bs', k; by rewrite Hl.
Qed.

Lemma touches_good w w' o x et h : touches w w' -> good (mem w) o x et h -> good (mem w') o x et h.
Proof.
  intros Ht; pose proof (t_length _ _ Ht) as Hl; unfold good, peer_read_ready, peer_write_ready.
  destruct o, x, et; try done; destruct h; try done; rewrite ?Hl; try done;
    intros [? ?]; (split; [done |]); by eapply touches_reactor.
Qed.

Lemma touches_still w w' : touches w w' -> still w w'.
Proof. intros []; split; try done; by rewrite t_poller0. Qed.

Lemma touches_ok w w' : touches w w' -> world_ok w -> world_ok w'.
Proof.
  intros Ht Hok; pose proof Ht as [Hp Ho Hl _ _ _ _]; unfold world_ok; rewrite Hp, Ho; destruct Hok; split; try done.
  - by rewrite Hl.
  - intros o x Hx; destruct (wo_slot0 o x Hx) as (? & s & ? & ? & H1 & H2); split; [done |].
    exists s; split_and!; [done .. |]; split; [| done]; intros et Hf; destruct (H1 et Hf) as (h & ? & ?).
    exists h; split; [done | by eapply touches_good].
Qed.

Lemma Register_ok w o x : world_ok w -> view (objs w) o = Some x ->
  exists w', Register w (object_slot x) = Ret w' /\ touches w w'.
Proof.
  intros Hok Hx; destruct (slot_here w o x Hok Hx) as (s & Hs & _ & Hfd & _).
  unfold Register, slot_of, deref; rewrite Hs; res_step.
  case_decide; [| rewrite decide_False by lia]; eexists; (split; [done |]); split; try done;
    intros i bs Hi; by exists bs.
Qed.

Lemma Deregister_ok w o x : world_ok w -> view (objs w) o = Some x ->
  exists w', Deregister w (object_slot x) = Ret w' /\ touches w w'.
Proof.
  intros Hok Hx; destruct (slot_here w o x Hok Hx) as (s & Hs & _ & Hfd & _).
  unfold Deregister, slot_of, deref; rewrite Hs; res_step.
  case_decide; [| rewrite decide_False by lia]; eexists; (split; [done |]); split; try done;
    intros i bs Hi; by exists bs.
Qed.

(** * Arming and disarming *)

Lemma changes_id ob o x : view ob o = Some x -> changes ob ob o x.
Proof. intros Hx o'; by case_decide; subst. Qed.

(** [slot.Set(et, h)] and then [SetRead] or [SetWrite]: the event counts as armed even if the
    kernel refuses to watch it. *)
Lemma set_ok w o x et h : world_ok w -> view (objs w) o = Some x -> good (mem w) o x et h ->
  exists p p' err, set_handler (io_poller (ioc w)) (object_slot x) et h = Ret p /\
    setRW p (object_slot x) (event_flag et) = Ret (p', err) /\
    world_ok (set_poller w p') /\ still w (set_poller w p') /\ (willing (set_poller w p') -> err = None).
Proof.
  intros Hok Hx Hg; destruct (slot_here w o x Hok Hx) as (s & Hi & Hw & _ & Hr & Hcl).
  pose proof (wo_poller _ _ _ Hok) as Hp; pose proof (slot_mask _ _ s Hp Hi) as Hv.
  destruct (set_handler_ok _ _ s et h Hp Hi) as (E & Hp1 & Hk1).
  destruct (setRW_ok _ (object_slot x) (Slot_Set s et h) et Hp1) as (k' & d & err & E2 & Hp2 & Hk2 & He);
    [apply list_lookup_insert_eq; by eapply lookup_lt_Some | done |].
  eexists _, _, err; split_and!; [exact E | exact E2 | | split; try done; by eapply keeps_trans | exact He].
  eapply (step_ok _ _ _ _ _ o x x (set_events (Slot_Set s et h) (set_mask (Events (Slot_Set s et h)) et)) Hok Hx
    (changes_id _ _ _ Hx)); try done.
  - apply list_insert_insert_eq.
  - intros s1 Hs1; rewrite Hi in Hs1; injection Hs1 as <-; by destruct et.
  - assert (Events (Slot_Set s et h) = Events s) as -> by (by destruct et); split; [| done].
    intros et' Hf; destruct (decide (et' = et)) as [-> | Hne]; [exists h; by destruct et |].
    destruct (Hr et') as (h' & Hh & ?); [| exists h'; split; [destruct et, et'; done | done]].
    cbn [Events set_events] in Hf; unfold set_mask in Hf; by rewrite (proj1 (mask_other _ et et' Hv ltac:(congruence))) in Hf.
Qed.

Lemma arm_ok q d c w o x et h armed fail base : enter q c w -> view (objs w) o = Some x -> good (mem w) o x et h ->
  (forall w1, world_ok w1 -> objs w1 = objs w -> exists w2 x2, armed w1 = Ret w2 /\ world_ok w2 /\ still w1 w2 /\
     view (objs w2) o = Some x2 /\ object_slot x2 = object_slot x) ->
  (forall e, call_ok q d c (fail e)) -> runs w (arm w (object_slot x) et h armed fail) base.
Proof.
  intros He Hx Hg Ha Hf; pose proof (enter_ok _ _ _ He) as Hok.
  destruct (set_ok w o x et h Hok Hx Hg) as (p & p' & err & E1 & E2 & Hok1 & Hs1 & Herr).
  unfold arm, IO_SetRead, IO_SetWrite, SetRead, SetWrite, polling; rewrite E1; res_step.
  cbn [io_poller ioc set_poller set_ioc].
  assert (runs w (match err with
    | Some e => fail e (set_poller w p')
    | None => w0 ← armed (set_poller w p'); Register w0 (object_slot x) end) base) as Hr.
  { destruct err as [e |].
    - eapply still_runs; [exact Hs1 |]; eapply runs_weaken; [| apply Hf; by eapply still_enter].
      intros _ Hw; by specialize (Herr Hw).
    - destruct (Ha (set_poller w p') Hok1 eq_refl) as (w2 & x2 & E3 & Hok2 & Hs2 & Hx2 & Hsl).
      destruct (Register_ok w2 o x2 Hok2 Hx2) as (w3 & E4 & Ht); rewrite Hsl in E4.
      rewrite E3; res_step; rewrite E4; apply still_ends; [by eapply touches_ok |].
      eapply still_trans; [exact Hs1 | eapply still_trans; [exact Hs2 | by apply touches_still]]. }
  destruct et; cbn in E2; rewrite E2; exact Hr.
Qed.

(** Nothing to record. *)
Lemma arm_plain q d c w o x et h fail base : enter q c w -> view (objs w) o = Some x -> good (mem w) o x et h ->
  (forall e, call_ok q d c (fail e)) -> runs w (arm w (object_slot x) et h (fun w => Ret w) fail) base.
Proof.
  intros He Hx Hg Hf; eapply arm_ok; [done .. | | done].
  intros w1 Hok1 Ho; exists w1, x; split_and!; try done; by rewrite Ho.
Qed.

(** The events of an object are dropped, all of them if nothing is refused. *)
Lemma Unset_ok w o x : world_ok w -> view (objs w) o = Some x ->
  exists w' err, UnsetReadWrite w (object_slot x) = Ret (w', err) /\ world_ok w' /\ still w w' /\ objs w' = objs w /\
    mem w' = mem w.
Proof.
  intros Hok Hx; destruct (slot_here w o x Hok Hx) as (s & Hi & Hw & _ & Hr & Hcl).
  pose proof (slot_mask _ _ s (wo_poller _ _ _ Hok) Hi) as Hv.
  destruct (Del_ok _ _ s (wo_poller _ _ _ Hok) Hi Hw) as (e' & He' & (k' & d & err & E & Hp & Hk & _) & _).
  unfold UnsetReadWrite, polling; rewrite E; res_step; eexists _, err; split_and!; try done.
  eapply (step_ok _ _ _ _ _ o x x (set_events s e') Hok Hx (changes_id _ _ _ Hx)); try done.
  - intros s1 Hs1; rewrite Hi in Hs1; by injection Hs1 as <-.
  - split; [| done]; intros et Hf; apply (Hr et); by eapply del_some.
Qed.

Lemma unhook_ok w o x : world_ok w -> view (objs w) o = Some x ->
  exists w', unhook w (object_slot x) = Ret w' /\ world_ok w' /\ still w w' /\ objs w' = objs w.
Proof.
  intros Hok Hx; unfold unhook; destruct (Unset_ok w o x Hok Hx) as (w1 & err & -> & Hok1 & Hs1 & Ho1 & _); res_step.
  destruct (Deregister_ok w1 o x) as (w2 & -> & Ht); [done | by rewrite Ho1 |].
  exists w2; split_and!; [done | by eapply touches_ok | eapply still_trans; [done | by apply touches_still] |].
  by rewrite (t_objs _ _ Ht).
Qed.

(** An event is disarmed; its handler can be called. *)
Lemma disarm_ok w i s et : world_ok w -> slots (io_poller (ioc w)) !! i = Some s ->
  i <> waker (io_poller (ioc w)) -> has_flag (Events s) (event_flag et) = true ->
  exists p' err h o x, delRW (io_poller (ioc w)) i (event_flag et) = Ret (p', err) /\ handler_of s et = Some h /\
    world_ok (set_poller w p') /\ still w (set_poller w p') /\ view (objs w) o = Some x /\ good (mem w) o x et h.
Proof.
  intros Hok Hs Hw Hf; destruct (wo_owner _ _ _ Hok i (mk_is_Some _ _ Hs) Hw) as (o & x & Hx & <-).
  destruct (slot_here w o x Hok Hx) as (s' & Hs' & _ & _ & Hr & Hcl); rewrite Hs in Hs'; injection Hs' as <-.
  pose proof (slot_mask _ _ s (wo_poller _ _ _ Hok) Hs) as Hv; destruct (Hr et Hf) as (h & Hh & Hg).
  destruct (delRW_ok _ _ s et (wo_poller _ _ _ Hok) Hs Hw) as (k' & d & err & E & Hp & Hk & _).
  eexists _, err, h, o, x; split_and!; [exact E | exact Hh | | by split | done | exact Hg].
  eapply (step_ok _ _ _ _ _ o x x (set_events s (del_mask (Events s) et)) Hok Hx (changes_id _ _ _ Hx)); try done.
  - intros s1 Hs1; rewrite Hs in Hs1; by injection Hs1 as <-.
  - split; [| done]; intros et' Hf'; apply (Hr et'); revert Hf'; clear -Hv; by masks.
Qed.
End invariant.
