(* ===== verification/FileIOSpec.v ===== *)
(** The operations of files and adapters keep the invariant of the event loop. *)

From stdpp Require Import gmap.
From S2P Require Import Prelude Poller PollerSpec NetAddr EventLoop FileIO Adapter RunLoop LoopInvariant.

Section files_ok.
Context {K S : Type} `{Epoll K} `{System S}.
Context (sh : shape) (calm : bool).
Implicit Types (w : world K S).
Abbreviation W := (world K S).
Abbreviation ok_prog q := (valid sh calm q).
Abbreviation world_ok := (world_ok sh calm).
Abbreviation enter := (enter sh calm).
Abbreviation runs := (runs sh calm).
Abbreviation returns := (returns sh calm).
Abbreviation call_ok := (call_ok sh calm).
Abbreviation reactor_ready := (reactor_ready sh calm).
Abbreviation good := (good sh calm).

(** * Objects in general *)

Lemma closed_wild w o x : world_ok w -> view (objs w) o = Some x -> object_closed x = true -> calm = false.
Proof.
  intros Hok Hx Hc; destruct (slot_here sh calm w o x Hok Hx) as (s & _ & _ & _ & _ & Hcl).
  destruct calm; [by rewrite Hcl in Hc | done].
Qed.

(** A closed object calls back at once, however deep. *)
Lemma closed_call q d c call w w1 o x base : call_ok q d c call -> enter q c w -> world_ok w1 -> still w w1 ->
  view (objs w1) o = Some x -> object_closed x = true -> runs w (call w1) base.
Proof.
  intros Hc He Hok Hs Hx Hcl; eapply runs_weaken; [| by eapply call_after].
  intros Ht; pose proof (closed_wild w1 o x Hok Hx Hcl); congruence.
Qed.

(** * Transfers *)

(** [n] bytes more of a buffer of [bs], from [off]. *)
Record moves w w' (bs : list byte) (off n : Z) : Prop := {
  m_touches : touches w w';
  m_count : 0 <= n /\ off + n <= zlen bs
}.

Lemma moves_none w y bs off : off <= zlen bs -> moves w (set_sys w y) bs off 0.
Proof. intros; split; [apply touches_sys | lia]. Qed.

Lemma moves_in w y i bs off got : mem w !! i = Some bs -> 0 <= off -> off + zlen got <= zlen bs ->
  moves w (store (set_sys w y) (Some i) (write_at off got bs)) bs off (zlen got).
Proof.
  intros Hi Ho Hg; split; [| llia]; eapply touches_trans; [apply (touches_sys w y) |].
  apply (touches_mem (set_sys w y) i bs); [done | apply length_write_at; lia].
Qed.

Definition at_offset (r : reactor) (n : Z) : reactor := mkReactor (r_b r) (r_all r) (r_cb r) n.

(** What the reactor needs still holds after a transfer, at the new offset. *)
Lemma moves_ready w w' i bs r off n : mem w !! i = Some bs -> r_b r = Some i -> 0 <= off ->
  reactor_ready (mem w) (at_offset r off) -> moves w w' bs off n ->
  (exists bs', buffer w' (Some i) = Ret bs') /\ reactor_ready (mem w') (at_offset r (off + n)).
Proof.
  intros Hi Hr Hoff (j & cs & k & Hb & Hj & _ & Hk & Hv) [Ht Hn].
  destruct (t_mem _ _ Ht i bs Hi) as (bs' & Hi' & Hl).
  split; [exists bs'; unfold buffer, deref; by rewrite Hi' |].
  exists i, bs', k; split_and!; try done; cbn [r_soFar at_offset]; lia.
Qed.

(** A reactor just initialised. *)
Lemma init_ready w i all k q : world_ok w -> (i < nmem sh)%nat -> (forall e n, ok_prog q (k e n)) ->
  reactor_ready (mem w) (reactor_init (Some i) all (Some k)).
Proof.
  intros Hok Hi Hk; rewrite <-(wo_mem _ _ _ _ _ Hok) in Hi; apply lookup_lt_is_Some in Hi as [bs Hbs].
  exists i, bs, k; split_and!; try done; cbn; [lia | intros; by eapply valid_false].
Qed.

(** * Files *)

Lemma file_here w f : world_ok w -> in_shape sh (File f) -> exists x, files (objs w) !! f = Some x.
Proof. intros Hok Hf; destruct (object_here sh calm w _ Hok Hf) as [y (x & Hx & _)%fmap_Some]; by exists x. Qed.

Lemma file_view w f x : files (objs w) !! f = Some x -> view (objs w) (File f) = Some (AFile x).
Proof. by cbn; intros ->. Qed.

Lemma file_update w f x x' : world_ok w -> files (objs w) !! f = Some x -> file_slot x' = file_slot x ->
  (calm = true -> file_closed x = false -> file_closed x' = false) ->
  (forall et h, good (mem w) (File f) (AFile x) et h -> good (mem w) (File f) (AFile x') et h) ->
  world_ok (set_file w f x') /\ still w (set_file w f x') /\ files (objs (set_file w f x')) !! f = Some x'.
Proof.
  intros Hok Hx Hs Hc Hg.
  destruct (update_ok sh calm w _ _ _ _ Hok (file_view _ _ _ Hx) (changes_file _ _ _ x' Hx) Hs Hc Hg) as [? ?].
  split_and!; [done .. |]; apply list_lookup_insert_eq; by eapply lookup_lt_Some.
Qed.

Lemma file_read_update w f x r : world_ok w -> files (objs w) !! f = Some x -> reactor_ready (mem w) r ->
  let w' := set_file w f (set_readReactor x r) in
  world_ok w' /\ still w w' /\ files (objs w') !! f = Some (set_readReactor x r).
Proof. intros Hok Hx Hr; apply (file_update w f x); try done; intros [] []; cbn; tauto. Qed.

Lemma file_write_update w f x r : world_ok w -> files (objs w) !! f = Some x -> reactor_ready (mem w) r ->
  let w' := set_file w f (set_writeReactor x r) in
  world_ok w' /\ still w w' /\ files (objs w') !! f = Some (set_writeReactor x r).
Proof. intros Hok Hx Hr; apply (file_update w f x); try done; intros [] []; cbn; tauto. Qed.

Lemma scheduleRead_ok q d c w f x n call base : enter q c w -> files (objs w) !! f = Some x ->
  reactor_ready (mem w) (at_offset (readReactor x) n) -> (forall e n, call_ok q d c (call e n)) ->
  runs w (scheduleRead w f n call) base.
Proof.
  intros He Hx Hr Hc; pose proof (enter_ok _ _ _ _ _ He) as Hok; unfold scheduleRead, deref; rewrite Hx; res_step.
  destruct (file_closed x) eqn:Ec; [eapply closed_call; by eauto using still_refl, file_view |].
  destruct (file_read_update w f x _ Hok Hx Hr) as (Hok1 & Hs1 & Hx1); eapply still_runs; [exact Hs1 |].
  eapply (arm_plain sh calm q d c _ (File f) (AFile _) ReadEvent (OnRead f) _ _ (still_enter sh calm q c _ _ He Hok1 Hs1) (file_view _ _ _ Hx1));
    [by split | intros; apply Hc].
Qed.

Lemma scheduleWrite_ok q d c w f x n call base : enter q c w -> files (objs w) !! f = Some x ->
  reactor_ready (mem w) (at_offset (writeReactor x) n) -> (forall e n, call_ok q d c (call e n)) ->
  runs w (scheduleWrite w f n call) base.
Proof.
  intros He Hx Hr Hc; pose proof (enter_ok _ _ _ _ _ He) as Hok; unfold scheduleWrite, deref; rewrite Hx; res_step.
  destruct (file_closed x) eqn:Ec; [eapply closed_call; by eauto using still_refl, file_view |].
  destruct (file_write_update w f x _ Hok Hx Hr) as (Hok1 & Hs1 & Hx1); eapply still_runs; [exact Hs1 |].
  eapply (arm_plain sh calm q d c _ (File f) (AFile _) WriteEvent (OnWrite f) _ _ (still_enter sh calm q c _ _ He Hok1 Hs1) (file_view _ _ _ Hx1));
    [by split | intros; apply Hc].
Qed.

Lemma file_Read_ok w f x i bs off : world_ok w -> files (objs w) !! f = Some x -> mem w !! i = Some bs ->
  0 <= off <= zlen bs ->
  exists w' n err, file_Read w f (Some i) off = Ret (w', (n, err)) /\ moves w w' bs off n.
Proof.
  intros Hok Hx Hi Ho; destruct (slot_here sh calm w _ _ Hok (file_view _ _ _ Hx)) as (s & Hs & _); cbn in Hs.
  unfold file_Read, slot_of, buffer, deref; rewrite Hx; res_step; rewrite Hs; res_step; rewrite Hi; res_step.
  rewrite decide_True by done; destruct (sys_read _ _ _) as [y [got | e]] eqn:Er.
  - assert (zlen got <= zlen bs - off) as Hg by (eapply read_count; [| exact Er]; lia).
    pose proof (moves_in w y i bs off got Hi (proj1 Ho) ltac:(lia)) as Hm.
    case_decide as Hz; [rewrite Hz in Hm |]; by eexists _, _, _.
  - case_decide; eexists _, _, _; (split; [done |]); apply moves_none; lia.
Qed.

Lemma file_Write_ok w f x i bs off : world_ok w -> files (objs w) !! f = Some x -> mem w !! i = Some bs ->
  0 <= off <= zlen bs ->
  exists w' n err, file_Write w f (Some i) off = Ret (w', (n, err)) /\ moves w w' bs off n.
Proof.
  intros Hok Hx Hi Ho; destruct (slot_here sh calm w _ _ Hok (file_view _ _ _ Hx)) as (s & Hs & _); cbn in Hs.
  unfold file_Write, slot_of, buffer, deref; rewrite Hx; res_step; rewrite Hs; res_step; rewrite Hi; res_step.
  rewrite decide_True by done; destruct (sys_write _ _ _) as [y [n | e]] eqn:Er.
  - destruct (write_count _ _ _ _ _ Er) as [Hn0 Hn]; assert (zlen (zdrop off bs) = zlen bs - off) as Hz by llia.
    case_decide; [| rewrite decide_False by lia]; eexists _, _, _; (split; [done |]);
      (split; [apply touches_sys | lia]).
  - case_decide; eexists _, _, _; (split; [done |]); apply moves_none; lia.
Qed.

Lemma asyncReadNow_ok q d c w f x i n all call : enter q c w -> files (objs w) !! f = Some x ->
  r_b (readReactor x) = Some i -> reactor_ready (mem w) (at_offset (readReactor x) n) ->
  (forall e n, call_ok q d c (call e n)) -> runs w (asyncReadNow w f (Some i) n all call) (lead w + d).
Proof.
  intros He Hx Hb Hr Hc; pose proof (enter_ok _ _ _ _ _ He) as Hok.
  pose proof Hr as (j & bs & k & Hb' & Hi & Hn & _); cbn in Hb', Hn; rewrite Hb in Hb'; injection Hb' as <-.
  destruct (file_Read_ok w f x i bs n Hok Hx Hi Hn) as (w1 & m & err & E & Hm).
  destruct (moves_ready _ _ _ _ _ _ _ Hi Hb (proj1 Hn) Hr Hm) as [[bs' Hbuf] Hr1], Hm as [Ht _].
  unfold asyncReadNow; rewrite E; res_step; rewrite Hbuf; res_step.
  pose proof (touches_ok sh calm _ _ Ht Hok) as Hok1; pose proof (touches_still _ _ Ht) as Hs1.
  repeat case_decide; try (by eapply call_after); eapply still_runs; [exact Hs1 |].
  eapply scheduleRead_ok; [by eapply still_enter | by rewrite (t_objs _ _ Ht) | done | done].
Qed.

Lemma asyncWriteNow_ok q d c w f x i n all call : enter q c w -> files (objs w) !! f = Some x ->
  r_b (writeReactor x) = Some i -> reactor_ready (mem w) (at_offset (writeReactor x) n) ->
  (forall e n, call_ok q d c (call e n)) -> runs w (asyncWriteNow w f (Some i) n all call) (lead w + d).
Proof.
  intros He Hx Hb Hr Hc; pose proof (enter_ok _ _ _ _ _ He) as Hok.
  pose proof Hr as (j & bs & k & Hb' & Hi & Hn & _); cbn in Hb', Hn; rewrite Hb in Hb'; injection Hb' as <-.
  destruct (file_Write_ok w f x i bs n Hok Hx Hi Hn) as (w1 & m & err & E & Hm).
  destruct (moves_ready _ _ _ _ _ _ _ Hi Hb (proj1 Hn) Hr Hm) as [[bs' Hbuf] Hr1], Hm as [Ht _].
  unfold asyncWriteNow; rewrite E; res_step; rewrite Hbuf; res_step.
  pose proof (touches_ok sh calm _ _ Ht Hok) as Hok1; pose proof (touches_still _ _ Ht) as Hs1.
  repeat case_decide; try (by eapply call_after); eapply still_runs; [exact Hs1 |].
  eapply scheduleWrite_ok; [by eapply still_enter | by rewrite (t_objs _ _ Ht) | done | done].
Qed.

(** While there is room, the callback is counted. *)
Lemma below q w w1 : enter q MaxCallbackDispatch w -> world_ok w1 -> still w w1 ->
  Dispatched (ioc w1) < MaxCallbackDispatch -> enter q (MaxCallbackDispatch - 1) w1.
Proof. intros He Hok Hs Hd; destruct (still_enter sh calm _ _ _ _ He Hok Hs); split; [done | done | lia]. Qed.

Lemma asyncRead_ok q w f i all k call : enter q MaxCallbackDispatch w -> in_shape sh (File f) ->
  (i < nmem sh)%nat -> (forall e n, ok_prog q (k e n)) ->
  (forall e n, call_ok q 1 MaxCallbackDispatch (call e n)) -> runs w (asyncRead w f i all k call) (lead w).
Proof.
  intros He Hf Hi Hk Hc; pose proof (enter_ok _ _ _ _ _ He) as Hok; destruct (file_here w f Hok Hf) as [x Hx].
  pose proof (init_ready w i all k q Hok Hi Hk) as Hr.
  destruct (file_read_update w f x _ Hok Hx Hr) as (Hok1 & Hs1 & Hx1).
  unfold asyncRead, deref; rewrite Hx; res_step; eapply still_runs; [exact Hs1 |]; case_decide as Hd.
  - rewrite <-(still_lead _ _ Hs1), <-(Z.add_0_r (lead _)).
    eapply (asyncReadNow_ok q 0 (MaxCallbackDispatch - 1)); [by eapply below | done | done | exact Hr |].
    intros; by apply (counted_ok sh calm q 0).
  - eapply scheduleRead_ok; [by eapply still_enter | done | exact Hr | done].
Qed.

Lemma asyncWrite_ok q w f i all k call : enter q MaxCallbackDispatch w -> in_shape sh (File f) ->
  (i < nmem sh)%nat -> (forall e n, ok_prog q (k e n)) ->
  (forall e n, call_ok q 1 MaxCallbackDispatch (call e n)) -> runs w (asyncWrite w f i all k call) (lead w).
Proof.
  intros He Hf Hi Hk Hc; pose proof (enter_ok _ _ _ _ _ He) as Hok; destruct (file_here w f Hok Hf) as [x Hx].
  pose proof (init_ready w i all k q Hok Hi Hk) as Hr.
  destruct (file_write_update w f x _ Hok Hx Hr) as (Hok1 & Hs1 & Hx1).
  unfold asyncWrite, deref; rewrite Hx; res_step; eapply still_runs; [exact Hs1 |]; case_decide as Hd.
  - rewrite <-(still_lead _ _ Hs1), <-(Z.add_0_r (lead _)).
    eapply (asyncWriteNow_ok q 0 (MaxCallbackDispatch - 1)); [by eapply below | done | done | exact Hr |].
    intros; by apply (counted_ok sh calm q 0).
  - eapply scheduleWrite_ok; [by eapply still_enter | done | exact Hr | done].
Qed.

Lemma file_Close_ok w f base : world_ok w -> in_shape sh (File f) -> calm = false -> returns w (file_Close w f) base.
Proof.
  intros Hok Hf Hw; destruct (file_here w f Hok Hf) as [x Hx].
  unfold file_Close, deref; rewrite Hx; res_step; destruct (file_closed x); [by apply still_returns |].
  set (x1 := mkFile _ _ _ _); destruct (file_update w f x x1) as (Hok1 & Hs1 & Hx1);
    [done | done | done | congruence | by intros [] [] | set (w1 := set_file w f x1) in *].
  destruct (Unset_ok sh calm w1 _ _ Hok1 (file_view _ _ _ Hx1)) as (w2 & err2 & E2 & Hok2 & Hs2 & Ho2 & _); cbn in E2.
  rewrite E2; res_step; destruct err2 as [e |]; [apply still_returns; [done | by eapply still_trans] |]; rewrite <-Ho2 in Hx1.
  destruct (Deregister_ok sh calm w2 _ _ Hok2 (file_view _ _ _ Hx1)) as (w3 & E3 & Ht3); cbn in E3; rewrite E3; res_step.
  pose proof (touches_ok sh calm _ _ Ht3 Hok2) as Hok3; rewrite <-(t_objs _ _ Ht3) in Hx1.
  destruct (slot_here sh calm w3 _ _ Hok3 (file_view _ _ _ Hx1)) as (s & Hs & _); cbn in Hs.
  unfold slot_of, deref; rewrite Hs; res_step; destruct (sys_close _ _) as [y err].
  apply still_returns; [done |]; eapply still_trans, still_trans, still_trans; [exact Hs1 | exact Hs2 | |].
  - by apply touches_still.
  - done.
Qed.
(** * Adapters *)

Lemma adapter_here w a : world_ok w -> in_shape sh (Adapter a) -> exists x, adapters (objs w) !! a = Some x.
Proof. intros Hok Ha; destruct (object_here sh calm w _ Hok Ha) as [y (x & Hx & _)%fmap_Some]; by exists x. Qed.

Lemma adapter_view w a x : adapters (objs w) !! a = Some x -> view (objs w) (Adapter a) = Some (AnAdapter x).
Proof. by cbn; intros ->. Qed.

Lemma adapter_update w a x x' : world_ok w -> adapters (objs w) !! a = Some x -> adapter_slot x' = adapter_slot x ->
  (calm = true -> adapter_closed x = false -> adapter_closed x' = false) ->
  (forall et h, good (mem w) (Adapter a) (AnAdapter x) et h -> good (mem w) (Adapter a) (AnAdapter x') et h) ->
  world_ok (set_adapter w a x') /\ still w (set_adapter w a x') /\ adapters (objs (set_adapter w a x')) !! a = Some x'.
Proof.
  intros Hok Hx Hs Hc Hg.
  destruct (update_ok sh calm w _ _ _ _ Hok (adapter_view _ _ _ Hx) (changes_adapter _ _ _ x' Hx) Hs Hc Hg) as [? ?].
  split_and!; [done .. |]; apply list_lookup_insert_eq; by eapply lookup_lt_Some.
Qed.

Lemma adapter_read_update w a x r : world_ok w -> adapters (objs w) !! a = Some x -> reactor_ready (mem w) r ->
  let w' := set_adapter w a (set_adapter_read x r) in
  world_ok w' /\ still w w' /\ adapters (objs w') !! a = Some (set_adapter_read x r).
Proof. intros Hok Hx Hr; apply (adapter_update w a x); try done; intros [] []; cbn; tauto. Qed.

Lemma adapter_write_update w a x r : world_ok w -> adapters (objs w) !! a = Some x -> reactor_ready (mem w) r ->
  let w' := set_adapter w a (set_adapter_write x r) in
  world_ok w' /\ still w w' /\ adapters (objs w') !! a = Some (set_adapter_write x r).
Proof. intros Hok Hx Hr; apply (adapter_update w a x); try done; intros [] []; cbn; tauto. Qed.

Lemma adapter_scheduleRead_ok q d c w a x n call base : enter q c w -> adapters (objs w) !! a = Some x ->
  reactor_ready (mem w) (at_offset (adapter_readReactor x) n) -> (forall e n, call_ok q d c (call e n)) ->
  runs w (adapter_scheduleRead w a n call) base.
Proof.
  intros He Hx Hr Hc; pose proof (enter_ok _ _ _ _ _ He) as Hok; unfold adapter_scheduleRead, deref; rewrite Hx; res_step.
  destruct (adapter_closed x) eqn:Ec; [eapply closed_call; by eauto using still_refl, adapter_view |].
  destruct (adapter_read_update w a x _ Hok Hx Hr) as (Hok1 & Hs1 & Hx1); eapply still_runs; [exact Hs1 |].
  eapply (arm_plain sh calm q d c _ _ (AnAdapter _) ReadEvent (OnAdapterRead a) _ _ (still_enter sh calm q c _ _ He Hok1 Hs1) (adapter_view _ _ _ Hx1));
    [by split | intros; apply Hc].
Qed.

Lemma adapter_scheduleWrite_ok q d c w a x n call base : enter q c w -> adapters (objs w) !! a = Some x ->
  reactor_ready (mem w) (at_offset (adapter_writeReactor x) n) -> (forall e n, call_ok q d c (call e n)) ->
  runs w (adapter_scheduleWrite w a n call) base.
Proof.
  intros He Hx Hr Hc; pose proof (enter_ok _ _ _ _ _ He) as Hok; unfold adapter_scheduleWrite, deref; rewrite Hx; res_step.
  destruct (adapter_closed x) eqn:Ec; [eapply closed_call; by eauto using still_refl, adapter_view |].
  destruct (adapter_write_update w a x _ Hok Hx Hr) as (Hok1 & Hs1 & Hx1); eapply still_runs; [exact Hs1 |].
  eapply (arm_plain sh calm q d c _ _ (AnAdapter _) WriteEvent (OnAdapterWrite a) _ _ (still_enter sh calm q c _ _ He Hok1 Hs1) (adapter_view _ _ _ Hx1));
    [by split | intros; apply Hc].
Qed.

Lemma adapter_asyncRead_ok q w a i all k call base : enter q MaxCallbackDispatch w -> in_shape sh (Adapter a) ->
  (i < nmem sh)%nat -> (forall e n, ok_prog q (k e n)) ->
  (forall e n, call_ok q 1 MaxCallbackDispatch (call e n)) -> runs w (adapter_asyncRead w a i all k call) base.
Proof.
  intros He Ha Hi Hk Hc; pose proof (enter_ok _ _ _ _ _ He) as Hok; destruct (adapter_here w a Hok Ha) as [x Hx].
  pose proof (init_ready w i all k q Hok Hi Hk) as Hr.
  destruct (adapter_read_update w a x _ Hok Hx Hr) as (Hok1 & Hs1 & Hx1).
  unfold adapter_asyncRead, deref; rewrite Hx; res_step; eapply still_runs; [exact Hs1 |].
  eapply adapter_scheduleRead_ok; [by eapply still_enter | done | exact Hr | done].
Qed.

Lemma adapter_asyncWrite_ok q w a i all k call base : enter q MaxCallbackDispatch w -> in_shape sh (Adapter a) ->
  (i < nmem sh)%nat -> (forall e n, ok_prog q (k e n)) ->
  (forall e n, call_ok q 1 MaxCallbackDispatch (call e n)) -> runs w (adapter_asyncWrite w a i all k call) base.
Proof.
  intros He Ha Hi Hk Hc; pose proof (enter_ok _ _ _ _ _ He) as Hok; destruct (adapter_here w a Hok Ha) as [x Hx].
  pose proof (init_ready w i all k q Hok Hi Hk) as Hr.
  destruct (adapter_write_update w a x _ Hok Hx Hr) as (Hok1 & Hs1 & Hx1).
  unfold adapter_asyncWrite, deref; rewrite Hx; res_step; eapply still_runs; [exact Hs1 |].
  eapply adapter_scheduleWrite_ok; [by eapply still_enter | done | exact Hr | done].
Qed.

Lemma adapter_asyncReadNow_ok q d c w a x i n all call : enter q c w -> adapters (objs w) !! a = Some x ->
  r_b (adapter_readReactor x) = Some i -> reactor_ready (mem w) (at_offset (adapter_readReactor x) n) ->
  (forall e n, call_ok q d c (call e n)) -> runs w (adapter_asyncReadNow w a (Some i) n all call) (lead w + d).
Proof.
  intros He Hx Hb Hr Hc; pose proof (enter_ok _ _ _ _ _ He) as Hok.
  pose proof Hr as (j & bs & k & Hb' & Hi & Hn & _); cbn in Hb', Hn; rewrite Hb in Hb'; injection Hb' as <-.
  unfold adapter_asyncReadNow, buffer, deref; rewrite Hi; res_step; rewrite decide_True by done.
  destruct (rw_read _ _ _) as [y [got err]] eqn:Er; set (w1 := store _ _ _).
  assert (moves w w1 bs n (zlen got)) as Hm
    by (apply moves_in; [done | lia |]; apply rw_read_count in Er; lia).
  destruct (moves_ready _ _ _ _ _ _ _ Hi Hb (proj1 Hn) Hr Hm) as [_ Hr1], Hm as [Ht _].
  pose proof (touches_ok sh calm _ _ Ht Hok) as Hok1; pose proof (touches_still _ _ Ht) as Hs1.
  destruct err; [by eapply call_after |]; case_decide; [| by eapply call_after]; eapply still_runs; [exact Hs1 |].
  eapply adapter_scheduleRead_ok; [by eapply still_enter | by rewrite (t_objs _ _ Ht) | done | done].
Qed.

Lemma adapter_asyncWriteNow_ok q d c w a x i n all call : enter q c w -> adapters (objs w) !! a = Some x ->
  r_b (adapter_writeReactor x) = Some i -> reactor_ready (mem w) (at_offset (adapter_writeReactor x) n) ->
  (forall e n, call_ok q d c (call e n)) -> runs w (adapter_asyncWriteNow w a (Some i) n all call) (lead w + d).
Proof.
  intros He Hx Hb Hr Hc; pose proof (enter_ok _ _ _ _ _ He) as Hok.
  pose proof Hr as (j & bs & k & Hb' & Hi & Hn & _); cbn in Hb', Hn; rewrite Hb in Hb'; injection Hb' as <-.
  unfold adapter_asyncWriteNow, buffer, deref; rewrite Hi; res_step; rewrite decide_True by done.
  destruct (rw_write _ _ _) as [y [got err]] eqn:Er.
  assert (zlen (zdrop n bs) = zlen bs - n) as Hz by llia; apply rw_write_count in Er.
  assert (moves w (set_sys w y) bs n got) as Hm by (split; [apply touches_sys | lia]).
  destruct (moves_ready _ _ _ _ _ _ _ Hi Hb (proj1 Hn) Hr Hm) as [_ Hr1], Hm as [Ht _].
  pose proof (touches_ok sh calm _ _ Ht Hok) as Hok1; pose proof (touches_still _ _ Ht) as Hs1.
  destruct err; [by eapply call_after |]; case_decide; [| by eapply call_after]; eapply still_runs; [exact Hs1 |].
  eapply adapter_scheduleWrite_ok; [by eapply still_enter | by rewrite (t_objs _ _ Ht) | done | done].
Qed.

Lemma adapter_Close_ok w a base : world_ok w -> in_shape sh (Adapter a) -> calm = false ->
  returns w (adapter_Close w a) base.
Proof.
  intros Hok Ha Hw; destruct (adapter_here w a Hok Ha) as [x Hx].
  unfold adapter_Close, deref; rewrite Hx; res_step; destruct (adapter_closed x); [by apply still_returns |].
  set (x1 := mkAdapter _ _ _ _); destruct (adapter_update w a x x1) as (Hok1 & Hs1 & Hx1);
    [done | done | done | congruence | by intros [] [] | set (w1 := set_adapter w a x1) in *].
  destruct (unhook_ok sh calm w1 _ _ Hok1 (adapter_view _ _ _ Hx1)) as (w2 & E2 & Hok2 & Hs2 & Ho2); cbn in E2.
  rewrite E2; res_step; rewrite <-Ho2 in Hx1.
  destruct (slot_here sh calm w2 _ _ Hok2 (adapter_view _ _ _ Hx1)) as (s & Hs & _); cbn in Hs.
  unfold slot_of, deref; rewrite Hs; res_step; destruct (sys_close _ _) as [y err].
  apply still_returns; [done |]; eapply still_trans, still_trans; [exact Hs1 | exact Hs2 | done].
Qed.

(** * Handlers *)

(** A handler first deregisters its slot. *)
Lemma handler_starts lim w o x : enter false lim w -> view (objs w) o = Some x ->
  exists w1, Deregister w (object_slot x) = Ret w1 /\ enter false lim w1 /\ touches w w1 /\
    forall r, runs w1 r (lead w1 + 1) -> runs w r (lead w + 1).
Proof.
  intros He Hx; destruct (Deregister_ok sh calm w o x (enter_ok _ _ _ _ _ He) Hx) as (w1 & E & Ht).
  pose proof (touches_ok sh calm _ _ Ht (enter_ok _ _ _ _ _ He)) as Hok1; pose proof (touches_still _ _ Ht) as Hs.
  exists w1; split_and!; [done | by eapply still_enter | done |]; intros r Hr; rewrite (still_lead _ _ Hs) in Hr.
  by eapply still_runs.
Qed.

Context (user : option AsyncCallback -> option error -> Z -> W -> res W).
Context (user_ok : forall k, (forall e n, ok_prog false (k e n)) ->
  forall e n, call_ok false 1 MaxCallbackDispatch (user (Some k) e n)).

Lemma onRead_ok w f x err : enter false MaxCallbackDispatch w -> files (objs w) !! f = Some x ->
  reactor_ready (mem w) (readReactor x) -> runs w (onRead user w f err) (lead w + 1).
Proof.
  intros He Hx Hr; unfold onRead, deref; rewrite Hx; res_step.
  destruct (handler_starts _ w _ _ He (file_view _ _ _ Hx)) as (w1 & E & He1 & Ht & Hrun); cbn in E; rewrite E; res_step.
  apply Hrun; apply (touches_reactor sh calm _ _ _ Ht) in Hr; rewrite <-(t_objs _ _ Ht) in Hx.
  pose proof Hr as (i & bs & k & Hb & _ & _ & Hk & Hv); rewrite Hk; destruct err; [by apply user_ok |].
  rewrite Hb; eapply asyncReadNow_ok; [done .. | by destruct (readReactor x) | by apply user_ok].
Qed.

Lemma onWrite_ok w f x err : enter false MaxCallbackDispatch w -> files (objs w) !! f = Some x ->
  reactor_ready (mem w) (writeReactor x) -> runs w (onWrite user w f err) (lead w + 1).
Proof.
  intros He Hx Hr; unfold onWrite, deref; rewrite Hx; res_step.
  destruct (handler_starts _ w _ _ He (file_view _ _ _ Hx)) as (w1 & E & He1 & Ht & Hrun); cbn in E; rewrite E; res_step.
  apply Hrun; apply (touches_reactor sh calm _ _ _ Ht) in Hr; rewrite <-(t_objs _ _ Ht) in Hx.
  pose proof Hr as (i & bs & k & Hb & _ & _ & Hk & Hv); rewrite Hk; destruct err; [by apply user_ok |].
  rewrite Hb; eapply asyncWriteNow_ok; [done .. | by destruct (writeReactor x) | by apply user_ok].
Qed.

Lemma onAdapterRead_ok w a x err : enter false MaxCallbackDispatch w -> adapters (objs w) !! a = Some x ->
  reactor_ready (mem w) (adapter_readReactor x) -> runs w (onAdapterRead user w a err) (lead w + 1).
Proof.
  intros He Hx Hr; unfold onAdapterRead, deref; rewrite Hx; res_step.
  destruct (handler_starts _ w _ _ He (adapter_view _ _ _ Hx)) as (w1 & E & He1 & Ht & Hrun); cbn in E; rewrite E; res_step.
  apply Hrun; apply (touches_reactor sh calm _ _ _ Ht) in Hr; rewrite <-(t_objs _ _ Ht) in Hx.
  pose proof Hr as (i & bs & k & Hb & _ & _ & Hk & Hv); rewrite Hk; destruct err; [by apply user_ok |].
  rewrite Hb; eapply adapter_asyncReadNow_ok; [done .. | by destruct (adapter_readReactor x) | by apply user_ok].
Qed.

Lemma onAdapterWrite_ok w a x err : enter false MaxCallbackDispatch w -> adapters (objs w) !! a = Some x ->
  reactor_ready (mem w) (adapter_writeReactor x) -> runs w (onAdapterWrite user w a err) (lead w + 1).
Proof.
  intros He Hx Hr; unfold onAdapterWrite, deref; rewrite Hx; res_step.
  destruct (handler_starts _ w _ _ He (adapter_view _ _ _ Hx)) as (w1 & E & He1 & Ht & Hrun); cbn in E; rewrite E; res_step.
  apply Hrun; apply (touches_reactor sh calm _ _ _ Ht) in Hr; rewrite <-(t_objs _ _ Ht) in Hx.
  pose proof Hr as (i & bs & k & Hb & _ & _ & Hk & Hv); rewrite Hk; destruct err; [by apply user_ok |].
  rewrite Hb; eapply adapter_asyncWriteNow_ok; [done .. | by destruct (adapter_writeReactor x) | by apply user_ok].
Qed.
End files_ok.
