(* ===== verification/NetIOSpec.v ===== *)
(** The operations of packet connections, listeners and multicast peers keep the invariant
    of the event loop. *)

From stdpp Require Import gmap.
From S2P Require Import Prelude Poller PollerSpec NetAddr EventLoop PacketConn ListenConn UDPPeer RunLoop LoopInvariant FileIOSpec.

Section net_ok.
Context {K S : Type} `{Epoll K} `{System S}.
Context (sh : shape) (calm : bool).
Implicit Types (w : world K S).
Abbreviation W := (world K S).
Abbreviation ok_prog q := (valid sh calm q).
Abbreviation world_ok := (world_ok sh calm).
Abbreviation enter := (enter sh calm).
Abbreviation runs := (runs sh calm).
Abbreviation returns := (returns sh calm).
Abbreviation call_ok := (call_ok sh calm).
Abbreviation good := (good sh calm).

Lemma buffer_here w i : world_ok w -> (i < nmem sh)%nat -> exists bs, mem w !! i = Some bs.
Proof. intros Hok Hi; rewrite <-(wo_mem _ _ _ _ _ Hok) in Hi; by apply lookup_lt_is_Some in Hi. Qed.

Lemma mem_shape w i : world_ok w -> (i < nmem sh)%nat <-> (i < length (mem w))%nat.
Proof. intros Hok; by rewrite (wo_mem _ _ _ _ _ Hok). Qed.

(** A datagram received into the front of a buffer. *)
Lemma received w y i bs got : mem w !! i = Some bs -> zlen got <= zlen bs ->
  touches w (store (set_sys w y) (Some i) (write_at 0 got bs)).
Proof. intros Hi Hg; apply (moves_in w y i bs 0 got Hi); lia. Qed.

(** * Packet connections *)

Lemma packet_here w c : world_ok w -> in_shape sh (Packet c) -> exists x, packets (objs w) !! c = Some x.
Proof. intros Hok Hc; destruct (object_here sh calm w _ Hok Hc) as [y (x & Hx & _)%fmap_Some]; by exists x. Qed.

Lemma packet_view w c x : packets (objs w) !! c = Some x -> view (objs w) (Packet c) = Some (APacket x).
Proof. by cbn; intros ->. Qed.

Section packets.
Context (user_read : AsyncReadCallbackPacket -> option error -> Z -> option netAddr -> W -> res W).
Context (user_write : AsyncWriteCallbackPacket -> option error -> W -> res W).

Lemma packet_scheduleRead_ok q d lim w c x i n all count k base : enter q lim w -> packets (objs w) !! c = Some x ->
  (i < nmem sh)%nat -> (forall e n a, ok_prog false (k e n a)) ->
  (forall e n a, call_ok q d lim (packet_read_cb user_read count k e n a)) ->
  runs w (packet_scheduleRead user_read w c i n all count k) base.
Proof.
  intros He Hx Hi Hk Hc; pose proof (enter_ok _ _ _ _ _ He) as Hok; unfold packet_scheduleRead, deref.
  rewrite Hx; res_step; destruct (packet_closed x) eqn:Ec.
  { eapply (closed_call sh calm q d lim); by eauto using still_refl, packet_view. }
  eapply (arm_plain sh calm q d lim w _ (APacket x)); [done | by apply packet_view | | intros; apply Hc].
  cbn; by rewrite <-mem_shape.
Qed.

Lemma packet_ReadFrom_ok w c x i : world_ok w -> packets (objs w) !! c = Some x -> (i < nmem sh)%nat ->
  exists w' r, packet_ReadFrom w c i = Ret (w', r) /\ touches w w'.
Proof.
  intros Hok Hx Hi; destruct (slot_here sh calm w _ _ Hok (packet_view _ _ _ Hx)) as (s & Hs & _); cbn in Hs.
  destruct (buffer_here w i Hok Hi) as [bs Hbs]; unfold packet_ReadFrom, slot_of, deref.
  rewrite Hx; res_step; rewrite Hs; res_step; rewrite Hbs; res_step.
  destruct (sys_recvfrom _ _ _) as [y [[got from] | e]] eqn:Er; [| by eexists _, _; split; [| apply touches_sys]].
  apply recvfrom_count in Er; [| llia]; pose proof (received w y i bs got Hbs Er) as Ht.
  case_decide; by eexists _, _.
Qed.

Lemma packet_asyncReadNow_ok q d lim w c x i n all count k : enter q lim w -> packets (objs w) !! c = Some x ->
  (i < nmem sh)%nat -> (forall e n a, ok_prog false (k e n a)) ->
  (forall e n a, call_ok q d lim (packet_read_cb user_read count k e n a)) ->
  runs w (packet_asyncReadNow user_read w c i n all count k) (lead w + d).
Proof.
  intros He Hx Hi Hk Hc; pose proof (enter_ok _ _ _ _ _ He) as Hok.
  destruct (packet_ReadFrom_ok w c x i Hok Hx Hi) as (w1 & [[m from] err] & E & Ht).
  pose proof (touches_ok sh calm _ _ Ht Hok) as Hok1; pose proof (touches_still _ _ Ht) as Hs1.
  unfold packet_asyncReadNow; rewrite E; res_step; destruct (buffer_here w1 i Hok1 Hi) as [bs Hbs].
  unfold deref; rewrite Hbs; res_step; repeat case_decide; try (by eapply call_after); eapply still_runs; [exact Hs1 |].
  eapply packet_scheduleRead_ok; [by eapply still_enter | by rewrite (t_objs _ _ Ht) | done | done | done].
Qed.

Lemma packet_scheduleWrite_ok q d lim w c x i to count k base : enter q lim w -> packets (objs w) !! c = Some x ->
  (i < nmem sh)%nat -> sendable to -> (forall e, ok_prog false (k e)) ->
  (forall e, call_ok q d lim (packet_write_cb user_write count k e)) ->
  runs w (packet_scheduleWrite user_write w c i to count k) base.
Proof.
  intros He Hx Hi Hto Hk Hc; pose proof (enter_ok _ _ _ _ _ He) as Hok; unfold packet_scheduleWrite, deref.
  rewrite Hx; res_step; destruct (packet_closed x) eqn:Ec.
  { eapply (closed_call sh calm q d lim); by eauto using still_refl, packet_view. }
  eapply (arm_plain sh calm q d lim w _ (APacket x)); [done | by apply packet_view | | intros; apply Hc].
  cbn; by rewrite <-mem_shape.
Qed.

Lemma packet_asyncWriteToNow_ok q d lim w c x i to count k : enter q lim w -> packets (objs w) !! c = Some x ->
  (i < nmem sh)%nat -> sendable to -> (forall e, ok_prog false (k e)) ->
  (forall e, call_ok q d lim (packet_write_cb user_write count k e)) ->
  runs w (packet_asyncWriteToNow user_write w c i to count k) (lead w + d).
Proof.
  intros He Hx Hi Hto Hk Hc; pose proof (enter_ok _ _ _ _ _ He) as Hok.
  destruct (slot_here sh calm w _ _ Hok (packet_view _ _ _ Hx)) as (s & Hs & _); cbn in Hs.
  destruct (buffer_here w i Hok Hi) as [bs Hbs], Hto as [sa Hsa].
  unfold packet_asyncWriteToNow, packet_WriteTo, slot_of, deref; rewrite Hx; res_step; rewrite Hs; res_step.
  rewrite Hbs; res_step; rewrite Hsa; res_step; destruct (sys_sendto _ _ _ _) as [y err]; res_step.
  pose proof (touches_sys w y) as Ht.
  pose proof (touches_ok sh calm _ _ Ht Hok) as Hok1; pose proof (touches_still _ _ Ht) as Hs1.
  case_decide; [| by eapply call_after]; eapply still_runs; [exact Hs1 |].
  eapply packet_scheduleWrite_ok; [by eapply still_enter | done | done | by exists sa | done | done].
Qed.

Lemma packet_Close_ok w c base : world_ok w -> in_shape sh (Packet c) -> calm = false ->
  returns w (packet_Close w c) base.
Proof.
  intros Hok Hc Hw; destruct (packet_here w c Hok Hc) as [x Hx]; unfold packet_Close, deref; rewrite Hx; res_step.
  set (x1 := mkPacketConn _ _); set (w1 := set_packet w c x1).
  destruct (update_ok sh calm w (objs w1) _ _ _ Hok (packet_view _ _ _ Hx) (changes_packet _ _ _ x1 Hx)) as [Hok1 Hs1];
    [done | congruence | by intros [] [] |]; change (set_objs w (objs w1)) with w1 in Hok1, Hs1.
  assert (packets (objs w1) !! c = Some x1) as Hx1 by (apply list_lookup_insert_eq; by eapply lookup_lt_Some).
  destruct (unhook_ok sh calm w1 _ _ Hok1 (packet_view _ _ _ Hx1)) as (w2 & E2 & Hok2 & Hs2 & Ho2); cbn in E2.
  rewrite E2; res_step; rewrite <-Ho2 in Hx1.
  destruct (slot_here sh calm w2 _ _ Hok2 (packet_view _ _ _ Hx1)) as (s & Hs & _); cbn in Hs.
  unfold slot_of, deref; rewrite Hs; res_step; destruct (sys_close _ _) as [y err].
  apply still_returns; [done |]; eapply still_trans, still_trans; [exact Hs1 | exact Hs2 | done].
Qed.

Lemma packet_asyncReadFrom_ok q w c i all k : enter q MaxCallbackDispatch w -> in_shape sh (Packet c) ->
  (i < nmem sh)%nat -> (forall e n a, ok_prog q (k e n a)) ->
  (forall e n a, call_ok q 1 MaxCallbackDispatch (user_read k e n a)) ->
  runs w (packet_asyncReadFrom user_read w c i all k) (lead w).
Proof.
  intros He Hc Hi Hk Hu; pose proof (enter_ok _ _ _ _ _ He) as Hok; destruct (packet_here w c Hok Hc) as [x Hx].
  assert (forall e n a, ok_prog false (k e n a)) as Hk' by (intros; by eapply valid_false).
  unfold packet_asyncReadFrom; case_decide as Hd.
  - rewrite <-(Z.add_0_r (lead _)); eapply packet_asyncReadNow_ok; [by eapply below | done | done | done |].
    intros; by apply (counted_ok sh calm q 0).
  - by eapply (packet_scheduleRead_ok q 1).
Qed.

Lemma packet_AsyncWriteTo_ok q w c i to k : enter q MaxCallbackDispatch w -> in_shape sh (Packet c) ->
  (i < nmem sh)%nat -> sendable to -> (forall e, ok_prog q (k e)) ->
  (forall e, call_ok q 1 MaxCallbackDispatch (user_write k e)) ->
  runs w (packet_AsyncWriteTo user_write w c i to k) (lead w).
Proof.
  intros He Hc Hi Hto Hk Hu; pose proof (enter_ok _ _ _ _ _ He) as Hok; destruct (packet_here w c Hok Hc) as [x Hx].
  assert (forall e, ok_prog false (k e)) as Hk' by (intros; by eapply valid_false).
  unfold packet_AsyncWriteTo; case_decide as Hd.
  - rewrite <-(Z.add_0_r (lead _)); eapply packet_asyncWriteToNow_ok; [by eapply below | done | done | done | done |].
    intros; by apply (counted_ok sh calm q 0).
  - by eapply (packet_scheduleWrite_ok q 1).
Qed.

Lemma onPacketRead_ok w c x i n all count k err : enter false (MaxCallbackDispatch - 1) w ->
  packets (objs w) !! c = Some x -> (i < nmem sh)%nat -> (forall e n a, ok_prog false (k e n a)) ->
  (forall e n a, call_ok false 1 MaxCallbackDispatch (user_read k e n a)) ->
  runs w (onPacketRead user_read w c i n all count k err) (lead w + 1).
Proof.
  intros He Hx Hi Hk Hu; unfold onPacketRead, deref; rewrite Hx; res_step.
  destruct (handler_starts sh calm _ w _ _ He (packet_view _ _ _ Hx)) as (w1 & E & He1 & Ht & Hrun); cbn in E.
  rewrite E; res_step; apply Hrun; rewrite <-(t_objs _ _ Ht) in Hx.
  assert (forall e n a, call_ok false 1 (MaxCallbackDispatch - 1) (packet_read_cb user_read count k e n a)) as Hc
    by (intros; apply maybe_counted_ok, Hu).
  destruct err; [by apply Hc | by eapply packet_asyncReadNow_ok].
Qed.

Lemma onPacketWrite_ok w c x i to count k err : enter false (MaxCallbackDispatch - 1) w ->
  packets (objs w) !! c = Some x -> (i < nmem sh)%nat -> sendable to -> (forall e, ok_prog false (k e)) ->
  (forall e, call_ok false 1 MaxCallbackDispatch (user_write k e)) ->
  runs w (onPacketWrite user_write w c i to count k err) (lead w + 1).
Proof.
  intros He Hx Hi Hto Hk Hu; unfold onPacketWrite, deref; rewrite Hx; res_step.
  destruct (handler_starts sh calm _ w _ _ He (packet_view _ _ _ Hx)) as (w1 & E & He1 & Ht & Hrun); cbn in E.
  rewrite E; res_step; apply Hrun; rewrite <-(t_objs _ _ Ht) in Hx.
  assert (forall e, call_ok false 1 (MaxCallbackDispatch - 1) (packet_write_cb user_write count k e)) as Hc
    by (intros; apply maybe_counted_ok, Hu).
  destruct err; [by apply Hc | by eapply packet_asyncWriteToNow_ok].
Qed.
End packets.

(** * Listeners *)

Lemma listener_here w l : world_ok w -> in_shape sh (Listener l) -> exists x, listeners (objs w) !! l = Some x.
Proof. intros Hok Hl; destruct (object_here sh calm w _ Hok Hl) as [y (x & Hx & _)%fmap_Some]; by exists x. Qed.

Lemma listener_view w l x : listeners (objs w) !! l = Some x -> view (objs w) (Listener l) = Some (AListener x).
Proof. by cbn; intros ->. Qed.

Lemma asyncAccept_ok q d lim w l x k call base : enter q lim w -> listeners (objs w) !! l = Some x ->
  (forall e c, ok_prog false (k e c)) -> (forall e c, call_ok q d lim (call e c)) -> runs w (asyncAccept w l k call) base.
Proof.
  intros He Hx Hk Hc; unfold asyncAccept, deref; rewrite Hx; res_step.
  eapply (arm_plain sh calm q d lim w _ (AListener x)); [done | by apply listener_view | by split | intros; apply Hc].
Qed.

Lemma accept_ok w l x : world_ok w -> listeners (objs w) !! l = Some x ->
  exists w' r, accept w l = Ret (w', r) /\ touches w w'.
Proof.
  intros Hok Hx; destruct (slot_here sh calm w _ _ Hok (listener_view _ _ _ Hx)) as (s & Hs & _); cbn in Hs.
  unfold accept, slot_of, deref; rewrite Hx; res_step; rewrite Hs; res_step.
  destruct (sys_accept _ _) as [y [[fd from] | e]].
  - destruct (sys_getsockname _ _) as [y1 [? | e]]; [destruct (sys_setnonblock _ _ _) as [y2 err] |];
      by eexists _, _; split; [| apply touches_sys].
  - destruct (sys_close _ _) as [y1 ?]; by eexists _, _; split; [| apply touches_sys].
Qed.

Lemma AsyncAccept_ok q w l k call : enter q MaxCallbackDispatch w -> in_shape sh (Listener l) ->
  (forall e c, ok_prog q (k e c)) -> (forall e c, call_ok q 1 MaxCallbackDispatch (call e c)) ->
  runs w (AsyncAccept w l k call) (lead w).
Proof.
  intros He Hl Hk Hc; pose proof (enter_ok _ _ _ _ _ He) as Hok; destruct (listener_here w l Hok Hl) as [x Hx].
  assert (forall e c, ok_prog false (k e c)) as Hk' by (intros; by eapply valid_false).
  unfold AsyncAccept; case_decide as Hd; [by eapply (asyncAccept_ok q 1) |].
  destruct (accept_ok w l x Hok Hx) as (w1 & [conn err] & -> & Ht); res_step.
  pose proof (touches_ok sh calm _ _ Ht Hok) as Hok1; pose proof (touches_still _ _ Ht) as Hs1.
  rewrite <-(t_objs _ _ Ht) in Hx; case_decide;
    [eapply still_runs; [exact Hs1 | eapply (asyncAccept_ok q 1); by eauto using still_enter] |].
  rewrite <-(Z.add_0_r (lead _)); eapply (call_after sh calm q 0 (MaxCallbackDispatch - 1)); try done.
  - by apply (counted_ok sh calm q 0).
  - eapply below; [done .. | lia].
Qed.

Lemma onAccept_ok w l x call err : enter false MaxCallbackDispatch w -> listeners (objs w) !! l = Some x ->
  (forall e c, call_ok false 1 MaxCallbackDispatch (call e c)) -> runs w (onAccept w l call err) (lead w + 1).
Proof.
  intros He Hx Hc; unfold onAccept, deref; rewrite Hx; res_step.
  destruct (handler_starts sh calm _ w _ _ He (listener_view _ _ _ Hx)) as (w1 & E & He1 & Ht & Hrun); cbn in E.
  rewrite E; res_step; apply Hrun; rewrite <-(t_objs _ _ Ht) in Hx; destruct err; [by apply Hc |].
  destruct (accept_ok w1 l x (enter_ok _ _ _ _ _ He1) Hx) as (w2 & [conn err] & -> & Ht2); res_step.
  eapply call_after; [apply Hc | done | | by apply touches_still].
  eapply touches_ok; [done | apply He1].
Qed.

Lemma listener_Close_ok w l base : world_ok w -> in_shape sh (Listener l) -> returns w (listener_Close w l) base.
Proof.
  intros Hok Hl; destruct (listener_here w l Hok Hl) as [x Hx]; unfold listener_Close, deref; rewrite Hx; res_step.
  destruct (unhook_ok sh calm w _ _ Hok (listener_view _ _ _ Hx)) as (w2 & E2 & Hok2 & Hs2 & Ho2); cbn in E2.
  rewrite E2; res_step; rewrite <-Ho2 in Hx.
  destruct (slot_here sh calm w2 _ _ Hok2 (listener_view _ _ _ Hx)) as (s & Hs & _); cbn in Hs.
  unfold slot_of, deref; rewrite Hs; res_step; destruct (sys_close _ _) as [y err].
  apply still_returns; [done |]; by eapply still_trans.
Qed.

(** * Multicast peers *)

Lemma peer_here w p : world_ok w -> in_shape sh (Peer p) -> exists x, peers (objs w) !! p = Some x.
Proof. intros Hok Hp; destruct (object_here sh calm w _ Hok Hp) as [y (x & Hx & _)%fmap_Some]; by exists x. Qed.

Lemma peer_view w p x : peers (objs w) !! p = Some x -> view (objs w) (Peer p) = Some (APeer x).
Proof. by cbn; intros ->. Qed.

Lemma peer_update w p x x' : world_ok w -> peers (objs w) !! p = Some x -> peer_slot x' = peer_slot x ->
  (calm = true -> peer_closed x = false -> peer_closed x' = false) ->
  (forall et h, good (mem w) (Peer p) (APeer x) et h -> good (mem w) (Peer p) (APeer x') et h) ->
  world_ok (set_peer w p x') /\ still w (set_peer w p x') /\ peers (objs (set_peer w p x')) !! p = Some x'.
Proof.
  intros Hok Hx Hs Hc Hg.
  destruct (update_ok sh calm w _ _ _ _ Hok (peer_view _ _ _ Hx) (changes_peer _ _ _ x' Hx) Hs Hc Hg) as [? ?].
  split_and!; [done .. |]; apply list_lookup_insert_eq; by eapply lookup_lt_Some.
Qed.

Lemma peer_SetAsyncReadBuffer_ok w p i base : world_ok w -> in_shape sh (Peer p) -> (i < nmem sh)%nat ->
  runs w (peer_SetAsyncReadBuffer w p i) base.
Proof.
  intros Hok Hp Hi; destruct (peer_here w p Hok Hp) as [x Hx]; unfold peer_SetAsyncReadBuffer, deref.
  rewrite Hx; res_step; destruct (peer_update w p x (set_read x (Some i) (read_fn x))) as (Hok1 & Hs1 & _);
    try done; [| by apply still_ends].
  intros [] []; cbn; try done; intros [? (j & k & _ & _ & ? & ?)]; split; [done |].
  exists i, k; split_and!; try done; by rewrite <-mem_shape.
Qed.

Lemma count_read_ok w p x b : world_ok w -> peers (objs w) !! p = Some x ->
  exists w' s, count_read w p b = Ret w' /\ world_ok w' /\ still w w' /\
    peers (objs w') !! p = Some (set_stats x s) /\ mem w' = mem w.
Proof.
  intros Hok Hx; unfold count_read, deref; rewrite Hx; res_step; set (s := if b then _ else _).
  destruct (peer_update w p x (set_stats x s)) as (Hok1 & Hs1 & Hx1); try done.
  by eexists _, s.
Qed.

Lemma peer_scheduleRead_ok q d c w p x fn base : enter q c w -> peers (objs w) !! p = Some x ->
  peer_read_ready sh calm (mem w) x -> (forall e n a, call_ok q d c (fn e n a)) ->
  runs w (peer_scheduleRead w p fn) base.
Proof.
  intros He Hx Hr Hc; pose proof (enter_ok _ _ _ _ _ He) as Hok; unfold peer_scheduleRead, deref.
  rewrite Hx; res_step; destruct (peer_closed x) eqn:Ec.
  { eapply (closed_call sh calm q d c); by eauto using still_refl, peer_view. }
  eapply (arm_ok sh calm q d c w _ (APeer x)); [done | by apply peer_view | by split | | intros; apply Hc].
  intros w1 Hok1 Ho1; rewrite <-Ho1 in Hx; destruct (count_read_ok w1 p x false Hok1 Hx) as (w2 & s & E & ? & ? & Hx2 & _).
  exists w2, (APeer (set_stats x s)); split_and!; try done; by apply peer_view.
Qed.

Lemma peer_Read_ok w p x i : world_ok w -> peers (objs w) !! p = Some x -> (i < nmem sh)%nat ->
  exists w' r, peer_Read w p (Some i) = Ret (w', r) /\ touches w w'.
Proof.
  intros Hok Hx Hi; destruct (buffer_here w i Hok Hi) as [bs Hbs].
  unfold peer_Read, RecvFrom, buffer, deref; rewrite Hx; res_step; rewrite Hbs; res_step.
  destruct (sys_recvfrom _ _ _) as [y [[got from] | e]] eqn:Er; [| by eexists _, _; split; [| apply touches_sys]].
  apply recvfrom_count in Er; [| llia]; pose proof (received w y i bs got Hbs Er) as Ht.
  case_decide; [by eexists _, _ |]; destruct from as [[] |]; by eexists _, _.
Qed.

Lemma peer_asyncReadNow_ok q d c w p x i fn : enter q c w -> peers (objs w) !! p = Some x -> (i < nmem sh)%nat ->
  peer_read_ready sh calm (mem w) x -> (forall e n a, call_ok q d c (fn e n a)) ->
  runs w (peer_asyncReadNow w p (Some i) fn) (lead w + d).
Proof.
  intros He Hx Hi Hr Hc; pose proof (enter_ok _ _ _ _ _ He) as Hok.
  destruct (peer_Read_ok w p x i Hok Hx Hi) as (w1 & [[n addr] err] & E & Ht).
  pose proof (touches_ok sh calm _ _ Ht Hok) as Hok1; pose proof (touches_still _ _ Ht) as Hs1.
  unfold peer_asyncReadNow; rewrite E; res_step; rewrite <-(t_objs _ _ Ht) in Hx; destruct err as [e |].
  - case_decide; [| by eapply call_after]; eapply still_runs; [exact Hs1 |].
    eapply peer_scheduleRead_ok; [by eapply still_enter | done | | done].
    unfold peer_read_ready; by rewrite (t_length _ _ Ht).
  - destruct (count_read_ok w1 p x true Hok1 Hx) as (w2 & s & -> & Hok2 & Hs2 & _); res_step.
    eapply call_after; [apply Hc | done | done | by eapply still_trans].
Qed.

Lemma peer_AsyncRead_ok q w p i k fn : enter q MaxCallbackDispatch w -> in_shape sh (Peer p) -> (i < nmem sh)%nat ->
  (forall e n a, ok_prog q (k e n a)) -> (forall e n a, call_ok q 1 MaxCallbackDispatch (fn e n a)) ->
  runs w (peer_AsyncRead w p i k fn) (lead w).
Proof.
  intros He Hp Hi Hk Hc; pose proof (enter_ok _ _ _ _ _ He) as Hok; destruct (peer_here w p Hok Hp) as [x Hx].
  assert (peer_read_ready sh calm (mem w) (set_read x (Some i) (Some k))) as Hr.
  { exists i, k; split_and!; [done | by rewrite <-mem_shape | done | intros; by eapply valid_false]. }
  unfold peer_AsyncRead, deref; rewrite Hx; res_step.
  destruct (peer_update w p x (set_read x (Some i) (Some k))) as (Hok1 & Hs1 & Hx1); try done;
    [by intros [] []; cbn; try done; intros [? _] |].
  eapply still_runs; [exact Hs1 |]; case_decide.
  - rewrite <-(still_lead _ _ Hs1), <-(Z.add_0_r (lead _)).
    eapply (peer_asyncReadNow_ok q 0 (MaxCallbackDispatch - 1)); [by eapply below | done | done | exact Hr |].
    intros; by apply (counted_ok sh calm q 0).
  - eapply peer_scheduleRead_ok; [by eapply still_enter | done | exact Hr | done].
Qed.

Lemma peer_scheduleWrite_ok q d c w p x fn base : enter q c w -> peers (objs w) !! p = Some x ->
  peer_write_ready sh calm (mem w) x -> (forall e n, call_ok q d c (fn e n)) ->
  runs w (peer_scheduleWrite w p fn) base.
Proof.
  intros He Hx Hr Hc; pose proof (enter_ok _ _ _ _ _ He) as Hok; unfold peer_scheduleWrite, deref.
  rewrite Hx; res_step; destruct (peer_closed x) eqn:Ec.
  { eapply (closed_call sh calm q d c); by eauto using still_refl, peer_view. }
  eapply (arm_plain sh calm q d c w _ (APeer x)); [done | by apply peer_view | by split | intros; apply Hc].
Qed.

Lemma peer_asyncWriteNow_ok q d c w p x i to fn : enter q c w -> peers (objs w) !! p = Some x -> (i < nmem sh)%nat ->
  reachable to -> peer_write_ready sh calm (mem w) x -> (forall e n, call_ok q d c (fn e n)) ->
  runs w (peer_asyncWriteNow w p (Some i) to fn) (lead w + d).
Proof.
  intros He Hx Hi [a Ha] Hr Hc; pose proof (enter_ok _ _ _ _ _ He) as Hok; destruct (buffer_here w i Hok Hi) as [bs Hbs].
  unfold peer_asyncWriteNow, peer_Write, SendTo, buffer, deref; rewrite Hx; res_step; rewrite Hbs; res_step.
  rewrite Ha; res_step; destruct (sys_sendto _ _ _ _) as [y err]; pose proof (touches_sys w y) as Ht.
  pose proof (touches_ok sh calm _ _ Ht Hok) as Hok1; pose proof (touches_still _ _ Ht) as Hs1.
  destruct err as [e |]; res_step; [| by eapply call_after].
  case_decide; [| by eapply call_after]; eapply still_runs; [exact Hs1 |].
  eapply peer_scheduleWrite_ok; [by eapply still_enter | done | done | done].
Qed.

Lemma peer_AsyncWrite_ok q w p i to k fn : enter q MaxCallbackDispatch w -> in_shape sh (Peer p) -> (i < nmem sh)%nat ->
  reachable to -> (forall e n, ok_prog q (k e n)) -> (forall e n, call_ok q 1 MaxCallbackDispatch (fn e n)) ->
  runs w (peer_AsyncWrite w p i to k fn) (lead w).
Proof.
  intros He Hp Hi Hto Hk Hc; pose proof (enter_ok _ _ _ _ _ He) as Hok; destruct (peer_here w p Hok Hp) as [x Hx].
  assert (peer_write_ready sh calm (mem w) (set_write x (Some i) to (Some k))) as Hr.
  { exists i, k; split_and!; [done | by rewrite <-mem_shape | done | done | intros; by eapply valid_false]. }
  unfold peer_AsyncWrite, deref; rewrite Hx; res_step.
  destruct (peer_update w p x (set_write x (Some i) to (Some k))) as (Hok1 & Hs1 & Hx1); try done;
    [by intros [] []; cbn; try done; intros [? _] |].
  eapply still_runs; [exact Hs1 |]; case_decide.
  - rewrite <-(still_lead _ _ Hs1), <-(Z.add_0_r (lead _)).
    eapply (peer_asyncWriteNow_ok q 0 (MaxCallbackDispatch - 1)); [by eapply below | done | done | done | exact Hr |].
    intros; by apply (counted_ok sh calm q 0).
  - eapply peer_scheduleWrite_ok; [by eapply still_enter | done | exact Hr | done].
Qed.

Lemma peer_Close_ok w p base : world_ok w -> in_shape sh (Peer p) -> calm = false -> returns w (peer_Close w p) base.
Proof.
  intros Hok Hp Hw; destruct (peer_here w p Hok Hp) as [x Hx]; unfold peer_Close, deref; rewrite Hx; res_step.
  destruct (peer_closed x); [by apply still_returns |]; set (x1 := mkPeer _ true (peer_fd x) _ _ _ _ _ _).
  destruct (peer_update w p x x1) as (Hok1 & Hs1 & Hx1); [done | done | done | congruence | by intros [] [] |].
  set (w1 := set_peer w p x1) in *.
  destruct (unhook_ok sh calm w1 _ _ Hok1 (peer_view _ _ _ Hx1)) as (w2 & E2 & Hok2 & Hs2 & Ho2); cbn in E2.
  rewrite E2; res_step; rewrite <-Ho2 in Hx1.
  case_decide; [| by apply still_returns; [| eapply still_trans; [exact Hs1 |]]].
  destruct (sys_close _ _) as [y err]; set (x2 := mkPeer _ true (-1) _ _ _ _ _ _).
  destruct (peer_update (set_sys w2 y) p x1 x2) as (Hok3 & Hs3 & _); [done .. | by intros [] [] |].
  apply still_returns; [done |]; eapply still_trans, still_trans; [exact Hs1 | exact Hs2 |].
  by eapply still_trans; [apply touches_still, touches_sys |].
Qed.

Section peer_handlers.
Context (user_read : option PeerReadCallback -> option error -> Z -> AddrPort -> W -> res W).
Context (user_write : option AsyncCallback -> option error -> Z -> W -> res W).

Lemma onPeerRead_ok w p x err : enter false MaxCallbackDispatch w -> peers (objs w) !! p = Some x ->
  peer_read_ready sh calm (mem w) x ->
  (forall k, (forall e n a, ok_prog false (k e n a)) ->
     forall e n a, call_ok false 1 MaxCallbackDispatch (user_read (Some k) e n a)) ->
  runs w (onPeerRead user_read w p err) (lead w + 1).
Proof.
  intros He Hx Hr Hu; unfold onPeerRead, deref; rewrite Hx; res_step.
  destruct (handler_starts sh calm _ w _ _ He (peer_view _ _ _ Hx)) as (w1 & E & He1 & Ht & Hrun); cbn in E.
  rewrite E; res_step; apply Hrun; rewrite <-(t_objs _ _ Ht) in Hx.
  unfold peer_read_ready in Hr; rewrite <-(t_length _ _ Ht) in Hr; pose proof Hr as (i & k & Hb & Hi & Hk & Hv).
  rewrite Hk; destruct err; [by apply Hu |]; rewrite Hb.
  eapply peer_asyncReadNow_ok; [done | done | | done | by apply Hu]; eapply mem_shape; [apply He1 | done].
Qed.

Lemma onPeerWrite_ok w p x err : enter false MaxCallbackDispatch w -> peers (objs w) !! p = Some x ->
  peer_write_ready sh calm (mem w) x ->
  (forall k, (forall e n, ok_prog false (k e n)) ->
     forall e n, call_ok false 1 MaxCallbackDispatch (user_write (Some k) e n)) ->
  runs w (onPeerWrite user_write w p err) (lead w + 1).
Proof.
  intros He Hx Hr Hu; unfold onPeerWrite, deref; rewrite Hx; res_step.
  destruct (handler_starts sh calm _ w _ _ He (peer_view _ _ _ Hx)) as (w1 & E & He1 & Ht & Hrun); cbn in E.
  rewrite E; res_step; apply Hrun; rewrite <-(t_objs _ _ Ht) in Hx.
  unfold peer_write_ready in Hr; rewrite <-(t_length _ _ Ht) in Hr; pose proof Hr as (i & k & Hb & Hi & Hk & Hto & Hv).
  rewrite Hk; destruct err; [by apply Hu |]; rewrite Hb.
  eapply peer_asyncWriteNow_ok; [done | done | | done | done | by apply Hu]; eapply mem_shape; [apply He1 | done].
Qed.
End peer_handlers.
End net_ok.
