(* ===== verification/TimersSpec.v ===== *)
(** The operations of timers keep the invariant of the event loop. *)

From stdpp Require Import gmap.
From S2P Require Import Prelude Poller PollerSpec NetAddr EventLoop Timers RunLoop LoopInvariant.

Section timers_ok.
Context {K S : Type} `{Epoll K} `{System S}.
Context (sh : shape) (calm : bool).
Implicit Types (w : world K S).
Abbreviation W := (world K S).
Abbreviation ok_prog q := (valid sh calm q).
Abbreviation world_ok := (world_ok sh calm).
Abbreviation enter := (enter sh calm).
Abbreviation runs := (runs sh calm).
Abbreviation returns := (returns sh calm).
Abbreviation call_ok := (call_ok sh calm).
Abbreviation timer_cb_ok := (timer_cb_ok sh calm).

Lemma timer_here w t : world_ok w -> in_shape sh (Clock t) -> exists x, timers (objs w) !! t = Some x.
Proof. intros Hok Ht; destruct (object_here sh calm w _ Hok Ht) as [y (x & Hx & _)%fmap_Some]; by exists x. Qed.

Lemma timer_view w t x : timers (objs w) !! t = Some x -> view (objs w) (Clock t) = Some (ATimer x).
Proof. by cbn; intros ->. Qed.

Lemma timer_update w t x x' : world_ok w -> timers (objs w) !! t = Some x -> timer_slot x' = timer_slot x ->
  world_ok (set_timer w t x') /\ still w (set_timer w t x') /\ timers (objs (set_timer w t x')) !! t = Some x'.
Proof.
  intros Hok Hx Hs.
  destruct (update_ok sh calm w _ _ _ _ Hok (timer_view _ _ _ Hx) (changes_timer _ _ _ x' Hx) Hs) as [? ?];
    [done | by intros [] [] |].
  split_and!; [done .. |]; apply list_lookup_insert_eq; by eapply lookup_lt_Some.
Qed.

Lemma it_Unset_ok w t x : world_ok w -> timers (objs w) !! t = Some x ->
  exists w' err, it_Unset w (timer_slot x) = Ret (w', err) /\ world_ok w' /\ still w w' /\ objs w' = objs w.
Proof.
  intros Hok Hx; destruct (slot_here sh calm w _ _ Hok (timer_view _ _ _ Hx)) as (s & Hs & _); cbn in Hs.
  unfold it_Unset, slot_of, deref; rewrite Hs; res_step; destruct (has_flag _ _); [| by exists w, None].
  destruct (timerfd_settime _ _ _) as [y [e |]]; [by exists (set_sys w y), (Some e) |].
  destruct (Unset_ok sh calm (set_sys w y) _ _ Hok (timer_view _ _ _ Hx)) as (w1 & err & E & Hok1 & Hs1 & Ho & _); cbn in E.
  unfold UnsetReadWrite in E; cbn in E; exists w1, err; split_and!; [exact E | done | | done].
  eapply still_trans; [by apply touches_still, touches_sys | done].
Qed.

Lemma it_Set_ok w t x dur c : world_ok w -> timers (objs w) !! t = Some x -> timer_cb_ok c ->
  exists w' err, it_Set w (timer_slot x) dur (OnTimer t c) = Ret (w', err) /\ world_ok w' /\ still w w' /\
    objs w' = objs w.
Proof.
  intros Hok Hx Hc; destruct (it_Unset_ok w t x Hok Hx) as (w1 & err & E1 & Hok1 & Hs1 & Ho1).
  unfold it_Set; rewrite E1; res_step; destruct err as [e |]; [by exists w1, (Some e) |]; rewrite <-Ho1 in Hx.
  destruct (slot_here sh calm w1 _ _ Hok1 (timer_view _ _ _ Hx)) as (s & Hs & _); cbn in Hs.
  unfold slot_of, deref; rewrite Hs; res_step; destruct (timerfd_settime _ _ _) as [y [e |]].
  { exists (set_sys w1 y), (Some e); split_and!; try done; eapply still_trans; [exact Hs1 | by apply touches_still, touches_sys]. }
  destruct (set_ok sh calm (set_sys w1 y) _ _ ReadEvent (OnTimer t c) Hok1 (timer_view _ _ _ Hx)) as
    (p & p' & err & E2 & E3 & Hok2 & Hs2 & _); [by split |].
  cbn in E2, E3; cbn [io_poller ioc set_sys]; rewrite E2; res_step; unfold polling, SetRead; rewrite E3; res_step.
  eexists _, err; split_and!; [done | exact Hok2 | | done].
  eapply still_trans; [exact Hs1 | eapply still_trans; [by apply touches_still, (touches_sys w1 y) | exact Hs2]].
Qed.

(** With a positive delay nothing is called. *)
Lemma ScheduleOnce_quiet w t delay c call base : world_ok w -> in_shape sh (Clock t) -> timer_cb_ok c -> 0 < delay ->
  returns w (ScheduleOnce w t delay c call) base.
Proof.
  intros Hok Ht Hc Hdel; destruct (timer_here w t Hok Ht) as (x & Hx).
  unfold ScheduleOnce, deref; rewrite Hx; res_step; case_decide; [| by apply still_returns].
  destruct (timer_update w t x (set_cancelled x false) Hok Hx eq_refl) as (Hok1 & Hs1 & Hx1).
  rewrite decide_False by lia; set (w1 := set_timer w t _) in *.
  destruct (it_Set_ok w1 t _ delay c Hok1 Hx1 Hc) as (w2 & err & E & Hok2 & Hs2 & Ho2).
  rewrite E; res_step; rewrite <-Ho2 in Hx1; destruct err as [e |];
    [by apply still_returns; [| eapply still_trans] |].
  edestruct (timer_update (set_pendingTimers w2 ({[t]} ∪ pendingTimers (ioc w2))) t _
    (set_timer_state (set_cancelled x false) stateScheduled) Hok2 Hx1 eq_refl) as (Hok3 & Hs3 & _).
  apply still_returns; [done |]; by eapply still_trans, still_trans.
Qed.

Lemma ScheduleOnce_ok q w t delay c call : enter q MaxCallbackDispatch w -> in_shape sh (Clock t) -> timer_cb_ok c ->
  (calm = true -> 0 < delay) -> call_ok q 1 MaxCallbackDispatch call ->
  returns w (ScheduleOnce w t delay c call) (lead w).
Proof.
  intros He Ht Hc Hcalm Hcall; pose proof (enter_ok _ _ _ _ _ He) as Hok.
  destruct (decide (0 < delay)); [by apply ScheduleOnce_quiet |].
  assert (calm = false) as Hwild by (destruct calm; [by specialize (Hcalm eq_refl) | done]).
  destruct (timer_here w t Hok Ht) as (x & Hx).
  unfold ScheduleOnce, deref; rewrite Hx; res_step; case_decide; [| by apply still_returns].
  destruct (timer_update w t x (set_cancelled x false) Hok Hx eq_refl) as (Hok1 & Hs1 & Hx1).
  rewrite decide_True by lia.
  destruct (call_after sh calm q 1 _ call w _ Hcall He Hok1 Hs1) as (w2 & -> & Hok2 & Ha2); res_step.
  exists w2, None; split_and!; try done; eapply after_weaken; [| done]; congruence.
Qed.

Lemma Timer_Cancel_ok w t base : world_ok w -> in_shape sh (Clock t) -> returns w (Timer_Cancel w t) base.
Proof.
  intros Hok Ht; destruct (timer_here w t Hok Ht) as (x & Hx); unfold Timer_Cancel, deref; rewrite Hx; res_step.
  destruct (it_Unset_ok w t x Hok Hx) as (w1 & err & -> & Hok1 & Hs1 & Ho1); res_step; rewrite <-Ho1 in Hx.
  destruct err as [e |]; [by apply still_returns |].
  destruct (timer_update w1 t x (set_timer_state (set_cancelled x true) stateReady) Hok1 Hx eq_refl) as (? & ? & _).
  apply still_returns; [done | by eapply still_trans].
Qed.

Lemma Timer_Close_ok w t base : world_ok w -> in_shape sh (Clock t) -> returns w (Timer_Close w t) base.
Proof.
  intros Hok Ht; destruct (timer_here w t Hok Ht) as (x & Hx); unfold Timer_Close, it_Close, deref.
  rewrite Hx; res_step; case_decide; [by apply still_returns |].
  destruct (it_Unset_ok w t x Hok Hx) as (w1 & err & -> & Hok1 & Hs1 & Ho1); res_step; rewrite <-Ho1 in Hx.
  destruct (slot_here sh calm w1 _ _ Hok1 (timer_view _ _ _ Hx)) as (s & Hs & _); cbn in Hs.
  unfold slot_of, deref; rewrite Hs; res_step; destruct (sys_close _ _) as [y [e |]]; res_step;
    [by apply still_returns; [| eapply still_trans; [exact Hs1 | apply touches_still, touches_sys]] |].
  destruct (timer_update (set_sys w1 y) t x (set_timer_state x stateClosed) Hok1 Hx eq_refl) as (Hok2 & Hs2 & _).
  apply still_returns; [exact Hok2 |]; eapply still_trans; [exact Hs1 |].
  by eapply still_trans; [apply touches_still, (touches_sys w1 y) |].
Qed.

(** * Firing *)

Context (run_cb : prog -> W -> res W).
Context (run_cb_ok : forall k, ok_prog false k -> call_ok false 1 MaxCallbackDispatch (run_cb k)).

(** What [ScheduleOnce] does after the callback calls nothing. *)
Lemma run_timer_cb_ok w t c : enter false MaxCallbackDispatch w -> in_shape sh (Clock t) -> timer_cb_ok c ->
  runs w (run_timer_cb run_cb w t c) (lead w + 1).
Proof.
  intros He Ht Hc; destruct c as [k | rep k]; cbn in Hc |- *; [by apply run_cb_ok |].
  destruct Hc as [Hrep Hk]; destruct (run_cb_ok k Hk w He) as (w1 & -> & Hok1 & Ha); res_step.
  destruct (timer_here w1 t Hok1 Ht) as (x & Hx); unfold deref; rewrite Hx; res_step; destruct (cancelled x).
  - destruct (timer_update w1 t x (set_cancelled x false) Hok1 Hx eq_refl) as (Hok2 & Hs2 & _).
    eexists; split_and!; [done .. |]; eapply after_trans; [exact Ha | by apply still_after].
  - destruct (ScheduleOnce_quiet w1 t rep (Repeating rep k) (fun _ => Panic) (lead w + 1)) as
      (w2 & err & E & Hok2 & Ha2); try done.
    rewrite E; res_step; exists w2; split_and!; try done; by eapply after_trans.
Qed.

Lemma onTimer_ok w t x c : enter false MaxCallbackDispatch w -> timers (objs w) !! t = Some x -> timer_cb_ok c ->
  runs w (onTimer run_cb w t c) (lead w + 1).
Proof.
  intros He Hx Hc; pose proof (enter_ok _ _ _ _ _ He) as Hok.
  destruct (slot_here sh calm w _ _ Hok (timer_view _ _ _ Hx)) as (s & Hs & _); cbn in Hs.
  unfold onTimer, slot_of, deref; rewrite Hx; res_step; rewrite Hs; res_step; set (w1 := set_pendingTimers _ _).
  assert (in_shape sh (Clock t)) as Ht by (apply (wo_shape _ _ _ _ _ Hok); cbn; by rewrite Hx).
  destruct (timer_update w1 t x (set_timer_state x stateReady) Hok Hx eq_refl) as (Hok2 & Hs2 & _).
  set (w2 := set_timer w1 t _) in *; assert (still w w2) as Hs3 by (eapply still_trans; [| exact Hs2]; by split).
  eapply still_runs; [exact Hs3 |]; rewrite <-(still_lead _ _ Hs3).
  apply (run_timer_cb_ok _ t c); [by eapply still_enter | done | done].
Qed.
End timers_ok.
