(* ===== verification/RunLoopSpec.v ===== *)
(** Every program of the user, every handler, every poll and every cancellation returns and
    keeps the invariant of the event loop. *)

From stdpp Require Import gmap.
From S2P Require Import Prelude Poller PollerSpec NetAddr EventLoop FileIO Timers Adapter PacketConn ListenConn UDPPeer RunLoop LoopInvariant FileIOSpec NetIOSpec TimersSpec.

Section run_ok.
Context {K S : Type} `{Epoll K} `{System S}.
Context (sh : shape) (calm : bool).
Implicit Types (w : world K S).
Abbreviation ok_prog q := (valid sh calm q).
Abbreviation world_ok := (world_ok sh calm).
Abbreviation enter := (enter sh calm).
Abbreviation runs := (runs sh calm).
Abbreviation returns := (returns sh calm).
Abbreviation call_ok := (call_ok sh calm).
Abbreviation good := (good sh calm).

(** * Programs *)

Lemma IO_Post_ok w h base : world_ok w -> lck (io_poller (ioc w)) = false -> ok_prog true h ->
  returns w (IO_Post w (Posted h)) base.
Proof.
  intros Hok Hl Hh; unfold IO_Post, Post; rewrite Hl.
  set (p := mkPoller _ _ _ _ _ _ _ _); destruct (waker_Write p) as [p' err] eqn:Ew.
  assert (slots p' = slots (io_poller (ioc w)) /\ waker p' = waker (io_poller (ioc w)) /\
    kernel p' = kernel (io_poller (ioc w)) /\ posts p' = posts (io_poller (ioc w)) ++ [Posted h] /\
    lck p' = false /\ pending p' = pending (io_poller (ioc w)) + 1 /\ closed p' = closed (io_poller (ioc w)))
    as (E1 & E2 & E3 & E4 & E5 & E6 & E7).
  { unfold waker_Write in Ew; change (closed p) with (closed (io_poller (ioc w))) in Ew.
    destruct (closed (io_poller (ioc w))) eqn:Ec; injection Ew as <- _; by split_and!. }
  assert (poller_ok p') as Hp'.
  { eapply poller_ok_ext; [exact (wo_poller _ _ _ _ _ Hok) | done | done | congruence ..]. }
  apply still_returns.
  - destruct Hok; split; cbn; try rewrite E1; try rewrite E2; try done.
    rewrite E4; apply Forall_app; split; [done |]; constructor; [by exists h | done].
  - split; try done; split; cbn; rewrite ?E1, ?E2, ?E3, ?E5; try done; [| congruence].
    unfold balance; rewrite E1, E4, E6; llia.
Qed.

(** A program that is run after some others. *)
Definition prog_ok q p : Prop := forall w, enter q MaxCallbackDispatch w -> runs w (run p w) (lead w).

Lemma runs_next q w r p : enter q MaxCallbackDispatch w -> prog_ok q p -> runs w r (lead w) ->
  runs w (w ← r; run p w) (lead w).
Proof.
  intros He Hp (w1 & -> & Hok1 & Ha1); res_step.
  destruct (Hp w1) as (w2 & E & Hok2 & Ha2); [by eapply after_enter |].
  rewrite (after_lead _ _ _ _ Ha1) in Ha2; exists w2; split_and!; [done | done | by eapply after_trans].
Qed.

Lemma returns_next q w r (p : option error -> prog) : enter q MaxCallbackDispatch w -> (forall e, prog_ok q (p e)) ->
  returns w r (lead w) -> runs w ('(w, err) ← r; run (p err) w) (lead w).
Proof.
  intros He Hp (w1 & err & -> & Hok1 & Ha1); res_step.
  destruct (Hp err w1) as (w2 & E & Hok2 & Ha2); [by eapply after_enter |].
  rewrite (after_lead _ _ _ _ Ha1) in Ha2; exists w2; split_and!; [done | done | by eapply after_trans].
Qed.

Lemma callback_ok q p : prog_ok q p -> call_ok q 1 MaxCallbackDispatch (on_stack (run p)).
Proof. apply on_stack_ok. Qed.

Lemma run_ok p : forall q, ok_prog q p -> prog_ok q p.
Proof.
  induction p; intros q Hv w He; cbn in Hv |- *; pose proof (enter_ok _ _ _ _ _ He) as Hok.
  - by apply still_ends.
  - destruct Hv as (? & ? & ? & ?); eapply runs_next; eauto using asyncRead_ok, callback_ok.
  - destruct Hv as (? & ? & ? & ?); eapply runs_next; eauto using asyncWrite_ok, callback_ok.
  - destruct Hv as (? & ? & ?); eapply returns_next; eauto using file_Close_ok.
  - destruct Hv as (? & ? & ? & ?); eapply runs_next; eauto using adapter_asyncRead_ok, callback_ok.
  - destruct Hv as (? & ? & ? & ?); eapply runs_next; eauto using adapter_asyncWrite_ok, callback_ok.
  - destruct Hv as (? & ? & ?); eapply returns_next; eauto using adapter_Close_ok.
  - destruct Hv as (? & ? & ? & ?); eapply runs_next; eauto using packet_asyncReadFrom_ok, callback_ok.
  - destruct Hv as (? & ? & ? & ? & ?); eapply runs_next; eauto using packet_AsyncWriteTo_ok, callback_ok.
  - destruct Hv as (? & ? & ?); eapply returns_next; eauto using packet_Close_ok.
  - destruct Hv as (? & ? & ?); eapply runs_next; eauto using AsyncAccept_ok, callback_ok.
  - destruct Hv as (? & ?); eapply returns_next; eauto using listener_Close_ok.
  - destruct Hv as (? & ? & ? & ?); eapply runs_next; eauto using peer_AsyncRead_ok, callback_ok.
  - destruct Hv as (? & ? & ?); eapply runs_next; eauto using peer_SetAsyncReadBuffer_ok.
  - destruct Hv as (? & ? & ? & ? & ?); eapply runs_next; eauto using peer_AsyncWrite_ok, callback_ok.
  - destruct Hv as (? & ? & ?); eapply returns_next; eauto using peer_Close_ok.
  - destruct Hv as (? & ? & ? & ?); eapply returns_next; eauto.
    eapply ScheduleOnce_ok; eauto using callback_ok; by eapply valid_false.
  - destruct Hv as (? & ? & ?); eapply returns_next; eauto; unfold ScheduleRepeating.
    case_decide; [by apply still_returns |]; apply ScheduleOnce_quiet; try done; try lia.
    split; [lia | by eapply valid_false].
  - destruct Hv as (? & ?); eapply returns_next; eauto using Timer_Cancel_ok.
  - destruct Hv as (? & ?); eapply returns_next; eauto using Timer_Close_ok.
  - destruct Hv as (-> & ? & ?); eapply returns_next; eauto; apply IO_Post_ok; try done.
    pose proof (enter_lck _ _ _ _ _ He); destruct (lck _); [by exfalso; intuition | done].
Qed.

Lemma stack_ok q p : ok_prog q p -> call_ok q 1 MaxCallbackDispatch (on_stack (run p)).
Proof. intros; by apply callback_ok, run_ok. Qed.

(** * Handlers *)

Lemma exec_ok w o x et h err : enter false (MaxCallbackDispatch - 1) w -> view (objs w) o = Some x ->
  good (mem w) o x et h -> runs w (exec h err w) (lead w + 1).
Proof.
  intros He Hx Hg; pose proof (enter_ok _ _ _ _ _ He) as Hok.
  assert (enter false MaxCallbackDispatch w) as He1 by (destruct He; split; [done | done | lia]).
  pose proof (fun i => mem_shape sh calm w i Hok) as Hm.
  destruct o; apply fmap_Some in Hx as (y & Hy & ->); destruct et, h; cbn in Hg; try done.
  - destruct Hg as [-> ?]; eapply onRead_ok; eauto; intros; by apply stack_ok.
  - destruct Hg as [-> ?]; eapply onWrite_ok; eauto; intros; by apply stack_ok.
  - destruct Hg as [-> ?]; eapply onAdapterRead_ok; eauto; intros; by apply stack_ok.
  - destruct Hg as [-> ?]; eapply onAdapterWrite_ok; eauto; intros; by apply stack_ok.
  - destruct Hg as (-> & ?%Hm & ?); eapply onPacketRead_ok; eauto; intros; by apply stack_ok.
  - destruct Hg as (-> & ?%Hm & ? & ?); eapply onPacketWrite_ok; eauto; intros; by apply stack_ok.
  - destruct Hg as [-> ?]; eapply onAccept_ok; eauto; intros; by apply stack_ok.
  - destruct Hg as [-> ?]; eapply onPeerRead_ok; eauto; intros; by apply stack_ok.
  - destruct Hg as [-> ?]; eapply onPeerWrite_ok; eauto; intros; by apply stack_ok.
  - destruct Hg as [-> ?]; eapply onTimer_ok; eauto; intros; by apply stack_ok.
Qed.

(** * The loop *)

(** Between two polls no callback is on the stack; the callbacks called so far were counted
    up to the limit, and were at most one more on the stack in a calm run in which the kernel
    refused nothing. *)
Record loop_ok w : Prop := {
  lo_world : world_ok w;
  lo_dispatched : Dispatched (ioc w) = 0;
  lo_nesting : nesting w = 0;
  lo_called : Forall (fun e => e.2 <= MaxCallbackDispatch /\ (calm = true -> willing w -> e.1 <= e.2 + 1)) (called w)
}.

Lemma loop_lead w : loop_ok w -> lead w = 0.
Proof. intros [_ H1 H2 _]; unfold lead; lia. Qed.

Lemma loop_enter q w : loop_ok w -> (lck (io_poller (ioc w)) = true -> q = true) ->
  enter q (MaxCallbackDispatch - 1) w.
Proof. intros [? Hd _ _] Hl; split; [done | done | rewrite Hd; unfold MaxCallbackDispatch; lia]. Qed.

Lemma called_willing w w1 l : keeps (io_poller (ioc w)) (io_poller (ioc w1)) ->
  Forall (fun e : Z * Z => e.2 <= MaxCallbackDispatch /\ (calm = true -> willing w -> e.1 <= e.2 + 1)) l ->
  Forall (fun e => e.2 <= MaxCallbackDispatch /\ (calm = true -> willing w1 -> e.1 <= e.2 + 1)) l.
Proof.
  intros Hk Hl; eapply list.Forall_impl; [exact Hl |]; intros e [? Hc]; split; [done |]; intros Ht Hw.
  by eapply Hc, keeps_willing.
Qed.

Lemma loop_still w w1 : loop_ok w -> world_ok w1 -> still w w1 -> loop_ok w1.
Proof.
  intros [] Hok []; split; [done | congruence | congruence |]; rewrite still_called; by eapply called_willing.
Qed.

Lemma loop_runs w r base : loop_ok w -> base <= 1 -> runs w r base ->
  exists w', r = Ret w' /\ loop_ok w' /\ keeps (io_poller (ioc w)) (io_poller (ioc w')).
Proof.
  intros [H1 H2 H3 H4] Hb (w' & E & Hok & [a1 a2 a3 (new & a4 & a5)]).
  exists w'; split_and!; [done | | done].
  split; [done | congruence | congruence |]; rewrite a4; apply Forall_app; split; [by eapply called_willing |].
  eapply list.Forall_impl; [exact a5 |]; intros [x y] [? Hcalm]; split; [done |]; intros Hc' Hw.
  specialize (Hcalm Hc' Hw); cbn in *; lia.
Qed.

Lemma exec_disarmed w i s et : loop_ok w -> lck (io_poller (ioc w)) = false ->
  slots (io_poller (ioc w)) !! i = Some s -> i <> waker (io_poller (ioc w)) ->
  has_flag (Events s) (event_flag et) = true ->
  exists p' e h, delRW (io_poller (ioc w)) i (event_flag et) = Ret (p', e) /\ handler_of s et = Some h /\
    forall err, exists w', exec h err (set_poller w p') = Ret w' /\ loop_ok w' /\
      keeps (io_poller (ioc w)) (io_poller (ioc w')).
Proof.
  intros Hw Hl Hs Hi Hf.
  destruct (disarm_ok sh calm w i s et (lo_world w Hw) Hs Hi Hf) as (p' & e & h & o & x & E & Hh & Hok & Hst & Hx & Hg).
  pose proof (loop_still _ _ Hw Hok Hst) as Hw1; pose proof (still_keeps _ _ Hst) as Hk.
  exists p', e, h; split_and!; [done .. |]; intros err.
  destruct (loop_runs (set_poller w p') (exec h err (set_poller w p')) 1 Hw1) as (w' & ? & ? & ?); [done | |].
  - replace 1 with (lead (set_poller w p') + 1) by (rewrite loop_lead by done; done).
    apply (exec_ok _ o x et); [| done | done].
    apply loop_enter; [done |]; by rewrite (keeps_lck _ _ Hk), Hl.
  - exists w'; split_and!; [done .. | by eapply keeps_trans].
Qed.

#[export] Instance loop_lawful : LawfulProgram (world K S) exec loop_ok.
Proof.
  split.
  - intros w [Hok _ _ _]; apply Hok.
  - intros w p' [Hok Hd Hn Hc] Hp Hs Hw Hpo Hrf; split; try done; [| unfold willing in *; cbn in *; by rewrite Hrf].
    destruct Hok; split; cbn; try done; rewrite ?Hs, ?Hw; try done.
    destruct Hpo as [-> | ->]; [done | constructor].
  - intros w i s et Hw Hl Hs Hi Hf; destruct (exec_disarmed w i s et Hw Hl Hs Hi Hf) as (p' & e & h & E & Hh & Hx).
    destruct (Hx None) as (w' & ?); by exists p', e, h, w'.
  - intros w h Hw Hl Hin; pose proof (lo_world w Hw) as Hok; cbn in *.
    destruct (proj1 (list.Forall_forall _ _) (wo_posts _ _ _ _ _ Hok) h Hin) as (q & -> & Hq).
    apply (loop_runs w _ (lead w + 1) Hw); [by rewrite loop_lead |].
    apply (stack_ok true q Hq); destruct (loop_enter true w Hw ltac:(done)); split; [done | done | lia].
Qed.

Lemma poll_ok w t : loop_ok w -> lck (io_poller (ioc w)) = false ->
  exists w' r, poll w t = Ret (w', r) /\ loop_ok w' /\ keeps (io_poller (ioc w)) (io_poller (ioc w')).
Proof.
  intros Hw Hl; destruct (Poll_ok exec loop_ok w t Hw) as (w' & n & err & E & Hw' & Hk); [done |].
  unfold poll; rewrite E; res_step; destruct err as [e |]; [| by eexists _, _].
  repeat case_decide; by eexists _, _.
Qed.

(** * Cancelling *)

(** What the four cancelling functions do, for a slot and an event. *)
Definition cancel_event w (i : nat) (et : EventType) : res (world K S) :=
  s ← slot_of w i;
  if has_flag (Events s) (event_flag et) then
    '(w, err) ← polling w (delRW (io_poller (ioc w)) i (event_flag et));
    let err := match err with None => Some ErrCancelled | Some e => Some e end in
    match handler_of s et with Some h => exec h err w | None => Panic end
  else Ret w.

Lemma cancel_event_ok w o x et : loop_ok w -> view (objs w) o = Some x -> lck (io_poller (ioc w)) = false ->
  exists w', cancel_event w (object_slot x) et = Ret w' /\ loop_ok w' /\
    keeps (io_poller (ioc w)) (io_poller (ioc w')).
Proof.
  intros Hw Hx Hl; destruct (slot_here sh calm w o x (lo_world w Hw) Hx) as (s & Hs & Hi & _).
  unfold cancel_event, slot_of, deref; rewrite Hs; res_step; destruct (has_flag _ _) eqn:Ef; [| by exists w].
  destruct (exec_disarmed w _ s et Hw Hl Hs Hi Ef) as (p' & e & h & E1 & E2 & E3).
  unfold polling; rewrite E1; res_step; rewrite E2; apply E3.
Qed.

(** Cancelling the reads of an object, then its writes. *)
Lemma cancel_both w o : loop_ok w -> in_shape sh o -> lck (io_poller (ioc w)) = false ->
  exists w1 w2 x1 x2, view (objs w) o = Some x1 /\ cancel_event w (object_slot x1) ReadEvent = Ret w1 /\
    view (objs w1) o = Some x2 /\ cancel_event w1 (object_slot x2) WriteEvent = Ret w2 /\ loop_ok w2 /\
    keeps (io_poller (ioc w)) (io_poller (ioc w2)).
Proof.
  intros Hw Ho Hl; destruct (object_here sh calm w o (lo_world w Hw) Ho) as [x Hx].
  destruct (cancel_event_ok w o x ReadEvent Hw Hx Hl) as (w1 & E1 & Hw1 & Hk1).
  destruct (object_here sh calm w1 o (lo_world w1 Hw1) Ho) as [x1 Hx1].
  destruct (cancel_event_ok w1 o x1 WriteEvent Hw1 Hx1) as (w2 & E2 & Hw2 & Hk2); [by rewrite (keeps_lck _ _ Hk1) |].
  exists w1, w2, x, x1; split_and!; try done; by eapply keeps_trans.
Qed.

Lemma Cancel_ok w f : loop_ok w -> in_shape sh (File f) -> lck (io_poller (ioc w)) = false ->
  exists w', Cancel w f = Ret w' /\ loop_ok w' /\ keeps (io_poller (ioc w)) (io_poller (ioc w')).
Proof.
  intros Hw Hf Hl; destruct (cancel_both w _ Hw Hf Hl) as (w1 & w2 & y1 & y2 & H1 & E1 & H2 & E2 & ? & ?).
  apply fmap_Some in H1 as (x1 & H1 & ->), H2 as (x2 & H2 & ->); exists w2; split; [| done].
  unfold Cancel, cancelReads, deref; rewrite H1.
  change ((w ← cancel_event w (file_slot x1) ReadEvent; cancelWrites w f) = Ret w2).
  cbn in E1; rewrite E1; res_step; unfold cancelWrites, deref; rewrite H2; exact E2.
Qed.

Lemma adapter_Cancel_ok w a : loop_ok w -> in_shape sh (Adapter a) -> lck (io_poller (ioc w)) = false ->
  exists w', adapter_Cancel w a = Ret w' /\ loop_ok w' /\ keeps (io_poller (ioc w)) (io_poller (ioc w')).
Proof.
  intros Hw Ha Hl; destruct (cancel_both w _ Hw Ha Hl) as (w1 & w2 & y1 & y2 & H1 & E1 & H2 & E2 & ? & ?).
  apply fmap_Some in H1 as (x1 & H1 & ->), H2 as (x2 & H2 & ->); exists w2; split; [| done].
  unfold adapter_Cancel, adapter_cancelReads, deref; rewrite H1.
  change ((w ← cancel_event w (adapter_slot x1) ReadEvent; adapter_cancelWrites w a) = Ret w2).
  cbn in E1; rewrite E1; res_step; unfold adapter_cancelWrites, deref; rewrite H2; exact E2.
Qed.
End run_ok.
