(* ===== verification/LoopBoot.v ===== *)
(** Starting the event loop with objects of every kind, and what its goroutine does. *)

From stdpp Require Import gmap.
From S2P Require Import Prelude Poller PollerSpec NetAddr EventLoop FileIO Timers Adapter UDPPeer RunLoop LoopInvariant RunLoopSpec.

(** The descriptors of the objects of each kind. *)
Record descriptors : Type := mkFds {
  file_fds : list Z; adapter_fds : list Z; packet_fds : list Z; listener_fds : list Z; peer_fds : list Z;
  timer_fds : list Z
}.

Definition all_fds (d : descriptors) : list Z :=
  file_fds d ++ adapter_fds d ++ packet_fds d ++ listener_fds d ++ peer_fds d ++ timer_fds d.

Definition shape_of (d : descriptors) (m : list (list byte)) : shape :=
  mkShape (length (file_fds d)) (length (adapter_fds d)) (length (packet_fds d)) (length (listener_fds d))
    (length (peer_fds d)) (length (timer_fds d)) (length m).

(** The slot of an object: after the waker's, in the order of [all_fds]. *)
Definition place (sh : shape) (o : owner) : nat :=
  match o with
  | File f => 1 + f
  | Adapter a => 1 + nfiles sh + a
  | Packet c => 1 + nfiles sh + nadapters sh + c
  | Listener l => 1 + nfiles sh + nadapters sh + npackets sh + l
  | Peer p => 1 + nfiles sh + nadapters sh + npackets sh + nlisteners sh + p
  | Clock t => 1 + nfiles sh + nadapters sh + npackets sh + nlisteners sh + npeers sh + t
  end.

(** The fields of [NewUDPPeer] that matter here. *)
Definition new_peer (i : nat) (fd : Z) : UDPPeer := mkPeer i false fd None None None noAddrPort None noStats.

Definition boot_objects (d : descriptors) (m : list (list byte)) : objects :=
  let sh := shape_of d m in
  mkObjects (imap (fun f _ => newFile (place sh (File f))) (file_fds d))
    (imap (fun a _ => NewAsyncAdapter (place sh (Adapter a))) (adapter_fds d))
    (imap (fun c _ => mkPacketConn (place sh (Packet c)) false) (packet_fds d))
    (imap (fun l _ => mkListener (place sh (Listener l))) (listener_fds d))
    (imap (fun p fd => new_peer (place sh (Peer p)) fd) (peer_fds d))
    (imap (fun t _ => NewTimer (place sh (Clock t))) (timer_fds d)).

Section boot.
Context {K S : Type} `{Epoll K} `{System S}.

(** [NewIO], then the constructor of each object. *)
Definition boot (k : K) (wakerFd : Z) (d : descriptors) (m : list (list byte)) (s : S) :
    res (world K S + error) :=
  r ← NewPoller k wakerFd;
  match r with
  | inr e => Ret (inr e)
  | inl p => Ret (inl (mkWorld (mkIO (with_slots p (all_fds d)) ∅ ∅ ∅ 0) (boot_objects d m) m s 0 []))
  end.

Lemma boot_view d m o x : view (boot_objects d m) o = Some x ->
  in_shape (shape_of d m) o /\ object_slot x = place (shape_of d m) o /\ object_closed x = false.
Proof.
  destruct o; cbn [view boot_objects files adapters packets listeners peers timers]; rewrite list_lookup_imap;
    intros (y & (fd & Hfd & ->)%fmap_Some & ->)%fmap_Some; split_and!; try done; by eapply lookup_lt_Some.
Qed.

Lemma boot_present d m o : in_shape (shape_of d m) o -> is_Some (view (boot_objects d m) o).
Proof.
  destruct o; cbn [view boot_objects files adapters packets listeners peers timers in_shape]; rewrite list_lookup_imap;
    intros [fd ->]%lookup_lt_is_Some; by eexists.
Qed.

Lemma place_inj sh o o' : in_shape sh o -> in_shape sh o' -> place sh o = place sh o' -> o = o'.
Proof. destruct o, o'; cbn; intros; try (f_equal; lia); lia. Qed.

Lemma place_onto d m i : (0 < i < 1 + length (all_fds d))%nat ->
  exists o, in_shape (shape_of d m) o /\ place (shape_of d m) o = i.
Proof.
  unfold all_fds; rewrite !length_app; intros Hi; cbn in Hi.
  set (a := length (file_fds d)) in *; set (b := length (adapter_fds d)) in *; set (c := length (packet_fds d)) in *.
  set (e := length (listener_fds d)) in *; set (f := length (peer_fds d)) in *.
  destruct (decide (i < 1 + a)%nat); [exists (File (i - 1)); cbn; lia |].
  destruct (decide (i < 1 + a + b)%nat); [exists (Adapter (i - 1 - a)); cbn; lia |].
  destruct (decide (i < 1 + a + b + c)%nat); [exists (Packet (i - 1 - a - b)); cbn; lia |].
  destruct (decide (i < 1 + a + b + c + e)%nat); [exists (Listener (i - 1 - a - b - c)); cbn; lia |].
  destruct (decide (i < 1 + a + b + c + e + f)%nat); [exists (Peer (i - 1 - a - b - c - e)); cbn; lia |].
  exists (Clock (i - 1 - a - b - c - e - f)); cbn; lia.
Qed.

Lemma place_bound d m o : in_shape (shape_of d m) o -> (0 < place (shape_of d m) o < 1 + length (all_fds d))%nat.
Proof. unfold all_fds; rewrite !length_app; destruct o; cbn; lia. Qed.

Lemma boot_world_ok calm k' fd d m : interest k' = {[fd := (1, 0%nat)]} -> NoDup (fd :: all_fds d) ->
  Forall (fun fd => 0 <= fd) (all_fds d) ->
  parts_ok (shape_of d m) calm
    (with_slots (mkPoller k' [mkSlot fd 1 None None] 0%nat 0 [] false 0 false) (all_fds d)) (boot_objects d m) m.
Proof.
  intros Hk Hnd Hpos; set (p := mkPoller _ _ _ _ _ _ _ _).
  split; [by apply boot_poller_ok | | done | constructor | | |].
  - intros o; split; [apply boot_present | intros [x Hx]; destruct (boot_view _ _ _ _ Hx); done].
  - intros o x (Ho & Hsl & Hcl)%boot_view; rewrite Hsl; pose proof (place_bound d m o Ho) as Hb; split; [cbn; lia |].
    destruct (lookup_lt_is_Some_2 (slots (with_slots p (all_fds d))) (place (shape_of d m) o)) as [s Hs];
      [cbn; rewrite length_fmap; lia |].
    destruct (boot_slots p (all_fds d) _ _ s eq_refl Hs) as [[E _] | (_ & He & Hf)]; [lia |].
    exists s; split_and!; [done | by eapply (Forall_lookup_1 _ _ _ _ Hpos) |].
    split; [rewrite He; by intros [] | done].
  - intros i Hi Hne; apply lookup_lt_is_Some in Hi; cbn in Hi, Hne; rewrite length_fmap in Hi.
    destruct (place_onto d m i ltac:(lia)) as (o & Ho & <-); destruct (boot_present d m o Ho) as [x Hx].
    exists o, x; split; [done | by apply boot_view in Hx as (_ & ? & _)].
  - intros o o' x x' (Ho & E & _)%boot_view (Ho' & E' & _)%boot_view Hs; eapply place_inj; [done .. | congruence].
Qed.

(** [boot] fails only if the kernel refuses to watch the waker. *)
Lemma boot_ok calm (k : K) fd d m (s : S) : interest k = ∅ -> NoDup (fd :: all_fds d) ->
  Forall (fun fd => 0 <= fd) (all_fds d) ->
  exists r, boot k fd d m s = Ret r /\ forall w, r = inl w -> loop_ok (shape_of d m) calm w /\
    balance (io_poller (ioc w)) = -1 /\ lck (io_poller (ioc w)) = false /\ waker (io_poller (ioc w)) = 0%nat.
Proof.
  intros Hk Hnd Hpos; destruct (NewPoller_ok (H := handler) k fd Hk) as (r & E & Hr); unfold boot; rewrite E; res_step.
  destruct r as [p | e]; eexists; (split; [done |]); intros w [= <-]; destruct (Hr p eq_refl) as (k' & -> & Hk').
  split_and!; [| | done | done].
  - split; try done; by apply boot_world_ok.
  - unfold balance; cbn [pending slots posts io_poller ioc with_slots].
    assert (forall l, armed_sum (idle_slot (H := handler) <$> l) = 0) as Hz by (by induction l).
    change (0 - (1 + armed_sum (idle_slot (H := handler) <$> all_fds d)) - 0 = -1); by rewrite Hz.
Qed.

(** * Runs of the loop *)

(** What the goroutine of the loop does: it calls into the library, polls, or cancels the
    operations of a file or an adapter. *)
Inductive action : Type :=
| Execute (p : prog) | PollFor (timeoutMs : Z) | CancelFile (f : nat) | CancelAdapter (a : nat).

Definition act (a : action) (w : world K S) : res (world K S) :=
  match a with
  | Execute p => run p w
  | PollFor t => '(w, _) ← poll w t; Ret w
  | CancelFile f => Cancel w f
  | CancelAdapter a => adapter_Cancel w a
  end.

Fixpoint acts (l : list action) (w : world K S) : res (world K S) :=
  match l with
  | [] => Ret w
  | a :: l => w ← act a w; acts l w
  end.

Definition valid_action (sh : shape) (calm : bool) (a : action) : Prop :=
  match a with
  | Execute p => valid sh calm false p
  | PollFor _ => True
  | CancelFile f => in_shape sh (File f)
  | CancelAdapter a => in_shape sh (Adapter a)
  end.

Lemma act_ok sh calm a w : valid_action sh calm a -> loop_ok sh calm w -> lck (io_poller (ioc w)) = false ->
  exists w', act a w = Ret w' /\ loop_ok sh calm w' /\ keeps (io_poller (ioc w)) (io_poller (ioc w')).
Proof.
  intros Hv Hw Hl; destruct a as [p | t | f | a]; cbn in Hv |- *.
  - apply (loop_runs sh calm w _ (lead w) Hw); [by rewrite (loop_lead sh calm) |].
    apply (run_ok sh calm p false Hv).
    destruct (loop_enter sh calm false w Hw) as [? ? ?]; [congruence | split; [done | done | lia]].
  - destruct (poll_ok sh calm w t Hw Hl) as (w' & r & -> & ?); res_step; by exists w'.
  - by apply Cancel_ok.
  - by apply adapter_Cancel_ok.
Qed.

Lemma acts_ok sh calm l : forall w, Forall (valid_action sh calm) l -> loop_ok sh calm w ->
  lck (io_poller (ioc w)) = false ->
  exists w', acts l w = Ret w' /\ loop_ok sh calm w' /\ keeps (io_poller (ioc w)) (io_poller (ioc w')).
Proof.
  induction l as [| a l IH]; intros w Hv Hw Hl; [by exists w |]; apply list.Forall_cons in Hv as [Ha Hv].
  cbn; destruct (act_ok _ _ a w Ha Hw Hl) as (w1 & -> & Hw1 & Hk1); res_step.
  destruct (IH w1 Hv Hw1) as (w2 & -> & Hw2 & Hk2); [by rewrite (keeps_lck _ _ Hk1) |].
  exists w2; split_and!; [done | done | by eapply keeps_trans].
Qed.
End boot.
