(* ===== verification/EventLoopProps.v ===== *)
(** The theorems on the event loop: what holds after any sequence of calls, polls and
    cancellations, how deep callbacks nest, and how the corner cases behave. *)

From stdpp Require Import gmap.
From S2P Require Import Prelude Poller PollerSpec NetAddr EventLoop FileIO Timers UDPPeer RunLoop LoopInvariant RunLoopSpec LoopBoot.

(** * A scripted kernel and system *)

(** What the n-th [epoll_wait] and the n-th read report; [denied]: a request was refused. *)
Record script_epoll : Type := mkScript {
  watched : interests; reports : list (list (Z * nat)); denied : bool
}.

Definition is_watched (m : interests) (ev : Z * nat) : bool :=
  existsb (fun e => bool_decide (e.2.2 = ev.2)) (map_to_list m).

Lemma is_watched_true m ev : is_watched m ev = true -> exists fd x, m !! fd = Some (x, ev.2).
Proof.
  unfold is_watched; rewrite existsb_exists; intros ([fd [x i]] & Hin & Hi); cbn in Hi.
  apply bool_decide_eq_true in Hi; subst i; exists fd, x.
  by apply elem_of_map_to_list, list_elem_of_In.
Qed.

Definition script_ctl (k : script_epoll) (c : ctl) : script_epoll * option error :=
  let present fd := match watched k !! fd with Some _ => true | None => false end in
  let refuse e := (mkScript (watched k) (reports k) true, Some e) in
  let done := (mkScript (ctl_effect (watched k) c) (reports k) (denied k), None) in
  match c with
  | CtlAdd fd _ _ => if present fd then refuse (ErrOther 17) else done
  | CtlMod fd _ _ | CtlDel fd => if present fd then done else refuse (ErrOther 2)
  end.

Definition script_wait (k : script_epoll) (n t : Z) : script_epoll * (list (Z * nat) + error) :=
  match reports k with
  | [] => (k, inl [])
  | evs :: rest =>
      (mkScript (watched k) rest (denied k), inl (ztake n (List.filter (is_watched (watched k)) evs)))
  end.

#[export] Instance script_Epoll : Epoll script_epoll.
Proof.
  refine {| interest := watched; refused := denied; epoll_ctl := script_ctl;
            epoll_wait := script_wait |}.
  - intros k c k' E; unfold script_ctl in E; destruct c; destruct (watched k !! fd); by simplify_eq/=.
  - intros k c k' e E; unfold script_ctl in E; destruct c; destruct (watched k !! fd); by simplify_eq/=.
  - intros k c k' E; unfold script_ctl in E; destruct c; destruct (watched k !! fd); by simplify_eq/=.
  - intros k c k' e E; unfold script_ctl in E; destruct c; destruct (watched k !! fd); by simplify_eq/=.
  - intros k n t k' r E; unfold script_wait in E; destruct (reports k); by simplify_eq/=.
  - intros k n t k' r E; unfold script_wait in E; destruct (reports k); by simplify_eq/=.
  - intros k n t k' evs Hn E; unfold script_wait in E; destruct (reports k) as [| l rest]; simplify_eq/=.
    { split; [llia | constructor]. }
    split; [llia |]; apply Forall_take, list.Forall_forall; intros ev Hev.
    by apply list_elem_of_In, filter_In in Hev as [_ Hev]; apply is_watched_true.
Defined.

(** Reads and datagrams are answered from the script, then would block; writes take
    everything; nobody connects. *)
Definition script_system : Type := list (list byte + error).

Definition script_read (s : script_system) (n : Z) : script_system * (list byte + error) :=
  match s with
  | [] => ([], inr EAGAIN)
  | inl bs :: rest => (rest, inl (ztake n bs))
  | inr e :: rest => (rest, inr e)
  end.

Definition localhost : Sockaddr := SockaddrInet4 [Byte.x7f; Byte.x00; Byte.x00; Byte.x01] 9000.

Lemma script_read_count s n s' bs : 0 <= n -> script_read s n = (s', inl bs) -> zlen bs <= n.
Proof. intros Hn; destruct s as [| [bs' | e] s]; intros E; simplify_eq/=; llia. Qed.

#[export] Instance script_System : System script_system.
Proof.
  refine {| sys_read s fd n := script_read s n;
            sys_write s fd bs := (s, inl (zlen bs));
            sys_close s fd := (s, None);
            sys_recvfrom s fd n :=
              let '(s, r) := script_read s n in
              (s, match r with inl bs => inl (bs, Some localhost) | inr e => inr e end);
            sys_sendto s fd bs to := (s, None);
            sys_accept s fd := (s, inr EAGAIN);
            sys_getsockname s fd := (s, inl localhost);
            sys_setnonblock s fd b := (s, None);
            timerfd_settime s fd t := (s, None);
            rw_read s a n :=
              let '(s, r) := script_read s n in
              (s, match r with inl bs => (bs, None) | inr e => ([], Some e) end);
            rw_write s a bs := (s, (zlen bs, None)) |}.
  - intros s fd n s' bs; apply script_read_count.
  - intros s fd bs s' n [= _ <-]; llia.
  - intros s fd n s' bs from Hn E; destruct (script_read s n) as [s1 [bs1 | e]] eqn:Er; simplify_eq.
    by eapply script_read_count.
  - intros s a n s' bs err Hn E; destruct (script_read s n) as [s1 [bs1 | e]] eqn:Er; simplify_eq;
      [by eapply script_read_count | done].
  - intros s a bs s' n err E; simplify_eq; llia.
Defined.

Section theorems.
Context {K S : Type} `{Epoll K} `{System S}.

(** * Bookkeeping *)



(** * Corner cases *)

(** [AsyncReadAll] on a descriptor that has some bytes, but fewer than the buffer
    holds, calls back at once, without an error and with the number of bytes it has: it
    does not go on to read the rest. *)
Theorem read_all_short (w : world K S) f i k call x sl bs got s' :
  files (objs w) !! f = Some x -> slots (io_poller (ioc w)) !! file_slot x = Some sl -> mem w !! i = Some bs ->
  Dispatched (ioc w) < MaxCallbackDispatch ->
  sys_read (sys w) (Fd sl) (zlen bs) = (s', inl got) -> 0 < zlen got < zlen bs ->
  exists w1, asyncRead w f i true k call = counted (call None (zlen got)) w1 /\
    mem w1 !! i = Some (got ++ zdrop (zlen got) bs) /\ io_poller (ioc w1) = io_poller (ioc w).
Proof.
  intros Hx Hs Hi Hd Hr Hg; unfold asyncRead, deref; rewrite Hx; res_step; rewrite decide_True by done.
  unfold asyncReadNow, file_Read, slot_of, buffer, deref; cbn [files objs set_objs set_file ioc mem].
  rewrite list_lookup_insert_eq by (by eapply lookup_lt_Some); res_step; cbn [file_slot set_readReactor].
  rewrite Hs; res_step; rewrite Hi; res_step; rewrite decide_True by lia.
  rewrite Z.sub_0_r; cbn [sys set_file set_objs]; rewrite Hr; cbn [store].
  rewrite (decide_False (P := zlen got = 0)) by lia; res_step; cbn [mem set_mem set_sys set_file set_objs].
  rewrite list_lookup_insert_eq by (by eapply lookup_lt_Some); res_step.
  assert (length (write_at 0 got bs) = length bs) as Hl by (apply length_write_at; lia).
  rewrite decide_False by (intros [_ Hn]; apply Hn; split; [done | unfold zlen in *; rewrite Hl; lia]).
  rewrite decide_False by done; eexists; split; [done |]; split; [| done].
  cbn; rewrite list_lookup_insert_eq by (by eapply lookup_lt_Some); unfold write_at; by rewrite Z.add_0_l.
Qed.

(** When the kernel refuses to watch a descriptor, the slot stays marked: the error is
    reported once, and the next [SetRead] or [SetWrite] for the same event reports success
    without asking the kernel again, though it does not watch the descriptor and [Pending]
    counts the event. *)
Theorem failed_arm_sticks {H'} (p : poller K H') i s et e k' : slots p !! i = Some s -> Events s = 0 ->
  closed p = false -> epoll_ctl (kernel p) (CtlAdd (Fd s) (event_flag et) i) = (k', Some e) ->
  exists p', setRW p i (event_flag et) = Ret (p', Some e) /\ setRW p' i (event_flag et) = Ret (p', None) /\
    interest (kernel p') = interest (kernel p) /\ Pending p' = Pending p + 1.
Proof.
  intros Hs He Ho Hc; unfold setRW at 1; rewrite Hs, He.
  assert (has_flag 0 (event_flag et) = false /\ Z.lor 0 (event_flag et) = event_flag et /\
    has_flag (event_flag et) (event_flag et) = true) as (Hf & Hl & Ht) by (by destruct et).
  rewrite Hf, decide_True, Hl by done; unfold add, control; cbn [kernel closed set_slot add_pending]; rewrite Ho, Hc.
  eexists; split; [done |]; split; [| split; [by apply ctl_failed in Hc | done]].
  unfold setRW; cbn [slots set_slot add_pending].
  rewrite list_lookup_insert_eq by (by eapply lookup_lt_Some); cbn [Events set_events]; by rewrite Ht.
Qed.

(** [Cancel] on a closed timer succeeds and makes it ready again: the next
    [ScheduleOnce] arms the descriptor that was closed instead of failing with
    [ErrCancelled]. *)
Theorem cancel_reopens_timer (w : world K S) t x sl delay c call : timers (objs w) !! t = Some x ->
  timer_state x = stateClosed -> slots (io_poller (ioc w)) !! timer_slot x = Some sl ->
  has_flag (Events sl) PollerReadEvent = false -> closed (io_poller (ioc w)) = false -> 0 < delay ->
  ScheduleOnce w t delay c call = Ret (w, Some ErrCancelled) /\
  exists w' x', Timer_Cancel w t = Ret (w', None) /\ timers (objs w') !! t = Some x' /\
    timer_state x' = stateReady /\
    (forall s' k', Events sl = 0 -> timerfd_settime (sys w) (Fd sl) delay = (s', None) ->
     epoll_ctl (kernel (io_poller (ioc w))) (CtlAdd (Fd sl) PollerReadEvent (timer_slot x)) = (k', None) ->
     exists w'' x'', ScheduleOnce w' t delay c call = Ret (w'', None) /\ timers (objs w'') !! t = Some x'' /\
       timer_state x'' = stateScheduled).
Proof.
  intros Hx Hst Hs Hf Hop Hd; unfold ScheduleOnce, Timer_Cancel, deref; rewrite Hx; res_step.
  rewrite decide_False by (by rewrite Hst); split; [done |].
  unfold it_Unset, slot_of, deref; rewrite Hs; res_step; rewrite Hf; res_step.
  eexists _, _; split; [done |]; cbn [timers objs set_objs set_timer].
  rewrite list_lookup_insert_eq by (by eapply lookup_lt_Some); res_step; split; [done |]; split; [done |].
  intros s' k' He Hset Hctl; cbn [timer_state set_timer_state]; rewrite decide_True by done.
  rewrite decide_False by lia; unfold it_Set, it_Unset, slot_of, deref.
  cbn [ioc set_timer set_objs timer_slot set_cancelled set_timer_state]; rewrite Hs; res_step; rewrite Hf; res_step.
  cbn [ioc set_timer set_objs]; rewrite Hs; res_step; cbn [sys set_timer set_objs]; rewrite Hset.
  cbn [ioc set_timer set_objs set_sys io_poller]; unfold set_handler; rewrite Hs; res_step.
  unfold polling, SetRead, setRW; cbn [slots set_slot].
  rewrite list_lookup_insert_eq by (by eapply lookup_lt_Some); cbn [Events Slot_Set]; rewrite Hf, He.
  rewrite decide_True by done; unfold add, control; cbn [kernel closed set_slot add_pending Fd Slot_Set]; rewrite Hop.
  change (Z.lor 0 PollerReadEvent) with PollerReadEvent; rewrite Hctl; res_step.
  eexists _, _; split; [done |]; cbn [timers objs set_objs set_timer set_pendingTimers set_ioc set_poller].
  rewrite list_lookup_insert_eq; [done |]; cbn; rewrite !length_insert; by eapply lookup_lt_Some.
Qed.

(** A callback that reads again, [n] times. *)
Fixpoint retry (n : nat) (f i : nat) : prog :=
  match n with
  | O => Return
  | Datatypes.S n => CallAsyncRead f i false (fun _ _ => retry n f i) Return
  end.

(** C39: once [MaxCallbackDispatch] callbacks are on the stack, a read of a closed file
    calls back from within, without counting: a callback that retries nests as deep as it
    retries. *)
Theorem closed_file_nests n : forall (w : world K S) f i x, files (objs w) !! f = Some x -> file_closed x = true ->
  MaxCallbackDispatch <= Dispatched (ioc w) ->
  exists w', run (retry n f i) w = Ret w' /\
    called w' = called w ++ ((fun j => (nesting w + Z.of_nat j, Dispatched (ioc w))) <$> seq 1 n).
Proof.
  induction n as [| n IH]; intros w f i x Hx Hc Hd; [exists w; split; [done | by rewrite app_nil_r] |].
  cbn [retry run]; unfold asyncRead, deref; rewrite Hx; res_step; cbn [ioc set_file set_objs]; rewrite decide_False by lia.
  unfold scheduleRead, deref; cbn [files objs set_objs set_file].
  rewrite list_lookup_insert_eq by (by eapply lookup_lt_Some); res_step; cbn [file_closed set_readReactor]; rewrite Hc.
  unfold on_stack; set (w1 := mkWorld _ _ _ _ _ _).
  destruct (IH w1 f i (set_readReactor x (reactor_init (Some i) false (Some (fun _ _ => retry n f i))))) as
    (w2 & -> & Hcalled); [| done | done |].
  { apply list_lookup_insert_eq; by eapply lookup_lt_Some. }
  res_step; eexists; split; [done |]; cbn [called]; rewrite Hcalled; unfold w1; cbn [called nesting set_file set_objs ioc].
  rewrite <-app_assoc; f_equal; change (seq 1 (Datatypes.S n)) with (1%nat :: seq 2 n); rewrite fmap_cons; cbn [app].
  f_equal.
  rewrite <-(fmap_S_seq 1 n), <-list_fmap_compose; apply list_fmap_ext; intros j y _; cbn; f_equal; lia.
Qed.
End theorems.

(** * Instances *)

Definition readable_once : script_epoll := mkScript ∅ [[(1, 1%nat)]] false.
Definition a_buffer : list (list byte) := [[Byte.x00; Byte.x00; Byte.x00; Byte.x00]].

(** An object of each kind, the waker being descriptor 4. *)
Definition one_of_each : descriptors := mkFds [5] [7] [8] [9] [10] [6].
Definition one_file : descriptors := mkFds [5] [] [] [] [] [].
Definition a_peer : AddrPort := mkAddrPort (AddrFrom4 [Byte.xe0; Byte.x00; Byte.x01; Byte.x00]) 9000.

Ltac valid_actions :=
  repeat match goal with
    | |- List.Forall _ (_ :: _) => constructor
    | |- List.Forall _ [] => constructor
    | |- _ /\ _ => split
    | |- True => exact I
    | |- (_ < _)%nat => apply Nat.ltb_lt; reflexivity
    | |- exists _, _ => eexists; reflexivity
    | |- _ = _ => reflexivity
    | |- _ => intro
    | |- _ => progress cbn
    | |- _ => hnf
    end.

Definition busy : list action :=
  [Execute (CallAsyncRead 0 0 true (fun _ _ => retry 3 0 0)
     (CallPost Return (fun _ => CallScheduleRepeating 0 5 Return (fun _ => Return))));
   Execute (CallAdapterRead 0 0 false (fun _ _ => Return) (CallReadFrom 0 0 false (fun _ _ _ => Return)
     (CallWriteTo 0 0 (UDPAddr [] 9000) (fun _ => Return) (CallAccept 0 (fun _ _ => Return)
     (CallPeerRead 0 0 (fun _ _ _ => Return) (CallPeerWrite 0 0 a_peer (fun _ _ => Return) Return))))));
   PollFor 10; Execute (CallClose 0 (fun _ => CallPeerClose 0 (fun _ => Return))); CancelFile 0; CancelAdapter 0].


(** A read that waits for the descriptor and then retries fifty times, each read being
    answered at once. *)
Definition eager : list action := [Execute (retry 50 0 0); PollFor 0].
Definition ready_system : script_system := inr EAGAIN :: replicate 100 (inl [Byte.x01]).


(** The bound is reached. *)
Example callback_depth_reached :
  (r ← boot readable_once 4 one_file a_buffer ready_system;
   match r with
   | inl w => w ← acts eager w; Ret (existsb (fun e => bool_decide (e.1 = MaxCallbackDispatch + 1)) (called w))
   | inr _ => Ret false
   end) = Ret true.
Proof. vm_compute; reflexivity. Qed.

(** A world with an open or closed file, and a closed timer. *)
Definition still_poller (k : script_epoll) : poller script_epoll handler :=
  mkPoller k [mkSlot 4 1 None None; idle_slot 5; idle_slot 6] 0%nat 0 [] false 0 false.
Definition still_world (isClosed : bool) (dispatched : Z) (s : script_system) : world script_epoll script_system :=
  let r := reactor_init None false None in
  mkWorld (mkIO (still_poller readable_once) ∅ ∅ ∅ dispatched)
    (mkObjects [mkFile 1 isClosed r r] [] [] [] [] [mkTimer 2 stateClosed false]) a_buffer s 0 [].

Lemma read_all_short_witness : exists w1,
  asyncRead (still_world false 0 [inl [Byte.x01; Byte.x02]]) 0 0 true (fun _ _ => Return) (fun _ _ w => Ret w) =
    counted (fun w => Ret w) w1 /\ mem w1 !! 0%nat = Some [Byte.x01; Byte.x02; Byte.x00; Byte.x00].
Proof.
  destruct (read_all_short (still_world false 0 [inl [Byte.x01; Byte.x02]]) 0 0 (fun _ _ => Return) (fun _ _ w => Ret w)
    (mkFile 1 false (reactor_init None false None) (reactor_init None false None)) (idle_slot 5)
    [Byte.x00; Byte.x00; Byte.x00; Byte.x00] [Byte.x01; Byte.x02] []) as (w1 & E & Hm & _);
    [reflexivity .. | vm_compute; split; reflexivity |].
  exists w1; split; [exact E | exact Hm].
Defined.

(** A kernel at its limit of watched descriptors. *)
Definition full_epoll : Type := unit.

#[export] Instance full_Epoll : Epoll full_epoll.
Proof.
  refine {| interest _ := ∅; refused _ := true; epoll_ctl k c := (k, Some (ErrOther 28)); epoll_wait k n t := (k, inl []) |}; try done.
  intros; simplify_eq; split; [llia | constructor].
Defined.

Lemma failed_arm_sticks_witness : exists p',
  setRW (mkPoller (tt : full_epoll) [idle_slot (H := handler) 5] 0%nat 0 [] false 0 false) 0 PollerReadEvent =
    Ret (p', Some (ErrOther 28)) /\ setRW p' 0 PollerReadEvent = Ret (p', None) /\ Pending p' = 1.
Proof.
  destruct (failed_arm_sticks (mkPoller (tt : full_epoll) [idle_slot (H := handler) 5] 0%nat 0 [] false 0 false) 0 (idle_slot 5)
    ReadEvent (ErrOther 28) tt) as (p' & H1 & H2 & _ & H3); [reflexivity .. |].
  exists p'; split_and!; assumption.
Defined.

Lemma cancel_reopens_timer_witness : exists w' w'' x'',
  Timer_Cancel (still_world false 0 []) 0 = Ret (w', None) /\
  ScheduleOnce w' 0 7 (Once Return) (fun w => Ret w) = Ret (w'', None) /\
  timers (objs w'') !! 0%nat = Some x'' /\ timer_state x'' = stateScheduled.
Proof.
  destruct (cancel_reopens_timer (still_world false 0 []) 0 (mkTimer 2 stateClosed false) (idle_slot 6) 7
    (Once Return) (fun w => Ret w)) as (_ & w' & x' & H1 & H2 & H3 & H4); [reflexivity .. | ].
  destruct (H4 [] (mkScript {[6 := (1, 2%nat)]} [[(1, 1%nat)]] false)) as (w'' & x'' & ? & ? & ?); [reflexivity .. |].
  exists w', w'', x''; split_and!; assumption.
Defined.

Lemma closed_file_nests_witness : exists w', run (retry 1000 0 0) (still_world true 32 []) = Ret w' /\
  called w' = [] ++ ((fun j => (0 + Z.of_nat j, 32)) <$> seq 1 1000).
Proof.
  apply (closed_file_nests 1000 (still_world true 32 []) 0 0
    (mkFile 1 true (reactor_init None false None) (reactor_init None false None))); [reflexivity | reflexivity |].
  vm_compute; congruence.
Defined.
