(* ===== verification/PollersAgree.v ===== *)
(** The epoll poller of [Poller.v] and the kqueue poller of [Kqueue.v] side by side: whatever
    is done with them, handlers included, the same handlers are called in the same order as
    long as the kernels report the same.  The errors they return differ in two places, which
    the relation of the traces spells out: epoll reports at once that a request is refused,
    and the pipe that wakes the kqueue poller can be full. *)

From stdpp Require Import gmap.
From S2P Require Import Prelude Poller PollerSpec EventLoopProps Kqueue PollerRuns KqueueSpec.

(** * When the two agree *)

(** The slots hold the same, each with the masks of its system. *)
Record slot_agree {H} (s t : Slot H) : Prop := {
  ag_fd : Fd t = Fd s;
  ag_handlers : forall et, handler_of t et = handler_of s et;
  ag_mask : kq_mask (Events t);
  ag_events : forall et, has_flag (Events t) (kq_flag et) = has_flag (Events s) (event_flag et)
}.

Record agree {K K' H} (p : poller K H) (q : kpoller K' H) : Prop := {
  ag_slots : Forall2 slot_agree (slots p) (kq_slots q);
  ag_waker : kq_waker q = waker p;
  ag_posts : kq_posts q = posts p;
  ag_lck : kq_lck q = lck p;
  ag_pending : kq_pending q = pending p;
  ag_closed : kq_closed q = closed p
}.

(** Two computations that end alike. *)
Definition alike {A B} (R : A -> B -> Prop) (x : res A) (y : res B) : Prop :=
  match x, y with
  | Ret a, Ret b => R a b
  | Panic, Panic | NoFuel, NoFuel => True
  | _, _ => False
  end.

Lemma alike_bind {A B A' B'} (R : A -> B -> Prop) (R' : A' -> B' -> Prop) x y f g :
  alike R x y -> (forall a b, R a b -> alike R' (f a) (g b)) -> alike R' (x ≫= f) (y ≫= g).
Proof. destruct x, y; cbn; auto; done. Qed.

Lemma alike_mono {A B} (R R' : A -> B -> Prop) x y : (forall a b, R a b -> R' a b) -> alike R x y -> alike R' x y.
Proof. destruct x, y; cbn; auto. Qed.

Ltac kflags := repeat match goal with
  | |- context [has_flag ?e ?f] => let v := eval vm_compute in (has_flag e f) in change (has_flag e f) with v
  end.

Lemma mask_cases {H} (s t : Slot H) : valid_mask (Events s) -> slot_agree s t ->
  (Events s = 0 /\ Events t = 0) \/ (Events s = 1 /\ Events t = 1) \/ (Events s = 4 /\ Events t = 2) \/
  (Events s = 5 /\ Events t = 3).
Proof.
  intros Hv [_ _ Hm He]; pose proof (He ReadEvent) as Hr; pose proof (He WriteEvent) as Hw; revert Hr Hw.
  destruct Hv as [-> | [-> | [-> | ->]]], Hm as [-> | [-> | [-> | ->]]]; vm_compute; intros; try done; tauto.
Qed.

Lemma agree_set {H} (s t : Slot H) et : valid_mask (Events s) -> slot_agree s t ->
  slot_agree (set_events s (set_mask (Events s) et)) (set_events t (Z.lor (Events t) (kq_flag et))).
Proof.
  intros Hv Hst; destruct (mask_cases s t Hv Hst) as [[E F] | [[E F] | [[E F] | [E F]]]]; split; cbn; try apply Hst;
    rewrite ?E, ?F; destruct et; try (intros []); unfold kq_mask; vm_compute; tauto.
Qed.

Lemma agree_del {H} (s t : Slot H) et : valid_mask (Events s) -> slot_agree s t ->
  has_flag (Events s) (event_flag et) = true ->
  slot_agree (set_events s (del_mask (Events s) et)) (set_events t (Z.lxor (Events t) (kq_flag et))).
Proof.
  intros Hv Hst Hf; destruct (mask_cases s t Hv Hst) as [[E F] | [[E F] | [[E F] | [E F]]]]; rewrite E in Hf; split; cbn;
    try apply Hst; rewrite ?E, ?F; destruct et; try done; try (intros []); unfold kq_mask; vm_compute; try tauto; done.
Qed.

(** * What may differ *)

Definition ctl_fd (c : ctl) : Z := match c with CtlAdd fd _ _ | CtlMod fd _ _ | CtlDel fd => fd end.

(** A request that fits the interest list: neither [EEXIST] nor [ENOENT]. *)
Definition ctl_valid (m : interests) (c : ctl) : Prop :=
  match c with
  | CtlAdd fd _ _ => m !! fd = None
  | CtlMod fd _ _ | CtlDel fd => m !! fd <> None
  end.

(** The descriptors [fds] are open and of a kind that can be watched, and the kernel has the
    resources to watch them: it refuses no request for them that fits the interest list. *)
Definition serves (K : Type) `{Epoll K} (fds : list Z) : Prop :=
  forall (k : K) c, ctl_fd c ∈ fds -> ctl_valid (interest k) c -> (epoll_ctl k c).2 = None.

Section traces.
Context {H : Type} (serving : Prop).

(** The error of an epoll call, and that of the same kqueue call: kqueue queues the change
    and reports nothing. *)
Definition same_error (e e' : option error) : Prop := e = e' \/ (~ serving /\ e' = None).

Definition same_seen (x y : seen H) : Prop :=
  match x, y with
  | Called h e, Called h' e' => h = h' /\ e = e'
  | Result e, Result e' => same_error e e'
  | PostResult e, PostResult e' => e = None /\ (e' = None \/ e' = Some kq_EAGAIN)
  | _, _ => False
  end.

Definition is_post (x : seen H) : bool := match x with PostResult _ => true | _ => false end.

(** The handlers that were posted. *)
Definition post_count (t : list (seen H)) : Z := zlen (List.filter is_post t).

Definition same_trace (size : Z) (t t' : list (seen H)) : Prop :=
  Forall2 same_seen t t' /\ (serving -> post_count t <= size -> t = t').

Lemma post_count_snoc t x : post_count (t ++ [x]) = post_count t + if is_post x then 1 else 0.
Proof. unfold post_count; rewrite List.filter_app; cbn; destruct (is_post x); llia. Qed.

Lemma same_trace_snoc size t t' x y : same_trace size t t' -> same_seen x y ->
  (serving -> post_count t < size \/ is_post x = false -> x = y) -> same_trace size (t ++ [x]) (t' ++ [y]).
Proof.
  intros [Hf He] Hxy Heq; split; [by apply Forall2_app; [| constructor] |].
  intros Hs; rewrite post_count_snoc; intros Hc; rewrite He, Heq; try done; destruct (is_post x); lia || (by right) || (left; lia).
Qed.

Lemma same_error_eq e e' : serving -> same_error e e' -> e = e'.
Proof. intros ? [-> | [? _]]; done. Qed.
End traces.

(** * The calls *)

Section agreement.
Context {K K' H : Type} `{Epoll K} `{Kqueue K'} (wk : nat) (fds : list Z).
Implicit Types (p : poller K H) (q : kpoller K' H).

Abbreviation serving := (serves K fds).

(** The bookkeeping of the epoll poller holds, and the two agree. *)
Record in_step p q : Prop := {
  st_ok : poller_ok p;
  st_agree : agree p q;
  st_waker : waker p = wk;
  st_fds : Fd <$> slots p = fds;
  st_served : serving -> refused (kernel p) = false
}.

(** Neither has posted. *)
Definition both q0 (x : poller K H * option error) (y : kpoller K' H * option error) : Prop :=
  in_step x.1 y.1 /\ piped y.1 = piped q0 /\ same_error serving x.2 y.2.

(** A kernel that serves the descriptors refuses nothing the poller asks. *)
Lemma served p q i s e' c k' err : in_step p q -> serving -> slots p !! i = Some s ->
  c = mask_ctl (Events s) e' (Fd s) i -> Events s <> 0 \/ e' <> 0 ->
  epoll_ctl (kernel p) c = (k', err) -> err = None /\ refused k' = false.
Proof.
  intros Hst Hs Hi -> He E; assert (ctl_valid (interest (kernel p)) (mask_ctl (Events s) e' (Fd s) i)) as Hv.
  { pose proof (ok_interest p (st_ok _ _ Hst) (st_served _ _ Hst Hs) i s Hi) as Hint.
    unfold mask_ctl; repeat case_decide; simpl; congruence. }
  assert (ctl_fd (mask_ctl (Events s) e' (Fd s) i) ∈ fds) as Hfd.
  { rewrite <- (st_fds _ _ Hst); replace (ctl_fd _) with (Fd s) by (unfold mask_ctl; by repeat case_decide).
    apply list_elem_of_fmap_2; by eapply list_elem_of_lookup_2. }
  pose proof (Hs _ _ Hfd Hv) as Hn; rewrite E in Hn; cbn in Hn; subst err; split; [done |].
  rewrite (ctl_ok_refused _ _ _ E); by apply (st_served _ _ Hst).
Qed.

Lemma set_served p q i s et p' err : in_step p q -> serving -> slots p !! i = Some s ->
  setRW p i (event_flag et) = Ret (p', err) -> err = None /\ refused (kernel p') = false.
Proof.
  intros Hst Hs Hi; pose proof (slot_mask p i s (st_ok _ _ Hst) Hi) as Hv; unfold setRW; rewrite Hi.
  destruct (has_flag _ _) eqn:Ef; [intros [= <- <-]; split; [done | by apply (st_served _ _ Hst)] |].
  destruct (mask_set _ et Hv Ef) as (_ & _ & Hnz).
  unfold add, modify, control; cbn [closed set_slot add_pending kernel]; rewrite (ok_open p (st_ok _ _ Hst)).
  case_decide as He; destruct (epoll_ctl _ _) as [k' e] eqn:E; intros [= <- <-]; cbn [kernel];
    eapply (served p q i s (Z.lor (Events s) (event_flag et))); try done; try (by right);
    unfold mask_ctl; rewrite ?decide_True, ?decide_False by done; done.
Qed.

Lemma del_served p q i s et p' err : in_step p q -> serving -> slots p !! i = Some s ->
  delRW p i (event_flag et) = Ret (p', err) -> err = None /\ refused (kernel p') = false.
Proof.
  intros Hst Hs Hi; pose proof (slot_mask p i s (st_ok _ _ Hst) Hi) as Hv; unfold delRW; rewrite Hi.
  destruct (has_flag _ _) eqn:Ef; [| intros [= <- <-]; split; [done | by apply (st_served _ _ Hst)]].
  destruct (mask_del _ et Hv Ef) as (_ & _ & Hnz).
  unfold modify, del, control; cbn [closed set_slot add_pending kernel]; rewrite (ok_open p (st_ok _ _ Hst)).
  case_decide as He; destruct (epoll_ctl _ _) as [k' e] eqn:E; intros [= <- <-]; cbn [kernel];
    eapply (served p q i s (Z.lxor (Events s) (event_flag et))); try done; try (by left);
    unfold mask_ctl; rewrite decide_False by done; case_decide; done.
Qed.

Lemma slots_agree p q i : agree p q ->
  (slots p !! i = None /\ kq_slots q !! i = None) \/
  exists s t, slots p !! i = Some s /\ kq_slots q !! i = Some t /\ slot_agree s t.
Proof.
  intros Ha; pose proof (ag_slots p q Ha) as Hf; destruct (slots p !! i) as [s |] eqn:Es.
  - right; destruct (Forall2_lookup_l _ _ _ _ _ Hf Es) as (t & Ht & Hst); by exists s, t.
  - left; split; [done |]; apply lookup_ge_None; rewrite <-(Forall2_length Hf); by apply lookup_ge_None.
Qed.

(** A slot changes in both. *)
Lemma agree_slot p q i s' t' (k : K) d cs : agree p q -> slot_agree s' t' ->
  agree (mkPoller k (<[i := s']> (slots p)) (waker p) (wakeups p) (posts p) (lck p) (pending p + d) (closed p))
    (mkKpoller (kq_kernel q) cs (<[i := t']> (kq_slots q)) (kq_waker q) (piped q) (kq_posts q) (kq_lck q)
       (kq_pending q + d) (kq_closed q)).
Proof.
  intros [] Hst'; split; cbn; try done; [by apply Forall2_insert | congruence].
Qed.

(** The pending counter follows the mask. *)
Lemma rearmed_delta p k i s e d : slots p !! i = Some s -> keeps p (rearmed p k i s e d) -> d = armed e - armed (Events s).
Proof.
  intros Hs [_ _ _ Hb _ _]; unfold balance in Hb; cbn [pending slots posts rearmed] in Hb.
  rewrite (armed_sum_insert _ _ s) in Hb by done; cbn [Events set_events] in Hb; lia.
Qed.

Lemma rearmed_step p q i s t k e' f' d cs : in_step p q -> slots p !! i = Some s ->
  poller_ok (rearmed p k i s e' d) -> (serving -> refused k = false) ->
  slot_agree (set_events s e') (set_events t f') ->
  in_step (rearmed p k i s e' d)
    (mkKpoller (kq_kernel q) cs (<[i := set_events t f']> (kq_slots q)) (kq_waker q) (piped q) (kq_posts q) (kq_lck q)
       (kq_pending q + d) (kq_closed q)).
Proof.
  intros [] Hi Hp Hr Hst; split; try done; [by apply agree_slot |]; cbn; by rewrite (fds_insert _ _ s).
Qed.

(** The mask and the counter change whether or not the kernel agrees. *)
Lemma no_refusal (r : res (poller K H * option error)) p' err : r = Ret (p', err) ->
  (serving -> forall p' err, r = Ret (p', err) -> err = None /\ refused (kernel p') = false) ->
  same_error serving err None /\ (serving -> refused (kernel p') = false).
Proof.
  intros E Hs; split; [| intros Hx; by apply (Hs Hx p' err)]; destruct err as [e |]; [| by left].
  right; split; [| done]; intros Hx; by destruct (Hs Hx _ _ E).
Qed.

Lemma set_agrees p q i et fd fl : in_step p q -> i <> wk ->
  alike (both q) (setRW p i (event_flag et)) (kq_setRW q i fd fl et).
Proof.
  intros Hst Hi; pose proof Hst as [Hp Ha Hw _ _]; unfold kq_setRW.
  destruct (slots_agree p q i Ha) as [[E1 E2] | (s & t & E1 & E2 & Hag)]; [unfold setRW; by rewrite E1, E2 |].
  destruct (setRW_ok p i s et Hp E1) as (k' & d & err & E & Hp' & Hk & _); [congruence |].
  pose proof (slot_mask p i s Hp E1) as Hv.
  rewrite E2, (ag_events s t Hag); destruct (has_flag (Events s) (event_flag et)) eqn:Ef.
  - unfold setRW; rewrite E1, Ef; split_and!; [done | done | by left].
  - destruct (no_refusal _ _ _ E) as [Herr Hr]; [intros Hs ? ?; by apply (set_served p q i s et) |].
    rewrite E; split_and!; [| done | exact Herr]; cbn [fst].
    assert (d = 1) as ->.
    { rewrite (rearmed_delta _ _ _ _ _ _ E1 Hk); destruct (mask_set _ et Hv Ef) as (_ & Hm & _); unfold set_mask; lia. }
    apply (rearmed_step p q i s t); [done .. | by apply agree_set].
Qed.

Lemma del_agrees p q i et : in_step p q -> i <> wk ->
  alike (both q) (delRW p i (event_flag et)) (kq_delRW q i et).
Proof.
  intros Hst Hi; pose proof Hst as [Hp Ha Hw _ _]; unfold kq_delRW.
  destruct (slots_agree p q i Ha) as [[E1 E2] | (s & t & E1 & E2 & Hag)]; [unfold delRW; by rewrite E1, E2 |].
  destruct (delRW_ok p i s et Hp E1) as (k' & d & err & E & Hp' & Hk & _); [congruence |].
  pose proof (slot_mask p i s Hp E1) as Hv.
  rewrite E2, (ag_events s t Hag); destruct (has_flag (Events s) (event_flag et)) eqn:Ef.
  - destruct (no_refusal _ _ _ E) as [Herr Hr]; [intros Hs ? ?; by apply (del_served p q i s et) |].
    rewrite E; split_and!; [| done | exact Herr]; cbn [fst].
    assert (d = -1) as ->.
    { rewrite (rearmed_delta _ _ _ _ _ _ E1 Hk); destruct (mask_del _ et Hv Ef) as (_ & Hm & _); unfold del_mask; rewrite Ef; lia. }
    apply (rearmed_step p q i s t); [done .. |]; by apply agree_del.
  - unfold delRW; rewrite E1, Ef; split_and!; [done | done | by left].
Qed.

(** [Del] of the epoll poller stops at the first request that is refused. *)
Lemma Del_agrees p q i : in_step p q -> i <> wk -> serving -> alike (both q) (Del p i) (kq_Del q i).
Proof.
  intros Hst Hi Hs; eapply (alike_bind (both q)); [by apply (del_agrees p q i ReadEvent) |].
  intros [p1 e1] [q1 e2] (Hst1 & Hpi & He); apply (same_error_eq _ _ _ Hs) in He; cbn in Hpi, He, Hst1; subst e2.
  destruct e1; [split_and!; [done | done | by left] |].
  eapply alike_mono; [| by apply (del_agrees p1 q1 i WriteEvent)].
  intros a b (? & ? & ?); split_and!; [done | congruence | done].
Qed.

Lemma handler_agrees p q i et h : in_step p q ->
  alike (fun p' q' => in_step p' q' /\ piped q' = piped q) (set_handler p i et h) (kq_set_handler q i et h).
Proof.
  intros Hstep; pose proof Hstep as [Hp Ha Hw Hfds Hsv]; unfold kq_set_handler.
  destruct (slots_agree p q i Ha) as [[E1 E2] | (s & t & E1 & E2 & Hst)]; [unfold set_handler; by rewrite E1, E2 |].
  destruct (set_handler_ok p i s et h Hp E1) as (E & Hp' & _); rewrite E, E2; split; [| done]; split; [done | | done | | done].
  - replace (set_slot p i (Slot_Set s et h)) with
      (mkPoller (kernel p) (<[i := Slot_Set s et h]> (slots p)) (waker p) (wakeups p) (posts p) (lck p) (pending p + 0) (closed p))
      by (unfold set_slot; by rewrite Z.add_0_r).
    replace (kq_set_slot q i (Slot_Set t et h)) with
      (mkKpoller (kq_kernel q) (changes q) (<[i := Slot_Set t et h]> (kq_slots q)) (kq_waker q) (piped q) (kq_posts q) (kq_lck q)
         (kq_pending q + 0) (kq_closed q)) by (unfold kq_set_slot; by rewrite Z.add_0_r).
    apply (agree_slot p q i); [done |].
    destruct Hst as [Hfd Hh Hm He]; split; [by destruct et | | by destruct et | by destruct et].
    intros et'; pose proof (Hh et') as Hh'; by destruct et, et'.
  - cbn; rewrite (fds_insert _ _ s); [done | done | by destruct et].
Qed.

(** Calls on slots other than the waker's, of a poller that is not closed; [Del] only where
    the descriptors are served. *)
Definition user_op (op : poller_op H) : Prop :=
  match op with
  | OpSet i _ | OpDel i _ => i <> wk
  | OpDelBoth i => i <> wk /\ serving
  | OpHandler _ _ _ | OpPost _ => True
  | OpClose => False
  end.

Lemma Set_agrees p q i et fl : in_step p q -> i <> wk ->
  alike (both q) (setRW p i (event_flag et)) (fd ← kq_slot_fd q i; kq_setRW q i fd fl et).
Proof.
  intros Hst Hi; pose proof (fun fd => set_agrees p q i et fd fl Hst Hi) as Hs.
  destruct (slots_agree p q i (st_agree _ _ Hst)) as [[E1 E2] | (s & t & E1 & E2 & _)]; unfold kq_slot_fd; rewrite E2; [| apply Hs].
  unfold setRW; by rewrite E1.
Qed.

Lemma post_agrees p q h : in_step p q ->
  match Post p h, kq_Post q h with
  | Some (p', e), Some (q', e') =>
      in_step p' q' /\ e = None /\
      ((e' = None /\ piped q' = piped q + 1) \/ (e' = Some kq_EAGAIN /\ piped q' = piped q /\ pipe_size <= piped q))
  | None, None => True
  | _, _ => False
  end.
Proof.
  intros [Hp Ha Hw Hf Hs]; unfold Post, kq_Post; rewrite (ag_lck p q Ha); destruct (lck p); [done |].
  unfold waker_Write, Pipe_Write; cbn [closed kq_closed kq_add_pending set_posts piped].
  rewrite (ag_closed p q Ha), (ok_open p Hp); pose proof (ok_open p Hp) as Hc.
  case_decide; (split; [| split; [done |]]); try (by left); try (by right); destruct Ha;
    (split; try done; [by eapply poller_ok_ext | split; cbn; try done; congruence]).
Qed.

(** * Handlers *)

Context (body : H -> list (poller_op H)).
Hypothesis bodies : forall h, Forall user_op (body h).

Abbreviation W1 := (traced (poller K H) H).
Abbreviation W2 := (traced (kpoller K' H) H).
Abbreviation exec1 := (run_handler epoll_call body).
Abbreviation exec2 := (run_handler kqueue_call body).

(** No more bytes are in the pipe than handlers were posted. *)
Record related (w1 : W1) (w2 : W2) : Prop := {
  rel_step : in_step (tr_poller w1) (tr_poller w2);
  rel_trace : same_trace serving pipe_size (trace w1) (trace w2);
  rel_piped : piped (tr_poller w2) <= post_count (trace w1)
}.

Lemma related_step w1 w2 p q : related w1 w2 -> in_step p q -> piped q <= piped (tr_poller w2) ->
  related (mkTraced p (trace w1)) (mkTraced q (trace w2)).
Proof. intros [] Hs Hq; split; [done | done |]; cbn; lia. Qed.

Lemma related_see w1 w2 x y : related w1 w2 -> is_post x = false -> same_seen serving x y -> (serving -> x = y) ->
  related (see w1 x) (see w2 y).
Proof.
  intros [Hs Ht Hq] Hx Hxy He; split; [done | by apply same_trace_snoc; auto |]; cbn; rewrite post_count_snoc, Hx; lia.
Qed.

Lemma reported_agree w1 w2 (x : res (poller K H * option error)) (y : res (kpoller K' H * option error)) :
  related w1 w2 -> alike (both (tr_poller w2)) x y ->
  alike related ('(p, r) ← reporting (H := H) x; Ret (match r with Some o => see (mkTraced p (trace w1)) o | None => mkTraced p (trace w1) end))
    ('(p, r) ← reporting (H := H) y; Ret (match r with Some o => see (mkTraced p (trace w2)) o | None => mkTraced p (trace w2) end)).
Proof.
  intros Hr Hxy; destruct x as [[p e] | |], y as [[q e'] | |]; try done; destruct Hxy as (Hs & Hq & He); cbn in Hs, Hq, He |- *.
  apply (related_see (mkTraced p (trace w1)) (mkTraced q (trace w2))); [| done | done |].
  - apply related_step; [done | done | lia].
  - intros Hsv; by rewrite (same_error_eq _ _ _ Hsv He).
Qed.

Lemma run_op_agrees op w1 w2 : user_op op -> related w1 w2 ->
  alike related (run_op epoll_call op w1) (run_op kqueue_call op w2).
Proof.
  intros Hop Hr; pose proof Hr as [Hs Ht Hq]; unfold run_op; cbn zeta.
  destruct op as [i et | i et | i | i et h | h |]; cbn [epoll_call kqueue_call user_op] in *.
  - destruct et; apply reported_agree; try done; by apply (Set_agrees _ _ i ReadEvent) || by apply (Set_agrees _ _ i WriteEvent).
  - destruct et; apply reported_agree; try done; by apply (del_agrees _ _ i ReadEvent) || by apply (del_agrees _ _ i WriteEvent).
  - apply reported_agree; [done |]; destruct Hop; by apply Del_agrees.
  - pose proof (handler_agrees _ _ i et h Hs) as Ha.
    destruct (set_handler _ _ _ _) as [p | |], (kq_set_handler _ _ _ _) as [q | |]; try done; destruct Ha as [Ha Hp].
    apply related_step; [done | done | lia].
  - pose proof (post_agrees _ _ h Hs) as Ha; destruct (Post _ _) as [[p e] |], (kq_Post _ _) as [[q e'] |]; try done.
    destruct Ha as (Ha & -> & He); cbn; split; cbn.
    + done.
    + apply same_trace_snoc; [done | destruct He as [[-> _] | [-> _]]; cbn; auto |].
      intros _ [Hc | [=]]; destruct He as [[-> _] | (_ & _ & Hfull)]; [done | lia].
    + rewrite post_count_snoc; cbn; destruct He as [[_ ->] | (_ & -> & _)]; lia.
  - done.
Qed.

Lemma run_ops_agree ops : forall w1 w2, Forall user_op ops -> related w1 w2 ->
  alike related (run_ops epoll_call ops w1) (run_ops kqueue_call ops w2).
Proof.
  induction ops as [| op ops IH]; intros w1 w2 Hu Hr; [done |]; apply list.Forall_cons in Hu as [Hop Hu].
  cbn [run_ops]; eapply (alike_bind related); [by apply run_op_agrees | intros; by apply IH].
Qed.

Lemma handlers_agree h err w1 w2 : related w1 w2 -> alike related (exec1 h err w1) (exec2 h err w2).
Proof. intros Hr; apply run_ops_agree; [apply bodies | by apply related_see]. Qed.

(** The number of slots does not change. *)
Definition slots_kept (w2 w2' : W2) : Prop := length (kq_slots (tr_poller w2')) = length (kq_slots (tr_poller w2)).

Lemma delRW_kept q i et q' e : kq_delRW q i et = Ret (q', e) -> length (kq_slots q') = length (kq_slots q).
Proof. unfold kq_delRW; destruct (_ !! i); [| done]; case_match; intros; simplify_eq; cbn; by rewrite ?length_insert. Qed.

Lemma setRW_kept q i fd fl et q' e : kq_setRW q i fd fl et = Ret (q', e) -> length (kq_slots q') = length (kq_slots q).
Proof. unfold kq_setRW; destruct (_ !! i); [| done]; case_match; intros; simplify_eq; cbn; by rewrite ?length_insert. Qed.

Lemma call_kept q op q' r : kqueue_call q op = Ret (q', r) -> length (kq_slots q') = length (kq_slots q).
Proof.
  destruct op as [i et | i et | i | i et h | h |]; cbn [kqueue_call].
  - destruct et; intros ([q1 e] & (fd & _ & E)%res_bind_inv & [= <- _])%res_bind_inv; by eapply setRW_kept.
  - destruct et; intros ([q1 e] & E & [= <- _])%res_bind_inv; by eapply delRW_kept.
  - intros ([q1 e] & ([q2 e2] & E1 & E2)%res_bind_inv & [= <- _])%res_bind_inv; apply delRW_kept in E1.
    destruct e2; [simplify_eq; congruence |]; apply delRW_kept in E2; congruence.
  - intros (q1 & E & [= <- _])%res_bind_inv; unfold kq_set_handler in E; destruct (_ !! i); simplify_eq; cbn; by rewrite length_insert.
  - unfold kq_Post; destruct (kq_lck q); [done |]; unfold Pipe_Write; cbn; repeat case_match; intros; by simplify_eq.
  - unfold kq_Close; destruct (kq_closed q); intros; by simplify_eq.
Qed.

Lemma run_ops_kept ops : forall w2 w2', run_ops kqueue_call ops w2 = Ret w2' -> slots_kept w2 w2'.
Proof.
  induction ops as [| op ops IH]; intros w2 w2' E; [by injection E as <- |]; apply res_bind_inv in E as (w & E1 & E2).
  apply res_bind_inv in E1 as ([q r] & E1 & [= <-]); apply call_kept in E1; apply IH in E2; unfold slots_kept in *.
  destruct r; cbn in E2; congruence.
Qed.

Lemma kq_fire_kept w2 w2' i ev et : kq_fire exec2 w2 i ev et = Ret w2' -> slots_kept w2 w2'.
Proof.
  unfold kq_fire; cbn; destruct (_ !! i) as [t |]; [| done]; case_match; [| by intros [= <-]].
  destruct (handler_of t et); [| done]; intros E%run_ops_kept; unfold slots_kept in *; cbn in E; by rewrite E, length_insert.
Qed.

(** * Polling *)

Lemma fire_agrees w1 w2 i mask ev et : related w1 w2 -> i <> wk ->
  has_flag ev (kq_flag et) = has_flag mask (event_flag et) ->
  alike related (fire exec1 w1 i mask et) (kq_fire exec2 w2 i ev et).
Proof.
  intros Hr Hi Hev; pose proof (rel_step _ _ Hr) as Hstep; pose proof Hstep as [Hp Ha Hw _ _]; unfold fire, kq_fire; cbn.
  destruct (slots_agree _ _ i Ha) as [[E1 E2] | (s & t & E1 & E2 & Hst)]; rewrite E1, E2; [done |].
  rewrite fire_flag, kq_fire_flag, Hev, (ag_events s t Hst).
  destruct (has_flag mask _ && _) eqn:Ef; [| exact Hr]; apply andb_prop in Ef as [_ Ef].
  destruct (delRW_ok _ i s et Hp E1) as (k' & d & err & E & Hp' & Hk & _); [congruence |].
  destruct (no_refusal _ _ _ E) as [_ Hrf]; [intros Hs ? ?; by apply (del_served _ (tr_poller w2) i s et) |].
  rewrite E; res_step; rewrite (ag_handlers s t Hst); destruct (handler_of s et) as [h |]; [| done].
  apply handlers_agree, related_step; [done | | done].
  pose proof (slot_mask _ i s Hp E1) as Hv; assert (d = -1) as ->.
  { rewrite (rearmed_delta _ _ _ _ _ _ E1 Hk); destruct (mask_del _ et Hv Ef) as (_ & Hm & _); unfold del_mask; rewrite Ef; lia. }
  apply (rearmed_step (tr_poller w1) (tr_poller w2) i s t); [done .. |]; by apply agree_del.
Qed.

Lemma posted_agree hs : forall w1 w2, related w1 w2 ->
  alike related (dispatch_loop exec1 w1 hs) (executePost_loop exec2 w2 hs).
Proof.
  induction hs as [| h hs IH]; intros w1 w2 Hr; [done |]; cbn [dispatch_loop executePost_loop].
  eapply alike_bind; [by apply handlers_agree |]; intros a b Hab; apply IH, related_step; [done | | done].
  destruct (rel_step _ _ Hab) as [Hp Ha Hw Hf Hs]; destruct Ha; split; try done; [by eapply poller_ok_ext |].
  split; cbn; try done; congruence.
Qed.

Lemma dispatch_agrees w1 w2 : related w1 w2 -> alike related (dispatch exec1 w1) (executePost exec2 w2).
Proof.
  intros Hr; pose proof (rel_step _ _ Hr) as [Hp Ha Hw Hf Hs]; unfold dispatch, executePost; cbn zeta.
  destruct (kq_drain_ok (S (Z.to_nat (piped (the_kpoller w2)))) (the_kpoller w2)) as (n & -> & Hn); [lia |]; res_step.
  pose proof Ha as []; eapply alike_bind.
  - cbn; rewrite ag_posts0; apply posted_agree, related_step; [done | | exact Hn].
    split; try done; by eapply poller_ok_ext.
  - intros a b Hab; apply related_step; [done | | done]; destruct (rel_step _ _ Hab) as [Hp' Ha' Hw' Hf' Hs'].
    destruct Ha'; split; try done; by eapply poller_ok_ext.
Qed.

(** What kqueue reports where epoll reports [ev]. *)
Definition split_event (ev : Z * nat) : list (Z * option nat) :=
  if decide (ev.2 = wk) then [(EVFILT_READ, Some ev.2)]
  else (if has_flag ev.1 PollerReadEvent then [(EVFILT_READ, Some ev.2)] else []) ++
       (if has_flag ev.1 PollerWriteEvent then [(EVFILT_WRITE, Some ev.2)] else []).

Definition same_report (evs : list (Z * nat)) (kevs : list Kevent_t) : Prop :=
  Forall (fun ev => split_event ev <> []) evs /\
  (fun ev => (Filter ev, Udata ev)) <$> kevs = evs ≫= split_event.

Lemma kq_Poll_loop_app evs evs' : forall w2,
  kq_Poll_loop exec2 w2 (evs ++ evs') = w ← kq_Poll_loop exec2 w2 evs; kq_Poll_loop exec2 w evs'.
Proof.
  induction evs as [| ev evs IH]; intros w2; [done |]; cbn [kq_Poll_loop app].
  destruct (Udata ev) as [i |]; [| done]; repeat (destruct (kq_slots _ !! _); [| done]); cbn zeta.
  match goal with |- (?r ≫= _) = _ => destruct r as [w | |]; [| done | done] end; res_step; apply IH.
Qed.

(** Only the bit of the event matters. *)
Lemma fire_mask w1 i mask et : has_flag mask (event_flag et) = true ->
  fire exec1 w1 i mask et = fire exec1 w1 i (event_flag et) et.
Proof.
  intros Hm; unfold fire; destruct (_ !! i); [| done]; rewrite !fire_flag, Hm.
  by assert (has_flag (event_flag et) (event_flag et) = true) as -> by (by destruct et).
Qed.

Lemma fire_none w1 i mask et : is_Some (slots (tr_poller w1) !! i) -> has_flag mask (event_flag et) = false ->
  fire exec1 w1 i mask et = Ret w1.
Proof. intros [s Hs] Hm; unfold fire; cbn; by rewrite Hs, fire_flag, Hm. Qed.

Lemma kq_fire_none w2 i ev et : is_Some (kq_slots (tr_poller w2) !! i) -> has_flag ev (kq_flag et) = false ->
  kq_fire exec2 w2 i ev et = Ret w2.
Proof. intros [t Hs] Hm; unfold kq_fire; cbn; by rewrite Hs, kq_fire_flag, Hm. Qed.

Lemma waker_fd w1 w2 i t : related w1 w2 -> kq_slots (tr_poller w2) !! i = Some t ->
  exists v, kq_slots (tr_poller w2) !! kq_waker (tr_poller w2) = Some v /\ (Fd t = Fd v <-> i = wk).
Proof.
  intros [[Hp Ha Hw _ _] _ _] Ht; destruct (ok_waker _ Hp) as (s & Hs & _).
  destruct (Forall2_lookup_l _ _ _ _ _ (ag_slots _ _ Ha) Hs) as (v & Hv & Hsv).
  destruct (Forall2_lookup_r _ _ _ _ _ (ag_slots _ _ Ha) Ht) as (s' & Hs' & Hst).
  rewrite (ag_waker _ _ Ha); exists v; split; [done |]; rewrite (ag_fd _ _ Hsv), (ag_fd _ _ Hst); split.
  - intros E; rewrite <- Hw; by eapply same_slot.
  - intros ->; congruence.
Qed.

Lemma single_agrees w1 w2 i et ev : related w1 w2 -> i <> wk -> is_Some (kq_slots (tr_poller w2) !! i) ->
  Udata ev = Some i -> Filter ev = - kq_flag et ->
  alike (fun a b => related a b /\ slots_kept w2 b) (fire exec1 w1 i (event_flag et) et) (kq_Poll_loop exec2 w2 [ev]).
Proof.
  intros Hr Hi Ht Hu Hf; pose proof Ht as [t Et]; destruct (waker_fd w1 w2 i t Hr Et) as (v & Ev & Hfd).
  cbn [kq_Poll_loop]; rewrite Hu; cbn [the_kpoller traced_kpoller]; rewrite Et, Ev, Hf; cbn zeta.
  rewrite decide_False by tauto; replace (- - kq_flag et) with (kq_flag et) by lia.
  assert (alike related (fire exec1 w1 i (event_flag et) et) (kq_fire exec2 w2 i (kq_flag et) et)) as Hag
    by (apply fire_agrees; [done | done | by destruct et]).
  assert (forall b, kq_fire exec2 w2 i (kq_flag et) et = Ret b -> is_Some (kq_slots (tr_poller b) !! i) /\ slots_kept w2 b) as Hk.
  { intros b E; pose proof (kq_fire_kept _ _ _ _ _ E) as Hk; split; [| done].
    apply lookup_lt_is_Some; rewrite Hk; by apply lookup_lt_is_Some. }
  destruct et; [| rewrite (kq_fire_none w2 i _ ReadEvent) by done; res_step];
    (destruct (kq_fire exec2 w2 i _ _) as [b | |], (fire exec1 w1 i _ _) as [a | |]; try done; cbn in Hag; res_step);
    destruct (Hk b eq_refl) as [Hb Hkb]; [rewrite (kq_fire_none b i _ WriteEvent) by done; res_step |]; by split.
Qed.

Lemma event_agrees w1 w2 mask i kevs : related w1 w2 -> i <> wk -> is_Some (kq_slots (tr_poller w2) !! i) ->
  (fun ev => (Filter ev, Udata ev)) <$> kevs = split_event (mask, i) ->
  alike related (w ← fire exec1 w1 i mask ReadEvent; fire exec1 w i mask WriteEvent) (kq_Poll_loop exec2 w2 kevs).
Proof.
  intros Hr Hi Ht; unfold split_event; cbn [fst snd]; rewrite decide_False by done.
  assert (forall (a : W1) (b : W2), related a b -> is_Some (kq_slots (tr_poller b) !! i) -> is_Some (slots (tr_poller a) !! i)) as Hback.
  { intros a b [[_ Ha _ _ _] _ _] [t Et]; destruct (Forall2_lookup_r _ _ _ _ _ (ag_slots _ _ Ha) Et) as (s & Hs & _); by eexists. }
  assert (forall b : W2, slots_kept w2 b -> is_Some (kq_slots (tr_poller b) !! i)) as Hkept.
  { intros b Hb; apply lookup_lt_is_Some; rewrite Hb; by apply lookup_lt_is_Some. }
  destruct (has_flag mask PollerReadEvent) eqn:Er, (has_flag mask PollerWriteEvent) eqn:Ew; cbn [app]; intros Hk.
  - destruct kevs as [| e1 [| e2 [|]]]; try discriminate Hk; injection Hk as F1 U1 F2 U2.
    rewrite fire_mask by done; change [e1; e2] with ([e1] ++ [e2]); rewrite kq_Poll_loop_app.
    eapply alike_bind; [by apply single_agrees |]; intros a b [Hab Hkb]; rewrite fire_mask by done.
    eapply alike_mono; [| apply (single_agrees a b i WriteEvent e2); try done; by apply Hkept]; by intros ? ? [? _].
  - destruct kevs as [| e1 [|]]; try discriminate Hk; injection Hk as F1 U1.
    rewrite fire_mask by done; assert (kq_Poll_loop exec2 w2 [e1] = (b ← kq_Poll_loop exec2 w2 [e1]; Ret b)) as ->
      by (by destruct (kq_Poll_loop _ _ _)).
    eapply alike_bind; [by apply (single_agrees w1 w2 i ReadEvent e1) |]; intros a b [Hab Hkb].
    rewrite fire_none; [done | by eapply Hback; [| apply Hkept] | done].
  - destruct kevs as [| e1 [|]]; try discriminate Hk; injection Hk as F1 U1.
    rewrite fire_none by (by eauto); res_step; rewrite fire_mask by done.
    eapply alike_mono; [| by apply (single_agrees w1 w2 i WriteEvent e1)]; by intros ? ? [? _].
  - apply fmap_nil_inv in Hk as ->; rewrite fire_none by (by eauto); res_step; rewrite fire_none by (by eauto); done.
Qed.

Lemma waker_agrees w1 w2 ev i : related w1 w2 -> i = wk -> Udata ev = Some i ->
  alike related (dispatch exec1 w1) (kq_Poll_loop exec2 w2 [ev]).
Proof.
  intros Hr -> Hu; pose proof (rel_step _ _ Hr) as [Hp Ha Hw _ _]; destruct (ok_waker _ Hp) as (s & Hs & _).
  destruct (Forall2_lookup_l _ _ _ _ _ (ag_slots _ _ Ha) Hs) as (t & Et & _); rewrite Hw in Et.
  destruct (waker_fd w1 w2 wk t Hr Et) as (v & Ev & Hfd).
  cbn [kq_Poll_loop]; rewrite Hu; cbn [the_kpoller traced_kpoller]; rewrite Et, Ev; cbn zeta; rewrite decide_True by tauto.
  pose proof (dispatch_agrees w1 w2 Hr) as Hd; destruct (executePost exec2 w2), (dispatch exec1 w1); done.
Qed.

Lemma Poll_loop_agrees evs : forall kevs w1 w2, related w1 w2 -> same_report evs kevs ->
  alike related (Poll_loop exec1 w1 evs) (kq_Poll_loop exec2 w2 kevs).
Proof.
  induction evs as [| [mask i] evs IH]; intros kevs w1 w2 Hr [Hne Hk].
  { apply fmap_nil_inv in Hk as ->; done. }
  apply list.Forall_cons in Hne as [Hne Hne']; rewrite bind_cons in Hk.
  apply fmap_app_inv in Hk as (k1 & k2 & Hk1 & Hk2 & ->); rewrite kq_Poll_loop_app.
  pose proof (rel_step _ _ Hr) as [Hp Ha Hw _ _]; destruct (ok_waker _ Hp) as (s0 & Hs0 & _).
  cbn [Poll_loop the_poller traced_poller]; rewrite Hs0.
  destruct (slots_agree _ _ i Ha) as [[E1 E2] | (s & t & E1 & E2 & Hst)]; rewrite E1.
  - destruct k1 as [| e1 k1]; [by symmetry in Hk1 |].
    assert (Udata e1 = Some i) as Hu.
    { revert Hk1; unfold split_event; cbn; repeat case_match; intros; by simplify_eq/=. }
    cbn [kq_Poll_loop the_kpoller traced_kpoller]; by rewrite Hu, E2.
  - eapply alike_bind; [| intros a b Hab; by apply IH]; case_decide as Hfd.
    + assert (i = wk) as Hi by (rewrite <- Hw; by eapply same_slot); revert Hk1; unfold split_event; cbn.
      rewrite decide_True by done; destruct k1 as [| e1 [|]]; try discriminate; intros [= F1 U1].
      by eapply waker_agrees.
    + apply event_agrees; [done | intros ->; congruence | by rewrite E2 | done].
Qed.

(** The results of the two waits. *)
Definition same_result (r : list (Z * nat) + error) (r' : list Kevent_t + error) : Prop :=
  match r, r' with
  | inl evs, inl kevs => same_report evs kevs
  | inr e, inr e' => e = e'
  | _, _ => False
  end.

Definition same_wait (w1 : W1) (w2 : W2) (t : Z) : Prop :=
  same_result (epoll_wait (kernel (tr_poller w1)) 128 t).2
    (kevent (kq_kernel (tr_poller w2)) (changes (tr_poller w2)) 128
       (if decide (0 <= t) then Some (t * 1000000) else None)).2.

Lemma split_empty evs kevs : same_report evs kevs -> (evs = [] <-> kevs = []).
Proof.
  intros [Hne Hk]; split; [intros ->; by apply fmap_nil_inv in Hk |].
  intros ->; destruct evs as [| ev evs]; [done |]; apply list.Forall_cons in Hne as [Hne _].
  rewrite bind_cons in Hk; symmetry in Hk; by apply app_nil in Hk as [? _].
Qed.

Lemma Poll_agrees w1 w2 t : related w1 w2 -> same_wait w1 w2 t ->
  alike (fun a b => related a.1 b.1 /\ a.2.2 = b.2.2) (Poll exec1 w1 t) (kq_Poll exec2 w2 t).
Proof.
  intros Hr; unfold same_wait, Poll, kq_Poll; cbn zeta; cbn [the_poller traced_poller the_kpoller traced_kpoller].
  pose proof (rel_step _ _ Hr) as [Hp Ha Hw Hfd Hrf]; rewrite (ag_closed _ _ Ha), (ok_open _ Hp).
  destruct (epoll_wait _ _ _) as [k r] eqn:E1, (kevent _ _ _ _) as [k' r'] eqn:E2; cbn [snd]; intros Hs.
  assert (related (mkTraced (set_kernel (tr_poller w1) k) (trace w1)) (mkTraced (set_kq (tr_poller w2) k' []) (trace w2))) as Hr'.
  { apply related_step; [done | | done]; split; try done; [| by destruct Ha |].
    - apply (poller_ok_ext (tr_poller w1)); [done .. | exact (wait_interest _ _ _ _ _ E1) | exact (wait_refused _ _ _ _ _ E1) | done].
    - intros Hsv; cbn; rewrite (wait_refused _ _ _ _ _ E1); auto. }
  destruct r as [evs | e], r' as [kevs | e']; try done; [| cbn in Hs; subst e'; by split].
  pose proof (split_empty _ _ Hs) as He; cbn in Hs.
  destruct (decide (evs = [] /\ 0 <= t)), (decide (kevs = [] /\ 0 <= t)); try (exfalso; tauto); [done |].
  eapply alike_bind; [by apply Poll_loop_agrees |]; intros a b Hab; done.
Qed.

(** The calls are on slots of users, and the waits report the same, each in the states the
    steps before it lead to. *)
Fixpoint matched (steps : list (step (poller_op H))) (w1 : W1) (w2 : W2) : Prop :=
  match steps with
  | [] => True
  | s :: steps =>
      match s with Calls ops => Forall user_op ops | Polls t => same_wait w1 w2 t end /\
      match run_step epoll_call (Poll exec1) s w1, run_step kqueue_call (kq_Poll exec2) s w2 with
      | Ret w1, Ret w2 => matched steps w1 w2
      | _, _ => True
      end
  end.

Lemma steps_agree steps : forall w1 w2, related w1 w2 -> matched steps w1 w2 ->
  alike related (run_steps epoll_call (Poll exec1) steps w1) (run_steps kqueue_call (kq_Poll exec2) steps w2).
Proof.
  induction steps as [| s steps IH]; intros w1 w2 Hr Hm; [done |]; destruct Hm as [Hs Hm]; cbn [run_steps].
  assert (alike related (run_step epoll_call (Poll exec1) s w1) (run_step kqueue_call (kq_Poll exec2) s w2)) as Ha.
  { destruct s as [ops | t]; [by apply run_ops_agree |]; eapply alike_bind; [by apply Poll_agrees |].
    intros [a [n err]] [b [n' err']] [Hab [= ->]]; apply related_see; [done | done | by left | done]. }
  destruct (run_step epoll_call _ _ _), (run_step kqueue_call _ _ _); try done; by apply IH.
Qed.
End agreement.

(** * From two new pollers *)

Section new_pollers.
Context {K K' H : Type} `{Epoll K} `{Kqueue K'}.

Lemma idle_agree fd : slot_agree (H := H) (idle_slot fd) (idle_slot fd).
Proof. split; try done; [by left | by intros []]. Qed.

Lemma new_agree (k : K) (k' : K') kfd fd fds p q : interest k = ∅ -> refused k = false -> NoDup (fd :: fds) ->
  NewPoller (H := H) k fd = Ret (inl p) -> kq_NewPoller (H := H) k' kfd fd = Ret (inl q) ->
  in_step 0 (fd :: fds) (with_slots p fds) (kq_with_slots q (idle_slot <$> fds)) /\ piped q = 0.
Proof.
  intros Hk Hr Hnd Ep Eq; destruct (NewPoller_ok (H := H) k fd Hk) as (r & E & Hk1); rewrite Ep in E; injection E as <-.
  destruct (Hk1 p eq_refl) as (k1 & -> & Hint); unfold kq_NewPoller in Eq.
  destruct (kevent _ _ _ _) as [k2 [evs | e]]; [| done]; cbn in Eq; injection Eq as <-; split; [| done].
  split; [by apply boot_poller_ok | | done | |].
  - split; try done; constructor; [split; try done; [right; by left | by intros []] |].
    apply Forall2_fmap, Forall_Forall2_diag, list.Forall_forall; intros; apply idle_agree.
  - cbn; rewrite <-list_fmap_compose; cbn; by rewrite (list_fmap_ext _ id), list_fmap_id by done.
  - intros _; revert Ep; unfold NewPoller, SetRead, setRW, add, control; cbn -[epoll_ctl]; change (has_flag _ _) with false; cbn -[epoll_ctl].
    destruct (epoll_ctl _ _) as [k3 [e |]] eqn:E; cbn; intros [= <-]; by rewrite (ctl_ok_refused _ _ _ E).
Qed.
End new_pollers.

(** C14: the epoll poller and the kqueue poller are interchangeable.  Take new pollers with
    slots for the same descriptors, handlers that make calls on the poller when they run,
    and a sequence of calls and polls; the calls are on slots other than the waker's and do
    not close the poller.  If each wait of the two kernels reports the same (the same
    descriptors ready for the same events in the same order, or the same error), the runs
    end alike: both panic, both block on the lock, or both return, having called the same
    handlers in the same order, with the same events armed and the same number of pending
    operations.  The errors of the calls are the same except that (1) where epoll refuses a
    request kqueue reports nothing, and (2) [Post] of kqueue may report that the pipe is
    full.  If epoll serves the descriptors and no more handlers are posted than the pipe
    takes, there is no difference.  [Del] is among the calls only if epoll serves the
    descriptors, since its two halves are not both done otherwise. *)
Theorem pollers_agree {K K' H} `{Epoll K} `{Kqueue K'} (body : H -> list (poller_op H))
    (k : K) (k' : K') (kfd fd : Z) (fds : list Z) p q (steps : list (step (poller_op H))) :
  interest k = ∅ -> refused k = false -> NoDup (fd :: fds) ->
  (forall h, Forall (user_op (K := K) 0 (fd :: fds)) (body h)) ->
  NewPoller k fd = Ret (inl p) -> kq_NewPoller k' kfd fd = Ret (inl q) ->
  let w1 := mkTraced (with_slots p fds) [] in
  let w2 := mkTraced (kq_with_slots q (idle_slot <$> fds)) [] in
  matched 0 (fd :: fds) body steps w1 w2 ->
  alike (fun w1 w2 => same_trace (serves K (fd :: fds)) pipe_size (trace w1) (trace w2) /\
                      Forall2 slot_agree (slots (tr_poller w1)) (kq_slots (tr_poller w2)) /\
                      Pending (tr_poller w1) = kq_Pending (tr_poller w2))
    (run_steps epoll_call (Poll (run_handler epoll_call body)) steps w1)
    (run_steps kqueue_call (kq_Poll (run_handler kqueue_call body)) steps w2).
Proof.
  intros Hk Hr Hnd Hb Ep Eq w1 w2 Hm; eapply alike_mono; [| apply (steps_agree 0 (fd :: fds) body Hb); [| exact Hm]].
  - intros a b [[_ Ha _ _ _] Ht _]; split_and!; [done | apply Ha | symmetry; apply Ha].
  - destruct (new_agree k k' kfd fd fds p q Hk Hr Hnd Ep Eq) as [Hs Hq]; split; [done | by split |].
    subst w1 w2; cbn; rewrite Hq; done.
Qed.

(** Slot 1 reads and writes, slot 2 writes; the handler of slot 2 cancels the read that the
    handler of slot 1 armed again and posts a handler. *)
Definition sample_body (h : nat) : list (poller_op nat) :=
  match h with
  | 1 => [OpSet 1 ReadEvent]
  | 2 => [OpDelBoth 1; OpPost 3]
  | _ => []
  end%nat.

Definition sample_steps : list (step (poller_op nat)) :=
  [Calls [OpHandler 1 ReadEvent 1; OpHandler 1 WriteEvent 4; OpHandler 2 WriteEvent 2; OpSet 1 ReadEvent;
          OpSet 1 WriteEvent; OpSet 2 WriteEvent];
   Polls 0; Polls (-1)]%nat.

Definition sample_epoll : script_epoll := mkScript ∅ [[(5, 1%nat); (4, 2%nat)]; [(1, 0%nat)]] false.
Definition sample_kqueue : script_kqueue := mkKscript ∅ [[(5, -1); (5, -2); (6, -2)]; [(4, -1)]].

Lemma script_serves fds : serves script_epoll fds.
Proof. intros k c _; cbn; unfold script_ctl; destruct c; cbn; intros Hc; destruct (watched k !! fd); done. Qed.

Definition calls_of {P} (r : res (traced P nat)) : res (list (seen nat)) := w ← r; Ret (trace w).

Lemma pollers_agree_witness : exists p q,
  NewPoller sample_epoll 4 = Ret (inl p) /\ kq_NewPoller sample_kqueue 3 4 = Ret (inl q) /\
  alike (fun w1 w2 => same_trace (serves script_epoll [4; 5; 6]) pipe_size (trace w1) (trace w2) /\
                      Forall2 slot_agree (slots (tr_poller w1)) (kq_slots (tr_poller w2)) /\
                      Pending (tr_poller w1) = kq_Pending (tr_poller w2))
    (run_steps epoll_call (Poll (run_handler epoll_call sample_body)) sample_steps (mkTraced (with_slots p [5; 6]) []))
    (run_steps kqueue_call (kq_Poll (run_handler kqueue_call sample_body)) sample_steps (mkTraced (kq_with_slots q (idle_slot <$> [5; 6])) [])) /\
  calls_of (run_steps kqueue_call (kq_Poll (run_handler kqueue_call sample_body)) sample_steps
    (mkTraced (kq_with_slots q (idle_slot <$> [5; 6])) [])) =
    Ret [Result None; Result None; Result None; Called 1%nat None; Result None; Called 4%nat None;
         Called 2%nat None; Result None; PostResult None; Result None; Called 3%nat None; Result None].
Proof.
  eexists _, _; split_and!; [vm_compute; reflexivity | vm_compute; reflexivity | | vm_compute; reflexivity].
  apply (pollers_agree sample_body sample_epoll sample_kqueue 3 4 [5; 6]).
  - reflexivity.
  - reflexivity.
  - apply (bool_decide_unpack _); vm_compute; exact I.
  - intros [| [| [| h]]]; repeat constructor; done || apply script_serves.
  - vm_compute; reflexivity.
  - vm_compute; reflexivity.
  - vm_compute; repeat constructor; done.
Defined.
