(* ===== verification/LoopPotential.v ===== *)
(** What is still to come in the event loop: how many callbacks the armed events and the
    posted handlers can lead to, and how the steps the operations are made of change it. *)

From stdpp Require Import gmap.
From S2P Require Import Prelude Poller PollerSpec NetAddr EventLoop RunLoop LoopInvariant.

(** * Bounded programs *)

(** [within n p]: [p] starts at most [n] operations, counting those its callbacks start.
    The callback of a read or write counts twice: an operation that completes at once leaves
    its callback in the reactor, where an event armed by an earlier one finds it. *)
Fixpoint within (n : Z) (p : prog) : Prop :=
  match p with
  | Return => 0 <= n
  | CallAsyncRead _ _ _ k next | CallAsyncWrite _ _ _ k next | CallAdapterRead _ _ _ k next
  | CallAdapterWrite _ _ _ k next | CallPeerWrite _ _ _ k next =>
      exists b m, 0 <= b /\ (forall e i, within b (k e i)) /\ within m next /\ 1 + 2 * b + m <= n
  | CallReadFrom _ _ _ k next =>
      exists b m, 0 <= b /\ (forall e i a, within b (k e i a)) /\ within m next /\ 1 + 2 * b + m <= n
  | CallPeerRead _ _ k next =>
      exists b m, 0 <= b /\ (forall e i a, within b (k e i a)) /\ within m next /\ 1 + 2 * b + m <= n
  | CallWriteTo _ _ _ k next =>
      exists b m, 0 <= b /\ (forall e, within b (k e)) /\ within m next /\ 1 + 2 * b + m <= n
  | CallAccept _ k next =>
      exists b m, 0 <= b /\ (forall e c, within b (k e c)) /\ within m next /\ 1 + 2 * b + m <= n
  | CallSetAsyncReadBuffer _ _ next => within n next
  | CallScheduleOnce _ _ k next | CallPost k next =>
      exists b m, 0 <= b /\ within b k /\ (forall e, within m (next e)) /\ 1 + b + m <= n
  | CallScheduleRepeating _ _ _ _ => False
  | CallClose _ next | CallAdapterClose _ next | CallPacketClose _ next | CallListenerClose _ next
  | CallPeerClose _ next | CallTimerCancel _ next | CallTimerClose _ next => forall e, within n (next e)
  end.

Lemma within_nonneg p : forall n, within n p -> 0 <= n.
Proof.
  induction p; cbn; intros m Hm; try done;
    try match type of Hm with exists _, _ => destruct Hm as (? & ? & ? & ? & ? & ?) end;
    repeat match goal with
      | IH : forall n, within n ?p -> _, Hp : within _ ?p |- _ => apply IH in Hp
      | IH : forall e n, within n (?f e) -> _, Hp : forall e, within _ (?f e) |- _ => specialize (Hp None); apply IH in Hp
      end; lia.
Qed.

Lemma within_mono p : forall n n', within n p -> n <= n' -> within n' p.
Proof.
  induction p; cbn; intros m m' Hm Hle; try lia; try done; eauto;
    destruct Hm as (c' & r' & ? & ? & ? & ?); exists c', r'; split_and!; try done; lia.
Qed.

(** The callback of a reactor, nil panics. *)
Definition callback_within (b : Z) (k : option AsyncCallback) : Prop :=
  match k with Some k => forall e n, within b (k e n) | None => True end.
Definition peer_callback_within (b : Z) (k : option PeerReadCallback) : Prop :=
  match k with Some k => forall e n a, within b (k e n a) | None => True end.

(** The callback that the handler [h] of the object [x] calls is bounded by [b]. *)
Definition claim (x : object) (et : EventType) (h : handler) (b : Z) : Prop :=
  match x, et, h with
  | AFile x, ReadEvent, OnRead _ => callback_within b (r_cb (readReactor x))
  | AFile x, WriteEvent, OnWrite _ => callback_within b (r_cb (writeReactor x))
  | AnAdapter x, ReadEvent, OnAdapterRead _ => callback_within b (r_cb (adapter_readReactor x))
  | AnAdapter x, WriteEvent, OnAdapterWrite _ => callback_within b (r_cb (adapter_writeReactor x))
  | APacket _, ReadEvent, OnPacketRead _ _ _ _ _ k => forall e n a, within b (k e n a)
  | APacket _, WriteEvent, OnPacketWrite _ _ _ _ k => forall e, within b (k e)
  | AListener _, ReadEvent, OnAccept _ k => forall e c, within b (k e c)
  | APeer x, ReadEvent, OnPeerRead _ => peer_callback_within b (read_fn x)
  | APeer x, WriteEvent, OnPeerWrite _ => callback_within b (write_fn x)
  | ATimer _, ReadEvent, OnTimer _ (Once k) => within b k
  | _, _, _ => False
  end.

Lemma callback_within_mono b b' k : callback_within b k -> b <= b' -> callback_within b' k.
Proof. destruct k; cbn; eauto using within_mono. Qed.

Lemma peer_callback_within_mono b b' k : peer_callback_within b k -> b <= b' -> peer_callback_within b' k.
Proof. destruct k; cbn; eauto using within_mono. Qed.

Lemma claim_mono x et h b b' : claim x et h b -> b <= b' -> claim x et h b'.
Proof.
  destruct x, et; try done; destruct h; try done; try match goal with c : timer_cb |- _ => destruct c end; cbn; try done;
    eauto using within_mono, callback_within_mono, peer_callback_within_mono.
Qed.

(** Posted handlers. *)
Fixpoint post_cost (hs : list handler) (q : Z) : Prop :=
  match hs with
  | [] => 0 <= q
  | h :: hs => exists p b, h = Posted p /\ within b p /\ post_cost hs (q - 1 - b)
  end.

Lemma post_cost_length hs : forall q, post_cost hs q -> zlen hs <= q.
Proof.
  induction hs as [| h hs IH]; cbn; intros q; [done |]; intros (p & b & _ & Hb%within_nonneg & Hq%IH); llia.
Qed.

Lemma post_cost_app hs hs' q q' : post_cost hs q -> post_cost hs' q' -> post_cost (hs ++ hs') (q + q').
Proof.
  revert q; induction hs as [| h hs IH]; cbn [post_cost app]; intros q Hq Hq'.
  - revert q' Hq'; induction hs' as [| h hs' IH]; cbn; intros q' Hq'; [lia |].
    destruct Hq' as (p & b & -> & Hb & Hr); exists p, b; split_and!; [done | done |].
    replace (q + q' - 1 - b) with (q + (q' - 1 - b)) by lia; by apply IH.
  - destruct Hq as (p & b & -> & Hb & Hr); exists p, b; split_and!; [done | done |].
    replace (q + q' - 1 - b) with (q - 1 - b + q') by lia; by apply IH.
Qed.

(** * Systems that do not block forever *)

(** The errors after which a call is made again: the errno values and what the code makes
    of them. *)
Definition transient (e : error) : bool :=
  bool_decide (e ∈ [EAGAIN; ErrWouldBlock; ErrOther 105; ErrNoBufferSpaceAvailable]).

Definition blocked {A} (r : A + error) : Z :=
  match r with inr e => if transient e then 1 else 0 | inl _ => 0 end.

(** [patience s] bounds how many more calls will have to be repeated: those that would
    block, that find no buffers, and the transfers of an adapter that fall short. *)
Class Patient (S : Type) `{System S} := {
  patience : S -> Z;
  patience_nonneg : forall s, 0 <= patience s;
  read_patience : forall s fd n s' r, sys_read s fd n = (s', r) ->
    patience s' <= patience s - blocked r;
  write_patience : forall s fd bs s' r, sys_write s fd bs = (s', r) ->
    patience s' <= patience s - blocked r;
  recvfrom_patience : forall s fd n s' r, sys_recvfrom s fd n = (s', r) ->
    patience s' <= patience s - blocked r;
  sendto_patience : forall s fd bs to s' r, sys_sendto s fd bs to = (s', r) ->
    patience s' <= patience s - (if default false (transient <$> r) then 1 else 0);
  accept_patience : forall s fd s' r, sys_accept s fd = (s', r) ->
    patience s' <= patience s - blocked r;
  close_patience : forall s fd s' r, sys_close s fd = (s', r) -> patience s' <= patience s;
  getsockname_patience : forall s fd s' r, sys_getsockname s fd = (s', r) -> patience s' <= patience s - blocked r;
  setnonblock_patience : forall s fd b s' r, sys_setnonblock s fd b = (s', r) ->
    patience s' <= patience s - (if default false (transient <$> r) then 1 else 0);
  settime_patience : forall s fd t s' r, timerfd_settime s fd t = (s', r) -> patience s' <= patience s;
  rw_read_patience : forall s a n s' bs err, rw_read s a n = (s', (bs, err)) ->
    patience s' <= patience s - (if decide (err = None /\ zlen bs <> n) then 1 else 0);
  rw_write_patience : forall s a bs s' n err, rw_write s a bs = (s', (n, err)) ->
    patience s' <= patience s - (if decide (err = None /\ n <> zlen bs) then 1 else 0)
}.

(** * The debt of a world *)

(** The events armed in a slot, each with the callbacks it can lead to. *)
Definition slot_owed {H} (b : EventType -> Z) (s : Slot H) : Z :=
  (if has_flag (Events s) PollerReadEvent then 1 + b ReadEvent else 0) +
  (if has_flag (Events s) PollerWriteEvent then 1 + b WriteEvent else 0).

Fixpoint owed {H} (b : nat -> EventType -> Z) (i : nat) (l : list (Slot H)) : Z :=
  match l with
  | [] => 0
  | s :: l => slot_owed (b i) s + owed b (Datatypes.S i) l
  end.

Definition override (b : nat -> EventType -> Z) (i : nat) (c : EventType -> Z) : nat -> EventType -> Z :=
  fun j => if decide (j = i) then c else b j.

Lemma owed_ext {H} b b' (l : list (Slot H)) : forall i, (forall j, (i <= j)%nat -> b j = b' j) -> owed b i l = owed b' i l.
Proof.
  induction l as [| s l IH]; intros i Hb; cbn; [done |]; rewrite Hb, (IH (Datatypes.S i)); [done | | lia].
  intros j Hj; apply Hb; lia.
Qed.

Lemma owed_insert {H} b c (l : list (Slot H)) : forall i j s s', l !! j = Some s ->
  owed (override b (i + j) c) i (<[j := s']> l) = owed b i l - slot_owed (b (i + j)%nat) s + slot_owed c s'.
Proof.
  induction l as [| t l IH]; intros i [| j] s s' Hj; simplify_eq/=.
  - rewrite Nat.add_0_r; unfold override at 1; rewrite decide_True by done.
    rewrite (owed_ext _ b l (Datatypes.S i)); [lia |]; intros k Hk; unfold override; rewrite decide_False by lia; done.
  - replace (i + Datatypes.S j)%nat with (Datatypes.S i + j)%nat by lia; rewrite (IH _ _ _ _ Hj).
    unfold override; rewrite decide_False by lia; lia.
Qed.

Lemma slot_owed_nonneg {H} b (s : Slot H) : (forall et, 0 <= b et) -> 0 <= slot_owed b s.
Proof. intros Hb; pose proof (Hb ReadEvent); pose proof (Hb WriteEvent); unfold slot_owed; repeat case_match; lia. Qed.

Lemma owed_nonneg {H} b (l : list (Slot H)) : (forall i et, 0 <= b i et) -> forall i, 0 <= owed b i l.
Proof.
  intros Hb; induction l as [| s l IH]; intros i; cbn; [lia |].
  pose proof (slot_owed_nonneg (b i) s (Hb i)); specialize (IH (Datatypes.S i)); lia.
Qed.

Ltac flags := repeat match goal with
  | |- context [has_flag ?e ?f] => let v := eval vm_compute in (has_flag e f) in change (has_flag e f) with v; cbv iota
  end.

(** Arming an event with a callback bounded by [n]. *)
Lemma slot_owed_set {H} (b c : EventType -> Z) (s s' : Slot H) et n : valid_mask (Events s) ->
  Events s' = set_mask (Events s) et -> (forall et', 0 <= b et') -> 0 <= n -> c et = n ->
  (forall et', et' <> et -> c et' = b et') -> slot_owed c s' <= slot_owed b s + (1 + n).
Proof.
  intros Hv Hev Hb Hn Hc Hne; pose proof (Hb ReadEvent); pose proof (Hb WriteEvent); unfold slot_owed; rewrite Hev.
  assert (c ReadEvent = if decide (ReadEvent = et) then n else b ReadEvent) as -> by (case_decide; subst; auto).
  assert (c WriteEvent = if decide (WriteEvent = et) then n else b WriteEvent) as -> by (case_decide; subst; auto).
  clear Hev Hc Hne; revert Hv; generalize (Events s); intros e Hv; destruct et; unfold set_mask; cbn [event_flag];
    repeat case_decide; try done; destruct Hv as [-> | [-> | [-> | ->]]]; flags; lia.
Qed.

Lemma slot_owed_del {H} (b : EventType -> Z) (s : Slot H) et : valid_mask (Events s) ->
  has_flag (Events s) (event_flag et) = true ->
  slot_owed b (set_events s (del_mask (Events s) et)) = slot_owed b s - 1 - b et.
Proof.
  unfold slot_owed, del_mask; cbn [Events set_events]; generalize (Events s); intros e Hv Hf; rewrite Hf; revert Hf.
  destruct et; cbn [event_flag]; destruct Hv as [-> | [-> | [-> | ->]]]; flags; intros; try done; lia.
Qed.

Section debt.
Context {K S : Type} `{Epoll K} `{Patient S}.
Implicit Types (w : world K S) (o : owner) (x : object).
Abbreviation pol w := (io_poller (ioc w)).

(** Every object has a slot of its own. *)
Record laid_out (p : poller K handler) (ob : objects) : Prop := {
  lay_poller : poller_ok p;
  lay_slot : forall o x, view ob o = Some x -> object_slot x <> waker p /\ is_Some (slots p !! object_slot x);
  lay_distinct : forall o o' x x', view ob o = Some x -> view ob o' = Some x' -> object_slot x = object_slot x' -> o = o'
}.

(** The bounds [b] on the callbacks of the armed events. *)
Definition claimed (p : poller K handler) (ob : objects) (b : nat -> EventType -> Z) : Prop :=
  forall o x s et, view ob o = Some x -> slots p !! object_slot x = Some s ->
    has_flag (Events s) (event_flag et) = true ->
    exists h, handler_of s et = Some h /\ claim x et h (b (object_slot x) et).

(** At most [e] callbacks and repeated calls are to come from the events that are armed. *)
Definition debt w (e : Z) : Prop :=
  laid_out (pol w) (objs w) /\
  exists b, (forall i et, 0 <= b i et) /\ claimed (pol w) (objs w) b /\
    owed b 0 (slots (pol w)) + patience (sys w) <= e.

Lemma debt_nonneg w e : debt w e -> 0 <= e.
Proof.
  intros (_ & b & Hb & _ & He); pose proof (owed_nonneg b (slots (pol w)) Hb 0).
  pose proof (patience_nonneg (sys w)); lia.
Qed.

Lemma debt_weaken w e e' : debt w e -> e <= e' -> debt w e'.
Proof. intros (? & b & ? & ? & ?) Hle; split; [done |]; exists b; split_and!; try done; lia. Qed.

(** The poller and the objects stay as they are. *)
Lemma debt_same w w' e d : debt w e -> slots (pol w') = slots (pol w) -> waker (pol w') = waker (pol w) ->
  interest (kernel (pol w')) = interest (kernel (pol w)) -> refused (kernel (pol w')) = refused (kernel (pol w)) ->
  closed (pol w') = closed (pol w) -> objs w' = objs w ->
  patience (sys w') <= patience (sys w) - d -> debt w' (e - d).
Proof.
  intros ([Hp Hs Hd] & b & Hb & Hc & He) E1 E2 E3 Er Ec E4 Hpat; split.
  - split; rewrite ?E1, ?E2, ?E4; [by eapply poller_ok_ext | exact Hs | exact Hd].
  - exists b; unfold claimed; rewrite E1, E4; split_and!; [done | exact Hc | lia].
Qed.

(** An object changes, and with it its slot. *)
Lemma debt_step w w' o x x' s s' b c : laid_out (pol w) (objs w) -> claimed (pol w) (objs w) b ->
  view (objs w) o = Some x -> slots (pol w) !! object_slot x = Some s -> changes (objs w) (objs w') o x' ->
  object_slot x' = object_slot x -> poller_ok (pol w') -> waker (pol w') = waker (pol w) ->
  slots (pol w') = <[object_slot x := s']> (slots (pol w)) ->
  (forall et, has_flag (Events s') (event_flag et) = true -> exists h, handler_of s' et = Some h /\ claim x' et h (c et)) ->
  laid_out (pol w') (objs w') /\ claimed (pol w') (objs w') (override b (object_slot x) c) /\
  owed (override b (object_slot x) c) 0 (slots (pol w')) =
    owed b 0 (slots (pol w)) - slot_owed (b (object_slot x)) s + slot_owed c s'.
Proof.
  intros [Hp Hs Hd] Hc Hx Hi Hch Hsl Hp' Hw Hsls Hcl.
  assert (forall o1 x1, view (objs w') o1 = Some x1 -> exists x0, view (objs w) o1 = Some x0 /\ object_slot x1 = object_slot x0)
    as Hback by (intros o1 x1; rewrite Hch; case_decide; [intros [= <-]; subst; by exists x | by exists x1]).
  split_and!.
  - split; [done | |].
    + intros o1 x1 (x0 & V0 & ->)%Hback; destruct (Hs o1 x0 V0) as [? Hx0]; split; [congruence |].
      rewrite Hsls; apply lookup_lt_is_Some; rewrite length_insert; by apply lookup_lt_is_Some.
    + intros o1 o2 x1 x2 (y1 & V1 & E1)%Hback (y2 & V2 & E2)%Hback E; apply (Hd o1 o2 y1 y2 V1 V2); congruence.
  - intros o1 x1 s1 et V1 Hs1 Hf; rewrite Hch in V1; rewrite Hsls in Hs1; unfold override; case_decide as Ho.
    + injection V1 as <-; rewrite Hsl in *; rewrite list_lookup_insert_eq in Hs1 by (by eapply lookup_lt_Some).
      injection Hs1 as <-; rewrite decide_True by done; by apply Hcl.
    + assert (object_slot x1 <> object_slot x) as Hne by (intros E; by apply Ho, (Hd o1 o x1 x)).
      rewrite list_lookup_insert_ne in Hs1 by done; rewrite decide_False by done; by apply (Hc o1 x1 s1).
  - rewrite Hsls; apply (owed_insert b c (slots (pol w)) 0 (object_slot x) s s' Hi).
Qed.

(** Running some code costs at most [c], unless the kernel refuses something: what it posts
    is accounted for apart.  What was refused before is still recorded. *)
Definition spends w (c : Z) w' : Prop := (willing w' -> willing w) /\ (willing w' -> forall e, debt w e ->
  exists new q, posts (pol w') = posts (pol w) ++ new /\ post_cost new q /\ debt w' (e + c - q)).

Definition costs (c : Z) w (r : res (world K S)) : Prop := forall w', r = Ret w' -> spends w c w'.

Lemma spends_silent w w' c : (willing w' -> willing w) -> posts (pol w') = posts (pol w) ->
  (willing w' -> forall e, debt w e -> debt w' (e + c)) -> spends w c w'.
Proof.
  intros Hm Hp Hd; split; [done |]; intros Hw e He; exists [], 0; rewrite app_nil_r; split_and!; [done | done |].
  rewrite Z.sub_0_r; by apply Hd.
Qed.

Lemma spends_trans w1 w2 w3 c d : spends w1 c w2 -> spends w2 d w3 -> spends w1 (c + d) w3.
Proof.
  intros [Ma Ha] [Mb Hb]; split; [auto |]; intros Hw e He.
  destruct (Ha (Mb Hw) e He) as (n1 & q1 & P1 & C1 & D1), (Hb Hw _ D1) as (n2 & q2 & P2 & C2 & D2).
  exists (n1 ++ n2), (q1 + q2); split_and!; [by rewrite P2, P1, app_assoc | by apply post_cost_app |].
  replace (e + (c + d) - (q1 + q2)) with (e + c - q1 + d - q2) by lia; done.
Qed.

Lemma spends_weaken w w' c c' : spends w c w' -> c <= c' -> spends w c' w'.
Proof.
  intros [Hm Ha] Hle; split; [done |]; intros Hw e He; destruct (Ha Hw e He) as (n & q & ? & ? & D).
  exists n, q; split_and!; [done | done |]; eapply debt_weaken; [exact D | lia].
Qed.

Lemma spends_refl w : spends w 0 w.
Proof. apply spends_silent; [done | done |]; intros _ e He; by rewrite Z.add_0_r. Qed.

(** The poller and the objects stay as they are. *)
Lemma spends_same w w' d : pol w' = pol w -> objs w' = objs w -> patience (sys w') <= patience (sys w) - d ->
  spends w (- d) w'.
Proof.
  intros Hp Ho Hpat; apply spends_silent; [unfold willing; by rewrite Hp | by rewrite Hp |]; intros _ e He.
  replace (e + - d) with (e - d) by lia; eapply debt_same; try done; by rewrite Hp.
Qed.

Lemma spends_equal w w' : pol w' = pol w -> objs w' = objs w -> sys w' = sys w -> spends w 0 w'.
Proof. intros Hp Ho Hs; apply (spends_same w w' 0 Hp Ho); rewrite Hs; lia. Qed.

(** An object changes; the callback for one event may be a new one, bounded by [b]. *)
Lemma spends_object w ob' o x x' et b : view (objs w) o = Some x -> changes (objs w) ob' o x' ->
  object_slot x' = object_slot x -> 0 <= b ->
  (forall et' h b', 0 <= b' -> claim x et' h b' -> claim x' et' h (if decide (et' = et) then b' + b else b')) ->
  spends w b (set_objs w ob').
Proof.
  intros Hx Hch Hsl Hb0 Hcl; apply spends_silent; [done | done |]; intros _ e (Hl & b0 & Hb & Hc & He).
  destruct (lay_slot _ _ Hl o x Hx) as [Hw [s Hs]].
  set (c := fun et' => if decide (et' = et) then b0 (object_slot x) et' + b else b0 (object_slot x) et').
  destruct (debt_step w (set_objs w ob') o x x' s s b0 c Hl Hc Hx Hs Hch Hsl) as (Hl' & Hc' & Ho');
    try done; [apply Hl | by rewrite list_insert_id | |].
  - intros et' Hf; destruct (Hc o x s et' Hx Hs Hf) as (h & Hh & Hk); exists h; split; [done |].
    specialize (Hcl et' h _ (Hb _ _) Hk); unfold c; by case_decide.
  - split; [exact Hl' |]; eexists; split_and!; [| exact Hc' |].
    + intros i et'; unfold override, c; specialize (Hb i et'); pose proof (Hb : 0 <= b0 i et').
      repeat case_decide; subst; lia.
    + rewrite Ho'; cbn [sys set_objs].
      assert (slot_owed c s <= slot_owed (b0 (object_slot x)) s + b); [| lia].
      unfold slot_owed, c; destruct et; repeat case_decide; try done; repeat case_match; lia.
Qed.

(** ** Reading off the code *)

Lemma costs_weaken w r c c' : costs c w r -> c <= c' -> costs c' w r.
Proof. intros Hr Hle w' E; eapply spends_weaken; [by apply Hr | done]. Qed.

Lemma costs_ret w w' c : spends w c w' -> costs c w (Ret w').
Proof. by intros Hs w'' [= <-]. Qed.

Lemma costs_panic w c : costs c w Panic.
Proof. by intros w' E. Qed.

(** A step, and what follows it. *)
Lemma costs_after w w1 r c d : spends w c w1 -> costs d w1 r -> costs (c + d) w r.
Proof. intros Hs Hr w' E; eapply spends_trans; [exact Hs | by apply Hr]. Qed.

Lemma costs_bind w r (k : world K S -> res (world K S)) c d : costs c w r -> (forall w1, r = Ret w1 -> costs d w1 (k w1)) ->
  costs (c + d) w (w1 ← r; k w1).
Proof.
  intros Hr Hk w' (w1 & E1 & E2)%res_bind_inv; eapply spends_trans; [by apply Hr | by eapply Hk].
Qed.

Lemma costs_read {A} w (r : res A) (k : A -> res (world K S)) c : (forall a, r = Ret a -> costs c w (k a)) ->
  costs c w (a ← r; k a).
Proof. intros Hk w' (a & E1 & E2)%res_bind_inv; by eapply Hk. Qed.

(** ** Arming and disarming *)

(** A request that was refused stays on record. *)
Lemma control_mono (p p' : poller K handler) c err : control p c = (p', err) ->
  refused (kernel p') = false -> refused (kernel p) = false.
Proof.
  unfold control; destruct (closed p); [by intros [= <- _] |]; destruct (epoll_ctl _ _) as [k e] eqn:E; intros [= <- <-]; cbn.
  destruct e as [e |]; [by rewrite (ctl_failed_refused _ _ _ _ E) | by rewrite (ctl_ok_refused _ _ _ E)].
Qed.

Lemma setRW_mono (p p' : poller K handler) i f err : setRW p i f = Ret (p', err) ->
  refused (kernel p') = false -> refused (kernel p) = false.
Proof.
  unfold setRW, add, modify; destruct (slots p !! i) as [s |]; [| done]; destruct (has_flag _ _); [by intros [= <- _] |].
  case_decide; intros [= E]; exact (control_mono _ _ _ _ E).
Qed.

Lemma delRW_mono (p p' : poller K handler) i f err : delRW p i f = Ret (p', err) ->
  refused (kernel p') = false -> refused (kernel p) = false.
Proof.
  unfold delRW, modify, del; destruct (slots p !! i) as [s |]; [| done]; destruct (has_flag _ _); [| by intros [= <- _]].
  case_decide; intros [= E]; exact (control_mono _ _ _ _ E).
Qed.

Lemma Del_mono (p p' : poller K handler) i err : Del p i = Ret (p', err) ->
  refused (kernel p') = false -> refused (kernel p) = false.
Proof.
  intros ([p1 e1] & E1 & E)%res_bind_inv Hr; apply (delRW_mono _ _ _ _ _ E1); destruct e1; [by injection E as <- _ |].
  by apply (delRW_mono _ _ _ _ _ E).
Qed.

Lemma changes_same ob o x : view ob o = Some x -> changes ob ob o x.
Proof. intros Hx o'; by case_decide; subst. Qed.

(** The slot of an object gets the events and handlers of [s'], the kernel following. *)
Lemma debt_slot w e o x s s' p' c b : debt w e -> laid_out (pol w) (objs w) -> claimed (pol w) (objs w) b ->
  (forall i et, 0 <= b i et) -> owed b 0 (slots (pol w)) + patience (sys w) <= e ->
  view (objs w) o = Some x -> slots (pol w) !! object_slot x = Some s -> poller_ok p' -> waker p' = waker (pol w) ->
  slots p' = <[object_slot x := s']> (slots (pol w)) -> (forall et, 0 <= c et) ->
  (forall et, has_flag (Events s') (event_flag et) = true -> exists h, handler_of s' et = Some h /\ claim x et h (c et)) ->
  debt (set_poller w p') (e - slot_owed (b (object_slot x)) s + slot_owed c s').
Proof.
  intros _ Hl Hc Hb He Hx Hs Hp' Hw Hsl Hc0 Hcl.
  destruct (debt_step w (set_poller w p') o x x s s' b c Hl Hc Hx Hs (changes_same _ _ _ Hx)) as (Hl' & Hc' & Ho'); try done.
  split; [exact Hl' |]; eexists; split_and!; [| exact Hc' | rewrite Ho'; cbn; lia].
  intros i et; unfold override; case_decide; [apply Hc0 | apply Hb].
Qed.

Lemma set_debt w e o x et h b : debt w e -> view (objs w) o = Some x -> claim x et h b -> 0 <= b ->
  exists p p' err, set_handler (pol w) (object_slot x) et h = Ret p /\
    setRW p (object_slot x) (event_flag et) = Ret (p', err) /\ posts p' = posts (pol w) /\
    (refused (kernel p') = false -> err = None) /\ debt (set_poller w p') (e + (1 + b)).
Proof.
  intros Hd Hx Hcl Hb0; pose proof Hd as (Hl & b0 & Hb & Hc & He); destruct (lay_slot _ _ Hl o x Hx) as [Hw [s Hs]].
  pose proof (lay_poller _ _ Hl) as Hp; pose proof (slot_mask _ _ s Hp Hs) as Hv.
  destruct (set_handler_ok _ _ s et h Hp Hs) as (E & Hp1 & _).
  destruct (setRW_ok _ (object_slot x) (Slot_Set s et h) et Hp1) as (k' & d & err & E2 & Hp2 & _ & Herr);
    [apply list_lookup_insert_eq; by eapply lookup_lt_Some | done |].
  eexists _, _, err; split_and!; [exact E | exact E2 | done | exact Herr |].
  set (c := fun et' => if decide (et' = et) then b else b0 (object_slot x) et').
  set (s' := set_events (Slot_Set s et h) (set_mask (Events (Slot_Set s et h)) et)).
  assert (Events s' = set_mask (Events s) et) as Hev by (by destruct et).
  eapply debt_weaken; [apply (debt_slot w e o x s s' _ c b0 Hd Hl Hc Hb He Hx Hs Hp2 eq_refl) |].
  - cbn; by rewrite list_insert_insert_eq.
  - intros et'; unfold c; case_decide; [done | apply Hb].
  - intros et'; rewrite Hev; unfold c; case_decide as Het; [subst et'; intros _; exists h; by destruct et |].
    unfold set_mask; rewrite (proj1 (mask_other _ et et' Hv ltac:(congruence))); intros Hf.
    destruct (Hc o x s et' Hx Hs Hf) as (h' & Hh & Hk); exists h'; split; [by destruct et, et' | done].
  - assert (slot_owed c s' <= slot_owed (b0 (object_slot x)) s + (1 + b)); [| lia].
    apply (slot_owed_set _ _ _ _ et); try done; [by unfold c; rewrite decide_True |].
    intros et' Hne; unfold c; by rewrite decide_False.
Qed.

Lemma Register_spends w w' i : Register w i = Ret w' -> spends w 0 w'.
Proof. intros (s & _ & E)%res_bind_inv; cbn zeta in E; repeat case_decide; simplify_eq; by apply spends_equal. Qed.

Lemma Deregister_spends w w' i : Deregister w i = Ret w' -> spends w 0 w'.
Proof. intros (s & _ & E)%res_bind_inv; cbn zeta in E; repeat case_decide; simplify_eq; by apply spends_equal. Qed.

Lemma set_handler_mono (p p' : poller K handler) i et h : set_handler p i et h = Ret p' -> kernel p' = kernel p.
Proof. unfold set_handler; destruct (slots p !! i); [by intros [= <-] | done]. Qed.

Lemma arm_costs w o x et h b c armed fail : view (objs w) o = Some x -> claim x et h b -> 0 <= b ->
  (forall w1, objs w1 = objs w -> costs 0 w1 (armed w1)) -> (forall e w1, costs c w1 (fail e w1)) ->
  costs (1 + b) w (arm w (object_slot x) et h armed fail).
Proof.
  intros Hx Hcl Hb Ha Hf w' E; unfold arm, IO_SetRead, IO_SetWrite, SetRead, SetWrite, polling in E.
  apply res_bind_inv in E as (p & E1 & E); cbn [io_poller ioc set_poller set_ioc] in E.
  assert (exists p' err, setRW p (object_slot x) (event_flag et) = Ret (p', err) /\ match err with
    | Some e => fail e (set_poller w p')
    | None => w0 ← armed (set_poller w p'); Register w0 (object_slot x) end = Ret w') as (p' & err & E2 & E').
  { apply res_bind_inv in E as ([w1 err] & E & E'); destruct et;
      apply res_bind_inv in E as ([p' e] & E & [= <- <-]); by exists p', e. }
  clear E; assert (willing (set_poller w p') -> willing w) as Hm.
  { intros Hw; unfold willing; rewrite <-(set_handler_mono _ _ _ _ _ E1); by eapply setRW_mono. }
  destruct err as [e |].
  - destruct (Hf e _ _ E') as [Mf _]; split; [auto |]; intros Hw e0 He.
    destruct (set_debt w e0 o x et h b He Hx Hcl Hb) as (q & q' & err & E1' & E2' & _ & Herr & _).
    rewrite E1 in E1'; injection E1' as <-; rewrite E2 in E2'; injection E2' as <- <-; by specialize (Herr (Mf Hw)).
  - apply res_bind_inv in E' as (w2 & E3 & E4).
    pose proof (spends_trans _ _ _ _ _ (Ha (set_poller w p') eq_refl _ E3) (Register_spends _ _ _ E4)) as [Mr Hr].
    split; [auto |]; intros Hw e0 He.
    destruct (set_debt w e0 o x et h b He Hx Hcl Hb) as (q & q' & err & E1' & E2' & Hpo & _ & Hd).
    rewrite E1 in E1'; injection E1' as <-; rewrite E2 in E2'; injection E2' as <- <-.
    destruct (Hr Hw _ Hd) as (new & n & Hn & Hq & Hd'); exists new, n; split_and!; [by rewrite Hn, <- Hpo | done |].
    by replace (e0 + (1 + b) - n) with (e0 + (1 + b) + (0 + 0) - n) by lia.
Qed.

(** An armed event is disarmed: what its callback can lead to is free again. *)
Lemma disarm_debt w e o x s et : debt w e -> view (objs w) o = Some x -> slots (pol w) !! object_slot x = Some s ->
  has_flag (Events s) (event_flag et) = true ->
  exists p' err h b, delRW (pol w) (object_slot x) (event_flag et) = Ret (p', err) /\ handler_of s et = Some h /\
    claim x et h b /\ 0 <= b /\ posts p' = posts (pol w) /\ debt (set_poller w p') (e - 1 - b).
Proof.
  intros Hd Hx Hs Hf; pose proof Hd as (Hl & b0 & Hb & Hc & He); destruct (lay_slot _ _ Hl o x Hx) as [Hw _].
  pose proof (lay_poller _ _ Hl) as Hp; pose proof (slot_mask _ _ s Hp Hs) as Hv.
  destruct (Hc o x s et Hx Hs Hf) as (h & Hh & Hk).
  destruct (delRW_ok _ (object_slot x) s et Hp Hs Hw) as (k' & d & err & E & Hp' & _).
  eexists _, err, h, _; split_and!; [exact E | exact Hh | exact Hk | apply Hb | done |].
  set (s' := set_events s (del_mask (Events s) et)).
  eapply debt_weaken; [apply (debt_slot w e o x s s' _ (b0 (object_slot x)) b0 Hd Hl Hc Hb He Hx Hs Hp' eq_refl); try done |].
  - intros et' Hf'; destruct (Hc o x s et' Hx Hs) as (h' & Hh' & Hk'); [| by exists h'].
    revert Hf'; cbn; clear -Hv; by masks.
  - unfold s'; rewrite slot_owed_del by done; lia.
Qed.

Lemma slot_owed_some {H'} (b : EventType -> Z) (s : Slot H') e' : (forall et, 0 <= b et) -> valid_mask (Events s) ->
  e' = 0 \/ e' = del_mask (Events s) ReadEvent -> slot_owed b (set_events s e') <= slot_owed b s.
Proof.
  intros Hb Hv [-> | ->]; [apply (slot_owed_nonneg b s Hb) |].
  destruct (has_flag (Events s) (event_flag ReadEvent)) eqn:Ef.
  - rewrite slot_owed_del by done; specialize (Hb ReadEvent); lia.
  - unfold del_mask; rewrite Ef; by destruct s.
Qed.

Lemma Unset_spends w w' o x err : view (objs w) o = Some x -> UnsetReadWrite w (object_slot x) = Ret (w', err) ->
  spends w 0 w' /\ objs w' = objs w.
Proof.
  intros Hx E; unfold UnsetReadWrite, polling in E; apply res_bind_inv in E as ([p' err'] & E & [= <- <-]); split; [| done].
  split; [exact (Del_mono _ _ _ _ E) |]; intros _.
  intros e Hd; pose proof Hd as (Hl & b0 & Hb & Hc & He); destruct (lay_slot _ _ Hl o x Hx) as [Hw [s Hs]].
  pose proof (slot_mask _ _ s (lay_poller _ _ Hl) Hs) as Hv.
  destruct (Del_ok _ _ s (lay_poller _ _ Hl) Hs Hw) as (e' & He' & (k' & d & e1 & E' & Hp' & _) & _).
  rewrite E in E'; injection E' as -> ->; exists [], 0; rewrite app_nil_r; split_and!; [done | done |].
  eapply debt_weaken;
    [apply (debt_slot w e o x s (set_events s e') _ (b0 (object_slot x)) b0 Hd Hl Hc Hb He Hx Hs Hp' eq_refl); try done |].
  - intros et Hf; apply (Hc o x s et Hx Hs); by eapply del_some.
  - pose proof (slot_owed_some (b0 (object_slot x)) s e' (Hb _) Hv He'); lia.
Qed.

Lemma unhook_spends w w' o x : view (objs w) o = Some x -> unhook w (object_slot x) = Ret w' ->
  spends w 0 w' /\ objs w' = objs w.
Proof.
  intros Hx E; apply res_bind_inv in E as ([w1 err] & E1 & E2); destruct (Unset_spends _ _ _ _ _ Hx E1) as [Hs Ho].
  split; [eapply (spends_trans _ _ _ 0 0); [exact Hs | by eapply Deregister_spends] |].
  apply res_bind_inv in E2 as (s & _ & E2); cbn zeta in E2; repeat case_decide; by simplify_eq.
Qed.

(** ** Calling back *)

Lemma counted_costs w c call : (forall w1, costs c w1 (call w1)) -> costs c w (counted call w).
Proof.
  intros Hc; unfold counted; replace c with (0 + (c + 0)) by lia.
  eapply costs_after; [| eapply costs_bind; [apply Hc |]; intros w1 _; apply costs_ret; by apply spends_equal].
  by apply spends_equal.
Qed.

Lemma maybe_counted_costs w c count call : (forall w1, costs c w1 (call w1)) -> costs c w (maybe_counted count call w).
Proof. intros Hc; destruct count; [by apply counted_costs | apply Hc]. Qed.

Lemma on_stack_costs w c body : (forall w1, costs c w1 (body w1)) -> costs c w (on_stack body w).
Proof.
  intros Hc; unfold on_stack; replace c with (0 + (c + 0)) by lia.
  eapply costs_after; [| eapply costs_bind; [apply Hc |]; intros w1 _; apply costs_ret; by apply spends_equal].
  by apply spends_equal.
Qed.
End debt.
