(* ===== verification/LoopCosts.v ===== *)
(** What the operations of the objects of the event loop cost, in the sense of
    [LoopPotential.v]: starting one whose callback is bounded by [b] adds at most [1 + 2 b] to
    what is to come, and a handler that is called spends what its event was counted for. *)

From stdpp Require Import gmap.
From S2P Require Import Prelude Poller PollerSpec NetAddr EventLoop FileIO Timers Adapter PacketConn ListenConn UDPPeer RunLoop LoopInvariant LoopPotential.

Section costs.
Context {K S : Type} `{Epoll K} `{Patient S}.
Implicit Types (w : world K S).

(** The patience an error uses up. *)
Definition used_up (err : option error) : Z := if default false (transient <$> err) then 1 else 0.

Lemma used_up_nonneg err : 0 <= used_up err.
Proof. unfold used_up; case_match; lia. Qed.

(** * Files *)

Lemma deref_inv {A} (l : list A) i x : deref l i = Ret x -> l !! i = Some x.
Proof. unfold deref; by case_match; intros; simplify_eq. Qed.

(** A system call and a write to a buffer. *)
Lemma spends_sys w y bf bs d : patience y <= patience (sys w) - d -> spends w (- d) (store (set_sys w y) bf bs).
Proof. intros Hd; by apply spends_same; destruct bf. Qed.

Lemma objs_store w y bf bs : objs (store (set_sys w y) bf bs) = objs w.
Proof. by destruct bf. Qed.

Lemma file_Read_spends w w' f bf off n err : file_Read w f bf off = Ret (w', (n, err)) ->
  spends w (- used_up err) w' /\ objs w' = objs w.
Proof.
  intros (x & _ & E)%res_bind_inv; apply res_bind_inv in E as (s & _ & E); apply res_bind_inv in E as (bs & _ & E).
  case_decide; [| done]; destruct (sys_read _ _ _) as [y r] eqn:Er; apply read_patience in Er; cbn zeta in E.
  destruct r as [got | e]; case_decide as Hg; simplify_eq; rewrite ?objs_store; (split; [| done]);
    try (apply spends_sys; exact Er); by apply (spends_sys _ _ None []).
Qed.

Lemma file_Write_spends w w' f bf off n err : file_Write w f bf off = Ret (w', (n, err)) ->
  spends w (- used_up err) w' /\ objs w' = objs w.
Proof.
  intros (x & _ & E)%res_bind_inv; apply res_bind_inv in E as (s & _ & E); apply res_bind_inv in E as (bs & _ & E).
  case_decide; [| done]; destruct (sys_write _ _ _) as [y r] eqn:Er; apply write_patience in Er; cbn zeta in E.
  destruct r as [got | e]; repeat case_decide; simplify_eq; (split; [| done]); by apply (spends_sys _ _ None []).
Qed.

(** [call] calls the user back, which costs [b]. *)
Definition call_costs (b : Z) (call : option error -> Z -> world K S -> res (world K S)) : Prop :=
  forall err n w, costs b w (call err n w).

Lemma set_file_spends w f x x' et b : files (objs w) !! f = Some x -> file_slot x' = file_slot x -> 0 <= b ->
  (forall et' h b', 0 <= b' -> claim (AFile x) et' h b' ->
     claim (AFile x') et' h (if decide (et' = et) then b' + b else b')) -> spends w b (set_file w f x').
Proof.
  intros Hx Hsl Hb Hc; apply (spends_object w _ (File f) (AFile x) (AFile x') et); try done; [cbn; by rewrite Hx |].
  by eapply changes_file.
Qed.

(** The same callbacks. *)
Lemma set_file_same w f x x' : files (objs w) !! f = Some x -> file_slot x' = file_slot x ->
  r_cb (readReactor x') = r_cb (readReactor x) -> r_cb (writeReactor x') = r_cb (writeReactor x) ->
  spends w 0 (set_file w f x').
Proof.
  intros Hx Hsl Hr Hw; apply (set_file_spends w f x x' ReadEvent 0); try done; intros et h b' _ Hcl; rewrite Z.add_0_r.
  assert (claim (AFile x') et h b') by (destruct et, h; cbn in *; try done; congruence); by case_decide.
Qed.

Lemma costs_from w w1 r c : spends w 0 w1 -> costs c w1 r -> costs c w r.
Proof. intros Hs Hr; replace c with (0 + c) by lia; by eapply costs_after. Qed.

Lemma armed_nothing (w : world K S) : costs 0 w (Ret w).
Proof. apply costs_ret, spends_refl. Qed.

Lemma scheduleRead_costs w f x n call b : files (objs w) !! f = Some x -> callback_within b (r_cb (readReactor x)) ->
  0 <= b -> call_costs b call -> costs (1 + b) w (scheduleRead w f n call).
Proof.
  intros Hx Hk Hb Hc; apply costs_read; intros y Hy%deref_inv; rewrite Hx in Hy; injection Hy as <-.
  destruct (file_closed x); [eapply costs_weaken; [apply Hc | lia] |]; cbn zeta; set (x' := set_readReactor _ _).
  eapply costs_from; [by apply (set_file_same w f x x') |].
  apply (arm_costs _ (File f) (AFile x') ReadEvent (OnRead f) b b); try done; [| intros; apply armed_nothing].
  cbn; by rewrite list_lookup_insert_eq by (by eapply lookup_lt_Some).
Qed.

Lemma scheduleWrite_costs w f x n call b : files (objs w) !! f = Some x -> callback_within b (r_cb (writeReactor x)) ->
  0 <= b -> call_costs b call -> costs (1 + b) w (scheduleWrite w f n call).
Proof.
  intros Hx Hk Hb Hc; apply costs_read; intros y Hy%deref_inv; rewrite Hx in Hy; injection Hy as <-.
  destruct (file_closed x); [eapply costs_weaken; [apply Hc | lia] |]; cbn zeta; set (x' := set_writeReactor _ _).
  eapply costs_from; [by apply (set_file_same w f x x') |].
  apply (arm_costs _ (File f) (AFile x') WriteEvent (OnWrite f) b b); try done; [| intros; apply armed_nothing].
  cbn; by rewrite list_lookup_insert_eq by (by eapply lookup_lt_Some).
Qed.

Lemma costs_pair {A} w (r : res (world K S * A)) (k : world K S * A -> res (world K S)) c :
  (forall w1 a, r = Ret (w1, a) -> exists d, spends w d w1 /\ costs (c - d) w1 (k (w1, a))) -> costs c w (y ← r; k y).
Proof.
  intros Hk w' ([w1 a] & E1 & E2)%res_bind_inv; destruct (Hk w1 a E1) as (d & Hs & Hc).
  replace c with (d + (c - d)) by lia; eapply spends_trans; [exact Hs | by apply Hc].
Qed.

(** The operation is over, or would block and is scheduled. *)
Lemma now_or_later w1 b err (P : Prop) `{Decision P} (now later last : res (world K S)) : 0 <= b ->
  costs b w1 now -> costs (1 + b) w1 later -> costs b w1 last ->
  costs (b + used_up err) w1 (if decide P then now else if decide (err = Some ErrWouldBlock) then later else last).
Proof.
  intros Hb Hdone Hlater Hlast; pose proof (used_up_nonneg err); repeat case_decide; subst;
    (eapply costs_weaken; [eassumption |]); try change (used_up (Some ErrWouldBlock)) with 1; lia.
Qed.

Lemma asyncReadNow_costs w f x bf n all call b : files (objs w) !! f = Some x ->
  callback_within b (r_cb (readReactor x)) -> 0 <= b -> call_costs b call ->
  costs b w (asyncReadNow w f bf n all call).
Proof.
  intros Hx Hk Hb Hc; apply costs_pair; intros w1 [m err] E; destruct (file_Read_spends _ _ _ _ _ _ _ E) as [Hs Ho].
  eexists; split; [exact Hs |]; apply costs_read; intros bs _; replace (b - - used_up err) with (b + used_up err) by lia.
  apply now_or_later; [done | apply Hc | | apply Hc]; eapply scheduleRead_costs; try done; by rewrite Ho.
Qed.

Lemma asyncWriteNow_costs w f x bf n all call b : files (objs w) !! f = Some x ->
  callback_within b (r_cb (writeReactor x)) -> 0 <= b -> call_costs b call ->
  costs b w (asyncWriteNow w f bf n all call).
Proof.
  intros Hx Hk Hb Hc; apply costs_pair; intros w1 [m err] E; destruct (file_Write_spends _ _ _ _ _ _ _ E) as [Hs Ho].
  eexists; split; [exact Hs |]; apply costs_read; intros bs _; replace (b - - used_up err) with (b + used_up err) by lia.
  apply now_or_later; [done | apply Hc | | apply Hc]; eapply scheduleWrite_costs; try done; by rewrite Ho.
Qed.

Lemma counted_call b call : call_costs b call -> call_costs b (fun err n => counted (call err n)).
Proof. intros Hc err n w; apply counted_costs, Hc. Qed.

Lemma asyncRead_costs w f bf all k call b : 0 <= b -> (forall e n, within b (k e n)) -> call_costs b call ->
  costs (1 + 2 * b) w (asyncRead w f bf all k call).
Proof.
  intros Hb Hk Hc; apply costs_read; intros x Hx%deref_inv; cbn zeta; set (x' := set_readReactor _ _).
  replace (1 + 2 * b) with (b + (1 + b)) by lia; eapply costs_after.
  - apply (set_file_spends w f x x' ReadEvent b); try done; intros et h b' Hb' Hcl; destruct et, h; try done; cbn in *.
    intros e n; rewrite decide_True by done; eapply within_mono; [apply Hk | lia].
  - assert (files (objs (set_file w f x')) !! f = Some x') as Hx'
      by (cbn; by rewrite list_lookup_insert_eq by (by eapply lookup_lt_Some)).
    case_decide; [| eapply scheduleRead_costs; [exact Hx' | exact Hk | done | done]].
    eapply costs_weaken; [eapply asyncReadNow_costs; [exact Hx' | exact Hk | done | by apply counted_call] | lia].
Qed.

Lemma asyncWrite_costs w f bf all k call b : 0 <= b -> (forall e n, within b (k e n)) -> call_costs b call ->
  costs (1 + 2 * b) w (asyncWrite w f bf all k call).
Proof.
  intros Hb Hk Hc; apply costs_read; intros x Hx%deref_inv; cbn zeta; set (x' := set_writeReactor _ _).
  replace (1 + 2 * b) with (b + (1 + b)) by lia; eapply costs_after.
  - apply (set_file_spends w f x x' WriteEvent b); try done; intros et h b' Hb' Hcl; destruct et, h; try done; cbn in *.
    intros e n; rewrite decide_True by done; eapply within_mono; [apply Hk | lia].
  - assert (files (objs (set_file w f x')) !! f = Some x') as Hx'
      by (cbn; by rewrite list_lookup_insert_eq by (by eapply lookup_lt_Some)).
    case_decide; [| eapply scheduleWrite_costs; [exact Hx' | exact Hk | done | done]].
    eapply costs_weaken; [eapply asyncWriteNow_costs; [exact Hx' | exact Hk | done | by apply counted_call] | lia].
Qed.

(** Closing an object that keeps its callbacks. *)
Lemma close_costs w1 w2 i fd y err : slot_of w1 i = Ret fd -> sys_close (sys w1) (Fd fd) = (y, err) -> w2 = set_sys w1 y ->
  spends w1 0 w2.
Proof.
  intros _ E ->; apply close_patience in E; apply (spends_same _ _ 0); try done; cbn; lia.
Qed.

Lemma file_Close_spends w w' f err : file_Close w f = Ret (w', err) -> spends w 0 w'.
Proof.
  intros (x & Hx%deref_inv & E)%res_bind_inv; destruct (file_closed x); [simplify_eq; apply spends_refl |].
  cbn zeta in E; set (x' := mkFile _ _ _ _) in E; apply res_bind_inv in E as ([w1 e1] & E1 & E).
  assert (spends w 0 w1) as H3.
  { eapply (spends_trans _ _ _ 0 0); [by apply (set_file_same w f x x') |].
    eapply (Unset_spends _ _ (File f) (AFile x')); [| exact E1].
    cbn; by rewrite list_lookup_insert_eq by (by eapply lookup_lt_Some). }
  destruct e1 as [e1 |]; [by simplify_eq |]; apply res_bind_inv in E as (w2 & E2 & E); apply Deregister_spends in E2.
  apply res_bind_inv in E as (s & Hs & E); destruct (sys_close _ _) as [y e2] eqn:Ec; simplify_eq.
  eapply (spends_trans _ _ _ 0 0); [exact H3 |]; eapply (spends_trans _ _ _ 0 0); [exact E2 | by eapply close_costs].
Qed.

Lemma after_deregister w i k b : (forall w1, objs w1 = objs w -> costs b w1 (k w1)) ->
  costs b w (w1 ← Deregister w i; k w1).
Proof.
  intros Hk; replace b with (0 + b) by lia; apply costs_bind; [intros w1; apply Deregister_spends |].
  intros w1 E; apply Hk; apply res_bind_inv in E as (s & _ & E); cbn zeta in E; repeat case_decide; by simplify_eq.
Qed.

(** What the callbacks of the reactors cost. *)
Definition user_costs (b : Z) (user : option AsyncCallback -> option error -> Z -> world K S -> res (world K S)) : Prop :=
  forall k, callback_within b k -> call_costs b (user k).

Lemma onRead_costs user w f x err b : files (objs w) !! f = Some x -> callback_within b (r_cb (readReactor x)) -> 0 <= b ->
  user_costs b user -> costs b w (onRead user w f err).
Proof.
  intros Hx Hk Hb Hu; apply costs_read; intros y Hy%deref_inv; rewrite Hx in Hy; injection Hy as <-.
  apply after_deregister; intros w1 Ho; destruct err as [e |]; [by apply Hu |].
  eapply asyncReadNow_costs; [by rewrite Ho | done | done | by apply Hu].
Qed.

Lemma onWrite_costs user w f x err b : files (objs w) !! f = Some x -> callback_within b (r_cb (writeReactor x)) -> 0 <= b ->
  user_costs b user -> costs b w (onWrite user w f err).
Proof.
  intros Hx Hk Hb Hu; apply costs_read; intros y Hy%deref_inv; rewrite Hx in Hy; injection Hy as <-.
  apply after_deregister; intros w1 Ho; destruct err as [e |]; [by apply Hu |].
  eapply asyncWriteNow_costs; [by rewrite Ho | done | done | by apply Hu].
Qed.

(** * Adapters *)

Lemma set_adapter_spends w a x x' et b : adapters (objs w) !! a = Some x -> adapter_slot x' = adapter_slot x -> 0 <= b ->
  (forall et' h b', 0 <= b' -> claim (AnAdapter x) et' h b' ->
     claim (AnAdapter x') et' h (if decide (et' = et) then b' + b else b')) -> spends w b (set_adapter w a x').
Proof.
  intros Hx Hsl Hb Hc; apply (spends_object w _ (Adapter a) (AnAdapter x) (AnAdapter x') et); try done; [cbn; by rewrite Hx |].
  by eapply changes_adapter.
Qed.

Lemma set_adapter_same w a x x' : adapters (objs w) !! a = Some x -> adapter_slot x' = adapter_slot x ->
  r_cb (adapter_readReactor x') = r_cb (adapter_readReactor x) ->
  r_cb (adapter_writeReactor x') = r_cb (adapter_writeReactor x) -> spends w 0 (set_adapter w a x').
Proof.
  intros Hx Hsl Hr Hw; apply (set_adapter_spends w a x x' ReadEvent 0); try done; intros et h b' _ Hcl; rewrite Z.add_0_r.
  assert (claim (AnAdapter x') et h b') by (destruct et, h; cbn in *; try done; congruence); by case_decide.
Qed.

Lemma adapter_scheduleRead_costs w a x n call b : adapters (objs w) !! a = Some x ->
  callback_within b (r_cb (adapter_readReactor x)) -> 0 <= b -> call_costs b call ->
  costs (1 + b) w (adapter_scheduleRead w a n call).
Proof.
  intros Hx Hk Hb Hc; apply costs_read; intros y Hy%deref_inv; rewrite Hx in Hy; injection Hy as <-.
  destruct (adapter_closed x); [eapply costs_weaken; [apply Hc | lia] |]; cbn zeta; set (x' := set_adapter_read _ _).
  eapply costs_from; [by apply (set_adapter_same w a x x') |].
  apply (arm_costs _ (Adapter a) (AnAdapter x') ReadEvent (OnAdapterRead a) b b); try done; [| intros; apply armed_nothing].
  cbn; by rewrite list_lookup_insert_eq by (by eapply lookup_lt_Some).
Qed.

Lemma adapter_scheduleWrite_costs w a x n call b : adapters (objs w) !! a = Some x ->
  callback_within b (r_cb (adapter_writeReactor x)) -> 0 <= b -> call_costs b call ->
  costs (1 + b) w (adapter_scheduleWrite w a n call).
Proof.
  intros Hx Hk Hb Hc; apply costs_read; intros y Hy%deref_inv; rewrite Hx in Hy; injection Hy as <-.
  destruct (adapter_closed x); [eapply costs_weaken; [apply Hc | lia] |]; cbn zeta; set (x' := set_adapter_write _ _).
  eapply costs_from; [by apply (set_adapter_same w a x x') |].
  apply (arm_costs _ (Adapter a) (AnAdapter x') WriteEvent (OnAdapterWrite a) b b); try done; [| intros; apply armed_nothing].
  cbn; by rewrite list_lookup_insert_eq by (by eapply lookup_lt_Some).
Qed.

Lemma adapter_asyncRead_costs w a bf all k call b : 0 <= b -> (forall e n, within b (k e n)) -> call_costs b call ->
  costs (1 + 2 * b) w (adapter_asyncRead w a bf all k call).
Proof.
  intros Hb Hk Hc; apply costs_read; intros x Hx%deref_inv; cbn zeta; set (x' := set_adapter_read _ _).
  replace (1 + 2 * b) with (b + (1 + b)) by lia; eapply costs_after.
  - apply (set_adapter_spends w a x x' ReadEvent b); try done; intros et h b' Hb' Hcl; destruct et, h; try done; cbn in *.
    intros e n; rewrite decide_True by done; eapply within_mono; [apply Hk | lia].
  - apply (adapter_scheduleRead_costs _ a x'); [| exact Hk | done | done].
    cbn; by rewrite list_lookup_insert_eq by (by eapply lookup_lt_Some).
Qed.

Lemma adapter_asyncWrite_costs w a bf all k call b : 0 <= b -> (forall e n, within b (k e n)) -> call_costs b call ->
  costs (1 + 2 * b) w (adapter_asyncWrite w a bf all k call).
Proof.
  intros Hb Hk Hc; apply costs_read; intros x Hx%deref_inv; cbn zeta; set (x' := set_adapter_write _ _).
  replace (1 + 2 * b) with (b + (1 + b)) by lia; eapply costs_after.
  - apply (set_adapter_spends w a x x' WriteEvent b); try done; intros et h b' Hb' Hcl; destruct et, h; try done; cbn in *.
    intros e n; rewrite decide_True by done; eapply within_mono; [apply Hk | lia].
  - apply (adapter_scheduleWrite_costs _ a x'); [| exact Hk | done | done].
    cbn; by rewrite list_lookup_insert_eq by (by eapply lookup_lt_Some).
Qed.

(** A transfer that falls short is made again, at the expense of the system's patience. *)
Lemma adapter_asyncReadNow_costs w a x bf n all call b : adapters (objs w) !! a = Some x ->
  callback_within b (r_cb (adapter_readReactor x)) -> 0 <= b -> call_costs b call ->
  costs b w (adapter_asyncReadNow w a bf n all call).
Proof.
  intros Hx Hk Hb Hc; apply costs_read; intros bs _; case_decide; [| apply costs_panic].
  destruct (rw_read _ _ _) as [y [got err]] eqn:E; apply rw_read_patience in E; cbn zeta.
  set (d := if decide _ then _ else _) in E; replace b with (- d + (b + d)) by lia.
  eapply costs_after; [by apply spends_sys |]; assert (0 <= d) by (unfold d; case_decide; lia).
  destruct err as [e |]; [eapply costs_weaken; [apply Hc | lia] |].
  case_decide as Hsh; [| eapply costs_weaken; [apply Hc | lia]].
  assert (d = 1) as -> by (unfold d; rewrite decide_True; [done |]; split; [done | lia]).
  rewrite Z.add_comm; eapply adapter_scheduleRead_costs; try done; by rewrite objs_store.
Qed.

Lemma adapter_asyncWriteNow_costs w a x bf n all call b : adapters (objs w) !! a = Some x ->
  callback_within b (r_cb (adapter_writeReactor x)) -> 0 <= b -> call_costs b call ->
  costs b w (adapter_asyncWriteNow w a bf n all call).
Proof.
  intros Hx Hk Hb Hc; apply costs_read; intros bs _; case_decide; [| apply costs_panic].
  destruct (rw_write _ _ _) as [y [m err]] eqn:E; apply rw_write_patience in E; cbn zeta.
  set (d := if decide _ then _ else _) in E; replace b with (- d + (b + d)) by lia.
  eapply costs_after; [by apply (spends_sys w y None []) |]; cbn [store]; assert (0 <= d) by (unfold d; case_decide; lia).
  destruct err as [e |]; [eapply costs_weaken; [apply Hc | lia] |].
  case_decide as Hsh; [| eapply costs_weaken; [apply Hc | lia]].
  assert (d = 1) as -> by (unfold d; rewrite decide_True; [done |]; split; [done | llia]).
  rewrite Z.add_comm; by eapply adapter_scheduleWrite_costs.
Qed.

Lemma adapter_Close_spends w w' a err : adapter_Close w a = Ret (w', err) -> spends w 0 w'.
Proof.
  intros (x & Hx%deref_inv & E)%res_bind_inv; destruct (adapter_closed x); [simplify_eq; apply spends_refl |].
  cbn zeta in E; set (x' := mkAdapter _ _ _ _) in E; apply res_bind_inv in E as (w1 & E1 & E).
  apply res_bind_inv in E as (s & Hs & E); destruct (sys_close _ _) as [y e2] eqn:Ec; simplify_eq.
  eapply (spends_trans _ _ _ 0 0); [by apply (set_adapter_same w a x x') |].
  eapply (spends_trans _ _ _ 0 0); [| by eapply close_costs].
  eapply (unhook_spends _ _ (Adapter a) (AnAdapter x')); [| exact E1].
  cbn; by rewrite list_lookup_insert_eq by (by eapply lookup_lt_Some).
Qed.

Lemma onAdapterRead_costs user w a x err b : adapters (objs w) !! a = Some x ->
  callback_within b (r_cb (adapter_readReactor x)) -> 0 <= b -> user_costs b user ->
  costs b w (onAdapterRead user w a err).
Proof.
  intros Hx Hk Hb Hu; apply costs_read; intros y Hy%deref_inv; rewrite Hx in Hy; injection Hy as <-.
  apply after_deregister; intros w1 Ho; destruct err as [e |]; [by apply Hu |].
  eapply adapter_asyncReadNow_costs; [by rewrite Ho | done | done | by apply Hu].
Qed.

Lemma onAdapterWrite_costs user w a x err b : adapters (objs w) !! a = Some x ->
  callback_within b (r_cb (adapter_writeReactor x)) -> 0 <= b -> user_costs b user ->
  costs b w (onAdapterWrite user w a err).
Proof.
  intros Hx Hk Hb Hu; apply costs_read; intros y Hy%deref_inv; rewrite Hx in Hy; injection Hy as <-.
  apply after_deregister; intros w1 Ho; destruct err as [e |]; [by apply Hu |].
  eapply adapter_asyncWriteNow_costs; [by rewrite Ho | done | done | by apply Hu].
Qed.

(** * Packet connections *)

Section packets.
Context (user_read : AsyncReadCallbackPacket -> option error -> Z -> option netAddr -> world K S -> res (world K S)).
Context (user_write : AsyncWriteCallbackPacket -> option error -> world K S -> res (world K S)).

(** The callback [k] costs [b]. *)
Definition packet_read_costs (b : Z) (k : AsyncReadCallbackPacket) : Prop :=
  (forall e n a, within b (k e n a)) /\ forall e n a w, costs b w (user_read k e n a w).
Definition packet_write_costs (b : Z) (k : AsyncWriteCallbackPacket) : Prop :=
  (forall e, within b (k e)) /\ forall e w, costs b w (user_write k e w).

Lemma packet_read_cb_costs b count k e n a w : packet_read_costs b k -> costs b w (packet_read_cb user_read count k e n a w).
Proof. intros [_ Hk]; apply maybe_counted_costs; intros; apply Hk. Qed.

Lemma packet_write_cb_costs b count k e w : packet_write_costs b k -> costs b w (packet_write_cb user_write count k e w).
Proof. intros [_ Hk]; apply maybe_counted_costs; intros; apply Hk. Qed.

Lemma packet_scheduleRead_costs w c bf n all count k b : 0 <= b -> packet_read_costs b k ->
  costs (1 + b) w (packet_scheduleRead user_read w c bf n all count k).
Proof.
  intros Hb Hk; apply costs_read; intros x Hx%deref_inv.
  destruct (packet_closed x); [eapply costs_weaken; [by apply packet_read_cb_costs with (b := b) | lia] |].
  apply (arm_costs _ (Packet c) (APacket x) _ _ b b); try done; [cbn; by rewrite Hx | exact (proj1 Hk) | intros; apply armed_nothing |].
  intros; by apply packet_read_cb_costs.
Qed.

Lemma packet_scheduleWrite_costs w c bf to count k b : 0 <= b -> packet_write_costs b k ->
  costs (1 + b) w (packet_scheduleWrite user_write w c bf to count k).
Proof.
  intros Hb Hk; apply costs_read; intros x Hx%deref_inv.
  destruct (packet_closed x); [eapply costs_weaken; [by apply packet_write_cb_costs with (b := b) | lia] |].
  apply (arm_costs _ (Packet c) (APacket x) _ _ b b); try done; [cbn; by rewrite Hx | exact (proj1 Hk) | intros; apply armed_nothing |].
  intros; by apply packet_write_cb_costs.
Qed.

Lemma packet_asyncReadNow_costs w c bf n all count k b : 0 <= b -> packet_read_costs b k ->
  costs b w (packet_asyncReadNow user_read w c bf n all count k).
Proof.
  intros Hb Hk; apply costs_pair; intros w1 [[m addr] err] E; exists (- used_up err); split.
  - apply res_bind_inv in E as (x & _ & E); apply res_bind_inv in E as (s & _ & E); apply res_bind_inv in E as (bs & _ & E).
    destruct (sys_recvfrom _ _ _) as [y r] eqn:Er; apply recvfrom_patience in Er; cbn zeta in E.
    destruct r as [[got from] | e]; repeat case_decide; simplify_eq; try (by apply (spends_sys w y None []));
      by apply (spends_sys w y (Some bf)).
  - apply costs_read; intros bs _; replace (b - - used_up err) with (b + used_up err) by lia.
    apply now_or_later; [done | by apply packet_read_cb_costs | by apply packet_scheduleRead_costs | by apply packet_read_cb_costs].
Qed.

Lemma packet_asyncReadFrom_costs w c bf all k b : 0 <= b -> packet_read_costs b k ->
  costs (1 + 2 * b) w (packet_asyncReadFrom user_read w c bf all k).
Proof.
  intros Hb Hk; unfold packet_asyncReadFrom; case_decide;
    [eapply costs_weaken; [by apply packet_asyncReadNow_costs with (b := b) | lia] | eapply costs_weaken; [by apply packet_scheduleRead_costs with (b := b) | lia]].
Qed.

Lemma packet_asyncWriteToNow_costs w c bf to count k b : 0 <= b -> packet_write_costs b k ->
  costs b w (packet_asyncWriteToNow user_write w c bf to count k).
Proof.
  intros Hb Hk; apply costs_pair; intros w1 err E; exists (- used_up err); split.
  - apply res_bind_inv in E as (x & _ & E); apply res_bind_inv in E as (s & _ & E); apply res_bind_inv in E as (bs & _ & E).
    apply res_bind_inv in E as (sa & _ & E); destruct (sys_sendto _ _ _ _) as [y r] eqn:Er; apply sendto_patience in Er.
    case_decide; simplify_eq; by apply (spends_sys w y None []).
  - pose proof (used_up_nonneg err); cbn beta iota; case_decide; subst; [eapply costs_weaken; [by apply packet_scheduleWrite_costs with (b := b) |]
      | eapply costs_weaken; [by apply packet_write_cb_costs with (b := b) | lia]].
    change (used_up (Some ErrWouldBlock)) with 1; lia.
Qed.

Lemma packet_AsyncWriteTo_costs w c bf to k b : 0 <= b -> packet_write_costs b k ->
  costs (1 + 2 * b) w (packet_AsyncWriteTo user_write w c bf to k).
Proof.
  intros Hb Hk; unfold packet_AsyncWriteTo; case_decide;
    [eapply costs_weaken; [by apply packet_asyncWriteToNow_costs with (b := b) | lia] | eapply costs_weaken; [by apply packet_scheduleWrite_costs with (b := b) | lia]].
Qed.

Lemma onPacketRead_costs w c bf n all count k err b : 0 <= b -> packet_read_costs b k ->
  costs b w (onPacketRead user_read w c bf n all count k err).
Proof.
  intros Hb Hk; apply costs_read; intros x _; apply after_deregister; intros w1 _.
  destruct err; [by apply packet_read_cb_costs with (b := b) | by apply packet_asyncReadNow_costs].
Qed.

Lemma onPacketWrite_costs w c bf to count k err b : 0 <= b -> packet_write_costs b k ->
  costs b w (onPacketWrite user_write w c bf to count k err).
Proof.
  intros Hb Hk; apply costs_read; intros x _; apply after_deregister; intros w1 _.
  destruct err; [by apply packet_write_cb_costs with (b := b) | by apply packet_asyncWriteToNow_costs].
Qed.
End packets.

Lemma packet_Close_spends w w' c err : packet_Close w c = Ret (w', err) -> spends w 0 w'.
Proof.
  intros (x & Hx%deref_inv & E)%res_bind_inv; set (x' := mkPacketConn _ _) in E; apply res_bind_inv in E as (w1 & E1 & E).
  apply res_bind_inv in E as (s & Hs & E); destruct (sys_close _ _) as [y e2] eqn:Ec; simplify_eq.
  eapply (spends_trans _ (set_packet w c x') _ 0 0).
  - apply (spends_object w _ (Packet c) (APacket x) (APacket x') ReadEvent 0); try done; [cbn; by rewrite Hx | |].
    + by eapply changes_packet.
    + intros et h b' _ Hcl; rewrite Z.add_0_r; assert (claim (APacket x') et h b') by (by destruct et, h); by case_decide.
  - eapply (spends_trans _ _ _ 0 0); [| by eapply close_costs].
    eapply (unhook_spends _ _ (Packet c) (APacket x')); [| exact E1].
    cbn; by rewrite list_lookup_insert_eq by (by eapply lookup_lt_Some).
Qed.

(** * Listeners *)

Definition accept_costs (b : Z) (k : AcceptCallback) (call : option error -> option Z -> world K S -> res (world K S)) : Prop :=
  (forall e c, within b (k e c)) /\ forall e c w, costs b w (call e c w).

Lemma accept_spends w w' l conn err : accept w l = Ret (w', (conn, err)) -> spends w (- used_up err) w'.
Proof.
  intros (x & _ & E)%res_bind_inv; apply res_bind_inv in E as (s & _ & E).
  destruct (sys_accept _ _) as [y r] eqn:Er; apply accept_patience in Er; destruct r as [[fd addr] | e]; cbn in Er.
  - destruct (sys_getsockname _ _) as [y1 r1] eqn:E1; apply getsockname_patience in E1; destruct r1 as [? | e]; cbn in E1.
    + destruct (sys_setnonblock _ _ _) as [y2 r2] eqn:E2; apply setnonblock_patience in E2; simplify_eq.
      apply (spends_sys w y2 None []); unfold used_up; lia.
    + simplify_eq; apply (spends_sys w y1 None []); unfold used_up; cbn; lia.
  - destruct (sys_close _ _) as [y1 r1] eqn:E1; apply close_patience in E1; simplify_eq.
    apply (spends_sys w y1 None []); case_decide as He; [| unfold used_up; cbn; lia].
    subst e; change (patience y <= patience (sys w) - 1) in Er; change (used_up (Some ErrWouldBlock)) with 1; lia.
Qed.

Lemma asyncAccept_costs w l k call b : 0 <= b -> accept_costs b k call -> costs (1 + b) w (asyncAccept w l k call).
Proof.
  intros Hb [Hk Hc]; apply costs_read; intros x Hx%deref_inv.
  apply (arm_costs _ (Listener l) (AListener x) _ _ b b); try done; [cbn; by rewrite Hx | intros; apply armed_nothing].
Qed.

Lemma AsyncAccept_costs w l k call b : 0 <= b -> accept_costs b k call -> costs (1 + 2 * b) w (AsyncAccept w l k call).
Proof.
  intros Hb Hk; unfold AsyncAccept; case_decide; [eapply costs_weaken; [by apply asyncAccept_costs with (b := b) | lia] |].
  apply costs_pair; intros w1 [conn err] E%accept_spends; eexists; split; [exact E |]; pose proof (used_up_nonneg err).
  cbn beta iota; case_decide; [eapply costs_weaken; [by apply asyncAccept_costs with (b := b) | lia] |].
  eapply costs_weaken; [apply counted_costs with (c := b); intros; apply Hk | lia].
Qed.

Lemma onAccept_costs w l k call err b : 0 <= b -> accept_costs b k call -> costs b w (onAccept w l call err).
Proof.
  intros Hb Hk; apply costs_read; intros x _; apply after_deregister; intros w1 _; destruct err; [apply Hk |].
  apply costs_pair; intros w2 [conn err] E%accept_spends; eexists; split; [exact E |]; pose proof (used_up_nonneg err).
  eapply costs_weaken; [apply Hk | lia].
Qed.

Lemma listener_Close_spends w w' l err : listener_Close w l = Ret (w', err) -> spends w 0 w'.
Proof.
  intros (x & Hx%deref_inv & E)%res_bind_inv; apply res_bind_inv in E as (w1 & E1 & E).
  apply res_bind_inv in E as (s & Hs & E); destruct (sys_close _ _) as [y e2] eqn:Ec; simplify_eq.
  eapply (spends_trans _ _ _ 0 0); [| by eapply close_costs].
  eapply (unhook_spends _ _ (Listener l) (AListener x)); [| exact E1]; cbn; by rewrite Hx.
Qed.

(** * Peers *)

Lemma set_peer_spends w p x x' et b : peers (objs w) !! p = Some x -> peer_slot x' = peer_slot x -> 0 <= b ->
  (forall et' h b', 0 <= b' -> claim (APeer x) et' h b' ->
     claim (APeer x') et' h (if decide (et' = et) then b' + b else b')) -> spends w b (set_peer w p x').
Proof.
  intros Hx Hsl Hb Hc; apply (spends_object w _ (Peer p) (APeer x) (APeer x') et); try done; [cbn; by rewrite Hx |].
  by eapply changes_peer.
Qed.

Lemma set_peer_same w p x x' : peers (objs w) !! p = Some x -> peer_slot x' = peer_slot x ->
  read_fn x' = read_fn x -> write_fn x' = write_fn x -> spends w 0 (set_peer w p x').
Proof.
  intros Hx Hsl Hr Hw; apply (set_peer_spends w p x x' ReadEvent 0); try done; intros et h b' _ Hcl; rewrite Z.add_0_r.
  assert (claim (APeer x') et h b') by (destruct et, h; cbn in *; try done; congruence); by case_decide.
Qed.

Lemma peer_SetAsyncReadBuffer_costs w p bf : costs 0 w (peer_SetAsyncReadBuffer w p bf).
Proof. apply costs_read; intros x Hx%deref_inv; apply costs_ret; by eapply set_peer_same. Qed.

Lemma count_read_costs w p imm : costs 0 w (count_read w p imm).
Proof. apply costs_read; intros x Hx%deref_inv; cbn zeta; apply costs_ret; by eapply set_peer_same. Qed.

Definition peer_call_costs (b : Z) (fn : option error -> Z -> AddrPort -> world K S -> res (world K S)) : Prop :=
  forall e n a w, costs b w (fn e n a w).

Lemma peer_scheduleRead_costs w p x fn b : peers (objs w) !! p = Some x -> peer_callback_within b (read_fn x) -> 0 <= b ->
  peer_call_costs b fn -> costs (1 + b) w (peer_scheduleRead w p fn).
Proof.
  intros Hx Hk Hb Hc; apply costs_read; intros y Hy%deref_inv; rewrite Hx in Hy; injection Hy as <-.
  destruct (peer_closed x); [eapply costs_weaken; [apply Hc | lia] |].
  apply (arm_costs _ (Peer p) (APeer x) _ _ b b); try done; [cbn; by rewrite Hx | intros; apply count_read_costs].
Qed.

Lemma RecvFrom_spends w w' fd bf n a err : RecvFrom w fd bf = Ret (w', (n, a, err)) ->
  spends w (- used_up err) w' /\ objs w' = objs w.
Proof.
  intros (bs & _ & E)%res_bind_inv; destruct (sys_recvfrom _ _ _) as [y r] eqn:Er; apply recvfrom_patience in Er.
  cbn zeta in E; destruct r as [[got from] | e].
  - assert (forall e, used_up e = 0 -> spends w (- used_up e) (store (set_sys w y) bf (write_at 0 got bs))) as Hs.
    { intros e ->; apply spends_sys; exact Er. }
    case_decide; [| destruct from as [[] |]]; simplify_eq; rewrite objs_store; (split; [by apply Hs | done]).
  - injection E as <- <- <- <-; split; [| done]; apply (spends_sys w y None []); case_decide as He; [by subst | exact Er].
Qed.

Lemma peer_asyncReadNow_costs w p x bf fn b : peers (objs w) !! p = Some x -> peer_callback_within b (read_fn x) -> 0 <= b ->
  peer_call_costs b fn -> costs b w (peer_asyncReadNow w p bf fn).
Proof.
  intros Hx Hk Hb Hc; apply costs_pair; intros w1 [[n a] err] E; apply res_bind_inv in E as (y & _ & E).
  destruct (RecvFrom_spends _ _ _ _ _ _ _ E) as [Hs Ho]; eexists; split; [exact Hs |]; cbn beta iota.
  destruct err as [e |].
  - pose proof (used_up_nonneg (Some e)); case_decide; [| eapply costs_weaken; [apply Hc | lia]].
    subst e; change (used_up (Some ErrWouldBlock)) with 1; replace (b - - (1)) with (1 + b) by lia.
    eapply peer_scheduleRead_costs; try done; by rewrite Ho.
  - change (used_up None) with 0; replace (b - - 0) with (0 + b) by lia; apply costs_bind; [apply count_read_costs |].
    intros; apply Hc.
Qed.

Lemma peer_AsyncRead_costs w p bf k fn b : 0 <= b -> (forall e n a, within b (k e n a)) -> peer_call_costs b fn ->
  costs (1 + 2 * b) w (peer_AsyncRead w p bf k fn).
Proof.
  intros Hb Hk Hc; apply costs_read; intros x Hx%deref_inv; cbn zeta; set (x' := set_read _ _ _).
  replace (1 + 2 * b) with (b + (1 + b)) by lia; eapply costs_after.
  - apply (set_peer_spends w p x x' ReadEvent b); try done; intros et h b' Hb' Hcl; destruct et, h; try done; cbn in *.
    intros e n a; rewrite decide_True by done; eapply within_mono; [apply Hk | lia].
  - assert (peers (objs (set_peer w p x')) !! p = Some x') as Hx'
      by (cbn; by rewrite list_lookup_insert_eq by (by eapply lookup_lt_Some)).
    case_decide; [| eapply peer_scheduleRead_costs; [exact Hx' | exact Hk | done | done]].
    eapply costs_weaken; [eapply peer_asyncReadNow_costs; [exact Hx' | exact Hk | done |] | lia].
    intros e n a w1; apply counted_costs, Hc.
Qed.

Lemma peer_scheduleWrite_costs w p x fn b : peers (objs w) !! p = Some x -> callback_within b (write_fn x) -> 0 <= b ->
  call_costs b fn -> costs (1 + b) w (peer_scheduleWrite w p fn).
Proof.
  intros Hx Hk Hb Hc; apply costs_read; intros y Hy%deref_inv; rewrite Hx in Hy; injection Hy as <-.
  destruct (peer_closed x); [eapply costs_weaken; [apply Hc | lia] |].
  apply (arm_costs _ (Peer p) (APeer x) _ _ b b); try done; [cbn; by rewrite Hx | intros; apply armed_nothing].
Qed.

Lemma SendTo_spends w w' fd bf to n err : SendTo w fd bf to = Ret (w', (n, err)) ->
  spends w (- used_up err) w' /\ objs w' = objs w.
Proof.
  intros (bs & _ & E)%res_bind_inv; apply res_bind_inv in E as (a & _ & E).
  destruct (sys_sendto _ _ _ _) as [y r] eqn:Er; apply sendto_patience in Er; cbn zeta in E.
  destruct r as [e |]; simplify_eq; (split; [| done]); apply (spends_sys w y None []); [| exact Er].
  case_decide as He; [by subst |]; case_decide as He'; [by subst | exact Er].
Qed.

Lemma peer_asyncWriteNow_costs w p x bf to fn b : peers (objs w) !! p = Some x -> callback_within b (write_fn x) -> 0 <= b ->
  call_costs b fn -> costs b w (peer_asyncWriteNow w p bf to fn).
Proof.
  intros Hx Hk Hb Hc; apply costs_pair; intros w1 [n err] E; apply res_bind_inv in E as (y & _ & E).
  destruct (SendTo_spends _ _ _ _ _ _ _ E) as [Hs Ho]; eexists; split; [exact Hs |]; cbn beta iota.
  pose proof (used_up_nonneg err); destruct err as [e |]; [| eapply costs_weaken; [apply Hc | lia]].
  case_decide as He; [| eapply costs_weaken; [apply Hc | lia]].
  assert (used_up (Some e) = 1) as -> by (by destruct He as [-> | ->]); replace (b - - (1)) with (1 + b) by lia.
  eapply peer_scheduleWrite_costs; try done; by rewrite Ho.
Qed.

Lemma peer_AsyncWrite_costs w p bf to k fn b : 0 <= b -> (forall e n, within b (k e n)) -> call_costs b fn ->
  costs (1 + 2 * b) w (peer_AsyncWrite w p bf to k fn).
Proof.
  intros Hb Hk Hc; apply costs_read; intros x Hx%deref_inv; cbn zeta; set (x' := set_write _ _ _ _).
  replace (1 + 2 * b) with (b + (1 + b)) by lia; eapply costs_after.
  - apply (set_peer_spends w p x x' WriteEvent b); try done; intros et h b' Hb' Hcl; destruct et, h; try done; cbn in *.
    intros e n; rewrite decide_True by done; eapply within_mono; [apply Hk | lia].
  - assert (peers (objs (set_peer w p x')) !! p = Some x') as Hx'
      by (cbn; by rewrite list_lookup_insert_eq by (by eapply lookup_lt_Some)).
    case_decide; [| eapply peer_scheduleWrite_costs; [exact Hx' | exact Hk | done | done]].
    eapply costs_weaken; [eapply peer_asyncWriteNow_costs; [exact Hx' | exact Hk | done | by apply counted_call] | lia].
Qed.

Lemma peer_Close_spends w w' p err : peer_Close w p = Ret (w', err) -> spends w 0 w'.
Proof.
  intros (x & Hx%deref_inv & E)%res_bind_inv; destruct (peer_closed x); [simplify_eq; apply spends_refl |].
  cbn zeta in E; apply res_bind_inv in E as (w1 & E1 & E); set (x1 := mkPeer _ _ (peer_fd x) _ _ _ _ _ _) in E1.
  assert (peers (objs (set_peer w p x1)) !! p = Some x1) as Hx1
    by (cbn; by rewrite list_lookup_insert_eq by (by eapply lookup_lt_Some)).
  destruct (unhook_spends (set_peer w p x1) w1 (Peer p) (APeer x1)) as [Hu Ho]; [cbn [view]; by rewrite Hx1 | exact E1 |].
  assert (spends w 0 w1) as Hs.
  { eapply (spends_trans _ _ _ 0 0); [by apply (set_peer_same w p x x1) | exact Hu]. }
  case_decide; [| by simplify_eq]; destruct (sys_close _ _) as [y e2] eqn:Ec; apply close_patience in Ec; simplify_eq.
  eapply (spends_trans _ _ _ 0 0); [exact Hs |].
  eapply (spends_trans _ (set_sys w1 y) _ 0 0); [apply (spends_same _ _ 0); try done; cbn; lia |].
  apply (set_peer_same _ p x1); try done; cbn [objs set_sys]; by rewrite Ho.
Qed.

Definition peer_user_costs (b : Z) (user : option PeerReadCallback -> option error -> Z -> AddrPort -> world K S -> res (world K S)) : Prop :=
  forall k, peer_callback_within b k -> peer_call_costs b (user k).

Lemma onPeerRead_costs user w p x err b : peers (objs w) !! p = Some x -> peer_callback_within b (read_fn x) -> 0 <= b ->
  peer_user_costs b user -> costs b w (onPeerRead user w p err).
Proof.
  intros Hx Hk Hb Hu; apply costs_read; intros y Hy%deref_inv; rewrite Hx in Hy; injection Hy as <-.
  apply after_deregister; intros w1 Ho; destruct err as [e |]; [by apply Hu |].
  eapply peer_asyncReadNow_costs; [by rewrite Ho | done | done | by apply Hu].
Qed.

Lemma onPeerWrite_costs user w p x err b : peers (objs w) !! p = Some x -> callback_within b (write_fn x) -> 0 <= b ->
  user_costs b user -> costs b w (onPeerWrite user w p err).
Proof.
  intros Hx Hk Hb Hu; apply costs_read; intros y Hy%deref_inv; rewrite Hx in Hy; injection Hy as <-.
  apply after_deregister; intros w1 Ho; destruct err as [e |]; [by apply Hu |].
  eapply peer_asyncWriteNow_costs; [by rewrite Ho | done | done | by apply Hu].
Qed.

(** * Timers *)

(** A timer has no callback of its own. *)
Lemma set_timer_same w t x x' : timers (objs w) !! t = Some x -> timer_slot x' = timer_slot x ->
  spends w 0 (set_timer w t x').
Proof.
  intros Hx Hsl; apply (spends_object w _ (Clock t) (ATimer x) (ATimer x') ReadEvent 0); try done; [cbn; by rewrite Hx | |].
  - by eapply changes_timer.
  - intros et h b' _ Hcl; rewrite Z.add_0_r; assert (claim (ATimer x') et h b') by (by destruct et, h); by case_decide.
Qed.

Lemma it_Unset_spends w w' t x err : timers (objs w) !! t = Some x -> it_Unset w (timer_slot x) = Ret (w', err) ->
  spends w 0 w' /\ objs w' = objs w.
Proof.
  intros Hx (s & _ & E)%res_bind_inv; destruct (has_flag _ _); [| simplify_eq; split; [apply spends_refl | done]].
  destruct (timerfd_settime _ _ _) as [y e] eqn:Et; apply settime_patience in Et; cbn zeta in E.
  assert (spends w 0 (set_sys w y)) as Hs by (apply (spends_same _ _ 0); try done; cbn; lia).
  destruct e as [e |]; [by simplify_eq |].
  destruct (Unset_spends (set_sys w y) w' (Clock t) (ATimer x) err) as [Hu Ho]; [cbn; by rewrite Hx | exact E |].
  split; [by eapply (spends_trans _ _ _ 0 0) | by rewrite Ho].
Qed.

Lemma it_Set_spends w w' t x dur k err b : timers (objs w) !! t = Some x -> within b k ->
  it_Set w (timer_slot x) dur (OnTimer t (Once k)) = Ret (w', err) -> spends w (1 + b) w' /\ objs w' = objs w.
Proof.
  intros Hx Hk ([w1 e1] & E1 & E)%res_bind_inv; destruct (it_Unset_spends _ _ _ _ _ Hx E1) as [Hs1 Ho1].
  pose proof (within_nonneg _ _ Hk); destruct e1 as [e1 |]; [simplify_eq; split; [eapply spends_weaken; [done | lia] | done] |].
  apply res_bind_inv in E as (s & _ & E); destruct (timerfd_settime _ _ _) as [y e] eqn:Et; apply settime_patience in Et.
  cbn zeta in E; assert (spends w 0 (set_sys w1 y)) as Hs.
  { eapply (spends_trans _ _ _ 0 0); [exact Hs1 |]; apply (spends_same _ _ 0); try done; cbn; lia. }
  destruct e as [e |]; [simplify_eq; split; [eapply spends_weaken; [done | lia] | done] |].
  apply res_bind_inv in E as (p & E2 & E); apply res_bind_inv in E as ([p' e'] & E3 & [= <- <-]); split; [| done].
  replace (1 + b) with (0 + (1 + b)) by lia; eapply spends_trans; [exact Hs |]; split.
  { intros Hw; unfold willing; rewrite <-(set_handler_mono _ _ _ _ _ E2); by eapply setRW_mono. }
  intros _ e He; destruct (set_debt (set_sys w1 y) e (Clock t) (ATimer x) ReadEvent (OnTimer t (Once k)) b He) as
    (q & q' & err & F1 & F2 & Hpo & _ & Hd); try done; [cbn; by rewrite Ho1, Hx |].
  pose proof (eq_trans (eq_sym E2) F1) as G1; injection G1 as <-.
  pose proof (eq_trans (eq_sym E3) F2) as G2; injection G2 as <- _.
  exists [], 0; rewrite app_nil_r, Z.sub_0_r; split_and!; [exact Hpo | done | exact Hd].
Qed.

Lemma ScheduleOnce_spends w w' t delay k call err b : within b k -> (forall w, costs b w (call w)) ->
  ScheduleOnce w t delay (Once k) call = Ret (w', err) -> spends w (1 + b) w'.
Proof.
  intros Hk Hc (x & Hx%deref_inv & E)%res_bind_inv; pose proof (within_nonneg _ _ Hk).
  case_decide; [| simplify_eq; eapply spends_weaken; [apply spends_refl | lia]].
  cbn zeta in E; set (x' := set_cancelled x false) in E.
  assert (spends w 0 (set_timer w t x')) as Hs by (by eapply set_timer_same).
  assert (timers (objs (set_timer w t x')) !! t = Some x') as Hx'
    by (cbn; by rewrite list_lookup_insert_eq by (by eapply lookup_lt_Some)).
  case_decide.
  - apply res_bind_inv in E as (w1 & E1 & [= <- <-]).
    eapply spends_weaken; [eapply spends_trans; [exact Hs | by apply Hc] | lia].
  - apply res_bind_inv in E as ([w1 e1] & E1 & E); destruct (it_Set_spends _ _ _ _ _ _ _ _ Hx' Hk E1) as [Hs1 Ho].
    pose proof (spends_trans _ _ _ _ _ Hs Hs1) as Hs2; destruct e1 as [e1 |]; [by simplify_eq |].
    injection E as <- <-; replace (1 + b) with (0 + (1 + b) + (0 + 0)) by lia; eapply spends_trans; [exact Hs2 |].
    eapply (spends_trans _ (set_pendingTimers w1 ({[t]} ∪ pendingTimers (ioc w1))) _ 0 0); [by apply spends_equal |].
    eapply set_timer_same; [cbn [objs set_pendingTimers set_ioc]; rewrite Ho; exact Hx' | done].
Qed.

Lemma Timer_Cancel_spends w w' t err : Timer_Cancel w t = Ret (w', err) -> spends w 0 w'.
Proof.
  intros (x & Hx%deref_inv & E)%res_bind_inv; apply res_bind_inv in E as ([w1 e1] & E1 & E).
  destruct (it_Unset_spends _ _ _ _ _ Hx E1) as [Hs Ho]; destruct e1; simplify_eq; [done |].
  eapply (spends_trans _ _ _ 0 0); [exact Hs |]; eapply set_timer_same; [by rewrite Ho | done].
Qed.

Lemma Timer_Close_spends w w' t err : Timer_Close w t = Ret (w', err) -> spends w 0 w'.
Proof.
  intros (x & Hx%deref_inv & E)%res_bind_inv; case_decide; [simplify_eq; apply spends_refl |].
  apply res_bind_inv in E as ([w1 e1] & E1 & E); apply res_bind_inv in E1 as ([w2 e2] & E2 & E1).
  destruct (it_Unset_spends _ _ _ _ _ Hx E2) as [Hs Ho]; apply res_bind_inv in E1 as (s & Hsl & E1).
  destruct (sys_close _ _) as [y e3] eqn:Ec; injection E1 as <- <-.
  assert (spends w 0 (set_sys w2 y)) as Hs1 by (eapply (spends_trans _ _ _ 0 0); [exact Hs | by eapply close_costs]).
  destruct e3; simplify_eq; [done |]; eapply (spends_trans _ _ _ 0 0); [exact Hs1 |].
  eapply (spends_trans _ (set_timer (set_sys w2 y) t (set_timer_state x stateClosed)) _ 0 0);
    [eapply set_timer_same; [cbn; by rewrite Ho | done] | by apply spends_equal].
Qed.

Lemma onTimer_costs run_cb w t k b : within b k -> (forall k w, within b k -> costs b w (run_cb k w)) ->
  costs b w (onTimer run_cb w t (Once k)).
Proof.
  intros Hk Hc; apply costs_read; intros x Hx%deref_inv; apply costs_read; intros s _; cbn zeta.
  destruct (sys_read _ _ _) as [y r] eqn:Er; apply read_patience in Er; cbn [fst].
  assert (0 <= blocked r) by (unfold blocked; repeat case_match; lia).
  eapply costs_from; [apply (spends_same w (set_sys w y) 0); try done; cbn; lia |].
  eapply costs_from; [by apply (spends_equal (set_sys w y) (set_pendingTimers (set_sys w y) (pendingTimers (ioc (set_sys w y)) ∖ {[t]}))) |].
  eapply costs_from; [| by apply Hc]; by eapply set_timer_same.
Qed.

(** * Posting *)

Lemma IO_Post_spends w w' p err b : within b p -> IO_Post w (Posted p) = Ret (w', err) -> spends w (1 + b) w'.
Proof.
  unfold IO_Post, Post; intros Hp E; destruct (lck _); [done |]; destruct (waker_Write _) as [q e] eqn:Ew; simplify_eq.
  unfold waker_Write in Ew; cbn in Ew; split; [destruct (closed _); by injection Ew as <- _ |].
  intros _ e He; exists [Posted p], (1 + b); replace (e + (1 + b) - (1 + b)) with (e - 0) by lia.
  destruct (closed (io_poller (ioc w))) eqn:Ec; injection Ew as <- _; (split; [done |]; split;
    [exists p, b; split_and!; [done | done | cbn; lia] | eapply debt_same; try done; cbn; lia]).
Qed.
End costs.
