(* ===== verification/LoopLiveness.v ===== *)
(** The event loop comes to rest: running a program whose callbacks start boundedly many
    operations and then [RunPending] ends, with nothing pending. *)

From stdpp Require Import gmap.
From S2P Require Import Prelude Poller PollerSpec NetAddr EventLoop FileIO Timers Adapter PacketConn ListenConn UDPPeer RunLoop LoopInvariant RunLoopSpec LoopBoot EventLoopProps LoopPotential LoopCosts.

Section programs.
Context {K S : Type} `{Epoll K} `{Patient S}.
Implicit Types (w : world K S).

(** * Programs *)

Lemma costs_next w r p c m n : costs c w r -> (forall w, costs m w (run p w)) -> c + m <= n ->
  costs n w (w ← r; run p w).
Proof. intros Hr Hp Hle; eapply costs_weaken; [eapply costs_bind; [exact Hr | intros; apply Hp] | done]. Qed.

Lemma returns_costs w (r : res (world K S * option error)) (p : option error -> prog) c m n :
  (forall w' err, r = Ret (w', err) -> spends w c w') -> (forall err w, costs m w (run (p err) w)) -> c + m <= n ->
  costs n w ('(w, err) ← r; run (p err) w).
Proof.
  intros Hr Hp Hle; eapply (costs_weaken _ _ (c + m)); [| done]; apply costs_pair; intros w1 err E.
  exists c; split; [by eapply Hr |]; replace (c + m - c) with m by lia; apply Hp.
Qed.

Lemma run_costs p : forall n w, within n p -> costs n w (run p w).
Proof.
  induction p; intros n0 w0 Hw; cbn in Hw; cbn [run];
    try match type of Hw with exists _, _ => destruct Hw as (b' & m' & Hb & Hk & Hn & Hle) end.
  - apply costs_ret; eapply spends_weaken; [apply spends_refl | done].
  - eapply costs_next; [apply asyncRead_costs; [done | exact Hk |] | eauto | lia].
    intros e i w1; apply on_stack_costs; eauto.
  - eapply costs_next; [apply asyncWrite_costs; [done | exact Hk |] | eauto | lia].
    intros e i w1; apply on_stack_costs; eauto.
  - eapply (returns_costs _ _ _ 0); [intros w1 err; apply file_Close_spends | eauto | lia].
  - eapply costs_next; [apply adapter_asyncRead_costs; [done | exact Hk |] | eauto | lia].
    intros e i w1; apply on_stack_costs; eauto.
  - eapply costs_next; [apply adapter_asyncWrite_costs; [done | exact Hk |] | eauto | lia].
    intros e i w1; apply on_stack_costs; eauto.
  - eapply (returns_costs _ _ _ 0); [intros w1 err; apply adapter_Close_spends | eauto | lia].
  - eapply costs_next; [apply packet_asyncReadFrom_costs; [done | split; [exact Hk |]] | eauto | lia].
    intros e i a w1; apply on_stack_costs; eauto.
  - eapply costs_next; [apply packet_AsyncWriteTo_costs; [done | split; [exact Hk |]] | eauto | lia].
    intros e w1; apply on_stack_costs; eauto.
  - eapply (returns_costs _ _ _ 0); [intros w1 err; apply packet_Close_spends | eauto | lia].
  - eapply costs_next; [apply AsyncAccept_costs; [done | split; [exact Hk |]] | eauto | lia].
    intros e c w1; apply on_stack_costs; eauto.
  - eapply (returns_costs _ _ _ 0); [intros w1 err; apply listener_Close_spends | eauto | lia].
  - eapply costs_next; [apply peer_AsyncRead_costs; [done | exact Hk |] | eauto | lia].
    intros e i a w1; apply on_stack_costs; eauto.
  - eapply costs_next; [apply peer_SetAsyncReadBuffer_costs | eauto | lia].
  - eapply costs_next; [apply peer_AsyncWrite_costs; [done | exact Hk |] | eauto | lia].
    intros e i w1; apply on_stack_costs; eauto.
  - eapply (returns_costs _ _ _ 0); [intros w1 err; apply peer_Close_spends | eauto | lia].
  - eapply returns_costs; [intros w' err; apply (ScheduleOnce_spends _ _ _ _ _ _ _ b' Hk) | eauto | lia].
    intros w1; apply on_stack_costs; eauto.
  - done.
  - eapply (returns_costs _ _ _ 0); [intros w1 err; apply Timer_Cancel_spends | eauto | lia].
  - eapply (returns_costs _ _ _ 0); [intros w1 err; apply Timer_Close_spends | eauto | lia].
  - eapply returns_costs; [intros w' err; apply (IO_Post_spends _ _ _ _ b' Hk) | eauto | lia].
Qed.

Lemma user_run_costs b : user_costs (K := K) (S := S) b user.
Proof. intros [k |] Hk err n w; [apply on_stack_costs; intros; apply run_costs, Hk | apply costs_panic]. Qed.

Lemma peer_user_run_costs b : peer_user_costs (K := K) (S := S) b user_peer_read.
Proof. intros [k |] Hk err n a w; [apply on_stack_costs; intros; apply run_costs, Hk | apply costs_panic]. Qed.

(** * Handlers *)

Lemma exec_costs sh calm w o x et h err b : view (objs w) o = Some x -> good sh calm (mem w) o x et h ->
  claim x et h b -> 0 <= b -> costs b w (exec h err w).
Proof.
  intros Hx Hg Hc Hb; destruct o; apply fmap_Some in Hx as (y & Hy & ->); destruct et, h; cbn in Hg; try done;
    destruct Hg as [-> _]; cbn in Hc; cbn [exec].
  - eapply onRead_costs; eauto using user_run_costs.
  - eapply onWrite_costs; eauto using user_run_costs.
  - eapply onAdapterRead_costs; eauto using user_run_costs.
  - eapply onAdapterWrite_costs; eauto using user_run_costs.
  - eapply onPacketRead_costs; [done |]; split; [done |]; intros; apply on_stack_costs; intros; by apply run_costs.
  - eapply onPacketWrite_costs; [done |]; split; [done |]; intros; apply on_stack_costs; intros; by apply run_costs.
  - eapply onAccept_costs; [done |]; split; [exact Hc |]; intros; apply on_stack_costs; intros; by apply run_costs.
  - eapply onPeerRead_costs; eauto using peer_user_run_costs.
  - eapply onPeerWrite_costs; eauto using user_run_costs.
  - destruct cb; [| done]; eapply onTimer_costs; [done |]; intros; apply on_stack_costs; intros; by apply run_costs.
Qed.
End programs.

Section liveness.
Context {K S : Type} `{Epoll K} `{Patient S}.
Context (sh : shape) (calm : bool).
Implicit Types (w : world K S) (p : poller K handler).
Abbreviation pol w := (io_poller (ioc w)).
Abbreviation loop_ok := (loop_ok sh calm).

(** * Polling *)

(** What is to come from the armed events, the posted handlers and the system. *)
Definition measure w (m : Z) : Prop := exists e q, debt w e /\ post_cost (posts (pol w)) q /\ e + q <= m.

Lemma measure_nonneg w m : measure w m -> 0 <= m.
Proof. intros (e & q & He%debt_nonneg & Hq%post_cost_length & Hle); llia. Qed.

Lemma measure_weaken w m m' : measure w m -> m <= m' -> measure w m'.
Proof. intros (e & q & ? & ? & ?) Hle; exists e, q; split_and!; try done; lia. Qed.

Lemma spends_measure w w' c m : spends w c w' -> willing w' -> measure w m -> measure w' (m + c).
Proof.
  intros [_ Hs] Hw (e & q & He & Hq & Hle); destruct (Hs Hw e He) as (new & q' & Hp & Hn & Hd).
  exists (e + c - q'), (q + q'); rewrite Hp; split_and!; [done | by apply post_cost_app | lia].
Qed.

(** An event or the waker is reported, and something is there to be called. *)
Definition productive p (ev : Z * nat) : Prop :=
  if decide (ev.2 = waker p) then posts p <> []
  else exists s et, slots p !! ev.2 = Some s /\ has_flag (Z.land ev.1 (Events s)) (event_flag et) = true.

Definition same_events p p' : Prop := slots p' = slots p /\ waker p' = waker p /\ posts p' = posts p.

Lemma productive_same p p' ev : same_events p p' -> productive p ev -> productive p' ev.
Proof. intros (Hs & Hw & Hp); unfold productive; by rewrite Hs, Hw, Hp. Qed.

Lemma fire_measure w w' i s mask et m : loop_ok w -> slots (pol w) !! i = Some s -> i <> waker (pol w) ->
  measure w m -> fire exec w i mask et = Ret w' ->
  if has_flag (Z.land mask (Events s)) (event_flag et) then willing w' -> measure w' (m - 1) else w' = w.
Proof.
  intros Hw Hs Hi (e & q & He & Hq & Hle); unfold fire; cbn [the_poller world_poller]; rewrite Hs.
  destruct (has_flag (Z.land _ _) _) eqn:Ef; [| by intros [= <-]]; rewrite fire_flag in Ef; apply andb_prop in Ef as [_ Ef].
  pose proof (lo_world _ _ w Hw) as Hok; destruct (wo_owner _ _ _ _ _ Hok i (mk_is_Some _ _ Hs) Hi) as (o & x & Hx & <-).
  destruct (slot_here _ _ w o x Hok Hx) as (s' & Hs' & _ & _ & Hr & _); rewrite Hs in Hs'; injection Hs' as <-.
  destruct (disarm_debt w e o x s et He Hx Hs Ef) as (p' & err & h & b & E1 & Hh & Hc & Hb & Hpo & Hd).
  destruct (Hr et Ef) as (h' & Hh' & Hg); rewrite Hh in Hh'; injection Hh' as <-.
  rewrite E1; res_step; rewrite Hh; intros E Hwl.
  destruct (proj2 (exec_costs sh calm (set_poller w p') o x et h None b Hx Hg Hc Hb w' E) Hwl _ Hd) as (new & q' & Hp & Hn & Hd').
  exists (e - 1 - b + b - q'), (q + q'); rewrite Hp; split_and!; [done | | lia].
  cbn; rewrite Hpo; by apply post_cost_app.
Qed.

Lemma dispatch_loop_debt hs : forall w w' e q, loop_ok w -> lck (pol w) = true -> hs ⊆ posts (pol w) -> debt w e ->
  post_cost hs q -> dispatch_loop exec w hs = Ret w' -> willing w' -> debt w' (e + q - zlen hs).
Proof.
  induction hs as [| h hs IH]; intros w w' e q Hw Hl Hin Hd Hq E Hwl.
  { injection E as <-; eapply debt_weaken; [done |]; cbn in *; lia. }
  destruct Hq as (p & b & -> & Hb & Hq); cbn [dispatch_loop] in E; apply res_bind_inv in E as (w1 & E1 & E).
  destruct (@prog_posted _ _ _ _ _ _ _ (loop_lawful sh calm) w (Posted p) Hw Hl (Hin _ (list_elem_of_here _ _))) as (w1' & E1' & Hok1 & [_ _ Hlk _ _ Hpo]).
  pose proof (eq_trans (eq_sym E1) E1') as G; injection G as <-; specialize (Hpo Hl); cbn in Hlk, Hpo.
  assert (costs b w (on_stack (run p) w)) as Hc by (apply on_stack_costs; intros; by apply run_costs).
  set (w2 := with_poller w1 _) in E; assert (loop_ok w2) as Hok2 by (apply (ok_ext exec loop_ok); [done .. | by left]).
  assert (lck (pol w2) = true /\ hs ⊆ posts (pol w2)) as [Hl2 Hin2] by (cbn; rewrite Hlk, Hpo; split; [done | set_solver]).
  assert (willing w1) as Hwl1.
  { destruct (@dispatch_loop_ok _ _ _ _ _ exec loop_ok (loop_lawful sh calm) hs w2 Hok2 Hl2 Hin2) as (w'' & E'' & _ & _ & _ & _ & _ & Hmono).
    pose proof (eq_trans (eq_sym E) E'') as G; injection G as <-; unfold willing in *.
    destruct (refused (kernel (pol w1))) eqn:Er; [| done]; rewrite <-Hwl; symmetry; by apply Hmono. }
  destruct (proj2 (Hc w1 E1) Hwl1 e Hd) as (new & q' & Hp' & Hn & Hd1).
  assert (debt w2 (e + b)) as Hd2.
  { eapply debt_weaken; [eapply (debt_same w1 w2 _ 0 Hd1); try done; cbn; lia |].
    pose proof (post_cost_length _ _ Hn); pose proof (Zle_0_nat (length new)); lia. }
  eapply debt_weaken; [eapply (IH w2 w' _ (q - 1 - b)); [done | done | done | exact Hd2 | exact Hq | exact E | done] |]; llia.
Qed.

Lemma dispatch_measure w w' m : loop_ok w -> measure w m -> dispatch exec w = Ret w' ->
  (willing w' -> measure w' (m - zlen (posts (pol w)))) /\ posts (pol w') = [] /\
  (posts (pol w) = [] -> same_events (pol w) (pol w')).
Proof.
  intros Hw (e & q & He & Hq & Hle) E; unfold dispatch in E; set (w1 := with_poller w _) in E.
  apply res_bind_inv in E as (w2 & E & [= <-]); split_and!; [| done |].
  - intros Hwl; assert (debt w2 (e + q - zlen (posts (pol w)))) as Hd.
    { eapply (dispatch_loop_debt _ w1); [| done | done | | exact Hq | exact E | exact Hwl].
      - apply (ok_ext exec loop_ok); [done .. | by left].
      - replace e with (e - 0) by lia; eapply debt_same; try done; cbn; lia. }
    exists (e + q - zlen (posts (pol w))), 0; split_and!; [| done | lia].
    replace (e + q - zlen (posts (pol w))) with (e + q - zlen (posts (pol w)) - 0) by lia.
    eapply (debt_same w2); try done; cbn; lia.
  - intros Hp; change (posts (the_poller w1)) with (posts (pol w)) in E; rewrite Hp in E; injection E as <-; by split_and!.
Qed.

(** What [Poll] does with one event. *)
Definition handle w (mask : Z) (i : nat) (s wk : Slot handler) : res (world K S) :=
  if decide (Fd s = Fd wk) then dispatch exec w
  else w ← fire exec w i mask ReadEvent; fire exec w i mask WriteEvent.

Lemma handle_ok w mask i s wk : loop_ok w -> lck (pol w) = false -> slots (pol w) !! i = Some s ->
  slots (pol w) !! waker (pol w) = Some wk ->
  exists w', handle w mask i s wk = Ret w' /\ loop_ok w' /\ keeps (pol w) (pol w').
Proof.
  intros Hw Hl Hs Hwk; pose proof (Poll_loop_ok exec loop_ok [(mask, i)] w Hw Hl) as (w' & E & Hw' & Hk).
  { constructor; [by eexists | constructor]. }
  exists w'; split_and!; [| done | done]; cbn [Poll_loop] in E; change (the_poller w) with (pol w) in E.
  rewrite Hs, Hwk in E; apply res_bind_inv in E as (w1 & E & [= <-]); exact E.
Qed.

Lemma handle_measure w w' mask i s wk m : loop_ok w -> lck (pol w) = false -> slots (pol w) !! i = Some s ->
  slots (pol w) !! waker (pol w) = Some wk -> measure w m -> handle w mask i s wk = Ret w' -> willing w' ->
  measure w' (m - 1) \/ (measure w' m /\ ~ productive (pol w) (mask, i) /\ same_events (pol w) (pol w')).
Proof.
  intros Hw Hl Hs Hwk Hm E Hwl; pose proof (wo_poller _ _ _ _ _ (lo_world _ _ w Hw)) as Hp; unfold handle in E.
  unfold productive; cbn [fst snd]; case_decide as Hfd.
  - assert (i = waker (pol w)) as -> by (by eapply same_slot); rewrite decide_True by done.
    destruct (dispatch_measure w w' m Hw Hm E) as (Hm' & _ & Hsame); destruct (posts (pol w)) as [| h hs] eqn:Ep.
    + right; split_and!; [eapply measure_weaken; [exact (Hm' Hwl) |]; cbn; lia | tauto | auto].
    + left; eapply measure_weaken; [exact (Hm' Hwl) | llia].
  - assert (i <> waker (pol w)) as Hi by congruence; rewrite decide_False by done.
    apply res_bind_inv in E as (w1 & E1 & E2); pose proof (fire_measure w w1 i s mask ReadEvent m Hw Hs Hi Hm E1) as F1.
    destruct (@fire_ok _ _ _ _ _ exec loop_ok (loop_lawful sh calm) w i s mask ReadEvent Hw Hl Hs Hi) as (w1' & E1' & Hw1 & Hk1).
    pose proof (eq_trans (eq_sym E1) E1') as G; injection G as <-; change (keeps (pol w) (pol w1)) in Hk1.
    destruct (keeps_slot _ _ i Hk1 (mk_is_Some _ _ Hs)) as [s1 Hs1].
    assert (i <> waker (pol w1)) as Hi1 by (by rewrite (keeps_waker _ _ Hk1)).
    destruct (has_flag (Z.land mask (Events s)) (event_flag ReadEvent)) eqn:Ef.
    + left; destruct (@fire_ok _ _ _ _ _ exec loop_ok (loop_lawful sh calm) w1 i s1 mask WriteEvent Hw1) as (w2' & E2' & _ & Hk2);
        [exact (eq_trans (keeps_lck _ _ Hk1) Hl) | done | done |].
      pose proof (eq_trans (eq_sym E2) E2') as G; injection G as <-; change (keeps (pol w1) (pol w')) in Hk2.
      pose proof (fire_measure w1 w' i s1 mask WriteEvent _ Hw1 Hs1 Hi1 (F1 (keeps_willing _ _ Hk2 Hwl)) E2) as F2.
      destruct (has_flag (Z.land mask (Events s1)) (event_flag WriteEvent));
        [eapply measure_weaken; [exact (F2 Hwl) | lia] | subst; by apply F1].
    + subst w1; pose proof (fire_measure w w' i s mask WriteEvent m Hw Hs Hi Hm E2) as F2.
      destruct (has_flag (Z.land mask (Events s)) (event_flag WriteEvent)) eqn:Eg; [left; by apply F2 |].
      subst w'; right; split_and!; [done | | done]; intros (s2 & et & Hs2 & Hf); rewrite Hs in Hs2; injection Hs2 as <-.
      destruct et; congruence.
Qed.

Lemma Poll_loop_keeps evs : forall w w', loop_ok w -> lck (pol w) = false -> Poll_loop exec w evs = Ret w' ->
  keeps (pol w) (pol w').
Proof.
  induction evs as [| [mask i] evs IH]; intros w w' Hw Hl E; [by injection E as <- |].
  cbn [Poll_loop] in E; change (the_poller w) with (pol w) in E.
  destruct (slots (pol w) !! i) as [s |] eqn:Hs; [| done].
  destruct (slots (pol w) !! waker (pol w)) as [wk |] eqn:Hwk; [| done].
  apply res_bind_inv in E as (w1 & E1 & E); destruct (handle_ok w mask i s wk Hw Hl Hs Hwk) as (w1' & E1' & Hw1 & Hk1).
  pose proof (eq_trans (eq_sym E1) E1') as G; injection G as <-.
  eapply keeps_trans; [exact Hk1 |]; eapply IH; [done | by rewrite (keeps_lck _ _ Hk1) | done].
Qed.

Lemma Poll_loop_measure evs : forall w w' m, loop_ok w -> lck (pol w) = false -> measure w m ->
  Poll_loop exec w evs = Ret w' -> willing w' -> measure w' m /\ (Exists (productive (pol w)) evs -> measure w' (m - 1)).
Proof.
  induction evs as [| [mask i] evs IH]; intros w w' m Hw Hl Hm E Hwl.
  { injection E as <-; split; [done |]; by intros ?%Exists_nil. }
  cbn [Poll_loop] in E; change (the_poller w) with (pol w) in E.
  destruct (slots (pol w) !! i) as [s |] eqn:Hs; [| done].
  destruct (slots (pol w) !! waker (pol w)) as [wk |] eqn:Hwk; [| done].
  apply res_bind_inv in E as (w1 & E1 & E); destruct (handle_ok w mask i s wk Hw Hl Hs Hwk) as (w1' & E1' & Hw1 & Hk1).
  pose proof (eq_trans (eq_sym E1) E1') as G; injection G as <-.
  assert (lck (pol w1) = false) as Hl1 by (by rewrite (keeps_lck _ _ Hk1)).
  assert (willing w1) as Hwl1 by (eapply keeps_willing; [by apply (Poll_loop_keeps evs w1 w') | done]).
  destruct (handle_measure w w1 mask i s wk m Hw Hl Hs Hwk Hm E1 Hwl1) as [Hm1 | (Hm1 & Hnp & Hsame)].
  - destruct (IH w1 w' (m - 1) Hw1 Hl1 Hm1 E Hwl) as [Hm' _]; split; [eapply measure_weaken; [done | lia] | done].
  - destruct (IH w1 w' m Hw1 Hl1 Hm1 E Hwl) as [Hm' Hp']; split; [done |]; intros [Hp | Hp]%Exists_cons; [done |].
    apply Hp'; revert Hp; apply List.Exists_impl; intros ev; by apply productive_same.
Qed.

(** * Coming to rest *)

(** Something is armed or posted. *)
Definition outstanding p : Prop :=
  posts p <> [] \/ exists i s et, i <> waker p /\ slots p !! i = Some s /\ has_flag (Events s) (event_flag et) = true.

(** As long as something is outstanding and the kernel was asked for it without refusing, a
    wait that may take forever ends with a report of an armed event, or of the waker if
    handlers are posted. *)
Definition fair : Prop := forall w, loop_ok w -> willing w -> waker (pol w) = 0%nat -> outstanding (pol w) ->
  exists k evs, epoll_wait (kernel (pol w)) 128 (-1) = (k, inl evs) /\ Exists (productive (pol w)) evs.

Lemma RunOne_measure w m : fair -> loop_ok w -> willing w -> lck (pol w) = false -> waker (pol w) = 0%nat ->
  outstanding (pol w) -> measure w m ->
  exists w', RunOne w = Ret (w', None) /\ loop_ok w' /\ keeps (pol w) (pol w') /\ (willing w' -> measure w' (m - 1)).
Proof.
  intros Hf Hw Hwl Hl Hw0 Ho Hm; destruct (Hf w Hw Hwl Hw0 Ho) as (k & evs & Ew & Hev).
  destruct (@Poll_ok _ _ _ _ _ exec loop_ok (loop_lawful sh calm) w (-1) Hw Hl) as (w' & n & err & E & Hw' & Hk); exists w'.
  assert (err = None /\ (willing w' -> measure w' (m - 1))) as [-> Hm'].
  { unfold Poll in E; change (the_poller w) with (pol w) in E.
    rewrite (ok_open _ (wo_poller _ _ _ _ _ (lo_world _ _ w Hw))), Ew in E; cbn zeta in E.
    rewrite decide_False in E by (intros [-> _]; by apply Exists_nil in Hev).
    apply res_bind_inv in E as (w1 & E & [= <- _ <-]); split; [done |]; intros Hwl'.
    set (w0 := with_poller w _) in E; assert (loop_ok w0) as Hok0.
    { apply (ok_ext exec loop_ok); [done .. | exact (wait_interest _ _ _ _ _ Ew) | exact (wait_refused _ _ _ _ _ Ew) | done | by left]. }
    eapply (Poll_loop_measure evs w0); [done | done | | exact E | exact Hwl' | exact Hev].
    destruct Hm as (e & q & He & Hq & Hle); exists (e - 0), q; split_and!; [| done | lia].
    eapply debt_same; try done; [exact (wait_interest _ _ _ _ _ Ew) | exact (wait_refused _ _ _ _ _ Ew) | cbn; lia]. }
  unfold RunOne, poll; change (Poll exec w (-1)) with (Poll (W := world K S) exec w (-1)); rewrite E; by res_step.
Qed.

Lemma armed_sum_zero (l : list (Slot handler)) : Forall (fun s => valid_mask (Events s)) l ->
  0 <= armed_sum l /\ (armed_sum l = 0 -> Forall (fun s => Events s = 0) l).
Proof.
  induction 1 as [| s l Hv _ [IH1 IH2]]; [by split |].
  change (armed_sum (s :: l)) with (armed (Events s) + armed_sum l).
  assert (0 <= armed (Events s) /\ (armed (Events s) = 0 -> Events s = 0)) as [Ha1 Ha2].
  { destruct Hv as [E | [E | [E | E]]]; rewrite E; vm_compute; split; congruence. }
  split; [lia |]; intros Hz; constructor; [apply Ha2; lia | apply IH2; lia].
Qed.

Lemma pending_outstanding w : loop_ok w -> waker (pol w) = 0%nat -> balance (pol w) = -1 -> 0 < IO_Pending w ->
  outstanding (pol w).
Proof.
  intros Hw Hw0 Hb Hp; destruct (posts (pol w)) as [| h hs] eqn:Ep; [right | by left; rewrite Ep].
  destruct (ok_waker _ (wo_poller _ _ _ _ _ (lo_world _ _ w Hw))) as (wk & Hwk & He); rewrite Hw0 in *.
  unfold IO_Pending, Pending in Hp; unfold balance in Hb; rewrite Ep in Hb; cbn in Hb.
  destruct (slots (pol w)) as [| wk' sl] eqn:Es; [done |]; injection Hwk as ->.
  assert (armed_sum (wk :: sl) = 1 + armed_sum sl) as Ha by (cbn; by rewrite He).
  assert (forall l : list (Slot handler), 0 < armed_sum l ->
    exists i s et, l !! i = Some s /\ has_flag (Events s) (event_flag et) = true) as Hex.
  { intros l; induction l as [| s l IH]; [cbn; lia |]; intros Hl.
    change (0 < armed (Events s) + armed_sum l) in Hl; unfold armed in Hl.
    destruct (has_flag (Events s) PollerReadEvent) eqn:E1; [by exists 0%nat, s, ReadEvent |].
    destruct (has_flag (Events s) PollerWriteEvent) eqn:E2; [by exists 0%nat, s, WriteEvent |].
    destruct IH as (i & t & et & ? & ?); [lia |]; by exists (Datatypes.S i), t, et. }
  destruct (Hex sl ltac:(lia)) as (i & s & et & Hi & Hf); exists (Datatypes.S i), s, et; by split_and!.
Qed.

(** [n] waits in a row. *)
Fixpoint waits (n : nat) w : res (world K S) :=
  match n with
  | O => Ret w
  | Datatypes.S n => '(w, _) ← RunOne w; waits n w
  end.

(** After some of the next waits the kernel has refused a request. *)
Definition refusal_within (n : nat) w : Prop := exists j w', (j <= n)%nat /\ waits j w = Ret w' /\ ~ willing w'.

Lemma RunPending_ends : fair -> forall fuel w m, loop_ok w -> lck (pol w) = false -> waker (pol w) = 0%nat ->
  balance (pol w) = -1 -> (willing w -> measure w m) -> m < Z.of_nat fuel -> 0 <= m ->
  refusal_within fuel w \/
  exists w', RunPending fuel w = Ret (w', None) /\ loop_ok w' /\ balance (pol w') = -1 /\ waker (pol w') = 0%nat /\
    IO_Pending w' <= 0.
Proof.
  intros Hf fuel; induction fuel as [| fuel IH]; intros w m Hw Hl Hw0 Hb Hm Hle Hm0; [lia |].
  destruct (decide (willing w)) as [Hwl | Hwl]; [| left; exists 0%nat, w; split_and!; [lia | done | done]].
  specialize (Hm Hwl); cbn [RunPending]; case_decide as Hp; [right; by exists w |].
  pose proof (pending_outstanding w Hw Hw0 Hb ltac:(lia)) as Ho.
  destruct (RunOne_measure w m Hf Hw Hwl Hl Hw0 Ho Hm) as (w1 & E1 & Hw1 & Hk & Hm1); rewrite E1; res_step.
  destruct (decide (willing w1)) as [Hwl1 | Hwl1].
  - pose proof (measure_nonneg _ _ (Hm1 Hwl1)).
    destruct (IH w1 (m - 1)) as [(j & w' & Hj & Ej & Hn) | Hr]; try done;
      [by rewrite (keeps_lck _ _ Hk) | by rewrite (keeps_waker _ _ Hk) | by rewrite (keeps_balance _ _ Hk) | lia | | by right].
    left; exists (Datatypes.S j), w'; split_and!; [lia | | done]; cbn [waits]; by rewrite E1.
  - left; exists 1%nat, w1; split_and!; [lia | | done]; cbn [waits]; by rewrite E1.
Qed.
End liveness.

Section rest.
Context {K S : Type} `{Epoll K} `{Patient S}.

Lemma boot_measure (k : K) fd d m (s : S) w : interest k = ∅ -> boot k fd d m s = Ret (inl w) ->
  loop_ok (shape_of d m) false w -> measure w (1 + patience s).
Proof.
  intros Hk E Hw; destruct (NewPoller_ok (H := handler) k fd Hk) as (r & Ep & Hr); unfold boot in E; rewrite Ep in E; res_step.
  cbn [mbind res_bind] in E; destruct r as [p | e]; [| done]; destruct (Hr p eq_refl) as (k' & -> & _).
  injection E as <-; exists (1 + patience s), 0; split_and!; [| done | lia].
  pose proof (lo_world _ _ _ Hw) as Hok; split.
  - split; [apply Hok | | apply Hok]; intros o x Hx; destruct (wo_slot _ _ _ _ _ Hok o x Hx) as (? & sl & Hs & _); by split.
  - exists (fun _ _ => 0); split_and!; [done | |].
    + intros o x sl et Hx Hs Hf; destruct (wo_slot _ _ _ _ _ Hok o x Hx) as (Hne & _); cbn in Hs, Hne.
      destruct (object_slot x) as [| j]; [done |]; rewrite lookup_cons_ne_0 in Hs by done; cbn in Hs.
      rewrite list_lookup_fmap in Hs; apply fmap_Some in Hs as (z & _ & ->); by destruct et.
    + assert (forall l i, owed (fun _ _ => 0) i (idle_slot (H := handler) <$> l) = 0) as Hz
        by (intros l; induction l as [| z l IH]; intros i; [done |]; exact (IH _)).
      change (owed (fun _ _ => 0) 0 (slots (io_poller _))) with (1 + owed (fun _ _ => 0) 1 (idle_slot (H := handler) <$> all_fds d)).
      rewrite Hz; cbn [sys]; lia.
Qed.

End rest.

(** * A fair kernel and a slow system *)

(** A kernel that reports one of the descriptors it watches, and the waker. *)
Record eager_epoll : Type := mkEager { eager_interest : interests; eager_refused : bool }.

Definition eager_report (m : interests) : list (Z * nat) :=
  let l := snd <$> map_to_list m in
  take 1 (filter (fun e => e.2 <> 0%nat) l) ++ take 1 (filter (fun e => e.2 = 0%nat) l).

Definition eager_ctl (k : eager_epoll) (c : ctl) : eager_epoll * option error :=
  let m := eager_interest k in
  let refuse := match c with CtlAdd fd _ _ => bool_decide (is_Some (m !! fd)) | CtlMod fd _ _ | CtlDel fd => bool_decide (m !! fd = None) end in
  if refuse then (mkEager m true, Some (ErrOther 22)) else (mkEager (ctl_effect m c) (eager_refused k), None).

Lemma eager_registered m ev : ev ∈ eager_report m -> exists fd x, m !! fd = Some (x, ev.2).
Proof.
  assert (ev ∈ snd <$> map_to_list m -> exists fd x, m !! fd = Some (x, ev.2)) as Hl.
  { intros ([fd [x i]] & -> & Hin)%list_elem_of_fmap; exists fd, x; by apply elem_of_map_to_list. }
  unfold eager_report; rewrite elem_of_app; intros [Hev | Hev]; apply elem_of_take in Hev as (j & Hj & _);
    apply list_elem_of_lookup_2, list_elem_of_filter in Hj as [_ Hj]; by apply Hl.
Qed.

#[export] Instance eager_Epoll : Epoll eager_epoll.
Proof.
  refine {| interest := eager_interest; refused := eager_refused; epoll_ctl := eager_ctl;
            epoll_wait k n t := (k, inl (ztake n (eager_report (eager_interest k)))) |}.
  - intros k c k' E; unfold eager_ctl in E; cbn zeta in E; case_match; by simplify_eq.
  - intros k c k' e E; unfold eager_ctl in E; cbn zeta in E; case_match; by simplify_eq.
  - intros k c k' E; unfold eager_ctl in E; cbn zeta in E; case_match; by simplify_eq.
  - intros k c k' e E; unfold eager_ctl in E; cbn zeta in E; case_match; by simplify_eq.
  - intros k n t k' r E; by simplify_eq.
  - intros k n t k' r E; by simplify_eq.
  - intros k n t k' evs Hn E; simplify_eq; split; [llia |]; apply list.Forall_forall; intros ev Hev.
    apply elem_of_take in Hev as (j & Hj & _); apply list_elem_of_lookup_2 in Hj.
    destruct (eager_registered _ _ Hj) as (fd & x & Hx); by exists fd, x.
Defined.

(** The first [n] calls that may block do. *)
Record slow_system : Type := mkSlow { delays : nat }.

Definition slow {A} (s : slow_system) (r : A) : slow_system * (A + error) :=
  match delays s with
  | O => (s, inl r)
  | Datatypes.S n => (mkSlow n, inr EAGAIN)
  end.

#[export] Instance slow_System : System slow_system.
Proof.
  refine {| sys_read s fd n := slow s (ztake n [Byte.x2a]);
            sys_write s fd bs := slow s (zlen bs);
            sys_close s fd := (s, None);
            sys_recvfrom s fd n := slow s (ztake n [Byte.x2a], Some localhost);
            sys_sendto s fd bs to := (s, None);
            sys_accept s fd := slow s (11, Some localhost);
            sys_getsockname s fd := (s, inl localhost);
            sys_setnonblock s fd b := (s, None);
            timerfd_settime s fd t := (s, None);
            rw_read s a n := (s, ([], Some EOF));
            rw_write s a bs := (s, (zlen bs, None)) |}.
  all: intros *; unfold slow; try (destruct (delays s)); intros; simplify_eq; try done; llia.
Defined.

Lemma slow_patience {A} (s s' : slow_system) (r : A) x : slow s r = (s', x) ->
  Z.of_nat (delays s') <= Z.of_nat (delays s) - blocked x.
Proof.
  unfold slow; destruct (delays s) as [| n] eqn:E; intros; simplify_eq; rewrite ?E; cbn [blocked delays]; [lia |].
  change (transient EAGAIN) with true; cbv iota; lia.
Qed.

#[export] Instance slow_Patient : Patient slow_system.
Proof.
  refine {| patience s := Z.of_nat (delays s) |}; intros; cbn in *;
    try (by eapply slow_patience); simplify_eq; cbn [blocked fmap default]; try (rewrite decide_False by (intros [? ?]; done)); try (cbn; lia).
Defined.

Lemma first_filtered {A} (P : A -> Prop) `{forall x, Decision (P x)} (l : list A) x : x ∈ l -> P x ->
  exists y, y ∈ take 1 (filter P l) /\ P y /\ y ∈ l.
Proof.
  intros Hx HP; assert (x ∈ filter P l) as Hin by (by apply list_elem_of_filter).
  destruct (filter P l) as [| y l'] eqn:E; [by apply not_elem_of_nil in Hin |].
  assert (y ∈ filter P l) as [Py Hy]%list_elem_of_filter by (rewrite E; by left); exists y; split_and!; [by left | done | done].
Qed.

Lemma eager_fair sh : fair (K := eager_epoll) (S := slow_system) sh false.
Proof.
  intros w Hw Hwl Hw0 Ho; pose proof (wo_poller _ _ _ _ _ (lo_world _ _ w Hw)) as Hok; unfold willing in Hwl.
  set (p := io_poller (ioc w)) in *; eexists _, _; split; [reflexivity |].
  assert (forall ev, ev ∈ eager_report (interest (kernel p)) -> ev ∈ ztake 128 (eager_report (interest (kernel p)))) as Hall.
  { intros ev Hev; rewrite take_ge; [done |]; unfold eager_report; rewrite length_app, !length_take; lia. }
  assert (forall i s, slots p !! i = Some s -> Events s <> 0 -> (Events s, i) ∈ snd <$> map_to_list (interest (kernel p))) as Hin.
  { intros i s Hs He; apply list_elem_of_fmap; exists (Fd s, (Events s, i)); split; [done |].
    apply elem_of_map_to_list; rewrite (ok_interest p Hok Hwl i s Hs); by rewrite decide_False. }
  apply List.Exists_exists; destruct Ho as [Hp | (i & s & et & Hi & Hs & Hf)].
  - destruct (ok_waker p Hok) as (wk & Hwk & He); rewrite Hw0 in Hwk.
    destruct (first_filtered (fun e => e.2 = 0%nat) _ _ (Hin 0%nat wk Hwk ltac:(by rewrite He)) eq_refl) as (ev & Hev & E & _).
    exists ev; split; [apply list_elem_of_In, Hall, elem_of_app; by right | unfold productive; by rewrite decide_True by congruence].
  - rewrite Hw0 in Hi; assert (Events s <> 0) as He by (intros He; rewrite He in Hf; by destruct et).
    destruct (first_filtered (fun e => e.2 <> 0%nat) _ _ (Hin i s Hs He) Hi) as ([x j] & Hev & Hj & Hm); cbn in Hj.
    exists (x, j); split; [apply list_elem_of_In, Hall, elem_of_app; by left |]; unfold productive; cbn [fst snd].
    rewrite decide_False by congruence; apply list_elem_of_fmap in Hm as ([fd [x' j']] & [= <- <-] & Hm%elem_of_map_to_list).
    destruct (ok_known p Hok fd x j Hm) as (s' & Hs' & <-); exists s'; pose proof (ok_interest p Hok Hwl j s' Hs') as Hint.
    rewrite Hm in Hint; case_decide as He'; [done |]; injection Hint as ->; pose proof (slot_mask p j s' Hok Hs') as Hv.
    destruct Hv as [E | [E | [E | E]]]; [done | exists ReadEvent | exists WriteEvent | exists ReadEvent]; by rewrite E.
Qed.

(** A read that is repeated from its callback, a handler that is posted, a timer and a
    connection that is awaited. *)
Definition a_little_of_everything : prog :=
  CallAsyncRead 0 0 false (fun _ _ => CallAsyncRead 0 0 false (fun _ _ => Return) Return)
    (CallPost Return (fun _ => CallScheduleOnce 0 5 Return (fun _ => CallAccept 0 (fun _ _ => Return) Return))).

