(* ===== verification/Sockets.v ===== *)
(** Creating, connecting and listening sockets: [src/internal/socket_unix.go],
    [src/socket.go], and the constructors [Dial] of [src/conn.go], [Listen] of
    [src/listen_conn.go] and [NewPacketConn] of [src/packet.go]. *)

From stdpp Require Import gmap strings.
From S2P Require Import Prelude NetAddr SocketOpts EventLoop Poller.

(** * System calls *)

(** What a name resolves to. *)
Record resolved : Type := mkResolved { r_ip : list byte; r_port : Z; r_zone : string }.

(** [socks]: the open sockets, and whether each is bound (see bind(2): a bound socket
    cannot be bound again).  The options of a socket are transferred as bytes.  [resolve] is
    [net.ResolveTCPAddr] and [net.ResolveUDPAddr], [clock] the monotonic clock. *)
Class Sockets (S : Type) `{!System S} := {
  sys_socket : S -> Z -> Z -> Z -> S * (Z + error);
  sys_bind : S -> Z -> Sockaddr -> S * option error;
  sys_listen : S -> Z -> Z -> S * option error;
  sys_connect : S -> Z -> Sockaddr -> S * option error;
  sys_select : S -> Z -> Z -> S * (Z + error);
  sys_setsockopt : S -> Z -> Z -> Z -> list byte -> S * option error;
  sys_getsockopt : S -> Z -> Z -> Z -> Z -> S * (list byte + error);
  clock : S -> S * Z;
  resolve : S -> string -> string -> S * (resolved + error);
  socks : S -> gmap Z bool;
  socket_new : forall s d t p s' fd, sys_socket s d t p = (s', inl fd) ->
    0 <= fd /\ socks s !! fd = None /\ socks s' = <[fd := false]> (socks s);
  socket_none : forall s d t p s' e, sys_socket s d t p = (s', inr e) -> socks s' = socks s;
  close_socks : forall s fd s' r, sys_close s fd = (s', r) -> socks s' = delete fd (socks s);
  bind_new : forall s fd sa s', sys_bind s fd sa = (s', None) ->
    socks s !! fd = Some false /\ socks s' = <[fd := true]> (socks s);
  bind_none : forall s fd sa s' e, sys_bind s fd sa = (s', Some e) -> socks s' = socks s;
  setnonblock_socks : forall s fd b s' r, sys_setnonblock s fd b = (s', r) -> socks s' = socks s;
  setsockopt_socks : forall s fd l o v s' r, sys_setsockopt s fd l o v = (s', r) -> socks s' = socks s;
  getsockopt_socks : forall s fd l o n s' r, sys_getsockopt s fd l o n = (s', r) -> socks s' = socks s;
  getsockname_socks : forall s fd s' r, sys_getsockname s fd = (s', r) -> socks s' = socks s;
  select_socks : forall s fd t s' r, sys_select s fd t = (s', r) -> socks s' = socks s;
  clock_socks : forall s s' t, clock s = (s', t) -> socks s' = socks s;
  resolve_socks : forall s n a s' r, resolve s n a = (s', r) -> socks s' = socks s;
  listen_socks : forall s fd n s' r, sys_listen s fd n = (s', r) -> dom (socks s') = dom (socks s);
  connect_socks : forall s fd sa s' r, sys_connect s fd sa = (s', r) -> dom (socks s') = dom (socks s)
}.

(** * Constants *)

Definition AF_UNSPEC : Z := 0.
Definition AF_UNIX : Z := 1.
Definition AF_INET : Z := 2.
Definition AF_INET6 : Z := 10.
Definition SOCK_STREAM : Z := 1.
Definition SOCK_DGRAM : Z := 2.
Definition SOCK_RAW : Z := 3.
Definition SOL_SOCKET : Z := 1.
Definition SO_REUSEADDR : Z := 2.
Definition SO_ERROR : Z := 4.
Definition SO_REUSEPORT : Z := 15.
Definition IPPROTO_TCP : Z := 6.
Definition TCP_NODELAY : Z := 1.
Definition EINPROGRESS : error := ErrOther 115.
Definition ECONNREFUSED : Z := 111.
Definition ListenBacklog : Z := 2048.

(** Errors made with [fmt.Errorf]. *)
Definition errUnknownNetwork : error := ErrOther (-10).
Definition errUnixNotSupported : error := ErrOther (-11).
Definition errNetworkNotSupported : error := ErrOther (-12).
Definition errUnsupportedOption : error := ErrOther (-13).

(** An [int32] as the kernel reads and writes it, little-endian. *)
Definition int_bytes (v : Z) : list byte := rev (be_encode 4 v).
Definition bytes_int (bs : list byte) : Z :=
  let v := be_decode (rev bs) in if decide (2 ^ 31 <= v) then v - 2 ^ 32 else v.

Definition b2i (v : bool) : Z := if v then 1 else 0.

(** [network[:3]]. *)
Definition prefix3 (network : string) : res string :=
  if decide (String.length network < 3)%nat then Panic else Ret (String.substring 0 3 network).

(** [ip.IsUnspecified()]. *)
Definition IsUnspecified (ip : list byte) : bool :=
  bool_decide (To4 ip = replicate 4 Byte.x00 \/ ip = replicate 16 Byte.x00).

Section sockets.
Context {S : Type} `{!System S} `{!Sockets S}.
Implicit Types (s : S).

Definition SetsockoptInt s (fd level opt v : Z) : S * option error := sys_setsockopt s fd level opt (int_bytes v).

Definition GetsockoptInt s (fd level opt : Z) : S * (Z + error) :=
  let '(s, r) := sys_getsockopt s fd level opt 4 in
  (s, match r with inl bs => inl (bytes_int bs) | inr e => inr e end).

(** * Options *)

(** One turn of the loop of [ApplyOpts]: [inl]: go on. *)
Definition applyOpt s (fd : Z) (opt : Option) : res (S * (unit + option error)) :=
  match opt_Type opt with
  | TypeNonblocking =>
      v ← as_bool opt;
      let '(s, err) := sys_setnonblock s fd v in
      Ret (s, match err with Some e => inr (Some e) | None => inl tt end)
  | TypeReusePort =>
      v ← as_bool opt;
      let '(s, err) := SetsockoptInt s fd SOL_SOCKET SO_REUSEPORT (b2i v) in
      Ret (s, match err with Some e => inr (Some e) | None => inl tt end)
  | TypeReuseAddr =>
      v ← as_bool opt;
      let '(s, err) := SetsockoptInt s fd SOL_SOCKET SO_REUSEADDR (b2i v) in
      Ret (s, match err with Some e => inr (Some e) | None => inl tt end)
  | TypeNoDelay =>
      v ← as_bool opt;
      let '(s, err) := SetsockoptInt s fd IPPROTO_TCP TCP_NODELAY (b2i v) in
      Ret (s, match err with Some e => inr (Some e) | None => inl tt end)
  | TypeBindSocket =>
      addr ← as_addr opt;
      sa ← ToSockaddr addr;
      let '(s, err) := sys_bind s fd sa in Ret (s, inr err)
  | TypeMulticast | MaxOption => Ret (s, inr (Some errUnsupportedOption))
  end.

Fixpoint ApplyOpts s (fd : Z) (opts : list Option) : res (S * option error) :=
  match opts with
  | [] => Ret (s, None)
  | opt :: opts =>
      '(s, r) ← applyOpt s fd opt;
      match r with inl _ => ApplyOpts s fd opts | inr err => Ret (s, err) end
  end.

Fixpoint maybeBindBeforeConnect s (fd : Z) (opts : list Option) : res (S * option error) :=
  match opts with
  | [] => Ret (s, None)
  | opt :: opts =>
      if decide (opt_Type opt = TypeBindSocket) then
        addr ← as_addr opt; sa ← ToSockaddr addr; Ret (sys_bind s fd sa)
      else maybeBindBeforeConnect s fd opts
  end.

(** * Creating *)

(** [fd] comes with the error of [SetNonblock] too. *)
Definition socket s (domain socketType proto : Z) (nonblock : bool) : S * (Z * option error) :=
  let '(s, r) := sys_socket s domain socketType proto in
  match r with
  | inr e => (s, (-1, Some e))
  | inl fd => let '(s, err) := sys_setnonblock s fd nonblock in (s, (fd, err))
  end.

Definition resolve_or_zero s (network addr : string) : S * (resolved + error) :=
  if decide (addr = EmptyString) then (s, inl (mkResolved [] 0 EmptyString)) else resolve s network addr.

Definition CreateSocketTCP s (network addr : string) (nonblocking : bool) :
    S * (Z * option netAddr * option error) :=
  let '(s, r) := resolve_or_zero s network addr in
  match r with
  | inr e => (s, (-1, None, Some e))
  | inl a =>
      let domain := if decide (r_zone a = EmptyString) then AF_INET else AF_INET6 in
      let domain := if IsUnspecified (r_ip a) then AF_UNSPEC else domain in
      let '(s, (fd, err)) := socket s domain SOCK_STREAM 0 nonblocking in
      (s, (fd, Some (TCPAddr (r_ip a) (r_port a)), err))
  end.

Definition CreateSocketUDP s (network addr : string) : S * (Z * option netAddr * option error) :=
  let '(s, r) := resolve_or_zero s network addr in
  match r with
  | inr e => (s, (-1, None, Some e))
  | inl a =>
      let domain := if decide (r_zone a = EmptyString) then AF_INET else AF_INET6 in
      let '(s, (fd, err)) := socket s domain SOCK_DGRAM 0 true in
      (s, (fd, Some (UDPAddr (r_ip a) (r_port a)), err))
  end.

(** * Connecting *)

(** The loop around connect(2): [inl]: the connection is in progress. *)
Fixpoint connect_loop (fuel : nat) s (fd : Z) (sa : Sockaddr) (startTime timeout : Z) :
    res (S * (unit + option error)) :=
  match fuel with
  | O => NoFuel
  | Datatypes.S fuel =>
      let '(s, now) := clock s in
      if decide (i64 (5 * timeout) < now - startTime) then Ret (s, inr (Some ErrTimeout))
      else
        let '(s, err) := sys_connect s fd sa in
        match err with
        | None => Ret (s, inr None)
        | Some e =>
            if decide (e = EINTR) then connect_loop fuel s fd sa startTime timeout
            else if decide (e <> EINPROGRESS /\ e <> EAGAIN) then Ret (s, inr (Some e))
            else Ret (s, inl tt)
        end
  end.

(** The loop around select(2): [inl]: the socket can be written. *)
Fixpoint select_loop (fuel : nat) s (fd startTime timeout : Z) : res (S * (unit + option error)) :=
  match fuel with
  | O => NoFuel
  | Datatypes.S fuel =>
      let '(s, now) := clock s in
      let remainingTime := i64 (5 * timeout) - (now - startTime) in
      if decide (remainingTime < 0) then Ret (s, inr (Some ErrTimeout))
      else
        let '(s, r) := sys_select s fd remainingTime in
        match r with
        | inl n => if decide (n = 0) then Ret (s, inr (Some ErrTimeout)) else Ret (s, inl tt)
        | inr e => if decide (e = EINTR) then select_loop fuel s fd startTime timeout else Ret (s, inr (Some e))
        end
  end.

(** The error that is pending on the socket. *)
Definition socketError s (fd : Z) : S * option error :=
  let '(s, r) := GetsockoptInt s fd SOL_SOCKET SO_ERROR in
  match r with
  | inr e => (s, Some e)
  | inl socketErr =>
      if decide (socketErr = 0) then (s, None)
      else if decide (socketErr = ECONNREFUSED) then (s, Some ErrConnRefused)
      else (s, Some (ErrOther socketErr))
  end.

Definition connect (fuel : nat) s (fd : Z) (remoteAddr : netAddr) (timeout : Z) (opts : list Option) :
    res (S * option error) :=
  '(s, err) ← ApplyOpts s fd opts;
  match err with
  | Some e => Ret (s, Some e)
  | None =>
      '(s, err) ← maybeBindBeforeConnect s fd opts;
      match err with
      | Some e => Ret (s, Some e)
      | None =>
          let '(s, startTime) := clock s in
          sa ← ToSockaddr remoteAddr;
          '(s, r) ← connect_loop fuel s fd sa startTime timeout;
          match r with
          | inr err => Ret (s, err)
          | inl _ =>
              let '(s, startTime) := clock s in
              '(s, r) ← select_loop fuel s fd startTime timeout;
              match r with
              | inr err => Ret (s, err)
              | inl _ => Ret (socketError s fd)
              end
          end
      end
  end.

Definition SocketAddress s (fd : Z) : S * (option netAddr * option error) :=
  let '(s, r) := sys_getsockname s fd in
  match r with inr e => (s, (None, Some e)) | inl sa => (s, (FromSockaddr (Some sa), None)) end.

(** What the connecting functions return: the descriptor, the local and the remote address,
    the error. *)
Definition conn_result : Type := Z * option netAddr * option netAddr * option error.

(** What [ConnectTCP] and [ConnectUDP] do with the socket they created. *)
Definition finish_connect (fuel : nat) s (created : Z * option netAddr * option error) (timeout : Z)
    (opts : list Option) : res (S * conn_result) :=
  match created with
  | (fd, Some remoteAddr, None) =>
      '(s, err) ← connect fuel s fd remoteAddr timeout opts;
      match err with
      | Some e => Ret (s, (-1, None, None, Some e))
      | None =>
          let '(s, (localAddr, err)) := SocketAddress s fd in
          Ret (s, (fd, localAddr, Some remoteAddr, err))
      end
  | (_, _, err) => Ret (s, (-1, None, None, err))
  end.

Definition ConnectTCP (fuel : nat) s (network addr : string) (timeout : Z) (opts : list Option) :
    res (S * conn_result) :=
  let '(s, created) := CreateSocketTCP s network addr true in finish_connect fuel s created timeout opts.

Definition ConnectUDP (fuel : nat) s (network addr : string) (timeout : Z) (opts : list Option) :
    res (S * conn_result) :=
  let '(s, created) := CreateSocketUDP s network addr in finish_connect fuel s created timeout opts.

Definition ConnectTimeout (fuel : nat) s (network addr : string) (timeout : Z) (opts : list Option) :
    res (S * conn_result) :=
  p ← prefix3 network;
  if decide (p = "tcp"%string) then ConnectTCP fuel s network addr timeout opts
  else if decide (p = "udp"%string) then ConnectUDP fuel s network addr timeout opts
  else if decide (p = "uni"%string) then Ret (s, (-1, None, None, Some errUnixNotSupported))
  else Ret (s, (-1, None, None, Some errUnknownNetwork)).

(** Ten seconds, in nanoseconds. *)
Definition Connect (fuel : nat) s (network addr : string) (opts : list Option) : res (S * conn_result) :=
  ConnectTimeout fuel s network addr 10000000000 opts.

(** * Listening *)

Definition Listen s (network addr : string) (opts : list Option) : res (S * (Z * option netAddr * option error)) :=
  p ← prefix3 network;
  if decide (p <> "tcp"%string /\ p <> "uni"%string) then Ret (s, (-1, None, Some errNetworkNotSupported))
  else
    let '(s, created) := CreateSocketTCP s network addr false in
    match created with
    | (fd, Some localAddr, None) =>
        '(s, err) ← ApplyOpts s fd opts;
        match err with
        | Some e => let '(s, _) := sys_close s fd in Ret (s, (-1, None, Some e))
        | None =>
            sa ← ToSockaddr localAddr;
            let '(s, err) := sys_bind s fd sa in
            match err with
            | Some e => let '(s, _) := sys_close s fd in Ret (s, (-1, None, Some e))
            | None =>
                let '(s, err) := sys_listen s fd ListenBacklog in
                match err with
                | Some e => let '(s, _) := sys_close s fd in Ret (s, (-1, None, Some e))
                | None => Ret (s, (fd, Some localAddr, None))
                end
            end
        end
    | (_, _, err) => Ret (s, (-1, None, err))
    end.

Definition ListenUDP s (network addr : string) (opts : list Option) :
    res (S * (Z * option netAddr * option error)) :=
  p ← prefix3 network;
  if decide (p <> "udp"%string) then Ret (s, (-1, None, Some errNetworkNotSupported))
  else
    let '(s, created) := CreateSocketUDP s network addr in
    match created with
    | (fd, Some localAddr, None) =>
        '(s, err) ← ApplyOpts s fd opts;
        match err with
        | Some e => let '(s, _) := sys_close s fd in Ret (s, (-1, None, Some e))
        | None =>
            sa ← ToSockaddr localAddr;
            let '(s, err) := sys_bind s fd sa in
            match err with
            | Some e => let '(s, _) := sys_close s fd in Ret (s, (-1, None, Some e))
            | None => Ret (s, (fd, Some localAddr, None))
            end
        end
    | (_, _, err) => Ret (s, (-1, None, err))
    end.

(** * The constructors *)

(** [Dial] and [DialTimeout]: the descriptor and the addresses of the [conn]. *)
Definition DialTimeout (fuel : nat) s (network addr : string) (timeout : Z) (opts : list Option) :
    res (S * (Z * option netAddr * option netAddr + error)) :=
  '(s, (fd, localAddr, remoteAddr, err)) ← ConnectTimeout fuel s network addr timeout opts;
  match err with
  | Some e => Ret (s, inr e)
  | None => Ret (s, inl (fd, localAddr, remoteAddr))
  end.

Definition Dial (fuel : nat) s (network addr : string) (opts : list Option) :
    res (S * (Z * option netAddr * option netAddr + error)) :=
  DialTimeout fuel s network addr 10000000000 opts.

(** [NewPacketConn], which ignores its options. *)
Definition NewPacketConn s (network addr : string) (opts : list Option) :
    res (S * (Z * netAddr + error)) :=
  p ← prefix3 network;
  if decide (p <> "udp"%string) then Ret (s, inr errNetworkNotSupported)
  else
    let '(s, created) := CreateSocketUDP s network addr in
    match created with
    | (fd, Some localAddr, None) =>
        sa ← ToSockaddr localAddr;
        let '(s, err) := sys_bind s fd sa in
        match err with
        | Some e => Ret (s, inr e)
        | None => Ret (s, inl (fd, localAddr))
        end
    | (_, _, Some e) => Ret (s, inr e)
    | (_, None, None) => Panic
    end.

(** [ListenPacket] of [src/listen_packet.go]. *)
Definition ListenPacket s (network addr : string) (opts : list Option) : res (S * (Z * netAddr + error)) :=
  NewPacketConn s network addr opts.
End sockets.
