(* ===== verification/SocketsSpec.v ===== *)
(** The theorems on [Sockets.v]: which sockets are open after a call, and that connecting
    ends. *)

From stdpp Require Import gmap strings.
From S2P Require Import Prelude NetAddr SocketOpts EventLoop Poller Sockets.

(** An option whose value has the type [ApplyOpts] expects; unix addresses panic. *)
Definition opt_ok (o : Option) : Prop :=
  match opt_Type o, opt_Value o with
  | TypeBindSocket, VAddr a => exists sa, ToSockaddr a = Ret sa
  | (TypeNonblocking | TypeReusePort | TypeReuseAddr | TypeNoDelay), VBool _ => True
  | (TypeMulticast | MaxOption), _ => True
  | _, _ => False
  end.

Section laws.
Context {S : Type} `{!System S} `{!Sockets S}.
Implicit Types (s : S).

Definition opens s : gset Z := dom (socks s).

(** * Options *)

Lemma bind_opens s fd sa s' r : sys_bind s fd sa = (s', r) -> opens s' = opens s.
Proof.
  unfold opens; destruct r as [e |]; [by intros ->%bind_none |]; intros [Hb ->]%bind_new.
  rewrite dom_insert_L; apply subseteq_union_1_L, singleton_subseteq_l; by apply elem_of_dom_2 in Hb.
Qed.

Lemma applyOpt_ok s fd o : opt_ok o -> exists s' r, applyOpt s fd o = Ret (s', r) /\ opens s' = opens s /\
  (opt_Type o = TypeBindSocket -> r = inr None -> socks s' !! fd = Some true) /\
  (opt_Type o = TypeBindSocket \/ r <> inr None) /\ (opt_Type o = TypeBindSocket -> r <> inl tt) /\
  (opt_Type o <> TypeBindSocket -> socks s' = socks s).
Proof.
  unfold opt_ok, applyOpt, as_bool, as_addr, SetsockoptInt, opens; intros Ho.
  destruct (opt_Type o), (opt_Value o) as [v | a]; try done; res_step.
  all: try (destruct (sys_setnonblock s fd v) as [s' [e |]] eqn:E; apply setnonblock_socks in E; rewrite <-E;
    by eexists _, _; split_and!; [done | | | right | |]).
  all: try (destruct (sys_setsockopt s fd _ _ _) as [s' [e |]] eqn:E; apply setsockopt_socks in E; rewrite <-E;
    by eexists _, _; split_and!; [done | | | right | |]).
  all: try (by eexists _, _; split_and!; [done | | | right | |]).
  destruct Ho as [sa ->]; res_step; destruct (sys_bind s fd sa) as [s' err] eqn:E; eexists _, _; split; [done |].
  split_and!; [by eapply bind_opens | | by left | done | done]; intros _ [= ->].
  apply bind_new in E as [_ ->]; apply lookup_insert_eq.
Qed.

(** Options are applied without opening or closing anything; if they include an address to
    bind to and there is no error, the socket is bound. *)
Lemma ApplyOpts_ok fd opts : forall s, Forall opt_ok opts -> exists s' err, ApplyOpts s fd opts = Ret (s', err) /\
  opens s' = opens s /\ (TypeBindSocket ∈ opt_Type <$> opts -> err = None -> socks s' !! fd = Some true) /\
  (TypeBindSocket ∉ opt_Type <$> opts -> socks s' = socks s).
Proof.
  induction opts as [| o opts IH]; intros s Hok; cbn [ApplyOpts].
  { exists s, None; split_and!; [done | done | by intros ?%elem_of_nil | done]. }
  apply list.Forall_cons in Hok as [Ho Hok].
  destruct (applyOpt_ok s fd o Ho) as (s1 & r & -> & E1 & Hb & Hr & Hl & Hs); res_step; rewrite fmap_cons.
  destruct r as [[] | err].
  - destruct (IH s1 Hok) as (s2 & err & -> & E2 & Hb2 & Hs2); exists s2, err; split_and!; [done | congruence | |].
    + intros [Heq | Hin]%elem_of_cons; [by destruct (Hl (eq_sym Heq)) | auto].
    + intros [Hn Hin]%not_elem_of_cons; rewrite Hs2, Hs by congruence; done.
  - exists s1, err; split_and!; [done | done | |].
    + intros _ ->; apply Hb; [by destruct Hr | done].
    + intros [Hn _]%not_elem_of_cons; apply Hs; congruence.
Qed.

Lemma maybeBind_ok fd opts : forall s, Forall opt_ok opts -> exists s' err,
  maybeBindBeforeConnect s fd opts = Ret (s', err) /\ opens s' = opens s /\
  (TypeBindSocket ∈ opt_Type <$> opts -> socks s !! fd = Some true -> err <> None).
Proof.
  induction opts as [| o opts IH]; intros s Hok; cbn [maybeBindBeforeConnect].
  { exists s, None; split_and!; [done | done | by intros ?%elem_of_nil]. }
  apply list.Forall_cons in Hok as [Ho Hok]; rewrite fmap_cons; case_decide as Et.
  - unfold opt_ok, as_addr in *; rewrite Et in Ho; destruct (opt_Value o) as [v | a]; [done |].
    destruct Ho as [sa Hsa]; res_step; rewrite Hsa; res_step; destruct (sys_bind s fd sa) as [s' err] eqn:E.
    exists s', err; split_and!; [done | by eapply bind_opens |]; intros _ Hb ->.
    apply bind_new in E as [E _]; congruence.
  - destruct (IH s Hok) as (s' & err & -> & E & Hb); exists s', err; split_and!; [done | done |].
    intros [? | ?]%elem_of_cons; [congruence | auto].
Qed.

(** [ApplyOpts] returns at the first [BindSocket] it meets: the options after it are
    never applied, whatever they are. *)
Theorem options_after_bind_ignored s fd (before after : list Option) (addr : netAddr) :
  ApplyOpts s fd (before ++ BindSocket addr :: after) = ApplyOpts s fd (before ++ [BindSocket addr]).
Proof.
  revert s; induction before as [| o before IH]; intros s; cbn [app ApplyOpts].
  - unfold applyOpt, as_addr; cbn; destruct (ToSockaddr addr); try done; res_step.
    by destruct (sys_bind s fd _) as [s' err].
  - destruct (applyOpt s fd o) as [[s1 [[] | err]] | |]; res_step; done.
Qed.

(** * Creating *)

Definition created s (fd : Z) s' : Prop :=
  0 <= fd /\ socks s !! fd = None /\ socks s' = <[fd := false]> (socks s).

(** What is left of an attempt to create a socket that failed with [e]: nothing, or, if
    [SetNonblock] was what failed, a socket [fd] that is open. *)
Definition not_created s (e : error) s' : Prop :=
  socks s' = socks s \/ exists fd s1 b, created s fd s1 /\ sys_setnonblock s1 fd b = (s', Some e).

Lemma socket_ok s d t p b : exists s' fd err, socket s d t p b = (s', (fd, err)) /\
  match err with None => created s fd s' | Some e => not_created s e s' end.
Proof.
  unfold socket; destruct (sys_socket s d t p) as [s1 [fd | e]] eqn:E1.
  - apply socket_new in E1; destruct (sys_setnonblock s1 fd b) as [s2 err] eqn:E2; exists s2, fd, err; split; [done |].
    destruct err as [e |]; [right; by exists fd, s1, b |]; apply setnonblock_socks in E2; unfold created; by rewrite E2.
  - apply socket_none in E1; exists s1, (-1), (Some e); split; [done | by left].
Qed.

Lemma resolve_ok s network addr : exists s' r, resolve_or_zero s network addr = (s', r) /\ socks s' = socks s.
Proof.
  unfold resolve_or_zero; case_decide; [by eexists _, _ |].
  destruct (resolve s network addr) as [s' r] eqn:E; apply resolve_socks in E; by exists s', r.
Qed.

Lemma CreateSocketTCP_ok s network addr b : exists s' fd la err, CreateSocketTCP s network addr b = (s', (fd, la, err)) /\
  match err with
  | None => created s fd s' /\ exists ip port, la = Some (TCPAddr ip port)
  | Some e => not_created s e s'
  end.
Proof.
  unfold CreateSocketTCP; destruct (resolve_ok s network addr) as (s1 & [a | e] & -> & E1);
    [| eexists _, _, _, _; split; [done | by left]].
  destruct (socket_ok s1 (if IsUnspecified (r_ip a) then AF_UNSPEC else
    if decide (r_zone a = EmptyString) then AF_INET else AF_INET6) SOCK_STREAM 0 b) as (s2 & fd & err & -> & Hs).
  exists s2, fd, (Some (TCPAddr (r_ip a) (r_port a))), err; split; [done |]; unfold not_created, created in *; rewrite <-E1.
  destruct err; [done |]; split; [done | by eexists _, _].
Qed.

Lemma CreateSocketUDP_ok s network addr : exists s' fd la err, CreateSocketUDP s network addr = (s', (fd, la, err)) /\
  match err with
  | None => created s fd s' /\ exists ip port, la = Some (UDPAddr ip port)
  | Some e => not_created s e s'
  end.
Proof.
  unfold CreateSocketUDP; destruct (resolve_ok s network addr) as (s1 & [a | e] & -> & E1);
    [| eexists _, _, _, _; split; [done | by left]].
  destruct (socket_ok s1 (if decide (r_zone a = EmptyString) then AF_INET else AF_INET6) SOCK_DGRAM 0 true) as
    (s2 & fd & err & -> & Hs).
  exists s2, fd, (Some (UDPAddr (r_ip a) (r_port a))), err; split; [done |]; unfold not_created, created in *; rewrite <-E1.
  destruct err; [done |]; split; [done | by eexists _, _].
Qed.

(** * Listening *)

(** What is open after a call that returned [fd] and [err]: one more on success, the same on
    a failure, except that a socket on which [SetNonblock] failed is not closed. *)
Definition accounted s (r : S * (Z * option netAddr * option error)) : Prop :=
  let '(s', (fd, la, err)) := r in
  match err with
  | None => 0 <= fd /\ (fd ∉ opens s) /\ opens s' = ({[fd]} ∪ opens s) /\ is_Some la
  | Some e => fd = -1 /\ (opens s' = opens s \/
      exists fd' s1 b, created s fd' s1 /\ sys_setnonblock s1 fd' b = (s', Some e) /\ opens s' = ({[fd']} ∪ opens s))
  end.

Lemma not_created_accounted s e s' : not_created s e s' -> accounted s (s', (-1, None, Some e)).
Proof.
  intros [E | (fd & s1 & b & Hc & E)]; split; try done; unfold opens; [left; by rewrite E | right].
  exists fd, s1, b; split_and!; [done | done |]; apply setnonblock_socks in E; destruct Hc as (_ & _ & Hc).
  by rewrite E, Hc, dom_insert_L.
Qed.

Lemma closed_again s s1 s2 fd s3 r : created s fd s1 -> opens s2 = opens s1 -> sys_close s2 fd = (s3, r) ->
  opens s3 = opens s.
Proof.
  unfold opens; intros (_ & Hn & E1) E2 ->%close_socks; rewrite dom_delete_L, E2, E1, dom_insert_L.
  apply not_elem_of_dom in Hn.
  by rewrite difference_union_distr_l_L, difference_diag_L, union_empty_l_L, difference_disjoint_L by (by apply disjoint_singleton_r).
Qed.

Lemma kept_open s s1 s2 fd a : created s fd s1 -> opens s2 = opens s1 -> accounted s (s2, (fd, Some a, None)).
Proof.
  unfold opens; intros (Hp & Hn & E1) E2; cbn; unfold opens; rewrite E2, E1, dom_insert_L.
  split_and!; [done | by apply not_elem_of_dom | done | done].
Qed.

Lemma Listen_accounted s network addr opts : (3 <= String.length network)%nat ->
  Forall opt_ok opts -> exists r, Listen s network addr opts = Ret r /\ accounted s r.
Proof.
  intros Hn Ho; unfold Listen, prefix3; rewrite decide_False by lia; res_step; case_decide; [eexists; split; [done |]; split; [done | by left] |].
  destruct (CreateSocketTCP_ok s network addr false) as (s1 & fd & la & err & -> & Hc).
  destruct err as [e |]; [destruct la; (eexists; split; [done | by apply not_created_accounted]) |].
  destruct Hc as (Hc & ip & port & ->).
  destruct (ApplyOpts_ok fd opts s1 Ho) as (s2 & err & -> & E2 & _); res_step; destruct err as [e |].
  { destruct (sys_close s2 fd) as [s3 r] eqn:E3; eexists; split; [done |]; split; [done | left; by eapply closed_again]. }
  cbn [ToSockaddr]; res_step; destruct (sys_bind s2 fd _) as [s3 err] eqn:E3; apply bind_opens in E3.
  destruct err as [e |].
  { destruct (sys_close s3 fd) as [s4 r] eqn:E4; eexists; split; [done |]; split; [done |]; left.
    eapply closed_again; [done | | done]; congruence. }
  destruct (sys_listen s3 fd _) as [s4 err] eqn:E4; apply listen_socks in E4; destruct err as [e |].
  - destruct (sys_close s4 fd) as [s5 r] eqn:E5; eexists; split; [done |]; split; [done |]; left.
    eapply closed_again; [done | | done]; unfold opens in *; congruence.
  - eexists; split; [done |]; eapply kept_open; [done |]; unfold opens in *; congruence.
Qed.

Lemma ListenUDP_accounted s network addr opts : (3 <= String.length network)%nat ->
  Forall opt_ok opts -> exists r, ListenUDP s network addr opts = Ret r /\ accounted s r.
Proof.
  intros Hn Ho; unfold ListenUDP, prefix3; rewrite decide_False by lia; res_step; case_decide; [eexists; split; [done |]; split; [done | by left] |].
  destruct (CreateSocketUDP_ok s network addr) as (s1 & fd & la & err & -> & Hc).
  destruct err as [e |]; [destruct la; (eexists; split; [done | by apply not_created_accounted]) |].
  destruct Hc as (Hc & ip & port & ->).
  destruct (ApplyOpts_ok fd opts s1 Ho) as (s2 & err & -> & E2 & _); res_step; destruct err as [e |].
  { destruct (sys_close s2 fd) as [s3 r] eqn:E3; eexists; split; [done |]; split; [done | left; by eapply closed_again]. }
  cbn [ToSockaddr]; res_step; destruct (sys_bind s2 fd _) as [s3 err] eqn:E3; apply bind_opens in E3.
  destruct err as [e |].
  - destruct (sys_close s3 fd) as [s4 r] eqn:E4; eexists; split; [done |]; split; [done |]; left.
    eapply closed_again; [done | | done]; congruence.
  - eexists; split; [done |]; eapply kept_open; [done |]; congruence.
Qed.

(** C27: [Listen] and [ListenUDP] account for their sockets, whatever the system answers to
    any of their calls.  With a network name of at least three characters (a shorter one
    panics) and options whose values have the type of the option, both return.  On success
    exactly one more socket is open, the one that is returned.  On a failure exactly the
    sockets are open that were open before, with one exception: when [SetNonblock] fails on
    the socket just created, its error is returned and that socket stays open, because
    [socket] returns the descriptor with the error and the callers drop it. *)
Theorem listen_accounts s network addr opts : Forall opt_ok opts ->
  if decide (String.length network < 3)%nat
  then Listen s network addr opts = Panic /\ ListenUDP s network addr opts = Panic
  else (exists r, Listen s network addr opts = Ret r /\ accounted s r) /\
       (exists r, ListenUDP s network addr opts = Ret r /\ accounted s r).
Proof.
  intros Ho; case_decide; [unfold Listen, ListenUDP, prefix3; by rewrite decide_True by done |].
  split; [apply Listen_accounted | apply ListenUDP_accounted]; done || lia.
Qed.

(** An address that resolves to an unspecified IP (0.0.0.0 or ::) makes [Listen] ask for
    a socket of the family [AF_UNSPEC]; the system has none, so it cannot listen there. *)
Theorem listen_unspecified s s1 network addr opts a s2 e : addr <> EmptyString ->
  String.substring 0 3 network = "tcp"%string -> resolve s network addr = (s1, inl a) ->
  IsUnspecified (r_ip a) = true -> sys_socket s1 AF_UNSPEC SOCK_STREAM 0 = (s2, inr e) ->
  Listen s network addr opts = Ret (s2, (-1, None, Some e)).
Proof.
  intros Ha Hn Hr Hu Hs; unfold Listen, prefix3.
  assert (3 <= String.length network)%nat as Hl.
  { destruct network as [| ? [| ? [| ? ?]]]; cbn in *; try done; lia. }
  rewrite decide_False by lia; res_step; rewrite Hn, decide_False by tauto.
  unfold CreateSocketTCP, resolve_or_zero; rewrite decide_False, Hr, Hu by done; unfold socket; by rewrite Hs.
Qed.

(** * Connecting *)

Lemma connect_loop_opens fuel : forall s fd sa t timeout s' r,
  connect_loop fuel s fd sa t timeout = Ret (s', r) -> opens s' = opens s.
Proof.
  induction fuel as [| fuel IH]; intros s fd sa t timeout s' r; cbn [connect_loop]; [done |].
  destruct (clock s) as [s1 now] eqn:E1; apply clock_socks in E1; case_decide; [intros [= <- <-]; unfold opens; congruence |].
  destruct (sys_connect s1 fd sa) as [s2 [e |]] eqn:E2; apply connect_socks in E2; unfold opens in *;
    [| intros [= <- <-]; congruence].
  repeat case_decide; try (intros [= <- <-]; congruence); intros ->%IH; congruence.
Qed.

Lemma select_loop_opens fuel : forall s fd t timeout s' r,
  select_loop fuel s fd t timeout = Ret (s', r) -> opens s' = opens s.
Proof.
  induction fuel as [| fuel IH]; intros s fd t timeout s' r; cbn [select_loop]; [done |].
  destruct (clock s) as [s1 now] eqn:E1; apply clock_socks in E1; case_decide; [intros [= <- <-]; unfold opens; congruence |].
  destruct (sys_select s1 fd _) as [s2 [n | e]] eqn:E2; apply select_socks in E2; unfold opens in *;
    case_decide; try (intros [= <- <-]; congruence); intros ->%IH; congruence.
Qed.

Lemma socketError_opens s fd s' err : socketError s fd = (s', err) -> opens s' = opens s.
Proof.
  unfold socketError, GetsockoptInt; destruct (sys_getsockopt s fd _ _ _) as [s1 [bs | e]] eqn:E;
    apply getsockopt_socks in E; repeat case_decide; intros [= <- <-]; unfold opens; congruence.
Qed.

Lemma connect_opens fuel s fd ra timeout opts s' err : Forall opt_ok opts ->
  connect fuel s fd ra timeout opts = Ret (s', err) -> opens s' = opens s.
Proof.
  intros Ho; unfold connect; destruct (ApplyOpts_ok fd opts s Ho) as (s1 & err1 & -> & E1 & _); res_step.
  destruct err1 as [e |]; [by intros [= <- <-] |].
  destruct (maybeBind_ok fd opts s1 Ho) as (s2 & err2 & -> & E2 & _); res_step.
  destruct err2 as [e |]; [intros [= <- <-]; congruence |].
  destruct (clock s2) as [s3 t] eqn:E3; apply clock_socks in E3.
  intros (sa & _ & ([s4 r] & E4%connect_loop_opens & E)%res_bind_inv)%res_bind_inv; unfold opens in *.
  destruct r as [[] | err4]; [| injection E as <- <-; congruence].
  destruct (clock s4) as [s5 t'] eqn:E5; apply clock_socks in E5.
  apply res_bind_inv in E as ([s6 r] & E6%select_loop_opens & E); unfold opens in *.
  destruct r as [[] | err6]; [| injection E as <- <-; congruence].
  injection E as E; apply socketError_opens in E; unfold opens in *; congruence.
Qed.

(** When the connection cannot be made, [ConnectTCP] reports the error and no
    descriptor, but the socket it created stays open: nobody can close it any more. *)
Theorem failed_dial_leaks fuel s s1 s2 fd ra network addr timeout opts e : Forall opt_ok opts ->
  CreateSocketTCP s network addr true = (s1, (fd, Some ra, None)) ->
  connect fuel s1 fd ra timeout opts = Ret (s2, Some e) ->
  ConnectTCP fuel s network addr timeout opts = Ret (s2, (-1, None, None, Some e)) /\
  (fd ∉ opens s) /\ opens s2 = ({[fd]} ∪ opens s).
Proof.
  intros Ho Hc Hf; unfold ConnectTCP; rewrite Hc; cbn [finish_connect]; rewrite Hf; res_step.
  destruct (CreateSocketTCP_ok s network addr true) as (s1' & fd' & la & err & E & Hs).
  rewrite Hc in E; injection E as <- <- <- <-; destruct Hs as [(_ & Hn & Hs) _]; split_and!; [done | |].
  - by apply not_elem_of_dom.
  - by rewrite (connect_opens _ _ _ _ _ _ _ _ Ho Hf); unfold opens; rewrite Hs, dom_insert_L.
Qed.

(** A connection that is to be bound to a local address first is never made: the
    options bind the socket, and then it is bound a second time, which fails. *)
Theorem bound_dial_fails fuel s fd ra timeout opts : Forall opt_ok opts -> TypeBindSocket ∈ opt_Type <$> opts ->
  exists s' e, connect fuel s fd ra timeout opts = Ret (s', Some e).
Proof.
  intros Ho Hb; unfold connect; destruct (ApplyOpts_ok fd opts s Ho) as (s1 & err1 & -> & _ & Hb1 & _); res_step.
  destruct err1 as [e |]; [by exists s1, e |].
  destruct (maybeBind_ok fd opts s1 Ho) as (s2 & err2 & -> & _ & Hb2); res_step.
  destruct err2 as [e |]; [by exists s2, e |]; by destruct (Hb2 Hb (Hb1 Hb eq_refl)).
Qed.

(** * Connecting ends *)

Section time.
Context (time : S -> Z).
Context (clock_time : forall s s' t, clock s = (s', t) -> time s < t /\ time s' = t).
Context (connect_time : forall s fd sa s' r, sys_connect s fd sa = (s', r) -> time s <= time s').
Context (select_time : forall s fd t s' r, sys_select s fd t = (s', r) -> time s <= time s').

Lemma connect_loop_ends fuel : forall s fd sa start timeout, i64 (5 * timeout) - (time s - start) < Z.of_nat fuel ->
  (0 < fuel)%nat -> exists s' r, connect_loop fuel s fd sa start timeout = Ret (s', r).
Proof.
  induction fuel as [| fuel IH]; intros s fd sa start timeout Hf Hp; [lia |]; cbn [connect_loop].
  destruct (clock s) as [s1 now] eqn:E1; apply clock_time in E1; case_decide; [by eexists _, _ |].
  destruct (sys_connect s1 fd sa) as [s2 [e |]] eqn:E2; [| by eexists _, _]; apply connect_time in E2.
  case_decide; [apply IH; lia |]; case_decide; by eexists _, _.
Qed.

Lemma select_loop_ends fuel : forall s fd start timeout, i64 (5 * timeout) - (time s - start) < Z.of_nat fuel ->
  (0 < fuel)%nat -> exists s' r, select_loop fuel s fd start timeout = Ret (s', r).
Proof.
  induction fuel as [| fuel IH]; intros s fd start timeout Hf Hp; [lia |]; cbn [select_loop].
  destruct (clock s) as [s1 now] eqn:E1; apply clock_time in E1; case_decide; [by eexists _, _ |].
  destruct (sys_select s1 fd _) as [s2 [n | e]] eqn:E2; apply select_time in E2; case_decide; try (by eexists _, _).
  apply IH; lia.
Qed.

(** C29: Connecting ends: if the clock moves between two readings, neither loop of [connect]
    turns more often than the nanoseconds it may wait, however often the system calls are
    interrupted. *)
Theorem connect_ends fuel s fd ra timeout opts : Forall opt_ok opts -> (exists sa, ToSockaddr ra = Ret sa) ->
  Z.max 0 (i64 (5 * timeout)) < Z.of_nat fuel ->
  exists s' err, connect fuel s fd ra timeout opts = Ret (s', err).
Proof.
  intros Ho [sa Hsa] Hf; unfold connect; destruct (ApplyOpts_ok fd opts s Ho) as (s1 & err1 & -> & _); res_step.
  destruct err1 as [e |]; [by eexists _, _ |].
  destruct (maybeBind_ok fd opts s1 Ho) as (s2 & err2 & -> & _); res_step; destruct err2 as [e |]; [by eexists _, _ |].
  destruct (clock s2) as [s3 t3] eqn:E3; apply clock_time in E3; rewrite Hsa; res_step.
  destruct (connect_loop_ends fuel s3 fd sa t3 timeout) as (s4 & r & ->); [lia | lia |]; res_step.
  destruct r; [| by eexists _, _]; destruct (clock s4) as [s5 t5] eqn:E5; apply clock_time in E5.
  destruct (select_loop_ends fuel s5 fd t5 timeout) as (s6 & r & ->); [lia | lia |]; res_step.
  destruct r; [| by eexists _, _]; destruct (socketError s6 fd); by eexists _, _.
Qed.
End time.
End laws.

(** * A simulated system *)

(** Sockets, options and a clock; connect(2) answers from a script. *)
Record net_sim : Type := mkSim {
  sim_socks : gmap Z bool;
  sim_next : Z;
  sim_clock : Z;
  sim_opts : gmap (Z * Z * Z) (list byte);
  sim_connects : list (option error)
}.

#[export] Instance sim_System : System net_sim.
Proof.
  refine {| sys_read s fd n := (s, inr EAGAIN); sys_write s fd bs := (s, inr EAGAIN);
            sys_close s fd := (mkSim (delete fd (sim_socks s)) (sim_next s) (sim_clock s) (sim_opts s) (sim_connects s), None);
            sys_recvfrom s fd n := (s, inr EAGAIN); sys_sendto s fd bs to := (s, None);
            sys_accept s fd := (s, inr EAGAIN);
            sys_getsockname s fd := (s, inl (SockaddrInet4 (replicate 4 Byte.x00) 9000));
            sys_setnonblock s fd b :=
              (s, match sim_socks s !! fd with Some _ => None | None => Some EBADF end);
            timerfd_settime s fd t := (s, None); rw_read s a n := (s, ([], Some EAGAIN));
            rw_write s a bs := (s, (0, Some EAGAIN)) |}; try done.
  - intros s a n s' bs err Hn E; by simplify_eq.
  - intros s a bs s' n err E; simplify_eq; llia.
Defined.

Definition sim_bind (s : net_sim) (fd : Z) : net_sim * option error :=
  match sim_socks s !! fd with
  | Some false =>
      (mkSim (<[fd := true]> (sim_socks s)) (sim_next s) (sim_clock s) (sim_opts s) (sim_connects s), None)
  | Some true => (s, Some (ErrOther 22))
  | None => (s, Some EBADF)
  end.

Definition sim_socket (s : net_sim) (domain : Z) : net_sim * (Z + error) :=
  let fd := Z.abs (sim_next s) in
  if decide (domain = AF_UNSPEC) then (s, inr (ErrOther 97))
  else
    match sim_socks s !! fd with
    | None =>
        (mkSim (<[fd := false]> (sim_socks s)) (fd + 1) (sim_clock s) (sim_opts s) (sim_connects s), inl fd)
    | Some _ => (s, inr (ErrOther 24))
    end.

Definition sim_connect (s : net_sim) : net_sim * option error :=
  match sim_connects s with
  | [] => (s, None)
  | r :: rest => (mkSim (sim_socks s) (sim_next s) (sim_clock s) (sim_opts s) rest, r)
  end.

(** Multicast datagrams have TTL 1 and are looped back by default; other options are 0. *)
Definition sim_default (opt : Z) : list byte := int_bytes (if decide (opt = 33 \/ opt = 34) then 1 else 0).

(** The name "any" stands for 0.0.0.0, all others for 10.0.0.1. *)
Definition sim_resolve (addr : string) : resolved :=
  mkResolved (if decide (addr = "any"%string) then replicate 4 Byte.x00 else [Byte.x0a; Byte.x00; Byte.x00; Byte.x01])
    9000 EmptyString.

(** SO_BINDTODEVICE (25) has no value before it is set, and wants room for a whole name. *)
Definition sim_getsockopt (s : net_sim) (fd l o n : Z) : list byte + error :=
  if decide (l = SOL_SOCKET /\ o = 25) then
    match sim_opts s !! (fd, l, o) with
    | Some (b :: v) => if decide (n < 16) then inr (ErrOther 22) else inl ((b :: v) ++ [Byte.x00])
    | _ => inl []
    end
  else inl (default (sim_default o) (sim_opts s !! (fd, l, o))).

#[export] Instance sim_Sockets : Sockets net_sim.
Proof.
  refine {| sys_socket s d t p := sim_socket s d; sys_bind s fd sa := sim_bind s fd;
            sys_listen s fd n := (s, None); sys_connect s fd sa := sim_connect s;
            sys_select s fd t := (s, inl 1);
            sys_setsockopt s fd l o v :=
              (mkSim (sim_socks s) (sim_next s) (sim_clock s) (<[(fd, l, o) := v]> (sim_opts s)) (sim_connects s), None);
            sys_getsockopt s fd l o n := (s, sim_getsockopt s fd l o n);
            clock s :=
              (mkSim (sim_socks s) (sim_next s) (sim_clock s + 1) (sim_opts s) (sim_connects s), sim_clock s + 1);
            resolve s network addr := (s, inl (sim_resolve addr));
            socks := sim_socks |}; try (intros; by simplify_eq).
  - intros s d t p s' fd E; unfold sim_socket in E; case_decide; [done |].
    destruct (sim_socks s !! Z.abs (sim_next s)) eqn:Ef; [by simplify_eq |].
    injection E as <- <-; split_and!; [lia | exact Ef | reflexivity].
  - intros s d t p s' e E; unfold sim_socket in E; case_decide; [by simplify_eq |].
    by destruct (sim_socks s !! Z.abs (sim_next s)) eqn:Ef; simplify_eq.
  - intros s fd s' r E; cbn in E; by simplify_eq.
  - intros s fd sa s' E; unfold sim_bind in E; destruct (sim_socks s !! fd) as [[] |]; by simplify_eq.
  - intros s fd sa s' e E; unfold sim_bind in E; destruct (sim_socks s !! fd) as [[] |]; by simplify_eq.
  - intros s fd b s' r E; cbn in E; by simplify_eq.
  - intros s fd s' r E; cbn in E; by simplify_eq.
  - intros s fd sa s' r E; unfold sim_connect in E; destruct (sim_connects s); by simplify_eq.
Defined.

Definition fresh_sim (connects : list (option error)) : net_sim := mkSim ∅ 3 0 ∅ connects.

Definition local_addr : netAddr := TCPAddr [Byte.x7f; Byte.x00; Byte.x00; Byte.x01] 7000.

(** * Instances *)

Lemma listen_accounts_witness : exists s', Listen (fresh_sim []) "tcp" "host:9000" [ReusePort true] = Ret s' /\
  accounted (fresh_sim []) s'.
Proof.
  apply (listen_accounts (fresh_sim []) "tcp" "host:9000" [ReusePort true]); repeat constructor.
Defined.

Lemma listen_unspecified_witness : exists s', Listen (fresh_sim []) "tcp" "any" [] = Ret (s', (-1, None, Some (ErrOther 97))).
Proof.
  exists (fresh_sim []).
  apply (listen_unspecified (fresh_sim []) (fresh_sim []) "tcp" "any" [] (sim_resolve "any") (fresh_sim []));
    [congruence | reflexivity ..].
Defined.

(** A connection that is refused at once. *)
Definition refused : option error := Some (ErrOther 111).

Lemma failed_dial_leaks_witness : exists s', ConnectTCP 1 (fresh_sim [refused]) "tcp" "host:9000" 1 [] =
  Ret (s', (-1, None, None, refused)) /\ opens s' = ({[3]} ∪ opens (fresh_sim [refused])).
Proof.
  destruct (failed_dial_leaks 1 (fresh_sim [refused]) (mkSim {[3 := false]} 4 0 ∅ [refused])
    (mkSim {[3 := false]} 4 2 ∅ []) 3 (TCPAddr [Byte.x0a; Byte.x00; Byte.x00; Byte.x01] 9000) "tcp" "host:9000" 1 []
    (ErrOther 111)) as (H1 & _ & H2); [apply List.Forall_nil | vm_compute; reflexivity | vm_compute; reflexivity |].
  eexists; split; [exact H1 | exact H2].
Defined.

Lemma bound_dial_fails_witness : exists s' e,
  connect 3 (mkSim {[3 := false]} 4 0 ∅ []) 3 local_addr 1 [Nonblocking true; BindSocket local_addr] = Ret (s', Some e).
Proof.
  apply bound_dial_fails; [| right; left].
  constructor; [exact I |]; constructor; [eexists; reflexivity | constructor].
Defined.

(** Interrupted five times, then in progress. *)
Lemma connect_ends_witness : exists s' err,
  connect 12 (mkSim {[3 := false]} 4 0 ∅ (replicate 5 (Some EINTR) ++ [Some EINPROGRESS])) 3 local_addr 2 [] =
    Ret (s', err).
Proof.
  apply (connect_ends sim_clock).
  - intros s s' t E; cbn in E; simplify_eq; cbn; lia.
  - intros s fd sa s' r E; cbn in E; unfold sim_connect in E; destruct (sim_connects s); simplify_eq; cbn; lia.
  - intros s fd t s' r E; cbn in E; simplify_eq; lia.
  - constructor.
  - eexists; reflexivity.
  - vm_compute; reflexivity.
Defined.
