(* ===== verification/Multicast.v ===== *)
(** Multicast sockets: the options of [src/net/ipv4], the socket of [src/socket.go] and the
    configuration of [UDPPeer] in [src/multicast/peer.go] and [src/multicast/util.go].

    Reading and writing of a peer are in [UDPPeer.v]. *)

From stdpp Require Import gmap strings.
From Stdlib Require Import Ascii String.
From S2P Require Import Prelude NetAddr ParseAddr SocketOpts EventLoop Poller Sockets.

(** * Interfaces *)

Record Interface : Type := mkInterface { if_name : string; if_up : bool; if_multicast : bool }.

(** The addresses [iff.Addrs()] lists. *)
Inductive ifAddr : Type := IPAddr (ip : list byte) | IPNet (ip : list byte) | IfUDPAddr (ip : list byte) | OtherAddr.

Class Interfaces (S : Type) := {
  InterfaceByName : S -> string -> S * (Interface + error);
  Addrs : S -> Interface -> S * (list ifAddr + error)
}.

(** * Constants *)

Definition IPPROTO_IP : Z := 0.
Definition IP_MULTICAST_IF : Z := 32.
Definition IP_MULTICAST_TTL : Z := 33.
Definition IP_MULTICAST_LOOP : Z := 34.
Definition IP_ADD_MEMBERSHIP : Z := 35.
Definition IP_DROP_MEMBERSHIP : Z := 36.
Definition IP_UNBLOCK_SOURCE : Z := 37.
Definition IP_BLOCK_SOURCE : Z := 38.
Definition IP_ADD_SOURCE_MEMBERSHIP : Z := 39.
Definition IP_DROP_SOURCE_MEMBERSHIP : Z := 40.
Definition IP_MULTICAST_ALL : Z := 49.
Definition SO_BINDTODEVICE : Z := 25.

Definition errNoMulticast : error := ErrOther (-20).
Definition errNoIPv4 : error := ErrOther (-21).
Definition errNotUp : error := ErrOther (-22).
Definition errNotParsed : error := ErrOther (-23).
Definition errNotMulticast : error := ErrOther (-24).
Definition errUnknownScheme : error := ErrOther (-25).
Definition errInvalidNetwork : error := ErrOther (-26).
Definition errNonblocking : error := ErrOther (-27).
Definition errReusePort : error := ErrOther (-28).
Definition errReuseAddr : error := ErrOther (-29).
Definition errBind : error := ErrOther (-30).
Definition errSocketAddress : error := ErrOther (-31).
Definition errResolve : error := ErrOther (-32).
Definition errSocket : error := ErrOther (-33).
Definition errExpectedIPv4 : error := ErrOther (-34).

(** * Requests *)

(** [syscall.IPMreq] and [IPMreqSource] as the bytes that are passed to the kernel. *)
Record IPMreq : Type := mkIPMreq { Multiaddr : list byte; mreq_Interface : list byte }.
Definition mreq_bytes (m : IPMreq) : list byte := Multiaddr m ++ mreq_Interface m.

Record IPMreqSource : Type := mkIPMreqSource {
  src_Multiaddr : list byte; src_Interface : list byte; Sourceaddr : list byte
}.
Definition mreqSource_bytes (m : IPMreqSource) : list byte := src_Multiaddr m ++ src_Interface m ++ Sourceaddr m.

Definition zero4 : list byte := replicate 4 Byte.x00.

Section ipv4.
Context {S : Type} `{!System S} `{!Sockets S} `{!Interfaces S}.
Implicit Types (s : S) (fd : Z).

(** * src/net/ipv4 *)

Definition GetMulticastInterfaceAddr s fd : S * (Addr + error) :=
  let '(s, r) := sys_getsockopt s fd IPPROTO_IP IP_MULTICAST_IF 4 in
  (s, match r with inl bs => inl (AddrFrom4 bs) | inr e => inr e end).

Definition GetMulticastInterfaceAddrAndGroup s fd : S * (Addr * Addr + error) :=
  let '(s, r) := sys_getsockopt s fd IPPROTO_IP IP_MULTICAST_IF 8 in
  (s, match r with inl bs => inl (AddrFrom4 (zdrop 4 bs), AddrFrom4 (ztake 4 bs)) | inr e => inr e end).

Definition GetMulticastInterfaceIndex s fd : S * (Z + error) := GetsockoptInt s fd IPPROTO_IP IP_MULTICAST_IF.

(** The loop of [SetMulticastInterface]; the variable keeps its value over the turns. *)
Fixpoint find_interface_addr (addrs : list ifAddr) (interfaceAddr : list byte) : option (list byte) :=
  match addrs with
  | [] => None
  | a :: addrs =>
      let interfaceAddr := match a with IPAddr ip | IPNet ip => ip | _ => interfaceAddr end in
      if decide (To4 interfaceAddr <> []) then Some interfaceAddr else find_interface_addr addrs interfaceAddr
  end.

Definition SetMulticastInterface s fd (iff : Interface) : S * (Addr + error) :=
  if if_multicast iff then
    let '(s, r) := Addrs s iff in
    match r with
    | inr e => (s, inr e)
    | inl addrs =>
        match find_interface_addr addrs [] with
        | None => (s, inr errNoIPv4)
        | Some interfaceAddr =>
            let addr := copy4 interfaceAddr in
            let '(s, err) := sys_setsockopt s fd IPPROTO_IP IP_MULTICAST_IF addr in
            (s, match err with Some e => inr e | None => inl (AddrFrom4 addr) end)
        end
    end
  else (s, inr errNoMulticast).

Definition SetMulticastLoop s fd (loop : bool) : S * option error :=
  SetsockoptInt s fd IPPROTO_IP IP_MULTICAST_LOOP (b2i loop).

Definition GetMulticastLoop s fd : S * (bool + error) :=
  let '(s, r) := GetsockoptInt s fd IPPROTO_IP IP_MULTICAST_LOOP in
  (s, match r with inr e => inr e | inl v => inl (bool_decide (v = 0)) end).

(** [ttl] is a [uint8]. *)
Definition SetMulticastTTL s fd (ttl : Z) : S * option error :=
  SetsockoptInt s fd IPPROTO_IP IP_MULTICAST_TTL ttl.

Definition GetMulticastTTL s fd : S * (Z + error) :=
  let '(s, r) := GetsockoptInt s fd IPPROTO_IP IP_MULTICAST_TTL in
  (s, match r with inr e => inr e | inl v => inl (v mod 256) end).

Definition SetMulticastAll s fd (all : bool) : S * option error :=
  sys_setsockopt s fd IPPROTO_IP IP_MULTICAST_ALL [z2b (b2i all)].

Definition ValidateMulticastIP (ip : Addr) : option error :=
  if negb (Is4 ip) && negb (Is4In6 ip) then Some errExpectedIPv4
  else if negb (IsMulticast ip) then Some errNotMulticast
  else None.

(** The loop of [prepareAddMembership] over the addresses of the interface. *)
Fixpoint membership_interface (addrs : list ifAddr) : list byte + error :=
  match addrs with
  | [] => inr errNoIPv4
  | a :: addrs =>
      match a with
      | OtherAddr => membership_interface addrs
      | IPAddr ip | IPNet ip | IfUDPAddr ip =>
          match reparse ip with
          | None => inr errNotParsed
          | Some p => if Is4 p || Is4In6 p then inl (copy4 (AsSlice p)) else membership_interface addrs
          end
      end
  end.

Definition prepareAddMembership s (multicastIP : Addr) (iff : option Interface) : S * (IPMreq + error) :=
  match iff with
  | None => (s, inl (mkIPMreq (copy4 (AsSlice multicastIP)) zero4))
  | Some iff =>
      let '(s, r) := Addrs s iff in
      match r with
      | inr e => (s, inr e)
      | inl addrs =>
          match membership_interface addrs with
          | inr e => (s, inr e)
          | inl i => (s, inl (mkIPMreq (copy4 (AsSlice multicastIP)) i))
          end
      end
  end.

Definition AddMembership s fd (multicastIP : Addr) (iff : option Interface) : S * option error :=
  let '(s, r) := prepareAddMembership s multicastIP iff in
  match r with
  | inr e => (s, Some e)
  | inl mreq => sys_setsockopt s fd IPPROTO_IP IP_ADD_MEMBERSHIP (mreq_bytes mreq)
  end.

Definition AddSourceMembership s fd (multicastIP sourceIP : Addr) (iff : option Interface) : S * option error :=
  let '(s, r) := prepareAddMembership s multicastIP iff in
  match r with
  | inr e => (s, Some e)
  | inl mreq =>
      sys_setsockopt s fd IPPROTO_IP IP_ADD_SOURCE_MEMBERSHIP
        (mreqSource_bytes (mkIPMreqSource (Multiaddr mreq) (mreq_Interface mreq) (copy4 (AsSlice sourceIP))))
  end.

Definition prepareDropMembership (multicastIP : Addr) : IPMreq := mkIPMreq (copy4 (AsSlice multicastIP)) zero4.

Definition DropMembership s fd (multicastIP : Addr) : S * option error :=
  sys_setsockopt s fd IPPROTO_IP IP_DROP_MEMBERSHIP (mreq_bytes (prepareDropMembership multicastIP)).

Definition DropSourceMembership s fd (multicastIP sourceIP : Addr) : S * option error :=
  sys_setsockopt s fd IPPROTO_IP IP_DROP_SOURCE_MEMBERSHIP
    (mreqSource_bytes (mkIPMreqSource (Multiaddr (prepareDropMembership multicastIP)) zero4 (copy4 (AsSlice sourceIP)))).

Definition ipv4_BlockSource s fd (multicastIP sourceIP : Addr) : S * option error :=
  sys_setsockopt s fd IPPROTO_IP IP_BLOCK_SOURCE
    (mreqSource_bytes (mkIPMreqSource (copy4 (AsSlice multicastIP)) zero4 (copy4 (AsSlice sourceIP)))).

Definition ipv4_UnblockSource s fd (multicastIP sourceIP : Addr) : S * option error :=
  sys_setsockopt s fd IPPROTO_IP IP_UNBLOCK_SOURCE
    (mreqSource_bytes (mkIPMreqSource (copy4 (AsSlice multicastIP)) zero4 (copy4 (AsSlice sourceIP)))).
End ipv4.

(** * src/socket.go *)

Inductive SocketDomain : Type := SocketDomainUnix | SocketDomainIPv4 | SocketDomainIPv6.
Inductive SocketType : Type := SocketTypeStream | SocketTypeDatagram | SocketRaw.

Definition domain_into (d : SocketDomain) : Z :=
  match d with SocketDomainUnix => AF_UNIX | SocketDomainIPv4 => AF_INET | SocketDomainIPv6 => AF_INET6 end.

Definition type_into (t : SocketType) : Z :=
  match t with SocketTypeStream => SOCK_STREAM | SocketTypeDatagram => SOCK_DGRAM | SocketRaw => SOCK_RAW end.

Definition SocketDomainFromIP (ip : list byte) : SocketDomain :=
  if decide (To4 ip <> []) then SocketDomainIPv4 else SocketDomainIPv6.

(** The bytes of a string. *)
Definition string_bytes (str : string) : list byte := z2b <$> codes str.

Section socket.
Context {S : Type} `{!System S} `{!Sockets S} `{!Interfaces S}.
Implicit Types (s : S) (fd : Z).

(** The descriptor of the new socket. *)
Definition NewSocket s (domain : SocketDomain) (socketType : SocketType) : S * (Z + error) :=
  sys_socket s (domain_into domain) (type_into socketType) 0.

Definition SetNonblocking s fd (nonblocking : bool) : S * option error := sys_setnonblock s fd nonblocking.

Definition Socket_ReuseAddr s fd (reuse : bool) : S * option error :=
  SetsockoptInt s fd SOL_SOCKET SO_REUSEADDR (b2i reuse).

Definition Socket_ReusePort s fd (reuse : bool) : S * option error :=
  SetsockoptInt s fd SOL_SOCKET SO_REUSEPORT (b2i reuse).

Definition Bind s fd (addrPort : AddrPort) : res (S * option error) :=
  let a := ap_addr addrPort in
  if Is4 a || Is4In6 a then b ← As4 a; Ret (sys_bind s fd (SockaddrInet4 b (ap_port addrPort)))
  else if Is6 a then Ret (sys_bind s fd (SockaddrInet6 (AsSlice a) (ap_port addrPort)))
  else Ret (s, Some errBind).

(** src/socket_linux.go *)
Definition BindToDevice s fd (name : string) : S * (Interface + error) :=
  let '(s, r) := InterfaceByName s name in
  match r with
  | inr e => (s, inr e)
  | inl iff =>
      let '(s, err) := sys_setsockopt s fd SOL_SOCKET SO_BINDTODEVICE (string_bytes (if_name iff)) in
      (s, match err with Some e => inr e | None => inl iff end)
  end.
End socket.

(** * src/multicast/util.go *)

Definition parseIP (addr : string) : Addr + error :=
  match ParseAddr addr with
  | None => inr errNotParsed
  | Some AddrZero => inr errNotParsed
  | Some ip => inl ip
  end.

Definition parseMulticastIP (addr : string) : Addr + error :=
  match parseIP addr with
  | inr e => inr e
  | inl ip => if IsMulticast ip then inl ip else inr errNotMulticast
  end.

Definition resolveMulticastInterface {S} `{!Interfaces S} (s : S) (name : string) : S * (Interface + error) :=
  let '(s, r) := InterfaceByName s name in
  match r with
  | inr e => (s, inr e)
  | inl iff =>
      if negb (if_up iff) then (s, inr errNotUp)
      else if negb (if_multicast iff) then (s, inr errNoMulticast)
      else (s, inl iff)
  end.

(** * src/multicast/peer.go *)

(** The fields of [UDPPeer] that configure it. *)
Record peerConfig : Type := mkPeerConfig {
  cfg_fd : Z;
  localAddr : netAddr;
  ipv : Z;
  outbound : option Interface;
  outboundIP : Addr;
  inbound : option Interface;
  loop : bool;
  ttl : Z;
  all : bool
}.

Definition FilterIPv4 (addrs : list Addr) : list Addr := List.filter (fun a => Is4 a || Is4In6 a) addrs.
Definition FilterIPv6 (addrs : list Addr) : list Addr := List.filter Is6 addrs.

Section peer.
Context {S : Type} `{!System S} `{!Sockets S} `{!Interfaces S}.
Implicit Types (s : S) (p : peerConfig).

Definition SetOutboundIPv4 s p (interfaceName : string) : S * peerConfig * option error :=
  let '(s, r) := resolveMulticastInterface s interfaceName in
  match r with
  | inr e => (s, p, Some e)
  | inl iff =>
      let '(s, r) := SetMulticastInterface s (cfg_fd p) iff in
      match r with
      | inr _ => (s, p, None)
      | inl ip =>
          (s, mkPeerConfig (cfg_fd p) (localAddr p) (ipv p) (Some iff) ip (inbound p) (loop p) (ttl p) (all p), None)
      end
  end.

Definition SetInbound s p (interfaceName : string) : S * peerConfig * option error :=
  let '(s, r) := BindToDevice s (cfg_fd p) interfaceName in
  let set i := mkPeerConfig (cfg_fd p) (localAddr p) (ipv p) (outbound p) (outboundIP p) i (loop p) (ttl p) (all p) in
  match r with inr e => (s, set None, Some e) | inl iff => (s, set (Some iff), None) end.

Definition SetLoop s p (b : bool) : S * peerConfig * option error :=
  let '(s, err) := SetMulticastLoop s (cfg_fd p) b in
  match err with
  | Some e => (s, p, Some e)
  | None =>
      (s, mkPeerConfig (cfg_fd p) (localAddr p) (ipv p) (outbound p) (outboundIP p) (inbound p) b (ttl p) (all p), None)
  end.

Definition SetTTL s p (t : Z) : S * peerConfig * option error :=
  let '(s, err) := SetMulticastTTL s (cfg_fd p) t in
  match err with
  | Some e => (s, p, Some e)
  | None =>
      (s, mkPeerConfig (cfg_fd p) (localAddr p) (ipv p) (outbound p) (outboundIP p) (inbound p) (loop p) t (all p), None)
  end.

Definition SetAll s p (a : bool) : S * peerConfig * option error :=
  let '(s, err) := SetMulticastAll s (cfg_fd p) a in
  match err with
  | Some e => (s, p, Some e)
  | None =>
      (s, mkPeerConfig (cfg_fd p) (localAddr p) (ipv p) (outbound p) (outboundIP p) (inbound p) (loop p) (ttl p) a, None)
  end.

Definition joinIPv4 s p (multicastIP : Addr) (iff : option Interface) (sourceIP : Addr) : S * option error :=
  if decide (sourceIP = AddrZero) then AddMembership s (cfg_fd p) multicastIP iff
  else AddSourceMembership s (cfg_fd p) multicastIP sourceIP iff.

(** The optional source. *)
Definition parseSource (sourceIP : string) : Addr + error :=
  if decide (0 < String.length sourceIP)%nat then parseIP sourceIP else inl AddrZero.

Definition JoinSourceOn s p (multicastIP sourceIP interfaceName : string) : res (S * option error) :=
  match parseMulticastIP multicastIP with
  | inr e => Ret (s, Some e)
  | inl mip =>
      match parseSource sourceIP with
      | inr e => Ret (s, Some e)
      | inl sip =>
          let '(s, r) :=
            if decide (interfaceName = EmptyString) then (s, inl None)
            else
              let '(s, r) := resolveMulticastInterface s interfaceName in
              (s, match r with inl iff => inl (Some iff) | inr e => inr e end) in
          match r with
          | inr e => Ret (s, Some e)
          | inl iff =>
              if Is4 mip || Is4In6 mip then Ret (joinIPv4 s p mip iff sip)
              else if Is6 mip then Panic
              else Ret (s, Some errUnknownScheme)
          end
      end
  end.

Definition JoinSource s p (multicastIP sourceIP : string) : res (S * option error) :=
  JoinSourceOn s p multicastIP sourceIP EmptyString.
Definition JoinOn s p (multicastIP interfaceName : string) : res (S * option error) :=
  JoinSourceOn s p multicastIP EmptyString interfaceName.
Definition Join s p (multicastIP : string) : res (S * option error) := JoinOn s p multicastIP EmptyString.

Definition leaveIPv4 s p (multicastIP sourceIP : Addr) : S * option error :=
  if decide (sourceIP = AddrZero) then DropMembership s (cfg_fd p) multicastIP
  else DropSourceMembership s (cfg_fd p) multicastIP sourceIP.

Definition LeaveSource s p (multicastIP sourceIP : string) : res (S * option error) :=
  match parseMulticastIP multicastIP with
  | inr e => Ret (s, Some e)
  | inl mip =>
      match parseSource sourceIP with
      | inr e => Ret (s, Some e)
      | inl sip =>
          if Is4 mip || Is4In6 mip then Ret (leaveIPv4 s p mip sip)
          else if Is6 mip then Panic
          else Ret (s, Some errUnknownScheme)
      end
  end.

Definition Leave s p (multicastIP : string) : res (S * option error) := LeaveSource s p multicastIP EmptyString.

(** [BlockSource] and [UnblockSource] differ in the option they set. *)
Definition withSource s p (multicastIP sourceIP : string) (set : S -> Z -> Addr -> Addr -> S * option error) :
    res (S * option error) :=
  match parseMulticastIP multicastIP with
  | inr e => Ret (s, Some e)
  | inl mip =>
      match parseIP sourceIP with
      | inr e => Ret (s, Some e)
      | inl sip =>
          if Is4 mip || Is4In6 mip then Ret (set s (cfg_fd p) mip sip)
          else if Is6 mip then Panic
          else Ret (s, Some errUnknownScheme)
      end
  end.

Definition BlockSource s p (multicastIP sourceIP : string) : res (S * option error) :=
  withSource s p multicastIP sourceIP ipv4_BlockSource.
Definition UnblockSource s p (multicastIP sourceIP : string) : res (S * option error) :=
  withSource s p multicastIP sourceIP ipv4_UnblockSource.

(** * NewUDPPeer *)

(** What an unspecified IP becomes; [None]: the network is not one of udp, udp4, udp6. *)
Definition peer_ip (network : string) (ip : list byte) : option (list byte) :=
  if decide (ip <> []) then Some ip
  else if decide (network = "udp"%string \/ network = "udp4"%string) then Some (v4InV6Prefix ++ zero4)
  else if decide (network = "udp6"%string) then Some (replicate 16 Byte.x00)
  else None.

(** The options that are set before the socket is bound. *)
Definition prepare_socket s (fd : Z) : S * option error :=
  let '(s, err) := SetNonblocking s fd true in
  match err with
  | Some _ => (s, Some errNonblocking)
  | None =>
      let '(s, err) := Socket_ReusePort s fd true in
      match err with
      | Some _ => (s, Some errReusePort)
      | None =>
          let '(s, err) := Socket_ReuseAddr s fd true in
          (s, match err with Some _ => Some errReuseAddr | None => None end)
      end
  end.

(** The local address, and which version of IP it has. *)
Definition local_of (sa : Sockaddr) : option (netAddr * Z) :=
  match sa with
  | SockaddrInet4 a port => Some (UDPAddr a (port mod 65536), 4)
  | SockaddrInet6 a port => Some (UDPAddr a (port mod 65536), 6)
  | SockaddrUnix _ => None
  end.

(** The defaults of an IPv4 peer. *)
Definition configure_ipv4 s (p : peerConfig) : S * (peerConfig + error) :=
  let '(s, r) := GetMulticastInterfaceAddr s (cfg_fd p) in
  match r with
  | inr e => (s, inr e)
  | inl ip =>
      let '(s, r) := GetMulticastLoop s (cfg_fd p) in
      match r with
      | inr e => (s, inr e)
      | inl b =>
          let '(s, err) := SetMulticastAll s (cfg_fd p) false in
          match err with
          | Some e => (s, inr e)
          | None =>
              (s, inl (mkPeerConfig (cfg_fd p) (localAddr p) (ipv p) (outbound p) ip (inbound p) b (ttl p) (all p)))
          end
      end
  end.

Definition NewUDPPeer s (network addr : string) : res (S * (peerConfig + error)) :=
  let '(s, r) := resolve s network addr in
  match r with
  | inr _ => Ret (s, inr errResolve)
  | inl a =>
      match peer_ip network (r_ip a) with
      | None => Ret (s, inr errInvalidNetwork)
      | Some ip =>
          let '(s, r) := NewSocket s (SocketDomainFromIP ip) SocketTypeDatagram in
          match r with
          | inr _ => Ret (s, inr errSocket)
          | inl fd =>
              let '(s, err) := prepare_socket s fd in
              match err with
              | Some e => Ret (s, inr e)
              | None =>
                  '(s, err) ← Bind s fd (mkAddrPort (AddrFromSlice ip) (r_port a mod 65536));
                  match err with
                  | Some _ => Ret (s, inr errBind)
                  | None =>
                      let '(s, r) := sys_getsockname s fd in
                      match r with
                      | inr _ => Ret (s, inr errSocketAddress)
                      | inl sa =>
                          match local_of sa with
                          | None => Ret (s, inr errSocketAddress)
                          | Some (la, v) =>
                              let p := mkPeerConfig fd la v None AddrZero None false 1 false in
                              if decide (v = 4) then Ret (configure_ipv4 s p) else Ret (s, inl p)
                          end
                      end
                  end
              end
          end
      end
  end.
End peer.
