(* ===== verification/MulticastSpec.v ===== *)
(** The theorems on [Multicast.v]: the requests that reach the kernel, and that a peer knows
    its own settings. *)

From stdpp Require Import gmap strings.
From Stdlib Require Import Ascii String FunctionalExtensionality.
From S2P Require Import Prelude NetAddr ParseAddr SocketOpts EventLoop Poller Sockets SocketsSpec Multicast.

(** * Addresses *)

Lemma ipv4_fields_length s : forall fields val digLen prevDot bs, zlen fields <= 3 ->
  ipv4_fields s fields val digLen prevDot = Some bs -> length bs = 4%nat.
Proof.
  induction s as [| c s IH]; intros fields val digLen prevDot bs Hl; cbn [ipv4_fields].
  - case_decide; [done |]; intros [= <-]; rewrite length_fmap, length_app; cbn; lia.
  - destruct (is_digit c); repeat case_decide; try done; apply IH; try done; rewrite length_app; cbn; lia.
Qed.

Lemma ParseAddr_length str b : ParseAddr str = Some (AddrFrom4 b) -> length b = 4%nat.
Proof.
  unfold ParseAddr; destruct (address_kind _) as [[] |]; [| | done].
  - intros (bs & E & [= ->])%fmap_Some; eapply ipv4_fields_length; [| exact E]; cbn; lia.
  - by intros (bs & E & [=])%fmap_Some.
Qed.

Lemma copy4_id b : length b = 4%nat -> copy4 b = b.
Proof. by destruct b as [| ? [| ? [| ? [| ? []]]]]. Qed.

Lemma To4_length ip : To4 ip <> [] -> length (To4 ip) = 4%nat.
Proof. unfold To4; repeat case_decide; try done; [lia |]; rewrite length_drop; lia. Qed.

Lemma group_parses str g : ParseAddr str = Some (AddrFrom4 g) -> IsMulticast (AddrFrom4 g) = true ->
  parseMulticastIP str = inl (AddrFrom4 g) /\ copy4 g = g.
Proof.
  intros Hp Hm; unfold parseMulticastIP, parseIP; rewrite Hp, Hm; split; [done |].
  by eapply copy4_id, ParseAddr_length.
Qed.

Lemma source_parses str src : ParseAddr str = Some (AddrFrom4 src) ->
  parseSource str = inl (AddrFrom4 src) /\ parseIP str = inl (AddrFrom4 src) /\ copy4 src = src.
Proof.
  intros Hp; unfold parseSource, parseIP; rewrite Hp; split_and!; [| done | by eapply copy4_id, ParseAddr_length].
  case_decide as Hl; [done |]; destruct str; [done | cbn in Hl; lia].
Qed.

Section requests.
Context {S : Type} `{!System S} `{!Sockets S} `{!Interfaces S}.
Implicit Types (s : S) (p : peerConfig).

(** * Membership *)

(** C30: For a multicast group and a source given as four-byte IPv4 addresses (not in the
    IPv4-in-IPv6 form, which is lost on the way), joining, leaving, blocking and unblocking
    reach the kernel as exactly one request, whose result they return: the option of the operation with the four bytes of the group,
    0.0.0.0 for the interface that is not given and, where there is one, the four bytes of
    the source.  What is left is what was joined. *)
Theorem membership_requests s p (group source : string) (g src : list byte) :
  ParseAddr group = Some (AddrFrom4 g) -> IsMulticast (AddrFrom4 g) = true ->
  ParseAddr source = Some (AddrFrom4 src) ->
  let ask opt bytes := Ret (sys_setsockopt s (cfg_fd p) IPPROTO_IP opt bytes) in
  Join s p group = ask IP_ADD_MEMBERSHIP (g ++ zero4) /\
  JoinSource s p group source = ask IP_ADD_SOURCE_MEMBERSHIP (g ++ zero4 ++ src) /\
  Leave s p group = ask IP_DROP_MEMBERSHIP (g ++ zero4) /\
  LeaveSource s p group source = ask IP_DROP_SOURCE_MEMBERSHIP (g ++ zero4 ++ src) /\
  BlockSource s p group source = ask IP_BLOCK_SOURCE (g ++ zero4 ++ src) /\
  UnblockSource s p group source = ask IP_UNBLOCK_SOURCE (g ++ zero4 ++ src).
Proof.
  intros Hg Hm Hs; destruct (group_parses group g Hg Hm) as [Hp Hc], (source_parses source src Hs) as (Hq & Hi & Hd).
  unfold Join, JoinOn, JoinSource, JoinSourceOn, Leave, LeaveSource, BlockSource, UnblockSource, withSource.
  rewrite Hp, Hq, Hi; cbn [Is4 orb].
  unfold joinIPv4, leaveIPv4, AddMembership, AddSourceMembership, DropMembership, DropSourceMembership,
    ipv4_BlockSource, ipv4_UnblockSource, mreq_bytes, mreqSource_bytes.
  rewrite !(decide_False (P := AddrFrom4 src = AddrZero)) by done.
  rewrite !decide_True by done; cbn [prepareAddMembership prepareDropMembership Multiaddr mreq_Interface src_Multiaddr
    src_Interface Sourceaddr AsSlice]; rewrite ?Hc, ?Hd; split_and!; done.
Qed.

(** An address that is not IPv4 but can be parsed. *)
Definition not_ipv4 (a : ifAddr) : Prop :=
  match a with OtherAddr => True | IPAddr ip | IPNet ip | IfUDPAddr ip => zlen ip = 16 /\ To4 ip = [] end.

Lemma Is4In6_To4 ip : zlen ip = 16 -> To4 ip = [] -> Is4In6 (AddrFrom16 ip) = false.
Proof.
  intros Hl; unfold To4; rewrite (decide_False (P := zlen ip = 4)) by lia; case_decide as H1.
  - intros H2; apply (f_equal length) in H2; rewrite length_drop in H2; cbn in H2; lia.
  - intros _; cbn; apply bool_decide_eq_false_2; tauto.
Qed.

Lemma membership_interface_first pre ip post : Forall not_ipv4 pre -> To4 ip <> [] ->
  membership_interface (pre ++ IPNet ip :: post) = inl (To4 ip).
Proof.
  intros Hpre Hip; assert (copy4 (To4 ip) = To4 ip) as Hc by (by apply copy4_id, To4_length).
  induction Hpre as [| a pre Ha Hpre IH]; cbn [app membership_interface].
  - unfold reparse; rewrite decide_True by done; cbn; by rewrite Hc.
  - assert (forall ip', zlen ip' = 16 /\ To4 ip' = [] -> reparse ip' = Some (AddrFrom16 ip')) as Hr.
    { intros ip' [Hl H4]; unfold reparse; rewrite decide_False, decide_True by (done || tauto); done. }
    destruct a as [ip' | ip' | ip' |]; cbn in Ha; [| | | exact IH];
      rewrite (Hr ip' Ha), (Is4In6_To4 ip') by tauto; exact IH.
Qed.

(** Joining on an interface that is up and supports multicast asks for the group on the
    first IPv4 address of that interface, in whichever form it is listed; addresses of other
    kinds before it are passed over. *)
Theorem join_on_interface s s1 s2 p (group name : string) (g ip : list byte) (iff : Interface) pre post :
  ParseAddr group = Some (AddrFrom4 g) -> IsMulticast (AddrFrom4 g) = true -> name <> EmptyString ->
  InterfaceByName s name = (s1, inl iff) -> if_up iff = true -> if_multicast iff = true ->
  Addrs s1 iff = (s2, inl (pre ++ IPNet ip :: post)) -> Forall not_ipv4 pre -> To4 ip <> [] ->
  JoinOn s p group name = Ret (sys_setsockopt s2 (cfg_fd p) IPPROTO_IP IP_ADD_MEMBERSHIP (g ++ To4 ip)).
Proof.
  intros Hg Hm Hn Hi Hu Hmc Ha Hpre Hip; destruct (group_parses group g Hg Hm) as [Hp Hc].
  unfold JoinOn, JoinSourceOn; rewrite Hp; unfold parseSource; rewrite decide_False by (cbn; lia).
  rewrite decide_False by done; unfold resolveMulticastInterface; rewrite Hi, Hu, Hmc; cbn [negb Is4 orb].
  unfold joinIPv4; rewrite decide_True by done; unfold AddMembership, prepareAddMembership.
  rewrite Ha, membership_interface_first by done; cbn; by rewrite Hc.
Qed.

(** A group given in IPv6 form ("::ffff:224.0.1.0") is accepted as an IPv4 group, but
    what is joined is 0.0.0.0. *)
Theorem mapped_group_lost s p (group : string) (g : list byte) :
  ParseAddr group = Some (AddrFrom16 (v4InV6Prefix ++ g)) -> IsMulticast (AddrFrom16 (v4InV6Prefix ++ g)) = true ->
  Join s p group = Ret (sys_setsockopt s (cfg_fd p) IPPROTO_IP IP_ADD_MEMBERSHIP (zero4 ++ zero4)).
Proof.
  intros Hg Hm; unfold Join, JoinOn, JoinSourceOn, parseMulticastIP, parseIP; rewrite Hg, Hm.
  unfold parseSource; rewrite decide_False by (cbn; lia); rewrite decide_True by done.
  assert (Is4In6 (AddrFrom16 (v4InV6Prefix ++ g)) = true) as -> by (apply bool_decide_eq_true_2; done).
  rewrite orb_true_r; unfold joinIPv4; rewrite decide_True by done; done.
Qed.

(** * The outbound interface *)

Lemma find_interface_first pre ip post last : Forall not_ipv4 pre -> To4 last = [] -> To4 ip <> [] ->
  find_interface_addr (pre ++ IPNet ip :: post) last = Some ip.
Proof.
  intros Hpre Hl Hip; revert last Hl; induction Hpre as [| a pre Ha Hpre IH]; intros last Hl; cbn [app find_interface_addr].
  - by rewrite decide_True.
  - destruct a; cbn in Ha; rewrite decide_False by tauto; apply IH; tauto.
Qed.

(** [SetOutboundIPv4] never selects the interface it was asked for: [Addrs] lists IPv4
    addresses in the 16-byte form, of which the first four bytes are copied, so the kernel is
    told 0.0.0.0 (any interface); and when the kernel refuses, the error is dropped. *)
Theorem outbound_is_any s s1 s2 p (name : string) (a : list byte) (iff : Interface) pre post :
  InterfaceByName s name = (s1, inl iff) -> if_up iff = true -> if_multicast iff = true ->
  Addrs s1 iff = (s2, inl (pre ++ IPNet (v4InV6Prefix ++ a) :: post)) -> Forall not_ipv4 pre -> length a = 4%nat ->
  exists s3 err p', sys_setsockopt s2 (cfg_fd p) IPPROTO_IP IP_MULTICAST_IF zero4 = (s3, err) /\
    SetOutboundIPv4 s p name = (s3, p', None) /\
    match err with
    | Some _ => p' = p
    | None => outboundIP p' = AddrFrom4 zero4 /\ outbound p' = Some iff
    end.
Proof.
  intros Hi Hu Hm Ha Hpre Hl; assert (To4 (v4InV6Prefix ++ a) = a) as H4.
  { unfold To4; rewrite decide_False by (rewrite length_app, Hl; done).
    by rewrite decide_True by (rewrite length_app, Hl; done). }
  unfold SetOutboundIPv4, resolveMulticastInterface; rewrite Hi, Hu, Hm; cbn [negb].
  unfold SetMulticastInterface; rewrite Hm, Ha, find_interface_first; [| done | done | rewrite H4; by destruct a].
  change (copy4 (v4InV6Prefix ++ a)) with zero4.
  destruct (sys_setsockopt s2 _ _ _ _) as [s3 [e |]]; by eexists _, _, _.
Qed.
End requests.

(** * Settings *)

Lemma bytes_int_bytes v : 0 <= v < 2 ^ 31 -> bytes_int (int_bytes v) = v.
Proof.
  intros Hv; unfold bytes_int, int_bytes; rewrite rev_involutive, be_decode_encode.
  change (256 ^ Z.of_nat 4) with (2 ^ 32); rewrite Z.mod_small by lia; rewrite decide_False; lia.
Qed.

(** The options a peer reads back. *)
Definition readable (level opt : Z) : Prop :=
  level = IPPROTO_IP /\ (opt = IP_MULTICAST_IF \/ opt = IP_MULTICAST_TTL \/ opt = IP_MULTICAST_LOOP).

#[export] Instance readable_dec level opt : Decision (readable level opt).
Proof. unfold readable; apply _. Defined.

(** The kernel stores these options and returns what was stored (ip(7)); nothing else
    changes them. *)
Class OptionStore (S : Type) `{!System S} `{!Sockets S} `{!Interfaces S} := {
  stored : S -> Z -> Z -> list byte;
  set_stores : forall s fd l o v s', readable l o -> sys_setsockopt s fd l o v = (s', None) ->
    forall fd' o', stored s' fd' o' = if decide (fd' = fd /\ o' = o) then v else stored s fd' o';
  set_keeps : forall s fd l o v s' err, ~ readable l o \/ err <> None -> sys_setsockopt s fd l o v = (s', err) ->
    stored s' = stored s;
  get_stored : forall s fd l o n s' r, sys_getsockopt s fd l o n = (s', r) -> stored s' = stored s /\
    (readable l o -> forall bs, r = inl bs -> bs = stored s fd o);
  by_name_stored : forall s name s' r, InterfaceByName s name = (s', r) -> stored s' = stored s;
  addrs_stored : forall s iff s' r, Addrs s iff = (s', r) -> stored s' = stored s
}.

(** The operations on the settings and the memberships of a peer. *)
Inductive setting : Type :=
| OpLoop (b : bool) | OpTTL (t : Z) | OpAll (b : bool) | OpOutbound (name : string) | OpInbound (name : string)
| OpJoin (group source name : string) | OpLeave (group source : string) | OpBlock (group source : string)
| OpUnblock (group source : string).

Section settings.
Context {S : Type} `{!System S} `{!Sockets S} `{!Interfaces S} `{!OptionStore S}.
Implicit Types (s : S) (p : peerConfig).

Definition apply_setting s p (op : setting) : res (S * peerConfig * option error) :=
  match op with
  | OpLoop b => Ret (SetLoop s p b)
  | OpTTL t => Ret (SetTTL s p t)
  | OpAll b => Ret (SetAll s p b)
  | OpOutbound name => Ret (SetOutboundIPv4 s p name)
  | OpInbound name => Ret (SetInbound s p name)
  | OpJoin group source name => '(s, err) ← JoinSourceOn s p group source name; Ret (s, p, err)
  | OpLeave group source => '(s, err) ← LeaveSource s p group source; Ret (s, p, err)
  | OpBlock group source => '(s, err) ← BlockSource s p group source; Ret (s, p, err)
  | OpUnblock group source => '(s, err) ← UnblockSource s p group source; Ret (s, p, err)
  end.

(** [loopSet]: [SetLoop] has succeeded. *)
Definition loop_set (loopSet : bool) (op : setting) (err : option error) : bool :=
  match op, err with OpLoop _, None => true | _, _ => loopSet end.

Fixpoint apply_settings s p (loopSet : bool) (ops : list setting) : res (S * peerConfig * bool) :=
  match ops with
  | [] => Ret (s, p, loopSet)
  | op :: ops =>
      '(s, p, err) ← apply_setting s p op;
      apply_settings s p (loop_set loopSet op err) ops
  end.

(** What the peer says against what the kernel does. *)
Record agrees s p (loopSet : bool) : Prop := {
  agrees_ttl : bytes_int (stored s (cfg_fd p) IP_MULTICAST_TTL) = ttl p;
  agrees_outbound : AddrFrom4 (stored s (cfg_fd p) IP_MULTICAST_IF) = outboundIP p;
  agrees_loop : loop p = xorb (negb loopSet) (bool_decide (bytes_int (stored s (cfg_fd p) IP_MULTICAST_LOOP) <> 0))
}.

Lemma agrees_stored s s' p loopSet : stored s' = stored s -> agrees s p loopSet -> agrees s' p loopSet.
Proof. intros E []; split; by rewrite E. Qed.

Lemma unreadable_keeps s fd o v s' err : o <> IP_MULTICAST_IF -> o <> IP_MULTICAST_TTL -> o <> IP_MULTICAST_LOOP ->
  sys_setsockopt s fd IPPROTO_IP o v = (s', err) -> stored s' = stored s.
Proof. intros H1 H2 H3; apply set_keeps; left; intros [_ ?]; tauto. Qed.

Lemma prepareAdd_stored s mip iff s' r : prepareAddMembership s mip iff = (s', r) -> stored s' = stored s.
Proof.
  destruct iff as [iff |]; cbn; [| by intros [= <- _]]; destruct (Addrs s iff) as [s1 [addrs | e]] eqn:E;
    apply addrs_stored in E; [| by intros [= <- _]]; destruct (membership_interface addrs); by intros [= <- _].
Qed.

Lemma joinIPv4_stored s p mip iff sip s' err : joinIPv4 s p mip iff sip = (s', err) -> stored s' = stored s.
Proof.
  unfold joinIPv4, AddMembership, AddSourceMembership; case_decide;
    destruct (prepareAddMembership s mip iff) as [s1 [mreq | e]] eqn:E; apply prepareAdd_stored in E;
    try (by intros [= <- _]); intros ->%unreadable_keeps; done.
Qed.

Lemma resolve_stored s name s' r : resolveMulticastInterface s name = (s', r) -> stored s' = stored s.
Proof.
  unfold resolveMulticastInterface; destruct (InterfaceByName s name) as [s1 [iff | e]] eqn:E; apply by_name_stored in E;
    [destruct (if_up iff), (if_multicast iff) |]; cbn; by intros [= <- _].
Qed.

Lemma JoinSourceOn_stored s p group source name s' err : JoinSourceOn s p group source name = Ret (s', err) ->
  stored s' = stored s.
Proof.
  unfold JoinSourceOn; destruct (parseMulticastIP group) as [mip | e]; [| by intros [= <- _]].
  destruct (parseSource source) as [sip | e]; [| by intros [= <- _]].
  assert (exists s1 r, (if decide (name = EmptyString) then (s, inl None) else
    let '(s, r) := resolveMulticastInterface s name in (s, match r with inl iff => inl (Some iff) | inr e => inr e end))
    = (s1, r) /\ stored s1 = stored s) as (s1 & r & -> & E).
  { case_decide; [by eexists _, _ |]; destruct (resolveMulticastInterface s name) as [s1 r] eqn:E.
    apply resolve_stored in E; by eexists _, _. }
  destruct r as [iff | e]; [| intros [= <- _]; done].
  destruct (Is4 mip || Is4In6 mip); [intros [= Hj]; apply joinIPv4_stored in Hj; congruence |].
  destruct (Is6 mip); [done |]; intros [= <- _]; done.
Qed.

Lemma LeaveSource_stored s p group source s' err : LeaveSource s p group source = Ret (s', err) -> stored s' = stored s.
Proof.
  unfold LeaveSource; destruct (parseMulticastIP group) as [mip | e]; [| by intros [= <- _]].
  destruct (parseSource source) as [sip | e]; [| by intros [= <- _]].
  destruct (Is4 mip || Is4In6 mip); [| destruct (Is6 mip); [done |]; by intros [= <- _]].
  unfold leaveIPv4, DropMembership, DropSourceMembership; case_decide; intros [= Hs]; by apply unreadable_keeps in Hs.
Qed.

Lemma withSource_stored s p group source set s' err :
  (forall s fd a b s' err, set s fd a b = (s', err) -> stored s' = stored s) ->
  withSource s p group source set = Ret (s', err) -> stored s' = stored s.
Proof.
  intros Hset; unfold withSource; destruct (parseMulticastIP group) as [mip | e]; [| by intros [= <- _]].
  destruct (parseIP source) as [sip | e]; [| by intros [= <- _]].
  destruct (Is4 mip || Is4In6 mip); [intros [= Hs]; by eapply Hset |].
  destruct (Is6 mip); [done |]; by intros [= <- _].
Qed.

(** A readable option was set, or not. *)
Lemma set_cases s fd o v s' err : readable IPPROTO_IP o -> sys_setsockopt s fd IPPROTO_IP o v = (s', err) ->
  match err with
  | Some _ => stored s' = stored s
  | None => stored s' fd o = v /\ forall o', o' <> o -> stored s' fd o' = stored s fd o'
  end.
Proof.
  intros Hr E; destruct err as [e |]; [eapply set_keeps; [| exact E]; by right |].
  pose proof (set_stores _ _ _ _ _ _ Hr E) as Hs; split; [by rewrite Hs, decide_True |].
  intros o' Hne; by rewrite Hs, decide_False by tauto.
Qed.

Lemma SetLoop_agrees s p b s' p' err loopSet : agrees s p loopSet -> SetLoop s p b = (s', p', err) ->
  agrees s' p' (match err with None => true | Some _ => loopSet end).
Proof.
  intros Ha; unfold SetLoop, SetMulticastLoop, SetsockoptInt.
  destruct (sys_setsockopt s _ _ _ _) as [s1 [e |]] eqn:E; apply set_cases in E; try (split; tauto);
    intros [= <- <- <-]; [by eapply agrees_stored |].
  destruct E as [E1 E2], Ha; split; cbn [cfg_fd ttl outboundIP loop]; rewrite ?E1, ?E2 by discriminate; [done | done |].
  rewrite bytes_int_bytes by (destruct b; cbn; lia); by destruct b.
Qed.

Lemma SetTTL_agrees s p t s' p' err loopSet : 0 <= t <= 255 -> agrees s p loopSet -> SetTTL s p t = (s', p', err) ->
  agrees s' p' loopSet.
Proof.
  intros Ht Ha; unfold SetTTL, SetMulticastTTL, SetsockoptInt.
  destruct (sys_setsockopt s _ _ _ _) as [s1 [e |]] eqn:E; apply set_cases in E; try (split; tauto);
    intros [= <- <- <-]; [by eapply agrees_stored |].
  destruct E as [E1 E2], Ha; split; cbn [cfg_fd ttl outboundIP loop]; rewrite ?E1, ?E2 by discriminate; [| done | done].
  apply bytes_int_bytes; lia.
Qed.

Lemma SetAll_agrees s p b s' p' err loopSet : agrees s p loopSet -> SetAll s p b = (s', p', err) ->
  agrees s' p' loopSet.
Proof.
  intros Ha; unfold SetAll, SetMulticastAll; destruct (sys_setsockopt s _ _ _ _) as [s1 [e |]] eqn:E;
    apply unreadable_keeps in E; try done; intros [= <- <- <-]; [by eapply agrees_stored |].
  destruct Ha; split; cbn [cfg_fd ttl outboundIP loop]; by rewrite E.
Qed.

Lemma SetOutbound_agrees s p name s' p' err loopSet : agrees s p loopSet -> SetOutboundIPv4 s p name = (s', p', err) ->
  agrees s' p' loopSet.
Proof.
  intros Ha; unfold SetOutboundIPv4; destruct (resolveMulticastInterface s name) as [s1 [iff | e]] eqn:E;
    apply resolve_stored in E; apply (agrees_stored s s1 p loopSet E) in Ha; [| by intros [= <- <- <-]].
  unfold SetMulticastInterface; destruct (if_multicast iff); [| by intros [= <- <- <-]].
  destruct (Addrs s1 iff) as [s2 [addrs | e]] eqn:E2; apply addrs_stored in E2;
    apply (agrees_stored s1 s2 p loopSet E2) in Ha; [| by intros [= <- <- <-]].
  destruct (find_interface_addr addrs []) as [ip |]; [| by intros [= <- <- <-]].
  destruct (sys_setsockopt s2 _ _ _ _) as [s3 [e |]] eqn:E3; apply set_cases in E3; try (split; tauto);
    intros [= <- <- <-]; [by eapply agrees_stored |].
  destruct E3 as [E3 E4], Ha; split; cbn [cfg_fd ttl outboundIP loop]; rewrite ?E3, ?E4 by discriminate; done.
Qed.

Lemma SetInbound_agrees s p name s' p' err loopSet : agrees s p loopSet -> SetInbound s p name = (s', p', err) ->
  agrees s' p' loopSet.
Proof.
  intros Ha; unfold SetInbound, BindToDevice; destruct (InterfaceByName s name) as [s1 [iff | e]] eqn:E;
    apply by_name_stored in E; apply (agrees_stored s s1 p loopSet E) in Ha; [| intros [= <- <- <-]; by destruct Ha].
  destruct (sys_setsockopt s1 _ _ _ _) as [s2 err2] eqn:E2.
  assert (stored s2 = stored s1) as E3 by (eapply set_keeps; [left; intros [? _] | exact E2]; done).
  apply (agrees_stored s1 s2 p loopSet E3) in Ha; destruct err2; intros [= <- <- <-]; by destruct Ha.
Qed.

Lemma apply_setting_agrees s p op s' p' err loopSet : (forall t, op = OpTTL t -> 0 <= t <= 255) ->
  agrees s p loopSet -> apply_setting s p op = Ret (s', p', err) ->
  agrees s' p' (loop_set loopSet op err).
Proof.
  intros Ht Ha; destruct op as [b | t | b | name | name | g src name | g src | g src | g src]; cbn [apply_setting].
  - intros [= E]; pose proof (SetLoop_agrees _ _ _ _ _ _ _ Ha E); by destruct err.
  - intros [= E]; eapply SetTTL_agrees; [by apply Ht | done | done].
  - intros [= E]; by eapply SetAll_agrees.
  - intros [= E]; by eapply SetOutbound_agrees.
  - intros [= E]; by eapply SetInbound_agrees.
  - intros ([s1 e] & E%JoinSourceOn_stored & [= <- <- <-])%res_bind_inv; by eapply agrees_stored.
  - intros ([s1 e] & E%LeaveSource_stored & [= <- <- <-])%res_bind_inv; by eapply agrees_stored.
  - intros ([s1 e] & E & [= <- <- <-])%res_bind_inv; eapply agrees_stored, Ha; eapply withSource_stored, E.
    intros *; by apply unreadable_keeps.
  - intros ([s1 e] & E & [= <- <- <-])%res_bind_inv; eapply agrees_stored, Ha; eapply withSource_stored, E.
    intros *; by apply unreadable_keeps.
Qed.

Lemma apply_settings_agree ops : forall s p loopSet s' p' loopSet', Forall (fun op => forall t, op = OpTTL t -> 0 <= t <= 255) ops ->
  agrees s p loopSet -> apply_settings s p loopSet ops = Ret (s', p', loopSet') -> agrees s' p' loopSet'.
Proof.
  induction ops as [| op ops IH]; intros s p loopSet s' p' loopSet' Hops Ha; cbn [apply_settings]; [by intros [= <- <- <-] |].
  apply list.Forall_cons in Hops as [Hop Hops]; intros ([[s1 p1] err] & E & Hr)%res_bind_inv.
  eapply IH; [done | | exact Hr]; by eapply apply_setting_agrees.
Qed.

(** The settings a new IPv4 peer starts with. *)
Lemma configure_agrees s p s' p' : configure_ipv4 s p = (s', inl p') ->
  bytes_int (stored s' (cfg_fd p) IP_MULTICAST_TTL) = ttl p -> agrees s' p' false.
Proof.
  unfold configure_ipv4, GetMulticastInterfaceAddr, GetMulticastLoop, GetsockoptInt, SetMulticastAll.
  destruct (sys_getsockopt s _ _ _ _) as [s1 [b1 | e]] eqn:E1; [| done]; apply get_stored in E1 as [E1 G1].
  destruct (sys_getsockopt s1 _ _ _ _) as [s2 [b2 | e]] eqn:E2; [| done]; apply get_stored in E2 as [E2 G2].
  destruct (sys_setsockopt s2 _ _ _ _) as [s3 [e |]] eqn:E3; [done |]; apply unreadable_keeps in E3; try done.
  specialize (G1 ltac:(split; tauto) _ eq_refl); specialize (G2 ltac:(split; tauto) _ eq_refl).
  intros [= <- <-] Ht; split; cbn [cfg_fd ttl outboundIP loop]; [done | |]; rewrite E3, E2, E1.
  - congruence.
  - rewrite G2, E1; cbn; repeat case_bool_decide; done.
Qed.

(** C28: A new IPv4 peer, whose kernel default for the TTL is 1, keeps knowing its settings:
    after any sequence of the operations on settings and memberships, succeeding or failing,
    [TTL] and the IP of [Outbound] are what the kernel uses.  [Loop] is too once [SetLoop]
    has succeeded; until then it is the opposite, because [GetMulticastLoop] is inverted. *)
Theorem peer_settings_agree s network addr s1 p ops s2 p2 loopSet :
  NewUDPPeer s network addr = Ret (s1, inl p) -> ipv p = 4 ->
  bytes_int (stored s1 (cfg_fd p) IP_MULTICAST_TTL) = 1 ->
  Forall (fun op => forall t, op = OpTTL t -> 0 <= t <= 255) ops ->
  apply_settings s1 p false ops = Ret (s2, p2, loopSet) -> agrees s2 p2 loopSet.
Proof.
  intros Hn Hv Ht Hops Ha; eapply apply_settings_agree; [exact Hops | | exact Ha].
  unfold NewUDPPeer in Hn; destruct (resolve s network addr) as [s3 [a | e]]; [| done].
  destruct (peer_ip network (r_ip a)) as [ip |]; [| done]; destruct (NewSocket _ _ _) as [s4 [fd | e]]; [| done].
  destruct (prepare_socket s4 fd) as [s5 [e |]]; [done |]; apply res_bind_inv in Hn as ([s6 [e |]] & _ & Hn); [done |].
  destruct (sys_getsockname s6 fd) as [s7 [sa | e]]; [| done]; destruct (local_of sa) as [[la v] |]; [| done].
  case_decide as Hv4; [| by injection Hn as <- <-]; injection Hn as Hn.
  assert (cfg_fd p = fd /\ ttl p = 1) as [Hfd _].
  { revert Hn; unfold configure_ipv4; destruct (GetMulticastInterfaceAddr _ _) as [? [? |]]; [| done].
    destruct (GetMulticastLoop _ _) as [? [? |]]; [| done]; destruct (SetMulticastAll _ _ _) as [? [? |]]; [done |].
    by intros [= <- <-]. }
  eapply configure_agrees; [exact Hn | cbn; by rewrite <-Hfd].
Qed.
End settings.

(** * Instances *)

(** Every interface has an IPv6 address and 10.0.0.5. *)
Definition sim_addrs : list ifAddr :=
  [IPNet (Byte.xfe :: Byte.x80 :: replicate 13 Byte.x00 ++ [Byte.x01]);
   IPNet (v4InV6Prefix ++ [Byte.x0a; Byte.x00; Byte.x00; Byte.x05])].

#[export] Instance sim_Interfaces : Interfaces net_sim := {|
  InterfaceByName s name := (s, inl (mkInterface name true true)); Addrs s iff := (s, inl sim_addrs) |}.

Definition sim_stored (s : net_sim) (fd o : Z) : list byte :=
  if decide (readable IPPROTO_IP o) then default (sim_default o) (sim_opts s !! (fd, IPPROTO_IP, o)) else [].

#[export] Instance sim_OptionStore : OptionStore net_sim.
Proof.
  refine {| stored := sim_stored |}.
  - intros s fd l o v s' [-> Ho] E fd' o'; cbn in E; injection E as <-; unfold sim_stored; cbn [sim_opts].
    destruct (decide (fd' = fd /\ o' = o)) as [[-> ->] | Hne].
    + rewrite decide_True by (split; tauto); by rewrite lookup_insert_eq.
    + rewrite lookup_insert_ne; [done |]; intros [= -> ->]; tauto.
  - intros s fd l o v s' err [Hr | He] E; cbn in E; injection E as <- <-; [| done].
    apply functional_extensionality; intros fd'; apply functional_extensionality; intros o'; unfold sim_stored; cbn [sim_opts].
    case_decide; [| done]; rewrite lookup_insert_ne; [done |]; intros [= -> -> ->]; tauto.
  - intros s fd l o n s' r E; cbn in E; injection E as <- <-; split; [done |]; intros [-> Ho] bs.
    unfold sim_getsockopt; rewrite decide_False by (by intros [? _]); intros [= <-].
    unfold sim_stored; by rewrite (decide_True (P := readable IPPROTO_IP o)) by (split; tauto).
  - intros s name s' r E; by injection E as <- _.
  - intros s iff s' r E; by injection E as <- _.
Defined.

Definition sim_peer (s : net_sim) : peerConfig :=
  mkPeerConfig 3 (UDPAddr (replicate 4 Byte.x00) 9000) 4 None (AddrFrom4 zero4) None true 1 false.

Lemma membership_requests_witness : Join (fresh_sim []) (sim_peer (fresh_sim [])) "224.0.1.0" =
  Ret (sys_setsockopt (fresh_sim []) 3 IPPROTO_IP IP_ADD_MEMBERSHIP
    [Byte.xe0; Byte.x00; Byte.x01; Byte.x00; Byte.x00; Byte.x00; Byte.x00; Byte.x00]).
Proof.
  apply (membership_requests (fresh_sim []) (sim_peer (fresh_sim [])) "224.0.1.0" "10.0.0.7"
    [Byte.xe0; Byte.x00; Byte.x01; Byte.x00] [Byte.x0a; Byte.x00; Byte.x00; Byte.x07]); reflexivity.
Defined.

Lemma join_on_interface_witness : JoinOn (fresh_sim []) (sim_peer (fresh_sim [])) "224.0.1.0" "eth0" =
  Ret (sys_setsockopt (fresh_sim []) 3 IPPROTO_IP IP_ADD_MEMBERSHIP
    [Byte.xe0; Byte.x00; Byte.x01; Byte.x00; Byte.x0a; Byte.x00; Byte.x00; Byte.x05]).
Proof.
  apply (join_on_interface (fresh_sim []) (fresh_sim []) (fresh_sim []) (sim_peer (fresh_sim [])) "224.0.1.0" "eth0"
    [Byte.xe0; Byte.x00; Byte.x01; Byte.x00] (v4InV6Prefix ++ [Byte.x0a; Byte.x00; Byte.x00; Byte.x05])
    (mkInterface "eth0" true true) (firstn 1 sim_addrs) []); try reflexivity; try discriminate.
  vm_compute; constructor; [split; reflexivity | constructor].
Defined.

Lemma mapped_group_lost_witness : Join (fresh_sim []) (sim_peer (fresh_sim [])) "::ffff:224.0.1.0" =
  Ret (sys_setsockopt (fresh_sim []) 3 IPPROTO_IP IP_ADD_MEMBERSHIP (zero4 ++ zero4)).
Proof.
  apply (mapped_group_lost (fresh_sim []) (sim_peer (fresh_sim [])) "::ffff:224.0.1.0"
    [Byte.xe0; Byte.x00; Byte.x01; Byte.x00]); reflexivity.
Defined.

Lemma outbound_is_any_witness : exists s3 p', SetOutboundIPv4 (fresh_sim []) (sim_peer (fresh_sim [])) "eth0" = (s3, p', None) /\
  outboundIP p' = AddrFrom4 zero4.
Proof.
  destruct (outbound_is_any (fresh_sim []) (fresh_sim []) (fresh_sim []) (sim_peer (fresh_sim [])) "eth0"
    [Byte.x0a; Byte.x00; Byte.x00; Byte.x05] (mkInterface "eth0" true true) (firstn 1 sim_addrs) []) as
    (s3 & err & p' & E & H1 & H2); try reflexivity.
  - vm_compute; constructor; [split; reflexivity | constructor].
  - exists s3, p'; split; [exact H1 |]; cbn in E; injection E as <- <-; apply H2.
Defined.

(** A peer whose TTL is raised, which joins a group and selects an interface. *)
Definition some_settings : list setting :=
  [OpTTL 7; OpJoin "224.0.1.0" "" "eth0"; OpOutbound "eth0"; OpLoop false; OpLeave "224.0.1.0" ""].

Lemma peer_settings_agree_witness : exists s1 p s2 p2, NewUDPPeer (fresh_sim []) "udp" "host:9000" = Ret (s1, inl p) /\
  apply_settings s1 p false some_settings = Ret (s2, p2, true) /\ agrees s2 p2 true.
Proof.
  destruct (NewUDPPeer (fresh_sim []) "udp" "host:9000") as [[s1 [p | e]] | |] eqn:E; [| discriminate E ..].
  destruct (apply_settings s1 p false some_settings) as [[[s2 p2] b] | |] eqn:E2;
    vm_compute in E; injection E as <- <-; vm_compute in E2; [| discriminate E2 ..].
  injection E2 as <- <- <-; eexists _, _, _, _; split; [reflexivity |]; split; [vm_compute; reflexivity |].
  eapply (peer_settings_agree (fresh_sim []) "udp" "host:9000" _ _ some_settings);
    [vm_compute; reflexivity | reflexivity | vm_compute; reflexivity | | vm_compute; reflexivity].
  apply list.Forall_forall; intros op Hop t ->; apply list_elem_of_In in Hop; cbn in Hop; intuition (congruence || (simplify_eq; lia)).
Defined.
