(* ===== verification/SocketDevice.v ===== *)
(** The rest of [Socket] in [src/socket.go] and its binding to a device in
    [src/socket_linux.go]: the object with its descriptor and the interface it is bound to. *)

From stdpp Require Import gmap strings.
From Stdlib Require Import String.
From S2P Require Import Prelude NetAddr ParseAddr SocketOpts EventLoop Poller Sockets SocketsSpec Multicast MulticastSpec.

Inductive SocketProtocol : Type := SocketProtocolTCP | SocketProtocolUDP.

Record Socket : Type := mkSocket {
  so_domain : SocketDomain; so_type : SocketType; so_protocol : SocketProtocol; so_fd : Z; boundInterface : option Interface }.

(** [fmt.Errorf("NoDelay is a TCP protocol specific socket option")]. *)
Definition errNotTCP : error := ErrOther (-40).
Definition EINVAL : error := ErrOther 22.
Definition IFNAMSIZ : Z := 16.

Section socket.
Context {S : Type} `{!System S} `{!Sockets S} `{!Interfaces S}.
Implicit Types (s : S) (k : Socket).

Definition Socket_New s (domain : SocketDomain) (socketType : SocketType) (protocol : SocketProtocol) : S * (Socket + error) :=
  let '(s, r) := NewSocket s domain socketType in
  (s, match r with inl fd => inl (mkSocket domain socketType protocol fd None) | inr e => inr e end).

Definition SetNoDelay s k (delay : bool) : S * option error :=
  match so_protocol k with
  | SocketProtocolTCP => SetsockoptInt s (so_fd k) IPPROTO_TCP TCP_NODELAY (b2i delay)
  | SocketProtocolUDP => (s, Some errNotTCP)
  end.

Definition Socket_Close s k : S * Socket * option error :=
  if decide (0 <= so_fd k) then
    let '(s, err) := sys_close s (so_fd k) in
    (s, mkSocket (so_domain k) (so_type k) (so_protocol k) (-1) (boundInterface k), err)
  else (s, k, None).

Definition set_bound k (iff : option Interface) : Socket :=
  mkSocket (so_domain k) (so_type k) (so_protocol k) (so_fd k) iff.

(** [BindToDevice] of [Multicast.v] with the field it sets. *)
Definition Socket_BindToDevice s k (name : string) : S * Socket * (Interface + error) :=
  let '(s, r) := BindToDevice s (so_fd k) name in
  (s, match r with inl iff => set_bound k (Some iff) | inr _ => k end, r).

(** The option is set to nothing: the length given is 0. *)
Definition UnbindFromDevice s k : S * Socket * option error :=
  match boundInterface k with
  | None => (s, k, None)
  | Some _ =>
      let '(s, err) := sys_setsockopt s (so_fd k) SOL_SOCKET SO_BINDTODEVICE [] in
      (s, match err with None => set_bound k None | Some _ => k end, err)
  end.

(** The length given for the buffer is 0. *)
Definition GetBoundDevice s (fd : Z) : S * (list byte + error) :=
  let '(s, r) := sys_getsockopt s fd SOL_SOCKET SO_BINDTODEVICE 0 in
  (s, match r with inl into => inl into | inr e => inr e end).
End socket.

(** What socket(7) says of SO_BINDTODEVICE: the name is stored, an empty one or a length of
    zero removes the binding, and reading it takes a buffer of [IFNAMSIZ] bytes. *)
Class DeviceStore (S : Type) `{!System S} `{!Sockets S} `{!Interfaces S} := {
  device : S -> Z -> option (list byte);
  set_device : forall s fd v s' err, sys_setsockopt s fd SOL_SOCKET SO_BINDTODEVICE v = (s', err) ->
    forall fd', device s' fd' =
      if decide (fd' = fd /\ err = None) then (if decide (v = []) then None else Some v) else device s fd';
  get_device : forall s fd n s' r, sys_getsockopt s fd SOL_SOCKET SO_BINDTODEVICE n = (s', r) ->
    r = match device s fd with
        | None => inl []
        | Some v => if decide (n < IFNAMSIZ) then inr EINVAL else inl (v ++ [Byte.x00])
        end
}.

Lemma string_bytes_nil str : string_bytes str = [] -> str = EmptyString.
Proof. by destruct str. Qed.

(** C37: binding a socket to a device tells the kernel the name of the interface and records
    the interface in the object; on an error, of the look-up or of the system call, neither
    the object nor the binding of any socket changes.  The call [UnbindFromDevice] makes is
    the one socket(7) documents for removing a binding (its comment says it does not work):
    where the system accepts it the socket is unbound, in the kernel and in the object, and
    where it refuses neither changes.  [GetBoundDevice] never tells the name: it offers a
    buffer of length 0, so it fails while the socket is bound and returns the empty string
    when it is not.  [Close] closes the descriptor once; a second call does nothing.  The
    socket is open and not bound before, and looking up an interface changes no binding and
    finds one with a name. *)
Theorem socket_device {S : Type} `{!System S} `{!Sockets S} `{!Interfaces S} `{!DeviceStore S} (s : S) (k : Socket) (name : string) :
  0 <= so_fd k -> boundInterface k = None -> device s (so_fd k) = None ->
  (forall s' r, InterfaceByName s name = (s', r) ->
     (forall fd, device s' fd = device s fd) /\ (forall iff, r = inl iff -> if_name iff <> EmptyString)) ->
  match Socket_BindToDevice s k name with
  | (s1, k1, inr _) => k1 = k /\ forall fd, device s1 fd = device s fd
  | (s1, k1, inl iff) =>
      boundInterface k1 = Some iff /\
      (forall fd, device s1 fd = if decide (fd = so_fd k) then Some (string_bytes (if_name iff)) else device s fd) /\
      (GetBoundDevice s1 (so_fd k1)).2 = inr EINVAL /\
      match UnbindFromDevice s1 k1 with
      | (s2, k2, Some _) => k2 = k1 /\ forall fd, device s2 fd = device s1 fd
      | (s2, k2, None) => k2 = k /\ (forall fd, device s2 fd = device s fd) /\ (GetBoundDevice s2 (so_fd k2)).2 = inl []
      end
  end /\
  let '(s1, k1, err) := Socket_Close s k in
  so_fd k1 = -1 /\ socks s1 = delete (so_fd k) (socks s) /\ Socket_Close s1 k1 = (s1, k1, None).
Proof.
  intros Hfd Hb Hd Hn; split.
  - unfold Socket_BindToDevice, BindToDevice; destruct (InterfaceByName s name) as [s' [iff | e]] eqn:Ei;
      destruct (Hn _ _ eq_refl) as [Hd' Hne]; [| by split].
    destruct (sys_setsockopt s' _ _ _ _) as [s1 [e |]] eqn:E1; pose proof (set_device _ _ _ _ _ E1) as D1.
    { split; [done |]; intros fd; rewrite D1, decide_False by (by intros [_ ?]); apply Hd'. }
    assert (forall fd, device s1 fd = if decide (fd = so_fd k) then Some (string_bytes (if_name iff)) else device s fd) as D.
    { intros fd; rewrite D1; destruct (decide (fd = so_fd k)) as [-> |].
      - rewrite decide_True, decide_False by (done || by intros ?%string_bytes_nil%(Hne _ eq_refl)); done.
      - rewrite decide_False by (by intros [? _]); apply Hd'. }
    pose proof (D (so_fd k)) as Dk; rewrite decide_True in Dk by done.
    split_and!; [done | done | |].
    + unfold GetBoundDevice; cbn [so_fd set_bound]; destruct (sys_getsockopt s1 _ _ _ _) as [s2 r] eqn:E2.
      apply get_device in E2; rewrite Dk in E2; by subst r.
    + unfold UnbindFromDevice; cbn [boundInterface set_bound so_fd]; destruct (sys_setsockopt s1 _ _ _ _) as [s2 [e |]] eqn:E2;
        pose proof (set_device _ _ _ _ _ E2) as D2.
      { split; [done |]; intros fd; by rewrite D2, decide_False by (by intros [_ ?]). }
      assert (forall fd, device s2 fd = device s fd) as D3.
      { intros fd; rewrite D2, D; destruct (decide (fd = so_fd k)) as [-> |].
        - by rewrite decide_True by done.
        - by rewrite decide_False by (by intros [? _]). }
      split_and!; [destruct k; cbn in *; by subst | done |].
      unfold GetBoundDevice; cbn [so_fd set_bound]; destruct (sys_getsockopt s2 _ _ _ _) as [s3 r] eqn:E3.
      apply get_device in E3; rewrite D3, Hd in E3; by subst r.
  - unfold Socket_Close at 1; rewrite decide_True by done; destruct (sys_close s (so_fd k)) as [s1 err] eqn:E.
    split_and!; [done | by eapply close_socks | done].
Qed.

#[export] Instance sim_DeviceStore : DeviceStore net_sim.
Proof.
  refine {| device := fun s fd => match sim_opts s !! (fd, SOL_SOCKET, SO_BINDTODEVICE) with Some (b :: v) => Some (b :: v) | _ => None end |}.
  - intros s fd v s' err E fd'; cbn in E; injection E as <- <-; cbn [sim_opts].
    destruct (decide (fd' = fd)) as [-> | Hne].
    + rewrite lookup_insert_eq, decide_True by done; by destruct v.
    + rewrite lookup_insert_ne, decide_False by (by intros [? _] || congruence); done.
  - intros s fd n s' r E; cbn in E; injection E as <- <-; unfold sim_getsockopt; rewrite decide_True by done.
    destruct (sim_opts s !! _) as [[| b v] |]; [done | | done]; done.
Defined.

Lemma socket_device_witness :
  let k := mkSocket SocketDomainIPv4 SocketTypeDatagram SocketProtocolUDP 3 None in
  exists s1 k1 iff, Socket_BindToDevice (fresh_sim []) k "eth0" = (s1, k1, inl iff) /\
    device s1 3 = Some (string_bytes "eth0") /\ (GetBoundDevice s1 3).2 = inr EINVAL.
Proof.
  intros k; destruct (socket_device (fresh_sim []) k "eth0") as [Hb _];
    [cbn; lia | reflexivity | reflexivity | intros s' r [= <- <-]; split; [done | by intros iff [= <-]] |].
  destruct (Socket_BindToDevice (fresh_sim []) k "eth0") as [[s1 k1] [iff | e]] eqn:E; [| discriminate E].
  destruct Hb as (_ & Hd & Hg & _); exists s1, k1, iff; assert (if_name iff = "eth0"%string /\ so_fd k1 = 3) as [Hi Hf] by (by injection E as <- <- <-).
  specialize (Hd 3); rewrite Hi in Hd; rewrite Hf in Hg; split_and!; [reflexivity | exact Hd | exact Hg].
Defined.
