(* ===== verification/HandshakeKeys.v ===== *)
(** The keys of the opening handshake: [src/codec/websocket/util.go] and [makeHandshakeKey] of
    [stream.go], over SHA-1 (FIPS 180-4) and base64 (RFC 4648, section 4) as Go's
    [crypto/sha1] and [encoding/base64] compute them. *)

From Stdlib Require Import Strings.String.
From S2P Require Import Prelude.

(** * SHA-1 *)

Definition u32 (z : Z) : Z := z mod 2 ^ 32.
Definition rotl32 (n x : Z) : Z := u32 (Z.lor (Z.shiftl x n) (Z.shiftr x (32 - n))).

(** The message, a one bit, zeros up to 56 bytes modulo 64, and the length in bits. *)
Definition sha1_pad (m : list byte) : list byte :=
  let zeros := Z.to_nat ((55 - zlen m) mod 64) in
  m ++ [Byte.x80] ++ replicate zeros Byte.x00 ++ be_encode 8 (8 * zlen m).

(** [sublists k n xs]: the first [n] pieces of [k] elements. *)
Fixpoint sublists {A} (k n : nat) (xs : list A) : list (list A) :=
  match n with
  | O => []
  | S n => take k xs :: sublists k n (drop k xs)
  end.

(** The message schedule, last word first. *)
Fixpoint schedule (n : nat) (w : list Z) : list Z :=
  match n with
  | O => w
  | S n =>
      let at' i := nth i w 0 in
      schedule n (rotl32 1 (Z.lxor (Z.lxor (at' 2%nat) (at' 7%nat)) (Z.lxor (at' 13%nat) (at' 15%nat))) :: w)
  end.

Definition sha1_f (t b c d : Z) : Z :=
  if decide (t < 20) then Z.lor (Z.land b c) (Z.land (Z.lxor b (2 ^ 32 - 1)) d)
  else if decide (t < 40) then Z.lxor b (Z.lxor c d)
  else if decide (t < 60) then Z.lor (Z.land b c) (Z.lor (Z.land b d) (Z.land c d))
  else Z.lxor b (Z.lxor c d).

Definition sha1_k (t : Z) : Z :=
  if decide (t < 20) then 1518500249
  else if decide (t < 40) then 1859775393
  else if decide (t < 60) then 2400959708
  else 3395469782.

Definition sha1_round (acc : Z * (Z * Z * Z * Z * Z)) (w : Z) : Z * (Z * Z * Z * Z * Z) :=
  let '(t, (a, b, c, d, e)) := acc in
  (t + 1, (u32 (rotl32 5 a + sha1_f t b c d + e + w + sha1_k t), a, rotl32 30 b, c, d)).

Definition sha1_block (h : Z * Z * Z * Z * Z) (block : list byte) : Z * Z * Z * Z * Z :=
  let words := be_decode <$> sublists 4 16 block in
  let '(_, (a, b, c, d, e)) := foldl sha1_round (0, h) (rev (schedule 64 (rev words))) in
  let '(h0, h1, h2, h3, h4) := h in
  (u32 (h0 + a), u32 (h1 + b), u32 (h2 + c), u32 (h3 + d), u32 (h4 + e)).

Definition sha1 (m : list byte) : list byte :=
  let p := sha1_pad m in
  let '(h0, h1, h2, h3, h4) :=
    foldl sha1_block (1732584193, 4023233417, 2562383102, 271733878, 3285377520)
      (sublists 64 (Z.to_nat (zlen p / 64)) p) in
  be_encode 4 h0 ++ be_encode 4 h1 ++ be_encode 4 h2 ++ be_encode 4 h3 ++ be_encode 4 h4.

(** * Base64 *)

Definition base64_alphabet : list byte :=
  list_byte_of_string "ABCDEFGHIJKLMNOPQRSTUVWXYZabcdefghijklmnopqrstuvwxyz0123456789+/".
Definition base64_digit (z : Z) : byte := nth (Z.to_nat (Z.land z 63)) base64_alphabet Byte.x00.

Fixpoint base64 (m : list byte) : list byte :=
  match m with
  | a :: b :: c :: m =>
      let v := be_decode [a; b; c] in
      base64_digit (Z.shiftr v 18) :: base64_digit (Z.shiftr v 12) ::
        base64_digit (Z.shiftr v 6) :: base64_digit v :: base64 m
  | [a; b] =>
      let v := be_decode [a; b; Byte.x00] in
      [base64_digit (Z.shiftr v 18); base64_digit (Z.shiftr v 12); base64_digit (Z.shiftr v 6); Byte.x3d]
  | [a] =>
      let v := be_decode [a; Byte.x00; Byte.x00] in
      [base64_digit (Z.shiftr v 18); base64_digit (Z.shiftr v 12); Byte.x3d; Byte.x3d]
  | [] => []
  end.

(** [base64.StdEncoding.EncodeToString]. *)
Definition EncodeToString (m : list byte) : string := string_of_list_byte (base64 m).

(** * The keys *)

Definition GUID : list byte := list_byte_of_string "258EAFA5-E914-47DA-95CA-C5AB0DC85B11".

(** The random bytes are arguments. *)
Definition MakeRequestKey (rand : list byte) : string := EncodeToString rand.

Definition MakeResponseKey (reqKey : list byte) : string := EncodeToString (sha1 (reqKey ++ GUID)).

(** The hasher of the stream is reset before it is used. *)
Definition makeHandshakeKey (rand : list byte) : string * string :=
  let req := EncodeToString rand in
  (req, EncodeToString (sha1 (list_byte_of_string req ++ GUID))).

(** What the client expects is what a server makes of the key the client sent. *)
Lemma handshake_keys_match rand :
  makeHandshakeKey rand = (MakeRequestKey rand, MakeResponseKey (list_byte_of_string (MakeRequestKey rand))).
Proof. done. Qed.

(** The empty message and "abc" of FIPS 180, and the example of RFC 6455, section 1.3. *)
Example key_vectors :
  EncodeToString (sha1 []) = "2jmj7l5rSw0yVb/vlWAYkK/YBwk="%string /\
  EncodeToString (sha1 (list_byte_of_string "abc")) = "qZk+NkcGgWq6PiVxeFDCbJzQ2J0="%string /\
  makeHandshakeKey (list_byte_of_string "the sample nonce") =
    ("dGhlIHNhbXBsZSBub25jZQ=="%string, "s3pPLMBiTxaQ9kYGzzhZRbK+xOo="%string).
Proof. vm_compute. done. Qed.
