(* ===== verification/Handshake.v ===== *)
(** The opening handshake of [src/codec/websocket/stream.go]: [Handshake] with [resolve], [dial]
    and [upgrade].

    Dialling, TLS, the parsing of URLs and the reading and writing of HTTP messages are
    parameters ([Network] and [Http]); the headers are modelled with their canonical keys. *)

From Stdlib Require Import Strings.String Strings.Ascii.
From stdpp Require Import gmap strings.
From S2P Require Import Prelude GoSlice GoIO ByteBuffer WebsocketFrame WebsocketCodec WebsocketStream NetAddr EventLoop SocketOpts Sockets HandshakeKeys.

(** * [net/http.Header] *)

Definition byte_in (lo hi : Z) (b : byte) : bool := bool_decide (lo <= b2z b <= hi).
Definition is_lower (b : byte) : bool := byte_in 97 122 b.
Definition is_upper (b : byte) : bool := byte_in 65 90 b.

(** The bytes of a token (RFC 7230, section 3.2.6). *)
Definition validHeaderFieldByte (b : byte) : bool :=
  is_lower b || is_upper b || byte_in 48 57 b ||
  bool_decide (b2z b ∈ b2z <$> list_byte_of_string "!#$%&'*+-.^_`|~").

Fixpoint canonical (upper : bool) (bs : list byte) : list byte :=
  match bs with
  | [] => []
  | b :: bs =>
      let c := if upper && is_lower b then z2b (b2z b - 32)
               else if negb upper && is_upper b then z2b (b2z b + 32) else b in
      c :: canonical (bool_decide (c = Byte.x2d)) bs
  end.

Definition CanonicalHeaderKey (key : string) : string :=
  let bs := list_byte_of_string key in
  if forallb validHeaderFieldByte bs then string_of_list_byte (canonical true bs) else key.

Abbreviation header := (gmap string (list string)).

Definition header_values (h : header) (key : string) : list string := default [] (h !! key).
Definition header_Get (h : header) (key : string) : string :=
  match header_values h (CanonicalHeaderKey key) with
  | v :: _ => v
  | [] => EmptyString
  end.
Definition header_Set (h : header) (key value : string) : header := <[CanonicalHeaderKey key := [value]]> h.
Definition header_Add (h : header) (key value : string) : header :=
  let k := CanonicalHeaderKey key in <[k := header_values h k ++ [value]]> h.
Definition header_Del (h : header) (key : string) : header := delete (CanonicalHeaderKey key) h.

(** [strings.EqualFold(s, t)] for [t] in ASCII: besides the letters of the other case, two
    characters outside ASCII fold to one of it, U+017F to s and U+212A (Kelvin) to k. *)
Fixpoint fold_ascii (bs : list byte) : list byte :=
  match bs with
  | Byte.xc5 :: Byte.xbf :: bs => Byte.x73 :: fold_ascii bs
  | Byte.xe2 :: Byte.x84 :: Byte.xaa :: bs => Byte.x6b :: fold_ascii bs
  | b :: bs => (if is_upper b then z2b (b2z b + 32) else b) :: fold_ascii bs
  | [] => []
  end.
Definition EqualFold (s t : string) : bool :=
  bool_decide (fold_ascii (list_byte_of_string s) = fold_ascii (list_byte_of_string t)).

(** * What the handshake uses of Go's library *)

(** [Location] is everything else of a [url.URL]. *)
Record URL : Type := mkURL { Scheme : string; Hostname : string; Port : string; Location : string }.

Record Request : Type := mkRequest { req_URL : URL; req_Header : header }.

(** [request_writes] are the writes [Request.Write] makes to the connection, through a
    [bufio.Writer].  [ReadResponse] reads from the bytes it is given and nothing else. *)
Class Http := {
  NewRequest : URL -> option error;
  request_writes : Request -> list (list byte) + error;
  Response : Type;
  StatusCode : Response -> Z;
  res_Header : Response -> header;
  ReadResponse : list byte -> Response + error;
  DumpResponse : Response -> list byte + error
}.

(** [conn_fd] stands for [SyscallConn] and [Control]: the descriptor the function given to
    [Control] is run on. *)
Class Network (S T : Type) := {
  url_Parse : string -> URL + error;
  net_DialTimeout : S -> string -> string -> Z -> S * (T + error);
  tls_DialWithDialer : S -> string -> string -> S * (T + error);
  conn_fd : S -> T -> S * (Z + error)
}.

(** [websocket.Header] and [ExtraHeader]. *)
Record Header : Type := mkHeader { Key : string; Values : list string; CanonicalKey : bool }.
Definition ExtraHeader (canonicalKey : bool) (key : string) (values : list string) : Header :=
  mkHeader key values canonicalKey.

Definition DialTimeout : Z := 5 * 10 ^ 9.

(** Errors made with [fmt.Errorf], and [io.ErrShortWrite]. *)
Definition errNoTLS : error := ErrOther (-40).
Definition errScheme : error := ErrOther (-41).
Definition ErrShortWrite : error := ErrOther (-42).

(** * Requests and responses *)

Definition add_header (h : header) (x : Header) : header :=
  if CanonicalKey x then foldl (fun h v => header_Add h (Key x) v) (header_Del h (Key x)) (Values x)
  else
    let h := delete (Key x) h in
    <[Key x := header_values h (Key x) ++ Values x]> h.

(** The headers of the request, with the key that is sent. *)
Definition upgrade_headers (sentKey : string) (headers : list Header) : header :=
  let h : header := ∅ in
  let h := header_Set h "Upgrade" "websocket" in
  let h := header_Set h "Connection" "upgrade" in
  let h := header_Set h "Sec-WebSocket-Key" sentKey in
  let h := header_Set h "Sec-Websocket-Version" "13" in
  foldl add_header h headers.

Definition IsUpgradeReq (r : Request) : bool := EqualFold (header_Get (req_Header r) "Upgrade") "websocket".

Definition IsUpgradeRes `{Http} (r : Response) : bool :=
  bool_decide (StatusCode r = 101) && EqualFold (header_Get (res_Header r) "Upgrade") "websocket".

(** [resolve]. *)
Definition resolve_url {S T} `{!Network S T} (addr : string) : URL + error :=
  match url_Parse addr with
  | inr e => inr e
  | inl u =>
      if decide (Scheme u = "ws"%string) then inl (mkURL "http" (Hostname u) (Port u) (Location u))
      else if decide (Scheme u = "wss"%string) then inl (mkURL "https" (Hostname u) (Port u) (Location u))
      else inr ErrInvalidAddress
  end.
Arguments resolve_url S T {_} addr.

Definition dial_addr (u : URL) (port : string) : string :=
  (Hostname u +:+ ":" +:+ (if decide (Port u = EmptyString) then port else Port u))%string.

Section handshake_ops.
Context {P T S : Type} `{GoRuntime} `{FramePool P} `{Reader T} `{Writer T}.
Context `{!System S} `{!Sockets S} `{!Http} `{!Network S T}.
(** [tls]: there is a TLS configuration.  The callbacks of the user on the request and the
    response may change them. *)
Context (tls : bool) (upgradeRequestCallback : option (Request -> Request))
  (upgradeResponseCallback : option (Response -> Response)).
Implicit Types (s : Stream P T) (n : S) (t : T).

Definition set_src s (b : ByteBuffer) : Stream P T :=
  mkStream (codecConn s) (role s) (state s) b (dst s) (handshakeBuffer s) (pendingFrames s)
    (framePool s) (maxMessageSize s) (validateUTF8 s) (controlCallback s) (controlCalls s) (drawn s).
Definition set_handshakeBuffer s (h : slice byte) : Stream P T :=
  mkStream (codecConn s) (role s) (state s) (src s) (dst s) h (pendingFrames s)
    (framePool s) (maxMessageSize s) (validateUTF8 s) (controlCallback s) (controlCalls s) (drawn s).

(** [NewAsyncAdapter] as [dial] calls it. *)
Definition adapt n t : res (S * (T + error)) :=
  match conn_fd n t with
  | (n, inr e) => Ret (n, inr e)
  | (n, inl fd) =>
      '(n, err) ← ApplyOpts n fd [NoDelay true];
      Ret (n, match err with Some e => inr e | None => inl t end)
  end.

Definition dial n (u : URL) : res (S * (T + error)) :=
  let '(n, r) :=
    if decide (Scheme u = "http"%string) then net_DialTimeout n "tcp" (dial_addr u "80") DialTimeout
    else if decide (Scheme u = "https"%string) then
      if tls then tls_DialWithDialer n "tcp" (dial_addr u "443") else (n, inr errNoTLS)
    else (n, inr errScheme) in
  match r with
  | inl t => adapt n t
  | inr e => Ret (n, inr e)
  end.

Fixpoint write_all t (ps : list (list byte)) : res (T * option error) :=
  match ps with
  | [] => Ret (t, None)
  | p :: ps =>
      '(t, (k, err)) ← io_write t p;
      match err with
      | Some e => Ret (t, Some e)
      | None => if decide (k < zlen p) then Ret (t, Some ErrShortWrite) else write_all t ps
      end
  end.

(** [Request.Write]. *)
Definition write_request t (r : Request) : res (T * option error) :=
  match request_writes r with
  | inr e => Ret (t, Some e)
  | inl ps => write_all t ps
  end.

(** From the reading of the response to its dump; what follows the response in the bytes
    that were read is put in [src]. *)
Definition receive_response s t : res (Stream P T * T * (Response + error)) :=
  h ← reslice (handshakeBuffer s) 0 (scap (handshakeBuffer s));
  '(t, (p, k, err)) ← io_read t (elems h);
  match err with
  | Some e => Ret (set_handshakeBuffer s (Slice p (zlen p)), t, inr e)
  | None =>
      h ← reslice (Slice p (zlen p)) 0 k;
      let s := set_handshakeBuffer s h in
      match ReadResponse (elems h) with
      | inr e => Ret (s, t, inr e)
      | inl r =>
          match DumpResponse r with
          | inr e => Ret (s, t, inr e)
          | inl rawRes =>
              let resLen := zlen rawRes in
              s ← (if decide (slen h - resLen > 0) then
                     x ← reslice h resLen (slen h);
                     '(b, _) ← Write (src s) (elems x);
                     Ret (set_src s b)
                   else Ret s);
              h ← reslice h 0 0;
              Ret (set_handshakeBuffer s h, t, inl r)
          end
      end
  end.

(** [rand] are the random bytes of the key. *)
Definition upgrade s t (u : URL) (rand : list byte) (headers : list Header) : res (Stream P T * T * option error) :=
  match NewRequest u with
  | Some e => Ret (s, t, Some e)
  | None =>
      let '(sentKey, expectedKey) := makeHandshakeKey rand in
      let req := mkRequest u (upgrade_headers sentKey headers) in
      let req := match upgradeRequestCallback with Some f => f req | None => req end in
      '(t, err) ← write_request t req;
      match err with
      | Some e => Ret (s, t, Some e)
      | None =>
          '(s, t, r) ← receive_response s t;
          match r with
          | inr e => Ret (s, t, Some e)
          | inl r =>
              let r := match upgradeResponseCallback with Some f => f r | None => r end in
              if negb (IsUpgradeRes r) then Ret (s, t, Some ErrCannotUpgrade)
              else if decide (header_Get (res_Header r) "Sec-WebSocket-Accept" <> expectedKey)
              then Ret (s, t, Some ErrCannotUpgrade)
              else Ret (s, t, None)
          end
      end
  end.

(** The transport is handed on only when there is no error. *)
Definition handshake s n (addr : string) (rand : list byte) (headers : list Header) :
    res (Stream P T * S * (error + T)) :=
  match resolve_url S T addr with
  | inr e => Ret (s, n, inl e)
  | inl u =>
      '(n, r) ← dial n u;
      match r with
      | inr e => Ret (s, n, inl e)
      | inl t =>
          '(s, t, err) ← upgrade s t u rand headers;
          Ret (s, n, match err with Some e => inl e | None => inr t end)
      end
  end.

Definition Handshake s n (addr : string) (rand : list byte) (headers : list Header) :
    res (Stream P T * S * option error) :=
  if decide (role s <> RoleClient) then Ret (s, n, Some ErrWrongHandshakeRole)
  else
    s ← Stream_reset s;
    '(s, n, outcome) ← handshake s n addr rand headers;
    let '(s, err) := Handshake_done s outcome in
    Ret (s, n, err).
End handshake_ops.
