(* ===== verification/HandshakeSpec.v ===== *)
(** The theorems on the opening handshake: when a stream becomes active, and that what the
    server sends right behind its response is read like everything that follows. *)

From Stdlib Require Import Strings.String.
From stdpp Require Import gmap strings.
From S2P Require Import Prelude GoSlice GoIO ByteBuffer Codec WebsocketFrame WebsocketWire WebsocketCodec CodecRoundTrip WebsocketStream WebsocketStreamSpec WebsocketStreamProps NetAddr EventLoop SocketOpts Sockets SocketsSpec HandshakeKeys Handshake.

(** A stream that may start a handshake, new or used: its buffers are well formed and have
    room for the header of a frame. *)
Definition buffers_ok {P T} (s : Stream P T) : Prop :=
  (exists S R W F o, WebsocketStream.src s = bb S R W F o /\ zlen S + zlen R + zlen W + zlen F <= max_alloc /\
     frameMaxHeaderLength <= zlen S + zlen R + zlen W + zlen F) /\
  (exists S R W F o, WebsocketStream.dst s = bb S R W F o /\ zlen S + zlen R + zlen W + zlen F <= 2 ^ 61) /\
  slice_wf (handshakeBuffer s) /\ 0 < scap (handshakeBuffer s) <= max_alloc.

(** The response of a server that has seen the key made of [rand]. *)
Definition accepts `{Http} (rand : list byte) (r : Response) : Prop :=
  IsUpgradeRes r = true /\
  header_Get (res_Header r) "Sec-WebSocket-Accept" = MakeResponseKey (list_byte_of_string (MakeRequestKey rand)).

(** What a handshake leaves alone. *)
Definition same_settings {P T} (s s' : Stream P T) : Prop :=
  role s' = role s /\ pendingFrames s' = pendingFrames s /\ framePool s' = framePool s /\
  WebsocketStream.maxMessageSize s' = WebsocketStream.maxMessageSize s /\ validateUTF8 s' = validateUTF8 s /\
  controlCallback s' = controlCallback s /\ controlCalls s' = controlCalls s.

Lemma same_settings_trans {P T} (s1 s2 s3 : Stream P T) : same_settings s1 s2 -> same_settings s2 s3 -> same_settings s1 s3.
Proof. intros (? & ? & ? & ? & ? & ? & ?) (? & ? & ? & ? & ? & ? & ?); split_and!; congruence. Qed.

(** ** The key in the request *)

(** The key an extra header is stored under. *)
Definition header_key (x : Header) : string := if CanonicalKey x then CanonicalHeaderKey (Key x) else Key x.

Lemma add_header_other h x k : header_key x <> k -> header_values (add_header h x) k = header_values h k.
Proof.
  unfold header_key, add_header, header_values; destruct (CanonicalKey x); intros Hk.
  - assert (forall vs h, default [] (foldl (fun h v => header_Add h (Key x) v) h vs !! k) = default [] ((h : header) !! k)) as ->.
    { induction vs as [| v vs IH]; intros h'; [done |]; cbn [foldl]; rewrite IH; unfold header_Add.
      by rewrite lookup_insert_ne. }
    unfold header_Del; by rewrite lookup_delete_ne.
  - by rewrite lookup_insert_ne, lookup_delete_ne.
Qed.

Lemma add_headers_other headers k : Forall (fun x => header_key x <> k) headers ->
  forall h, header_values (foldl add_header h headers) k = header_values h k.
Proof.
  induction 1 as [| x headers Hx _ IH]; intros h; [done |]; cbn [foldl]; by rewrite IH, add_header_other.
Qed.

Lemma sent_key (u : URL) key headers : Forall (fun x => header_key x <> "Sec-Websocket-Key"%string) headers ->
  header_Get (req_Header (mkRequest u (upgrade_headers key headers))) "Sec-WebSocket-Key" = key.
Proof.
  intros Hx; unfold header_Get, req_Header, upgrade_headers.
  change (CanonicalHeaderKey "Sec-WebSocket-Key") with "Sec-Websocket-Key"%string.
  rewrite add_headers_other by done; unfold header_values, header_Set.
  rewrite lookup_insert_ne by (by vm_compute); by rewrite lookup_insert_eq.
Qed.

Section laws.
Context {P T S : Type} `{GoRuntime} `{FramePool P} `{ReaderLaws T} `{!Writer T} `{!WriterLaws T}.
Context `{!System S} `{!Sockets S} `{!Http} `{!Network S T}.
Context (tls : bool) (onRequest : option (Request -> Request)) (onResponse : option (Response -> Response)).
Implicit Types (s : Stream P T) (n : S) (t : T).

Lemma dial_ok n u : exists n' r, dial tls n u = Ret (n', r).
Proof.
  unfold dial; match goal with |- context [match ?x with _ => _ end] => destruct x as [n1 [t | e]] end;
    [| by eexists _, _].
  unfold adapt; destruct (conn_fd n1 t) as [n2 [fd | e]]; [| by eexists _, _].
  destruct (ApplyOpts_ok fd [NoDelay true] n2) as (n3 & err & -> & _); [by repeat constructor |].
  res_step; by eexists _, _.
Qed.

Lemma write_all_ok ps : forall t, exists t' err, write_all t ps = Ret (t', err).
Proof.
  induction ps as [| p ps IH]; intros t; cbn [write_all]; [by eexists _, _ |].
  destruct (io_write_ok t p) as (t' & k & e & -> & _); res_step; destruct e; [by eexists _, _ |].
  case_decide; [by eexists _, _ | apply IH].
Qed.

(** The parts of a stream the exchange does not touch. *)
Definition untouched s s' : Prop :=
  same_settings s s' /\ state s' = state s /\ codecConn s' = codecConn s /\
  WebsocketStream.dst s' = WebsocketStream.dst s.

(** [src] holds [bs], with room for a header. *)
Definition src_holds s (bs : list byte) : Prop := exists F o,
  WebsocketStream.src s = bb [] [] bs F o /\ zlen bs + zlen F <= 2 ^ 61 /\ frameMaxHeaderLength <= zlen bs + zlen F.

Definition reset_ok s : Prop := exists F o,
  WebsocketStream.src s = bb [] [] [] F o /\ zlen F <= max_alloc /\ frameMaxHeaderLength <= zlen F /\
  slice_wf (handshakeBuffer s) /\ scap (handshakeBuffer s) <= max_alloc /\ slen (handshakeBuffer s) = scap (handshakeBuffer s).

Lemma Write_src F o xs : zlen F <= max_alloc -> frameMaxHeaderLength <= zlen F -> zlen xs <= max_alloc ->
  exists F', Write (bb [] [] [] F o) xs = Ret (bb [] [] xs F' o, (zlen xs, None)) /\
    zlen xs + zlen F' <= 2 ^ 61 /\ frameMaxHeaderLength <= zlen xs + zlen F'.
Proof.
  intros Hm Hh Hx; destruct (Write_bb [] [] [] F o xs) as (F' & E & HF); cbn [app] in E; exists F'; split; [done |].
  apply Write_cap in E; unfold Cap in E; rewrite !scap_bb in E; unfold max_alloc, frameMaxHeaderLength in *.
  cbn [length] in *; lia.
Qed.

(** The bytes that were read are the response, as long as its dump, and what follows it. *)
Lemma receive_run s t t' p k r raw : reset_ok s ->
  io_read t (arr (handshakeBuffer s)) = Ret (t', (p, k, None)) -> 0 <= k <= zlen p -> zlen p = scap (handshakeBuffer s) ->
  ReadResponse (ztake k p) = inl r -> DumpResponse r = inl raw ->
  exists s', receive_response s t = Ret (s', t', inl r) /\ untouched s s' /\ src_holds s' (zdrop (zlen raw) (ztake k p)).
Proof.
  intros (F & o & Hs & Hm & Hh & Hwf & Hc & Hl) Hr Hk Hp Hres Hraw; unfold receive_response.
  rewrite reslice_0 by (unfold slice_wf in Hwf; lia); res_step.
  assert (elems (Slice (arr (handshakeBuffer s)) (scap (handshakeBuffer s))) = arr (handshakeBuffer s)) as ->
    by (unfold elems, scap; cbn [arr slen]; by rewrite ztake_all by lia).
  rewrite Hr; res_step; rewrite reslice_0 by (unfold scap; cbn [arr]; lia); res_step.
  unfold elems at 1; cbn [arr slen]; rewrite Hres, Hraw; cbn [slen].
  assert (slice_wf (Slice p k)) as Hwk by (unfold slice_wf, scap; cbn [arr slen]; lia).
  assert (forall s1 : Stream P T, (h ← reslice (Slice p k) 0 0; Ret (set_handshakeBuffer s1 h, t', @inl _ error r))
    = Ret (set_handshakeBuffer s1 (Slice p 0), t', inl r)) as Hend.
  { intros s1; rewrite reslice_0 by (unfold scap; cbn [arr]; lia); done. }
  case_decide as Hx; res_step.
  - destruct (reslice_elems (Slice p k) (zlen raw) k) as (x & -> & _ & _ & Ex); [done | lia | cbn [slen]; lia |].
    res_step; unfold elems in Ex at 2; cbn [arr slen] in Ex; rewrite ztake_all in Ex by llia.
    cbn [WebsocketStream.src set_handshakeBuffer]; rewrite Hs, Ex.
    destruct (Write_src F o (zdrop (zlen raw) (ztake k p))) as (F' & -> & HF); [done | done | llia |]; res_step.
    rewrite Hend; eexists; split; [done |]; split; [done |]; by exists F', o.
  - rewrite Hend; eexists; split; [done |]; split; [done |]; exists F, o.
    rewrite (zdrop_all (zlen raw)) by llia; cbn; rewrite Hs; unfold max_alloc in *; split_and!; [done | lia | lia].
Qed.

Lemma untouched_buffer s h : untouched s (set_handshakeBuffer s h).
Proof. done. Qed.

(** The request as it is written: the user's callback has the last word. *)
Definition request_of (u : URL) (rand : list byte) (headers : list Header) : Request :=
  let req := mkRequest u (upgrade_headers (MakeRequestKey rand) headers) in
  match onRequest with Some f => f req | None => req end.

(** The transport [t] was dialled, took the whole request, and its next read gave the bytes
    [ztake k p], which start with a response the checks accept; [src] holds what follows the
    response, and the stream goes on with the transport as the read left it. *)
Definition upgraded s n s' n' (addr : string) (rand : list byte) (headers : list Header) : Prop :=
  exists u ps t t1 t2 p k r raw,
    resolve_url S T addr = inl u /\ dial tls n u = Ret (n', inl t) /\
    request_writes (request_of u rand headers) = inl ps /\ write_all t ps = Ret (t1, None) /\
    io_read t1 (arr (handshakeBuffer s)) = Ret (t2, (p, k, None)) /\
    ReadResponse (ztake k p) = inl r /\ DumpResponse r = inl raw /\
    accepts rand (match onResponse with Some f => f r | None => r end) /\
    src_holds s' (zdrop (zlen raw) (ztake k p)) /\
    codecConn s' = Some (NewFrameCodec (WebsocketStream.maxMessageSize s), t2).

Lemma receive_ok s t : reset_ok s -> exists s' t' x, receive_response s t = Ret (s', t', x) /\ untouched s s' /\
  match x with
  | inr _ => True
  | inl r => exists p k raw, io_read t (arr (handshakeBuffer s)) = Ret (t', (p, k, None)) /\
      ReadResponse (ztake k p) = inl r /\ DumpResponse r = inl raw /\ src_holds s' (zdrop (zlen raw) (ztake k p))
  end.
Proof.
  intros Hok; pose proof Hok as (F & o & Hs & _ & _ & Hwf & Hc & Hl).
  destruct (io_read_ok t (arr (handshakeBuffer s))) as (t1 & p & k & e & Er & Hp & Hk).
  assert (zlen p = scap (handshakeBuffer s)) as Hp' by (unfold scap; by rewrite Hp).
  destruct e as [e |]; [| destruct (ReadResponse (ztake k p)) as [r | e] eqn:Ep; [destruct (DumpResponse r) as [raw | e] eqn:Ed |]].
  2: { destruct (receive_run s t t1 p k r raw) as (s' & E & Hu & Hx); try done; [unfold scap in Hp'; lia |].
       by exists s', t1, (inl r); split_and!; [| | exists p, k, raw]. }
  all: unfold receive_response; rewrite reslice_0 by (unfold slice_wf in Hwf; lia); res_step;
    assert (elems (Slice (arr (handshakeBuffer s)) (scap (handshakeBuffer s))) = arr (handshakeBuffer s)) as ->
      by (unfold elems, scap; cbn [arr slen]; by rewrite ztake_all by lia);
    rewrite Er; res_step.
  1: by eexists _, _, (inr e).
  all: rewrite reslice_0 by (unfold scap in *; cbn [arr]; lia); res_step; unfold elems; cbn [arr slen]; rewrite Ep, ?Ed;
    by eexists _, _, (inr e).
Qed.

Lemma upgrade_ok s t u rand headers : reset_ok s -> exists s' t' err,
  upgrade onRequest onResponse s t u rand headers = Ret (s', t', err) /\ untouched s s' /\
  (err = None -> exists ps t1 p k r raw,
     request_writes (request_of u rand headers) = inl ps /\ write_all t ps = Ret (t1, None) /\
     io_read t1 (arr (handshakeBuffer s)) = Ret (t', (p, k, None)) /\
     ReadResponse (ztake k p) = inl r /\ DumpResponse r = inl raw /\
     accepts rand (match onResponse with Some f => f r | None => r end) /\
     src_holds s' (zdrop (zlen raw) (ztake k p))).
Proof.
  intros Hok; unfold upgrade; destruct (NewRequest u) as [e |]; [by eexists _, _, (Some e) |].
  rewrite handshake_keys_match; fold (request_of u rand headers); unfold write_request.
  destruct (request_writes _) as [ps | e] eqn:Eps; res_step; [| by eexists _, _, (Some e)].
  destruct (write_all_ok ps t) as (t1 & [e |] & Ew); rewrite Ew; res_step; [by eexists _, _, (Some e) |].
  destruct (receive_ok s t1 Hok) as (s2 & t2 & x & -> & Hu & Hx); res_step.
  destruct x as [r | e]; [| by eexists _, _, (Some e)]; destruct Hx as (p & k & raw & Hio & Hr & Hd & Hsrc).
  set (r' := match onResponse with Some f => f r | None => r end).
  destruct (IsUpgradeRes r') eqn:Eu; cbn [negb]; [| by eexists _, _, (Some _)]; case_decide as Ek; [by eexists _, _, (Some _) |].
  exists s2, t2, None; split_and!; [done | done |]; intros _; exists ps, t1, p, k, r, raw; fold r'.
  by split_and!.
Qed.

Lemma Stream_reset_ok s : buffers_ok s -> exists s', Stream_reset s = Ret s' /\ reset_ok s' /\ same_settings s s' /\
  state s' = StateHandshake /\ drained (WebsocketStream.dst s') /\ scap (handshakeBuffer s') = scap (handshakeBuffer s) /\
  arr (handshakeBuffer s') = arr (handshakeBuffer s).
Proof.
  intros ((S1 & R1 & W1 & F1 & o1 & Hs & Hm & Hh) & (S2 & R2 & W2 & F2 & o2 & Hd & Hm2) & Hwf & Hc).
  unfold Stream_reset; rewrite reslice_0 by (unfold slice_wf in Hwf; lia); res_step.
  rewrite Hs, Hd, !Reset_bb; res_step; eexists; split_and!; [done | | done | done | | done | done].
  - exists (S1 ++ R1 ++ W1 ++ F1), o1; cbn; split_and!; [done | llia | llia | | apply Hc | done].
    unfold slice_wf, scap; cbn [arr slen]; lia.
  - exists [], (S2 ++ R2 ++ W2 ++ F2), o2; split; [done |]; split; [done |]; llia.
Qed.

(** C26: A stream becomes active only by a handshake in which the server proved that it has
    seen the client's key.  Whatever the network, the transport and the server do,
    [Handshake] of a client with well-formed buffers returns, and either reports an error and
    leaves the stream terminated, or it went as follows: the transport it dialled took the
    whole request, the bytes of the one read that followed start with a response that has
    status 101, upgrades to websocket and carries the answer to the key that was made, the
    bytes behind the response (as long as its dump) wait in [src], and the stream reads and
    writes through that transport.  The user's callback on the response, if there is one, is
    applied before the checks; the key in the request is the one that was made unless the
    callback on the request or an extra header replaces it.  A server's stream is left
    alone. *)
Theorem handshake_sound s n addr rand headers : buffers_ok s ->
  (exists s' n' err, Handshake tls onRequest onResponse s n addr rand headers = Ret (s', n', err) /\
   same_settings s s' /\
   match role s, err with
   | RoleServer, _ => s' = s /\ err = Some ErrWrongHandshakeRole
   | RoleClient, Some _ => state s' = StateTerminated
   | RoleClient, None => state s' = StateActive /\ upgraded s n s' n' addr rand headers
   end) /\
  (onRequest = None -> Forall (fun x => header_key x <> "Sec-Websocket-Key"%string) headers ->
   forall u, header_Get (req_Header (request_of u rand headers)) "Sec-WebSocket-Key" = MakeRequestKey rand).
Proof.
  intros Hb; split; [| intros Ho Hx u; unfold request_of; rewrite Ho; by apply sent_key].
  unfold Handshake; destruct (role s) eqn:Er; cycle 1.
  { rewrite decide_True by done; by exists s, n, (Some ErrWrongHandshakeRole). }
  rewrite decide_False by (intros Hn; by apply Hn).
  destruct (Stream_reset_ok s Hb) as (s1 & -> & Hok & Hset & Hst & _ & Hcap & Harr); res_step; unfold handshake.
  destruct (resolve_url S T addr) as [u | e] eqn:Eu; res_step; [| by eexists _, _, (Some e)].
  destruct (dial_ok n u) as (n1 & [t | e] & Ed); rewrite Ed; res_step; [| by eexists _, _, (Some e)].
  destruct (upgrade_ok s1 t u rand headers Hok) as (s2 & t2 & err & -> & [Hu _] & Hup); res_step.
  pose proof (same_settings_trans _ _ _ Hset Hu) as Hs2.
  destruct err as [e |]; res_step; [exists (set_state s2 StateTerminated), n1, (Some e) |].
  { by split_and!. }
  destruct (Hup eq_refl) as (ps & t1 & p & k & r & raw & Hps & Hw & Hio & Hr & Hd & Ha & Hs).
  unfold Handshake_done, Stream_init; rewrite decide_False by (cbn; tauto); eexists _, _, None.
  split; [done |]; split; [exact Hs2 |]; split; [done |]; exists u, ps, t, t1, t2, p, k, r, raw.
  rewrite <- Harr; split_and!; try done; destruct Hs2 as (_ & _ & _ & Hmax & _); cbn; by rewrite Hmax.
Qed.
End laws.

(** * A handshake that succeeds *)

Section success.
Context {P T S : Type} `{GoRuntime} `{FramePool P} `{Duplex T} `{!WriterLaws T} `{!ReliableWriter T}.
Context `{!System S} `{!Sockets S} `{!Http} `{!Network S T}.
Context (tls : bool) (onRequest : option (Request -> Request)) (onResponse : option (Response -> Response)).
Implicit Types (s : Stream P T) (n : S) (t : T).

Lemma write_all_log ps : forall t t', write_all t ps = Ret (t', None) ->
  wlog t' = wlog t ++ concat ps /\ pend t' = pend t.
Proof.
  induction ps as [| p ps IH]; intros t t'; cbn [write_all concat]; [intros [= <-]; by rewrite app_nil_r |].
  destruct (io_write_ok t p) as (t1 & k & e & E & Hk & _); rewrite E; res_step; destruct e; [done |]; case_decide; [done |].
  intros [Hw Hp]%IH; rewrite Hw, Hp, (wlog_write _ _ _ _ _ E), (write_pend _ _ _ _ E), ztake_all, app_assoc by lia; done.
Qed.

(** The server [t] leads to answers the request [sent] with the response [hdr], which the
    first read delivers whole and whose dump is as long as it is; [rest] follows it. *)
Definition exchange s n addr rand headers n' t (sent hdr rest : list byte) : Prop :=
  exists u ps t1 t2 k p r raw,
    resolve_url S T addr = inl u /\ dial tls n u = Ret (n', inl t) /\ NewRequest u = None /\
    (let req := mkRequest u (upgrade_headers (MakeRequestKey rand) headers) in
     request_writes (match onRequest with Some f => f req | None => req end) = inl ps) /\
    concat ps = sent /\ write_all t ps = Ret (t1, None) /\ pend t = hdr ++ rest /\
    io_read t1 (arr (handshakeBuffer s)) = Ret (t2, (p, k, None)) /\ zlen hdr <= k /\
    (forall more, ReadResponse (hdr ++ more) = inl r) /\ DumpResponse r = inl raw /\ zlen raw = zlen hdr /\
    accepts rand (match onResponse with Some f => f r | None => r end).

Lemma handshake_live s n addr rand headers n' t sent hdr rest :
  buffers_ok s -> role s = RoleClient -> pendingFrames s = [] -> pool_ok (framePool s) ->
  0 <= WebsocketStream.maxMessageSize s <= max_alloc -> hdr <> [] ->
  exchange s n addr rand headers n' t sent hdr rest ->
  exists s' t', Handshake tls onRequest onResponse s n addr rand headers = Ret (s', n', None) /\
    same_settings s s' /\ state s' = StateActive /\ wlog t' = wlog t ++ sent /\
    live s' (NewFrameCodec (WebsocketStream.maxMessageSize s)) t' [] rest /\ (length (pend t') <= length (pend t))%nat.
Proof.
  intros Hb Hr Hpf Hpool Hmax Hhdr (u & ps & t1 & t2 & k & p & r & raw & Hu & Hd & Hn & Hq & <- & Hw & Hp & Hio & Hk & Hres & Hraw & Hl & Ha).
  destruct (Stream_reset_ok s Hb) as (s1 & Es & Hok & Hset & Hst & Hdst & Hcap & Harr).
  unfold Handshake; rewrite decide_False by (rewrite Hr; intros Hx; by apply Hx).
  rewrite Es; res_step; unfold handshake; rewrite Hu, Hd; res_step; unfold upgrade; rewrite Hn, handshake_keys_match.
  unfold write_request; cbn zeta in Hq; rewrite Hq; res_step; rewrite Hw; res_step; rewrite <- Harr in Hio.
  apply write_all_log in Hw as [Hlog Hpend]; rewrite Hp in Hpend.
  destruct (pend_read t1 (arr (handshakeBuffer s1))) as (t2' & k' & Eio & Hk1 & Hk2 & Hp2).
  { intros E; unfold buffers_ok, scap in *; rewrite E in Hcap; cbn in Hcap; lia. }
  { rewrite Hpend; by destruct hdr. }
  rewrite Hio in Eio; injection Eio as <- -> <-; rewrite Hpend in *.
  assert (zlen (arr (handshakeBuffer s1)) = scap (handshakeBuffer s1)) as Hac by done.
  assert (ztake k (ztake k (hdr ++ rest) ++ zdrop k (arr (handshakeBuffer s1))) = hdr ++ ztake (k - zlen hdr) rest) as Hbs.
  { rewrite ztake_app_le, take_take, Nat.min_id, ztake_app_ge by llia; done. }
  destruct (receive_run s1 t1 t2 (ztake k (hdr ++ rest) ++ zdrop k (arr (handshakeBuffer s1))) k r raw)
    as (s2 & -> & [Hset2 (Hst2 & Hc2 & Hd2)] & Hsrc); try done; [llia | llia | by rewrite Hbs |]; res_step.
  destruct Ha as [Ha1 Ha2]; rewrite Ha1; cbn [negb]; rewrite decide_False by (intros Hx; by apply Hx); res_step.
  unfold Handshake_done, Stream_init; rewrite decide_False by (cbn; tauto).
  pose proof (same_settings_trans _ _ _ Hset Hset2) as Hs2.
  rewrite Hbs, Hl, zdrop_app_ge, zdrop_neg in Hsrc by lia.
  eexists _, t2; split; [done |]; split; [exact Hs2 |]; split; [done |]; split; [by rewrite (read_wlog _ _ _ _ Hio) |].
  destruct Hs2 as (_ & Hpf2 & Hpool2 & Hmax2 & _); destruct Hsrc as (F & o & Hs & HF & HF').
  split; [| rewrite Hp2, Hp; llia]; split; [split_and!; [by cbn; rewrite Hmax2 | cbn; by rewrite Hd2 | cbn; rewrite Hpf2, Hpf; constructor |] |].
  - cbn; by rewrite Hpool2.
  - exists (ztake (k - zlen hdr) rest); cbn; split; [| rewrite Hp2, zdrop_app_ge, ztake_zdrop by lia; done].
    rewrite Hs; split_and!; [| unfold Cap; rewrite scap_bb; cbn; lia | cbn; lia | cbn; lia].
    exists [], [], (ztake (k - zlen hdr) rest), F, o; split_and!; done || (cbn; lia).
Qed.

(** C12: The opening handshake and the first message fit together, also when the server sends
    frames right behind its response and they arrive with it: a client whose handshake is
    answered gets the next message whole from [NextMessage], however it is
    fragmented, with the request, and nothing but the pongs it owes, on the transport.  This
    is for an exchange in which the first read brings the whole response and the dump of the
    response is as long as the response was on the wire, as the code assumes; for a stream
    with no frame left pending from before and a pool of reset frames, without validation of UTF-8 (the default), over
    a transport that accepts what is written; and for a text or binary message that fits the
    caller's buffer and the maximum of the stream. *)
Theorem handshake_then_message (genMask : nat -> list byte) (fuel rounds : nat) s n addr rand headers n' t
    (sent hdr : list byte) (typ : Z) (ws : list wire) (p b rest : list byte) :
  (forall i, length (genMask i) = 4%nat) -> buffers_ok s -> role s = RoleClient -> pendingFrames s = [] ->
  pool_ok (framePool s) -> validateUTF8 s = false -> 0 <= WebsocketStream.maxMessageSize s <= max_alloc -> hdr <> [] ->
  exchange s n addr rand headers n' t sent hdr (concat (wire_bytes <$> ws) ++ rest) ->
  fragments RoleClient typ ws p -> typ = OpcodeText \/ typ = OpcodeBinary ->
  Forall (fun w => zlen (w_payload w) <= WebsocketStream.maxMessageSize s) ws ->
  zlen p <= zlen b -> zlen p <= WebsocketStream.maxMessageSize s -> (length ws <= rounds)%nat ->
  (length (pend t) < fuel)%nat -> (139 <= fuel)%nat ->
  exists s1 s2 c t' pongs,
    Handshake tls onRequest onResponse s n addr rand headers = Ret (s1, n', None) /\
    NextMessage genMask fuel rounds s1 b = Ret (s2, p ++ zdrop (zlen p) b, (typ, zlen p, None)) /\
    Forall2 (pong_for RoleClient) (ping_payloads ws) pongs /\
    wlog t' = wlog t ++ sent ++ concat (wire_bytes <$> pongs) /\ live s2 c t' [] rest /\ state s2 = StateActive.
Proof.
  intros Hg Hb Hr Hpf Hpool Hv Hmax Hhdr Hex Hfr Htyp Hws Hp Hm Hrd Hf Hf'.
  destruct (handshake_live s n addr rand headers n' t sent hdr _ Hb Hr Hpf Hpool Hmax Hhdr Hex)
    as (s1 & t1 & E & (G1 & G2 & G3 & G4 & G5 & G6 & G7) & Hst & Hlog & Hlive & Hpend).
  destruct (loop_all genMask fuel Hg _ (NextMessage_reader genMask fuel) typ ws p Hfr rounds s1 (NewFrameCodec (WebsocketStream.maxMessageSize s)) t1 [] [] b rest false typ TypeNone)
    as (s2 & c2 & t2 & pongs & E2 & Hpg & Hl2 & Hlive2 & Hst2 & _);
    [unfold data_opcode; tauto | by destruct Htyp as [-> | ->] | done | done | done | done | constructor
    | split_and!; congruence | done | done | rewrite G4; done | lia | done |].
  exists s1, s2, c2, t2, pongs; split_and!; try done; by rewrite Hl2, Hlog, app_assoc.
Qed.
End success.

(** * Witnesses *)

#[local] Existing Instance doubling_runtime.

#[export] Instance pair_reader_laws : ReaderLaws PairConn.
Proof.
  intros c p; destruct (io_read_ok (rx c) p) as (r & p' & k & e & E & Hk).
  exists (mkPair r (tx c)), p', k, e; unfold io_read, pair_reader; by rewrite E.
Qed.

(** A server that answers the key of the sixteen bytes [nonce] and sends "hi" in a text frame
    in the same segment. *)
Definition nonce : list byte := list_byte_of_string "the sample nonce".
Definition line (str : string) : list byte := list_byte_of_string str ++ [Byte.x0d; Byte.x0a].
Definition response_bytes : list byte :=
  line "HTTP/1.1 101 Switching Protocols" ++ line "Upgrade: WebSocket" ++ line "Connection: Upgrade" ++
  line "Sec-WebSocket-Accept: s3pPLMBiTxaQ9kYGzzhZRbK+xOo=" ++ line "".
Definition hi_frame : wire := Wire Byte.x81 None [Byte.x68; Byte.x69].

(** An HTTP library that knows one response, and writes requests byte by byte. *)
#[local] Instance one_response : Http := {|
  NewRequest := fun u => None;
  request_writes := fun r => inl ((fun b => [b]) <$> line ("GET / HTTP/1.1 Sec-WebSocket-Key: " +:+
                                    header_Get (req_Header r) "Sec-WebSocket-Key")%string);
  Response := Z * header;
  StatusCode := fst;
  res_Header := snd;
  ReadResponse := fun bs =>
    if decide (take (length response_bytes) bs = response_bytes) then
      inl (101, header_Set (header_Set ∅ "upgrade" "WebSocket") "Sec-WebSocket-Accept" "s3pPLMBiTxaQ9kYGzzhZRbK+xOo=")
    else inr ErrUnexpectedEOF;
  DumpResponse := fun _ => inl response_bytes
|}.

#[local] Instance one_server : Network net_sim PairConn := {|
  url_Parse := fun str => inl (mkURL "ws" str "" "");
  net_DialTimeout := fun n network addr timeout =>
    (n, inl (connected [response_bytes ++ wire_bytes hi_frame]));
  tls_DialWithDialer := fun n network addr => (n, inr ErrConnRefused);
  conn_fd := fun n t => (n, inl 7)
|}.

Definition new_client : Stream (list Frame) PairConn :=
  match NewWebsocketStream [] RoleClient with
  | Ret (s, _) => s
  | _ => client (connected []) []
  end.

Lemma new_client_buffers : buffers_ok new_client.
Proof.
  split_and!.
  - exists [], [], [], (replicate 4096 Byte.x00), Byte.x00; split_and!; [vm_compute; reflexivity | by vm_compute | by vm_compute].
  - exists [], [], [], (replicate 4096 Byte.x00), Byte.x00; split_and!; [vm_compute; reflexivity | by vm_compute].
  - by vm_compute.
  - by vm_compute.
  - by vm_compute.
Qed.

Definition succeeds {A B} (r : res (A * B * option error)) : bool :=
  match r with Ret (_, _, None) => true | _ => false end.

Lemma handshake_sound_witness : exists s' n' err,
  Handshake false None None new_client (fresh_sim []) "localhost" nonce [] = Ret (s', n', err) /\
  err = None /\ state s' = StateActive /\
  upgraded false None None new_client (fresh_sim []) s' n' "localhost" nonce [].
Proof.
  destruct (handshake_sound false None None new_client (fresh_sim []) "localhost" nonce [] new_client_buffers)
    as [(s' & n' & err & E & _ & Hs) _].
  exists s', n', err; split; [exact E |].
  assert (succeeds (Handshake false None None new_client (fresh_sim []) "localhost" nonce []) = true) as Hok
    by (vm_compute; reflexivity).
  assert (role new_client = RoleClient) as Hr by (vm_compute; reflexivity).
  rewrite E in Hok; rewrite Hr in Hs; destruct err; [discriminate Hok |]; destruct Hs as [Hs Hu]; by split_and!.
Defined.

Definition hi_request : list byte :=
  line "GET / HTTP/1.1 Sec-WebSocket-Key: dGhlIHNhbXBsZSBub25jZQ==".

Lemma hi_exchange : exists n t, pend t = response_bytes ++ wire_bytes hi_frame /\ wlog t = [] /\
  exchange false None None new_client (fresh_sim []) "localhost" nonce [] n t hi_request response_bytes
    (concat (wire_bytes <$> [hi_frame]) ++ []).
Proof.
  eexists _, (connected [response_bytes ++ wire_bytes hi_frame]); split; [done |]; split; [done |].
  eexists _, _, _, _, _, _, _, _; split_and!; [reflexivity | vm_compute; reflexivity | reflexivity | reflexivity | ..].
  - by vm_compute.
  - vm_compute; reflexivity.
  - by vm_compute.
  - vm_compute; reflexivity.
  - by vm_compute.
  - intros more; cbn [ReadResponse one_response]; rewrite take_app_length, decide_True by done; reflexivity.
  - reflexivity.
  - done.
  - by vm_compute.
Qed.

Lemma handshake_then_message_witness : exists n s1 s2,
  Handshake false None None new_client (fresh_sim []) "localhost" nonce [] = Ret (s1, n, None) /\
  NextMessage key 300 1 s1 (replicate 4 Byte.x00) = Ret (s2, [Byte.x68; Byte.x69; Byte.x00; Byte.x00], (OpcodeText, 2, None)).
Proof.
  destruct hi_exchange as (n & t & Hp & Hw & Hx).
  destruct (handshake_then_message false None None key 300 1 new_client (fresh_sim []) "localhost" nonce [] n t hi_request
    response_bytes OpcodeText [hi_frame] [Byte.x68; Byte.x69] (replicate 4 Byte.x00) []) as (s1 & s2 & c & t' & pongs & E1 & E2 & _).
  - done.
  - exact new_client_buffers.
  - by vm_compute.
  - by vm_compute.
  - intros f Hf; vm_compute in Hf; inversion Hf.
  - by vm_compute.
  - by vm_compute.
  - by vm_compute.
  - exact Hx.
  - apply fragment_last; by split_and!.
  - by left.
  - apply list.Forall_singleton; by vm_compute.
  - by vm_compute.
  - by vm_compute.
  - cbn; lia.
  - rewrite Hp; vm_compute; lia.
  - lia.
  - exists n, s1, s2; split; [exact E1 | exact E2].
Defined.
