(* ===== verification/Sequencing.v ===== *)
(** The receivers of [src/examples/sequencing/receiver]: datagrams that carry a sequence
    number are processed in order, early ones being kept until their turn.

    [ByteBufferProcessor] is the interface of [definitions.go]; [FenwickProcessor] keeps early
    payloads in the save area of the buffer they arrived in, [SimpleProcessor] in copies of its
    own and [PoolProcessor] in buffers of a pool.  [ByteBufferReader] reads the datagrams.  The payloads that are processed are
    recorded with their numbers; logging and the latency histogram are left out. *)

From S2P Require Import Prelude GoSlice ByteBuffer FenwickTree Slots SlotSequencer.

Abbreviation processed := (list (Z * list byte)).

(** [Process]: the processor, the buffer, the number it returns, and what was processed. *)
Class ByteBufferProcessor (Pr : Type) := {
  Process : Pr -> Z -> list byte -> ByteBuffer -> res (Pr * ByteBuffer * (Z * processed));
  Buffered : Pr -> Z
}.

(** [b.Consume(len(b.Data()))]. *)
Definition consume_data (b : ByteBuffer) : res ByteBuffer :=
  n ← ReadLen b; Consume b n.

(** * fenwick_proc.go *)

Record FenwickProcessor : Type := mkFenwickProcessor { fp_expected : Z; sequencer : SlotSequencer }.

Section fenwick.
Context `{GoRuntime}.
Implicit Types (p : FenwickProcessor) (b : ByteBuffer).

Definition NewFenwickProcessor (maxSlots bufSize : Z) : res FenwickProcessor :=
  q ← NewSlotSequencer maxSlots bufSize;
  Ret (mkFenwickProcessor 1 q).

(** Every turn but the last takes a slot out of the sequencer. *)
Fixpoint fp_walk (fuel : nat) p b (discarded : Z) : res (FenwickProcessor * ByteBuffer * (Z * processed)) :=
  match fuel with
  | O => NoFuel
  | S fuel =>
      '(q, (slot, ok)) ← SlotSequencer_Pop (sequencer p) (fp_expected p);
      if (ok : bool) then
        bs ← SavedSlot b slot;
        '(b, _) ← Discard b slot;
        '(p', b, (n, log)) ← fp_walk fuel (mkFenwickProcessor (fp_expected p + 1) q) b (discarded + 1);
        Ret (p', b, (n, (fp_expected p, bs) :: log))
      else Ret (mkFenwickProcessor (fp_expected p) q, b, (discarded, []))
  end.

Definition fp_walkBuffer p b : res (FenwickProcessor * ByteBuffer * (Z * processed)) :=
  fp_walk (S (Z.to_nat (SlotSequencer_Size (sequencer p)))) p b 0.

Definition fp_addToBuffer p (seq : Z) b : res (FenwickProcessor * ByteBuffer * bool) :=
  n ← ReadLen b;
  '(b, slot) ← Save b n;
  '(q, (ok, err)) ← SlotSequencer_Push (sequencer p) seq slot;
  match err with
  | Some _ => Panic
  | None =>
      b ← (if (ok : bool) then Ret b else '(b, _) ← Discard b slot; Ret b);
      Ret (mkFenwickProcessor (fp_expected p) q, b, ok)
  end.

Definition fp_Process p (seq : Z) (payload : list byte) b : res (FenwickProcessor * ByteBuffer * (Z * processed)) :=
  if decide (seq < fp_expected p) then
    b ← consume_data b; Ret (p, b, (0, []))
  else if decide (seq = fp_expected p) then
    '(p, b, (discarded, log)) ← fp_walkBuffer (mkFenwickProcessor (fp_expected p + 1) (sequencer p)) b;
    b ← consume_data b;
    Ret (p, b, (discarded, (seq, payload) :: log))
  else
    '(p, b, _) ← fp_addToBuffer p seq b; Ret (p, b, (0, [])).

#[export] Instance fenwick_processor : ByteBufferProcessor FenwickProcessor := {|
  Process := fp_Process;
  Buffered := fun p => SlotSequencer_Size (sequencer p)
|}.
End fenwick.

(** * simple_proc.go *)

Record SimpleProcessor : Type := mkSimpleProcessor { sp_expected : Z; sp_buffer : processed }.

Section simple.
Implicit Types (p : SimpleProcessor) (b : ByteBuffer).

Definition NewSimpleProcessor : SimpleProcessor := mkSimpleProcessor 1 [].

(** [append(p.buffer[:i+1], p.buffer[i:]...)] doubles the entry at [i], which is then
    overwritten. *)
Definition sp_addToBuffer p (seq : Z) (payload : list byte) : res (SimpleProcessor * bool) :=
  let buffer := sp_buffer p in
  i ← Search (zlen buffer) (fun i =>
        match buffer !! Z.to_nat i with Some (s, _) => Ret (bool_decide (seq <= s)) | None => Panic end);
  if decide (zlen buffer <= i) then
    Ret (mkSimpleProcessor (sp_expected p) (buffer ++ [(seq, payload)]), true)
  else
    match buffer !! Z.to_nat i with
    | None => Panic
    | Some (s, _) =>
        if decide (s <> seq) then
          let doubled := ztake (i + 1) buffer ++ zdrop i buffer in
          Ret (mkSimpleProcessor (sp_expected p) (<[Z.to_nat i := (seq, payload)]> doubled), true)
        else Ret (p, false)
    end.

(** The entries that are processed, and those that are kept. *)
Fixpoint sp_walk (buffer : processed) (expected : Z) : Z * processed * processed :=
  match buffer with
  | [] => (expected, [], [])
  | (s, bs) :: buffer =>
      if decide (s = expected) then
        let '(expected, kept, log) := sp_walk buffer (expected + 1) in (expected, kept, (s, bs) :: log)
      else
        let '(expected, kept, log) := sp_walk buffer expected in (expected, (s, bs) :: kept, log)
  end.

Definition sp_walkBuffer p : SimpleProcessor * processed :=
  let '(expected, kept, log) := sp_walk (sp_buffer p) (sp_expected p) in (mkSimpleProcessor expected kept, log).

(** The deferred [Consume]: its argument is evaluated first. *)
Definition sp_Process p (seq : Z) (payload : list byte) b : res (SimpleProcessor * ByteBuffer * (Z * processed)) :=
  n ← ReadLen b;
  '(p, log) ← (if decide (seq < sp_expected p) then Ret (p, [])
               else if decide (seq = sp_expected p) then
                 let '(p, log) := sp_walkBuffer (mkSimpleProcessor (sp_expected p + 1) (sp_buffer p)) in
                 Ret (p, (seq, payload) :: log)
               else '(p, _) ← sp_addToBuffer p seq payload; Ret (p, []));
  b ← Consume b n;
  Ret (p, b, (0, log)).

#[export] Instance simple_processor : ByteBufferProcessor SimpleProcessor := {|
  Process := sp_Process;
  Buffered := fun p => zlen (sp_buffer p)
|}.
End simple.

(** * pool_proc.go *)

(** [bytebufferpool]: [Get] "returns an empty byte buffer from the pool". *)
Class BytesPool (B : Type) := {
  pool_Get : B -> B * list byte;
  pool_Put : B -> list byte -> B;
  pool_Get_empty : forall pl, (pool_Get pl).2 = []
}.

Record PoolProcessor (B : Type) : Type := mkPoolProcessor { pp_expected : Z; pp_buffer : processed; pp_pool : B }.
Arguments mkPoolProcessor {B}.
Arguments pp_expected {B}.
Arguments pp_buffer {B}.
Arguments pp_pool {B}.

Section pool.
Context {B : Type} `{BytesPool B}.
Implicit Types (p : PoolProcessor B) (b : ByteBuffer).

(** The pool is one of the package; the processor starts with what is in it. *)
Definition NewPoolProcessor (pl : B) : PoolProcessor B := mkPoolProcessor 1 [] pl.

Definition pp_addToBuffer p (seq : Z) (payload : list byte) : res (PoolProcessor B * bool) :=
  let buffer := pp_buffer p in
  i ← Search (zlen buffer) (fun i =>
        match buffer !! Z.to_nat i with Some (s, _) => Ret (bool_decide (seq <= s)) | None => Panic end);
  if decide (zlen buffer <= i) then
    let '(pl, bb) := pool_Get (pp_pool p) in
    Ret (mkPoolProcessor (pp_expected p) (buffer ++ [(seq, bb ++ payload)]) pl, true)
  else
    match buffer !! Z.to_nat i with
    | None => Panic
    | Some (s, _) =>
        if decide (s <> seq) then
          let '(pl, bb) := pool_Get (pp_pool p) in
          let doubled := ztake (i + 1) buffer ++ zdrop i buffer in
          Ret (mkPoolProcessor (pp_expected p) (<[Z.to_nat i := (seq, bb ++ payload)]> doubled) pl, true)
        else Ret (p, false)
    end.

(** The entries that are processed, whose buffers go back to the pool, and those kept. *)
Fixpoint pp_walk (buffer : processed) (expected : Z) (pl : B) : Z * processed * processed * B :=
  match buffer with
  | [] => (expected, [], [], pl)
  | (s, bs) :: buffer =>
      if decide (s = expected) then
        let '(expected, kept, log, pl) := pp_walk buffer (expected + 1) (pool_Put pl bs) in (expected, kept, (s, bs) :: log, pl)
      else
        let '(expected, kept, log, pl) := pp_walk buffer expected pl in (expected, (s, bs) :: kept, log, pl)
  end.

Definition pp_walkBuffer p : PoolProcessor B * processed :=
  let '(expected, kept, log, pl) := pp_walk (pp_buffer p) (pp_expected p) (pp_pool p) in (mkPoolProcessor expected kept pl, log).

Definition pp_Process p (seq : Z) (payload : list byte) b : res (PoolProcessor B * ByteBuffer * (Z * processed)) :=
  n ← ReadLen b;
  '(p, log) ← (if decide (seq < pp_expected p) then Ret (p, [])
               else if decide (seq = pp_expected p) then
                 let '(p, log) := pp_walkBuffer (mkPoolProcessor (pp_expected p + 1) (pp_buffer p) (pp_pool p)) in
                 Ret (p, (seq, payload) :: log)
               else '(p, _) ← pp_addToBuffer p seq payload; Ret (p, []));
  b ← Consume b n;
  Ret (p, b, (0, log)).

#[export] Instance pool_processor : ByteBufferProcessor (PoolProcessor B) := {|
  Process := pp_Process;
  Buffered := fun p => zlen (pp_buffer p)
|}.
End pool.

(** * byte_buffer_reader.go *)

(** [claimed] is the slice given to [AsyncRead], as its bounds in the array of the buffer;
    [None] is nil. *)
Record ByteBufferReader (Pr : Type) : Type := mkReader {
  proc : Pr; rbuf : ByteBuffer; readBufSize : Z; first : bool; claimed : option (Z * Z) }.
Arguments mkReader {Pr}.
Arguments proc {Pr}.
Arguments rbuf {Pr}.
Arguments readBufSize {Pr}.
Arguments first {Pr}.
Arguments claimed {Pr}.

Section reader.
Context {Pr : Type} `{GoRuntime} `{!ByteBufferProcessor Pr}.
Implicit Types (r : ByteBufferReader Pr) (b : ByteBuffer).

Definition NewByteBufferReader (p : Pr) (bufSize readBufSize : Z) : res (ByteBufferReader Pr) :=
  b ← Reserve NewByteBuffer bufSize;
  b ← Prefault b;
  Ret (mkReader p b readBufSize false None).

(** [Setup] up to the first [AsyncRead]. *)
Definition Setup r : res (ByteBufferReader Pr) :=
  '(b, c) ← ClaimFixed (rbuf r) (readBufSize r);
  Ret (mkReader (proc r) b (readBufSize r) (first r) c).

(** The slice expressions may go up to the capacity: [Data()[:n]] is not limited by what
    was received. *)
Definition decode b (readBufferSize : Z) : res (ByteBuffer * Z * list byte) :=
  d ← Data b;
  if decide (zlen d < 8) then Panic
  else
    let seq := be_decode (ztake 4 d) in
    let n := be_decode (ztake 4 (zdrop 4 d)) in
    if decide (n > readBufferSize) then Panic
    else
      b ← Consume b 8;
      x ← reslice (data b) (si b) (ri b);
      x ← reslice x 0 n;
      Ret (b, seq, elems x).

Definition onRead r (n : Z) : res (ByteBufferReader Pr * processed) :=
  '(b, _) ← ShrinkTo (rbuf r) n;
  let b := Commit b n in
  '(b, seq, payload) ← decode b (readBufSize r);
  if decide (first r = true /\ seq <> 1) then Panic
  else
    '(p, b, (_, log)) ← Process (proc r) seq payload b;
    '(b, c) ← ClaimFixed b (readBufSize r);
    match c with
    | None => Panic
    | Some _ => Ret (mkReader p b (readBufSize r) false c, log)
    end.

(** A datagram arrives in the slice that was claimed (what does not fit is dropped), and the
    callback runs. *)
Definition datagram r (bs : list byte) : res (ByteBufferReader Pr * processed) :=
  let '(lo, hi) := default (0, 0) (claimed r) in
  let bs := ztake (hi - lo) bs in
  let b := rbuf r in
  let b := with_data b (Slice (write_at lo bs (arr (data b))) (slen (data b))) in
  onRead (mkReader (proc r) b (readBufSize r) (first r) (claimed r)) (zlen bs).

Fixpoint datagrams r (ds : list (list byte)) : res (ByteBufferReader Pr * processed) :=
  match ds with
  | [] => Ret (r, [])
  | d :: ds =>
      '(r, log) ← datagram r d;
      '(r, more) ← datagrams r ds;
      Ret (r, log ++ more)
  end.

(** A receiver that is set up and given the datagrams. *)
Definition receive_all (p : Pr) (bufSize readBufSize : Z) (ds : list (list byte)) :
    res (ByteBufferReader Pr * processed) :=
  r ← NewByteBufferReader p bufSize readBufSize;
  r ← Setup r;
  datagrams r ds.
End reader.
