(* ===== verification/SequencingSpec.v ===== *)
(** What the receivers of [Sequencing.v] promise: the payloads of consecutive sequence
    numbers, each once and in order, however the datagrams arrive.

    [deliver] is the specification of a processor; [LawfulProcessor] is what the reader relies
    on, and both processors are instances of it. *)

From stdpp Require Import gmap sorting.
From S2P Require Import Prelude GoSlice ByteBuffer FenwickTree Slots SlotSequencer Sequencing.

(** * In-order delivery *)

(** The number that is processed next, and the payloads that came early. *)
Record delivery : Type := mkDelivery { next : Z; held : gmap Z (list byte) }.

Fixpoint drain (fuel : nat) (e : Z) (m : gmap Z (list byte)) : delivery * processed :=
  match fuel, m !! e with
  | S fuel, Some bs => let '(d, log) := drain fuel (e + 1) (delete e m) in (d, (e, bs) :: log)
  | _, _ => (mkDelivery e m, [])
  end.

(** A payload that came early is held as [kept]. *)
Definition deliver (d : delivery) (seq : Z) (payload kept : list byte) : delivery * processed :=
  if decide (seq < next d) then (d, [])
  else if decide (seq = next d) then
    let '(d, log) := drain (size (held d)) (next d + 1) (held d) in (d, (seq, payload) :: log)
  else match held d !! seq with
       | Some _ => (d, [])
       | None => (mkDelivery (next d) (<[seq := kept]> (held d)), [])
       end.

(** Packets: the number, the payload, and the payload as it is kept. *)
Abbreviation packets := (list (Z * (list byte * list byte))).

Fixpoint deliver_all (d : delivery) (ps : packets) : delivery * processed :=
  match ps with
  | [] => (d, [])
  | (seq, (payload, kept)) :: ps =>
      let '(d, log) := deliver d seq payload kept in
      let '(d, more) := deliver_all d ps in (d, log ++ more)
  end.

(** The payload with which a number first arrived. *)
Fixpoint first_of (ps : packets) (i : Z) : option (list byte * list byte) :=
  match ps with
  | [] => None
  | (seq, x) :: ps => if decide (seq = i) then Some x else first_of ps i
  end.

Definition arrived (ps : packets) (i : Z) (bs : list byte) : Prop :=
  exists payload kept, first_of ps i = Some (payload, kept) /\ (bs = payload \/ bs = kept).

Lemma first_of_app ps qs i : first_of (ps ++ qs) i =
  match first_of ps i with Some bs => Some bs | None => first_of qs i end.
Proof. induction ps as [| [s x] ps IH]; cbn; [done |]; by case_decide. Qed.

Lemma deliver_all_app d ps qs : deliver_all d (ps ++ qs) =
  let '(d1, log1) := deliver_all d ps in let '(d2, log2) := deliver_all d1 qs in (d2, log1 ++ log2).
Proof.
  revert d; induction ps as [| [s [bs k]] ps IH]; intros d; cbn; [by destruct (deliver_all d qs) |].
  destruct (deliver d s bs k) as [d1 log1]; rewrite IH; destruct (deliver_all d1 ps) as [d2 log2].
  destruct (deliver_all d2 qs) as [d3 log3]; by rewrite app_assoc.
Qed.

(** [log] is what is processed on the way from the number [e] to the number [e']. *)
Definition consecutive (ok : Z -> list byte -> Prop) (e e' : Z) (log : processed) : Prop :=
  e <= e' /\ log.*1 = seqZ e (e' - e) /\ Forall (fun x => ok (fst x) (snd x)) log.

Lemma consecutive_nil ok e : consecutive ok e e [].
Proof. split_and!; [lia | by rewrite Z.sub_diag | constructor]. Qed.

Lemma consecutive_cons (ok : Z -> list byte -> Prop) e e' bs log : ok e bs -> consecutive ok (e + 1) e' log ->
  consecutive ok e e' ((e, bs) :: log).
Proof.
  intros Hf (Hle & Hs & Hl); split_and!; [lia | | by constructor].
  rewrite fmap_cons, Hs, (seqZ_cons e) by lia; cbn; do 2 f_equal; lia.
Qed.

Lemma consecutive_app ok e1 e2 e3 log1 log2 : consecutive ok e1 e2 log1 -> consecutive ok e2 e3 log2 ->
  consecutive ok e1 e3 (log1 ++ log2).
Proof.
  intros (H1 & H2 & H3) (G1 & G2 & G3); split_and!; [lia | | by apply list.Forall_app].
  rewrite fmap_app, H2, G2; replace (e3 - e1) with ((e2 - e1) + (e3 - e2)) by lia.
  rewrite seqZ_app by lia; do 2 f_equal; lia.
Qed.

Lemma consecutive_weaken (ok ok' : Z -> list byte -> Prop) e e' log : (forall i bs, ok i bs -> ok' i bs) ->
  consecutive ok e e' log -> consecutive ok' e e' log.
Proof.
  intros Hw (H1 & H2 & H3); split_and!; [done | done |]; eapply list.Forall_impl; [exact H3 |]; cbn; auto.
Qed.

(** From the number [e] on, [m] holds what [f] has, and nothing before. *)
Definition holds_from (f : Z -> option (list byte)) (e : Z) (m : gmap Z (list byte)) : Prop :=
  (forall i, i < e -> m !! i = None) /\ (forall i, e <= i -> m !! i = f i).

Lemma drain_ok f fuel : forall e m d log, (size m <= fuel)%nat -> holds_from f e m -> drain fuel e m = (d, log) ->
  consecutive (fun i bs => f i = Some bs) e (next d) log /\ holds_from f (next d) (held d) /\ held d !! next d = None.
Proof.
  induction fuel as [| fuel IH]; intros e m d log Hs [Hlt Hge]; cbn [drain].
  - assert (m = ∅) as -> by (apply map_size_empty_inv; lia).
    intros [= <- <-]; split_and!; [apply consecutive_nil | done | apply lookup_empty].
  - destruct (m !! e) as [bs |] eqn:Ee; [| by intros [= <- <-]; split_and!; [apply consecutive_nil | ..]].
    destruct (drain fuel (e + 1) (delete e m)) as [d1 log1] eqn:Ed; intros [= <- <-].
    apply IH in Ed as (Hc & Hh & Hn).
    + split_and!; [| done | done]; apply consecutive_cons; [by rewrite <- Hge by lia | done].
    + rewrite map_size_delete_Some by (by rewrite Ee); lia.
    + split; intros i Hi; [| by rewrite lookup_delete_ne, Hge by lia].
      destruct (decide (i = e)) as [-> |]; [by rewrite lookup_delete_eq | rewrite lookup_delete_ne by done; apply Hlt; lia].
Qed.

(** After the packets [ps]: everything up to [next] was processed, what is held is what came
    early, and [next] itself has not arrived. *)
Definition caught_up (ps : packets) (d : delivery) (log : processed) : Prop :=
  consecutive (arrived ps) 1 (next d) log /\ holds_from (fun i => snd <$> first_of ps i) (next d) (held d) /\
  first_of ps (next d) = None.

Lemma deliver_ok ps d log seq payload kept d' more : caught_up ps d log -> 1 <= seq ->
  deliver d seq payload kept = (d', more) -> caught_up (ps ++ [(seq, (payload, kept))]) d' (log ++ more).
Proof.
  intros (Hc & [Hlt Hge] & Hn) Hseq; set (ps' := ps ++ [(seq, (payload, kept))]).
  assert (forall i x, first_of ps i = Some x -> first_of ps' i = Some x) as Hw.
  { intros i x E; unfold ps'; by rewrite first_of_app, E. }
  assert (forall i, i <> seq -> first_of ps' i = first_of ps i) as Hne.
  { intros i Hi; unfold ps'; rewrite first_of_app; cbn; rewrite decide_False by congruence; by destruct (first_of ps i). }
  assert (consecutive (arrived ps') 1 (next d) log) as Hc'.
  { eapply consecutive_weaken; [| exact Hc]; intros i bs (x & k & E & Hbs); exists x, k; auto. }
  pose proof Hc as (Hle & _ & _); unfold deliver; case_decide as H1; [| case_decide as H2].
  - intros [= <- <-]; rewrite app_nil_r; split_and!; [done | split; [done |] | rewrite Hne by lia; done].
    intros i Hi; rewrite Hne by lia; by apply Hge.
  - destruct (drain _ _ _) as [d1 log1] eqn:Ed; intros [= <- <-].
    apply (drain_ok (fun i => snd <$> first_of ps' i)) in Ed as (Ec & Eh & En); [| done |].
    + split_and!; [| done | rewrite (proj2 Eh) in En by lia; by destruct (first_of ps' (next d1))].
      eapply consecutive_app; [exact Hc' |]; rewrite <- H2 in Ec, Hn |- *; apply consecutive_cons.
      * exists payload, kept; split; [| by left]; unfold ps'; rewrite first_of_app, Hn; cbn; by rewrite decide_True.
      * eapply consecutive_weaken; [| exact Ec]; cbn; intros i bs Hi; unfold arrived.
        destruct (first_of ps' i) as [[x k] |]; [| done]; injection Hi as <-; eauto.
    + split; intros i Hi; [| by rewrite Hne, Hge by lia].
      destruct (decide (i = next d)) as [-> |]; [by rewrite Hge, Hn | apply Hlt; lia].
  - destruct (held d !! seq) as [bs |] eqn:Es; intros [= <- <-]; rewrite app_nil_r; cbn.
    + split_and!; [done | split; [done |] | rewrite Hne by lia; done]; intros i Hi.
      destruct (decide (i = seq)) as [-> |]; [| by rewrite Hne, Hge by lia]; rewrite Hge in Es |- * by lia.
      destruct (first_of ps seq) as [x |] eqn:Ex; [by rewrite (Hw _ _ Ex) | done].
    + split_and!; [done | split | cbn; rewrite Hne by lia; done]; intros i Hi; cbn in *.
      * rewrite lookup_insert_ne by lia; by apply Hlt.
      * destruct (decide (i = seq)) as [-> |]; [| rewrite lookup_insert_ne, Hne, Hge by lia; done].
        rewrite Hge in Es by lia; rewrite lookup_insert_eq; unfold ps'; rewrite first_of_app.
        destruct (first_of ps seq); [done |]; cbn; by rewrite decide_True.
Qed.

Definition start : delivery := mkDelivery 1 ∅.

Lemma deliver_all_ok ps d log : Forall (fun x => 1 <= fst x) ps -> deliver_all start ps = (d, log) -> caught_up ps d log.
Proof.
  revert d log; induction ps as [| [seq [payload kept]] ps IH] using rev_ind; intros d log Hok.
  - intros [= <- <-]; split_and!; [apply consecutive_nil | split; intros; apply lookup_empty | done].
  - apply list.Forall_app in Hok as [Hok [H1 _]%list.Forall_cons]; rewrite deliver_all_app.
    destruct (deliver_all start ps) as [d1 log1] eqn:E1; cbn; destruct (deliver d1 seq payload kept) as [d2 log2] eqn:E2.
    intros [= <- <-]; rewrite app_nil_r; eapply deliver_ok; [by apply IH | done | done].
Qed.

(** * What the reader relies on *)

(** [keeps p S d u]: the processor with the save area [S] stands for [d], and at most [u]
    bytes have been put aside since nothing was held; [admits p u k]: it has room for [u] such
    bytes in [k] packets.  [stash payload R] is how the processor keeps a payload that arrived
    in a datagram with the data [R], which may be longer. *)
Class LawfulProcessor (Pr : Type) `{ByteBufferProcessor Pr} := {
  keeps : Pr -> list byte -> delivery -> Z -> Prop;
  admits : Pr -> Z -> nat -> Prop;
  stash : Pr -> list byte -> list byte -> list byte;
  admits_less : forall p u k u' k', admits p u k -> u' <= u -> (k' <= k)%nat -> admits p u' k';
  keeps_saved : forall p S d u, keeps p S d u -> zlen S <= u;
  keeps_buffered : forall p S d u, keeps p S d u -> Buffered p = Z.of_nat (size (held d));
  process_ok : forall p S R F o d u seq payload d' log,
    keeps p S d u -> R <> [] -> zlen R <= max_alloc -> admits p (u + zlen R) (Datatypes.S (size (held d))) ->
    deliver d seq payload (stash p payload R) = (d', log) ->
    exists p' S' F' n, Process p seq payload (bb S R [] F o) = Ret (p', bb S' [] [] F' o, (n, log)) /\
      keeps p' S' d' (u + zlen R) /\ zlen S' + zlen F' = zlen S + zlen R + zlen F /\
      (forall v k, admits p v k -> admits p' v k) /\ stash p' = stash p
}.

Lemma consume_data_bb `{GoRuntime} S R F o : exists F',
  consume_data (bb S R [] F o) = Ret (bb S [] [] F' o) /\ zlen F' = zlen R + zlen F.
Proof.
  unfold consume_data; rewrite ReadLen_bb; res_step; destruct (Consume_bb S R [] F o (zlen R)) as (F' & -> & HF).
  exists F'; rewrite zdrop_all by lia; split; [done |]; rewrite HF; llia.
Qed.

(** ** The Fenwick processor *)

Section fenwick_laws.
Context `{GoRuntime}.

Lemma stored_size q S m : stored q S m -> SlotSequencer_Size q = Z.of_nat (size m).
Proof.
  intros (gs & v & T & -> & ->); unfold SlotSequencer_Size, sequencedSlots_Size.
  rewrite <- (slot_map_size _ (tr_sorted _ _ _ T)), (tr_slots _ _ _ T), !live_map_size; done || apply (tr_nodup _ _ _ T).
Qed.

Definition fp_keeps (p : FenwickProcessor) (S : list byte) (d : delivery) (u : Z) : Prop :=
  fp_expected p = next d /\ stored (sequencer p) S (held d) /\ used (sequencer p) S u.

Lemma used_less q S u u' : used q S u -> u <= u' -> used q S u'.
Proof. intros (spent & E & Hu) Hle; exists spent; split; [done | lia]. Qed.

Lemma stored_sum q S m : stored q S m -> exists spent, Sum (tree (offsetter q)) = Ret spent /\ 0 <= spent.
Proof.
  intros (gs & v & T & -> & ->); destruct (tracked_sum q gs v T) as [E Hr]; eexists; split; [exact E | lia].
Qed.

Lemma used_saved q S m u : stored q S m -> used q S u -> zlen S <= u.
Proof.
  intros Hst (spent & E & Hu); destruct (stored_sum q S m Hst) as (x & Ex & Hx); rewrite Ex in E; simplify_eq; lia.
Qed.

Lemma fp_walk_S fuel e q b n : fp_walk (Datatypes.S fuel) (mkFenwickProcessor e q) b n =
  '(q, (slot, ok)) ← SlotSequencer_Pop q e;
  if (ok : bool) then
    bs ← SavedSlot b slot;
    '(b, _) ← Discard b slot;
    '(p', b, (n, log)) ← fp_walk fuel (mkFenwickProcessor (e + 1) q) b (n + 1);
    Ret (p', b, (n, (e, bs) :: log))
  else Ret (mkFenwickProcessor e q, b, (n, [])).
Proof. done. Qed.

Lemma fp_walk_ok fuel : forall q e S R F o m u n d log,
  stored q S m -> used q S u -> (size m <= fuel)%nat -> drain fuel e m = (d, log) ->
  exists p' S' F' n', fp_walk (Datatypes.S fuel) (mkFenwickProcessor e q) (bb S R [] F o) n = Ret (p', bb S' R [] F' o, (n', log)) /\
    fp_keeps p' S' d u /\ zlen S' + zlen F' = zlen S + zlen F /\ same_limits q (sequencer p').
Proof.
  induction fuel as [| fuel IH]; intros q e S R F o m u n d log Hst Hu Hf Hd;
    pose proof (Pop_stored q S m e Hst) as HP; rewrite fp_walk_S.
  - assert (m = ∅) as -> by (apply map_size_empty_inv; lia); rewrite lookup_empty in HP; rewrite HP; res_step.
    cbn in Hd; injection Hd as <- <-; by eexists _, S, F, _.
  - cbn [drain] in Hd; destruct (m !! e) as [bs |] eqn:Em.
    + destruct HP as (q' & A & B & -> & -> & Hst' & Hlim & Hu'); res_step.
      pose proof (stored_bound _ _ _ Hst) as Hb; unfold max_alloc in Hb.
      rewrite SavedSlot_bb by (unfold is_int; llia); res_step.
      destruct (Discard_bb A bs B R [] F o) as (F1 & -> & HF1); [unfold is_int; llia |]; res_step.
      destruct (drain fuel (e + 1) (delete e m)) as [d1 log1] eqn:Ed; injection Hd as <- <-.
      destruct (IH q' (e + 1) (A ++ B) R F1 o (delete e m) u (n + 1) d1 log1) as (p' & S' & F' & n' & E & Hk & HF & Hl);
        [done | by apply Hu' | rewrite map_size_delete_Some by (by rewrite Em); lia | done |].
      rewrite E; res_step; eexists _, S', F', _; split; [done |]; split; [done |].
      split; [rewrite HF; llia | destruct Hlim, Hl; split; congruence].
    + rewrite HP; res_step; injection Hd as <- <-; by eexists _, S, F, _.
Qed.

Definition fp_admits (p : FenwickProcessor) (u : Z) (k : nat) : Prop :=
  u <= maxBytes (sequencer p) /\ Z.of_nat k <= maxSlots (container (sequencer p)).

Lemma fp_admits_same p q : same_limits (sequencer p) q -> forall e v k, fp_admits p v k -> fp_admits (mkFenwickProcessor e q) v k.
Proof. intros [Hb Hs] e v k [H1 H2]; split; cbn; lia. Qed.

(** A payload that came early is saved and pushed, or dropped when its number is known. *)
Lemma fp_early p S F o d u seq R : fp_keeps p S d u -> R <> [] -> zlen R <= max_alloc ->
  fp_admits p (u + zlen R) (Datatypes.S (size (held d))) ->
  exists p' S' F' ok, fp_addToBuffer p seq (bb S R [] F o) = Ret (p', bb S' [] [] F' o, ok) /\
    fp_keeps p' S' (match held d !! seq with Some _ => d | None => mkDelivery (next d) (<[seq := R]> (held d)) end)
      (u + zlen R) /\
    zlen S' + zlen F' = zlen S + zlen R + zlen F /\ same_limits (sequencer p) (sequencer p').
Proof.
  intros (He & Hst & Hu) Hne Hlen [Hb Hs]; unfold fp_addToBuffer; rewrite ReadLen_bb; res_step; rewrite Save_bb; res_step.
  rewrite ztake_all, zdrop_all, decide_False by (done || lia).
  pose proof (stored_bound _ _ _ Hst) as Hbound; pose proof (used_saved _ _ _ _ Hst Hu) as Hsaved; unfold max_alloc in *.
  assert (0 < zlen R) as Hpos by (destruct R; [done | cbn; lia]).
  destruct (Push_stored (sequencer p) S (held d) seq R Hst Hne) as (spent & Hsum & HP); [lia |]; cbv zeta in HP.
  destruct Hu as (spent' & Hsum' & Hu); rewrite Hsum in Hsum'; injection Hsum' as <-.
  assert (sbytes (sequencer p) = zlen S) as Hsb by (destruct Hst as (gs & v & T & -> & _); apply (tr_bytes _ _ _ T)).
  rewrite decide_False in HP by lia; destruct (held d !! seq) as [bs |] eqn:Es.
  - rewrite HP; res_step; destruct (Discard_bb S R [] [] [] F o) as (F' & HD & HF); [unfold is_int; lia |].
    rewrite !app_nil_r in HD; rewrite HD; res_step; eexists _, S, F', _; split; [done |]; split; [| split; [lia | done]].
    split_and!; [done | done |]; exists spent; split; [done | lia].
  - rewrite decide_False in HP by lia; destruct HP as (q' & HP & Hst' & _); pose proof (Push_keeps _ _ _ _ _ HP) as [Hlim Ho].
    rewrite HP; res_step; eexists _, (S ++ R), F, _; split; [done |]; split; [| split; [llia | done]].
    split_and!; [done | done |]; exists spent; cbn; rewrite Ho; split; [done | llia].
Qed.

Lemma fp_process_ok p S R F o d u seq payload d' log : fp_keeps p S d u -> R <> [] -> zlen R <= max_alloc ->
  fp_admits p (u + zlen R) (Datatypes.S (size (held d))) -> deliver d seq payload R = (d', log) ->
  exists p' S' F' n, fp_Process p seq payload (bb S R [] F o) = Ret (p', bb S' [] [] F' o, (n, log)) /\
    fp_keeps p' S' d' (u + zlen R) /\ zlen S' + zlen F' = zlen S + zlen R + zlen F /\
    (forall v k, fp_admits p v k -> fp_admits p' v k).
Proof.
  intros Hk Hne Hlen Hadm; pose proof Hk as (He & Hst & Hu); pose proof (used_less _ _ _ (u + zlen R) Hu ltac:(lia)) as Hu'.
  unfold deliver, fp_Process; rewrite He; case_decide as H1; [| case_decide as H2].
  - intros [= <- <-]; destruct (consume_data_bb S R F o) as (F' & -> & HF); res_step.
    eexists p, S, F', 0; split; [done |]; split; [done |]; split; [lia | done].
  - destruct (drain _ _ _) as [d1 log1] eqn:Ed; intros [= <- <-]; unfold fp_walkBuffer; cbn [sequencer].
    rewrite (stored_size _ _ _ Hst), Nat2Z.id.
    destruct (fp_walk_ok (size (held d)) (sequencer p) (next d + 1) S R F o (held d) (u + zlen R) 0 d1 log1 Hst Hu'
      ltac:(done) Ed) as (p1 & S1 & F1 & n1 & -> & Hk1 & HF1 & Hl1); res_step.
    destruct (consume_data_bb S1 R F1 o) as (F' & -> & HF); res_step.
    eexists p1, S1, F', n1; split; [done |]; split; [done |]; split; [lia |]; destruct p1; by apply fp_admits_same.
  - intros Hd; destruct (fp_early p S F o d u seq R Hk Hne Hlen Hadm) as (p1 & S1 & F1 & ok & -> & Hk1 & HF1 & Hl1); res_step.
    exists p1, S1, F1, 0; destruct (held d !! seq); injection Hd as <- <-; (split; [done |]); (split; [done |]); (split; [lia |]);
      destruct p1; by apply fp_admits_same.
Qed.

#[export] Instance fenwick_lawful : LawfulProcessor FenwickProcessor.
Proof.
  refine {| keeps := fp_keeps; admits := fp_admits; stash := fun _ _ R => R |}.
  - intros p u k u' k' [H1 H2] Hu Hk; split; lia.
  - intros p S d u (_ & Hst & Hu); by eapply used_saved.
  - intros p S d u (_ & Hst & _); by eapply stored_size.
  - intros p S R F o d u seq payload d' log Hk Hne Hlen Hadm Hd.
    destruct (fp_process_ok p S R F o d u seq payload d' log Hk Hne Hlen Hadm Hd) as (p' & S' & F' & n & E & Hk' & HF & Ha).
    by exists p', S', F', n.
Defined.
End fenwick_laws.

(** ** The simple processor *)

Section simple_laws.
Context `{GoRuntime}.

Definition sorted_from (e : Z) (l : processed) : Prop := StronglySorted Z.lt l.*1 /\ Forall (fun k => e <= k) l.*1.

Lemma entries_NoDup (l : processed) : StronglySorted Z.lt l.*1 -> NoDup l.*1.
Proof.
  generalize l.*1 as ks; intros ks Hs; induction Hs as [| k ks Hs IH Hk]; constructor; [| done].
  intros Hin; rewrite list.Forall_forall in Hk; specialize (Hk k Hin); lia.
Qed.

Lemma sorted_size (l : processed) : StronglySorted Z.lt l.*1 -> size (list_to_map l : gmap Z (list byte)) = length l.
Proof. intros Hs; rewrite map_size_list_to_map by (by apply entries_NoDup); done. Qed.

Lemma sp_walk_none l : forall e, Forall (fun k => e < k) l.*1 -> sp_walk l e = (e, l, []).
Proof.
  induction l as [| [s bs] l IH]; intros e; cbn; [done |]; intros [He Hl]%list.Forall_cons.
  rewrite decide_False by lia; by rewrite IH.
Qed.

Lemma sp_walk_ok l : forall e d log, sorted_from e l -> drain (length l) e (list_to_map l) = (d, log) ->
  exists kept, sp_walk l e = (next d, kept, log) /\ sorted_from (next d + 1) kept /\ list_to_map kept = held d.
Proof.
  induction l as [| [s bs] l IH]; intros e d log [Hs He].
  { intros [= <- <-]; exists []; split_and!; [done | split; constructor | done]. }
  cbn in Hs, He; apply StronglySorted_inv in Hs as [Hs Hlt]; apply list.Forall_cons in He as [He Hl].
  assert (list_to_map ((s, bs) :: l) = <[s := bs]> (list_to_map l : gmap Z (list byte))) as Hm by done.
  rewrite Hm; cbn [sp_walk length drain]; case_decide as Hse.
  - subst s; rewrite lookup_insert_eq, delete_insert_id.
    2: { apply not_elem_of_list_to_map_1; intros Hin; rewrite list.Forall_forall in Hlt; specialize (Hlt e Hin); lia. }
    destruct (drain (length l) (e + 1) (list_to_map l)) as [d1 log1] eqn:Ed; intros [= <- <-].
    destruct (IH (e + 1) d1 log1) as (kept & -> & Hk & Hmk); [| done |].
    { split; [done |]; eapply list.Forall_impl; [exact Hlt | cbn; lia]. }
    by exists kept.
  - rewrite lookup_insert_ne by done; rewrite not_elem_of_list_to_map_1.
    2: { intros Hin; rewrite list.Forall_forall in Hlt; specialize (Hlt e Hin); lia. }
    intros [= <- <-]; rewrite sp_walk_none by (eapply list.Forall_impl; [exact Hlt | cbn; lia]).
    exists ((s, bs) :: l); split_and!; [done | | done].
    split; [by constructor |]; constructor; cbn; [lia |]; eapply list.Forall_impl; [exact Hlt | cbn; lia].
Qed.

Definition at_least (seq : Z) (l : processed) (i : Z) : res bool :=
  match l !! Z.to_nat i with Some (s, _) => Ret (bool_decide (seq <= s)) | None => Panic end.

(** Binary search splits the entries at the number. *)
Lemma sp_search l seq : StronglySorted Z.lt l.*1 -> exists L R, l = L ++ R /\
  Search (zlen l) (at_least seq l) = Ret (zlen L) /\ Forall (fun k => k < seq) L.*1 /\ Forall (fun k => seq <= k) R.*1.
Proof.
  intros Hs; set (p i := match l !! Z.to_nat i with Some (s, _) => bool_decide (seq <= s) | None => true end).
  destruct (Search_loop_spec p (at_least seq l) (zlen l) (Z.to_nat (zlen l)) 0 (zlen l)) as (r & E & Hr & Hlo & Hhi); [| | lia.. |].
  - intros k Hk; destruct (lookup_lt_is_Some_2 l (Z.to_nat k)) as [[s bs] Hx]; [lia |]; unfold at_least, p; by rewrite Hx.
  - intros a b Hab Hb; unfold p; destruct (lookup_lt_is_Some_2 l (Z.to_nat a)) as [[s bs] Hx]; [lia |].
    destruct (lookup_lt_is_Some_2 l (Z.to_nat b)) as [[s' bs'] Hy]; [lia |]; rewrite Hx, Hy, !bool_decide_eq_true.
    destruct (decide (a = b)) as [-> |]; [congruence |]; assert (s < s'); [| lia].
    rewrite <- (take_drop (Z.to_nat b) l), fmap_app in Hs; eapply (StronglySorted_app_1_elem_of Z.lt); [done | |].
    + apply (list_elem_of_fmap_2 fst _ (s, bs)), list_elem_of_lookup; exists (Z.to_nat a); by rewrite lookup_take_lt by lia.
    + apply (list_elem_of_fmap_2 fst _ (s', bs')), list_elem_of_lookup; exists 0%nat; by rewrite lookup_drop, Nat.add_0_r.
  - exists (ztake r l), (zdrop r l); split_and!; [by rewrite take_drop | | |].
    + unfold Search; rewrite E; f_equal; llia.
    + apply list.Forall_forall; intros x ((s, bs) & -> & [i Hi]%list_elem_of_lookup)%list_elem_of_fmap.
      apply lookup_take_Some in Hi as [Hi Hlt]; specialize (Hlo (Z.of_nat i) ltac:(lia)); unfold p in Hlo.
      rewrite Nat2Z.id, Hi in Hlo; apply bool_decide_eq_false in Hlo; cbn; lia.
    + apply list.Forall_forall; intros x ((s, bs) & -> & [i Hi]%list_elem_of_lookup)%list_elem_of_fmap.
      rewrite lookup_drop in Hi; pose proof (lookup_lt_Some _ _ _ Hi).
      specialize (Hhi (r + Z.of_nat i) ltac:(lia)); unfold p in Hhi.
      replace (Z.to_nat (r + Z.of_nat i)) with (Z.to_nat r + i)%nat in Hhi by lia.
      rewrite Hi in Hhi; by apply bool_decide_eq_true in Hhi.
Qed.

Lemma entries_insert e L R seq payload : sorted_from e (L ++ R) -> e <= seq ->
  Forall (fun k => k < seq) L.*1 -> Forall (fun k => seq < k) R.*1 ->
  sorted_from e (L ++ (seq, payload) :: R) /\
  list_to_map (L ++ (seq, payload) :: R) = <[seq := payload]> (list_to_map (L ++ R) : gmap Z (list byte)).
Proof.
  intros [Hs He] Hseq HL HR; assert (StronglySorted Z.lt (L ++ (seq, payload) :: R).*1) as Hs'.
  { rewrite fmap_app in *; cbn; rewrite list.Forall_forall in HL; apply StronglySorted_app; split_and!.
    - intros x y Hx [-> | Hy]%elem_of_cons; [auto |]; rewrite list.Forall_forall in HR.
      specialize (HL x Hx); specialize (HR y Hy); lia.
    - by eapply StronglySorted_app_1_l.
    - constructor; [by eapply StronglySorted_app_1_r | done]. }
  split; [split; [done |] |].
  - rewrite fmap_app in *; apply list.Forall_app in He as [? ?]; apply list.Forall_app; split; [done | by constructor].
  - rewrite (list_to_map_proper _ ((seq, payload) :: L ++ R)); [done | by apply entries_NoDup |].
    by rewrite Permutation_middle.
Qed.

Lemma sp_early p seq payload e : sorted_from e (sp_buffer p) -> e <= seq -> exists buffer ok,
  sp_addToBuffer p seq payload = Ret (mkSimpleProcessor (sp_expected p) buffer, ok) /\ sorted_from e buffer /\
  let m : gmap Z (list byte) := list_to_map (sp_buffer p) in
  (list_to_map buffer : gmap Z (list byte)) = match m !! seq with Some _ => m | None => <[seq := payload]> m end.
Proof.
  cbv zeta; intros Hs He; destruct (sp_search (sp_buffer p) seq (proj1 Hs)) as (L & R & El & Es & HL & HR).
  unfold sp_addToBuffer; fold (at_least seq (sp_buffer p)); rewrite Es; res_step; rewrite El in *.
  assert (seq ∉ L.*1) as HnL by (intros Hin; rewrite list.Forall_forall in HL; specialize (HL seq Hin); lia).
  destruct R as [| [s bs] R].
  - rewrite decide_True by llia; eexists _, _; split; [done |]; rewrite not_elem_of_list_to_map_1 by (by rewrite app_nil_r).
    rewrite <- app_assoc; by apply (entries_insert e L []).
  - rewrite decide_False by (cbn; llia); rewrite Nat2Z.id, list_lookup_middle by done.
    destruct (decide (s = seq)) as [-> |].
    + rewrite decide_False by tauto; exists (L ++ (seq, bs) :: R), false; split; [rewrite <- El; by destruct p |]; split; [done |].
      rewrite (elem_of_list_to_map_1 (L ++ (seq, bs) :: R) seq bs); [done | apply entries_NoDup, Hs |].
      apply elem_of_app; right; apply elem_of_cons; by left.
    + rewrite decide_True by done; eexists _, _; split; [done |].
      assert (Forall (fun k => seq < k) ((s, bs) :: R).*1) as HR'.
      { cbn in HR |- *; apply list.Forall_cons in HR as [Hs1 HR]; destruct Hs as [Hs _]; rewrite fmap_app in Hs.
        apply StronglySorted_app_1_r in Hs; cbn in Hs; apply StronglySorted_inv in Hs as [_ Hs2].
        constructor; [lia |]; eapply list.Forall_impl; [exact Hs2 | cbn; lia]. }
      replace (ztake (zlen L + 1) (L ++ (s, bs) :: R) ++ drop (length L) (L ++ (s, bs) :: R))
        with (L ++ (s, bs) :: (s, bs) :: R).
      2: { rewrite ztake_app_ge, drop_app_length by lia; replace (zlen L + 1 - zlen L) with 1 by lia; cbn; by rewrite <- app_assoc. }
      rewrite insert_app_r_alt, Nat.sub_diag by lia; cbn [insert list_insert].
      rewrite not_elem_of_list_to_map_1; [by apply entries_insert |]; rewrite fmap_app, elem_of_app; intros [? | Hin]; [done |].
      rewrite list.Forall_forall in HR'; specialize (HR' seq Hin); lia.
Qed.

Definition sp_keeps (p : SimpleProcessor) (S : list byte) (d : delivery) (u : Z) : Prop :=
  sp_expected p = next d /\ sorted_from (next d + 1) (sp_buffer p) /\ list_to_map (sp_buffer p) = held d /\ zlen S <= u.

Lemma sp_process_ok p S R F o d u seq payload d' log : sp_keeps p S d u -> deliver d seq payload payload = (d', log) ->
  exists p' F', sp_Process p seq payload (bb S R [] F o) = Ret (p', bb S [] [] F' o, (0, log)) /\
    sp_keeps p' S d' (u + zlen R) /\ zlen F' = zlen R + zlen F.
Proof.
  intros (He & Hs & Hm & Hu) Hd; unfold sp_Process; rewrite ReadLen_bb; res_step.
  destruct (Consume_bb S R [] F o (zlen R)) as (F' & Ec & HF); rewrite zdrop_all in Ec by lia.
  rewrite ztake_all in HF by lia; unfold deliver in Hd; rewrite He; case_decide as H1; [| case_decide as H2].
  - injection Hd as <- <-; res_step; rewrite Ec; res_step; exists p, F'; split; [done |]; split; [| done].
    split_and!; [done | done | done | lia].
  - rewrite <- Hm, sorted_size in Hd by apply Hs; destruct (drain _ _ _) as [d1 log1] eqn:Ed; injection Hd as <- <-.
    destruct (sp_walk_ok (sp_buffer p) (next d + 1) d1 log1 Hs Ed) as (kept & Ew & Hk & Hmk).
    unfold sp_walkBuffer; cbn [sp_buffer sp_expected]; rewrite Ew; res_step; rewrite Ec; res_step.
    exists (mkSimpleProcessor (next d1) kept), F'; split; [done |]; split; [| done]; split_and!; [done | done | done | lia].
  - destruct (sp_early p seq payload (next d + 1) Hs) as (buffer & ok & -> & Hs' & Hm'); [lia |]; res_step; rewrite Ec; res_step.
    cbv zeta in Hm'; rewrite Hm in Hm'; eexists _, F'; split; [destruct (held d !! seq); by injection Hd as <- <- |]; split; [| done].
    destruct (held d !! seq); injection Hd as <- <-; (split_and!; [done | done | done | lia]).
Qed.

#[export] Instance simple_lawful : LawfulProcessor SimpleProcessor.
Proof.
  refine {| keeps := sp_keeps; admits := fun _ _ _ => True; stash := fun _ payload _ => payload |}.
  - done.
  - by intros p S d u (_ & _ & _ & Hu).
  - intros p S d u (_ & [Hs _] & <- & _); by rewrite sorted_size.
  - intros p S R F o d u seq payload d' log Hk _ _ _ Hd.
    destruct (sp_process_ok p S R F o d u seq payload d' log Hk Hd) as (p' & F' & E & Hk' & HF).
    exists p', S, F', 0; split; [exact E |]; split; [done |]; split; [lia | done].
Defined.
End simple_laws.

(** ** The pool *)

Section pool_laws.
Context {B : Type} `{BytesPool B}.
Implicit Types (p : PoolProcessor B).

(** But for the pool, it is the simple processor. *)
Definition simple_of p : SimpleProcessor := mkSimpleProcessor (pp_expected p) (pp_buffer p).

Lemma pp_add_simple p seq payload q ok : sp_addToBuffer (simple_of p) seq payload = Ret (q, ok) ->
  exists p', pp_addToBuffer p seq payload = Ret (p', ok) /\ simple_of p' = q.
Proof.
  pose proof (pool_Get_empty (pp_pool p)) as Hg; unfold sp_addToBuffer, pp_addToBuffer; cbn [simple_of sp_buffer sp_expected].
  destruct (pool_Get (pp_pool p)) as [pl bb]; cbn in Hg; subst bb; destruct (Search _ _) as [i | |]; [| done..]; res_step.
  case_decide; [intros [= <- <-]; by eexists |]; destruct (pp_buffer p !! Z.to_nat i) as [[s' bs] |]; [| done].
  case_decide; intros [= <- <-]; by eexists.
Qed.

Lemma pp_walk_simple buffer : forall e (pl : B), exists pl', pp_walk buffer e pl = (sp_walk buffer e, pl').
Proof.
  induction buffer as [| [s' bs] buffer IH]; intros e pl; cbn; [by eexists |]; case_decide.
  - destruct (IH (e + 1) (pool_Put pl bs)) as [pl' ->]; destruct (sp_walk buffer (e + 1)) as [[? ?] ?]; by eexists.
  - destruct (IH e pl) as [pl' ->]; destruct (sp_walk buffer e) as [[? ?] ?]; by eexists.
Qed.

Lemma pp_process_simple p seq payload b q b' r : sp_Process (simple_of p) seq payload b = Ret (q, b', r) ->
  exists p', pp_Process p seq payload b = Ret (p', b', r) /\ simple_of p' = q.
Proof.
  unfold sp_Process, pp_Process, sp_walkBuffer, pp_walkBuffer; cbn [simple_of sp_buffer sp_expected pp_buffer pp_expected pp_pool].
  destruct (ReadLen b) as [n | |]; [| done..]; res_step; case_decide; [| case_decide].
  - res_step; destruct (Consume b n) as [c | |]; [| done..]; res_step; intros [= <- <- <-]; by eexists.
  - destruct (pp_walk_simple (pp_buffer p) (pp_expected p + 1) (pp_pool p)) as [pl' ->].
    destruct (sp_walk _ _) as [[e kept] log]; res_step; destruct (Consume b n) as [c | |]; [| done..]; res_step.
    intros [= <- <- <-]; by eexists.
  - intros E; apply res_bind_inv in E as ([q1 log] & E1 & E); apply res_bind_inv in E1 as ([q2 ok] & E2 & [= <- <-]).
    destruct (pp_add_simple p seq payload q2 ok E2) as (p' & -> & <-); res_step.
    destruct (Consume b n) as [c | |]; [| done..]; injection E as <- <- <-; by eexists.
Qed.

#[export] Instance pool_lawful : LawfulProcessor (PoolProcessor B).
Proof.
  refine {| keeps := fun p => sp_keeps (simple_of p); admits := fun _ _ _ => True; stash := fun _ payload _ => payload |}.
  - done.
  - by intros p S d u (_ & _ & _ & Hu).
  - intros p S d u (_ & [Hs _] & <- & _); by rewrite sorted_size.
  - intros p S R F o d u seq payload d' log Hk _ _ _ Hd.
    destruct (sp_process_ok (simple_of p) S R F o d u seq payload d' log Hk Hd) as (q & F' & E & Hk' & HF).
    destruct (pp_process_simple _ _ _ _ _ _ _ E) as (p' & E' & <-).
    exists p', S, F', 0; split; [exact E' |]; split; [done |]; split; [lia | done].
Defined.
End pool_laws.

(** * The reader *)

(** A datagram as the sender writes it: the number, the length of the payload, the payload,
    and padding. *)
Definition encode (seq : Z) (payload padding : list byte) : list byte :=
  be_encode 4 seq ++ be_encode 4 (zlen payload) ++ payload ++ padding.

Section reader_laws.
Context {Pr : Type} `{GoRuntime} `{!ByteBufferProcessor Pr} `{!LawfulProcessor Pr}.
Implicit Types (r : ByteBufferReader Pr).

(** Between two datagrams: [size] bytes are claimed behind the save area, of a buffer with
    the capacity [cap]. *)
Definition ready r (d : delivery) (u size cap : Z) : Prop := exists S W F o,
  rbuf r = bb S [] W F o /\ claimed r = Some (zlen S, zlen S + size) /\ zlen W = size /\ readBufSize r = size /\
  first r = false /\ keeps (proc r) S d u /\ zlen S + size + zlen F = cap.

(** The data of the datagram, and what its decoding finds. *)
Lemma decode_bb S F o seq payload padding size : 0 <= seq < 2 ^ 32 -> zlen payload <= size < 2 ^ 32 ->
  exists F', decode (bb S (encode seq payload padding) [] F o) size = Ret (bb S (payload ++ padding) [] F' o, seq, payload) /\
    zlen F' = 8 + zlen F.
Proof.
  intros Hseq Hsz; unfold decode; rewrite Data_bb; res_step; unfold encode.
  rewrite decide_False by (rewrite !length_app, !length_be_encode; lia).
  rewrite (take_app_length' (be_encode 4 seq)), (drop_app_length' (be_encode 4 seq)) by (by rewrite length_be_encode).
  rewrite take_app_length' by (by rewrite length_be_encode).
  rewrite !be_decode_encode, !Z.mod_small by lia; rewrite decide_False by lia.
  destruct (Consume_bb S (be_encode 4 seq ++ be_encode 4 (zlen payload) ++ payload ++ padding) [] F o 8) as (F' & -> & HF); res_step.
  rewrite (app_assoc (be_encode 4 seq)), drop_app_length' by (by rewrite length_app, !length_be_encode).
  rewrite reslice_bb by (cbn; llia); res_step; cbn [ri si bb].
  rewrite reslice_0 by (unfold scap; cbn [arr]; llia); res_step; exists F'; split.
  - do 2 f_equal; unfold elems; cbn [arr slen]; rewrite zdrop_app_ge, Z.sub_diag, zdrop_neg by lia.
    by rewrite <- app_assoc, ztake_app_le, ztake_all by lia.
  - rewrite HF; autorewrite with zlist; rewrite !length_be_encode; lia.
Qed.

(** What arrived is committed behind the save area, and the rest of the claimed slice is free. *)
Lemma arrive_bb S W F o bs : zlen bs <= zlen W -> zlen S + zlen W <= 2 ^ 61 -> exists F',
  (let b := with_data (bb S [] W F o) (Slice (write_at (zlen S) bs (arr (data (bb S [] W F o)))) (slen (data (bb S [] W F o)))) in
   '(b, _) ← ShrinkTo b (zlen bs); Ret (Commit b (zlen bs))) = Ret (bb S bs [] F' o) /\
  zlen bs + zlen F' = zlen W + zlen F.
Proof.
  intros Hb Hm; assert (write_at (zlen S) bs (S ++ [] ++ W ++ F) = S ++ [] ++ (bs ++ zdrop (zlen bs) W) ++ F) as Hw.
  { unfold write_at; cbn [app]; rewrite ztake_app_le, ztake_all, zdrop_app_ge by lia.
    replace (zlen S + zlen bs - zlen S) with (zlen bs) by lia; rewrite zdrop_app_le by lia; by rewrite <- !app_assoc. }
  set (W' := bs ++ zdrop (zlen bs) W) in Hw; assert (zlen W' = zlen W) as HW by (unfold W'; llia).
  assert (with_data (bb S [] W F o) (Slice (write_at (zlen S) bs (arr (data (bb S [] W F o)))) (slen (data (bb S [] W F o)))) =
    bb S [] W' F o) as ->.
  { unfold with_data, bb; cbn [data arr slen si ri wi oneByte]; rewrite Hw, HW; done. }
  cbv zeta; rewrite ShrinkTo_bb by (unfold is_int; lia); res_step; rewrite Commit_bb by (unfold is_int; cbn [length]; lia).
  replace (zlen W' - Z.max 0 (Z.min (zlen W' - zlen bs) (zlen W'))) with (zlen bs) by lia; cbn [app].
  assert (ztake (zlen bs) W' = bs) as -> by (unfold W'; by rewrite take_app_length' by lia).
  rewrite ztake_all, (zdrop_all (zlen bs) bs) by lia; eexists; split; [done |]; llia.
Qed.

Lemma datagram_ok r d u size cap seq payload padding d' log : let R := payload ++ padding in
  ready r d u size cap -> 0 <= seq < 2 ^ 32 -> R <> [] -> 8 + zlen R <= size < 2 ^ 32 -> cap <= 2 ^ 60 ->
  u + zlen R + size <= cap -> admits (proc r) (u + zlen R) (Datatypes.S (base.size (held d))) ->
  deliver d seq payload (stash (proc r) payload R) = (d', log) ->
  exists r', datagram r (encode seq payload padding) = Ret (r', log) /\ ready r' d' (u + zlen R) size cap /\
    (forall v k, admits (proc r) v k -> admits (proc r') v k) /\ stash (proc r') = stash (proc r).
Proof.
  intros R (S & W & F & o & Hb & Hc & HW & Hr & Hf & Hk & Hcap) Hseq Hne Hsz Hm Hroom Hadm Hd.
  assert (zlen (encode seq payload padding) = 8 + zlen R) as He.
  { unfold encode, R; rewrite !length_app, !length_be_encode; lia. }
  destruct (arrive_bb S W F o (encode seq payload padding)) as (F1 & Ea & HF1); [lia | lia |]; cbv zeta in Ea.
  apply res_bind_inv in Ea as ([b1 k1] & E1 & E2); unfold datagram; rewrite Hc; cbn [from_option id].
  rewrite ztake_all by lia; unfold onRead; cbn [rbuf first proc readBufSize]; rewrite Hb, E1; res_step.
  assert (Commit b1 (zlen (encode seq payload padding)) = bb S (encode seq payload padding) [] F1 o) as -> by congruence.
  rewrite Hr, Hf.
  destruct (decode_bb S F1 o seq payload padding size) as (F2 & -> & HF2); [done | unfold R in *; llia |]; res_step.
  rewrite decide_False by (by intros [? _]); fold R.
  destruct (process_ok (proc r) S R F2 o d u seq payload d' log) as (p' & S' & F' & k & -> & Hk' & HF' & Ha & Hst);
    [done | done | unfold max_alloc; lia | done | done |]; res_step.
  pose proof (keeps_saved _ _ _ _ Hk') as Hs'; rewrite ClaimFixed_bb by (unfold is_int; cbn [length]; lia).
  rewrite decide_True by lia; res_step; eexists; split; [done |]; split; [| by split].
  exists S', (ztake size F'), (zdrop size F'), o; cbn [rbuf claimed readBufSize first proc]; split_and!; try done; cbn [length app].
  - by rewrite !Z.add_0_r.
  - llia.
  - llia.
Qed.
End reader_laws.

(** * Many datagrams *)

Record packet : Type := mkPacket { pk_seq : Z; pk_payload : list byte; pk_padding : list byte }.

Definition pk_data (x : packet) : list byte := pk_payload x ++ pk_padding x.
Definition pk_bytes (x : packet) : list byte := encode (pk_seq x) (pk_payload x) (pk_padding x).

(** A packet that carries something and fits in the slice that is claimed for it. *)
Definition pk_valid (size : Z) (x : packet) : Prop :=
  1 <= pk_seq x < 2 ^ 32 /\ pk_data x <> [] /\ 8 + zlen (pk_data x) <= size.

Fixpoint total_data (xs : list packet) : Z :=
  match xs with
  | [] => 0
  | x :: xs => zlen (pk_data x) + total_data xs
  end.

Fixpoint first_packet (xs : list packet) (i : Z) : option packet :=
  match xs with
  | [] => None
  | x :: xs => if decide (pk_seq x = i) then Some x else first_packet xs i
  end.

(** The packets as a processor with [stash] keeps them. *)
Definition kept_by (stash : list byte -> list byte -> list byte) (xs : list packet) : packets :=
  (fun x => (pk_seq x, (pk_payload x, stash (pk_payload x) (pk_data x)))) <$> xs.

Lemma first_kept_by g xs i :
  first_of (kept_by g xs) i = (fun x => (pk_payload x, g (pk_payload x) (pk_data x))) <$> first_packet xs i.
Proof. induction xs as [| x xs IH]; cbn; [done |]; case_decide; [done |]; exact IH. Qed.

Lemma total_data_nonneg xs : 0 <= total_data xs.
Proof. induction xs; cbn; lia. Qed.

Lemma drain_size fuel : forall e m d log, drain fuel e m = (d, log) -> (size (held d) <= size m)%nat.
Proof.
  induction fuel as [| fuel IH]; intros e m d log; cbn; [by intros [= <- <-] |].
  destruct (m !! e) eqn:E; [| by intros [= <- <-]]; destruct (drain fuel (e + 1) (delete e m)) as [d1 log1] eqn:Ed.
  intros [= <- <-]; apply IH in Ed; rewrite map_size_delete_Some in Ed by (by rewrite E); lia.
Qed.

Lemma deliver_size d seq payload kept d' log : deliver d seq payload kept = (d', log) ->
  (size (held d') <= Datatypes.S (size (held d)))%nat.
Proof.
  unfold deliver; case_decide; [intros [= <- <-]; lia |]; case_decide.
  - destruct (drain _ _ _) as [d1 log1] eqn:E; intros [= <- <-]; apply drain_size in E; lia.
  - destruct (held d !! seq) eqn:E; intros [= <- <-]; [lia |]; cbn; rewrite map_size_insert_None by done; lia.
Qed.

Section many_datagrams.
Context {Pr : Type} `{GoRuntime} `{!ByteBufferProcessor Pr} `{!LawfulProcessor Pr}.
Implicit Types (r : ByteBufferReader Pr).

Lemma datagrams_ok size cap xs : 0 <= size < 2 ^ 32 -> cap <= 2 ^ 60 -> Forall (pk_valid size) xs -> forall r d u d' log,
  ready r d u size cap -> u + total_data xs + size <= cap -> admits (proc r) (u + total_data xs) (base.size (held d) + length xs) ->
  deliver_all d (kept_by (stash (proc r)) xs) = (d', log) ->
  exists r', datagrams r (pk_bytes <$> xs) = Ret (r', log) /\ ready r' d' (u + total_data xs) size cap.
Proof.
  intros Hsize Hcap Hxs; induction Hxs as [| x xs (Hseq & Hne & Hfit) Hxs IH]; intros r d u d' log Hr Hroom Hadm Hd.
  { injection Hd as <- <-; exists r; split; [done |]; cbn; by rewrite Z.add_0_r. }
  cbn in Hroom, Hadm, Hd; rewrite fmap_cons; cbn [datagrams total_data]; pose proof (total_data_nonneg xs) as Hnn.
  destruct (deliver d (pk_seq x) (pk_payload x) _) as [d1 log1] eqn:E1; destruct (deliver_all d1 _) as [d2 log2] eqn:E2.
  injection Hd as <- <-; fold (kept_by (stash (proc r)) xs) in E2.
  destruct (datagram_ok r d u size cap (pk_seq x) (pk_payload x) (pk_padding x) d1 log1 Hr) as (r1 & Ed & Hr1 & Ha & Hst);
    fold (pk_data x) in *; [lia | done | lia | done | lia | eapply admits_less; [exact Hadm | lia | lia] | done |].
  pose proof (deliver_size _ _ _ _ _ _ E1) as Hs; destruct (IH r1 d1 (u + zlen (pk_data x)) d2 log2 Hr1) as (r2 & E & Hr2).
  - lia.
  - apply Ha; eapply admits_less; [exact Hadm | lia | lia].
  - by rewrite Hst.
  - fold (pk_bytes x) in Ed; rewrite Ed; res_step; rewrite E; res_step; exists r2; split; [done |].
    by replace (u + (zlen (pk_data x) + total_data xs)) with (u + zlen (pk_data x) + total_data xs) by lia.
Qed.

(** From the construction of the reader on. *)
Lemma receive_all_ok (p : Pr) bufSize rsize xs d log : 0 <= rsize < 2 ^ 32 -> bufSize <= max_alloc ->
  Forall (pk_valid rsize) xs -> total_data xs + rsize <= bufSize ->
  keeps p [] start 0 -> admits p (total_data xs) (length xs) -> deliver_all start (kept_by (stash p) xs) = (d, log) ->
  exists r, receive_all p bufSize rsize (pk_bytes <$> xs) = Ret (r, log) /\ caught_up (kept_by (stash p) xs) d log.
Proof.
  intros Hsize Hbuf Hxs Hroom Hk Hadm Hd; pose proof (total_data_nonneg xs) as Hnn; unfold max_alloc in *.
  assert (exists r, receive_all p bufSize rsize (pk_bytes <$> xs) = Ret (r, log)) as [r Er].
  { unfold receive_all, NewByteBufferReader; change NewByteBuffer with (bb [] [] [] (replicate 512 zero) zero).
    set (F0 := replicate 512 zero); assert (zlen F0 = 512) as HF0 by done; clearbody F0.
    destruct (Reserve_bb [] [] [] F0 zero bufSize) as (F & Ef & HF & _); [unfold is_int; lia | unfold max_alloc; lia |].
    pose proof (Reserve_cap [] [] [] F0 zero bufSize _ ltac:(unfold is_int; lia) Ef) as Hcap; unfold Cap in Hcap; rewrite !scap_bb in Hcap.
    cbn [length] in Hcap.
    rewrite Ef; res_step; rewrite Prefault_bb; res_step; unfold Setup; cbn [rbuf readBufSize length replicate].
    unfold max_alloc in Hcap; rewrite ClaimFixed_bb by (unfold is_int; llia); rewrite decide_True by llia; res_step.
    match goal with |- context [datagrams ?r _] =>
      destruct (datagrams_ok rsize (zlen F) xs Hsize ltac:(llia) Hxs r start 0 d log)
      as (r' & E & _) end; [| llia | done | done | by exists r'].
    eexists [], _, _, zero; cbn [rbuf claimed readBufSize first proc]; split_and!; try done; llia. }
  exists r; split; [done |]; apply deliver_all_ok; [| done]; unfold kept_by; apply list.Forall_fmap.
  eapply list.Forall_impl; [exact Hxs |]; intros x (Hx & _); cbn; lia.
Qed.
End many_datagrams.

(** * In order *)

Lemma fenwick_start `{GoRuntime} ms mb : 0 <= ms <= max_alloc -> 0 <= mb <= max_alloc -> exists p,
  NewFenwickProcessor ms mb = Ret p /\ fp_keeps p [] start 0 /\ forall u k, u <= mb -> Z.of_nat k <= ms -> fp_admits p u k.
Proof.
  intros Hms Hmb; destruct (implements_new ms mb Hms Hmb) as (q & Hq & (S & F & o & Hb & Hst) & Hu & Hmax & Hsl).
  unfold NewFenwickProcessor; rewrite Hq; res_step; eexists; split; [done |]; split.
  - replace S with (@nil byte) in Hst by (destruct S; [done | discriminate Hb]); by split_and!.
  - intros u k Hu' Hk; split; cbn; lia.
Qed.

(** The number that is due is the first that has not arrived. *)
Lemma next_is xs g d log : caught_up (kept_by g xs) d log ->
  1 <= next d /\ (forall i, 1 <= i < next d -> is_Some (first_packet xs i)) /\ first_packet xs (next d) = None.
Proof.
  intros ((Hle & Hk & Hall) & _ & Hn); rewrite first_kept_by in Hn; split_and!; [done | | by destruct (first_packet xs (next d))].
  intros i Hi; assert (i ∈ log.*1) as ([j bs] & -> & Hin)%list_elem_of_fmap by (rewrite Hk; apply elem_of_seqZ; lia).
  rewrite list.Forall_forall in Hall; destruct (Hall _ Hin) as (x & k & E & _); rewrite first_kept_by in E; cbn in *.
  by destruct (first_packet xs j).
Qed.

Lemma next_unique xs g g' d d' log log' : caught_up (kept_by g xs) d log -> caught_up (kept_by g' xs) d' log' -> next d = next d'.
Proof.
  intros (H1 & H2 & H3)%next_is (G1 & G2 & G3)%next_is; destruct (Z.lt_trichotomy (next d) (next d')) as [Hlt | [Heq | Hlt]]; [| done |].
  - destruct (G2 (next d) ltac:(lia)) as [x Hx]; congruence.
  - destruct (H2 (next d') ltac:(lia)) as [x Hx]; congruence.
Qed.

(** The three receivers on the same datagrams. *)
Lemma receivers_run `{GoRuntime} {B : Type} `{BytesPool B} (pl : B) (maxSlots bufSize rsize : Z) (xs : list packet) :
  0 <= rsize < 2 ^ 32 -> Forall (pk_valid rsize) xs -> total_data xs + rsize <= bufSize <= max_alloc ->
  zlen xs <= maxSlots <= max_alloc ->
  exists p r1 r2 r3 log1 log2 k,
    NewFenwickProcessor maxSlots bufSize = Ret p /\
    receive_all p bufSize rsize (pk_bytes <$> xs) = Ret (r1, log1) /\
    receive_all NewSimpleProcessor bufSize rsize (pk_bytes <$> xs) = Ret (r2, log2) /\
    receive_all (NewPoolProcessor pl) bufSize rsize (pk_bytes <$> xs) = Ret (r3, log2) /\
    log1.*1 = seqZ 1 k /\ log2.*1 = seqZ 1 k /\ 0 <= k /\ first_packet xs (k + 1) = None /\
    Forall (fun '(i, bs) => exists x, first_packet xs i = Some x /\ (bs = pk_payload x \/ bs = pk_data x)) log1 /\
    Forall (fun '(i, bs) => exists x, first_packet xs i = Some x /\ bs = pk_payload x) log2.
Proof.
  intros Hr Hxs Hbuf Hms; pose proof (total_data_nonneg xs) as Hnn.
  destruct (fenwick_start maxSlots bufSize) as (p & Hp & Hkeeps & Hadm); [lia | lia |].
  destruct (deliver_all start (kept_by (stash p) xs)) as [d1 log1] eqn:E1.
  destruct (deliver_all start (kept_by (stash NewSimpleProcessor) xs)) as [d2 log2] eqn:E2.
  destruct (receive_all_ok p bufSize rsize xs d1 log1 Hr) as (r1 & R1 & C1); try done; [lia | lia | by apply Hadm; lia |].
  destruct (receive_all_ok NewSimpleProcessor bufSize rsize xs d2 log2 Hr) as (r2 & R2 & C2); try done; [lia | lia | |].
  { split_and!; [done | split; constructor | done | cbn; lia]. }
  destruct (receive_all_ok (NewPoolProcessor pl) bufSize rsize xs d2 log2 Hr) as (r3 & R3 & _); try done; [lia | lia | |].
  { split_and!; [done | split; constructor | done | cbn; lia]. }
  exists p, r1, r2, r3, log1, log2, (next d1 - 1); pose proof (next_unique _ _ _ _ _ _ _ C1 C2) as Hd.
  pose proof (next_is _ _ _ _ C1) as (H1 & _ & Hn); destruct C1 as ((_ & K1 & A1) & _), C2 as ((_ & K2 & A2) & _).
  split_and!; try done; [by rewrite Hd | lia | by replace (next d1 - 1 + 1) with (next d1) by lia | |].
  - eapply list.Forall_impl; [exact A1 |]; intros [i bs] (x & k & E & Hb); rewrite first_kept_by in E; cbn [fst snd] in *.
    destruct (first_packet xs i) as [y |]; [| done]; injection E as <- <-; by exists y.
  - eapply list.Forall_impl; [exact A2 |]; intros [i bs] (x & k & E & Hb); rewrite first_kept_by in E; cbn [fst snd] in *.
    destruct (first_packet xs i) as [y |]; [| done]; injection E as <- <-; exists y; split; [done | by destruct Hb].
Qed.

(** C19: The receivers that use byte buffers process in order, whatever order the datagrams
    arrive in, how often each is repeated and however it is padded: given datagrams that
    carry a payload or padding and fit a read, numbers from 1 to [2 ^ 32 - 1], and room for
    all the payloads in the buffer and the slots, all three return without panicking and process exactly the
    numbers 1 to [k], each once and in order, where [k + 1] is the first number that has not
    arrived.  The bytes that are processed are the payload of the first datagram with the
    number; the receiver on the slot sequencer may process its padding with it. *)
Theorem receivers_in_order (rt : GoRuntime) {B : Type} `{BytesPool B} (pl : B) (maxSlots bufSize rsize : Z) (xs : list packet) :
  0 <= rsize < 2 ^ 32 -> Forall (pk_valid rsize) xs -> total_data xs + rsize <= bufSize <= max_alloc ->
  zlen xs <= maxSlots <= max_alloc ->
  exists p r1 r2 r3 log1 log2 k,
    NewFenwickProcessor maxSlots bufSize = Ret p /\
    receive_all p bufSize rsize (pk_bytes <$> xs) = Ret (r1, log1) /\
    receive_all NewSimpleProcessor bufSize rsize (pk_bytes <$> xs) = Ret (r2, log2) /\
    receive_all (NewPoolProcessor pl) bufSize rsize (pk_bytes <$> xs) = Ret (r3, log2) /\
    log1.*1 = seqZ 1 k /\ log2.*1 = seqZ 1 k /\ 0 <= k /\ first_packet xs (k + 1) = None /\
    Forall (fun '(i, bs) => exists x, first_packet xs i = Some x /\ (bs = pk_payload x \/ bs = pk_data x)) log1 /\
    Forall (fun '(i, bs) => exists x, first_packet xs i = Some x /\ bs = pk_payload x) log2.
Proof. apply receivers_run. Qed.

#[local] Existing Instance doubling_runtime.

(** A pool that hands out what was put in last, emptied. *)
#[export] Instance bytes_pool : BytesPool (list (list byte)).
Proof. by refine {| pool_Get := fun pl => (tail pl, []); pool_Put := fun pl bs => bs :: pl |}. Defined.

(** Five datagrams in disorder, one of them twice. *)
Definition disordered : list packet :=
  [mkPacket 3 [Byte.x63] [Byte.x00]; mkPacket 1 [Byte.x61] []; mkPacket 3 [Byte.x7a] [];
   mkPacket 5 [Byte.x65] []; mkPacket 2 [Byte.x62; Byte.x62] [Byte.x00; Byte.x00]].

Lemma receivers_in_order_witness : exists p r1 r2 r3 log1,
  NewFenwickProcessor 8 64 = Ret p /\
  receive_all p 64 16 (pk_bytes <$> disordered) = Ret (r1, log1) /\
  receive_all NewSimpleProcessor 64 16 (pk_bytes <$> disordered) =
    Ret (r2, [(1, [Byte.x61]); (2, [Byte.x62; Byte.x62]); (3, [Byte.x63])]) /\
  receive_all (NewPoolProcessor ([] : list (list byte))) 64 16 (pk_bytes <$> disordered) =
    Ret (r3, [(1, [Byte.x61]); (2, [Byte.x62; Byte.x62]); (3, [Byte.x63])]) /\ log1.*1 = [1; 2; 3].
Proof.
  destruct (receivers_in_order doubling_runtime ([] : list (list byte)) 8 64 16 disordered) as (p & r1 & r2 & r3 & log1 & log2 & k & Hp & R1 & R2 & R3 & K1 & K2 & _).
  - lia.
  - repeat (apply List.Forall_cons; [unfold pk_valid, pk_data; cbn; split_and!; [lia | lia | discriminate | lia] |]).
    apply List.Forall_nil.
  - unfold max_alloc; cbn; lia.
  - unfold max_alloc; cbn; lia.
  - assert (log2 = [(1, [Byte.x61]); (2, [Byte.x62; Byte.x62]); (3, [Byte.x63])]) as ->.
    { assert ((match receive_all NewSimpleProcessor 64 16 (pk_bytes <$> disordered) with
               | Ret (_, log) => log | _ => [] end) = [(1, [Byte.x61]); (2, [Byte.x62; Byte.x62]); (3, [Byte.x63])]) as E
        by (vm_compute; reflexivity).
      rewrite R2 in E; exact E. }
    exists p, r1, r2, r3, log1; split_and!; [exact Hp | exact R1 | exact R2 | exact R3 | rewrite K1, <- K2; reflexivity].
Defined.
