(* ===== verification/SequencingSender.v ===== *)
(** The sender of [src/examples/sequencing/sender]: numbered datagrams with gaps that are
    filled later, sent by a repeating timer.

    The closure [prepare] fills the buffer and moves on to the next number; the callback of
    the timer sends the buffer [duplicate] times with [UDPPeer.Write] of [UDPPeer.v].
    [math/rand] is a parameter; logging is left out.  The mode without a rate, which sends
    from the callbacks of [AsyncWrite], is not modelled. *)

From stdpp Require Import gmap.
From S2P Require Import Prelude GoSlice Poller NetAddr EventLoop UDPPeer.

(** The draws from [math/rand]: [draw i n] is the [i]-th, with the bound [n]. *)
Class Rand := {
  draw : nat -> Z -> Z;
  draw_range : forall i n, 0 < n -> 0 <= draw i n < n
}.

Definition letters : list byte :=
  [Byte.x61; Byte.x62; Byte.x63; Byte.x64; Byte.x65; Byte.x66; Byte.x67; Byte.x68; Byte.x69; Byte.x6a; Byte.x6b; Byte.x6c; Byte.x6d;
   Byte.x6e; Byte.x6f; Byte.x70; Byte.x71; Byte.x72; Byte.x73; Byte.x74; Byte.x75; Byte.x76; Byte.x77; Byte.x78; Byte.x79; Byte.x7a].

Definition u32 (x : Z) : Z := x mod 2 ^ 32.
Definition i32 (x : Z) : Z := (x + 2 ^ 31) mod 2 ^ 32 - 2 ^ 31.

(** [binary.BigEndian.PutUint32(b[off:], v)]. *)
Definition put_u32 (b : list byte) (off v : Z) : res (list byte) :=
  if decide (off + 4 <= zlen b) then Ret (write_at off (be_encode 4 v) b) else Panic.

(** The variables of [main] that [prepare] captures, the slice [b] by its place in the memory,
    and the number of draws so far. *)
Record sender : Type := mkSender {
  sb : nat; seq : Z; continuation : Z; until : Z; present : bool; draws : nat }.

Section sender.
Context `{Rand} {K Y : Type} `{Epoll K} `{System Y}.
Abbreviation W := (world K Y).
Implicit Types (w : W).
Variables gap writeBufferSize : Z.

(** [Int31n] and [Intn] panic when the bound is not positive. *)
Definition rand_n (i : nat) (n : Z) : res Z := if decide (0 < n) then Ret (draw i n) else Panic.

Definition jump (i : nat) : res Z := x ← rand_n i (i32 gap); Ret (u32 (i32 (x + 1))).

(** [b := make([]byte, *writeBufferSize)] and the variables. *)
Definition new_sender w : res (sender * W) :=
  if decide (0 <= writeBufferSize) then
    let b := replicate (Z.to_nat writeBufferSize) Byte.x00 in
    let w' := mkWorld (ioc w) (objs w) (mem w ++ [b]) (sys w) (nesting w) (called w) in
    j ← jump 0;
    Ret (mkSender (length (mem w)) 1 1 j true 1, w')
  else Panic.

(** [for i := 0; i < n; i++ { b[8+i] = letters[i%len(letters)] }], from [i] on. *)
Fixpoint fill (b : list byte) (i n : nat) : res (list byte) :=
  match n with
  | O => Ret b
  | S n =>
      if decide (8 + i < length b)%nat then
        fill (<[(8 + i)%nat := nth (i mod length letters) letters Byte.x00]> b) (S i) n
      else Panic
  end.

(** The number of the next datagram. *)
Definition advance (s : sender) (i : nat) : res sender :=
  if decide (seq s < until s) then
    Ret (mkSender (sb s) (u32 (seq s + 1)) (continuation s) (until s) (present s) i)
  else if present s then
    j ← jump i;
    k ← jump (S i);
    let seq' := u32 (seq s + j) in
    Ret (mkSender (sb s) seq' (u32 (seq s + 1)) (u32 (seq' + k)) false (S (S i)))
  else
    j ← jump i;
    Ret (mkSender (sb s) (continuation s) (continuation s) (u32 (until s + j)) true (S i)).

Definition prepare (s : sender) w : res (sender * W) :=
  b ← buffer w (Some (sb s));
  b ← put_u32 b 0 (seq s);
  n ← rand_n (draws s) (zlen b - 8);
  b ← put_u32 b 4 n;
  b ← fill b 0 (Z.to_nat n);
  s ← advance s (S (draws s));
  Ret (s, store w (Some (sb s)) b).

(** [p] is the peer, [maddr] the group. *)
Variables (p : nat) (maddr : AddrPort) (duplicate patience : nat).

(** [for err == sonicerrors.ErrWouldBlock { _, err = p.Write(b, maddr) }]; other errors
    panic. *)
Fixpoint write_retry (fuel : nat) (b : option nat) w : res W :=
  match fuel with
  | O => NoFuel
  | S fuel =>
      '(w, (_, err)) ← peer_Write w p b maddr;
      match err with
      | None => Ret w
      | Some e => if decide (e = ErrWouldBlock) then write_retry fuel b w else Panic
      end
  end.

Fixpoint write_times (k : nat) (b : option nat) w : res W :=
  match k with
  | O => Ret w
  | S k => w ← write_retry (S patience) b w; write_times k b w
  end.

(** The callback of the timer; [patience] bounds the refusals of a datagram. *)
Definition on_tick (s : sender) w : res (sender * W) :=
  '(s, w) ← prepare s w;
  w ← write_times duplicate (Some (sb s)) w;
  Ret (s, w).

Fixpoint on_ticks (n : nat) (s : sender) w : res (sender * W) :=
  match n with
  | O => Ret (s, w)
  | S n => '(s, w) ← on_tick s w; on_ticks n s w
  end.
End sender.
