(* ===== verification/SequencingTalk.v ===== *)
(** The sender of [SequencingSender.v] and the receivers of [Sequencing.v] together. *)

From stdpp Require Import gmap.
From S2P Require Import Prelude GoSlice ByteBuffer FenwickTree Slots SlotSequencer Poller NetAddr EventLoop EventLoopProps UDPPeer.
From S2P Require Import Sequencing SequencingSpec SequencingSender.

(** * What one datagram holds *)

Definition letter (i : nat) : byte := nth (i mod length letters) letters Byte.x00.

(** The alphabet, over and over. *)
Definition word (n : nat) : list byte := letter <$> List.seq 0 n.

Lemma fill_ok m : forall h rest i, length h = (8 + i)%nat ->
  fill (h ++ m ++ rest) i (length m) = Ret (h ++ (letter <$> List.seq i (length m)) ++ rest).
Proof.
  induction m as [| y m IH]; intros h rest i Hh; [done |]. cbn [fill length List.seq]. fold (letter i).
  rewrite decide_True by (rewrite !length_app; cbn; lia). rewrite insert_app_r_alt by lia.
  replace (8 + i - length h)%nat with 0%nat by lia. cbn [app]. change (<[0%nat := letter i]> (y :: m ++ rest)) with (letter i :: m ++ rest).
  rewrite (cons_middle (letter i) h (m ++ rest)), app_assoc, IH by (rewrite length_app; cbn; lia).
  by rewrite fmap_cons, <- app_assoc.
Qed.

Lemma length_word n : length (word n) = n.
Proof. unfold word. by rewrite length_fmap, length_seq. Qed.

Section talk.
Context `{Rand} {K Y : Type} `{Epoll K} `{System Y}.
Variable gap : Z.
Hypothesis gap_range : 1 <= gap < 2 ^ 31.

Lemma jump_ok i : exists j, jump gap i = Ret j /\ 1 <= j <= gap.
Proof.
  unfold jump, rand_n. assert (i32 gap = gap) as -> by (unfold i32; rewrite Z.mod_small; lia).
  rewrite decide_True by lia. res_step. pose proof (draw_range i gap ltac:(lia)) as Hd. eexists. split; [reflexivity |].
  unfold i32, u32. rewrite (Z.mod_small (_ + 2 ^ 31)) by lia. rewrite Z.mod_small by lia. lia.
Qed.

(** The packet [prepare] puts into the buffer. *)
Definition packet_of (s : sender) (b : list byte) (n : nat) : packet := mkPacket (seq s) (word n) (drop (8 + n) b).

Lemma prepare_packet s (w : world K Y) buf : mem w !! sb s = Some buf -> 8 < zlen buf ->
  exists n, zlen (pk_bytes (packet_of s buf n)) = zlen buf /\
    prepare gap s w = (s' ← advance gap s (Datatypes.S (draws s)); Ret (s', store w (Some (sb s')) (pk_bytes (packet_of s buf n)))).
Proof.
  intros Hb Hl. unfold prepare, put_u32. cbn [buffer]. unfold deref. rewrite Hb. res_step. rewrite decide_True by lia. res_step.
  destruct (split3 4 8 buf) as (a & b & c & E & Ha & Hb'); [lia | lia |].
  pose proof (write_at_app 0 (be_encode 4 (seq s)) [] a (b ++ c) eq_refl) as W0. rewrite length_be_encode in W0. cbn [app] in W0.
  rewrite E in Hl. rewrite E, W0 by lia. unfold rand_n. pose proof (length_be_encode 4 (seq s)) as Hs. rewrite !length_app in *. rewrite decide_True by lia. res_step.
  match goal with |- context [draw ?i ?n] => pose proof (draw_range i n ltac:(lia)) as Hd; set (m := draw i n) in * end.
  pose proof (length_be_encode 4 m) as Hm.
  rewrite decide_True by lia. res_step. rewrite (write_at_app 4 (be_encode 4 m) (be_encode 4 (seq s)) b c) by lia.
  destruct (split3 0 m c) as (a' & x & rest & -> & Ha' & Hw); [lia | llia |]. destruct a'; [| cbn in Ha'; lia]. cbn [app].
  replace (Z.to_nat m) with (length x) by lia.
  rewrite (app_assoc (be_encode 4 (seq s))), (fill_ok x) by (rewrite length_app; lia). res_step. exists (length x).
  unfold packet_of, pk_bytes, encode. cbn [pk_seq pk_payload pk_padding]. rewrite length_word.
  replace (drop (8 + length x) _) with rest.
  - replace (zlen x) with m by lia. rewrite <- !app_assoc. split; [| done]. rewrite !length_app, length_word. lia.
  - rewrite !app_assoc. symmetry. apply drop_app_length'. rewrite !length_app. lia.
Qed.

(** * Which numbers are sent *)

(** After [k] packets all the numbers up to [cov] have been sent: while the numbers are
    consecutive those below [seq], and during an excursion those below [continuation].  An
    excursion takes at most [gap + 1] packets. *)
Definition progress (k cov : Z) (s : sender) : Prop :=
  1 <= continuation s <= seq s /\ seq s <= until s /\ 0 <= cov <= k /\
  if present s then cov = seq s - 1 /\ until s <= continuation s - 1 + 3 * gap /\ k <= cov * (gap + 2) + gap + 1
  else cov = continuation s - 1 /\ until s <= cov + 2 * gap /\ k <= cov * (gap + 2) + gap - (until s - seq s).

Lemma progress_seq k cov s : progress k cov s -> 1 <= seq s <= k + 3 * gap.
Proof. intros (? & ? & ? & Hp). destruct (present s); lia. Qed.

Lemma u32_small x : 0 <= x < 2 ^ 32 -> u32 x = x.
Proof. apply Z.mod_small. Qed.

Lemma advance_ok k cov s i : progress k cov s -> k + 4 * gap < 2 ^ 32 ->
  exists s' cov', advance gap s i = Ret s' /\ sb s' = sb s /\ progress (k + 1) cov' s' /\
    (cov' = cov \/ (cov' = cov + 1 /\ seq s = cov')).
Proof.
  intros (Hc & Hu & Hk & Hp) Hlim. unfold advance. destruct (jump_ok i) as (j & Ej & Hj), (jump_ok (S i)) as (j' & Ej' & Hj').
  destruct (present s) eqn:Eb; destruct Hp as (Hcov & Hun & Hw); case_decide.
  - rewrite u32_small by lia. eexists _, (cov + 1). split; [reflexivity |]. split; [done |]. split; [| lia].
    unfold progress. cbn [seq continuation until present]. rewrite ?Eb. lia.
  - rewrite Ej. res_step. rewrite Ej'. res_step. rewrite !u32_small by (rewrite ?u32_small; lia).
    eexists _, (cov + 1). split; [reflexivity |]. split; [done |]. split; [| lia].
    unfold progress. cbn [seq continuation until present]. lia.
  - rewrite u32_small by lia. eexists _, cov. split; [reflexivity |]. split; [done |]. split; [| lia].
    unfold progress. cbn [seq continuation until present]. rewrite ?Eb. lia.
  - rewrite Ej. res_step. rewrite u32_small by lia. eexists _, cov. split; [reflexivity |]. split; [done |]. split; [| lia].
    unfold progress. cbn [seq continuation until present]. lia.
Qed.

Lemma new_sender_ok size (w : world K Y) : 0 <= size -> exists s w', new_sender gap size w = Ret (s, w') /\
  (exists b, mem w' !! sb s = Some b /\ zlen b = size) /\ objs w' = objs w /\ sys w' = sys w /\ progress 0 0 s.
Proof.
  intros Hs. unfold new_sender. rewrite decide_True by done. destruct (jump_ok 0) as (j & -> & Hj). res_step.
  eexists _, _. split; [reflexivity |]. cbn [sb mem objs sys]. split_and!; [| done | done |].
  - eexists. split; [by apply list_lookup_middle |]. rewrite length_replicate. lia.
  - unfold progress. cbn [seq continuation until present]. lia.
Qed.
End talk.

(** * What is on the wire *)

(** The datagrams that left the socket [fd] for [to]: sendto(2) sends the whole datagram, or
    reports an error and sends nothing. *)
Class Wire (Y : Type) `{System Y} (fd : Z) (to : Sockaddr) := {
  on_wire : Y -> list (list byte);
  sendto_ok : forall y bs y', sys_sendto y fd bs to = (y', None) -> on_wire y' = on_wire y ++ [bs];
  sendto_failed : forall y bs y' e, sys_sendto y fd bs to = (y', Some e) -> on_wire y' = on_wire y
}.

(** The only refusal is that the buffer of the socket is full, which ends after at most
    [patience] attempts. *)
Definition obliging (Y : Type) `{System Y} (fd : Z) (to : Sockaddr) (patience : nat) : Prop :=
  exists busy : Y -> nat, (forall y, (busy y <= patience)%nat) /\
    forall y bs y' e, sys_sendto y fd bs to = (y', Some e) -> e = EAGAIN /\ (busy y' < busy y)%nat.

(** What is known of a run of the sender: it returns and [Q] holds, or the socket refused. *)
Definition unless_refused {A} (refusal : Prop) (Q : A -> Prop) (r : res A) : Prop :=
  match r with Ret a => Q a | _ => refusal end.

Lemma unless_bind {A B} (P : Prop) (Q : A -> Prop) (R : B -> Prop) r f :
  unless_refused P Q r -> (forall a, Q a -> unless_refused P R (f a)) -> unless_refused P R (r ≫= f).
Proof. destruct r; cbn; auto. Qed.

Lemma unless_mono {A} (P P' : Prop) (Q R : A -> Prop) r : (P -> P') -> (forall a, Q a -> R a) ->
  unless_refused P Q r -> unless_refused P' R r.
Proof. destruct r; cbn; auto. Qed.

Section wire.
Context `{Rand} {K Y : Type} `{Epoll K} `{System Y}.
Variables (gap size : Z) (duplicate patience p : nat) (maddr : AddrPort) (fd : Z) (a4 : list byte).
Hypothesis gap_range : 1 <= gap < 2 ^ 31.
Hypothesis size_range : 8 < size.
Hypothesis group : As4 (ap_addr maddr) = Ret a4.
Context `{!Wire Y fd (SockaddrInet4 a4 (ap_port maddr))}.
Implicit Types (w : world K Y).

Abbreviation to := (SockaddrInet4 a4 (ap_port maddr)).
Abbreviation trouble := (~ obliging Y fd to patience).

(** The peer and the memory in place. *)
Definition ready w : Prop := exists x, peers (objs w) !! p = Some x /\ peer_fd x = fd.

(** [bs] were sent, nothing else happened. *)
Definition sent (bs : list (list byte)) w w' : Prop :=
  exists y, w' = set_sys w y /\ on_wire y = on_wire (sys w) ++ bs.

Lemma peer_Write_ok w b bs : ready w -> mem w !! b = Some bs ->
  exists y err, sys_sendto (sys w) fd bs to = (y, err) /\
    peer_Write w p (Some b) maddr =
      Ret (set_sys w y, match err with
                        | None => (zlen bs, None)
                        | Some e => (0, Some (if decide (e = EAGAIN) then ErrWouldBlock
                                              else if decide (e = ENOBUFS) then ErrNoBufferSpaceAvailable else e))
                        end).
Proof.
  intros (x & Hx & Hfd) Hb. destruct (sys_sendto (sys w) fd bs to) as [y err] eqn:E. exists y, err. split; [done |].
  unfold peer_Write, SendTo, buffer, deref. rewrite Hx. res_step. rewrite Hb, group. res_step. rewrite Hfd, E. by destruct err.
Qed.

Lemma write_retry_ok fuel b bs : forall w, ready w -> mem w !! b = Some bs ->
  unless_refused (forall busy : Y -> nat, (busy (sys w) < fuel)%nat ->
      ~ forall y bs y' e, sys_sendto y fd bs to = (y', Some e) -> e = EAGAIN /\ (busy y' < busy y)%nat)
    (sent [bs] w) (write_retry p maddr fuel (Some b) w).
Proof.
  induction fuel as [| fuel IH]; intros w Hr Hb; cbn [write_retry]; [cbn; intros; lia |].
  destruct (peer_Write_ok w b bs Hr Hb) as (y & [e |] & Es & ->); res_step; cbn.
  - assert (on_wire y = on_wire (sys w)) as Hw by (by eapply sendto_failed).
    case_decide as He; [| intros busy Hbusy Hall; destruct (Hall _ _ _ _ Es) as [-> _]; by case_decide].
    eapply unless_mono; [| | exact (IH (set_sys w y) Hr Hb)].
    + intros Hno busy Hbusy Hall; apply (Hno busy); [| exact Hall]; destruct (Hall _ _ _ _ Es) as [_ ?]; cbn; lia.
    + intros w' (y' & -> & Hy'); exists y'; cbn in Hy'; rewrite Hy', Hw; done.
  - exists y; split; [done | by apply sendto_ok].
Qed.

Lemma write_times_ok k b bs : forall w, ready w -> mem w !! b = Some bs ->
  unless_refused trouble (sent (replicate k bs) w) (write_times p maddr patience k (Some b) w).
Proof.
  induction k as [| k IH]; intros w Hr Hb; cbn [write_times replicate].
  { exists (sys w). rewrite app_nil_r. by destruct w. }
  eapply unless_bind.
  - eapply unless_mono; [| | exact (write_retry_ok (Datatypes.S patience) b bs w Hr Hb)]; [| intros a Ha; exact Ha].
    intros Hno (busy & Hle & Hall). apply (Hno busy); [pose proof (Hle (sys w)); lia | exact Hall].
  - intros w1 (y & -> & Hy). eapply unless_mono; [| | exact (IH (set_sys w y) Hr Hb)]; [done |].
    intros w2 (y2 & -> & Hy2). exists y2. cbn in Hy2. rewrite Hy2, Hy, <- app_assoc. done.
Qed.

(** A datagram of the sender. *)
Definition from_sender (x : packet) : Prop :=
  1 <= pk_seq x < 2 ^ 32 /\ 8 + zlen (pk_data x) = size /\ exists n, pk_payload x = word n.

Lemma length_pk_bytes x : zlen (pk_bytes x) = 8 + zlen (pk_data x).
Proof. unfold pk_bytes, encode, pk_data. rewrite !length_app, !length_be_encode. lia. Qed.

(** The packets [xs] are on the wire, each [duplicate] times, and every number from [cov] to
    [cov'] is among them. *)
Definition went_out (w : world K Y) (n : nat) (k cov : Z) (r : sender * world K Y) : Prop :=
  exists xs cov', on_wire (sys r.2) = on_wire (sys w) ++ concat ((fun x => replicate duplicate (pk_bytes x)) <$> xs) /\
    length xs = n /\ Forall from_sender xs /\ progress gap (k + Z.of_nat n) cov' r.1 /\
    forall i, cov < i <= cov' -> exists x, x ∈ xs /\ pk_seq x = i.

Lemma on_tick_ok s w k cov buf : progress gap k cov s -> ready w -> mem w !! sb s = Some buf -> zlen buf = size ->
  k + 1 + 4 * gap < 2 ^ 32 ->
  unless_refused trouble (fun r => exists x cov' buf', ready r.2 /\ mem r.2 !! sb r.1 = Some buf' /\ zlen buf' = size /\
      on_wire (sys r.2) = on_wire (sys w) ++ replicate duplicate (pk_bytes x) /\ from_sender x /\
      progress gap (k + 1) cov' r.1 /\ (cov' = cov \/ (cov' = cov + 1 /\ pk_seq x = cov')))
    (on_tick gap p maddr duplicate patience s w).
Proof.
  intros Hp Hr Hb Hl Hlim. destruct (prepare_packet gap s w buf Hb) as (m & Hlm & Em); [lia |]. set (x := packet_of s buf m) in *.
  destruct (advance_ok gap gap_range k cov s (Datatypes.S (draws s)) Hp) as (s1 & cov1 & Ea & Hs1 & Hp1 & Hcov); [lia |].
  unfold on_tick. rewrite Em, Ea. res_step. cbn [store]. rewrite Hs1. set (w1 := set_mem w (sb s) (pk_bytes x)).
  assert (mem w1 !! sb s = Some (pk_bytes x)) as Hm by (apply list_lookup_insert_eq; by eapply lookup_lt_Some).
  eapply unless_bind; [exact (write_times_ok duplicate (sb s) (pk_bytes x) w1 Hr Hm) |].
  intros w2 (y & -> & Hy). exists x, cov1, (pk_bytes x). cbn [fst snd]. rewrite Hs1. split_and!; try done; [lia |].
  pose proof (progress_seq gap gap_range _ _ _ Hp). rewrite length_pk_bytes in Hlm.
  split_and!; [cbn; lia | cbn; lia | lia | by exists m].
Qed.

Lemma on_ticks_ok n : forall s w k cov buf, progress gap k cov s -> ready w -> mem w !! sb s = Some buf -> zlen buf = size ->
  k + Z.of_nat n + 4 * gap < 2 ^ 32 ->
  unless_refused trouble (went_out w n k cov) (on_ticks gap p maddr duplicate patience n s w).
Proof.
  induction n as [| n IH]; intros s w k cov buf Hp Hr Hb Hl Hlim; cbn [on_ticks].
  { exists [], cov. cbn. rewrite app_nil_r, Z.add_0_r. split_and!; try done. lia. }
  eapply unless_bind; [exact (on_tick_ok s w k cov buf Hp Hr Hb Hl ltac:(lia)) |].
  intros [s1 w1] (x & cov1 & buf1 & Hr1 & Hb1 & Hl1 & Hw & Hx & Hp1 & Hcov). cbn [fst snd] in *.
  eapply unless_mono; [| | exact (IH s1 w1 (k + 1) cov1 buf1 Hp1 Hr1 Hb1 Hl1 ltac:(lia))]; [done |].
  intros [s2 w2] (xs & cov2 & Hw2 & Hlen & Hxs & Hp2 & Hall). cbn [fst snd] in *.
  exists (x :: xs), cov2. cbn [fst snd]. rewrite Hw2, Hw, fmap_cons. cbn [concat length]. rewrite <- app_assoc. split_and!; try done.
  - lia.
  - by constructor.
  - by replace (k + Z.of_nat (Datatypes.S n)) with (k + 1 + Z.of_nat n) by lia.
  - intros i Hi. destruct (decide (i <= cov1)) as [Hle | Hgt].
    + exists x. split; [by apply list_elem_of_here |]. destruct Hcov as [-> | [-> ->]]; lia.
    + destruct (Hall i ltac:(lia)) as (y & Hy & <-). exists y. split; [by apply list_elem_of_further | done].
Qed.
End wire.

(** * The datagrams that arrive *)

Lemma sent_packets (xs : list packet) (k : nat) d : (0 < k)%nat ->
  d ∈ concat ((fun x => replicate k (pk_bytes x)) <$> xs) <-> exists x, x ∈ xs /\ d = pk_bytes x.
Proof.
  intros Hk. induction xs as [| x xs IH]; cbn [concat]; [split; [by intros ?%not_elem_of_nil | by intros (? & ?%not_elem_of_nil & _)] |].
  rewrite fmap_cons. cbn [concat]. rewrite elem_of_app, IH, elem_of_replicate. split.
  - intros [[-> _] | (y & Hy & ->)]; [exists x | exists y]; (split; [| done]); [by left | by right].
  - intros (y & [-> | Hy]%elem_of_cons & ->); [left; split; [done | lia] | right; by exists y].
Qed.

(** Datagrams that were all sent are those of packets. *)
Lemma arrived_packets (xs : list packet) ds : (forall d, d ∈ ds -> exists x, x ∈ xs /\ d = pk_bytes x) ->
  exists ys, ds = pk_bytes <$> ys /\ Forall (fun y => y ∈ xs) ys.
Proof.
  induction ds as [| d ds IH]; intros Hd; [by exists [] |].
  destruct IH as (ys & -> & Hys); [intros d' Hd'; apply Hd; by right |]. destruct (Hd d) as (x & Hx & ->); [by left |].
  exists (x :: ys). split; [done | by constructor].
Qed.

Lemma first_packet_some ys y : y ∈ ys -> is_Some (first_packet ys (pk_seq y)).
Proof.
  induction ys as [| z ys IH]; [by intros ?%not_elem_of_nil |]. intros [-> | Hy]%elem_of_cons; cbn; [by rewrite decide_True |].
  case_decide; [done | by apply IH].
Qed.

Lemma first_packet_in ys i x : first_packet ys i = Some x -> x ∈ ys /\ pk_seq x = i.
Proof.
  induction ys as [| z ys IH]; cbn; [done |]. case_decide; [intros [= <-]; split; [by left | done] |].
  intros [Hx Hi]%IH. split; [by right | done].
Qed.

Lemma total_data_const size ys : Forall (fun y => 8 + zlen (pk_data y) = size) ys -> total_data ys = zlen ys * (size - 8).
Proof. induction 1 as [| y ys Hy _ IH]; cbn [total_data length]; [lia |]. rewrite IH. lia. Qed.

Lemma pk_bytes_seq x y : 1 <= pk_seq x < 2 ^ 32 -> 1 <= pk_seq y < 2 ^ 32 -> pk_bytes x = pk_bytes y -> pk_seq x = pk_seq y.
Proof.
  intros Hx Hy E. apply (f_equal (fun l => be_decode (take 4 l))) in E. unfold pk_bytes, encode in E.
  rewrite !take_app_le, !take_ge, !be_decode_encode in E by (rewrite !length_be_encode; lia).
  change (256 ^ Z.of_nat 4) with (2 ^ 32) in E. rewrite !Z.mod_small in E by lia. done.
Qed.

(** Receivers that get the datagrams of [n] ticks. *)
Lemma delivered `{GoRuntime} {B} `{BytesPool B} (pl : B) (gap size : Z) (duplicate n : nat) s xs cov ds ms bs rs :
  1 <= gap -> 8 < size -> (0 < duplicate)%nat -> length xs = n -> Forall (from_sender size) xs ->
  progress gap (0 + Z.of_nat n) cov s -> (forall i, 0 < i <= cov -> exists x, x ∈ xs /\ pk_seq x = i) ->
  (forall d, d ∈ ds <-> d ∈ concat ((fun x => replicate duplicate (pk_bytes x)) <$> xs)) -> size <= rs < 2 ^ 32 ->
  zlen ds * (size - 8) + rs <= bs <= max_alloc -> zlen ds <= ms <= max_alloc ->
  exists p r1 r2 r3 log1 log2 k,
    NewFenwickProcessor ms bs = Ret p /\
    receive_all p bs rs ds = Ret (r1, log1) /\
    receive_all NewSimpleProcessor bs rs ds = Ret (r2, log2) /\
    receive_all (NewPoolProcessor pl) bs rs ds = Ret (r3, log2) /\
    log1.*1 = seqZ 1 k /\ log2.*1 = seqZ 1 k /\ Z.of_nat n <= (k + 1) * (gap + 2) /\
    Forall (fun '(_, bs) => exists m rest, bs = word m ++ rest) log1 /\
    Forall (fun '(_, bs) => exists m, bs = word m) log2.
Proof.
  intros Hg Hs Hdup Hlen Hxs Hp' Hall Hds Hrs Hbuf Hms.
  destruct (arrived_packets xs ds) as (ys & -> & Hys); [intros d Hd; apply Hds in Hd; by apply sent_packets in Hd |].
  assert (Forall (from_sender size) ys) as Hys'.
  { rewrite list.Forall_forall in Hys, Hxs |- *. intros y Hy. by apply Hxs, Hys. }
  rewrite length_fmap in *. destruct (receivers_run pl ms bs rs ys) as (p & r1 & r2 & r3 & log1 & log2 & k & Ep & E1 & E2 & E3 & K1 & K2 & Hk & Hnone & A1 & A2).
  - lia.
  - eapply list.Forall_impl; [exact Hys' |]. intros y (Hseq & Hsz & _). split_and!; [lia | lia | | lia].
    intros Hn. rewrite Hn in Hsz. cbn in Hsz. lia.
  - rewrite (total_data_const size); [lia |]. eapply list.Forall_impl; [exact Hys' |]. by intros y (_ & Hsz & _).
  - lia.
  - assert (forall i x, first_packet ys i = Some x -> exists m, pk_payload x = word m) as Hword.
    { intros i x [Hx _]%first_packet_in. rewrite list.Forall_forall in Hys'. apply (Hys' x Hx). }
    exists p, r1, r2, r3, log1, log2, k. split_and!; try done.
    + destruct (decide (cov <= k)) as [Hle | Hgt].
      { destruct Hp' as (_ & ? & ? & Hp'). destruct (present s); nia. }
      destruct (Hall (k + 1) ltac:(lia)) as (x & Hx & Hi). assert (pk_bytes x ∈ pk_bytes <$> ys) as (y & Ey & Hy)%list_elem_of_fmap.
      { apply Hds. apply sent_packets; [done |]. by exists x. }
      rewrite list.Forall_forall in Hxs, Hys'. destruct (Hxs x Hx) as [Hx1 _], (Hys' y Hy) as [Hy1 _].
      destruct (first_packet_some ys y Hy) as [z Hz]. rewrite <- (pk_bytes_seq x y Hx1 Hy1 Ey), Hi in Hz. congruence.
    + eapply list.Forall_impl; [exact A1 |]. intros [i b] (x & Hx & Hb). destruct (Hword i x Hx) as [m Hm].
      destruct Hb as [-> | ->]; unfold pk_data; rewrite Hm; [exists m, []; by rewrite app_nil_r | by exists m, (pk_padding x)].
    + eapply list.Forall_impl; [exact A2 |]. intros [i b] (x & Hx & ->). by eapply Hword.
Qed.


#[local] Existing Instance doubling_runtime.

#[local] Instance counting_rand : Rand.
Proof. refine {| draw := fun i n => Z.of_nat i mod n |}. intros i n Hn. by apply Z.mod_pos_bound. Defined.

(** A system that refuses to send every other time. *)
Definition moody : Type := list (list byte) * bool.

Definition moody_sendto (t : moody) (bs : list byte) : moody * option error :=
  if t.2 then ((t.1, false), Some EAGAIN) else ((t.1 ++ [bs], true), None).

#[local] Instance moody_System : System moody.
Proof.
  refine {| sys_read t fd n := (t, inr EAGAIN);
            sys_write t fd bs := (t, inr EAGAIN);
            sys_close t fd := (t, None);
            sys_recvfrom t fd n := (t, inr EAGAIN);
            sys_sendto t fd bs to := moody_sendto t bs;
            sys_accept t fd := (t, inr EAGAIN);
            sys_getsockname t fd := (t, inl localhost);
            sys_setnonblock t fd b := (t, None);
            timerfd_settime t fd n := (t, None);
            rw_read t a n := (t, ([], None));
            rw_write t a bs := (t, (0, None)) |}; try done.
  - intros t a n t' bs err Hn [= <- <- <-]; llia.
  - intros t a bs t' n err [= <- <- <-]; llia.
Defined.

#[local] Instance moody_Wire fd to : Wire moody fd to.
Proof. refine {| on_wire := (fst : moody -> _) |}; intros [l []] bs y'; cbn; unfold moody_sendto; cbn; intros; by simplify_eq. Defined.

Lemma moody_obliging fd to : obliging moody fd to 1.
Proof.
  exists (fun t : moody => if t.2 then 1%nat else 0%nat); split; [intros [l []]; cbn; lia |].
  intros [l []] bs y' e; cbn; unfold moody_sendto; cbn; intros; simplify_eq; cbn; split; [done | lia].
Qed.

(** A peer on descriptor 7 that sends to 224.0.1.0:9000. *)
Definition a_sender : UDPPeer := mkPeer 1 false 7 None None None noAddrPort None noStats.

Definition sender_world : world script_epoll moody :=
  mkWorld (mkIO (mkPoller (mkScript ∅ [] false) [] 0 0 [] false 0 false) ∅ ∅ ∅ 0)
    (mkObjects [] [] [] [] [a_sender] []) [] ([], true) 0 [].

Definition eight_ticks : res (sender * world script_epoll moody) :=
  '(s, w) ← new_sender 2 12 sender_world; on_ticks 2 0 a_peer 2 1 8 s w.

Definition arrivals : list (list byte) := match eight_ticks with Ret (_, w) => reverse (sys w).1 | _ => [] end.

