(* ===== verification/SequencingBip.v ===== *)
(** The receiver of [src/examples/sequencing/receiver/bip_buffer_reader.go], which keeps
    early datagrams whole in a bipartite buffer, in the order they arrived.

    What is processed is recorded as in [Sequencing.v].  The slice [b] that the callback
    captures is the claim of the buffer. *)

From S2P Require Import Prelude GoSlice Sequencing SequencingSpec BipBuffer.

Record BipBufferReader : Type := mkBipReader { bip_buf : BipBuffer; bip_readbufsize : Z; bip_expected : Z; bip_first : bool }.

(** The number and the payload, of which [Data()[8:8+n]] may go up to the capacity. *)
Definition bip_decode (readbufsize : Z) (b : slice byte) : res (Z * list byte) :=
  if decide (slen b < 8) then Panic
  else
    let seq := be_decode (ztake 4 (arr b)) in
    let n := be_decode (ztake 4 (zdrop 4 (arr b))) in
    if decide (n > readbufsize) then Panic
    else payload ← reslice b 8 (8 + n); Ret (seq, elems payload).

Section bip_reader.
Implicit Types (r : BipBufferReader).

Definition NewBipBufferReader (bufsize readbufsize : Z) : res BipBufferReader :=
  b ← NewBipBuffer bufsize;
  Ret (mkBipReader (BipBuffer_Prefault b) readbufsize 1 false).

(** Every turn consumes bytes, if the size of a read is positive. *)
Fixpoint bip_walk (fuel : nat) (b : BipBuffer) (size expected : Z) : res (BipBuffer * Z * processed) :=
  match fuel with
  | O => NoFuel
  | S fuel =>
      h ← Head b;
      match h with
      | None => Ret (b, expected, [])
      | Some h =>
          '(seq, payload) ← bip_decode size h;
          if decide (seq < expected) then bip_walk fuel (BipBuffer_Consume b size) size expected
          else if decide (seq = expected) then
            '(b, e, log) ← bip_walk fuel (BipBuffer_Consume b size) size (expected + 1);
            Ret (b, e, (seq, payload) :: log)
          else Ret (b, expected, [])
      end
  end.

Definition bip_walkBuffer (b : BipBuffer) (size expected : Z) : res (BipBuffer * Z * processed) :=
  bip_walk (S (Z.to_nat (Committed b))) b size expected.

Definition bip_onRead r (nRead : Z) : res (BipBufferReader * processed) :=
  let b := bip_buf r in
  let size := bip_readbufsize r in
  s ← reslice (data b) (claimHead b) (claimTail b);
  '(seq, payload) ← bip_decode size s;
  if decide (bip_first r = true /\ seq <> 1) then Panic
  else
    '(b, e, log) ←
      (if decide (seq = bip_expected r) then
         '(b, e, log) ← bip_walkBuffer b size (bip_expected r + 1);
         Ret (b, e, (seq, payload) :: log)
       else if decide (bip_expected r < seq) then
         '(b, _) ← BipBuffer_Commit b nRead;
         bip_walkBuffer b size (bip_expected r)
       else Ret (b, bip_expected r, []));
    '(b, c) ← BipBuffer_Claim b size;
    match c with
    | None => Panic
    | Some _ => Ret (mkBipReader b size e (bip_first r), log)
    end.

(** A datagram arrives in the claim; what does not fit is dropped. *)
Definition bip_datagram r (bs : list byte) : res (BipBufferReader * processed) :=
  let bs := ztake (Claimed (bip_buf r)) bs in
  bip_onRead (mkBipReader (fill_claim (bip_buf r) bs) (bip_readbufsize r) (bip_expected r) (bip_first r)) (zlen bs).

Fixpoint bip_datagrams r (ds : list (list byte)) : res (BipBufferReader * processed) :=
  match ds with
  | [] => Ret (r, [])
  | d :: ds =>
      '(r, log) ← bip_datagram r d;
      '(r, more) ← bip_datagrams r ds;
      Ret (r, log ++ more)
  end.

(** [Setup], and then the datagrams. *)
Definition bip_receive (bufsize readbufsize : Z) (ds : list (list byte)) : res (BipBufferReader * processed) :=
  r ← NewBipBufferReader bufsize readbufsize;
  '(b, _) ← BipBuffer_Claim (bip_buf r) readbufsize;
  bip_datagrams (mkBipReader b readbufsize (bip_expected r) (bip_first r)) ds.
End bip_reader.

(** * The packets in the buffer *)

(** What [walkBuffer] does with the packets that wait: it stops at the first that is not due. *)
Fixpoint take_due (e : Z) (q : list packet) : Z * list packet * processed :=
  match q with
  | [] => (e, [], [])
  | x :: q' =>
      if decide (pk_seq x < e) then take_due e q'
      else if decide (pk_seq x = e) then
        let '(e', q'', log) := take_due (e + 1) q' in (e', q'', (e, pk_payload x) :: log)
      else (e, q, [])
  end.

Definition on_packet (e : Z) (q : list packet) (x : packet) : Z * list packet * processed :=
  if decide (pk_seq x = e) then
    let '(e', q', log) := take_due (e + 1) q in (e', q', (e, pk_payload x) :: log)
  else if decide (e < pk_seq x) then take_due e (q ++ [x])
  else (e, q, []).

Fixpoint on_packets (e : Z) (q : list packet) (xs : list packet) : Z * list packet * processed :=
  match xs with
  | [] => (e, q, [])
  | x :: xs =>
      let '(e', q', log) := on_packet e q x in
      let '(e'', q'', more) := on_packets e' q' xs in (e'', q'', log ++ more)
  end.

(** A buffer that has not wrapped: [pre] is consumed, [Q] is committed, [F] is free. *)
Definition flat (pre Q F : list byte) (ch ct : Z) : BipBuffer :=
  mkBip (Slice (pre ++ Q ++ F) (zlen (pre ++ Q ++ F))) (zlen pre) (zlen pre + zlen Q) 0 0 ch ct.

Section flat.
Implicit Types (pre Q F : list byte).

Lemma flat_claim pre Q F ch ct n : 0 < n <= zlen F -> zlen pre <= zlen F -> exists s,
  BipBuffer_Claim (flat pre Q F ch ct) n = Ret (flat pre Q F (zlen pre + zlen Q) (zlen pre + zlen Q + n), Some s).
Proof.
  intros Hn Hp. unfold BipBuffer_Claim, claim_place, Wrapped, BipBuffer_Size, flat. cbn [data head tail wrappedHead wrappedTail slen].
  rewrite bool_decide_eq_false_2 by lia. rewrite decide_True by llia. rewrite decide_False by llia.
  replace (if decide _ then n else _) with n by (case_decide; llia).
  rewrite reslice_ok by (unfold scap; cbn; llia). res_step. by eexists.
Qed.

Lemma flat_consume pre x Q F ch ct n : n = zlen x ->
  BipBuffer_Consume (flat pre (x ++ Q) F ch ct) n =
    if decide (Q = []) then flat [] [] (pre ++ x ++ F) ch ct else flat (pre ++ x) Q F ch ct.
Proof.
  intros ->. unfold BipBuffer_Consume, flat. cbn [data head tail wrappedHead wrappedTail claimHead claimTail].
  destruct (decide (Q = [])) as [-> | HQ].
  - rewrite decide_True by llia. rewrite !app_nil_r. cbn [app length]. f_equal.
  - assert (0 < zlen Q) by (destruct Q; [done | cbn; lia]). rewrite decide_False by llia.
    rewrite <- !app_assoc. f_equal; llia.
Qed.

Lemma flat_commit pre Q x F n : n = zlen x -> x <> [] -> exists s,
  BipBuffer_Commit (flat pre Q (x ++ F) (zlen pre + zlen Q) (zlen pre + zlen Q + n)) n = Ret (flat pre (Q ++ x) F 0 0, Some s).
Proof.
  intros -> Hx. assert (0 < zlen x) by (destruct x; [done | cbn; lia]). unfold BipBuffer_Commit, Committed, flat.
  cbn [data head tail wrappedHead wrappedTail claimHead claimTail]. rewrite decide_False by lia.
  replace (if decide (_ > zlen x) then zlen x else _) with (zlen x) by (case_decide; lia).
  case_decide as Hc.
  - assert (Q = []) as -> by (destruct Q; [done | cbn in Hc; lia]). cbn [length app]. rewrite reslice_ok by (unfold scap; cbn; llia).
    res_step. eexists. f_equal. f_equal. f_equal; llia.
  - rewrite decide_True by lia. rewrite reslice_ok by (unfold scap; cbn; llia). res_step. eexists. f_equal. rewrite <- !app_assoc.
    f_equal. f_equal; llia.
Qed.

Lemma flat_head pre Q F ch ct : Head (flat pre Q F ch ct) =
  Ret (if decide (Q = []) then None else Some (Slice (Q ++ F) (zlen Q))).
Proof.
  unfold Head, flat. cbn [data head tail]. destruct (decide (Q = [])) as [-> | HQ]; [by rewrite decide_False by (cbn; lia) |].
  assert (0 < zlen Q) by (destruct Q; [done | cbn; lia]). rewrite decide_True by lia. rewrite reslice_ok by (unfold scap; cbn; llia).
  res_step. cbn [arr]. rewrite zdrop_app_ge by lia. rewrite zdrop_neg by lia. do 3 f_equal. lia.
Qed.
End flat.

(** ** Refinement *)

Section refines.
Variable size : Z.
Hypothesis size_range : 8 < size < 2 ^ 32.

(** A packet that fills a read. *)
Definition full_packet (x : packet) : Prop := 1 <= pk_seq x < 2 ^ 32 /\ 8 + zlen (pk_data x) = size.

Abbreviation bytes_of q := (concat (pk_bytes <$> q)).

Lemma length_full x : full_packet x -> zlen (pk_bytes x) = size.
Proof. intros [_ Hl]. unfold pk_bytes, encode, pk_data in *. rewrite !length_app, !length_be_encode in *. lia. Qed.

Lemma full_nonempty x : full_packet x -> pk_bytes x <> [].
Proof. intros Hx%length_full E. rewrite E in Hx. cbn in Hx. lia. Qed.

Lemma bip_decode_ok x rest n : full_packet x -> size <= n -> bip_decode size (Slice (pk_bytes x ++ rest) n) = Ret (pk_seq x, pk_payload x).
Proof.
  intros Hx Hn. pose proof (length_full x Hx) as Hl. destruct Hx as [Hs Hd]. unfold pk_data in Hd. rewrite length_app in Hd.
  unfold bip_decode. cbn [slen arr]. rewrite decide_False by lia.
  assert (ztake 4 (pk_bytes x ++ rest) = be_encode 4 (pk_seq x)) as ->.
  { unfold pk_bytes, encode. rewrite <- app_assoc. rewrite ztake_app_le, ztake_all by (rewrite length_be_encode; lia). done. }
  assert (ztake 4 (zdrop 4 (pk_bytes x ++ rest)) = be_encode 4 (zlen (pk_payload x))) as ->.
  { unfold pk_bytes, encode. rewrite <- !app_assoc. rewrite zdrop_app_ge by (rewrite length_be_encode; lia). rewrite zdrop_neg by (rewrite length_be_encode; lia).
    rewrite ztake_app_le, ztake_all by (rewrite length_be_encode; lia). done. }
  rewrite !be_decode_encode. change (256 ^ Z.of_nat 4) with (2 ^ 32). rewrite !Z.mod_small by lia.
  rewrite decide_False by lia. rewrite reslice_ok by (unfold scap; cbn [arr]; rewrite ?length_app; lia). res_step. f_equal. f_equal.
  unfold elems, pk_bytes, encode. cbn [arr slen]. rewrite <- !app_assoc.
  rewrite zdrop_app_ge by (rewrite length_be_encode; lia). rewrite zdrop_app_ge by (rewrite !length_be_encode; lia).
  rewrite zdrop_neg by (rewrite !length_be_encode; lia). rewrite ztake_app_le, ztake_all by lia. done.
Qed.

(** [flat] with the same memory, and no less of it free. *)
Definition shrinks (pre Q F pre' Q' F' : list byte) : Prop :=
  zlen pre' + zlen Q' + zlen F' = zlen pre + zlen Q + zlen F /\ zlen F <= zlen F' /\ zlen pre' <= zlen pre + zlen Q.

Lemma bytes_of_nil q : Forall full_packet q -> bytes_of q = [] <-> q = [].
Proof.
  intros Hq. split; [| by intros ->]. destruct Hq as [| x q Hx _]; [done |]. intros E. rewrite fmap_cons in E. cbn [concat] in E.
  apply app_eq_nil in E as [E _]. by apply full_nonempty in Hx.
Qed.

Lemma bip_walk_ok fuel : forall q e pre F ch ct e' q' log, Forall full_packet q -> (length q < fuel)%nat -> take_due e q = (e', q', log) ->
  exists pre' F', bip_walk fuel (flat pre (bytes_of q) F ch ct) size e = Ret (flat pre' (bytes_of q') F' ch ct, e', log) /\
    shrinks pre (bytes_of q) F pre' (bytes_of q') F'.
Proof.
  induction fuel as [| fuel IH]; intros q e pre F ch ct e' q' log Hq Hf Ht; [lia |]. cbn [bip_walk]. rewrite flat_head.
  destruct q as [| x q]; [injection Ht as <- <- <-; exists pre, F; split; [done | split_and!; cbn; lia] |].
  apply list.Forall_cons in Hq as [Hx Hq]. rewrite decide_False by (rewrite bytes_of_nil; [done | by constructor]). res_step.
  rewrite fmap_cons. cbn [concat]. rewrite <- app_assoc. pose proof (length_full x Hx) as Hl.
  rewrite bip_decode_ok by (done || llia). res_step. cbn [take_due] in Ht.
  assert (exists pre1 F1, BipBuffer_Consume (flat pre (pk_bytes x ++ bytes_of q) F ch ct) size = flat pre1 (bytes_of q) F1 ch ct /\
    shrinks pre (pk_bytes x ++ bytes_of q) F pre1 (bytes_of q) F1) as (pre1 & F1 & Ec & Hsh).
  { rewrite flat_consume by lia. clear Ht. destruct (decide (bytes_of q = [])) as [HQ | HQ].
    - rewrite HQ. eexists _, _. split; [reflexivity |]. split_and!; llia.
    - eexists _, _. split; [reflexivity |]. split_and!; llia. }
  rewrite Ec. destruct (decide (pk_seq x < e)) as [H1 | H1]; [| destruct (decide (pk_seq x = e)) as [H2 | H2]].
  - destruct (IH q e pre1 F1 ch ct e' q' log Hq ltac:(cbn in Hf; lia) Ht) as (pre2 & F2 & -> & Hsh2).
    exists pre2, F2. split; [done |]. unfold shrinks in *. lia.
  - destruct (take_due (e + 1) q) as [[e1 q1] log1] eqn:E1. injection Ht as <- <- <-.
    destruct (IH q (e + 1) pre1 F1 ch ct e1 q1 log1 Hq ltac:(cbn in Hf; lia) E1) as (pre2 & F2 & -> & Hsh2). res_step.
    exists pre2, F2. split; [by rewrite H2 |]. unfold shrinks in *. lia.
  - injection Ht as <- <- <-. exists pre, F. split; [by rewrite fmap_cons |]. rewrite fmap_cons. split_and!; cbn; lia.
Qed.

(** Between two datagrams, [m] having arrived. *)
Definition bip_ready (cap m : Z) (r : BipBufferReader) (e : Z) (q : list packet) : Prop := exists pre F,
  r = mkBipReader (flat pre (bytes_of q) F (zlen pre + zlen (bytes_of q)) (zlen pre + zlen (bytes_of q) + size)) size e false /\
  Forall full_packet q /\ zlen pre + zlen (bytes_of q) <= m * size /\ zlen pre + zlen (bytes_of q) + zlen F = cap.

Lemma take_due_full q : forall e e' q' log, Forall full_packet q -> take_due e q = (e', q', log) -> Forall full_packet q'.
Proof.
  induction q as [| x q IH]; intros e e' q' log Hq Ht; cbn [take_due] in Ht; [by injection Ht as <- <- <- |].
  pose proof Hq as Hq0. apply list.Forall_cons in Hq as [Hx Hq]. case_decide; [by eapply IH |]. case_decide; [| by injection Ht as <- <- <-].
  destruct (take_due (e + 1) q) as [[e1 q1] log1] eqn:E1. injection Ht as <- <- <-. by eapply IH.
Qed.

Lemma length_bytes_of q : Forall full_packet q -> zlen (bytes_of q) = zlen q * size.
Proof. induction 1 as [| x q Hx _ IH]; [done |]. rewrite fmap_cons. cbn [concat length]. rewrite length_app, Nat2Z.inj_add, IH, length_full by done. lia. Qed.

Lemma flat_walk q e pre F ch ct e' q' log : Forall full_packet q -> take_due e q = (e', q', log) ->
  exists pre' F', bip_walkBuffer (flat pre (bytes_of q) F ch ct) size e = Ret (flat pre' (bytes_of q') F' ch ct, e', log) /\
    shrinks pre (bytes_of q) F pre' (bytes_of q') F'.
Proof.
  intros Hq Ht. unfold bip_walkBuffer. apply bip_walk_ok; [done | | done]. unfold Committed, flat. cbn [head tail wrappedHead wrappedTail].
  rewrite length_bytes_of by done. nia.
Qed.

(** The arrival of a packet in the claim. *)
Lemma flat_arrive pre Q F x : full_packet x -> size <= zlen F -> exists F2, zlen F2 = zlen F - size /\
  fill_claim (flat pre Q F (zlen pre + zlen Q) (zlen pre + zlen Q + size)) (pk_bytes x) =
    flat pre Q (pk_bytes x ++ F2) (zlen pre + zlen Q) (zlen pre + zlen Q + size).
Proof.
  intros Hx HF. pose proof (length_full x Hx) as Hl. destruct (split3 0 size F) as (a & W & F2 & -> & Ha & HW); [lia | lia |].
  destruct a; [| cbn in Ha; lia]. cbn [app] in *. exists F2. split; [llia |].
  unfold fill_claim, flat. cbn [data arr slen head tail wrappedHead wrappedTail claimHead claimTail].
  pose proof (write_at_app (zlen pre + zlen Q) (pk_bytes x) (pre ++ Q) W F2) as Hw. rewrite <- !app_assoc in Hw.
  rewrite Hw by llia. do 2 f_equal. llia.
Qed.

Lemma bip_claim_ready cap m pre q F ch ct e : Forall full_packet q -> zlen pre + zlen (bytes_of q) <= m * size -> 0 <= m ->
  zlen pre + zlen (bytes_of q) + zlen F = cap -> 2 * (m + 1) * size <= cap -> exists b s,
  BipBuffer_Claim (flat pre (bytes_of q) F ch ct) size = Ret (b, Some s) /\ bip_ready cap m (mkBipReader b size e false) e q.
Proof.
  intros Hq Hm H0 Hc Hcap. destruct (flat_claim pre (bytes_of q) F ch ct size) as [s Es]; [nia | nia |].
  eexists _, s. split; [exact Es |]. exists pre, F. split_and!; done.
Qed.

Lemma bip_datagram_ok cap m r e q x e' q' log : bip_ready cap m r e q -> full_packet x -> 0 <= m -> 2 * (m + 2) * size <= cap ->
  on_packet e q x = (e', q', log) -> exists r', bip_datagram r (pk_bytes x) = Ret (r', log) /\ bip_ready cap (m + 1) r' e' q'.
Proof.
  intros (pre & F & -> & Hq & Hm & Hcap) Hx H0 Hroom Hp. pose proof (length_full x Hx) as Hl. unfold bip_datagram. cbn [bip_buf].
  unfold Claimed at 1 2. cbn [flat claimTail claimHead]. fold (flat pre (bytes_of q) F (zlen pre + zlen (bytes_of q)) (zlen pre + zlen (bytes_of q) + size)).
  rewrite ztake_all by lia. destruct (flat_arrive pre (bytes_of q) F x Hx) as (F2 & HF2 & ->); [nia |].
  unfold bip_onRead. cbn [bip_buf bip_readbufsize bip_expected bip_first]. cbn [flat data claimHead claimTail].
  fold (flat pre (bytes_of q) (pk_bytes x ++ F2) (zlen pre + zlen (bytes_of q)) (zlen pre + zlen (bytes_of q) + size)).
  rewrite reslice_ok by (unfold scap; cbn [arr]; llia). res_step. cbn [arr]. rewrite app_assoc, zdrop_app_ge, zdrop_neg by llia.
  rewrite bip_decode_ok by (done || lia). res_step. rewrite decide_False by (by intros [? _]). unfold on_packet in Hp.
  destruct (decide (pk_seq x = e)) as [He | He]; [| destruct (decide (e < pk_seq x)) as [He' | He']].
  - destruct (take_due (e + 1) q) as [[e1 q1] log1] eqn:E1. injection Hp as <- <- <-.
    destruct (flat_walk q (e + 1) pre (pk_bytes x ++ F2) (zlen pre + zlen (bytes_of q)) (zlen pre + zlen (bytes_of q) + size) e1 q1 log1 Hq E1)
      as (pre1 & F1 & -> & Hs1 & Hs2 & Hs3). res_step. rewrite length_app in *.
    destruct (bip_claim_ready cap (m + 1) pre1 q1 F1 (zlen pre + zlen (bytes_of q)) (zlen pre + zlen (bytes_of q) + size) e1)
      as (b & s & -> & Hr); [by eapply take_due_full | nia | lia | lia | nia |]. res_step. exists (mkBipReader b size e1 false).
    split; [by rewrite He | done].
  - destruct (flat_commit pre (bytes_of q) (pk_bytes x) F2 size) as [s Es]; [lia | by apply full_nonempty |].
    rewrite Hl, Es. res_step. replace (bytes_of q ++ pk_bytes x) with (bytes_of (q ++ [x])) by (rewrite fmap_app, concat_app; cbn; by rewrite app_nil_r).
    assert (Forall full_packet (q ++ [x])) as Hqx by (apply list.Forall_app; split; [done | by constructor]).
    assert (zlen (bytes_of (q ++ [x])) = zlen (bytes_of q) + size) as Hlx by (rewrite !length_bytes_of by done; rewrite length_app; cbn; lia).
    destruct (flat_walk (q ++ [x]) e pre F2 0 0 e' q' log Hqx Hp) as (pre1 & F1 & -> & Hs1 & Hs2 & Hs3). res_step.
    destruct (bip_claim_ready cap (m + 1) pre1 q' F1 0 0 e') as (b & s' & -> & Hr); [by eapply take_due_full | nia | lia | lia | nia |].
    res_step. by exists (mkBipReader b size e' false).
  - injection Hp as <- <- <-. res_step.
    destruct (bip_claim_ready cap (m + 1) pre q (pk_bytes x ++ F2) (zlen pre + zlen (bytes_of q)) (zlen pre + zlen (bytes_of q) + size) e)
      as (b & s & -> & Hr); [done | nia | lia | llia | nia |]. res_step. by exists (mkBipReader b size e false).
Qed.

Lemma bip_datagrams_ok cap xs : forall m r e q e' q' log, bip_ready cap m r e q -> Forall full_packet xs -> 0 <= m ->
  2 * (m + zlen xs + 1) * size <= cap -> on_packets e q xs = (e', q', log) ->
  exists r', bip_datagrams r (pk_bytes <$> xs) = Ret (r', log) /\ bip_ready cap (m + zlen xs) r' e' q'.
Proof.
  induction xs as [| x xs IH]; intros m r e q e' q' log Hr Hxs Hm Hcap Hp.
  { injection Hp as <- <- <-. exists r. split; [done |]. cbn. by rewrite Z.add_0_r. }
  apply list.Forall_cons in Hxs as [Hx Hxs]. cbn [on_packets length] in Hp, Hcap. rewrite fmap_cons. cbn [bip_datagrams length].
  destruct (on_packet e q x) as [[e1 q1] log1] eqn:E1. destruct (on_packets e1 q1 xs) as [[e2 q2] log2] eqn:E2. injection Hp as <- <- <-.
  destruct (bip_datagram_ok cap m r e q x e1 q1 log1 Hr Hx Hm ltac:(nia) E1) as (r1 & -> & Hr1). res_step.
  destruct (IH (m + 1) r1 e1 q1 e2 q2 log2 Hr1 Hxs ltac:(lia) ltac:(nia) E2) as (r2 & -> & Hr2). res_step.
  exists r2. split; [done |]. by replace (m + Z.of_nat (S (length xs))) with (m + 1 + zlen xs) by lia.
Qed.

Lemma bip_receive_ok cap xs e q log : Forall full_packet xs -> 2 * (zlen xs + 1) * size <= cap -> cap <= max_alloc ->
  on_packets 1 [] xs = (e, q, log) -> exists r, bip_receive cap size (pk_bytes <$> xs) = Ret (r, log).
Proof.
  intros Hxs Hcap Ha Hp. assert (0 <= cap) by nia. unfold bip_receive, NewBipBufferReader, NewBipBuffer, make. rewrite decide_True by nia. res_step.
  set (Z0 := replicate (Z.to_nat cap) Byte.x00). assert (zlen Z0 = cap) as HZ0 by (subst Z0; llia).
  replace (BipBuffer_Prefault _) with (flat [] [] Z0 0 0).
  2: { unfold BipBuffer_Prefault, flat. cbn [data slen arr app length head tail wrappedHead wrappedTail claimHead claimTail].
       fold Z0. rewrite zdrop_all by lia. by rewrite app_nil_r, HZ0. }
  cbn [bip_buf bip_expected bip_first].
  destruct (bip_claim_ready cap 0 [] [] Z0 0 0 1) as (b & s & Ec & Hr); [done | cbn; lia | lia | cbn; lia | nia |].
  change (bytes_of []) with (@nil byte) in Ec. rewrite Ec. res_step.
  destruct (bip_datagrams_ok cap xs 0 _ 1 [] e q log Hr Hxs ltac:(lia) ltac:(lia) Hp) as (r & -> & _). by exists r.
Qed.
End refines.

(** ** Order *)

Definition among (xs : list packet) (i : Z) (bs : list byte) : Prop := exists x, x ∈ xs /\ pk_seq x = i /\ pk_payload x = bs.

Lemma take_due_order q : forall e e' q' log, take_due e q = (e', q', log) -> consecutive (among q) e e' log /\ forall x, x ∈ q' -> x ∈ q.
Proof.
  induction q as [| x q IH]; intros e e' q' log Ht; cbn [take_due] in Ht; [injection Ht as <- <- <-; split; [apply consecutive_nil | done] |].
  assert (forall i bs, among q i bs -> among (x :: q) i bs) as Hmore by (intros i bs (y & Hy & ?); exists y; split; [by right | done]).
  destruct (decide (pk_seq x < e)); [| destruct (decide (pk_seq x = e)) as [He |]].
  - destruct (IH e e' q' log Ht) as [Hc Hin]. split; [by eapply consecutive_weaken | intros y Hy; right; by apply Hin].
  - destruct (take_due (e + 1) q) as [[e1 q1] log1] eqn:E1. injection Ht as <- <- <-. destruct (IH _ _ _ _ E1) as [Hc Hin].
    split; [| intros y Hy; right; by apply Hin]. apply consecutive_cons; [exists x; split; [by left | done] | by eapply consecutive_weaken].
  - injection Ht as <- <- <-. split; [apply consecutive_nil | done].
Qed.

Lemma on_packets_order xs : forall e q e' q' log, on_packets e q xs = (e', q', log) -> consecutive (among (q ++ xs)) e e' log.
Proof.
  induction xs as [| x xs IH]; intros e q e' q' log Hp; cbn [on_packets] in Hp; [injection Hp as <- <- <-; apply consecutive_nil |].
  destruct (on_packet e q x) as [[e1 q1] log1] eqn:E1. destruct (on_packets e1 q1 xs) as [[e2 q2] log2] eqn:E2. injection Hp as <- <- <-.
  assert (consecutive (among (q ++ [x])) e e1 log1 /\ forall y, y ∈ q1 -> y ∈ q ++ [x]) as [Hc Hin].
  { unfold on_packet in E1. destruct (decide (pk_seq x = e)); [| destruct (decide (e < pk_seq x))].
    - destruct (take_due (e + 1) q) as [[e3 q3] log3] eqn:E3. injection E1 as <- <- <-. destruct (take_due_order _ _ _ _ _ E3) as [Hc Hin].
      split; [| intros y Hy; apply elem_of_app; left; by apply Hin].
      apply consecutive_cons; [exists x; split; [apply elem_of_app; right; by left | done] |].
      eapply consecutive_weaken; [| exact Hc]. intros i bs (y & Hy & ?). exists y. split; [apply elem_of_app; by left | done].
    - by apply take_due_order.
    - injection E1 as <- <- <-. split; [apply consecutive_nil | intros y Hy; apply elem_of_app; by left]. }
  apply (consecutive_app _ e e1 e2); (eapply consecutive_weaken; [| eauto]); intros i bs (y & Hy & Hyi); exists y; (split; [| done]).
  - rewrite (cons_middle x q xs), app_assoc. apply elem_of_app. by left.
  - rewrite (cons_middle x q xs), app_assoc. apply elem_of_app in Hy as [Hy | Hy]; apply elem_of_app; [left; by apply Hin | by right].
Qed.

(** C20: The receiver on a bipartite buffer, given datagrams that fill its reads and room for
    them, returns without panicking and processes consecutive numbers from 1 on, each once
    and in order, each with the payload of a datagram that arrived with it.  It does not
    process all it could: a datagram that waits behind a later one is not looked at.  After
    3, 2 and 1 have arrived only 1 is processed, where the other receivers process all
    three. *)
Theorem bip_reader_order (size cap : Z) (xs : list packet) :
  8 < size < 2 ^ 32 -> Forall (full_packet size) xs -> 2 * (zlen xs + 1) * size <= cap <= max_alloc ->
  exists r log k, bip_receive cap size (pk_bytes <$> xs) = Ret (r, log) /\ 0 <= k /\ log.*1 = seqZ 1 k /\
    Forall (fun '(i, bs) => exists x, x ∈ xs /\ pk_seq x = i /\ pk_payload x = bs) log /\
    (pk_seq <$> xs = [3; 2; 1] -> k = 1).
Proof.
  intros Hs Hxs [Hcap Ha]. destruct (on_packets 1 [] xs) as [[e q] log] eqn:E.
  destruct (bip_receive_ok size Hs cap xs e q log Hxs Hcap Ha E) as [r Er]. exists r, log, (e - 1).
  destruct (on_packets_order xs 1 [] e q log E) as (He & Hlog & Hall). split_and!; [done | lia | done | |].
  - eapply list.Forall_impl; [exact Hall |]. by intros [i bs].
  - destruct xs as [| x3 [| x2 [| x1 [|]]]]; try done. intros [= H3 H2 H1].
    destruct x1, x2, x3. cbn in H1, H2, H3. subst. cbn in E. by injection E as <- <- <-.
Qed.

(** Three datagrams of twelve bytes, in reverse. *)
Definition backwards : list packet :=
  [mkPacket 3 [Byte.x63] [Byte.x00; Byte.x00; Byte.x00]; mkPacket 2 [Byte.x62] [Byte.x00; Byte.x00; Byte.x00];
   mkPacket 1 [Byte.x61] [Byte.x00; Byte.x00; Byte.x00]].

Lemma bip_reader_order_witness : exists r, bip_receive 96 12 (pk_bytes <$> backwards) = Ret (r, [(1, [Byte.x61])]).
Proof.
  destruct (bip_reader_order 12 96 backwards) as (r & log & k & E & _ & Hlog & _ & Hk).
  - lia.
  - repeat (apply List.Forall_cons; [split; cbn; lia |]). apply List.Forall_nil.
  - unfold max_alloc. cbn. lia.
  - rewrite (Hk eq_refl) in Hlog. exists r. rewrite E. do 2 f_equal.
    assert ((match bip_receive 96 12 (pk_bytes <$> backwards) with Ret (_, l) => l | _ => [] end) = [(1, [Byte.x61])]) as E2 by (vm_compute; reflexivity).
    rewrite E in E2. exact E2.
Defined.
